(* ===== verification/_CoqProject ===== *)
-Q . S2P
Prelude.v
IdTable.v
HashId.v
HashIdSpec.v
Bytes.v
DataBuffer.v
DataBufferSpec.v
CString.v
Double.v
Gate.v
GateInv.v
GateDispatch.v
GateSpec.v
GateCtrl.v
GateLife.v
GateDemo.v
Adlist.v
AdlistProofs.v
AdlistSpec.v
TailQueue.v
TailQueueProofs.v
TailQueueSpec.v
SearchTree.v
SearchTreeProofs.v
SearchTreeSpec.v
ByteMem.v
StlAlloc.v
StlAllocInv.v
StlAllocProofs.v
StlAllocSpec.v
Mysql.v
MysqlSpec.v
Sockets.v
SocketsSpec.v
Watchdog.v
WatchdogSpec.v
Glog.v
GlogSpec.v
Dict.v
DictSpec.v
Lua.v
LuaScript.v
LuaRules.v
LuaDemo.v
LuaSpec.v
