(* ===== verification/Prelude.v ===== *)
(** * A verification of the C and C++ programs of the repository

    The repository collects small programs and services: a gate of the skynet server
    with its watchdog and logger, data structures taken from redis, the SGI STL and BSD,
    a search tree, a MySQL client, socket programs and programs around Lua.  Each is
    modelled as the code is written, the parts that go wrong included, and the theorems
    say what it does.

    ** The parts and their files

    - The gate (skynet_test/skynet/mytest/gate) accepts connections, cuts their byte
      streams into packets and forwards these.  [HashId] is hashid.h, the table from
      socket ids to connections, with [IdTable] as its interface to the gate;
      [DataBuffer] is databuffer.h, the queues of received blocks over one shared pool;
      [Gate] is service_gate.c, every handler as a program over the [struct gate], the
      heap and the trace of its calls.  [CString] and [Bytes] are the functions of the C
      library it uses ([Double] those of floating point that other parts use), and
      [GateDemo] is a concrete gate.
    - The watchdog (service_test/cpp) starts the gate and hears its messages:
      [Watchdog], with the gate in [WatchdogSpec].
    - The log modules (testglog/log.cpp, testcluster/cpp/log/service_log.cpp): [Glog].
    - The doubly linked list of redis (adlist): [Adlist]; the beginning of its
      dictionary (dict.h, dict.c): [Dict].
    - The BSD tail queue and its program (tailqueueTest): [TailQueue].
    - The binary search tree (tree): [SearchTree].
    - The pool allocator of the STL and the storage of its vector (sgi_stl_learn):
      [StlAlloc], over the memory of bytes of [ByteMem].
    - The MySQL client and its test (mysql_api_test): [Mysql].
    - The epoll server and the socket clients (epoll_test, socket_test): [Sockets].
    - The programs that embed Lua and the C functions they give it (lua_and_c,
      C_module_test, and the module table of testglog): [Lua]; their two scripts,
      module.lua and callC.lua, and an interpreter of the Lua they use: [LuaScript];
      what Lua documents of its API: [LuaRules]; a small Lua: [LuaDemo].

    The file of a part has its state as records, its data as inductive types and one
    definition per function, macro or loop, under the name of the source.  A C function
    is a program of the monad [M] below: a function of the state that ends in a result
    and a new state, or in a [fault], the way in which the execution leaves the defined
    behaviour.  [wp m Q s] says that [m] ends without a fault in [Q]; it is total
    correctness.  [wpt] also allows one fault, under a condition.

    ** What the theorems show

    - The gate: [HashIdSpec] shows the chained table equal to a flat array of ids, and
      [DataBufferSpec] the buffer to be a queue of bytes; [GateInv] is the invariant of
      the gate, [GateDispatch] the reference parser of packets, [GateSpec] the abstract
      gate on finite maps, [GateCtrl] the text commands, and [GateLife] puts them
      together: in every state that is reached from [gate_init] the gate serves every
      request of [request_ok] without a fault and as the abstract gate does, delivers
      packets whole and in order however the stream is cut, and leaks no block.
    - [WatchdogSpec]: the watchdog reads back the descriptor of the connection from each
      packet the gate sends it, and starts a gate that reports to it and, when its init
      answers 0, listens where the parameter says.
    - [GlogSpec]: a message of any length is formatted into one block, and the handle
      in a line of the log reads back.
    - [AdlistProofs], [TailQueueProofs], [SearchTreeProofs]: the linked structures as
      sequences and trees, with a rule for each operation; [AdlistSpec], [TailQueueSpec],
      [SearchTreeSpec]: sequences of operations against the sequence of values, the
      traversals, the life of a list, deletion from a search tree and its neighbours.
    - [StlAllocInv] cuts the memory of the allocator into areas, [StlAllocProofs] shows
      how its operations move them, each with the result or the fault that its state
      determines, and [StlAllocSpec] that any sequence of requests is served by blocks
      that are apart and keep what was written, up to the request at which [_S_refill]
      uses its uninitialised pointer; from the start of a program ([alloc_from_start])
      that is the first request for a small block.
    - [MysqlSpec]: which handles and result sets are open, which calls an execution
      makes, and which value of a row a column name gets.
    - [SocketsSpec]: the calls of the server round by round, the descriptors it has
      open, the texts it prints, and that the client prints the stream it receives.
    - [DictSpec]: the load after [_dictExpandIfNeeded], and the members of the union.
    - [LuaSpec]: what the C functions push for their arguments, the tables of the two
      modules, what the programs print with their scripts, by the run of these in the
      interpreter, and the error of Lua they end in without them.

    ** Bounds and fuel

    An [int] is a [Z] whose overflow is the fault [FOverflow] ([int_res]), an unsigned
    type a [Z] reduced by [u32] or [u64]; an array is a list whose index is checked.  A
    loop that is not structural has fuel, and its theorems show that the fuel is enough,
    by showing a result: the loops over a linked structure have one step more than there
    are nodes in the heap ([loop_fuel], [foreach_fuel], [tree_fuel], [queue_fuel]); a
    turn of the packet loop takes a header or a payload off the buffer, and it has two
    for each byte that is queued ([dispatch_fuel]); [_S_chunk_alloc] looks
    through the 16 free lists ([scavenge_fuel]) and calls itself once more with a pool
    that suffices ([chunk_fuel]); a result of MySQL has at most 4096 columns
    ([max_fields]); a size doubled from 256 leaves [int] at the 23rd step ([grow_fuel]).
    A [double] is a [spec_float] of IEEE 754 and has no more than 309 digits before the
    point ([digits]).  The scripts run in [script_fuel], and their runs are computed.
    The rounds of the server are any number, since its loop does not end by itself; the
    loop of test_socket1.cpp takes the fuel as an argument.

    ** What is assumed

    What is not in the repository is a parameter: the calls of skynet ([Skynet]),
    the functions of the MySQL library ([mysql_api]), the operating system ([os]), the
    methods of a list, [dictExpand], the Lua API ([stack_api], [lua_api]), which
    allocations succeed, and [_S_oom_malloc] and [_S_oom_realloc], which stl_alloc.h
    declares and nothing defines.  What is relied on is a class with its laws
    ([MysqlOk], [OsOk], [LibcOk], [AllocatorOk], [DictExpandOk], [StackOk], [LuaValues],
    [LuaOk]), and each has a concrete instance.  [LuaOk] says that a script runs as the
    interpreter says; what the scripts do is computed.

    The gate asks of skynet that the id of a new connection, accepted or opened by the
    command connect, is one that its table does not hold ([request_ok], [connect_ok]);
    the watchdog, that a new service is there when its init answered 0.  A fresh
    address is one that is not in use.

    ** Not modelled

    shm1.cpp is an empty main, and the class vector of stl_vector.h has type definitions
    only.  The Lua library of skynet and the other Lua scripts are not modelled: they
    are Lua around skynet, redis and nginx, and trials of the C modules.  The misspelt names of stl_alloc.h and dict.h, which do not compile,
    are read as the declared ones. *)
From stdpp Require Import gmap list numbers.
From Stdlib Require Import ZArith.

Declare Scope cmodel_scope.
Delimit Scope cmodel_scope with cm.
Open Scope cmodel_scope.

(** ** Faults: the ways a C execution leaves the defined behaviour *)

Inductive fault : Type :=
  | FNull       (* a NULL pointer is dereferenced *)
  | FDangling   (* a pointer to freed or uninitialised memory is dereferenced *)
  | FBounds     (* an array is accessed outside its bounds *)
  | FAssert     (* an [assert] fails *)
  | FOverflow   (* a signed integer operation overflows *)
  | FDivZero    (* a division or remainder by zero *)
  | FNoValue    (* a function returns no value and its value is used *)
  | FUninit     (* an uninitialised variable is used *)
  | FError      (* an error of Lua or an exception of C++ is raised *)
  | FAlloc      (* an allocator that aborts on failure is asked too much *)
  | FFuel.      (* the loop was not finished within the fuel of the model *)

#[global] Instance fault_eq_dec : EqDecision fault.
Proof. solve_decision. Defined.

(** ** Results *)

Inductive res (A : Type) : Type :=
  | Ok (a : A)
  | Fault (f : fault).
Arguments Ok {A} a.
Arguments Fault {A} f.

#[global] Instance res_eq_dec {A} `{!EqDecision A} : EqDecision (res A).
Proof. solve_decision. Defined.

#[global] Instance res_ret : MRet res := λ A a, Ok a.
#[global] Instance res_bind : MBind res := λ A B f m,
  match m with Ok a => f a | Fault e => Fault e end.

(** [safely r Q]: [r] is a value, and the value satisfies [Q]. *)
Definition safely {A} (r : res A) (Q : A → Prop) : Prop :=
  match r with Ok a => Q a | Fault _ => False end.

(** ** A state and fault monad *)

Definition M (S A : Type) : Type := S → res (A * S).

#[global] Instance M_ret {S} : MRet (M S) := λ A a s, Ok (a, s).
#[global] Instance M_bind {S} : MBind (M S) := λ A B f m s,
  match m s with Ok (a, s') => f a s' | Fault e => Fault e end.

Definition fail {S A} (e : fault) : M S A := λ _, Fault e.
Definition gets {S A} (f : S → A) : M S A := λ s, Ok (f s, s).
Definition modify {S} (f : S → S) : M S unit := λ s, Ok (tt, f s).
Definition lift {S A} (r : res A) : M S A := λ s,
  match r with Ok a => Ok (a, s) | Fault e => Fault e end.

(** [assert(c)] of C, and the branch of an [if] with no [else]. *)
Definition c_assert {S} (b : bool) : M S unit :=
  if b then mret tt else fail FAssert.
Definition when {S} (b : bool) (m : M S unit) : M S unit :=
  if b then m else mret tt.

(** [wp m Q s]: from the state [s], [m] ends without a fault, in a result and
    a state that satisfy [Q].  This is total correctness. *)
Definition wp {S A} (m : M S A) (Q : A → S → Prop) (s : S) : Prop :=
  safely (m s) (λ p, Q p.1 p.2).

Lemma wp_elim {S A} (m : M S A) Q s :
  wp m Q s → ∃ a s', m s = Ok (a, s') ∧ Q a s'.
Proof. unfold wp, safely. destruct (m s) as [[a s']|e]; [eauto|done]. Qed.

Lemma wp_intro {S A} (m : M S A) (Q : A → S → Prop) s a s' :
  m s = Ok (a, s') → Q a s' → wp m Q s.
Proof. intros E H. unfold wp. by rewrite E. Qed.

Lemma wp_ret {S A} (a : A) (Q : A → S → Prop) s : Q a s → wp (mret a) Q s.
Proof. done. Qed.

Lemma wp_bind {S A B} (m : M S A) (k : A → M S B) Q s :
  wp m (λ a s', wp (k a) Q s') s → wp (m ≫= k) Q s.
Proof.
  unfold wp, safely, mbind, M_bind. destruct (m s) as [[a s']|e]; done.
Qed.

Lemma wp_bind_inv {S A B} (m : M S A) (k : A → M S B) Q s :
  wp (m ≫= k) Q s → wp m (λ a s', wp (k a) Q s') s.
Proof.
  unfold wp, safely, mbind, M_bind. destruct (m s) as [[a s']|e]; done.
Qed.

Lemma wp_mono {S A} (m : M S A) (Q Q' : A → S → Prop) s :
  wp m Q s → (∀ a s', Q a s' → Q' a s') → wp m Q' s.
Proof.
  unfold wp, safely. destruct (m s) as [[a s']|e]; [|done]. intros ??; auto.
Qed.

Lemma wp_gets {S A} (f : S → A) (Q : A → S → Prop) s :
  Q (f s) s → wp (gets f) Q s.
Proof. done. Qed.

Lemma wp_modify {S} (f : S → S) (Q : unit → S → Prop) s :
  Q tt (f s) → wp (modify f) Q s.
Proof. done. Qed.

Lemma wp_lift {S A} (r : res A) (Q : A → S → Prop) s :
  safely r (λ a, Q a s) → wp (lift r) Q s.
Proof. unfold wp, lift. by destruct r. Qed.

Lemma wp_lift_bind {S A B} (r : res A) a (k : A → M S B) Q s :
  r = Ok a → wp (k a) Q s → wp (lift r ≫= k) Q s.
Proof. by intros ->. Qed.

(** A bind whose first part is known to succeed. *)
Lemma bind_ok {S A B} (m : M S A) (k : A → M S B) s a s' :
  m s = Ok (a, s') → (m ≫= k) s = k a s'.
Proof. unfold mbind, M_bind. by intros ->. Qed.

Lemma wp_assert {S} (b : bool) (Q : unit → S → Prop) s :
  b = true → Q tt s → wp (c_assert b) Q s.
Proof. by intros ->. Qed.

Lemma wp_when {S} (b : bool) (m : M S unit) (Q : unit → S → Prop) s :
  (b = true → wp m Q s) → (b = false → Q tt s) → wp (when b m) Q s.
Proof. destruct b; simpl; intros H1 H2; [by apply H1|by apply H2]. Qed.

(** [wpt e E m Q s]: as [wp], but [m] may also end with the fault [e], if [E]. *)
Definition wpt {S A} (e : fault) (E : Prop) (m : M S A) (Q : A → S → Prop) (s : S) : Prop :=
  match m s with Ok (a, s') => Q a s' | Fault f => f = e ∧ E end.

Lemma wpt_wp {S A} e E (m : M S A) Q s : wp m Q s → wpt e E m Q s.
Proof. unfold wp, wpt, safely. by destruct (m s) as [[]|]. Qed.

Lemma wpt_bind {S A B} e E (m : M S A) (k : A → M S B) Q s :
  wpt e E m (λ a s', wpt e E (k a) Q s') s → wpt e E (m ≫= k) Q s.
Proof. unfold wpt, mbind, M_bind. by destruct (m s) as [[]|]. Qed.

Lemma wpt_mono {S A} e E (m : M S A) (Q Q' : A → S → Prop) s :
  wpt e E m Q s → (∀ a s', Q a s' → Q' a s') → wpt e E m Q' s.
Proof. unfold wpt. destruct (m s) as [[]|]; auto. Qed.

Lemma wpt_wp_bind {S A B} e E (m : M S A) (k : A → M S B) (R : A → S → Prop) Q s :
  wp m R s → (∀ a s', R a s' → wpt e E (k a) Q s') → wpt e E (m ≫= k) Q s.
Proof. intros H HQ. apply wpt_bind, wpt_wp. by eapply wp_mono. Qed.

(** The rules for [wp] that the components share, and their rules for their loads
    and stores. *)
Create HintDb cwp discriminated.
#[export] Hint Resolve wp_ret wp_gets wp_modify : cwp.

(** Peel the next operation of a program whose head is a bind. *)
Ltac wp_step :=
  lazymatch goal with
  | |- wp (mbind _ _) _ _ => apply wp_bind
  | |- wp (mret _) _ _ => apply wp_ret
  | |- wp (gets _) _ _ => apply wp_gets
  | |- wp (modify _) _ _ => apply wp_modify
  | |- wp (lift _) _ _ => apply wp_lift
  end; cbv beta.

(** ** Machine integers *)

Definition int_min : Z := -2147483648.
Definition int_max : Z := 2147483647.

(** The [int] with the bit pattern of [z], and the unsigned types. *)
Definition s32 (z : Z) : Z := (z + 2147483648) `mod` 4294967296 - 2147483648.
Definition u32 (z : Z) : Z := z `mod` 4294967296.
Definition u64 (z : Z) : Z := z `mod` 18446744073709551616.

(** A signed [int] operation whose exact result is [z]. *)
Definition int_res (z : Z) : res Z :=
  if bool_decide (int_min ≤ z ≤ int_max)%Z then Ok z else Fault FOverflow.

Lemma int_res_ok z : (int_min ≤ z ≤ int_max)%Z → int_res z = Ok z.
Proof. intros H. unfold int_res. by rewrite bool_decide_eq_true_2. Qed.

Lemma safely_int_res z (Q : Z → Prop) :
  (int_min ≤ z ≤ int_max)%Z → Q z → safely (int_res z) Q.
Proof. intros H HQ. by rewrite int_res_ok. Qed.

Lemma int_res_fault z : ¬ (int_min ≤ z ≤ int_max)%Z → int_res z = Fault FOverflow.
Proof. intros H. unfold int_res. by rewrite bool_decide_eq_false_2. Qed.

Lemma s32_id z : (int_min ≤ z ≤ int_max)%Z → s32 z = z.
Proof. unfold s32, int_min, int_max. intros H. rewrite Z.mod_small; lia. Qed.

Lemma s32_range z : (int_min ≤ s32 z ≤ int_max)%Z.
Proof.
  unfold s32, int_min, int_max.
  pose proof (Z.mod_pos_bound (z + 2147483648) 4294967296 ltac:(lia)). lia.
Qed.

Lemma u32_id z : (0 ≤ z < 4294967296)%Z → u32 z = z.
Proof. unfold u32. apply Z.mod_small. Qed.

Lemma u64_id z : (0 ≤ z < 18446744073709551616)%Z → u64 z = z.
Proof. unfold u64. apply Z.mod_small. Qed.

(** ** Arrays *)

(** [a[i]] and [a[i] = x], with the index as the C expression computes it. *)
Definition aget {A} (l : list A) (i : Z) : res A :=
  if bool_decide (0 ≤ i)%Z then
    match l !! Z.to_nat i with Some x => Ok x | None => Fault FBounds end
  else Fault FBounds.

Definition aset {A} (l : list A) (i : Z) (x : A) : res (list A) :=
  if bool_decide (0 ≤ i < Z.of_nat (length l))%Z
  then Ok (<[Z.to_nat i := x]> l) else Fault FBounds.

Lemma aget_nat {A} (l : list A) (i : nat) x :
  l !! i = Some x → aget l (Z.of_nat i) = Ok x.
Proof.
  intros H. unfold aget. rewrite bool_decide_eq_true_2 by lia.
  by rewrite Nat2Z.id, H.
Qed.

Lemma aget_in {A} (l : list A) (i : Z) x :
  (0 ≤ i)%Z → l !! Z.to_nat i = Some x → aget l i = Ok x.
Proof. intros Hi H. rewrite <- (Z2Nat.id i) by done. by apply aget_nat. Qed.

Lemma aset_nat {A} (l : list A) (i : nat) x :
  i < length l → aset l (Z.of_nat i) x = Ok (<[i := x]> l).
Proof.
  intros H. unfold aset. rewrite bool_decide_eq_true_2 by lia.
  by rewrite Nat2Z.id.
Qed.

Lemma aset_in {A} (l : list A) (i : Z) x :
  (0 ≤ i < Z.of_nat (length l))%Z → aset l i x = Ok (<[Z.to_nat i := x]> l).
Proof. intros H. unfold aset. by rewrite bool_decide_eq_true_2. Qed.

Lemma Forall2_impl_lookup {A B} (P Q : A → B → Prop) l k : Forall2 P l k →
  (∀ i x y, l !! i = Some x → k !! i = Some y → P x y → Q x y) → Forall2 Q l k.
Proof.
  rewrite !Forall2_same_length_lookup. intros [Hl HP] HQ. split; [done|]. eauto.
Qed.

(** ** Heaps: the address [malloc] returns is not one in use *)

Abbreviation loc := positive (only parsing).

Definition fresh_loc {A} (m : gmap loc A) : loc :=
  Pos.succ (map_fold (λ k _ acc, Pos.max k acc) 1%positive m).

Lemma fresh_loc_bound {A} (m : gmap loc A) k x :
  m !! k = Some x →
  (k ≤ map_fold (λ k _ acc, Pos.max k acc) 1%positive m)%positive.
Proof.
  revert k x.
  refine (map_fold_weak_ind
    (λ r m, ∀ k x, m !! k = Some x → (k ≤ r)%positive) _ _ _ _ m).
  - intros k x H. by rewrite lookup_empty in H.
  - intros i y m' r Hi IH k x. rewrite lookup_insert_Some.
    intros [[-> ->]|[Hne H]]; [lia|]. specialize (IH _ _ H). lia.
Qed.

Lemma fresh_loc_lt {A} (m : gmap loc A) k x :
  m !! k = Some x → (k < fresh_loc m)%positive.
Proof. intros H%fresh_loc_bound. unfold fresh_loc. lia. Qed.

Lemma lookup_above_fresh {A} (m : gmap loc A) k :
  (fresh_loc m ≤ k)%positive → m !! k = None.
Proof.
  intros H. destruct (m !! k) eqn:E; [|done]. apply fresh_loc_lt in E. lia.
Qed.

Lemma lookup_fresh {A} (m : gmap loc A) : m !! fresh_loc m = None.
Proof. apply lookup_above_fresh. lia. Qed.


#[export] Hint Resolve lookup_fresh : cwp.
