(* ===== verification/IdTable.v ===== *)
(** * IdTable: the interface between the connection table and the gate

    What the gate relies on when it maps socket ids to connection slots: the
    table is a finite injective map from ids to slots below a capacity.  The
    hash table of [HashId.v] implements it, the gate's theorems use only these
    laws. *)
From S2P Require Import Prelude.
From stdpp Require Import gmap list.
From Stdlib Require Import ZArith.

(** The socket ids the table accepts: non-negative ones for which the probe
    [i + id], with [i] below the capacity, is an [int]. *)
Definition id_ok (capacity : nat) (k : Z) : Prop :=
  (0 ≤ k ∧ k + Z.of_nat capacity ≤ int_max + 1)%Z.

#[global] Instance id_ok_dec c k : Decision (id_ok c k).
Proof. unfold id_ok. apply _. Defined.

(** The int a lookup returns for an optional slot. *)
Definition slot_int (o : option nat) : Z :=
  match o with Some i => Z.of_nat i | None => -1 end.

Class IdTable {T : Type}
    (lookup : T → Z → res Z) (insert : T → Z → res (Z * T))
    (remove : T → Z → res (Z * T)) (full : T → bool)
    (inv : T → Prop) (abs : T → gmap Z nat) (capacity : T → nat) : Prop := {
  it_lookup : ∀ t k, inv t → lookup t k = Ok (slot_int (abs t !! k));
  it_insert : ∀ t k, inv t → id_ok (capacity t) k → abs t !! k = None →
    size (abs t) < capacity t →
    ∃ i t', insert t k = Ok (Z.of_nat i, t') ∧ inv t' ∧
      capacity t' = capacity t ∧ i < capacity t ∧
      (∀ k', abs t !! k' ≠ Some i) ∧ abs t' = <[k := i]> (abs t);
  it_remove : ∀ t k, inv t →
    ∃ t', remove t k = Ok (slot_int (abs t !! k), t') ∧ inv t' ∧
      capacity t' = capacity t ∧ abs t' = delete k (abs t);
  it_full : ∀ t, inv t → full t = bool_decide (size (abs t) = capacity t);
  it_inj : ∀ t k k' i, inv t → abs t !! k = Some i → abs t !! k' = Some i → k = k';
  it_bound : ∀ t k i, inv t → abs t !! k = Some i → i < capacity t;
  it_size : ∀ t, inv t → size (abs t) ≤ capacity t
}.
