(* ===== verification/HashId.v ===== *)
(** * HashId: the socket id table of the gate (gate/hashid.h)

    The chained hash table over index pointers, its invariant, and for each operation
    the set of ids it leaves; last the instance of [IdTable] for the gate. *)
From S2P Require Import Prelude IdTable.
From stdpp Require Import gmap list.
From Stdlib Require Import ZArith.

(** ** Data *)

(** [struct hashid_node]: a pointer to a node is its index in the array
    [hi->id], so that [c - hi->id] is the index itself. *)
Record hashid_node := HashNode { node_id : Z; node_next : option nat }.

(** [struct hashid].  The two arrays are lists; a NULL array is the empty one. *)
Record hashid := HashId {
  hashmod : Z;
  cap : Z;
  count : Z;
  nodes : list hashid_node;         (* hi->id *)
  hash : list (option nat)          (* hi->hash *)
}.

#[global] Instance hashid_node_eq_dec : EqDecision hashid_node.
Proof. solve_decision. Defined.
#[global] Instance hashid_eq_dec : EqDecision hashid.
Proof. solve_decision. Defined.

Definition free_node : hashid_node := HashNode (-1) None.
Definition set_node_next (nx : option nat) (n : hashid_node) : hashid_node :=
  HashNode (node_id n) nx.

(** ** Operations *)

(** [while (hashcap < max) hashcap *= 2;] *)
Fixpoint hashcap_loop (fuel : nat) (hashcap max : Z) : res Z :=
  match fuel with
  | O => Fault FFuel
  | S f =>
    if (hashcap <? max)%Z
    then hashcap' ← int_res (hashcap * 2); hashcap_loop f hashcap' max
    else Ok hashcap
  end.

(** A negative [max] asks [skynet_malloc] for nearly the whole address space. *)
Definition hashid_init (max : Z) : res hashid :=
  hashcap ← hashcap_loop 32 16 max;
  if (max <? 0)%Z then Fault FAlloc
  else Ok {| hashmod := hashcap - 1; cap := max; count := 0;
             nodes := replicate (Z.to_nat max) free_node;
             hash := replicate (Z.to_nat hashcap) None |}.

Definition hashid_clear (hi : hashid) : hashid :=
  {| hashmod := 1; cap := 0; count := 0; nodes := []; hash := [] |}.

(** The walk of a chain; one unit of fuel per node. *)
Fixpoint lookup_loop (fuel : nat) (ns : list hashid_node) (id : Z)
    (c : option nat) : res Z :=
  match c with
  | None => Ok (-1)%Z
  | Some i =>
    match fuel with
    | O => Fault FFuel
    | S f =>
      n ← aget ns (Z.of_nat i);
      if (node_id n =? id)%Z then Ok (Z.of_nat i)
      else lookup_loop f ns id (node_next n)
    end
  end.

Definition hashid_lookup (hi : hashid) (id : Z) : res Z :=
  c ← aget (hash hi) (Z.land id (hashmod hi));
  lookup_loop (length (nodes hi)) (nodes hi) id c.

(** [while (c->next) ...]: the unlinked node and the nodes after the unlinking. *)
Fixpoint remove_loop (fuel : nat) (ns : list hashid_node) (id : Z) (c : nat)
    : res (option (nat * list hashid_node)) :=
  match fuel with
  | O => Fault FFuel
  | S f =>
    n ← aget ns (Z.of_nat c);
    match node_next n with
    | None => Ok None
    | Some t =>
      temp ← aget ns (Z.of_nat t);
      if (node_id temp =? id)%Z then
        ns' ← aset ns (Z.of_nat c) (set_node_next (node_next temp) n);
        Ok (Some (t, ns'))
      else remove_loop f ns id t
    end
  end.

(** The label [_clear]. *)
Definition remove_clear (hi : hashid) (ns : list hashid_node)
    (hs : list (option nat)) (c : nat) : res (Z * hashid) :=
  ns' ← aset ns (Z.of_nat c) free_node;
  count' ← int_res (count hi - 1);
  Ok (Z.of_nat c,
      {| hashmod := hashmod hi; cap := cap hi; count := count';
         nodes := ns'; hash := hs |}).

Definition hashid_remove (hi : hashid) (id : Z) : res (Z * hashid) :=
  let h := Z.land id (hashmod hi) in
  c ← aget (hash hi) h;
  match c with
  | None => Ok ((-1)%Z, hi)
  | Some c =>
    n ← aget (nodes hi) (Z.of_nat c);
    if (node_id n =? id)%Z then
      hs ← aset (hash hi) h (node_next n);
      remove_clear hi (nodes hi) hs c
    else
      r ← remove_loop (length (nodes hi)) (nodes hi) id c;
      match r with
      | None => Ok ((-1)%Z, hi)
      | Some (t, ns) => remove_clear hi ns (hash hi) t
      end
  end.

(** [for (i=0;i<hi->cap;i++)]: [left] is the number of iterations left. *)
Fixpoint insert_probe (left : nat) (hi : hashid) (id i : Z) : res (option nat) :=
  match left with
  | O => Ok None
  | S left' =>
    s ← int_res (i + id);
    let index := Z.rem s (cap hi) in
    n ← aget (nodes hi) index;
    if (node_id n =? -1)%Z then Ok (Some (Z.to_nat index))
    else insert_probe left' hi id (i + 1)
  end.

Definition hashid_insert (hi : hashid) (id : Z) : res (Z * hashid) :=
  c ← insert_probe (Z.to_nat (cap hi)) hi id 0;
  match c with
  | None => Fault FAssert                                   (* assert(c) *)
  | Some c =>
    count' ← int_res (count hi + 1);
    n ← aget (nodes hi) (Z.of_nat c);
    match node_next n with
    | Some _ => Fault FAssert                   (* assert(c->next == NULL) *)
    | None =>
      let h := Z.land id (hashmod hi) in
      hd ← aget (hash hi) h;
      ns ← aset (nodes hi) (Z.of_nat c) (HashNode id hd);
      hs ← aset (hash hi) h (Some c);
      Ok (Z.of_nat c,
          {| hashmod := hashmod hi; cap := cap hi; count := count';
             nodes := ns; hash := hs |})
    end
  end.

Definition hashid_full (hi : hashid) : bool := (count hi =? cap hi)%Z.

(** ** Specification *)

(** The chain from [p]: the indices of its nodes, in order, down to NULL. *)
Fixpoint path (ns : list hashid_node) (p : option nat) (ch : list nat) : Prop :=
  match ch with
  | [] => p = None
  | i :: ch' => p = Some i ∧ ∃ n, ns !! i = Some n ∧ path ns (node_next n) ch'
  end.

(** The ids of the slots; a free slot has the id -1. *)
Definition ids_of (hi : hashid) : list Z := node_id <$> nodes hi.

(** The slot [i] holds an id of bucket [b]. *)
Definition in_bucket (ids : list Z) (hm : Z) (b i : nat) : Prop :=
  ∃ k, ids !! i = Some k ∧ k ≠ (-1)%Z ∧ Z.land k hm = Z.of_nat b.

Fixpoint used (ids : list Z) : nat :=
  match ids with
  | [] => 0
  | k :: ids' => (if decide (k = -1)%Z then 0 else 1) + used ids'
  end.

(** The ids in use are distinct. *)
Definition uniq (ids : list Z) : Prop :=
  ∀ i j k, ids !! i = Some k → ids !! j = Some k → k ≠ (-1)%Z → i = j.

(** The well-formedness invariant: the size of the bucket array is a power of
    two with [hashmod] its mask; each bucket's chain is finite and holds exactly
    the slots in use whose id falls in the bucket; a free node is unlinked; ids
    are distinct; [count] counts the slots in use. *)
Record wf (hi : hashid) : Prop := {
  wf_mask : ∃ k, (4 ≤ k ≤ 30)%Z ∧ hashmod hi = (2 ^ k - 1)%Z ∧
    Z.of_nat (length (hash hi)) = (2 ^ k)%Z;
  wf_cap : cap hi = Z.of_nat (length (nodes hi));
  wf_cap_le : (cap hi ≤ Z.of_nat (length (hash hi)))%Z;
  wf_chain : ∀ b p, hash hi !! b = Some p → ∃ ch, path (nodes hi) p ch ∧
    NoDup ch ∧ ∀ i, i ∈ ch ↔ in_bucket (ids_of hi) (hashmod hi) b i;
  wf_free : ∀ i n, nodes hi !! i = Some n → node_id n = (-1)%Z → node_next n = None;
  wf_uniq : uniq (ids_of hi);
  wf_count : count hi = Z.of_nat (used (ids_of hi))
}.

(** The abstract map: the slot that holds an id. *)
Fixpoint ids_from (o : nat) (ids : list Z) : gmap Z nat :=
  match ids with
  | [] => ∅
  | k :: ids' =>
    if decide (k = -1)%Z then ids_from (S o) ids'
    else <[k := o]> (ids_from (S o) ids')
  end.
Definition slots (hi : hashid) : gmap Z nat := ids_from 0 (ids_of hi).
Definition table_cap (hi : hashid) : nat := length (nodes hi).

(** ** The list of ids as a map *)

Lemma uniq_tail k ids : uniq (k :: ids) → uniq ids.
Proof.
  intros H i j a Ha Hb Hne. assert (S i = S j); [|lia]. by apply (H _ _ a).
Qed.

Lemma ids_from_spec ids : uniq ids → ∀ o k i,
  ids_from o ids !! k = Some i ↔
  ∃ j, i = o + j ∧ ids !! j = Some k ∧ k ≠ (-1)%Z.
Proof.
  induction ids as [|k0 ids IH]; intros Hu o k i.
  { simpl. rewrite lookup_empty. split; [done|]. by intros (j&_&?&_). }
  specialize (IH (uniq_tail _ _ Hu)). cbn [ids_from]. case_decide as Hn.
  - rewrite IH. split.
    + intros (j&->&?&?). exists (S j). repeat split; [lia|done..].
    + intros ([|j]&->&Hm&?); [simplify_eq/=; congruence|].
      exists j. repeat split; [lia|done..].
  - rewrite lookup_insert_Some, IH. split.
    + intros [[<- <-]|[Hne (j&->&?&?)]].
      * exists 0. repeat split; [lia|done..].
      * exists (S j). repeat split; [lia|done..].
    + intros ([|j]&->&Hm&?); simplify_eq/=.
      * left. split; [done|lia].
      * right. split.
        -- intros ->. assert (0 = S j); [|lia]. by apply (Hu _ _ k).
        -- exists j. repeat split; [lia|done..].
Qed.

Lemma ids_from_0 ids k i : uniq ids →
  ids_from 0 ids !! k = Some i ↔ ids !! i = Some k ∧ k ≠ (-1)%Z.
Proof.
  intros Hu. rewrite ids_from_spec by done. split.
  - by intros (j&->&?&?).
  - intros [??]. by exists i.
Qed.

Lemma slots_spec hi k i : wf hi →
  slots hi !! k = Some i ↔ ids_of hi !! i = Some k ∧ k ≠ (-1)%Z.
Proof. intros H. apply ids_from_0, (wf_uniq hi H). Qed.

Lemma slots_None hi k : wf hi →
  slots hi !! k = None ↔ ∀ i, ids_of hi !! i = Some k → k = (-1)%Z.
Proof.
  intros H. rewrite eq_None_not_Some. split.
  - intros Hn i Hi. destruct (decide (k = -1)%Z); [done|]. destruct Hn.
    exists i. by apply slots_spec.
  - intros Hn [i Hi]. apply slots_spec in Hi as [Hi Hne]; [|done]. eauto.
Qed.

Lemma used_size ids : uniq ids → ∀ o, size (ids_from o ids) = used ids.
Proof.
  induction ids as [|k ids IH]; intros Hu o; [done|].
  pose proof (uniq_tail _ _ Hu) as Hu'. cbn [ids_from used].
  case_decide as Hn; [by rewrite IH|].
  rewrite map_size_insert_None; [by rewrite IH|].
  apply eq_None_not_Some. intros [i Hi]. apply ids_from_spec in Hi; [|done].
  destruct Hi as (j&_&Hm&_).
  assert (0 = S j); [|lia]. by apply (Hu 0 (S j) k).
Qed.

Lemma used_le ids : used ids ≤ length ids.
Proof. induction ids as [|k ids IH]; simpl; [lia|]. case_decide; lia. Qed.

Lemma used_insert ids i k k' : ids !! i = Some k →
  used (<[i := k']> ids) + (if decide (k = -1)%Z then 0 else 1) =
  used ids + (if decide (k' = -1)%Z then 0 else 1).
Proof.
  revert i. induction ids as [|m ids IH]; intros [|i] H; simplify_eq/=; [lia|].
  specialize (IH _ H). lia.
Qed.

Lemma used_lt_free ids : used ids < length ids → ∃ i, ids !! i = Some (-1)%Z.
Proof.
  induction ids as [|k ids IH]; simpl; [lia|]. case_decide as Hn; intros H.
  - exists 0. by subst.
  - destruct IH as (i&?); [lia|]. by exists (S i).
Qed.

(** Changing the id of one slot, to free it or to fill it. *)

Lemma uniq_insert ids t k' :
  uniq ids → (k' = (-1)%Z ∨ ∀ i, ids !! i ≠ Some k') → uniq (<[t := k']> ids).
Proof.
  intros Hu Hk i j k. rewrite !list_lookup_insert_Some.
  intros [(<-&->&_)|[? Hi]] [(<-&?&_)|[? Hj]] Hne; try done.
  - destruct Hk as [->|Hk]; [done|]. by destruct (Hk j).
  - subst. destruct Hk as [->|Hk]; [done|]. by destruct (Hk i).
  - eauto.
Qed.

Lemma ids_from_free ids t k : uniq ids → ids !! t = Some k → k ≠ (-1)%Z →
  ids_from 0 (<[t := (-1)%Z]> ids) = delete k (ids_from 0 ids).
Proof.
  intros Hu Ht Hk. apply map_eq. intros k'. apply option_eq. intros i.
  rewrite lookup_delete_Some, !ids_from_0, list_lookup_insert_Some by
    (try apply uniq_insert; auto). split.
  - intros [[(<-&<-&_)|[Hne Hi]] Hk']; [done|]. split; [|done].
    intros <-. by destruct Hne, (Hu t i k).
  - intros [Hne [Hi Hk']]. split; [|done]. right. split; [congruence|done].
Qed.

Lemma ids_from_fill ids t k : uniq ids → ids !! t = Some (-1)%Z → k ≠ (-1)%Z →
  (∀ i, ids !! i ≠ Some k) →
  ids_from 0 (<[t := k]> ids) = <[k := t]> (ids_from 0 ids).
Proof.
  intros Hu Ht Hk Hnew. apply map_eq. intros k'. apply option_eq. intros i.
  pose proof (lookup_lt_Some _ _ _ Ht) as Hlt.
  rewrite lookup_insert_Some, !ids_from_0, list_lookup_insert_Some by
    (try apply uniq_insert; auto). split.
  - intros [[(<-&<-&_)|[Hne Hi]] Hk']; [by left|]. right. split; [|done].
    intros <-. by destruct (Hnew i).
  - intros [[<- <-]|[Hne [Hi Hk']]]; split; try done; [by left|].
    right. split; [|done]. congruence.
Qed.

Lemma in_bucket_insert ids hm t k' b i : t < length ids →
  in_bucket (<[t := k']> ids) hm b i ↔
  (i = t ∧ k' ≠ (-1)%Z ∧ Z.land k' hm = Z.of_nat b) ∨ (i ≠ t ∧ in_bucket ids hm b i).
Proof.
  intros Ht. unfold in_bucket. split.
  - intros (k&Hk&?&?). rewrite list_lookup_insert_Some in Hk.
    destruct Hk as [(<-&<-&_)|[??]]; [by left|]. right. split; [done|]. by exists k.
  - intros [(->&?&?)|[? (k&?&?&?)]]; [exists k'|exists k].
    + by rewrite list_lookup_insert_eq.
    + by rewrite list_lookup_insert_ne by done.
Qed.

Lemma in_bucket_unique ids hm b b' i :
  in_bucket ids hm b i → in_bucket ids hm b' i → b = b'.
Proof. intros (n&?&_&?) (m&?&_&?). simplify_eq. lia. Qed.

Lemma ids_of_lookup hi i n : nodes hi !! i = Some n → ids_of hi !! i = Some (node_id n).
Proof. intros H. unfold ids_of. by rewrite list_lookup_fmap, H. Qed.

Lemma ids_of_inv hi i k : ids_of hi !! i = Some k →
  ∃ n, nodes hi !! i = Some n ∧ node_id n = k.
Proof. unfold ids_of. rewrite list_lookup_fmap. intros (n&?&?)%fmap_Some. eauto. Qed.

(** ** Chains *)

Lemma path_ext ns ns' p ch :
  (∀ i n, i ∈ ch → ns !! i = Some n → ∃ n', ns' !! i = Some n' ∧ node_next n' = node_next n) →
  path ns p ch → path ns' p ch.
Proof.
  revert p. induction ch as [|i ch IH]; intros p Hext; [done|].
  intros (->&n&Hn&Hp). split; [done|].
  destruct (Hext i n) as (n'&Hn'&E); [set_solver|done|]. exists n'.
  split; [done|]. rewrite E. apply IH; [|done]. intros; eapply Hext; [set_solver|done].
Qed.

Lemma path_insert ns p ch i n : i ∉ ch → path ns p ch → path (<[i:=n]> ns) p ch.
Proof.
  intros Hi. apply path_ext. intros j m Hj Hm. exists m. split; [|done].
  rewrite list_lookup_insert_ne; [done|]. intros ->. done.
Qed.

Lemma path_bound ns p ch i : path ns p ch → i ∈ ch → i < length ns.
Proof.
  revert p. induction ch as [|j ch IH]; intros p Hp Hi; [set_solver|].
  destruct Hp as (->&n&Hn&Hp). apply elem_of_cons in Hi as [->|Hi]; [|eauto].
  eapply lookup_lt_Some; eauto.
Qed.

Lemma path_length ns p ch : path ns p ch → NoDup ch → length ch ≤ length ns.
Proof.
  intros Hp Hnd. etrans; [|apply Nat.eq_le_incl, (length_seq (length ns) 0)].
  apply submseteq_length, NoDup_submseteq; [done|].
  intros i Hi. apply elem_of_seq. pose proof (path_bound _ _ _ _ Hp Hi). lia.
Qed.

(** The first node of a chain with the id, or none. *)
Lemma lookup_loop_spec ns id : ∀ ch fuel p, path ns p ch → length ch ≤ fuel →
  (∃ i n, i ∈ ch ∧ ns !! i = Some n ∧ node_id n = id ∧
     lookup_loop fuel ns id p = Ok (Z.of_nat i)) ∨
  ((∀ i n, i ∈ ch → ns !! i = Some n → node_id n ≠ id) ∧
     lookup_loop fuel ns id p = Ok (-1)%Z).
Proof.
  induction ch as [|i ch IH]; intros fuel p Hp Hf.
  { simpl in Hp. subst. right. split; [set_solver|]. by destruct fuel. }
  destruct Hp as (->&n&Hn&Hp). destruct fuel as [|fuel]; simpl in Hf; [lia|].
  cbn [lookup_loop]. rewrite (aget_nat _ _ _ Hn). cbn [mbind res_bind].
  destruct (Z.eqb_spec (node_id n) id) as [E|E].
  - left. exists i, n. set_solver.
  - destruct (IH fuel (node_next n)) as [(j&m&?&?&?&?)|[Hno Hr]]; [done|lia|..].
    + left. exists j, m. set_solver.
    + right. split; [|done]. intros j m [->|Hj]%elem_of_cons Hm; [congruence|eauto].
Qed.

(** The node after the first one of a chain with the id, or none. *)
Lemma remove_loop_spec ns id : ∀ ch fuel c, path ns (Some c) (c :: ch) →
  NoDup (c :: ch) → length (c :: ch) ≤ fuel →
  (∃ ch1 q t ch2 nq nt, c :: ch = ch1 ++ q :: t :: ch2 ∧
     ns !! q = Some nq ∧ ns !! t = Some nt ∧ node_id nt = id ∧
     remove_loop fuel ns id c =
       Ok (Some (t, <[q := set_node_next (node_next nt) nq]> ns))) ∨
  ((∀ i n, i ∈ ch → ns !! i = Some n → node_id n ≠ id) ∧
     remove_loop fuel ns id c = Ok None).
Proof.
  induction ch as [|t ch IH]; intros fuel c Hp Hnd Hf.
  { destruct Hp as (_&n&Hn&Hnx). simpl in Hnx. right. split; [set_solver|].
    destruct fuel; simpl in Hf; [lia|]. cbn [remove_loop].
    rewrite (aget_nat _ _ _ Hn). cbn [mbind res_bind]. by rewrite Hnx. }
  destruct Hp as (_&n&Hn&Hp). pose proof Hp as (Hnx&nt&Hnt&Hp').
  destruct fuel as [|fuel]; simpl in Hf; [lia|]. cbn [remove_loop].
  rewrite (aget_nat _ _ _ Hn). cbn [mbind res_bind]. rewrite Hnx.
  rewrite (aget_nat _ _ _ Hnt). cbn [mbind res_bind].
  destruct (Z.eqb_spec (node_id nt) id) as [E|E].
  - left. exists [], c, t, ch, n, nt. rewrite aset_nat by (eapply lookup_lt_Some; eauto).
    done.
  - rewrite Hnx in Hp. apply NoDup_cons in Hnd as [Hc Hnd].
    destruct (IH fuel t) as [(ch1&q&t'&ch2&nq&nt'&E'&?&?&?&?)|[Hno Hr]];
      [done|done|simpl; lia|..].
    + left. exists (c :: ch1), q, t', ch2, nq, nt'. by rewrite E'.
    + right. split; [|done]. intros i m [->|Hi]%elem_of_cons Hm; [congruence|eauto].
Qed.

(** Unlinking [t], the node after [q]. *)
Lemma path_unlink ns p ch1 q t ch2 nq nt :
  path ns p (ch1 ++ q :: t :: ch2) → NoDup (ch1 ++ q :: t :: ch2) →
  ns !! q = Some nq → ns !! t = Some nt →
  path (<[q := set_node_next (node_next nt) nq]> ns) p (ch1 ++ q :: ch2).
Proof.
  revert p. induction ch1 as [|i ch1 IH]; simpl; intros p Hp Hnd Hq Ht.
  - destruct Hp as (->&n&Hn&Hp). split; [done|]. simplify_eq.
    exists (set_node_next (node_next nt) n).
    rewrite list_lookup_insert_eq by (eapply lookup_lt_Some; eauto).
    split; [done|]. destruct Hp as (Hnx&m&Hm&Hp). simplify_eq.
    apply path_insert; [|done]. apply NoDup_cons in Hnd as [Hnd _]. set_solver.
  - destruct Hp as (->&n&Hn&Hp). split; [done|]. exists n.
    apply NoDup_cons in Hnd as [Hi Hnd]. split; [|by apply IH].
    rewrite list_lookup_insert_ne; [done|]. set_solver.
Qed.

(** ** Buckets *)

Lemma mask_index hi id : wf hi →
  (0 ≤ Z.land id (hashmod hi) < Z.of_nat (length (hash hi)))%Z.
Proof.
  intros (k&Hk&->&->)%wf_mask. replace (2 ^ k - 1)%Z with (Z.ones k)
    by (rewrite Z.ones_equiv; lia).
  rewrite Z.land_ones by lia. apply Z.mod_pos_bound. lia.
Qed.

Lemma cap_small hi : wf hi → (0 ≤ cap hi ≤ 2 ^ 30)%Z.
Proof.
  intros H. pose proof (wf_cap_le hi H) as Hcl. rewrite (wf_cap hi H) in *.
  destruct (wf_mask hi H) as (k&Hk&_&El). rewrite El in Hcl.
  pose proof (Z.pow_le_mono_r 2 k 30). lia.
Qed.

(** Reading the bucket of an id: its head and its chain. *)
Lemma bucket_read hi id : wf hi → ∃ b p ch,
  Z.land id (hashmod hi) = Z.of_nat b ∧ b < length (hash hi) ∧
  hash hi !! b = Some p ∧ aget (hash hi) (Z.land id (hashmod hi)) = Ok p ∧
  path (nodes hi) p ch ∧ NoDup ch ∧ length ch ≤ length (nodes hi) ∧
  (∀ i, i ∈ ch ↔ in_bucket (ids_of hi) (hashmod hi) b i).
Proof.
  intros H. pose proof (mask_index hi id H) as Hb.
  set (b := Z.to_nat (Z.land id (hashmod hi))).
  assert (Eb : Z.land id (hashmod hi) = Z.of_nat b) by (subst b; lia).
  destruct (lookup_lt_is_Some_2 (hash hi) b) as [p Hp]; [lia|].
  destruct (wf_chain hi H b p Hp) as (ch&?&?&?).
  exists b, p, ch. rewrite Eb.
  split_and!; try done; [lia|by apply aget_nat|by eapply path_length].
Qed.

(** Rebuilding the invariant after the change of slot [t] of bucket [b]: its id
    becomes [k'], the links of the other buckets stay. *)
Lemma wf_update hi b p t k' ns' p' ch' cnt :
  wf hi → hash hi !! b = Some p → t < length (nodes hi) →
  node_id <$> ns' = <[t := k']> (ids_of hi) →
  path ns' p' ch' → NoDup ch' →
  (∀ i, i ∈ ch' ↔ in_bucket (node_id <$> ns') (hashmod hi) b i) →
  (∀ b' i n, b' ≠ b → in_bucket (ids_of hi) (hashmod hi) b' i → nodes hi !! i = Some n →
     i ≠ t ∧ ∃ n', ns' !! i = Some n' ∧ node_next n' = node_next n) →
  (k' ≠ (-1)%Z → Z.land k' (hashmod hi) = Z.of_nat b) →
  (∀ i n, ns' !! i = Some n → node_id n = (-1)%Z → node_next n = None) →
  uniq (node_id <$> ns') → cnt = Z.of_nat (used (node_id <$> ns')) →
  wf {| hashmod := hashmod hi; cap := cap hi; count := cnt; nodes := ns';
        hash := <[b := p']> (hash hi) |}.
Proof.
  intros H Hb Ht Hids Hp Hnd Hin Hnext Hk' Hfree Hu Hcnt.
  pose proof (lookup_lt_Some _ _ _ Hb) as Hblt.
  assert (Hlen : length ns' = length (nodes hi)).
  { apply (f_equal length) in Hids. unfold ids_of in Hids.
    by rewrite length_insert, !length_fmap in Hids. }
  constructor; simpl; rewrite ?length_insert; try done.
  - apply (wf_mask hi H).
  - rewrite Hlen. apply (wf_cap hi H).
  - apply (wf_cap_le hi H).
  - intros b' q. destruct (decide (b' = b)) as [->|Hne].
    + rewrite list_lookup_insert_eq by done. intros [= <-]. by exists ch'.
    + rewrite list_lookup_insert_ne by done. intros Hq.
      destruct (wf_chain hi H b' q Hq) as (ch&Hpc&Hndc&Hinc). exists ch.
      split_and!; [|done|].
      * eapply path_ext; [|done]. intros i n Hi Hn. apply (Hnext b'); [done| |done].
        by apply Hinc.
      * intros i. unfold ids_of at 1. simpl. rewrite Hinc, Hids, in_bucket_insert by
          (unfold ids_of; by rewrite length_fmap).
        split; [|intros [(->&Hk&E)|[_ ?]]; [specialize (Hk' Hk); lia|done]].
        intros Hb'. right. split; [|done]. pose proof Hb' as (k&Hk&_).
        apply ids_of_inv in Hk as (n&Hn&_). by destruct (Hnext b' i n).
Qed.

(** ** Initialisation *)

Lemma hashcap_loop_spec max : (max ≤ 2 ^ 30)%Z → ∀ fuel k, (0 ≤ k ≤ 30)%Z →
  (31 - k ≤ Z.of_nat fuel)%Z → ∃ k', (k ≤ k' ≤ 30)%Z ∧ (max ≤ 2 ^ k')%Z ∧
  hashcap_loop fuel (2 ^ k) max = Ok (2 ^ k')%Z.
Proof.
  intros Hmax. induction fuel as [|fuel IH]; intros k Hk Hf; [lia|].
  cbn [hashcap_loop]. destruct (Z.ltb_spec (2 ^ k) max) as [Hlt|Hge].
  - assert (k ≠ 30)%Z by (intros ->; lia).
    assert (E : (2 ^ k * 2 = 2 ^ (k + 1))%Z) by (rewrite Z.pow_add_r; lia).
    assert (2 ^ (k + 1) ≤ 2 ^ 30)%Z by (apply Z.pow_le_mono_r; lia).
    rewrite E, int_res_ok by (unfold int_min, int_max; lia). cbn [mbind res_bind].
    destruct (IH (k + 1)%Z) as (k'&?&?&?); [lia..|]. exists k'. split; [lia|done].
  - exists k. split; [lia|done].
Qed.

Lemma hashcap_loop_overflow max : (2 ^ 30 < max)%Z → ∀ fuel k, (0 ≤ k ≤ 30)%Z →
  (31 - k ≤ Z.of_nat fuel)%Z → hashcap_loop fuel (2 ^ k) max = Fault FOverflow.
Proof.
  intros Hmax. induction fuel as [|fuel IH]; intros k Hk Hf; [lia|].
  cbn [hashcap_loop].
  assert (2 ^ k ≤ 2 ^ 30)%Z by (apply Z.pow_le_mono_r; lia).
  rewrite (proj2 (Z.ltb_lt _ _)) by lia.
  assert (E : (2 ^ k * 2 = 2 ^ (k + 1))%Z) by (rewrite Z.pow_add_r; lia). rewrite E.
  destruct (decide (k = 30)%Z) as [->|Hk30].
  - by rewrite int_res_fault by (unfold int_min, int_max; lia).
  - assert (2 ^ (k + 1) ≤ 2 ^ 30)%Z by (apply Z.pow_le_mono_r; lia).
    rewrite int_res_ok by (unfold int_min, int_max; lia). cbn [mbind res_bind].
    apply IH; lia.
Qed.

Lemma used_replicate n : used (replicate n (-1)%Z) = 0.
Proof. by induction n. Qed.

Lemma ids_from_replicate n o : ids_from o (replicate n (-1)%Z) = ∅.
Proof. revert o. by induction n; intros o; simpl. Qed.

Lemma init_wf max k : (0 ≤ max ≤ 2 ^ k)%Z → (4 ≤ k ≤ 30)%Z →
  wf {| hashmod := 2 ^ k - 1; cap := max; count := 0;
        nodes := replicate (Z.to_nat max) free_node;
        hash := replicate (Z.to_nat (2 ^ k)) None |}.
Proof.
  intros Hmax Hk. assert (0 < 2 ^ k)%Z by (apply Z.pow_pos_nonneg; lia).
  assert (Hids : node_id <$> replicate (Z.to_nat max) free_node =
    replicate (Z.to_nat max) (-1)%Z) by (by rewrite fmap_replicate).
  assert (Hrep : ∀ i z, replicate (Z.to_nat max) (-1)%Z !! i = Some z → z = (-1)%Z)
    by (by intros i z [-> _]%lookup_replicate).
  constructor; unfold ids_of; simpl; rewrite ?Hids, ?length_replicate.
  - exists k. rewrite Z2Nat.id by lia. done.
  - lia.
  - lia.
  - intros b p [-> Hb]%lookup_replicate. exists []. split_and!; [done|constructor|].
    intros i. split; [set_solver|]. intros (z&Hz&?&_). by apply Hrep in Hz.
  - by intros i n [-> _]%lookup_replicate.
  - intros i j z Hi _ Hne. by apply Hrep in Hi.
  - by rewrite used_replicate.
Qed.

Lemma init_ok max : (0 ≤ max ≤ 2 ^ 30)%Z → ∃ hi, hashid_init max = Ok hi ∧ wf hi ∧
  table_cap hi = Z.to_nat max ∧ slots hi = ∅.
Proof.
  intros Hmax. unfold hashid_init. change 16%Z with (2 ^ 4)%Z.
  destruct (hashcap_loop_spec max ltac:(lia) 32 4) as (k&Hk&Hle&->); [lia..|].
  cbn [mbind res_bind]. rewrite (proj2 (Z.ltb_ge _ _)) by lia.
  eexists. split; [done|]. split; [apply init_wf; lia|]. split.
  - unfold table_cap. simpl. by rewrite length_replicate.
  - unfold slots, ids_of. simpl. by rewrite fmap_replicate, ids_from_replicate.
Qed.

(** ** Lookup *)

Lemma lookup_ok hi id : wf hi → hashid_lookup hi id = Ok (slot_int (slots hi !! id)).
Proof.
  intros H. unfold hashid_lookup.
  destruct (bucket_read hi id H) as (b&p&ch&Eb&Hb&Hp&->&Hpath&Hnd&Hlen&Hin).
  cbn [mbind res_bind].
  destruct (lookup_loop_spec (nodes hi) id ch (length (nodes hi)) p)
    as [(i&n&Hi&Hn&E&->)|[Hno ->]]; try done.
  - apply Hin in Hi as (k&Hk&Hne&_). rewrite (ids_of_lookup _ _ _ Hn) in Hk.
    assert (slots hi !! id = Some i) as ->; [|done].
    apply slots_spec; [done|]. split; [|congruence].
    by rewrite (ids_of_lookup _ _ _ Hn), E.
  - assert (slots hi !! id = None) as ->; [|done].
    apply slots_None; [done|]. intros i Hi.
    destruct (decide (id = -1)%Z) as [|Hid1]; [done|].
    destruct (ids_of_inv _ _ _ Hi) as (n&Hn&Hk). destruct (Hno i n); [|done..].
    apply Hin. by exists id.
Qed.

(** Dropping the middle element of a duplicate-free list. *)
Lemma NoDup_drop_mid {A} (l1 l2 : list A) q t :
  NoDup (l1 ++ q :: t :: l2) →
  NoDup (l1 ++ q :: l2) ∧ ∀ i, i ∈ l1 ++ q :: l2 ↔ i ∈ l1 ++ q :: t :: l2 ∧ i ≠ t.
Proof.
  intros H. assert (E : l1 ++ q :: t :: l2 ≡ₚ t :: (l1 ++ q :: l2)) by solve_Permutation.
  rewrite E in H. apply NoDup_cons in H as [Ht Hnd]. split; [done|].
  intros i. rewrite E, elem_of_cons. split; [|intros [[]?]; done].
  intros Hi. split; [by right|]. by intros ->.
Qed.

(** ** Remove *)

(** The slot [t] of the bucket [b] is unlinked ([ns0], [p']) and cleared. *)
Lemma remove_update hi id b p (ch : list nat) t ns0 p' (ch' : list nat) :
  wf hi → Z.land id (hashmod hi) = Z.of_nat b → hash hi !! b = Some p →
  (∀ i, i ∈ ch ↔ in_bucket (ids_of hi) (hashmod hi) b i) →
  t ∈ ch → ids_of hi !! t = Some id →
  node_id <$> ns0 = ids_of hi →
  (∀ i, i ∉ ch → ns0 !! i = nodes hi !! i) →
  (∀ i n, ns0 !! i = Some n → node_id n = (-1)%Z → node_next n = None) →
  path ns0 p' ch' → NoDup ch' → (∀ i, i ∈ ch' ↔ i ∈ ch ∧ i ≠ t) →
  ∃ hi', remove_clear hi ns0 (<[b := p']> (hash hi)) t = Ok (Z.of_nat t, hi') ∧
    wf hi' ∧ table_cap hi' = table_cap hi ∧ slots hi' = delete id (slots hi).
Proof.
  intros H Eb Hp Hin Ht Hid Hids Hsame Hfree Hpath Hnd Hin'.
  pose proof (wf_uniq hi H) as Hu.
  assert (Hne : id ≠ (-1)%Z) by (apply Hin in Ht as (k&?&?&_); congruence).
  assert (Hlen : length ns0 = length (nodes hi)).
  { apply (f_equal length) in Hids. unfold ids_of in Hids. by rewrite !length_fmap in Hids. }
  assert (Htlt : t < length ns0).
  { rewrite <- (length_fmap node_id), Hids. by eapply lookup_lt_Some. }
  assert (Hids' : node_id <$> <[t := free_node]> ns0 = <[t := (-1)%Z]> (ids_of hi))
    by (by rewrite list_fmap_insert, Hids).
  pose proof (used_insert _ _ _ (-1)%Z Hid) as Hused.
  rewrite decide_False, decide_True in Hused by done.
  pose proof (used_le (ids_of hi)) as Hule. unfold ids_of in Hule at 2.
  rewrite length_fmap in Hule. pose proof (cap_small hi H) as Hcap.
  pose proof (wf_cap hi H) as Hc. pose proof (wf_count hi H) as Hcnt.
  unfold remove_clear. rewrite aset_nat by done. cbn [mbind res_bind].
  rewrite int_res_ok by (unfold int_min, int_max; lia). cbn [mbind res_bind].
  eexists. split; [done|]. split.
  - eapply (wf_update hi b p t (-1)%Z _ p' ch'); try done.
    + by rewrite <- Hlen.
    + apply path_insert; [|done]. rewrite Hin'. by intros [].
    + intros i. rewrite Hids', in_bucket_insert, <- Hin, Hin' by
        (by rewrite <- Hids, length_fmap). naive_solver.
    + intros b' i n Hb' Hi Hn. assert (i ∉ ch).
      { intros Hic. apply Hin in Hic. eapply Hb', in_bucket_unique; eauto. }
      assert (i ≠ t) by set_solver. split; [done|]. exists n.
      by rewrite list_lookup_insert_ne, Hsame.
    + intros i n. rewrite list_lookup_insert_Some. intros [(_&<-&_)|[_ ?]]; [done|eauto].
    + rewrite Hids'. apply uniq_insert; auto.
    + rewrite Hids'. lia.
  - split; [by unfold table_cap; simpl; rewrite length_insert|].
    unfold slots at 1, ids_of. simpl. rewrite Hids'. by apply ids_from_free.
Qed.

(** What the chain of a bucket says of an id of the bucket. *)
Lemma chain_none hi id b (ch : list nat) : wf hi → Z.land id (hashmod hi) = Z.of_nat b →
  (∀ i, i ∈ ch ↔ in_bucket (ids_of hi) (hashmod hi) b i) →
  (∀ i n, i ∈ ch → nodes hi !! i = Some n → node_id n ≠ id) → slots hi !! id = None.
Proof.
  intros H Eb Hin Hno. apply slots_None; [done|]. intros i Hi.
  destruct (decide (id = -1)%Z) as [|Hid1]; [done|].
  destruct (ids_of_inv _ _ _ Hi) as (n&Hn&Hk). destruct (Hno i n); [|done..].
  apply Hin. by exists id.
Qed.

Lemma chain_some hi b (ch : list nat) t n : wf hi →
  (∀ i, i ∈ ch ↔ in_bucket (ids_of hi) (hashmod hi) b i) →
  t ∈ ch → nodes hi !! t = Some n →
  slots hi !! node_id n = Some t ∧ ids_of hi !! t = Some (node_id n).
Proof.
  intros H Hin Ht Hn. apply ids_of_lookup in Hn. split; [|done].
  apply slots_spec; [done|]. split; [done|].
  apply Hin in Ht as (k&?&?&_). congruence.
Qed.

(** The removal of a node behind another one, whose link is set. *)
Lemma remove_behind hi id b p ch1 q t ch2 nq nt : wf hi → Z.land id (hashmod hi) = Z.of_nat b →
  hash hi !! b = Some p → path (nodes hi) p (ch1 ++ q :: t :: ch2) →
  NoDup (ch1 ++ q :: t :: ch2) →
  (∀ i, i ∈ ch1 ++ q :: t :: ch2 ↔ in_bucket (ids_of hi) (hashmod hi) b i) →
  nodes hi !! q = Some nq → nodes hi !! t = Some nt → ids_of hi !! t = Some id →
  ∃ hi', remove_clear hi (<[q := set_node_next (node_next nt) nq]> (nodes hi)) (hash hi) t =
    Ok (Z.of_nat t, hi') ∧
    wf hi' ∧ table_cap hi' = table_cap hi ∧ slots hi' = delete id (slots hi).
Proof.
  intros H Eb Hp Hpath Hnd Hin Hq Hnt Hid. rewrite <- (list_insert_id (hash hi) b p) by done.
  eapply (remove_update hi id b _ (ch1 ++ q :: t :: ch2) t _ _ (ch1 ++ q :: ch2)); try done.
  - set_solver.
  - rewrite list_fmap_insert. simpl. apply list_insert_id. by apply ids_of_lookup.
  - intros i Hi. rewrite list_lookup_insert_ne; [done|]. set_solver.
  - intros i m. rewrite list_lookup_insert_Some.
    intros [(<-&<-&_)|[_ ?]]; [|by eapply (wf_free hi H)]. simpl. intros Enq.
    assert (Hqb : q ∈ ch1 ++ q :: t :: ch2) by set_solver.
    apply Hin in Hqb as (k&Hk&?&_). apply ids_of_lookup in Hq. congruence.
  - by eapply path_unlink.
  - by eapply NoDup_drop_mid.
  - by apply NoDup_drop_mid.
Qed.

Lemma remove_ok hi id : wf hi → ∃ hi',
  hashid_remove hi id = Ok (slot_int (slots hi !! id), hi') ∧ wf hi' ∧
  table_cap hi' = table_cap hi ∧ slots hi' = delete id (slots hi).
Proof.
  intros H. unfold hashid_remove.
  destruct (bucket_read hi id H) as (b&p&ch&Eb&Hb&Hp&->&Hpath&Hnd&Hlen&Hin).
  cbn [mbind res_bind].
  pose proof (chain_none hi id b ch H Eb Hin) as Hnone. destruct ch as [|c ch].
  { simpl in Hpath. subst p. exists hi. rewrite Hnone by set_solver.
    rewrite delete_id by (apply Hnone; set_solver). done. }
  pose proof Hpath as (->&n&Hn&Hpath'). rewrite (aget_nat _ _ _ Hn). cbn [mbind res_bind].
  destruct (Z.eqb_spec (node_id n) id) as [E|E].
  - destruct (chain_some hi b _ c n H Hin) as [Hsl Hid]; [set_solver|done..|]. rewrite E in Hsl, Hid.
    rewrite Hsl, Eb, aset_nat by done. cbn [mbind res_bind].
    apply NoDup_cons in Hnd as Hnd'. destruct Hnd' as [Hc Hnd'].
    eapply (remove_update hi id b _ (c :: ch) c _ _ ch); try done; [set_solver| |].
    + apply (wf_free hi H).
    + set_solver.
  - destruct (remove_loop_spec (nodes hi) id ch (length (nodes hi)) c)
      as [(ch1&q&t&ch2&nq&nt&Ech&Hq&Hnt&<-&->)|[Hno ->]]; try done; cbn [mbind res_bind].
    + rewrite Ech in *.
      destruct (chain_some hi b _ t nt H Hin) as [Hsl Hid]; [set_solver|done..|]. rewrite Hsl.
      by eapply remove_behind.
    + exists hi. assert (Hno' : slots hi !! id = None).
      { apply Hnone. intros i m [->|Hi]%elem_of_cons Hm; [congruence|eauto]. }
      by rewrite Hno', delete_id.
Qed.

(** ** Insert *)

(** The probe visits the slots [(i + id) mod cap] for [i] from its argument to
    [cap - 1] and stops at the first free one. *)
Lemma insert_probe_spec hi id : wf hi → id_ok (table_cap hi) id →
  ∀ left i, (0 ≤ i)%Z → (i + Z.of_nat left = cap hi)%Z →
  (∃ j c, (i ≤ j < cap hi)%Z ∧ c = Z.to_nat ((j + id) `mod` cap hi) ∧
     ids_of hi !! c = Some (-1)%Z ∧
     (∀ j', (i ≤ j' < j)%Z →
        ids_of hi !! Z.to_nat ((j' + id) `mod` cap hi) ≠ Some (-1)%Z) ∧
     insert_probe left hi id i = Ok (Some c)) ∨
  ((∀ j, (i ≤ j < cap hi)%Z →
      ids_of hi !! Z.to_nat ((j + id) `mod` cap hi) ≠ Some (-1)%Z) ∧
     insert_probe left hi id i = Ok None).
Proof.
  intros H [Hid0 Hid1]. induction left as [|left IH]; intros i Hi Hl.
  { right. split; [lia|done]. }
  cbn [insert_probe]. pose proof (wf_cap hi H) as Hcap. unfold table_cap in Hid1.
  rewrite int_res_ok by (unfold int_min, int_max in *; lia). cbn [mbind res_bind].
  rewrite Z.rem_mod_nonneg by lia.
  set (c := Z.to_nat ((i + id) `mod` cap hi)).
  pose proof (Z.mod_pos_bound (i + id) (cap hi) ltac:(lia)) as Hb.
  destruct (lookup_lt_is_Some_2 (nodes hi) c) as [n Hn]; [lia|].
  rewrite (aget_in _ _ n) by (done || lia). cbn [mbind res_bind].
  pose proof (ids_of_lookup _ _ _ Hn) as Hids.
  destruct (Z.eqb_spec (node_id n) (-1)) as [E|E].
  - left. exists i, c. split_and!; [lia..|done|congruence|lia|done].
  - destruct (IH (i + 1)%Z) as [(j&c'&Hj&->&Hfree&Hbefore&Hr)|[Hno Hr]]; [lia..| |].
    + left. eexists j, _. split_and!; [lia..|done|done| |done].
      intros j' Hj'. destruct (decide (j' = i)) as [->|]; [|apply Hbefore; lia].
      fold c. congruence.
    + right. split; [|done]. intros j' Hj'.
      destruct (decide (j' = i)) as [->|]; [|apply Hno; lia]. fold c. congruence.
Qed.

(** The probe reaches every slot. *)
Lemma probe_covers (n id c : Z) : (0 ≤ c < n)%Z →
  ∃ j, (0 ≤ j < n)%Z ∧ ((j + id) `mod` n = c)%Z.
Proof.
  intros Hc. exists ((c - id) `mod` n)%Z. split; [apply Z.mod_pos_bound; lia|].
  rewrite Zplus_mod_idemp_l. replace (c - id + id)%Z with c by lia.
  by apply Z.mod_small.
Qed.

Lemma insert_probe_free hi id : wf hi → id_ok (table_cap hi) id →
  size (slots hi) < table_cap hi →
  ∃ c, insert_probe (Z.to_nat (cap hi)) hi id 0 = Ok (Some c) ∧
    ids_of hi !! c = Some (-1)%Z.
Proof.
  intros H Hid Hsz. pose proof (wf_cap hi H) as Hcap.
  destruct (insert_probe_spec hi id H Hid (Z.to_nat (cap hi)) 0)
    as [(j&c&_&_&Hc&_&Hr)|[Hno _]]; [lia..|eauto|].
  unfold slots in Hsz. rewrite used_size in Hsz by apply (wf_uniq hi H).
  destruct (used_lt_free (ids_of hi)) as (c&Hc).
  { unfold ids_of at 2. rewrite length_fmap. done. }
  pose proof (lookup_lt_Some _ _ _ Hc) as Hlt. unfold ids_of in Hlt.
  rewrite length_fmap in Hlt.
  destruct (probe_covers (cap hi) id (Z.of_nat c)) as (j&Hj&E); [lia|].
  destruct (Hno j Hj). by rewrite E, Nat2Z.id.
Qed.

(** Filling the free slot [c] and linking it at the head of its chain. *)
Lemma insert_update hi id b hd ch c :
  wf hi → Z.land id (hashmod hi) = Z.of_nat b → hash hi !! b = Some hd →
  path (nodes hi) hd ch → NoDup ch →
  (∀ i, i ∈ ch ↔ in_bucket (ids_of hi) (hashmod hi) b i) →
  ids_of hi !! c = Some (-1)%Z → id ≠ (-1)%Z → (∀ i, ids_of hi !! i ≠ Some id) →
  wf {| hashmod := hashmod hi; cap := cap hi; count := count hi + 1;
        nodes := <[c := HashNode id hd]> (nodes hi);
        hash := <[b := Some c]> (hash hi) |}.
Proof.
  intros H Eb Hb Hpath Hnd Hin Hc Hid Hnew.
  assert (Hlt : c < length (nodes hi)).
  { apply lookup_lt_Some in Hc. unfold ids_of in Hc. by rewrite length_fmap in Hc. }
  assert (Hids : node_id <$> <[c := HashNode id hd]> (nodes hi) = <[c := id]> (ids_of hi))
    by (by rewrite list_fmap_insert).
  assert (Hcch : ∀ b', ¬ in_bucket (ids_of hi) (hashmod hi) b' c).
  { intros b' (k&Hk&?&_). congruence. }
  pose proof (used_insert _ _ _ id Hc) as Hused.
  rewrite decide_True, decide_False in Hused by done.
  eapply (wf_update hi b hd c id _ _ (c :: ch)); try done.
  - split; [done|]. eexists. rewrite list_lookup_insert_eq by done. split; [done|].
    simpl. apply path_insert; [|done]. by rewrite Hin.
  - apply NoDup_cons. split; [|done]. by rewrite Hin.
  - intros i. rewrite Hids, in_bucket_insert, elem_of_cons, Hin by
      (unfold ids_of; by rewrite length_fmap).
    split; [|intros [(->&_)|[_ ?]]; [by left|by right]].
    intros [->|Hi]; [by left|right]. split; [|done]. intros ->. by eapply Hcch.
  - intros b' i n Hb' Hi Hn. assert (i ≠ c) by (intros ->; by eapply Hcch).
    split; [done|]. exists n. by rewrite list_lookup_insert_ne.
  - intros i n. rewrite list_lookup_insert_Some.
    intros [(_&<-&_)|[_ ?]]; [done|]. by eapply (wf_free hi H).
  - rewrite Hids. apply uniq_insert; [apply (wf_uniq hi H)|by right].
  - rewrite Hids. pose proof (wf_count hi H). lia.
Qed.

Lemma insert_ok hi id : wf hi → id_ok (table_cap hi) id → slots hi !! id = None →
  size (slots hi) < table_cap hi →
  ∃ i hi', hashid_insert hi id = Ok (Z.of_nat i, hi') ∧ wf hi' ∧
    table_cap hi' = table_cap hi ∧ i < table_cap hi ∧
    (∀ k, slots hi !! k ≠ Some i) ∧ slots hi' = <[id := i]> (slots hi).
Proof.
  intros H Hid Hnew Hsz.
  destruct (insert_probe_free hi id H Hid Hsz) as (c&Hprobe&Hc).
  destruct (bucket_read hi id H) as (b&hd&ch&Eb&Hb&Hp&Hrd&Hpath&Hnd&_&Hin).
  destruct (ids_of_inv _ _ _ Hc) as (n&Hn&En).
  assert (Hid1 : id ≠ (-1)%Z) by (destruct Hid; lia).
  pose proof (lookup_lt_Some _ _ _ Hn) as Hlt.
  pose proof (wf_uniq hi H) as Hu. pose proof (wf_count hi H) as Hcnt.
  assert (Hnew' : ∀ i, ids_of hi !! i ≠ Some id).
  { intros i Hi. apply Hid1. by eapply slots_None. }
  exists c. unfold hashid_insert. rewrite Hprobe. cbn [mbind res_bind].
  unfold slots in Hsz. rewrite used_size in Hsz by done.
  pose proof (cap_small hi H) as Hcap. rewrite (wf_cap hi H) in Hcap.
  rewrite int_res_ok by (unfold table_cap, int_min, int_max in *; lia).
  cbn [mbind res_bind]. rewrite (aget_nat _ _ _ Hn). cbn [mbind res_bind].
  rewrite (wf_free hi H _ _ Hn En), Hrd. cbn [mbind res_bind].
  rewrite aset_nat by done. cbn [mbind res_bind].
  rewrite Eb, aset_nat by done. cbn [mbind res_bind].
  eexists. split; [done|]. split; [by eapply insert_update|].
  split; [unfold table_cap; simpl; by rewrite length_insert|]. split; [done|]. split.
  - intros k Hk. apply slots_spec in Hk as [Hk ?]; [|done]. congruence.
  - unfold slots, ids_of. simpl. rewrite list_fmap_insert. simpl. by apply ids_from_fill.
Qed.

(** ** The interface *)

Lemma full_ok hi : wf hi → hashid_full hi = bool_decide (size (slots hi) = table_cap hi).
Proof.
  intros H. unfold hashid_full, slots, table_cap.
  rewrite used_size by apply (wf_uniq hi H).
  rewrite (wf_count hi H), (wf_cap hi H). case_bool_decide; lia.
Qed.

#[export] Instance hashid_table :
  IdTable hashid_lookup hashid_insert hashid_remove hashid_full wf slots table_cap.
Proof.
  constructor.
  - apply lookup_ok.
  - apply insert_ok.
  - apply remove_ok.
  - apply full_ok.
  - intros hi k k' i H Hk Hk'. apply slots_spec in Hk, Hk'; [|done..]. naive_solver.
  - intros hi k i H Hk. apply slots_spec in Hk as [Hk _]; [|done].
    apply lookup_lt_Some in Hk. unfold ids_of in Hk. by rewrite length_fmap in Hk.
  - intros hi H. unfold slots. rewrite used_size by apply (wf_uniq hi H).
    etrans; [apply used_le|]. unfold ids_of, table_cap. by rewrite length_fmap.
Qed.
