(* ===== verification/HashIdSpec.v ===== *)
(** * HashIdSpec: the chained table against a flat array

    The reference is an array of ids with no chain and no bucket: a lookup scans
    it, an insert takes the first free place from [id mod cap] on.  Every sequence
    of operations on the hash table gives the results the reference gives.  Then
    the runs outside the contract: what [hashid_init] and [hashid_insert] do with
    the arguments that they do not accept. *)
From S2P Require Import Prelude IdTable HashId.
From stdpp Require Import gmap list.
From Stdlib Require Import ZArith.

(** ** The reference *)

Definition flat_find (ids : list Z) (k : Z) : option nat :=
  if decide (k = -1)%Z then None else fst <$> list_find (λ x, x = k) ids.

(** The place [(j + k) mod n] of the first [j] at which it is free. *)
Definition flat_probe (ids : list Z) (k : Z) : option nat :=
  let n := Z.of_nat (length ids) in
  let place j := Z.to_nat ((j + k) `mod` n) in
  place ∘ snd <$> list_find (λ j, ids !! place j = Some (-1)%Z) (seqZ 0 n).

Definition flat_full (ids : list Z) : bool := bool_decide (Forall (λ x, x ≠ -1)%Z ids).

Inductive id_op := IdLookup (k : Z) | IdInsert (k : Z) | IdRemove (k : Z) | IdFull.

(** [None]: an insert outside the contract (a bad id, one in the table, no room). *)
Definition flat_op (op : id_op) (ids : list Z) : option (Z * list Z) :=
  match op with
  | IdLookup k => Some (slot_int (flat_find ids k), ids)
  | IdInsert k =>
    if decide (id_ok (length ids) k ∧ flat_find ids k = None) then
      i ← flat_probe ids k; Some (Z.of_nat i, <[i := k]> ids)
    else None
  | IdRemove k =>
    match flat_find ids k with
    | Some i => Some (Z.of_nat i, <[i := (-1)%Z]> ids)
    | None => Some ((-1)%Z, ids)
    end
  | IdFull => Some (Z.b2z (flat_full ids), ids)
  end.

Definition hash_op (op : id_op) (hi : hashid) : res (Z * hashid) :=
  match op with
  | IdLookup k => r ← hashid_lookup hi k; Ok (r, hi)
  | IdInsert k => hashid_insert hi k
  | IdRemove k => hashid_remove hi k
  | IdFull => Ok (Z.b2z (hashid_full hi), hi)
  end.

Fixpoint flat_run (ops : list id_op) (ids : list Z) : option (list Z * list Z) :=
  match ops with
  | [] => Some ([], ids)
  | op :: ops' =>
    r ← flat_op op ids; rs ← flat_run ops' r.2; Some (r.1 :: rs.1, rs.2)
  end.

Fixpoint hash_run (ops : list id_op) (hi : hashid) : res (list Z * hashid) :=
  match ops with
  | [] => Ok ([], hi)
  | op :: ops' =>
    r ← hash_op op hi; rs ← hash_run ops' r.2; Ok (r.1 :: rs.1, rs.2)
  end.

(** ** The array of a table *)

Lemma ids_of_length hi : length (ids_of hi) = table_cap hi.
Proof. unfold ids_of, table_cap. by rewrite length_fmap. Qed.

(** The array is determined by the map. *)
Lemma ids_of_eq hi ids : wf hi → length ids = table_cap hi →
  (∀ i k, k ≠ (-1)%Z → ids !! i = Some k ↔ slots hi !! k = Some i) → ids_of hi = ids.
Proof.
  intros H Hl Hs. assert (Hone : ∀ l1 l2 : list Z, length l1 = length l2 →
    (∀ i k, k ≠ (-1)%Z → l1 !! i = Some k ↔ l2 !! i = Some k) → l1 = l2).
  { intros l1 l2 Hlen Hk. apply list_eq_same_length with (length l2); [done|done|].
    intros i x y _ Hx Hy. destruct (decide (x = -1)%Z) as [->|Hx1].
    - destruct (decide (y = -1)%Z) as [->|Hy1]; [done|]. apply Hk in Hy; [congruence|done].
    - apply Hk in Hx; [congruence|done]. }
  apply Hone; [by rewrite ids_of_length|]. intros i k Hk. rewrite Hs by done.
  rewrite slots_spec by done. naive_solver.
Qed.

Lemma flat_find_slots hi k : wf hi → flat_find (ids_of hi) k = slots hi !! k.
Proof.
  intros H. unfold flat_find. case_decide as Hk.
  - destruct (slots hi !! k) as [i|] eqn:E; [|done]. apply slots_spec in E as [_ ?]; [done|done].
  - destruct (list_find _ _) as [[i x]|] eqn:E; simpl.
    + apply list_find_Some in E as (Hi&->&_). symmetry. by apply slots_spec.
    + apply list_find_None in E. symmetry. apply slots_None; [done|]. intros i Hi.
      by destruct (Forall_lookup_1 _ _ _ _ E Hi).
Qed.

Lemma slots_full hi : wf hi → flat_full (ids_of hi) = hashid_full hi.
Proof.
  intros H. rewrite full_ok by done. unfold flat_full. apply bool_decide_ext.
  unfold slots. rewrite used_size by apply (wf_uniq hi H). rewrite <- ids_of_length.
  generalize (ids_of hi). intros ids. induction ids as [|x ids IH]; simpl; [by split|].
  rewrite Forall_cons, IH. pose proof (used_le ids). case_decide; lia.
Qed.

Lemma insert_result hi k z hi' : hashid_insert hi k = Ok (z, hi') →
  ∃ c, insert_probe (Z.to_nat (cap hi)) hi k 0 = Ok (Some c) ∧ z = Z.of_nat c.
Proof.
  unfold hashid_insert, mbind, res_bind. intros E. repeat case_match; simplify_eq; eauto.
Qed.

Lemma flat_probe_spec hi k i : wf hi → id_ok (table_cap hi) k →
  insert_probe (Z.to_nat (cap hi)) hi k 0 = Ok (Some i) ↔ flat_probe (ids_of hi) k = Some i.
Proof.
  intros H Hid. pose proof (wf_cap hi H) as Hcap. fold (table_cap hi) in Hcap.
  unfold flat_probe. rewrite ids_of_length, <- Hcap.
  destruct (insert_probe_spec hi k H Hid (Z.to_nat (cap hi)) 0)
    as [(j&c&Hj&->&Hc&Hbefore&->)|[Hno ->]]; [lia..| |].
  - assert (list_find (λ j, ids_of hi !! Z.to_nat ((j + k) `mod` cap hi) = Some (-1)%Z)
      (seqZ 0 (cap hi)) = Some (Z.to_nat j, j)) as ->; [|split; simpl; congruence].
    apply list_find_Some. split_and!; [by rewrite lookup_seqZ; lia|done|].
    intros j' y Hy Hlt. apply lookup_seqZ in Hy as [-> ?]. apply Hbefore. lia.
  - split; [done|]. destruct (list_find _ _) as [[n j]|] eqn:E; [|done].
    apply list_find_Some in E as (Hj&Hfree&_). apply lookup_seqZ in Hj as [-> ?].
    destruct (Hno (0 + Z.of_nat n)%Z); [lia|done].
Qed.

Lemma flat_probe_room ids k i : flat_probe ids k = Some i → ids !! i = Some (-1)%Z.
Proof.
  unfold flat_probe. destruct (list_find _ _) as [[n j]|] eqn:E; [|done].
  apply list_find_Some in E as (_&Hfree&_). by intros [= <-].
Qed.

Lemma slots_delete_ids hi hi' k : wf hi → wf hi' → table_cap hi' = table_cap hi →
  slots hi' = delete k (slots hi) →
  ids_of hi' = match slots hi !! k with Some i => <[i := (-1)%Z]> (ids_of hi) | None => ids_of hi end.
Proof.
  intros H H' Hcap Hs. apply ids_of_eq; [done| |].
  { rewrite Hcap, <- ids_of_length. destruct (slots hi !! k); [by rewrite length_insert|done]. }
  intros i x Hx. rewrite Hs, lookup_delete_Some, slots_spec by done.
  destruct (slots hi !! k) as [j|] eqn:Ej.
  - apply slots_spec in Ej as [Ej Hk]; [|done]. rewrite list_lookup_insert_Some. split.
    + intros [(_&<-&_)|[Hne Hi]]; [done|]. split; [|done]. intros ->.
      apply Hne. by eapply (wf_uniq hi H).
    + intros [Hne [Hi _]]. right. split; [congruence|done].
  - rewrite slots_None in Ej by done. split; [|by intros (_&?&_)].
    intros Hi. split_and!; [|done..]. intros ->. by apply Hx, (Ej i).
Qed.

Lemma flat_op_ok op hi r ids' : wf hi → flat_op op (ids_of hi) = Some (r, ids') →
  ∃ hi', hash_op op hi = Ok (r, hi') ∧ wf hi' ∧ ids_of hi' = ids'.
Proof.
  intros H. destruct op as [k|k|k|]; simpl; rewrite ?(flat_find_slots hi) by done.
  - intros [= <- <-]. exists hi. by rewrite lookup_ok.
  - rewrite ids_of_length. case_decide as Hk; [|done]. destruct Hk as [Hid Hnone].
    destruct (flat_probe (ids_of hi) k) as [i|] eqn:Ei; [|done]. intros [= <- <-].
    pose proof (flat_probe_room _ _ _ Ei) as Hfree. pose proof Hid as [Hid0 _].
    apply flat_probe_spec in Ei; [|done..].
    assert (Hroom : size (slots hi) < table_cap hi).
    { destruct (decide (size (slots hi) = table_cap hi)) as [E|].
      - assert (hashid_full hi = true) as Hf by (rewrite full_ok by done; by apply bool_decide_eq_true_2).
        rewrite <- slots_full in Hf by done. apply bool_decide_eq_true_1 in Hf.
        by destruct (Forall_lookup_1 _ _ _ _ Hf Hfree).
      - pose proof (it_size hi H). lia. }
    destruct (insert_ok hi k H Hid Hnone Hroom) as (j&hi'&E&Hwf'&Hcap&_&_&Hs).
    destruct (insert_result _ _ _ _ E) as (c&Ec&Ej). rewrite Ec in Ei. simplify_eq.
    exists hi'. split_and!; [done|done|]. apply ids_of_eq; [done| |].
    + by rewrite length_insert, ids_of_length.
    + intros i' x Hx. rewrite Hs, lookup_insert_Some, list_lookup_insert_Some, slots_spec by done.
      apply lookup_lt_Some in Hfree as Hlt. split.
      * intros [(<-&<-&_)|[Hne Hi]]; [by left|]. right. split; [|done]. intros ->.
        rewrite slots_None in Hnone by done. by apply Hx, (Hnone i').
      * intros [[<- <-]|[Hne [Hi _]]]; [by left|]. right. split; [congruence|done].
  - destruct (remove_ok hi k H) as (hi'&E&Hwf'&Hcap&Hs). rewrite E.
    pose proof (slots_delete_ids _ _ _ H Hwf' Hcap Hs) as Hids.
    destruct (slots hi !! k); intros [= <- <-]; by exists hi'.
  - intros [= <- <-]. exists hi. by rewrite slots_full.
Qed.

Lemma flat_run_ok ops : ∀ hi rs ids', wf hi → flat_run ops (ids_of hi) = Some (rs, ids') →
  ∃ hi', hash_run ops hi = Ok (rs, hi') ∧ wf hi' ∧ ids_of hi' = ids'.
Proof.
  induction ops as [|op ops IH]; intros hi rs ids' H E; simpl in *.
  { simplify_eq. by exists hi. }
  destruct (flat_op op (ids_of hi)) as [[r ids1]|] eqn:E1; [|done]. simpl in E.
  destruct (flat_run ops ids1) as [[rs1 ids2]|] eqn:E2; [|done]. simplify_eq/=.
  destruct (flat_op_ok _ _ _ _ H E1) as (hi1&->&H1&<-). simpl.
  destruct (IH _ _ _ H1 E2) as (hi2&->&H2&<-). by exists hi2.
Qed.

(** ** Theorems *)

(** C4: From [hashid_init] on, every sequence of lookups, inserts, removes and
    [hashid_full]s gives on the chained hash table the results and the slots it
    gives on a flat array, as long as the inserts keep to the contract. *)
Theorem hashid_flat_equiv max ops rs ids' : (0 ≤ max ≤ 2 ^ 30)%Z →
  flat_run ops (replicate (Z.to_nat max) (-1)%Z) = Some (rs, ids') →
  ∃ hi hi', hashid_init max = Ok hi ∧ hash_run ops hi = Ok (rs, hi') ∧
    wf hi' ∧ ids_of hi' = ids'.
Proof.
  intros Hmax E. destruct (init_ok max Hmax) as (hi&Ei&H&Hcap&Hs).
  assert (Hids : ids_of hi = replicate (Z.to_nat max) (-1)%Z).
  { apply ids_of_eq; [done|by rewrite length_replicate|]. intros i k Hk.
    rewrite Hs, lookup_empty, lookup_replicate. naive_solver. }
  rewrite <- Hids in E. destruct (flat_run_ok ops hi rs ids' H E) as (hi'&?&?&?).
  by exists hi, hi'.
Qed.

(** C33: What [hashid_init] does with any [int]: a table up to 2^30, a signed
    overflow of [hashcap *= 2] above, an allocation of a negative size below. *)
Theorem hashid_init_all max : (int_min ≤ max ≤ int_max)%Z →
  match hashid_init max with
  | Ok hi => (0 ≤ max ≤ 2 ^ 30)%Z ∧ wf hi ∧ table_cap hi = Z.to_nat max ∧ slots hi = ∅
  | Fault FOverflow => (2 ^ 30 < max)%Z
  | Fault FAlloc => (max < 0)%Z
  | Fault _ => False
  end.
Proof.
  intros Hr. destruct (Z.lt_ge_cases (2 ^ 30) max) as [Hgt|Hle].
  - unfold hashid_init. change 16%Z with (2 ^ 4)%Z.
    by rewrite (hashcap_loop_overflow max Hgt 32 4) by lia.
  - destruct (Z.lt_ge_cases max 0) as [Hneg|Hpos].
    + unfold hashid_init. cbn [hashcap_loop]. rewrite (proj2 (Z.ltb_ge 16 max)) by lia.
      cbn [mbind res_bind]. by rewrite (proj2 (Z.ltb_lt max 0)) by lia.
    + by destruct (init_ok max) as (hi&->&?&?&?); [lia|].
Qed.

(** An insert into a full table stops at its assertion. *)
Lemma hashid_insert_full hi k : wf hi → id_ok (table_cap hi) k → hashid_full hi = true →
  hashid_insert hi k = Fault FAssert.
Proof.
  intros H Hid Hf. rewrite <- slots_full in Hf by done. apply bool_decide_eq_true_1 in Hf.
  unfold hashid_insert. pose proof (wf_cap hi H) as Hcap.
  destruct (insert_probe_spec hi k H Hid (Z.to_nat (cap hi)) 0)
    as [(j&c&_&_&Hc&_)|[_ ->]]; [lia..| |done].
  by destruct (Forall_lookup_1 _ _ _ _ Hf Hc).
Qed.

(** An insert of -1, the socket of a failed connect, reads [hi->id[-1]]. *)
Lemma hashid_insert_minus_one hi : wf hi → 2 ≤ table_cap hi →
  hashid_insert hi (-1) = Fault FBounds.
Proof.
  intros H Hcap. pose proof (wf_cap hi H) as E. fold (table_cap hi) in E.
  unfold hashid_insert. destruct (Z.to_nat (cap hi)) as [|n] eqn:En; [lia|].
  cbn [insert_probe]. rewrite (int_res_ok (0 + -1)) by (unfold int_min, int_max; lia). cbn [mbind res_bind].
  assert (Z.rem (0 + -1) (cap hi) = -1)%Z as ->; [|done].
  change (0 + -1)%Z with (- (1))%Z. rewrite Z.rem_opp_l by lia. rewrite Z.rem_small by lia. done.
Qed.

(** ** Witnesses *)

(** A table of two slots, as [hashid_init] makes it, and what a run leaves. *)
Definition table2 : hashid :=
  match hashid_init 2 with Ok hi => hi | Fault _ => hashid_clear (HashId 0 0 0 [] []) end.
Definition table2_full : hashid :=
  match hash_run [IdInsert 5; IdInsert 21] table2 with Ok r => r.2 | Fault _ => table2 end.

Lemma table2_wf : wf table2 ∧ wf table2_full.
Proof.
  destruct (init_ok 2) as (hi&Ei&H&Hcap&Hs); [lia|].
  assert (hi = table2) as -> by (unfold table2; by rewrite Ei). split; [done|].
  destruct (flat_run_ok [IdInsert 5; IdInsert 21] table2 [1; 0]%Z [21; 5]%Z H)
    as (hi'&E&H'&_); [done|].
  assert (hi' = table2_full) as <- by (unfold table2_full; by rewrite E). done.
Qed.

Lemma hashid_flat_equiv_witness : ∃ hi hi', hashid_init 2 = Ok hi ∧
  hash_run [IdInsert 5; IdInsert 21; IdLookup 21; IdFull; IdRemove 5; IdLookup 5] hi =
    Ok ([1; 0; 0; 1; 1; -1]%Z, hi') ∧ wf hi' ∧ ids_of hi' = [21; -1]%Z.
Proof. apply (hashid_flat_equiv 2); [lia|reflexivity]. Defined.

(** Tables of 20 and of no ids, one too large and one of a negative size. *)
Lemma hashid_init_all_witness :
  match hashid_init 20 with
  | Ok hi => (0 ≤ 20 ≤ 2 ^ 30)%Z ∧ wf hi ∧ table_cap hi = 20 ∧ slots hi = ∅
  | Fault _ => False
  end ∧
  match hashid_init 0 with
  | Ok hi => (0 ≤ 0 ≤ 2 ^ 30)%Z ∧ wf hi ∧ table_cap hi = 0 ∧ slots hi = ∅
  | Fault _ => False
  end ∧
  hashid_init (2 ^ 30 + 1) = Fault FOverflow ∧ hashid_init (-1) = Fault FAlloc.
Proof.
  split; [|split; [|split]].
  - exact (hashid_init_all 20 ltac:(unfold int_min, int_max; lia)).
  - exact (hashid_init_all 0 ltac:(unfold int_min, int_max; lia)).
  - pose proof (hashid_init_all (2 ^ 30 + 1) ltac:(unfold int_min, int_max; lia)) as H.
    destruct (hashid_init (2 ^ 30 + 1)) as [hi|[]]; by try (destruct H; lia).
  - pose proof (hashid_init_all (-1) ltac:(unfold int_min, int_max; lia)) as H.
    destruct (hashid_init (-1)) as [hi|[]]; by try (destruct H; lia).
Defined.

Lemma hashid_insert_full_witness : hashid_insert table2_full 7 = Fault FAssert.
Proof.
  apply (hashid_insert_full table2_full 7); [apply table2_wf| |reflexivity].
  vm_compute. split; discriminate.
Defined.

Lemma hashid_insert_minus_one_witness : hashid_insert table2 (-1) = Fault FBounds.
Proof. apply (hashid_insert_minus_one table2); [apply table2_wf|vm_compute; lia]. Defined.
