(* ===== verification/Bytes.v ===== *)
(** * Bytes: the [char] and [uint8_t] arrays of the program

    A byte is [Byte.byte] of the Standard Library; the integer C promotes it to
    is [byteZ]. *)
From S2P Require Import Prelude.
From stdpp Require Import list strings.
From Stdlib Require Import ZArith Strings.Byte.

Abbreviation byte := Byte.byte.

#[global] Instance byte_eq_dec : EqDecision byte := Byte.byte_eq_dec.

(** The value of an [uint8_t], and the byte that holds the low 8 bits. *)
Definition byteZ (b : byte) : Z := Z.of_N (Byte.to_N b).
Definition Zbyte (z : Z) : byte :=
  match Byte.of_N (Z.to_N (z `mod` 256)) with Some b => b | None => x00 end.

(** The bytes of a string literal, without the terminating NUL. *)
Definition bytes (s : String.string) : list byte := String.list_byte_of_string s.

Lemma byteZ_range b : (0 ≤ byteZ b < 256)%Z.
Proof. unfold byteZ. pose proof (Byte.to_N_bounded b). lia. Qed.

Lemma byteZ_Zbyte z : byteZ (Zbyte z) = (z `mod` 256)%Z.
Proof.
  unfold Zbyte, byteZ. pose proof (Z.mod_pos_bound z 256 ltac:(lia)) as Hz.
  destruct (Byte.of_N _) as [b|] eqn:E.
  - apply Byte.to_of_N in E. rewrite E. lia.
  - apply Byte.of_N_None_iff in E. lia.
Qed.

Lemma byteZ_inj b b' : byteZ b = byteZ b' → b = b'.
Proof.
  unfold byteZ. intros E%(inj Z.of_N).
  pose proof (Byte.of_to_N b) as H1. pose proof (Byte.of_to_N b') as H2.
  rewrite E in H1. congruence.
Qed.

Lemma Zbyte_byteZ b : Zbyte (byteZ b) = b.
Proof.
  apply byteZ_inj. rewrite byteZ_Zbyte. apply Z.mod_small, byteZ_range.
Qed.
