(* ===== verification/DataBuffer.v ===== *)
(** * DataBuffer: the receive buffers of the gate (gate/databuffer.h)

    A [databuffer] is a queue of received blocks, linked through [message]
    structures that a shared [messagepool] recycles.  The state the operations
    work on is the heap with the [databuffer] and the [messagepool] their two
    arguments point to. *)
From S2P Require Import Prelude Bytes.
From stdpp Require Import gmap list.
From Stdlib Require Import ZArith Strings.Byte.

(** ** Data *)

(** The address of a [struct message]: it lies in the array [pool] of a
    [messagepool_list], at an index. *)
Abbreviation mloc := (loc * nat)%type.

Record message := Message {
  m_buffer : option loc;
  m_size : Z;
  m_next : option mloc
}.

Record databuffer := DataBuffer {
  header : Z;
  offset : Z;
  db_size : Z;                 (* size *)
  db_head : option mloc;       (* head *)
  db_tail : option mloc        (* tail *)
}.

Record messagepool := MessagePool {
  pool : option loc;
  freelist : option mloc
}.

(** The number of messages in a chunk. *)
Definition MESSAGEPOOL : Z := 1023.

(** The heap: the byte blocks, the [messagepool_list] chunks with their [next]
    pointer, and the initialised messages of the chunks. *)
Record heap := Heap {
  blocks : gmap loc (list byte);
  chunks : gmap loc (option loc);
  msgs : gmap mloc message
}.

Record bst := Bst { b_heap : heap; b_db : databuffer; b_mp : messagepool }.

#[global] Instance message_eq_dec : EqDecision message.
Proof. solve_decision. Defined.
#[global] Instance databuffer_eq_dec : EqDecision databuffer.
Proof. solve_decision. Defined.
#[global] Instance messagepool_eq_dec : EqDecision messagepool.
Proof. solve_decision. Defined.
#[global] Instance heap_eq_dec : EqDecision heap.
Proof. solve_decision. Defined.
#[global] Instance bst_eq_dec : EqDecision bst.
Proof. solve_decision. Defined.

Definition empty_db : databuffer := DataBuffer 0 0 0 None None.

(** ** Field updates *)

Definition set_header v (d : databuffer) :=
  DataBuffer v (offset d) (db_size d) (db_head d) (db_tail d).
Definition set_offset v (d : databuffer) :=
  DataBuffer (header d) v (db_size d) (db_head d) (db_tail d).
Definition set_size v (d : databuffer) :=
  DataBuffer (header d) (offset d) v (db_head d) (db_tail d).
Definition set_ends hd tl (d : databuffer) :=
  DataBuffer (header d) (offset d) (db_size d) hd tl.
Definition set_m_next v (m : message) := Message (m_buffer m) (m_size m) v.

Definition set_blocks v (h : heap) := Heap v (chunks h) (msgs h).
Definition set_chunks v (h : heap) := Heap (blocks h) v (msgs h).
Definition set_msgs v (h : heap) := Heap (blocks h) (chunks h) v.

Definition upd_db (f : databuffer → databuffer) : M bst unit :=
  modify (λ s, Bst (b_heap s) (f (b_db s)) (b_mp s)).
Definition upd_mp (f : messagepool → messagepool) : M bst unit :=
  modify (λ s, Bst (b_heap s) (b_db s) (f (b_mp s))).
Definition upd_heap (f : heap → heap) : M bst unit :=
  modify (λ s, Bst (f (b_heap s)) (b_db s) (b_mp s)).

(** ** Memory accesses *)

Definition load_msg (p : option mloc) : M bst message := λ s,
  match p with
  | None => Fault FNull
  | Some l =>
    match msgs (b_heap s) !! l with
    | Some m => Ok (m, s)
    | None => Fault FDangling
    end
  end.

(** A store of all the fields of a message of an allocated chunk. *)
Definition store_msg (p : option mloc) (m : message) : M bst unit :=
  match p with
  | None => fail FNull
  | Some l =>
    h ← gets b_heap;
    match chunks h !! l.1 with
    | None => fail FDangling
    | Some _ =>
      if bool_decide (Z.of_nat l.2 < MESSAGEPOOL)%Z
      then upd_heap (λ h, set_msgs (<[l := m]> (msgs h)) h)
      else fail FBounds
    end
  end.

(** [skynet_free] of a byte block; freeing NULL does nothing. *)
Definition free_block (p : option loc) : M bst unit :=
  match p with
  | None => mret tt
  | Some b =>
    h ← gets b_heap;
    match blocks h !! b with
    | None => fail FDangling
    | Some _ => upd_heap (λ h, set_blocks (delete b (blocks h)) h)
    end
  end.

(** The source of [memcpy(_, p + off, n)]. *)
Definition read_block (p : option loc) (off n : Z) : M bst (list byte) :=
  match p with
  | None => fail FNull
  | Some b =>
    h ← gets b_heap;
    match blocks h !! b with
    | None => fail FDangling
    | Some bs =>
      if bool_decide (0 ≤ off ∧ 0 ≤ n ∧ off + n ≤ Z.of_nat (length bs))%Z
      then mret (take (Z.to_nat n) (drop (Z.to_nat off) bs))
      else fail FBounds
    end
  end.

(** ** Operations *)

Definition _return_message : M bst unit :=
  db ← gets b_db;
  let m := db_head db in
  msg ← load_msg m;
  match m_next msg with
  | None =>
    c_assert (bool_decide (db_tail db = m));;
    upd_db (set_ends None None)
  | Some _ => upd_db (set_ends (m_next msg) (db_tail db))
  end;;
  free_block (m_buffer msg);;
  mp ← gets b_mp;
  store_msg m (Message None 0 (freelist mp));;
  upd_mp (λ mp, MessagePool (pool mp) m).

(** The [for (;;)] of [databuffer_read]: the bytes copied to [buffer]. *)
Fixpoint read_loop (fuel : nat) (sz : Z) : M bst (list byte) :=
  match fuel with
  | O => fail FFuel
  | S f =>
    db ← gets b_db;
    current ← load_msg (db_head db);
    bsz ← lift (int_res (m_size current - offset db));
    if (sz <? bsz)%Z then
      bs ← read_block (m_buffer current) (offset db) sz;
      offset' ← lift (int_res (offset db + sz));
      upd_db (set_offset offset');;
      mret bs
    else if (bsz =? sz)%Z then
      bs ← read_block (m_buffer current) (offset db) sz;
      upd_db (set_offset 0);;
      _return_message;;
      mret bs
    else
      bs ← read_block (m_buffer current) (offset db) bsz;
      _return_message;;
      upd_db (set_offset 0);;
      rest ← read_loop f (sz - bsz)%Z;
      mret (bs ++ rest)
  end.

(** One unit of fuel per message of the heap. *)
Definition queue_fuel (s : bst) : nat := S (size (msgs (b_heap s))).

Definition databuffer_read (sz : Z) : M bst (list byte) :=
  db ← gets b_db;
  c_assert (bool_decide (sz ≤ db_size db)%Z);;
  size' ← lift (int_res (db_size db - sz));
  upd_db (set_size size');;
  fuel ← gets queue_fuel;
  read_loop fuel sz.

(** [for (i=1;i<MESSAGEPOOL;i++)]: [left] iterations from [i]. *)
Fixpoint init_messages (left : nat) (c : loc) (i : nat) : M bst unit :=
  match left with
  | O => mret tt
  | S left' =>
    store_msg (Some (c, i)) (Message None 0 (Some (c, S i)));;
    init_messages left' c (S i)
  end.

(** The refill of the free list by a new chunk; the message left out of it. *)
Definition new_chunk : M bst (option mloc) :=
  h ← gets b_heap;
  let mpl := fresh_loc (chunks h) in
  upd_heap (λ h, set_chunks (<[mpl := None]> (chunks h)) h);;
  init_messages (Z.to_nat (MESSAGEPOOL - 1)) mpl 1;;
  let last := Some (mpl, Z.to_nat (MESSAGEPOOL - 1)) in
  msg ← load_msg last;
  store_msg last (set_m_next None msg);;
  mp ← gets b_mp;
  upd_heap (λ h, set_chunks (<[mpl := pool mp]> (chunks h)) h);;
  upd_mp (λ mp, MessagePool (Some mpl) (Some (mpl, 1)));;
  mret (Some (mpl, 0)).

Definition take_message : M bst (option mloc) :=
  mp ← gets b_mp;
  match freelist mp with
  | Some _ =>
    let m := freelist mp in
    msg ← load_msg m;
    upd_mp (λ mp, MessagePool (pool mp) (m_next msg));;
    mret m
  | None => new_chunk
  end.

Definition databuffer_push (data : option loc) (sz : Z) : M bst unit :=
  m ← take_message;
  store_msg m (Message data sz None);;
  db ← gets b_db;
  size' ← lift (int_res (db_size db + sz));
  upd_db (set_size size');;
  match db_head db with
  | None =>
    c_assert (bool_decide (db_tail db = None));;
    upd_db (set_ends m m)
  | Some _ =>
    tail ← load_msg (db_tail db);
    store_msg (db_tail db) (set_m_next m tail);;
    upd_db (set_ends (db_head db) m)
  end.

(** [plen[i]] after [header_size] bytes of it were written. *)
Definition plen_get (plen : list byte) (i : nat) : res Z :=
  match plen !! i with Some b => Ok (byteZ b) | None => Fault FUninit end.

(** The big-endian header.  The shift of the top byte wraps to a negative [int]. *)
Definition parse_header (header_size : Z) (plen : list byte) : res Z :=
  if (header_size =? 2)%Z then
    b0 ← plen_get plen 0; b1 ← plen_get plen 1;
    Ok (Z.lor (Z.shiftl b0 8) b1)
  else
    b0 ← plen_get plen 0; b1 ← plen_get plen 1;
    b2 ← plen_get plen 2; b3 ← plen_get plen 3;
    Ok (s32 (Z.lor (Z.lor (Z.lor (Z.shiftl b0 24) (Z.shiftl b1 16))
                          (Z.shiftl b2 8)) b3)).

(** The [if (db->header == 0)] of [databuffer_readheader]; false is its
    [return -1]. *)
Definition read_plen (header_size : Z) : M bst bool :=
  db ← gets b_db;
  if (header db =? 0)%Z then
    if (db_size db <? header_size)%Z then mret false
    else if (4 <? header_size)%Z then fail FBounds        (* uint8_t plen[4] *)
    else
      plen ← databuffer_read header_size;
      hd ← lift (parse_header header_size plen);
      upd_db (set_header hd);;
      mret true
  else mret true.

Definition databuffer_readheader (header_size : Z) : M bst Z :=
  go ← read_plen header_size;
  if (go : bool) then
    db ← gets b_db;
    if (db_size db <? header db)%Z then mret (-1)%Z else mret (header db)
  else mret (-1)%Z.

Definition databuffer_reset : M bst unit := upd_db (set_header 0).

Fixpoint clear_loop (fuel : nat) : M bst unit :=
  db ← gets b_db;
  match db_head db with
  | None => mret tt
  | Some _ =>
    match fuel with
    | O => fail FFuel
    | S f => _return_message;; clear_loop f
    end
  end.

Definition databuffer_clear : M bst unit :=
  fuel ← gets queue_fuel;
  clear_loop fuel;;
  upd_db (λ _, empty_db).

(** [skynet_free] of a chunk takes its messages with it. *)
Definition free_chunk (c : loc) (h : heap) : heap :=
  Heap (blocks h) (delete c (chunks h)) (filter (λ p, p.1.1 ≠ c) (msgs h)).

Fixpoint pool_free_loop (fuel : nat) (p : option loc) (h : heap) : res heap :=
  match p with
  | None => Ok h
  | Some tmp =>
    match fuel with
    | O => Fault FFuel
    | S f =>
      match chunks h !! tmp with
      | None => Fault FDangling
      | Some nx => pool_free_loop f nx (free_chunk tmp h)
      end
    end
  end.

Definition messagepool_free (mp : messagepool) (h : heap) : res (messagepool * heap) :=
  h' ← pool_free_loop (size (chunks h)) (pool mp) h;
  Ok (MessagePool None None, h').

#[global] Arguments load_msg : simpl never.
#[global] Arguments store_msg : simpl never.
#[global] Arguments free_block : simpl never.
#[global] Arguments read_block : simpl never.
#[global] Arguments _return_message : simpl never.
#[global] Arguments databuffer_read : simpl never.
#[global] Arguments databuffer_push : simpl never.
#[global] Arguments read_loop : simpl never.
#[global] Arguments init_messages : simpl never.
#[global] Arguments clear_loop : simpl never.
#[global] Arguments new_chunk : simpl never.
#[global] Arguments take_message : simpl never.
#[global] Arguments upd_db : simpl never.
#[global] Arguments upd_mp : simpl never.
#[global] Arguments upd_heap : simpl never.

(** ** Specification *)

(** A queued message: its address, the block it owns and the block's bytes. *)
Record mref := MRef { r_loc : mloc; r_buf : loc; r_bytes : list byte }.

#[global] Instance mref_eq_dec : EqDecision mref.
Proof. solve_decision. Defined.

Abbreviation locs ms := (r_loc <$> ms).
Abbreviation bufs ms := (r_buf <$> ms).

(** The queue from [p] down to NULL. *)
Fixpoint mchain (h : heap) (p : option mloc) (ms : list mref) : Prop :=
  match ms with
  | [] => p = None
  | r :: ms' => p = Some (r_loc r) ∧ ∃ nx,
      msgs h !! r_loc r =
        Some (Message (Some (r_buf r)) (Z.of_nat (length (r_bytes r))) nx) ∧
      blocks h !! r_buf r = Some (r_bytes r) ∧ mchain h nx ms'
  end.

(** The free list from [p] down to NULL: its messages own no block. *)
Fixpoint fchain (h : heap) (p : option mloc) (fl : list mloc) : Prop :=
  match fl with
  | [] => p = None
  | l :: fl' => p = Some l ∧ ∃ nx, msgs h !! l = Some (Message None 0 nx) ∧ fchain h nx fl'
  end.

(** The list of chunks from [p] down to NULL. *)
Fixpoint pchain (cs : gmap loc (option loc)) (p : option loc) (l : list loc) : Prop :=
  match l with
  | [] => p = None
  | c :: l' => p = Some c ∧ ∃ nx, cs !! c = Some nx ∧ pchain cs nx l'
  end.

Definition allocated (h : heap) (l : mloc) : Prop :=
  is_Some (chunks h !! l.1) ∧ (Z.of_nat l.2 < MESSAGEPOOL)%Z.

Definition heap_wf (h : heap) : Prop := ∀ l, is_Some (msgs h !! l) → allocated h l.

(** The pool's list holds every chunk, once. *)
Definition pool_ok (h : heap) (p : option loc) : Prop :=
  ∃ cs, pchain (chunks h) p cs ∧ NoDup cs ∧ ∀ c, c ∈ cs ↔ is_Some (chunks h !! c).

(** The queue [ms] and the free list [fl] are well formed and disjoint. *)
Record q_inv (s : bst) (ms : list mref) (fl : list mloc) : Prop := {
  q_heap : heap_wf (b_heap s);
  q_chain : mchain (b_heap s) (db_head (b_db s)) ms;
  q_tail : db_tail (b_db s) = r_loc <$> last ms;
  q_free : fchain (b_heap s) (freelist (b_mp s)) fl;
  q_nodup : NoDup (fl ++ locs ms);
  q_bufs : NoDup (bufs ms);
  q_pool : pool_ok (b_heap s) (pool (b_mp s))
}.

(** The unread bytes, and the consistency of [offset] and [size] with them. *)
Definition queued (ms : list mref) : list byte := concat (r_bytes <$> ms).
Definition stream (d : databuffer) (ms : list mref) : list byte :=
  drop (Z.to_nat (offset d)) (queued ms).
Definition first_len (ms : list mref) : Z :=
  match ms with [] => 0 | r :: _ => Z.of_nat (length (r_bytes r)) end.

Definition off_ok (d : databuffer) (ms : list mref) : Prop :=
  (0 ≤ offset d ≤ first_len ms)%Z ∧
  Forall (λ r, (Z.of_nat (length (r_bytes r)) ≤ int_max)%Z) ms.

Definition sized (d : databuffer) (ms : list mref) : Prop :=
  off_ok d ms ∧ db_size d = Z.of_nat (length (stream d ms)) ∧ (db_size d ≤ int_max)%Z.

(** The invariant of a buffer. *)
Definition db_inv (s : bst) (ms : list mref) (fl : list mloc) : Prop :=
  q_inv s ms fl ∧ sized (b_db s) ms.

(** What an operation leaves alone: from the messages [ls] and the blocks [bs]
    it makes [ls'] and [bs'], with messages that were not initialised before;
    the blocks of [bs] that are not in [bs'] are freed. *)
Record frame (h h' : heap) (ls : list mloc) (bs : list loc)
    (ls' : list mloc) (bs' : list loc) : Prop := {
  fr_msgs : ∀ l m, msgs h !! l = Some m → l ∉ ls → msgs h' !! l = Some m;
  fr_locs : ∀ l, l ∈ ls' → l ∈ ls ∨ msgs h !! l = None;
  fr_blocks : ∀ b, b ∉ bs → blocks h' !! b = blocks h !! b;
  fr_bufs : ∀ b, b ∈ bs' → b ∈ bs;
  fr_freed : ∀ b, b ∈ bs → b ∉ bs' → blocks h' !! b = None;
  fr_kept : ∀ b, b ∈ bs' → blocks h' !! b = blocks h !! b
}.

Lemma frame_refl h ls bs : frame h h ls bs ls bs.
Proof. constructor; auto. intros b ? []. done. Qed.

Lemma frame_trans h1 h2 h3 ls1 bs1 ls2 bs2 ls3 bs3 :
  frame h1 h2 ls1 bs1 ls2 bs2 → frame h2 h3 ls2 bs2 ls3 bs3 →
  frame h1 h3 ls1 bs1 ls3 bs3.
Proof.
  intros [A1 A2 A3 A4 A5 A6] [B1 B2 B3 B4 B5 B6]. constructor.
  - intros l m Hl Hn. apply B1; [by apply A1|]. intros Hin.
    destruct (A2 l Hin); [done|congruence].
  - intros l Hin. destruct (B2 l Hin) as [H2|H2]; [by apply A2|].
    destruct (msgs h1 !! l) as [m|] eqn:E; [|by right]. left.
    destruct (decide (l ∈ ls1)) as [|Hn]; [done|]. rewrite (A1 _ _ E Hn) in H2. done.
  - intros b Hn. rewrite B3, A3; [done..|]. intros Hin. by apply Hn, A4.
  - auto.
  - intros b Hin Hn. destruct (decide (b ∈ bs2)) as [H2|H2]; [by apply B5|].
    rewrite B3 by done. by apply A5.
  - intros b Hin. rewrite B6, A6 by auto. done.
Qed.

(** ** Chains under a change of the heap *)

Lemma mchain_ext h h' p ms :
  (∀ r, r ∈ ms → msgs h' !! r_loc r = msgs h !! r_loc r ∧
     blocks h' !! r_buf r = blocks h !! r_buf r) →
  mchain h p ms → mchain h' p ms.
Proof.
  revert p. induction ms as [|r ms IH]; intros p Hext; [done|].
  intros (->&nx&Hm&Hb&Hc). split; [done|]. exists nx.
  destruct (Hext r) as [-> ->]; [set_solver|]. split_and!; [done..|].
  apply IH; [|done]. intros; apply Hext. set_solver.
Qed.

Lemma fchain_ext h h' p fl :
  (∀ l, l ∈ fl → msgs h' !! l = msgs h !! l) → fchain h p fl → fchain h' p fl.
Proof.
  revert p. induction fl as [|l fl IH]; intros p Hext; [done|].
  intros (->&nx&Hm&Hc). split; [done|]. exists nx.
  rewrite Hext by set_solver. split; [done|]. apply IH; [|done]. set_solver.
Qed.

Lemma mchain_lookup h p ms r : mchain h p ms → r ∈ ms →
  (∃ m, msgs h !! r_loc r = Some m) ∧ blocks h !! r_buf r = Some (r_bytes r).
Proof.
  revert p. induction ms as [|r' ms IH]; intros p Hc Hr; [set_solver|].
  destruct Hc as (->&nx&Hm&Hb&Hc). apply elem_of_cons in Hr as [->|Hr]; eauto.
Qed.

Lemma mchain_loc h p ms l : mchain h p ms → l ∈ locs ms → is_Some (msgs h !! l).
Proof. intros Hc (r&->&Hr)%list_elem_of_fmap. eapply mchain_lookup in Hc; naive_solver. Qed.

Lemma mchain_buf h p ms b : mchain h p ms → b ∈ bufs ms → is_Some (blocks h !! b).
Proof. intros Hc (r&->&Hr)%list_elem_of_fmap. eapply mchain_lookup in Hc; naive_solver. Qed.

Lemma fchain_loc h p fl l : fchain h p fl → l ∈ fl → is_Some (msgs h !! l).
Proof.
  revert p. induction fl as [|l' fl IH]; intros p Hc Hl; [set_solver|].
  destruct Hc as (->&nx&Hm&Hc). apply elem_of_cons in Hl as [->|Hl]; eauto.
Qed.

(** A queue survives the operations on another one. *)
Lemma mchain_frame h h' ls bs ls' bs' p ms :
  frame h h' ls bs ls' bs' → (∀ l, l ∈ locs ms → l ∉ ls) → (∀ b, b ∈ bufs ms → b ∉ bs) →
  mchain h p ms → mchain h' p ms.
Proof.
  intros Hf Hl Hb Hc. eapply mchain_ext; [|done]. intros r Hr.
  destruct (mchain_lookup _ _ _ _ Hc Hr) as [[m Hm] _]. split.
  - rewrite Hm. eapply fr_msgs; [done..|]. apply Hl. by apply list_elem_of_fmap_2.
  - eapply fr_blocks; [done|]. apply Hb. by apply list_elem_of_fmap_2.
Qed.

Lemma locs_le_msgs h p ms : mchain h p ms → NoDup (locs ms) → length ms ≤ size (msgs h).
Proof.
  intros Hc Hnd. rewrite <- (length_fmap r_loc), <- size_dom.
  rewrite <- (size_list_to_set (C := gset mloc)) by done.
  apply subseteq_size. intros l Hl. apply elem_of_list_to_set in Hl.
  apply elem_of_dom. by eapply mchain_loc.
Qed.

(** ** Memory accesses *)

Lemma wp_upd_db f (Q : unit → bst → Prop) s :
  Q tt (Bst (b_heap s) (f (b_db s)) (b_mp s)) → wp (upd_db f) Q s.
Proof. done. Qed.

Lemma wp_upd_mp f (Q : unit → bst → Prop) s :
  Q tt (Bst (b_heap s) (b_db s) (f (b_mp s))) → wp (upd_mp f) Q s.
Proof. done. Qed.

Lemma wp_upd_heap f (Q : unit → bst → Prop) s :
  Q tt (Bst (f (b_heap s)) (b_db s) (b_mp s)) → wp (upd_heap f) Q s.
Proof. done. Qed.

(** [wp_step] and the updates of the state. *)
Ltac db_step :=
  first
    [ wp_step
    | lazymatch goal with
      | |- wp (upd_db _) _ _ => apply wp_upd_db
      | |- wp (upd_mp _) _ _ => apply wp_upd_mp
      | |- wp (upd_heap _) _ _ => apply wp_upd_heap
      end; cbv beta ].
Ltac db_steps := repeat db_step; simpl.

Lemma wp_load_msg l m (Q : message → bst → Prop) s :
  msgs (b_heap s) !! l = Some m → Q m s → wp (load_msg (Some l)) Q s.
Proof. intros H HQ. unfold wp, load_msg. by rewrite H. Qed.

Lemma wp_store_msg l m (Q : unit → bst → Prop) s :
  allocated (b_heap s) l →
  Q tt (Bst (set_msgs (<[l := m]> (msgs (b_heap s))) (b_heap s)) (b_db s) (b_mp s)) →
  wp (store_msg (Some l) m) Q s.
Proof.
  intros [[nx Hc] Hl] HQ. unfold store_msg. db_step. db_step.
  rewrite Hc, bool_decide_eq_true_2 by done. by db_step.
Qed.

Lemma wp_free_block b bs (Q : unit → bst → Prop) s :
  blocks (b_heap s) !! b = Some bs →
  Q tt (Bst (set_blocks (delete b (blocks (b_heap s))) (b_heap s)) (b_db s) (b_mp s)) →
  wp (free_block (Some b)) Q s.
Proof. intros H HQ. unfold free_block. db_step. db_step. rewrite H. by db_step. Qed.

Lemma wp_read_block b bs off n (Q : list byte → bst → Prop) s :
  blocks (b_heap s) !! b = Some bs → (0 ≤ off)%Z → (0 ≤ n)%Z →
  (off + n ≤ Z.of_nat (length bs))%Z →
  Q (take (Z.to_nat n) (drop (Z.to_nat off) bs)) s → wp (read_block (Some b) off n) Q s.
Proof.
  intros H ??? HQ. unfold read_block. db_step. db_step.
  rewrite H, bool_decide_eq_true_2 by done. by db_step.
Qed.

(** ** Returning a message to the pool *)

(** The heap after the message at [l] gave up its block [b] and was linked in
    front of the free list [p]. *)
Definition returned (l : mloc) (b : loc) (p : option mloc) (h : heap) : heap :=
  Heap (delete b (blocks h)) (chunks h) (<[l := Message None 0 p]> (msgs h)).

Lemma returned_mchain l b p h q ms :
  l ∉ locs ms → b ∉ bufs ms → mchain h q ms → mchain (returned l b p h) q ms.
Proof.
  intros Hl Hb. apply mchain_ext. intros r Hr. simpl.
  rewrite lookup_insert_ne, lookup_delete_ne; [done|..].
  - intros ->. apply Hb. by apply list_elem_of_fmap_2.
  - intros ->. apply Hl. by apply list_elem_of_fmap_2.
Qed.

Lemma returned_fchain l b p h fl :
  l ∉ fl → fchain h p fl → fchain (returned l b p h) (Some l) (l :: fl).
Proof.
  intros Hl Hc. split; [done|]. exists p. simpl. rewrite lookup_insert_eq.
  split; [done|]. eapply fchain_ext; [|done]. intros l' Hl'. simpl.
  rewrite lookup_insert_ne; [done|]. by intros ->.
Qed.

Lemma returned_wf l b p h : allocated h l → heap_wf h → heap_wf (returned l b p h).
Proof.
  intros Ha Hwf l' [m Hm]. simpl in Hm. apply lookup_insert_Some in Hm as [[<- _]|[_ Hm]].
  - done.
  - apply (Hwf l'). eauto.
Qed.

Lemma returned_frame l b p h ls bs :
  b ∉ bs → frame h (returned l b p h) (l :: ls) (b :: bs) (l :: ls) bs.
Proof.
  intros Hb. constructor; simpl.
  - intros l' m Hm Hn. rewrite lookup_insert_ne; [done|set_solver].
  - auto.
  - intros b' Hn. rewrite lookup_delete_ne; [done|set_solver].
  - set_solver.
  - intros b' [->|?]%elem_of_cons Hn; [apply lookup_delete_eq|done].
  - intros b' Hin. rewrite lookup_delete_ne; [done|set_solver].
Qed.

(** A frame only depends on which messages its lists hold. *)
Lemma frame_perm h h' ls1 ls2 bs ls1' ls2' bs' :
  ls1 ≡ₚ ls2 → ls1' ≡ₚ ls2' → frame h h' ls1 bs ls1' bs' → frame h h' ls2 bs ls2' bs'.
Proof.
  intros E E' [A1 A2 A3 A4 A5 A6]. constructor; try done.
  - intros l m ?. rewrite <- E. by apply A1.
  - intros l. rewrite <- E, <- E'. by apply A2.
Qed.

Lemma return_message_wp s r ms fl (Q : unit → bst → Prop) :
  q_inv s (r :: ms) fl →
  (∀ s', q_inv s' ms (r_loc r :: fl) →
     header (b_db s') = header (b_db s) → offset (b_db s') = offset (b_db s) →
     db_size (b_db s') = db_size (b_db s) →
     frame (b_heap s) (b_heap s') (fl ++ locs (r :: ms)) (bufs (r :: ms))
       ((r_loc r :: fl) ++ locs ms) (bufs ms) → Q tt s') →
  wp _return_message Q s.
Proof.
  intros [Hwf Hc Htl Hf Hnd Hndb Hp] HQ. destruct Hc as (Hhd&nx&Hm&Hb&Hc).
  assert (Hnd' : NoDup (r_loc r :: fl ++ locs ms)).
  { by rewrite (Permutation_middle fl (locs ms) (r_loc r)). }
  apply NoDup_cons in Hnd' as Hn. destruct Hn as [[Hnf Hnl]%not_elem_of_app _].
  apply NoDup_cons in Hndb as Hnb. destruct Hnb as [Hnb Hndb'].
  assert (Hal : allocated (b_heap s) (r_loc r)) by (apply Hwf; eauto).
  set (h' := returned (r_loc r) (r_buf r) (freelist (b_mp s)) (b_heap s)).
  assert (HQ' : ∀ d, header d = header (b_db s) → offset d = offset (b_db s) →
    db_size d = db_size (b_db s) → db_head d = nx → db_tail d = r_loc <$> last ms →
    Q tt (Bst h' d (MessagePool (pool (b_mp s)) (Some (r_loc r))))).
  { intros d ??? Hd Ht. apply HQ; try done.
    - constructor; simpl; try done.
      + by apply returned_wf.
      + rewrite Hd. by apply returned_mchain.
      + by apply returned_fchain.
    - simpl. eapply frame_perm; [| |by apply returned_frame].
      + by rewrite <- Permutation_middle.
      + done. }
  unfold _return_message. db_steps. rewrite Hhd.
  eapply wp_load_msg; [done|]. simpl. db_steps. destruct ms as [|r2 ms].
  - simpl in Hc. subst nx. simpl in Htl. db_steps. apply wp_assert.
    { rewrite Htl. by apply bool_decide_eq_true_2. }
    db_steps. eapply wp_free_block; [done|]. db_steps.
    apply wp_store_msg; [done|]. db_steps. by apply HQ'.
  - destruct Hc as (->&_). db_steps. eapply wp_free_block; [done|]. db_steps.
    apply wp_store_msg; [done|]. db_steps. apply HQ'; try done.
Qed.

(** ** Reading *)

Lemma drop_queued_cons r ms n :
  (n ≤ length (r_bytes r)) → drop n (queued (r :: ms)) = drop n (r_bytes r) ++ queued ms.
Proof.
  intros H. unfold queued. rewrite fmap_cons. cbn [concat].
  rewrite drop_app_le by done. done.
Qed.

(** Only the ends of the buffer matter to the queue. *)
Lemma q_inv_db s d ms fl : q_inv s ms fl →
  db_head d = db_head (b_db s) → db_tail d = db_tail (b_db s) →
  q_inv (Bst (b_heap s) d (b_mp s)) ms fl.
Proof. intros [?] E1 E2. constructor; simpl; rewrite ?E1, ?E2; done. Qed.

Lemma stream_nil d : stream d [] = [].
Proof. apply drop_nil. Qed.

(** What the loop of a read promises. *)
Definition read_post (s : bst) (ms : list mref) (fl : list mloc) (sz : Z)
    (bs : list byte) (s' : bst) : Prop :=
  ∃ ms' fl', bs = take (Z.to_nat sz) (stream (b_db s) ms) ∧
    q_inv s' ms' fl' ∧ off_ok (b_db s') ms' ∧
    stream (b_db s') ms' = drop (Z.to_nat sz) (stream (b_db s) ms) ∧
    header (b_db s') = header (b_db s) ∧ db_size (b_db s') = db_size (b_db s) ∧
    frame (b_heap s) (b_heap s') (fl ++ locs ms) (bufs ms) (fl' ++ locs ms') (bufs ms').

Lemma stream_cons d r ms : off_ok d (r :: ms) →
  stream d (r :: ms) = drop (Z.to_nat (offset d)) (r_bytes r) ++ queued ms.
Proof. intros [[Ho0 Ho1] _]. simpl in Ho1. apply drop_queued_cons. lia. Qed.

Lemma stream_front d ms : offset d = 0%Z → stream d ms = queued ms.
Proof. intros E. unfold stream. by rewrite E, drop_0. Qed.

Lemma off_ok_front d r d' ms : off_ok d (r :: ms) → offset d' = 0%Z → off_ok d' ms.
Proof.
  intros [_ H] E. apply Forall_cons in H as [_ H]. split; [|done]. rewrite E.
  destruct ms; simpl; lia.
Qed.

(** A read within the first message. *)
Lemma read_within s r ms fl sz : q_inv s (r :: ms) fl → off_ok (b_db s) (r :: ms) → (0 < sz)%Z →
  (sz < Z.of_nat (length (r_bytes r)) - offset (b_db s))%Z →
  read_post s (r :: ms) fl sz (take (Z.to_nat sz) (drop (Z.to_nat (offset (b_db s))) (r_bytes r)))
    (Bst (b_heap s) (set_offset (offset (b_db s) + sz) (b_db s)) (b_mp s)).
Proof.
  intros Hq Hoff Hsz Hlt. pose proof (stream_cons _ _ _ Hoff) as Hst.
  destruct Hoff as [[Ho0 Ho1] Hlen]. simpl in Ho1. exists (r :: ms), fl. rewrite Hst.
  pose proof (length_drop (r_bytes r) (Z.to_nat (offset (b_db s)))) as Hl.
  rewrite take_app_le, drop_app_le by lia. split_and!; try done.
  - by apply q_inv_db.
  - split; [simpl; lia|done].
  - unfold stream. cbn [offset set_offset b_db]. rewrite drop_queued_cons by lia.
    rewrite drop_drop. do 2 f_equal. lia.
  - apply frame_refl.
Qed.

(** A read of the rest of the first message and of [sz'] bytes more. *)
Lemma read_beyond s r ms fl sz sz' s2 bs s3 : off_ok (b_db s) (r :: ms) → (0 ≤ sz')%Z →
  (sz = Z.of_nat (length (r_bytes r)) - offset (b_db s) + sz')%Z →
  offset (b_db s2) = 0%Z → header (b_db s2) = header (b_db s) →
  db_size (b_db s2) = db_size (b_db s) →
  frame (b_heap s) (b_heap s2) (fl ++ locs (r :: ms)) (bufs (r :: ms))
    ((r_loc r :: fl) ++ locs ms) (bufs ms) →
  read_post s2 ms (r_loc r :: fl) sz' bs s3 →
  read_post s (r :: ms) fl sz (drop (Z.to_nat (offset (b_db s))) (r_bytes r) ++ bs) s3.
Proof.
  intros Hoff Hsz' -> Ho Hh Hz Hfr (ms'&fl'&->&Hq3&Ho3&Hst3&Hh3&Hz3&Hfr3).
  pose proof (stream_cons _ _ _ Hoff) as Hst. destruct Hoff as [[Ho0 Ho1] _]. simpl in Ho1.
  rewrite (stream_front _ ms Ho) in *. exists ms', fl'. rewrite Hst.
  pose proof (length_drop (r_bytes r) (Z.to_nat (offset (b_db s)))) as Hl.
  rewrite take_app_ge, drop_app_ge, Hst3, Hl by lia.
  replace (Z.to_nat _ - (length (r_bytes r) - Z.to_nat (offset (b_db s)))) with (Z.to_nat sz')
    by lia.
  split_and!; try done; try by etrans. by eapply frame_trans.
Qed.

(** Nothing more is read. *)
Lemma read_none s ms fl : q_inv s ms fl → off_ok (b_db s) ms → read_post s ms fl 0 [] s.
Proof. intros Hq Ho. exists ms, fl. split_and!; try done. apply frame_refl. Qed.

Lemma read_loop_wp : ∀ ms fuel sz s fl,
  q_inv s ms fl → off_ok (b_db s) ms → (0 < sz)%Z →
  (sz ≤ Z.of_nat (length (stream (b_db s) ms)))%Z → length ms ≤ fuel →
  wp (read_loop fuel sz) (read_post s ms fl sz) s.
Proof.
  induction ms as [|r ms IH]; intros fuel sz s fl Hq Hoff Hsz Hle Hf.
  { rewrite stream_nil in Hle. simpl in Hle. lia. }
  destruct fuel as [|fuel]; simpl in Hf; [lia|]. unfold read_loop; fold read_loop.
  pose proof (q_chain _ _ _ Hq) as (Hhd&nx&Hm&Hb&Hc).
  rewrite (stream_cons _ _ _ Hoff), length_app, length_drop in Hle.
  pose proof Hoff as [[Ho0 Ho1] Hlen]. simpl in Ho1. apply Forall_cons in Hlen as [Hl1 _].
  db_steps. rewrite Hhd. eapply wp_load_msg; [done|]. db_steps.
  apply safely_int_res; [unfold int_min, int_max in *; lia|]. db_steps.
  destruct (Z.ltb_spec sz (Z.of_nat (length (r_bytes r)) - offset (b_db s))) as [Hlt|Hge].
  { db_steps. eapply wp_read_block; [done|lia..|]. db_steps.
    apply safely_int_res; [unfold int_min, int_max in *; lia|]. db_steps. by apply read_within. }
  assert (Hall : take (Z.to_nat (Z.of_nat (length (r_bytes r)) - offset (b_db s)))
    (drop (Z.to_nat (offset (b_db s))) (r_bytes r)) = drop (Z.to_nat (offset (b_db s))) (r_bytes r))
    by (apply take_ge; rewrite length_drop; lia).
  destruct (Z.eqb_spec (Z.of_nat (length (r_bytes r)) - offset (b_db s)) sz) as [E|E].
  - db_steps. eapply wp_read_block; [done|lia..|]. db_steps.
    eapply return_message_wp; [by apply q_inv_db|]. simpl.
    intros s' Hq' Hh Ho Hz Hfr. db_steps.
    rewrite <- E, Hall, <- (app_nil_r (drop _ _)).
    eapply (read_beyond s r ms fl _ 0 s'); try done; [lia|].
    apply read_none; [done|by eapply off_ok_front].
  - db_steps. eapply wp_read_block; [done|lia..|]. db_steps.
    eapply return_message_wp; [done|]. intros s' Hq' Hh Ho Hz Hfr. db_steps. rewrite Hall.
    eapply wp_mono; [apply (IH fuel _ _ (r_loc r :: fl))|]; simpl.
    + by apply q_inv_db.
    + by eapply off_ok_front.
    + lia.
    + rewrite stream_front by done. lia.
    + lia.
    + intros bs s3 Hpost. db_steps.
      eapply read_beyond; [| | | | | | |exact Hpost]; (done || lia).
Qed.

Lemma queue_fuel_ok s ms fl : q_inv s ms fl → length ms ≤ queue_fuel s.
Proof.
  intros [_ Hc _ _ Hnd _ _]. apply NoDup_app in Hnd as (_&_&Hnd).
  pose proof (locs_le_msgs _ _ _ Hc Hnd). unfold queue_fuel. lia.
Qed.

(** [databuffer_read] of [sz] bytes: the first bytes of the queue, which leave it. *)
Definition read_ok (s : bst) (ms : list mref) (fl : list mloc) (sz : Z)
    (bs : list byte) (s' : bst) : Prop :=
  ∃ ms' fl', bs = take (Z.to_nat sz) (stream (b_db s) ms) ∧
    db_inv s' ms' fl' ∧
    stream (b_db s') ms' = drop (Z.to_nat sz) (stream (b_db s) ms) ∧
    header (b_db s') = header (b_db s) ∧
    frame (b_heap s) (b_heap s') (fl ++ locs ms) (bufs ms) (fl' ++ locs ms') (bufs ms').

Lemma read_wp s ms fl sz : db_inv s ms fl → (0 < sz ≤ db_size (b_db s))%Z →
  wp (databuffer_read sz) (read_ok s ms fl sz) s.
Proof.
  intros [Hq [Hoff [Hsz Hmax]]] Hle. unfold databuffer_read. db_steps.
  apply wp_assert; [apply bool_decide_eq_true_2; lia|]. db_steps.
  apply safely_int_res; [unfold int_min; lia|]. db_steps.
  set (s1 := Bst _ _ _).
  eapply wp_mono; [apply (read_loop_wp ms _ sz s1 fl)|].
  - by apply q_inv_db.
  - done.
  - lia.
  - change (stream (b_db s1) ms) with (stream (b_db s) ms). lia.
  - apply (queue_fuel_ok s1 ms fl). by apply q_inv_db.
  - change (stream (b_db s1) ms) with (stream (b_db s) ms).
    intros bs s' (ms'&fl'&->&Hq'&Hoff'&Hst&Hh&Hz&Hfr).
    change (stream (b_db s1) ms) with (stream (b_db s) ms) in *.
    exists ms', fl'. split_and!; try done. split; [done|]. split; [done|].
    rewrite Hst, Hz, length_drop. simpl. split; lia.
Qed.

(** ** Taking a message from the pool *)

Lemma wp_store_msg_eq l m (Q : unit → bst → Prop) s :
  allocated (b_heap s) l →
  (∀ s', b_db s' = b_db s → b_mp s' = b_mp s → blocks (b_heap s') = blocks (b_heap s) →
     chunks (b_heap s') = chunks (b_heap s) →
     msgs (b_heap s') = <[l := m]> (msgs (b_heap s)) → Q tt s') →
  wp (store_msg (Some l) m) Q s.
Proof. intros Ha HQ. apply wp_store_msg; [done|]. by apply HQ. Qed.

(** The loop that links the messages [i], ..., [i + left - 1] of the chunk [c]. *)
Lemma init_messages_wp c : ∀ left i s (Q : unit → bst → Prop),
  is_Some (chunks (b_heap s) !! c) → (Z.of_nat (i + left) ≤ MESSAGEPOOL)%Z →
  (∀ s', b_db s' = b_db s → b_mp s' = b_mp s → blocks (b_heap s') = blocks (b_heap s) →
     chunks (b_heap s') = chunks (b_heap s) →
     (∀ j, i ≤ j < i + left → msgs (b_heap s') !! (c, j) =
        Some (Message None 0 (Some (c, S j)))) →
     (∀ l, (l.1 ≠ c ∨ l.2 < i ∨ i + left ≤ l.2) →
        msgs (b_heap s') !! l = msgs (b_heap s) !! l) → Q tt s') →
  wp (init_messages left c i) Q s.
Proof.
  induction left as [|left IH]; intros i s Q Hc Hl HQ; unfold init_messages; fold init_messages.
  { db_step. apply HQ; try done. lia. }
  db_step. apply wp_store_msg_eq; [split; [done|simpl; lia]|].
  intros s1 Hd1 Hp1 Hb1 Hc1 Hm1. apply IH; [by rewrite Hc1|lia|].
  intros s2 Hd2 Hp2 Hb2 Hc2 Hnew Hold. apply HQ; try congruence.
  - intros j Hj. destruct (decide (j = i)) as [->|]; [|apply Hnew; lia].
    rewrite Hold by (simpl; lia). rewrite Hm1. apply lookup_insert_eq.
  - intros l Hout. rewrite Hold by (destruct Hout as [|[|]]; auto with lia).
    rewrite Hm1, lookup_insert_ne; [done|]. intros <-. simpl in Hout. lia.
Qed.

(** Consecutive messages of a chunk, linked, form a free list. *)
Lemma chunk_fchain h c : ∀ n i,
  (∀ j, i ≤ j ≤ i + n → msgs h !! (c, j) =
     Some (Message None 0 (if decide (j = i + n) then None else Some (c, S j)))) →
  fchain h (Some (c, i)) (pair c <$> seq i (S n)).
Proof.
  induction n as [|n IH]; intros i H; rewrite <- cons_seq; cbn [fmap list_fmap fchain].
  - split; [done|]. exists None. rewrite H by lia. rewrite decide_True by lia. done.
  - split; [done|]. exists (Some (c, S i)). rewrite H by lia.
    rewrite decide_False by lia. split; [done|]. apply IH. intros j Hj.
    rewrite H by lia. do 3 f_equal. repeat case_decide; done || lia.
Qed.

Definition chunk_free (c : loc) : list mloc :=
  pair c <$> seq 1 (Z.to_nat (MESSAGEPOOL - 1)).

Lemma NoDup_chunk_free c : NoDup (chunk_free c).
Proof. apply NoDup_fmap_2; [|apply NoDup_seq]. by intros ?? [=]. Qed.

Lemma elem_chunk_free c l : l ∈ chunk_free c → l.1 = c ∧ 1 ≤ l.2.
Proof. intros (j&->&Hj%elem_of_seq)%list_elem_of_fmap. simpl. lia. Qed.

(** What [take_message] promises: a message [l] out of every list. *)
Definition taken (s : bst) (ms : list mref) (fl : list mloc) (r : option mloc)
    (s' : bst) : Prop :=
  ∃ l fl', r = Some l ∧ q_inv s' ms fl' ∧ NoDup (l :: fl' ++ locs ms) ∧
    allocated (b_heap s') l ∧ b_db s' = b_db s ∧
    blocks (b_heap s') = blocks (b_heap s) ∧
    (∀ l m, msgs (b_heap s) !! l = Some m → l ∉ fl ++ locs ms →
       msgs (b_heap s') !! l = Some m) ∧
    (∀ l', l' ∈ l :: fl' ++ locs ms → l' ∈ fl ++ locs ms ∨ msgs (b_heap s) !! l' = None).

Lemma heap_wf_grow h h' : heap_wf h →
  (∀ c, is_Some (chunks h !! c) → is_Some (chunks h' !! c)) →
  (∀ l, is_Some (msgs h' !! l) → is_Some (msgs h !! l) ∨ allocated h' l) →
  heap_wf h'.
Proof.
  intros Hwf Hc Hm l Hl. destruct (Hm l Hl) as [H|]; [|done].
  destruct (Hwf l H) as [??]. split; auto.
Qed.

Lemma pchain_insert cs c nx p l : c ∉ l → pchain cs p l → pchain (<[c := nx]> cs) p l.
Proof.
  revert p. induction l as [|c' l IH]; intros p Hc; [done|].
  intros (->&nx'&Hnx&Hp). split; [done|]. exists nx'.
  rewrite lookup_insert_ne by set_solver. split; [done|]. apply IH; [set_solver|done].
Qed.

Lemma pool_ok_cons h p c cs' : pool_ok h p → chunks h !! c = None →
  chunks cs' = <[c := p]> (chunks h) → pool_ok cs' (Some c).
Proof.
  intros (l&Hp&Hnd&Hin) Hc E. assert (c ∉ l) by (rewrite Hin, Hc; by intros []).
  exists (c :: l). rewrite E. split_and!.
  - split; [done|]. exists p. rewrite lookup_insert_eq. split; [done|].
    by apply pchain_insert.
  - by apply NoDup_cons.
  - intros c'. rewrite elem_of_cons, Hin, lookup_insert_is_Some.
    destruct (decide (c' = c)) as [->|]; naive_solver.
Qed.

(** The heap [h'] is [h] with the chunk [c], all its messages but the first
    linked from [(c, 1)]. *)
Record chunk_added (h h' : heap) (c : loc) (p : option loc) : Prop := {
  ca_fresh : chunks h !! c = None;
  ca_chunks : chunks h' = <[c := p]> (chunks h);
  ca_blocks : blocks h' = blocks h;
  ca_cells : ∀ j, (1 ≤ Z.of_nat j < MESSAGEPOOL)%Z → msgs h' !! (c, j) =
    Some (Message None 0
      (if decide (Z.of_nat j = MESSAGEPOOL - 1)%Z then None else Some (c, S j)));
  ca_others : ∀ l, (l.1 ≠ c ∨ l.2 = 0 ∨ (MESSAGEPOOL ≤ Z.of_nat l.2)%Z) →
    msgs h' !! l = msgs h !! l
}.

Lemma new_chunk_heap s :
  wp new_chunk (λ r s', ∃ c, r = Some (c, 0) ∧
    chunk_added (b_heap s) (b_heap s') c (pool (b_mp s)) ∧ b_db s' = b_db s ∧
    b_mp s' = MessagePool (Some c) (Some (c, 1))) s.
Proof.
  unfold new_chunk. db_steps. set (c := fresh_loc (chunks (b_heap s))).
  set (n := Z.to_nat (MESSAGEPOOL - 1)).
  assert (Hn : Z.of_nat n = (MESSAGEPOOL - 1)%Z) by (unfold n, MESSAGEPOOL; lia).
  assert (Hn1 : 1 ≤ n) by (unfold MESSAGEPOOL in Hn; lia).
  apply init_messages_wp; [simpl; rewrite lookup_insert_eq; eauto|lia|].
  intros s1 Hd1 Hp1 Hb1 Hc1 Hnew Hold. simpl in Hd1, Hp1, Hb1, Hc1, Hold. db_steps.
  eapply wp_load_msg; [apply Hnew; lia|]. db_steps.
  apply wp_store_msg_eq.
  { split; simpl; [rewrite Hc1, lookup_insert_eq; eauto|lia]. }
  intros s2 Hd2 Hp2 Hb2 Hc2 Hm2. db_steps. exists c. split_and!; [done| |congruence|done].
  constructor; simpl.
  - apply lookup_fresh.
  - rewrite Hc2, Hc1, Hp2, Hp1. by rewrite insert_insert_eq.
  - congruence.
  - intros j Hj. rewrite Hm2. case_decide as E.
    + replace j with n by lia. by rewrite lookup_insert_eq.
    + rewrite lookup_insert_ne by (intros [=]; lia). apply Hnew. lia.
  - intros l Hl. rewrite Hm2, lookup_insert_ne by (intros <-; simpl in Hl; lia).
    apply Hold. destruct Hl as [|[|]]; auto with lia.
Qed.

(** The refill: the first message of the chunk is handed out, the 1022 others
    are the free list. *)
Lemma new_chunk_wp s ms : q_inv s ms [] → wp new_chunk (taken s ms []) s.
Proof.
  intros [Hwf Hc Htl Hf Hnd Hndb Hp]. eapply wp_mono; [apply new_chunk_heap|].
  intros r s' (c&->&[Hfresh Hch Hbl Hcell Hoth]&Hd&Hmp).
  assert (Hnone : ∀ j, msgs (b_heap s) !! (c, j) = None).
  { intros j. destruct (msgs (b_heap s) !! (c, j)) as [m|] eqn:E; [|done].
    destruct (Hwf (c, j)) as [[nx Hnx] _]; [eauto|]. simpl in Hnx. congruence. }
  assert (Hold : ∀ l m, msgs (b_heap s) !! l = Some m → l.1 ≠ c).
  { intros [c' j] m E. simpl. intros ->. by rewrite Hnone in E. }
  assert (Hdisj : ∀ l, l ∈ locs ms → l.1 ≠ c).
  { intros l Hl. destruct (mchain_loc _ _ _ _ Hc Hl). eauto. }
  assert (Hal : ∀ j, (Z.of_nat j < MESSAGEPOOL)%Z → allocated (b_heap s') (c, j)).
  { intros j Hj. split; simpl; [rewrite Hch, lookup_insert_eq; eauto|lia]. }
  exists (c, 0), (chunk_free c). split_and!; try done.
  - constructor; rewrite ?Hd, ?Hmp; try done.
    + eapply heap_wf_grow; [done|..].
      * intros c' [? E]. rewrite Hch, lookup_insert_is_Some. naive_solver.
      * intros [c' j] [m Hm]. destruct (decide (c' = c)) as [->|].
        -- right. apply Hal. destruct (decide (MESSAGEPOOL ≤ Z.of_nat j)%Z); [|lia].
           by rewrite Hoth, Hnone in Hm by auto.
        -- left. rewrite Hoth in Hm by auto. eauto.
    + eapply mchain_ext; [|done]. intros r Hr. rewrite Hbl. split; [|done].
      apply Hoth. left. apply Hdisj. by apply list_elem_of_fmap_2.
    + cbn [freelist]. unfold chunk_free.
      replace (Z.to_nat (MESSAGEPOOL - 1)) with (S (Z.to_nat (MESSAGEPOOL - 2)))
        by (unfold MESSAGEPOOL; lia).
      apply chunk_fchain. intros j Hj. rewrite Hcell by (unfold MESSAGEPOOL in *; lia).
      unfold MESSAGEPOOL in *. repeat case_decide; done || lia.
    + apply NoDup_app. split_and!; [apply NoDup_chunk_free| |].
      * intros l [Hl _]%elem_chunk_free Hl'. by apply Hdisj in Hl'.
      * done.
    + by eapply pool_ok_cons.
  - apply NoDup_cons. split.
    + intros [[_ ?]%elem_chunk_free|Hl]%elem_of_app; [simpl in *; lia|].
      by apply Hdisj in Hl.
    + apply NoDup_app. split_and!; [apply NoDup_chunk_free| |done].
      intros l [Hl _]%elem_chunk_free Hl'. by apply Hdisj in Hl'.
  - apply Hal. unfold MESSAGEPOOL. lia.
  - intros l m Hm _. rewrite Hoth; [done|]. left. eauto.
  - intros l [->|[[<- _]%elem_chunk_free|Hl]%elem_of_app]%elem_of_cons.
    + by right.
    + right. destruct l. apply Hnone.
    + left. set_solver.
Qed.

Lemma take_message_wp s ms fl : q_inv s ms fl → wp take_message (taken s ms fl) s.
Proof.
  intros Hq. pose proof Hq as [Hwf Hc Htl Hf Hnd Hndb Hp].
  unfold take_message. db_steps. destruct fl as [|l fl].
  - simpl in Hf. rewrite Hf. by apply new_chunk_wp.
  - destruct Hf as (Hfl&nx&Hm&Hf). rewrite Hfl. db_steps.
    eapply wp_load_msg; [done|]. db_steps. exists l, fl.
    assert (Hn : NoDup (fl ++ locs ms)) by by apply NoDup_cons in Hnd as [_ ?].
    split_and!; try done.
    + apply Hwf. eauto.
    + auto.
Qed.

(** ** Pushing *)

Lemma last_loc ms rt : last ms = Some rt → r_loc rt ∈ locs ms.
Proof. intros H. by apply list_elem_of_fmap_2, last_Some_elem_of. Qed.

(** Linking a message after the last one of a queue. *)
Lemma mchain_snoc h h' p ms r rt m :
  mchain h p ms → NoDup (locs ms) → last ms = Some rt → msgs h !! r_loc rt = Some m →
  r_loc r ∉ locs ms →
  msgs h' = <[r_loc rt := set_m_next (Some (r_loc r)) m]> (msgs h) →
  msgs h !! r_loc r =
    Some (Message (Some (r_buf r)) (Z.of_nat (length (r_bytes r))) None) →
  blocks h' = blocks h → blocks h !! r_buf r = Some (r_bytes r) →
  mchain h' p (ms ++ [r]).
Proof.
  revert p. induction ms as [|r' ms IH]; intros p Hc Hnd Hl Hm Hn Hms Hr Hbl Hb; [done|].
  destruct Hc as (->&nx&Hm'&Hb'&Hc). apply NoDup_cons in Hnd as [Hnl Hnd].
  apply not_elem_of_cons in Hn as [Hn1 Hn2].
  split; [done|]. destruct ms as [|r2 ms].
  - simpl in Hl. injection Hl as ->. rewrite Hm in Hm'. injection Hm' as ->.
    exists (Some (r_loc r)). rewrite Hms, Hbl, lookup_insert_eq. split_and!; [done..|].
    split; [done|]. exists None. rewrite Hms, Hbl, lookup_insert_ne by congruence. done.
  - exists nx. assert (r_loc rt ≠ r_loc r').
    { intros E. apply Hnl. rewrite <- E. by apply (last_loc (r2 :: ms)). }
    rewrite Hms, lookup_insert_ne, Hbl by done. split_and!; [done..|].
    by apply IH.
Qed.

Lemma stream_snoc d ms r : off_ok d ms → stream d (ms ++ [r]) = stream d ms ++ r_bytes r.
Proof.
  intros [[Ho0 Ho1] _]. unfold stream, queued.
  rewrite fmap_app, concat_app. simpl. rewrite app_nil_r.
  apply drop_app_le. destruct ms as [|r' ms]; simpl in *; [lia|].
  rewrite length_app. lia.
Qed.

(** The message at the end of the queue, before it is linked. *)
Definition push_ok (s : bst) (ms : list mref) (fl : list mloc) (b : loc)
    (bs : list byte) (s' : bst) : Prop :=
  ∃ l fl', db_inv s' (ms ++ [MRef l b bs]) fl' ∧
    stream (b_db s') (ms ++ [MRef l b bs]) = stream (b_db s) ms ++ bs ∧
    header (b_db s') = header (b_db s) ∧
    frame (b_heap s) (b_heap s') (fl ++ locs ms) (b :: bufs ms)
      (fl' ++ locs (ms ++ [MRef l b bs])) (bufs (ms ++ [MRef l b bs])).

(** The last steps of a push: [h'] is the heap after the new message was linked
    at the end. *)
Lemma push_finish s s1 ms fl l fl' b bs h' d' :
  db_inv s ms fl → taken s ms fl (Some l) s1 → q_inv s1 ms fl' →
  NoDup (l :: fl' ++ locs ms) →
  (∀ l', l' ∈ l :: fl' ++ locs ms → l' ∈ fl ++ locs ms ∨ msgs (b_heap s) !! l' = None) →
  blocks (b_heap s) !! b = Some bs → b ∉ bufs ms →
  (db_size (b_db s) + Z.of_nat (length bs) ≤ int_max)%Z →
  mchain h' (db_head d') (ms ++ [MRef l b bs]) →
  chunks h' = chunks (b_heap s1) → blocks h' = blocks (b_heap s1) →
  (∀ l', l' ≠ l → l' ∉ locs ms → msgs h' !! l' = msgs (b_heap s1) !! l') →
  allocated (b_heap s1) l →
  db_tail d' = Some l → header d' = header (b_db s) → offset d' = offset (b_db s) →
  db_size d' = (db_size (b_db s) + Z.of_nat (length bs))%Z →
  push_ok s ms fl b bs (Bst h' d' (b_mp s1)).
Proof.
  intros [Hq [[[Ho0 Ho1] Hlen] [Hsz Hmax]]] Ht Hq1 Hnd Hnew Hb Hnb Hfit Hc Hch Hbl Hms Hal
    Htl Hhd Hof Hdsz.
  destruct Hq1 as [Hwf1 Hc1 _ Hf1 _ Hndb1 Hp1].
  apply NoDup_cons in Hnd as Hnd1. destruct Hnd1 as [Hl Hnd1].
  apply not_elem_of_app in Hl as [Hlf Hll].
  assert (Hperm : fl' ++ locs (ms ++ [MRef l b bs]) ≡ₚ l :: fl' ++ locs ms).
  { rewrite fmap_app. simpl. rewrite app_assoc. by rewrite <- Permutation_cons_append. }
  assert (Hoff : off_ok d' (ms ++ [MRef l b bs])).
  { split; rewrite ?Hof.
    - destruct ms; simpl in *; lia.
    - apply Forall_app. split; [done|]. constructor; [simpl; lia|done]. }
  assert (Hst : stream d' (ms ++ [MRef l b bs]) = stream (b_db s) ms ++ bs).
  { rewrite stream_snoc by (split; rewrite ?Hof; done). unfold stream. by rewrite Hof. }
  exists l, fl'. split_and!; [|done|done|].
  - split.
    + constructor; simpl; try done.
      * intros l' [m Hm]. destruct (decide (l' = l)) as [->|Hne].
        { destruct Hal. split; [by rewrite Hch|done]. }
        destruct (decide (l' ∈ locs ms)) as [Hin|Hin].
        { destruct (mchain_loc _ _ _ _ Hc1 Hin) as [m' Hm'].
          destruct (Hwf1 l') as [??]; [eauto|]. split; [by rewrite Hch|done]. }
        rewrite Hms in Hm by done.
        destruct (Hwf1 l') as [??]; [eauto|]. split; [by rewrite Hch|done].
      * by rewrite last_snoc.
      * eapply fchain_ext; [|done]. intros l' Hl'. apply Hms; [by intros ->|].
        apply NoDup_app in Hnd1 as (_&Hd&_). by apply Hd.
      * by rewrite Hperm.
      * rewrite fmap_app. simpl. rewrite <- Permutation_cons_append. by apply NoDup_cons.
      * destruct Hp1 as (cs&?&?&?). exists cs. by rewrite Hch.
    + cbn [b_db]. split; [done|]. rewrite Hst, length_app, Nat2Z.inj_add, <- Hsz, Hdsz. done.
  - destruct Ht as (l0&fl0&[= <-]&_&_&_&_&Hbl1&Hold&_). constructor; simpl.
    + intros l' m Hm Hn. assert (l' ≠ l).
      { intros ->. destruct (Hnew l); [set_solver|set_solver|congruence]. }
      rewrite Hms; [by apply Hold|done|set_solver].
    + intros l'. rewrite Hperm. apply Hnew.
    + intros b' Hb'. by rewrite Hbl, Hbl1.
    + intros b'. rewrite fmap_app. set_solver.
    + intros b' Hin Hn. destruct Hn. rewrite fmap_app. set_solver.
    + intros b' Hin. by rewrite Hbl, Hbl1.
Qed.

Lemma push_wp s ms fl b bs :
  db_inv s ms fl → blocks (b_heap s) !! b = Some bs → b ∉ bufs ms →
  (db_size (b_db s) + Z.of_nat (length bs) ≤ int_max)%Z →
  wp (databuffer_push (Some b) (Z.of_nat (length bs)))
     (λ _ s', push_ok s ms fl b bs s') s.
Proof.
  intros Hinv Hb Hnb Hfit. pose proof Hinv as [Hq [[[Ho0 Ho1] _] [Hsz _]]].
  unfold databuffer_push. db_step.
  eapply wp_mono; [by apply take_message_wp|]. intros r s1 Ht.
  pose proof Ht as (l&fl'&->&Hq1&Hnd&Hal&Hd1&Hbl1&Hold&Hnew). db_step.
  apply wp_store_msg_eq; [done|]. intros s2 Hd2 Hp2 Hb2 Hc2 Hm2. db_steps.
  apply safely_int_res; [rewrite Hd2, Hd1; unfold int_min; lia|].
  db_steps. rewrite Hd2, Hd1, Hp2.
  pose proof Hq1 as [Hwf1 Hc1 Htl1 Hf1 Hnd1 Hndb1 Hp1]. rewrite Hd1 in Hc1, Htl1.
  assert (Hll : l ∉ locs ms) by (apply NoDup_cons in Hnd as [? _]; set_solver).
  destruct ms as [|r ms].
  - simpl in Hc1. rewrite Hc1. db_steps. apply wp_assert.
    { simpl. rewrite Htl1. by apply bool_decide_eq_true_2. }
    db_steps. eapply (push_finish s s1 [] fl l fl'); try done; simpl.
    + split; [done|]. exists None. rewrite Hm2, Hb2, Hbl1, lookup_insert_eq. done.
    + intros l' Hne _. by rewrite Hm2, lookup_insert_ne.
  - assert (Hhd : ∃ r0, db_head (b_db s) = Some r0) by (destruct Hc1 as (->&_); eauto).
    destruct Hhd as [r0 Hhd]. rewrite Hhd. db_steps.
    destruct (last (r :: ms)) as [rt|] eqn:El; [|by apply last_None in El].
    simpl in Htl1. rewrite Htl1.
    pose proof (last_loc _ _ El) as Hrt.
    destruct (mchain_loc _ _ _ _ Hc1 Hrt) as [m Hm].
    assert (Hne : l ≠ r_loc rt) by (intros ->; done).
    assert (Hm2' : msgs (b_heap s2) !! r_loc rt = Some m)
      by (by rewrite Hm2, lookup_insert_ne).
    eapply wp_load_msg; [done|]. db_steps. apply wp_store_msg_eq.
    { destruct (Hwf1 (r_loc rt)); [eauto|]. split; simpl; [by rewrite Hc2|done]. }
    intros s3 Hd3 Hp3 Hb3 Hc3 Hm3. simpl in Hd3, Hp3, Hb3, Hc3, Hm3. db_steps.
    rewrite Hd3, Hp3.
    eapply (push_finish s s1 (r :: ms) fl l fl' b bs (b_heap s3)); try done; simpl.
    + rewrite <- Hhd in *.
      apply (mchain_snoc (b_heap s2) _ _ (r :: ms) (MRef l b bs) rt m); try done.
      * eapply mchain_ext; [|done]. intros r' Hr'. rewrite Hb2, Hm2.
        rewrite lookup_insert_ne; [done|]. intros ->. apply Hll.
        by apply list_elem_of_fmap_2.
      * apply NoDup_cons in Hnd as [_ Hnd]. by apply NoDup_app in Hnd as (_&_&?).
      * simpl. by rewrite Hm2, lookup_insert_eq.
      * simpl. by rewrite Hb2, Hbl1.
    + congruence.
    + congruence.
    + intros l' Hl1 Hl2. rewrite Hm3, Hm2, !lookup_insert_ne; [done|by intros <-|].
      intros <-. by apply Hl2.
Qed.

(** ** The header *)

Lemma lor_shiftl_add a b k : (0 ≤ k)%Z → (0 ≤ b < 2 ^ k)%Z →
  Z.lor (Z.shiftl a k) b = (a * 2 ^ k + b)%Z.
Proof.
  intros Hk Hb. assert (Hl : Z.land (Z.shiftl a k) b = 0%Z).
  { apply Z.bits_inj'. intros n Hn. rewrite Z.land_spec, Z.bits_0.
    destruct (Z.lt_ge_cases n k) as [|Hge].
    - rewrite Z.shiftl_spec_low by lia. done.
    - replace (Z.testbit b n) with false; [apply andb_false_r|].
      symmetry. destruct (Z.eq_dec b 0) as [->|]; [apply Z.bits_0|].
      apply Z.bits_above_log2; [lia|]. apply Z.log2_lt_pow2; [lia|].
      eapply Z.lt_le_trans; [apply Hb|]. apply Z.pow_le_mono_r; lia. }
  rewrite <- Z.lxor_lor by done. rewrite <- Z.add_nocarry_lxor by done.
  by rewrite Z.shiftl_mul_pow2.
Qed.

(** The big-endian value of some bytes, and the bytes of a value. *)
Definition be_value (bs : list byte) : Z := foldl (λ acc b, acc * 256 + byteZ b)%Z 0%Z bs.
Fixpoint be_bytes (n : nat) (z : Z) : list byte :=
  match n with
  | O => []
  | S n' => be_bytes n' (z `div` 256) ++ [Zbyte z]
  end.

Lemma be_bytes_length n z : length (be_bytes n z) = n.
Proof.
  revert z. induction n as [|n IH]; intros z; simpl; [done|].
  rewrite length_app, IH. simpl. lia.
Qed.

Lemma be_value_bytes n : ∀ z, (0 ≤ z < 256 ^ Z.of_nat n)%Z → be_value (be_bytes n z) = z.
Proof.
  induction n as [|n IH]; intros z Hz.
  - change (256 ^ Z.of_nat 0)%Z with 1%Z in Hz. unfold be_value. simpl. lia.
  - rewrite Nat2Z.inj_succ, Z.pow_succ_r in Hz by lia.
    cbn [be_bytes]. unfold be_value. rewrite foldl_app. cbn [foldl].
    fold (be_value (be_bytes n (z `div` 256))).
    rewrite IH by (split; [apply Z.div_pos; lia|apply Z.div_lt_upper_bound; lia]).
    rewrite byteZ_Zbyte. pose proof (Z.div_mod z 256 ltac:(lia)). lia.
Qed.

(** The code's shifts and ors compute the big-endian value, as an [int]. *)
Lemma parse_header_value hs plen : (hs = 2 ∨ hs = 4)%Z →
  Z.of_nat (length plen) = hs → parse_header hs plen = Ok (s32 (be_value plen)).
Proof.
  intros Hhs Hl. unfold parse_header, be_value.
  destruct plen as [|c0 [|c1 [|c2 [|c3 [|]]]]]; simpl in Hl; try lia.
  - pose proof (byteZ_range c0). pose proof (byteZ_range c1).
    subst hs. cbn [Z.eqb Pos.eqb plen_get lookup list_lookup mbind res_bind foldl].
    rewrite lor_shiftl_add by lia. rewrite s32_id by (unfold int_min, int_max; lia).
    f_equal; lia.
  - pose proof (byteZ_range c0). pose proof (byteZ_range c1).
    pose proof (byteZ_range c2). pose proof (byteZ_range c3).
    subst hs. cbn [Z.eqb Pos.eqb plen_get lookup list_lookup mbind res_bind foldl].
    rewrite <- !Z.lor_assoc.
    rewrite (lor_shiftl_add (byteZ c2) (byteZ c3) 8) by lia.
    change (2 ^ 8)%Z with 256%Z.
    rewrite (lor_shiftl_add (byteZ c1) _ 16) by (change (2 ^ 16)%Z with 65536%Z; lia).
    change (2 ^ 16)%Z with 65536%Z.
    rewrite (lor_shiftl_add (byteZ c0) _ 24) by (change (2 ^ 24)%Z with 16777216%Z; lia).
    change (2 ^ 24)%Z with 16777216%Z. f_equal. f_equal. lia.
Qed.

(** The abstract buffer: the pending header and the unread bytes. *)
Definition abuf : Type := Z * list byte.
Definition abs_buf (d : databuffer) (ms : list mref) : abuf := (header d, stream d ms).

(** [databuffer_readheader] on the abstract buffer. *)
Definition spec_readheader (hs : Z) (a : abuf) : Z * abuf :=
  let wait (a : abuf) := if (Z.of_nat (length a.2) <? a.1)%Z then (-1, a)%Z else (a.1, a) in
  if (a.1 =? 0)%Z then
    if (Z.of_nat (length a.2) <? hs)%Z then (-1, a)%Z
    else wait (s32 (be_value (take (Z.to_nat hs) a.2)), drop (Z.to_nat hs) a.2)
  else wait a.

(** An operation that leaves the buffer [a'] behind, and its frame. *)
Definition buf_post (s : bst) (ms : list mref) (fl : list mloc) (a' : abuf) (s' : bst) : Prop :=
  ∃ ms' fl', db_inv s' ms' fl' ∧ abs_buf (b_db s') ms' = a' ∧
    frame (b_heap s) (b_heap s') (fl ++ locs ms) (bufs ms) (fl' ++ locs ms') (bufs ms').

Lemma db_inv_header s ms fl hd : db_inv s ms fl →
  db_inv (Bst (b_heap s) (set_header hd (b_db s)) (b_mp s)) ms fl.
Proof. intros [Hq Hs]. split; [by apply q_inv_db|done]. Qed.

Lemma readheader_wp hs s ms fl : (hs = 2 ∨ hs = 4)%Z → db_inv s ms fl →
  wp (databuffer_readheader hs) (λ r s', ∃ a',
    spec_readheader hs (abs_buf (b_db s) ms) = (r, a') ∧ buf_post s ms fl a' s') s.
Proof.
  intros Hhs Hinv. pose proof Hinv as [_ [_ [Hsz _]]].
  assert (Hself : buf_post s ms fl (abs_buf (b_db s) ms) s).
  { exists ms, fl. split_and!; [done..|]. apply frame_refl. }
  unfold databuffer_readheader, read_plen, spec_readheader. simpl. db_step. db_step. db_step.
  rewrite Hsz. destruct (Z.eqb_spec (header (b_db s)) 0) as [E|E].
  - destruct (Z.ltb_spec (Z.of_nat (length (stream (b_db s) ms))) hs).
    { db_steps. eauto. }
    rewrite (proj2 (Z.ltb_ge 4 hs)) by lia. db_step.
    eapply wp_mono; [apply (read_wp s ms fl); [done|lia]|].
    intros bs s' (ms'&fl'&->&Hinv'&Hst&Hh&Hfr). db_step.
    rewrite parse_header_value by (try done; rewrite length_take; lia).
    db_step. simpl. db_steps. rewrite <- Hst.
    pose proof (db_inv_header _ _ _ (s32 (be_value (take (Z.to_nat hs) (stream (b_db s) ms)))) Hinv')
      as Hinv2.
    pose proof Hinv' as [_ [_ [-> _]]].
    destruct (_ <? _)%Z; db_step; eexists; (split; [done|]); exists ms', fl'; done.
  - db_steps. rewrite Hsz. destruct (_ <? _)%Z; db_steps; eauto.
Qed.

(** ** Clearing *)

Lemma clear_loop_wp : ∀ ms fuel s fl, q_inv s ms fl → length ms ≤ fuel →
  wp (clear_loop fuel) (λ _ s', ∃ fl', q_inv s' [] fl' ∧
    frame (b_heap s) (b_heap s') (fl ++ locs ms) (bufs ms) (fl' ++ []) []) s.
Proof.
  induction ms as [|r ms IH]; intros fuel s fl Hq Hf.
  - pose proof (q_chain _ _ _ Hq) as Hc. simpl in Hc.
    destruct fuel; unfold clear_loop; fold clear_loop; db_steps; rewrite Hc; db_steps;
      exists fl; (split; [done|apply frame_refl]).
  - destruct fuel as [|fuel]; simpl in Hf; [lia|].
    pose proof (q_chain _ _ _ Hq) as (Hhd&_).
    unfold clear_loop; fold clear_loop; db_steps. rewrite Hhd. db_steps.
    eapply return_message_wp; [done|]. intros s' Hq' _ _ _ Hfr. db_steps.
    eapply wp_mono; [by apply IH; [|lia]|]. intros _ s2 (fl'&Hq2&Hfr2).
    exists fl'. split; [done|]. by eapply frame_trans.
Qed.

Lemma sized_empty : sized empty_db [].
Proof.
  unfold sized, off_ok. rewrite stream_nil. simpl. unfold int_max.
  split_and!; try lia. constructor.
Qed.

Lemma clear_wp s ms fl : q_inv s ms fl →
  wp databuffer_clear (λ _ s', ∃ fl', db_inv s' [] fl' ∧ b_db s' = empty_db ∧
    frame (b_heap s) (b_heap s') (fl ++ locs ms) (bufs ms) (fl' ++ []) []) s.
Proof.
  intros Hq. unfold databuffer_clear. db_steps.
  eapply wp_mono; [eapply clear_loop_wp; [done|by eapply queue_fuel_ok]|].
  intros _ s' (fl'&Hq'&Hfr). db_steps. exists fl'. split_and!; try done.
  split; [|apply sized_empty]. destruct Hq' as [? Hc ?????]. by constructor.
Qed.

(** ** Freeing the pool *)

Lemma pool_free_loop_ok : ∀ cs fuel p h, pchain (chunks h) p cs → NoDup cs →
  length cs ≤ fuel → ∃ h', pool_free_loop fuel p h = Ok h' ∧ blocks h' = blocks h ∧
    (∀ c, chunks h' !! c = if decide (c ∈ cs) then None else chunks h !! c) ∧
    (∀ l, msgs h' !! l = if decide (l.1 ∈ cs) then None else msgs h !! l).
Proof.
  induction cs as [|c cs IH]; intros fuel p h Hp Hnd Hf.
  { simpl in Hp. subst p. exists h. destruct fuel; done. }
  destruct fuel as [|fuel]; simpl in Hf; [lia|]. destruct Hp as (->&nx&Hc&Hp).
  apply NoDup_cons in Hnd as [Hn Hnd]. cbn [pool_free_loop]. rewrite Hc.
  destruct (IH fuel nx (free_chunk c h)) as (h'&->&Hb&Hch&Hm); [|done|lia|].
  { clear -Hn Hp. revert nx Hn Hp. induction cs as [|c' cs IH]; intros nx Hn Hp; [done|].
    destruct Hp as (->&nx'&Hc'&Hp). split; [done|]. exists nx'. simpl.
    rewrite lookup_delete_ne by set_solver. split; [done|]. apply IH; [set_solver|done]. }
  exists h'. split_and!; [done..| |].
  - intros c'. rewrite Hch. simpl. destruct (decide (c' = c)) as [->|].
    + rewrite lookup_delete_eq. repeat case_decide; set_solver.
    + rewrite lookup_delete_ne by done. repeat case_decide; set_solver.
  - intros l. rewrite Hm. simpl. destruct (decide (l.1 = c)) as [E|].
    + rewrite (decide_True (P := l.1 ∈ c :: cs)) by set_solver.
      case_decide; [done|]. apply map_lookup_filter_None. right. intros ?? []. done.
    + rewrite map_lookup_filter. destruct (msgs h !! l); simpl;
        repeat case_decide; repeat case_guard; set_solver.
Qed.

Lemma messagepool_free_ok h mp : heap_wf h → pool_ok h (pool mp) →
  messagepool_free mp h = Ok (MessagePool None None, Heap (blocks h) ∅ ∅).
Proof.
  intros Hwf (cs&Hp&Hnd&Hin). unfold messagepool_free.
  assert (Hlen : length cs ≤ size (chunks h)).
  { rewrite <- size_dom, <- (size_list_to_set (C := gset loc)) by done.
    apply subseteq_size. intros c Hc%elem_of_list_to_set. apply elem_of_dom. by apply Hin. }
  destruct (pool_free_loop_ok cs _ _ h Hp Hnd Hlen) as (h'&->&Hb&Hc&Hm).
  cbn [mbind res_bind]. do 3 f_equal. destruct h' as [b c m]. simpl in *. f_equal; [done|..].
  - apply map_eq. intros k. rewrite Hc, lookup_empty. case_decide as Hk; [done|].
    rewrite Hin in Hk. by apply eq_None_not_Some.
  - apply map_eq. intros l. rewrite Hm, lookup_empty. case_decide as Hk; [done|].
    rewrite Hin in Hk. apply eq_None_not_Some. intros Hl. apply Hk. by destruct (Hwf l Hl).
Qed.
