(* ===== verification/DataBufferSpec.v ===== *)
(** * DataBufferSpec: the receive buffer is a queue of bytes

    The reference is a pending header and a list of bytes.  Every sequence of
    operations on the linked messages, the free list and the pool gives the results
    the reference gives, and owns exactly the blocks still queued.  Then the runs
    outside the contract. *)
From S2P Require Import Prelude Bytes DataBuffer.
From stdpp Require Import gmap list.
From Stdlib Require Import ZArith Strings.Byte.

(** ** Operations and results *)

Inductive db_op :=
  | DbPush (bs : list byte) | DbRead (n : Z) | DbHeader | DbReset | DbClear.
Inductive db_res := RUnit | RBytes (bs : list byte) | RInt (z : Z).

#[global] Instance db_res_eq_dec : EqDecision db_res.
Proof. solve_decision. Defined.

(** [None]: outside the contract (too many bytes, or a read of more than there is). *)
Definition spec_db (hs : Z) (op : db_op) (a : abuf) : option (db_res * abuf) :=
  match op with
  | DbPush bs =>
    if decide (Z.of_nat (length a.2 + length bs) ≤ int_max)%Z
    then Some (RUnit, (a.1, a.2 ++ bs)) else None
  | DbRead n =>
    if decide (0 < n ≤ Z.of_nat (length a.2))%Z
    then Some (RBytes (take (Z.to_nat n) a.2), (a.1, drop (Z.to_nat n) a.2)) else None
  | DbHeader => let '(r, a') := spec_readheader hs a in Some (RInt r, a')
  | DbReset => Some (RUnit, (0%Z, a.2))
  | DbClear => Some (RUnit, (0%Z, []))
  end.

(** The caller allocates the block it pushes. *)
Definition malloc (bs : list byte) : M bst loc := λ s,
  let b := fresh_loc (blocks (b_heap s)) in
  Ok (b, Bst (set_blocks (<[b := bs]> (blocks (b_heap s))) (b_heap s)) (b_db s) (b_mp s)).

Definition run_db (hs : Z) (op : db_op) : M bst db_res :=
  match op with
  | DbPush bs => b ← malloc bs; databuffer_push (Some b) (Z.of_nat (length bs));; mret RUnit
  | DbRead n => bs ← databuffer_read n; mret (RBytes bs)
  | DbHeader => r ← databuffer_readheader hs; mret (RInt r)
  | DbReset => databuffer_reset;; mret RUnit
  | DbClear => databuffer_clear;; mret RUnit
  end.

Fixpoint spec_dbs (hs : Z) (ops : list db_op) (a : abuf) : option (list db_res * abuf) :=
  match ops with
  | [] => Some ([], a)
  | op :: ops' => r ← spec_db hs op a; rs ← spec_dbs hs ops' r.2; Some (r.1 :: rs.1, rs.2)
  end.

Fixpoint run_dbs (hs : Z) (ops : list db_op) : M bst (list db_res) :=
  match ops with
  | [] => mret []
  | op :: ops' => r ← run_db hs op; rs ← run_dbs hs ops'; mret (r :: rs)
  end.

Definition empty_bst : bst := Bst (Heap ∅ ∅ ∅) empty_db (MessagePool None None).

(** ** Ownership *)

(** The blocks of the heap are those of the queue. *)
Definition owns (s : bst) (ms : list mref) : Prop :=
  ∀ b, is_Some (blocks (b_heap s) !! b) ↔ b ∈ bufs ms.

Definition db_ok (s : bst) (a : abuf) : Prop :=
  ∃ ms fl, db_inv s ms fl ∧ owns s ms ∧ abs_buf (b_db s) ms = a.

Lemma owns_frame s s' ms ms' ls ls' :
  frame (b_heap s) (b_heap s') ls (bufs ms) ls' (bufs ms') → owns s ms → owns s' ms'.
Proof.
  intros Hf Ho b. destruct (decide (b ∈ bufs ms)) as [Hb|Hb].
  - destruct (decide (b ∈ bufs ms')) as [Hb'|Hb'].
    + rewrite (fr_kept _ _ _ _ _ _ Hf) by done. rewrite (Ho b). tauto.
    + rewrite (fr_freed _ _ _ _ _ _ Hf) by done. split; [by intros []|done].
  - rewrite (fr_blocks _ _ _ _ _ _ Hf), (Ho b) by done.
    split; [done|]. intros Hb'. by apply (fr_bufs _ _ _ _ _ _ Hf) in Hb'.
Qed.

Lemma buf_post_ok s ms fl a s' : owns s ms → buf_post s ms fl a s' → db_ok s' a.
Proof.
  intros Ho (ms'&fl'&Hi&Ha&Hf). exists ms', fl'. split_and!; [done| |done]. by eapply owns_frame.
Qed.

Lemma db_inv_malloc s ms fl bs : db_inv s ms fl → owns s ms →
  let b := fresh_loc (blocks (b_heap s)) in
  db_inv (Bst (set_blocks (<[b := bs]> (blocks (b_heap s))) (b_heap s)) (b_db s) (b_mp s)) ms fl ∧
  b ∉ bufs ms.
Proof.
  intros [[A1 A2 A3 A4 A5 A6 A7] Hs] Ho b.
  assert (Hb : b ∉ bufs ms).
  { intros Hin. apply Ho in Hin as [x Hx]. unfold b in Hx. by rewrite lookup_fresh in Hx. }
  split; [|done]. split; [|done]. constructor; simpl; try done.
  - eapply mchain_ext; [|done]. intros r Hr. split; [done|]. simpl.
    apply lookup_insert_ne. intros E. apply Hb. rewrite E. by apply list_elem_of_fmap_2.
  - by eapply fchain_ext; [|done].
Qed.

(** ** Every operation *)

Lemma run_db_wp hs op s a r a' : (hs = 2 ∨ hs = 4)%Z → db_ok s a →
  spec_db hs op a = Some (r, a') → wp (run_db hs op) (λ r' s', r' = r ∧ db_ok s' a') s.
Proof.
  intros Hhs (ms&fl&Hi&Ho&<-). pose proof Hi as [_ [_ [Hsz Hmax]]].
  destruct op as [bs|n| | |]; cbn [spec_db run_db abs_buf fst snd].
  - case_decide as Hfit; [|done]. intros [= <- <-].
    destruct (db_inv_malloc s ms fl bs Hi Ho) as [Hi1 Hb]. db_step. eapply wp_intro; [done|].
    db_step. eapply wp_mono.
    { eapply push_wp; [exact Hi1|simpl; apply lookup_insert_eq|exact Hb|simpl; lia]. }
    intros _ s' (l&fl'&Hi'&Hst&Hh&Hf). db_step. split; [done|]. eexists _, fl'.
    split_and!; [done| |unfold abs_buf; by rewrite Hst, Hh].
    intros b. rewrite fmap_app, elem_of_app. simpl. rewrite list_elem_of_singleton.
    set (b0 := fresh_loc _) in *. destruct (decide (b = b0)) as [->|Hne].
    + rewrite (fr_kept _ _ _ _ _ _ Hf) by (rewrite fmap_app; set_solver). simpl.
      rewrite lookup_insert_eq. split; [by right|eauto].
    + destruct (decide (b ∈ bufs ms)) as [Hin|Hin].
      * rewrite (fr_kept _ _ _ _ _ _ Hf) by (rewrite fmap_app; set_solver). simpl.
        rewrite lookup_insert_ne by done. rewrite (Ho b). tauto.
      * rewrite (fr_blocks _ _ _ _ _ _ Hf) by set_solver. simpl.
        rewrite lookup_insert_ne by done. rewrite (Ho b). tauto.
  - case_decide as Hn; [|done]. intros [= <- <-]. db_step.
    eapply wp_mono; [apply (read_wp s ms fl); [done|lia]|].
    intros bs s' (ms'&fl'&->&Hi'&Hst&Hh&Hf). db_step. split; [done|]. exists ms', fl'.
    split_and!; [done|by eapply owns_frame|unfold abs_buf; by rewrite Hst, Hh].
  - destruct (spec_readheader hs (abs_buf (b_db s) ms)) as [r0 a0] eqn:E. intros [= <- <-].
    db_step. eapply wp_mono; [by apply readheader_wp|]. intros r1 s' (a1&E1&Hp). db_step.
    rewrite E in E1. simplify_eq. split; [done|]. by eapply buf_post_ok.
  - intros [= <- <-]. unfold databuffer_reset. db_steps. split; [done|]. exists ms, fl.
    split_and!; [by apply db_inv_header|done|done].
  - intros [= <- <-]. db_step. eapply wp_mono; [apply clear_wp, Hi|].
    intros _ s' (fl'&Hi'&Hd&Hf). db_step. split; [done|]. exists [], fl'.
    split_and!; [done|by eapply owns_frame|]. unfold abs_buf. by rewrite Hd, stream_nil.
Qed.

Lemma run_dbs_wp hs ops : (hs = 2 ∨ hs = 4)%Z → ∀ s a rs a', db_ok s a →
  spec_dbs hs ops a = Some (rs, a') → wp (run_dbs hs ops) (λ rs' s', rs' = rs ∧ db_ok s' a') s.
Proof.
  intros Hhs. induction ops as [|op ops IH]; intros s a rs a' H E; simpl in *.
  { simplify_eq. by apply wp_ret. }
  destruct (spec_db hs op a) as [[r a1]|] eqn:E1; [|done]. simpl in E.
  destruct (spec_dbs hs ops a1) as [[rs1 a2]|] eqn:E2; [|done]. simplify_eq/=.
  db_step. eapply wp_mono; [by eapply run_db_wp|]. intros r' s1 [-> H1].
  db_step. eapply wp_mono; [by eapply IH|]. intros rs' s2 [-> H2]. by db_step.
Qed.

Lemma empty_bst_ok : db_ok empty_bst (0%Z, []).
Proof.
  exists [], []. split_and!.
  - split; [|apply sized_empty]. constructor; simpl; try done.
    + intros l [m Hm]. simpl in Hm. by rewrite lookup_empty in Hm.
    + constructor.
    + constructor.
    + exists []. split_and!; [done|constructor|]. intros c. simpl. rewrite lookup_empty.
      split; [by intros ?%elem_of_nil|by intros []].
  - intros b. simpl. rewrite lookup_empty. split; [by intros []|by intros ?%elem_of_nil].
  - done.
Qed.

(** ** Theorems *)

(** C5: From an empty buffer and pool on, every sequence of pushes, reads, header
    reads, resets and clears within the contract returns what a plain queue of
    bytes returns, without a fault; the buffer then owns exactly the blocks that
    hold unread bytes, whose pool and free list are well formed. *)
Theorem databuffer_queue hs ops rs a : (hs = 2 ∨ hs = 4)%Z →
  spec_dbs hs ops (0%Z, []) = Some (rs, a) →
  ∃ s ms fl, run_dbs hs ops empty_bst = Ok (rs, s) ∧ db_inv s ms fl ∧
    abs_buf (b_db s) ms = a ∧ (∀ b, is_Some (blocks (b_heap s) !! b) ↔ b ∈ bufs ms).
Proof.
  intros Hhs E. destruct (wp_elim _ _ _ (run_dbs_wp hs ops Hhs _ _ _ _ empty_bst_ok E))
    as (rs'&s&Er&->&(ms&fl&Hi&Ho&Ha)). by exists s, ms, fl.
Qed.

(** A read of more bytes than the buffer holds stops at its assertion, before it
    touches anything. *)
Lemma databuffer_read_assert s n : (db_size (b_db s) < n)%Z →
  databuffer_read n s = Fault FAssert.
Proof.
  intros Hn. unfold databuffer_read, mbind, M_bind, gets, c_assert.
  by rewrite bool_decide_eq_false_2 by lia.
Qed.

(** A push that takes the number of unread bytes over [INT_MAX] overflows
    [db->size]. *)
Lemma databuffer_push_overflow s ms fl b sz : db_inv s ms fl → (0 ≤ sz ≤ int_max)%Z →
  (int_max < db_size (b_db s) + sz)%Z → databuffer_push b sz s = Fault FOverflow.
Proof.
  intros Hi Hsz Hover. destruct (wp_elim _ _ _ (take_message_wp s ms fl (proj1 Hi)))
    as (m&s1&E1&(l&fl'&->&_&_&Hal&Hd1&_)).
  unfold databuffer_push. unfold mbind at 1, M_bind at 1. rewrite E1.
  destruct (wp_elim (store_msg (Some l) (Message b sz None)) (λ _ s2, b_db s2 = b_db s1) s1)
    as ([]&s2&E2&Hd2).
  { apply wp_store_msg_eq; [done|]. by intros s' Hd _ _ _ _. }
  unfold mbind at 1, M_bind at 1. rewrite E2. unfold mbind, M_bind, gets, lift.
  rewrite int_res_fault; [done|]. rewrite Hd2, Hd1. unfold int_max in *. lia.
Qed.

(** The header the shifts compute is the big-endian value of its two or four
    bytes, as an [int]: non-negative below 2^31 and negative above. *)
Lemma header_value hs plen : (hs = 2 ∨ hs = 4)%Z → Z.of_nat (length plen) = hs →
  ∃ v, parse_header hs plen = Ok v ∧ (int_min ≤ v ≤ int_max)%Z ∧
    (v < 0 ↔ 2147483648 ≤ be_value plen)%Z ∧ (0 ≤ v → v = be_value plen)%Z.
Proof.
  intros Hhs Hl. exists (s32 (be_value plen)). split; [by apply parse_header_value|].
  split; [apply s32_range|].
  assert (Hr : (0 ≤ be_value plen < 4294967296)%Z).
  { unfold be_value. destruct plen as [|c0 [|c1 [|c2 [|c3 [|]]]]]; simpl in Hl; try lia;
      pose proof (byteZ_range c0); pose proof (byteZ_range c1); cbn [foldl]; [lia|].
    pose proof (byteZ_range c2). pose proof (byteZ_range c3). lia. }
  unfold s32. destruct (Z.lt_ge_cases (be_value plen) 2147483648).
  - rewrite Z.mod_small by lia. lia.
  - replace ((be_value plen + 2147483648) `mod` 4294967296)%Z
      with (be_value plen - 2147483648)%Z; [lia|]. apply Z.mod_unique with 1%Z; lia.
Qed.

(** [messagepool_free] walks the list of chunks to its end and frees every
    chunk and every message, and no byte block. *)
Lemma messagepool_free_all s ms fl : db_inv s ms fl →
  messagepool_free (b_mp s) (b_heap s) =
    Ok (MessagePool None None, Heap (blocks (b_heap s)) ∅ ∅).
Proof. intros [[Hwf _ _ _ _ _ Hp] _]. by apply messagepool_free_ok. Qed.

(** ** Witnesses *)

Lemma databuffer_queue_witness :
  ∃ s ms fl, run_dbs 4 [DbPush [x00; x00]; DbHeader; DbPush [x00; x02; x61; x62; x63];
      DbHeader; DbRead 2; DbReset; DbHeader; DbClear] empty_bst =
    Ok ([RUnit; RInt (-1); RUnit; RInt 2; RBytes [x61; x62]; RUnit; RInt (-1); RUnit], s) ∧
    db_inv s ms fl ∧ abs_buf (b_db s) ms = (0%Z, []) ∧
    (∀ b, is_Some (blocks (b_heap s) !! b) ↔ b ∈ bufs ms).
Proof. apply (databuffer_queue 4); [by right|reflexivity]. Defined.

(** A buffer with one unread byte. *)
Lemma one_byte : ∃ s ms fl, db_inv s ms fl ∧ db_size (b_db s) = 1%Z.
Proof.
  destruct (wp_elim _ _ _ (run_dbs_wp 4 [DbPush [x61]] (or_intror eq_refl) _ _ [RUnit]
    (0%Z, [x61]) empty_bst_ok eq_refl)) as (_&s&_&_&(ms&fl&Hi&_&Ha)).
  exists s, ms, fl. split; [done|]. destruct Hi as [_ [_ [-> _]]].
  apply (f_equal snd) in Ha. simpl in Ha. by rewrite Ha.
Qed.

Lemma databuffer_push_overflow_witness : ∃ s, databuffer_push None int_max s = Fault FOverflow.
Proof.
  destruct one_byte as (s&ms&fl&Hi&Hs). exists s.
  apply (databuffer_push_overflow s ms fl None int_max Hi); [unfold int_max; lia|].
  rewrite Hs. reflexivity.
Defined.

Lemma header_value_witness : ∃ v, parse_header 4 [x80; x00; x00; x01] = Ok v ∧
  (int_min ≤ v ≤ int_max)%Z ∧ (v < 0 ↔ 2147483648 ≤ be_value [x80; x00; x00; x01])%Z ∧
  (0 ≤ v → v = be_value [x80; x00; x00; x01])%Z.
Proof. apply (header_value 4); [by right|reflexivity]. Defined.

Lemma messagepool_free_all_witness :
  messagepool_free (b_mp empty_bst) (b_heap empty_bst) =
    Ok (MessagePool None None, Heap ∅ ∅ ∅).
Proof. destruct empty_bst_ok as (ms&fl&Hi&_). apply (messagepool_free_all empty_bst ms fl Hi). Defined.
