(* ===== verification/CString.v ===== *)
(** * CString: the functions of the C library on strings that the gate calls

    A [char] array is a list of bytes; a pointer into it is an offset.  A read
    past the end of the array is the fault [FBounds]. *)
From S2P Require Import Prelude Bytes.
From stdpp Require Import list sets strings.
From Stdlib Require Import ZArith Strings.Byte.

Definition SPACE : byte := x20.
Definition NUL : byte := x00.

(** ** Strings in arrays *)

(** The bytes before the first NUL; [None] when there is none. *)
Fixpoint until_nul (l : list byte) : option (list byte) :=
  match l with
  | [] => None
  | b :: l' => if decide (b = NUL) then Some [] else cons b <$> until_nul l'
  end.

(** The C string at [buf + off]. *)
Definition cstr (buf : list byte) (off : nat) : res (list byte) :=
  match until_nul (drop off buf) with Some s => Ok s | None => Fault FBounds end.

(** The offset of the first [c] in a string ([strchr], [strsep]). *)
Fixpoint index_of (c : byte) (s : list byte) : option nat :=
  match s with
  | [] => None
  | b :: s' => if decide (b = c) then Some 0 else S <$> index_of c s'
  end.

(** [memcmp(a, b, n) == 0]; the comparison stops at the first difference. *)
Fixpoint memcmp_eq (a b : list byte) (n : nat) : res bool :=
  match n with
  | O => Ok true
  | S n' =>
    match a, b with
    | x :: a', y :: b' => if decide (x = y) then memcmp_eq a' b' n' else Ok false
    | _, _ => Fault FBounds
    end
  end.

(** [strsep(&p, " ")] with [p] at [buf + pos]: the array after the delimiter was
    overwritten, and the new [p]. *)
Definition strsep (buf : list byte) (pos : nat) : res (list byte * option nat) :=
  s ← cstr buf pos;
  match index_of SPACE s with
  | None => Ok (buf, None)
  | Some k => Ok (<[pos + k := NUL]> buf, Some (pos + k + 1))
  end.

(** ** Numbers *)

Definition is_space (b : byte) : bool :=
  bool_decide (b = SPACE) || ((9 <=? byteZ b) && (byteZ b <=? 13))%Z.

Definition digit_val (b : byte) : option Z :=
  let z := byteZ b in
  if ((48 <=? z) && (z <=? 57))%Z then Some (z - 48)%Z
  else if ((65 <=? z) && (z <=? 90))%Z then Some (z - 55)%Z
  else if ((97 <=? z) && (z <=? 122))%Z then Some (z - 87)%Z
  else None.

(** The value of [b] as a digit of a base. *)
Definition digit_in (base : Z) (b : byte) : option Z :=
  match digit_val b with
  | Some d => if (d <? base)%Z then Some d else None
  | None => None
  end.

Fixpoint parse_digits (base : Z) (acc : Z) (s : list byte) : Z :=
  match s with
  | [] => acc
  | b :: s' =>
    match digit_in base b with
    | Some d => parse_digits base (acc * base + d) s'
    | None => acc
    end
  end.

Fixpoint skip_spaces (s : list byte) : list byte :=
  match s with
  | [] => []
  | b :: s' => if is_space b then skip_spaces s' else s
  end.

Definition parse_sign (s : list byte) : bool * list byte :=
  match s with
  | b :: s' =>
    if decide (b = x2d) then (true, s')
    else if decide (b = x2b) then (false, s') else (false, s)
  | [] => (false, [])
  end.

Definition long_min : Z := -9223372036854775808.
Definition long_max : Z := 9223372036854775807.
Definition ulong_max : Z := 18446744073709551615.

(** [strtol(s, NULL, 10)] *)
Definition strtol10 (s : list byte) : Z :=
  let '(neg, s) := parse_sign (skip_spaces s) in
  let v := parse_digits 10 0 s in
  Z.max long_min (Z.min long_max (if neg then - v else v)).

(** The optional 0x of base 16. *)
Definition strip_0x (s : list byte) : list byte :=
  match s with
  | z :: x :: d :: s' =>
    if bool_decide (z = x30) && (bool_decide (x = x78) || bool_decide (x = x58)) &&
       bool_decide (is_Some (digit_in 16 d))
    then d :: s' else s
  | _ => s
  end.

(** [strtoul(s, NULL, 16)] and [strtoul(s, NULL, 10)] *)
Definition strtoul16 (s : list byte) : Z :=
  let '(neg, s) := parse_sign (skip_spaces s) in
  let v := parse_digits 16 0 (strip_0x s) in
  if (ulong_max <? v)%Z then ulong_max else if neg then u64 (- v) else v.

Definition strtoul10 (s : list byte) : Z :=
  let '(neg, s) := parse_sign (skip_spaces s) in
  let v := parse_digits 10 0 s in
  if (ulong_max <? v)%Z then ulong_max else if neg then u64 (- v) else v.

(** A [long] stored in an [int]; [atoi]. *)
Definition strtol_int (s : list byte) : Z := s32 (strtol10 s).
Definition atoi (s : list byte) : Z := strtol_int s.

(** ** Formatted output: [%u] and [%d] *)

Fixpoint dec_digits (fuel : nat) (n : Z) (acc : list byte) : list byte :=
  match fuel with
  | O => acc
  | S f =>
    let acc' := Zbyte (48 + n `mod` 10) :: acc in
    if (n <? 10)%Z then acc' else dec_digits f (n `div` 10) acc'
  end.

Definition fmt_u (n : Z) : list byte := dec_digits 20 n [].
Definition fmt_d (n : Z) : list byte :=
  if (n <? 0)%Z then x2d :: fmt_u (- n) else fmt_u n.

(** ** Formatted input: [sscanf(s, "%s %u", ...)] *)

Fixpoint take_word (s : list byte) : list byte * list byte :=
  match s with
  | [] => ([], [])
  | b :: s' =>
    if is_space b then ([], s)
    else let '(w, r) := take_word s' in (b :: w, r)
  end.

(** The values stored, if any: the word and the number. *)
Definition sscanf_su (s : list byte) : option (list byte) * option Z :=
  let '(w, r) := take_word (skip_spaces s) in
  match w with
  | [] => (None, None)
  | _ =>
    let r' := skip_spaces r in
    match (parse_sign r').2 with
    | d :: _ => if decide (is_Some (digit_in 10 d)) then (Some w, Some (u32 (strtoul10 r')))
                else (Some w, None)
    | [] => (Some w, None)
    end
  end.

(** ** Facts *)

Lemma until_nul_app s rest : NUL ∉ s → until_nul (s ++ NUL :: rest) = Some s.
Proof.
  induction s as [|b s IH]; intros Hn; simpl; [done|].
  rewrite decide_False by set_solver. rewrite IH by set_solver. done.
Qed.

Lemma until_nul_none l : NUL ∉ l → until_nul l = None.
Proof.
  induction l as [|b l IH]; [done|]. intros Hn. simpl. rewrite decide_False by set_solver.
  by rewrite IH by set_solver.
Qed.

Lemma until_nul_some l : NUL ∈ l → ∃ s, until_nul l = Some s ∧ length s < length l.
Proof.
  induction l as [|b l IH]; intros Hin; [set_solver|]. simpl. case_decide as Hb.
  { exists []. simpl. split; [done|lia]. }
  destruct IH as (s&->&?); [set_solver|]. exists (b :: s). simpl. split; [done|lia].
Qed.

Lemma dec_digits_length : ∀ fuel n acc, length (dec_digits fuel n acc) ≤ fuel + length acc.
Proof.
  induction fuel as [|fuel IH]; intros n acc; simpl; [lia|]. destruct (n <? 10)%Z; simpl; [lia|].
  etrans; [apply IH|]. simpl. lia.
Qed.

Lemma fmt_u_length n : length (fmt_u n) ≤ 20.
Proof. unfold fmt_u. etrans; [apply dec_digits_length|]. simpl. lia. Qed.

Lemma fmt_d_length n : length (fmt_d n) ≤ 21.
Proof.
  unfold fmt_d. destruct (n <? 0)%Z; simpl; [pose proof (fmt_u_length (- n))|pose proof (fmt_u_length n)];
    lia.
Qed.

(** Bytes that neither end a string nor separate words. *)
Definition plain (b : byte) : Prop := b ≠ NUL ∧ b ≠ SPACE.

#[global] Instance plain_dec b : Decision (plain b).
Proof. unfold plain. apply _. Defined.

Definition digit_byte (b : byte) : Prop := (48 <= byteZ b <= 57)%Z.

Lemma digit_byte_plain b : digit_byte b → plain b.
Proof. unfold digit_byte, plain. intros H.
  split; intros ->; [change (byteZ NUL) with 0%Z in H|change (byteZ SPACE) with 32%Z in H]; lia.
Qed.

Lemma digit_byte_space b : digit_byte b → is_space b = false.
Proof.
  intros H. unfold is_space. rewrite bool_decide_eq_false_2 by (by apply digit_byte_plain).
  unfold digit_byte in H. simpl. apply andb_false_intro2, Z.leb_gt. lia.
Qed.

Lemma digit_byte_in b : digit_byte b → digit_in 10 b = Some (byteZ b - 48)%Z.
Proof.
  unfold digit_byte. intros H. unfold digit_in, digit_val. simpl.
  rewrite (proj2 (Z.leb_le 48 _)), (proj2 (Z.leb_le _ 57)) by lia. simpl.
  by rewrite (proj2 (Z.ltb_lt _ 10)) by lia.
Qed.

Lemma mod10_digit n : (0 ≤ n)%Z → digit_byte (Zbyte (48 + n `mod` 10)) ∧
  digit_in 10 (Zbyte (48 + n `mod` 10)) = Some (n `mod` 10)%Z.
Proof.
  intros H. pose proof (Z.mod_pos_bound n 10 ltac:(lia)).
  assert (E : byteZ (Zbyte (48 + n `mod` 10)) = (48 + n `mod` 10)%Z)
    by (rewrite byteZ_Zbyte, Z.mod_small by lia; done).
  assert (Hd : digit_byte (Zbyte (48 + n `mod` 10))) by (unfold digit_byte; lia).
  split; [done|]. rewrite digit_byte_in by done. f_equal. lia.
Qed.

Lemma dec_digits_digits : ∀ fuel n acc, (0 ≤ n)%Z → Forall digit_byte acc →
  Forall digit_byte (dec_digits fuel n acc).
Proof.
  induction fuel as [|fuel IH]; intros n acc Hn Hacc; simpl; [done|].
  assert (Forall digit_byte (Zbyte (48 + n `mod` 10) :: acc))
    by (constructor; [by apply mod10_digit|done]).
  destruct (n <? 10)%Z; [done|]. apply IH; [|done]. apply Z.div_pos; lia.
Qed.

Lemma dec_digits_nonempty fuel n acc : dec_digits (S fuel) n acc ≠ [].
Proof.
  revert n acc. induction fuel as [|fuel IH]; intros n acc.
  - simpl. by destruct (n <? 10)%Z.
  - remember (S fuel) as f. simpl. by destruct (n <? 10)%Z.
Qed.

(** Reading back the digits that were printed. *)
Lemma parse_dec_digits : ∀ fuel n acc, (0 ≤ n < 10 ^ Z.of_nat fuel)%Z → ∃ k, ∀ a,
  parse_digits 10 a (dec_digits fuel n acc) = parse_digits 10 (a * 10 ^ k + n) acc.
Proof.
  induction fuel as [|fuel IH]; intros n acc Hn.
  { exists 0%Z. intros a. simpl in *. f_equal. lia. }
  simpl. destruct (mod10_digit n) as [_ Hd]; [lia|].
  pose proof (Z.div_mod n 10 ltac:(lia)). pose proof (Z.mod_pos_bound n 10 ltac:(lia)).
  destruct (Z.ltb_spec n 10) as [Hlt|Hge].
  - exists 1%Z. intros a. simpl. rewrite Hd. f_equal. rewrite Z.mod_small by lia. lia.
  - rewrite Nat2Z.inj_succ, Z.pow_succ_r in Hn by lia.
    destruct (IH (n `div` 10)%Z (Zbyte (48 + n `mod` 10) :: acc)) as [k Hk].
    { split; [apply Z.div_pos; lia|apply Z.div_lt_upper_bound; lia]. }
    destruct (Z.le_gt_cases 0 k).
    + exists (k + 1)%Z. intros a. rewrite Hk. simpl. rewrite Hd. f_equal.
      rewrite Z.pow_add_r by lia. lia.
    + exists k. intros a. rewrite Hk. simpl. rewrite Hd. f_equal.
      rewrite Z.pow_neg_r by lia. lia.
Qed.

Lemma fmt_u_parse n : (0 ≤ n < 10 ^ 20)%Z → parse_digits 10 0 (fmt_u n) = n.
Proof. intros H. destruct (parse_dec_digits 20 n [] H) as [k Hk]. unfold fmt_u. by rewrite Hk. Qed.

Lemma fmt_u_head n : (0 ≤ n)%Z → ∃ b l, fmt_u n = b :: l ∧ digit_byte b.
Proof.
  intros Hn. pose proof (dec_digits_digits 20 n [] Hn (Forall_nil_2 _)) as Hd. unfold fmt_u.
  pose proof (dec_digits_nonempty 19 n []). destruct (dec_digits 20 n []) as [|b l]; [done|].
  exists b, l. split; [done|]. by apply Forall_cons in Hd as [].
Qed.

Lemma fmt_d_plain z : Forall plain (fmt_d z).
Proof.
  assert (H : ∀ n, (0 ≤ n)%Z → Forall plain (fmt_u n)).
  { intros n Hn. eapply Forall_impl; [apply dec_digits_digits; [done|constructor]|].
    apply digit_byte_plain. }
  unfold fmt_d. destruct (Z.ltb_spec z 0); [|by apply H].
  constructor; [by split|]. apply H. lia.
Qed.

Lemma fmt_d_nonempty z : fmt_d z ≠ [].
Proof.
  unfold fmt_d. destruct (Z.ltb_spec z 0); [done|].
  destruct (fmt_u_head z) as (b&l&->&_); [lia|done].
Qed.

Lemma fmt_u_skip z : (0 ≤ z)%Z → skip_spaces (fmt_u z) = fmt_u z.
Proof.
  intros Hz. destruct (fmt_u_head z Hz) as (b&l&->&Hb). simpl. by rewrite (digit_byte_space _ Hb).
Qed.

Lemma fmt_u_sign z : (0 ≤ z)%Z → parse_sign (fmt_u z) = (false, fmt_u z).
Proof.
  intros Hz. destruct (fmt_u_head z Hz) as (b&l&->&Hb). simpl. unfold digit_byte in Hb.
  rewrite !decide_False; [done|..]; intros ->;
    [change (byteZ x2b) with 43%Z in Hb|change (byteZ x2d) with 45%Z in Hb]; lia.
Qed.

(** [strtoul] reads back the [unsigned] that [%u] printed. *)
Lemma strtoul_fmt_u z : (0 ≤ z < 4294967296)%Z → u32 (strtoul10 (fmt_u z)) = z.
Proof.
  intros Hz. unfold strtoul10. rewrite fmt_u_skip, fmt_u_sign by lia. cbv beta iota.
  rewrite fmt_u_parse by lia. unfold ulong_max.
  destruct (Z.ltb_spec 18446744073709551615 z); [lia|]. by apply u32_id.
Qed.

Lemma take_word_app w b s : Forall (λ b, is_space b = false) w → is_space b = true →
  take_word (w ++ b :: s) = (w, b :: s).
Proof.
  induction w as [|c w IH]; intros Hw Hb; simpl; [by rewrite Hb|].
  apply Forall_cons in Hw as [-> Hw]. by rewrite IH.
Qed.

Lemma take_word_all w : Forall (λ b, is_space b = false) w → take_word w = (w, []).
Proof.
  induction w as [|c w IH]; intros Hw; simpl; [done|].
  apply Forall_cons in Hw as [-> Hw]. by rewrite IH.
Qed.

(** [sscanf] reads back a word and a number that were printed with a space between. *)
Lemma sscanf_word_number w n : w ≠ [] → Forall (λ b, is_space b = false) w →
  (0 ≤ n < 4294967296)%Z → sscanf_su (w ++ [SPACE] ++ fmt_u n) = (Some w, Some n).
Proof.
  intros Hne Hw Hn. unfold sscanf_su. cbn [app].
  assert (skip_spaces (w ++ SPACE :: fmt_u n) = w ++ SPACE :: fmt_u n) as ->.
  { destruct w as [|c w]; [done|]. apply Forall_cons in Hw as [Hc _]. simpl. by rewrite Hc. }
  rewrite (take_word_app w SPACE (fmt_u n)) by done. destruct w as [|c w]; [done|].
  change (skip_spaces (SPACE :: fmt_u n)) with (skip_spaces (fmt_u n)).
  rewrite fmt_u_skip, fmt_u_sign by lia. destruct (fmt_u_head n) as (d&l&E&Hd); [lia|].
  rewrite <- (strtoul_fmt_u n) at 2 by done. rewrite E. cbn [snd].
  rewrite decide_True by (rewrite digit_byte_in by done; by eexists). done.
Qed.

(** [strtol] reads back the [int] that [%d] printed. *)
Lemma strtol_fmt_d z : (int_min ≤ z ≤ int_max)%Z → strtol_int (fmt_d z) = z.
Proof.
  unfold int_min, int_max. intros Hz. unfold strtol_int.
  enough (strtol10 (fmt_d z) = z) as -> by (apply s32_id; unfold int_min, int_max; lia).
  unfold strtol10, fmt_d. destruct (Z.ltb_spec z 0).
  - change (skip_spaces (x2d :: fmt_u (- z))) with (x2d :: fmt_u (- z)).
    change (parse_sign (x2d :: fmt_u (- z))) with (true, fmt_u (- z)).
    cbv beta iota. rewrite fmt_u_parse by lia. unfold long_min, long_max. lia.
  - rewrite fmt_u_skip, fmt_u_sign by lia.
    rewrite fmt_u_parse by lia. unfold long_min, long_max. lia.
Qed.

Lemma plain_not_nul s : Forall plain s → NUL ∉ s.
Proof. intros H Hin. rewrite Forall_forall in H. by destruct (H _ Hin). Qed.

Lemma cstr_app s rest : NUL ∉ s → cstr (s ++ NUL :: rest) 0 = Ok s.
Proof. intros H. unfold cstr. by rewrite drop_0, until_nul_app. Qed.

Lemma cstr_drop pre s rest n : n = length pre → NUL ∉ s →
  cstr (pre ++ s ++ NUL :: rest) n = Ok s.
Proof. intros -> H. unfold cstr. by rewrite drop_app_length, until_nul_app. Qed.

Lemma index_of_app c s rest : c ∉ s → index_of c (s ++ c :: rest) = Some (length s).
Proof.
  induction s as [|b s IH]; intros Hn; simpl; [by rewrite decide_True|].
  rewrite decide_False by set_solver. by rewrite IH by set_solver.
Qed.

Lemma index_of_None c s : c ∉ s → index_of c s = None.
Proof.
  induction s as [|b s IH]; intros Hn; simpl; [done|].
  rewrite decide_False by set_solver. by rewrite IH by set_solver.
Qed.

Lemma memcmp_eq_prefix k r1 r2 : memcmp_eq (k ++ r1) (k ++ r2) (length k) = Ok true.
Proof.
  induction k as [|b k IH]; simpl; [by destruct r1|]. by rewrite decide_True.
Qed.
