(* ===== verification/Double.v ===== *)
(** * Double: the type [double], its [%f] and [strtod] of the C library

    A [double] is a [spec_float] of 53 bits and the exponents of IEEE 754, rounded to the
    nearest and to the even one between two. *)
From stdpp Require Import list strings.
From Stdlib Require Import ZArith Strings.Byte SpecFloat.
From S2P Require Import Prelude Bytes CString.

Abbreviation str := (list byte).

(** ** Arithmetic *)

Abbreviation double := spec_float.
Definition dadd (x y : double) : double := SFadd 53 1024 x y.
Definition dsub (x y : double) : double := SFsub 53 1024 x y.
Definition dzero : double := S754_zero false.

(** [n] by [2 ^ k], rounded to the nearest integer and to the even one between two. *)
Definition round_shift (n k : Z) : Z :=
  if (0 <=? k)%Z then n * 2 ^ k
  else
    let d := (2 ^ (- k))%Z in
    let q := (n / d)%Z in
    let r := (n mod d)%Z in
    if (2 * r <? d)%Z || ((2 * r =? d)%Z && Z.even q) then q else q + 1.

(** The digits of [n], at least [least] of them; a double has no more than 309 before
    the point. *)
Definition digits (least : nat) (n : Z) : str :=
  let s := dec_digits 320 n [] in replicate (least - length s) x30 ++ s.

(** [%f] *)
Definition fmt_f (x : double) : str :=
  let sign (s : bool) := if s then [x2d] else [] in
  match x with
  | S754_zero s => sign s ++ bytes "0.000000"
  | S754_infinity s => sign s ++ bytes "inf"
  | S754_nan => bytes "nan"
  | S754_finite s m e =>
    let n := round_shift (Zpos m * 1000000) e in
    sign s ++ digits 1 (n / 1000000) ++ [x2e] ++ digits 6 (n mod 1000000)
  end.

(** The double of an integer. *)
Definition of_Z (z : Z) : double := binary_normalize 53 1024 z 0 false.

(** ** [strtod] *)

(** The double next to [p / q], for [0 < p] and [0 < q]: at least 64 bits of the quotient,
    and one that says whether there are more. *)
Definition of_ratio (p q : Z) : double :=
  let k := (64 - (Z.log2 p - Z.log2 q))%Z in
  let n := (p * 2 ^ Z.max 0 k)%Z in
  let d := (q * 2 ^ Z.max 0 (- k))%Z in
  let sticky := if (n mod d =? 0)%Z then 0%Z else 1%Z in
  binary_normalize 53 1024 (2 * (n / d) + sticky) (- k - 1) false.

(** [ERANGE]: too large for a double, or below the normal ones and not exact. *)
Definition out_of_range (x : double) (p q : Z) : bool :=
  match x with
  | S754_finite _ m e =>
    (Z.log2 (Zpos m) + e <? -1022)%Z &&
    negb (Zpos m * q * 2 ^ Z.max 0 e =? p * 2 ^ Z.max 0 (- e))%Z
  | S754_zero _ | S754_infinity _ => true
  | S754_nan => false
  end.

(** The digits at the beginning: their value, their number and the rest. *)
Fixpoint scan_digits (base acc : Z) (n : nat) (s : str) : Z * nat * str :=
  match s with
  | [] => (acc, n, [])
  | b :: s' =>
    match digit_in base b with
    | Some d => scan_digits base (acc * base + d) (S n) s'
    | None => (acc, n, s)
    end
  end.

(** Digits with a point: the digits as a number, how many are behind the point, and the
    rest; [None] without a digit. *)
Definition scan_mantissa (base : Z) (s : str) : option (Z * nat * str) :=
  let '(m, n, s1) := scan_digits base 0 0 s in
  let '(m, f, s2) :=
    match s1 with
    | b :: s' => if decide (b = x2e) then scan_digits base m 0 s' else (m, 0, s1)
    | [] => (m, 0, s1)
    end in
  if decide (n + f = 0) then None else Some (m, f, s2).

(** An exponent after one of the two letters, 0 when there is none. *)
Definition scan_exponent (lower upper : byte) (s : str) : Z :=
  match s with
  | b :: s' =>
    if decide (b = lower ∨ b = upper) then
      let '(neg, t) := parse_sign s' in
      let '(e, _, _) := scan_digits 10 0 0 t in
      if (neg : bool) then (- e)%Z else e
    else 0%Z
  | [] => 0%Z
  end.

Definition to_lower (b : byte) : byte :=
  if ((65 <=? byteZ b) && (byteZ b <=? 90))%Z then Zbyte (byteZ b + 32) else b.

Definition has_prefix (p s : str) : bool := bool_decide (p = to_lower <$> take (length p) s).

(** The number [m * base ^ e * 2 ^ e2], and whether it is in range. *)
Definition scaled (m base e e2 : Z) : double * bool :=
  if (m =? 0)%Z then (dzero, true)
  else
    let p := (m * base ^ Z.max 0 e * 2 ^ Z.max 0 e2)%Z in
    let q := (base ^ Z.max 0 (- e) * 2 ^ Z.max 0 (- e2))%Z in
    let x := of_ratio p q in
    (x, negb (out_of_range x p q)).

(** The number at the beginning of a text without spaces and sign. *)
Definition scan_number (s : str) : option (double * bool) :=
  if has_prefix (bytes "inf") s then Some (S754_infinity false, true)
  else if has_prefix (bytes "nan") s then Some (S754_nan, true)
  else
    match (if has_prefix (bytes "0x") s then scan_mantissa 16 (drop 2 s) else None) with
    | Some (m, f, s') =>
      Some (scaled m 1 0 (scan_exponent x70 x50 s' - 4 * Z.of_nat f))
    | None =>
      '(m, f, s') ← scan_mantissa 10 s;
      Some (scaled m 10 (scan_exponent x65 x45 s' - Z.of_nat f) 0)
    end.

Definition dopp (x : double) : double := SFopp x.

(** [strtod(s)] and whether it is in range; [None] when nothing was converted. *)
Definition strtod (s : str) : option (double * bool) :=
  let '(neg, t) := parse_sign (skip_spaces s) in
  '(x, ok) ← scan_number t;
  Some (if (neg : bool) then dopp x else x, ok).

(** [std::stod], whose exceptions are [FError]. *)
Definition stod (s : str) : res double :=
  match strtod s with
  | Some (x, true) => Ok x
  | Some (_, false) | None => Fault FError
  end.

Example stod_exact :
  stod (bytes "  -12.25e1x") = Ok (dopp (SFdiv 53 1024 (of_Z 245) (of_Z 2))) ∧
  stod (bytes "0x1.8p3") = Ok (of_Z 12) ∧ stod (bytes ".5") = Ok (SFdiv 53 1024 (of_Z 1) (of_Z 2)).
Proof. vm_compute. done. Qed.

(** 0.1, 2 ^ 53 + 1 between two doubles, and the largest and least numbers. *)
Example stod_rounded :
  stod (bytes "0.1") = Ok (S754_finite false 7205759403792794 (-56)) ∧
  stod (bytes "9007199254740993") = Ok (of_Z 9007199254740992) ∧
  stod (bytes "4.9406564584124654e-324") = Fault FError ∧
  stod (bytes "1.7976931348623157e308") = Ok (S754_finite false 9007199254740991 971) ∧
  stod (bytes "1.7976931348623159e308") = Fault FError.
Proof. vm_compute. done. Qed.
