(* ===== verification/Gate.v ===== *)
(** * Gate: the gate service (gate/service_gate.c)

    The handlers of the service, as programs over a [world]: the [struct gate],
    the heap of its message pool, and the trace of the calls the service made to
    skynet.  What skynet answers is a parameter, [Skynet]: a function of the
    trace so far and of the arguments. *)
From S2P Require Import Prelude IdTable HashId Bytes DataBuffer CString.
From stdpp Require Import gmap list strings.
From Stdlib Require Import ZArith Strings.Byte.

(** ** Data *)

Inductive log_arg := ArgZ (z : Z) | ArgS (s : list byte).

(** The calls of the skynet interface. *)
Inductive event :=
  | EvSocketClose (fd : Z)
  | EvSocketStart (fd : Z)
  | EvSocketListen (host : list byte) (port backlog : Z)
  | EvSocketConnect (ip : list byte) (port : Z)
  | EvSocketSend (fd : Z) (data : list byte)
  | EvSend (source destination type session : Z) (data : list byte)
  | EvQueryName (name : list byte)
  | EvCallback
  | EvError (format : string) (args : list log_arg).

#[global] Instance log_arg_eq_dec : EqDecision log_arg.
Proof. solve_decision. Defined.
#[global] Instance event_eq_dec : EqDecision event.
Proof. solve_decision. Defined.

(** What the library answers, and the constants of its headers. *)
Class Skynet := {
  skynet_socket_listen : list event → list byte → Z → Z → Z;
  skynet_socket_connect : list event → list byte → Z → Z;
  skynet_queryname : list event → list byte → Z;
  skynet_getenv : list byte → option (list byte);
  PTYPE_TEXT : Z;
  PTYPE_CLIENT : Z;
  PTYPE_TAG_DONTCOPY : Z
}.

Definition BACKLOG : Z := 32.
Definition REMOTE_NAME_SIZE : nat := 32.     (* char remote_name[32] *)
Definition BIND_SIZE : nat := 200.           (* char bind[200] *)

Record connection := Connection {
  c_id : Z;                       (* id *)
  agent : Z;
  client : Z;
  remote_name : list byte;
  buffer : databuffer
}.

Record gate := Gate {
  listen_id : Z;
  watchdog : Z;
  broker : Z;
  client_tag : Z;
  header_size : Z;
  max_connection : Z;
  g_hash : hashid;                (* hash *)
  conn : list connection;
  mp : messagepool;
  bind : list byte
}.

#[global] Instance connection_eq_dec : EqDecision connection.
Proof. solve_decision. Defined.
#[global] Instance gate_eq_dec : EqDecision gate.
Proof. solve_decision. Defined.

Record world := World { w_gate : gate; w_heap : heap; w_trace : list event }.

#[global] Instance world_eq_dec : EqDecision world.
Proof. solve_decision. Defined.

Inductive socket_type :=
  | SOCKET_DATA | SOCKET_CONNECT | SOCKET_CLOSE | SOCKET_ACCEPT
  | SOCKET_ERROR | SOCKET_WARNING | SOCKET_OTHER.

(** [struct skynet_socket_message] and the bytes after it. *)
Record socket_message := SocketMessage {
  sm_type : socket_type;
  sm_id : Z;
  sm_ud : Z;
  sm_buffer : option loc;
  sm_tail : list byte
}.

(** ** Field updates *)

Definition zero_connection : connection :=
  Connection 0 0 0 (replicate REMOTE_NAME_SIZE NUL) empty_db.
Definition set_c_id v (c : connection) :=
  Connection v (agent c) (client c) (remote_name c) (buffer c).
Definition set_agent a cl (c : connection) :=
  Connection (c_id c) a cl (remote_name c) (buffer c).
Definition set_remote_name v (c : connection) :=
  Connection (c_id c) (agent c) (client c) v (buffer c).
Definition set_buffer v (c : connection) :=
  Connection (c_id c) (agent c) (client c) (remote_name c) v.

Definition set_listen_id v (g : gate) :=
  Gate v (watchdog g) (broker g) (client_tag g) (header_size g) (max_connection g)
    (g_hash g) (conn g) (mp g) (bind g).
Definition set_broker v (g : gate) :=
  Gate (listen_id g) (watchdog g) v (client_tag g) (header_size g) (max_connection g)
    (g_hash g) (conn g) (mp g) (bind g).
Definition set_hash v (g : gate) :=
  Gate (listen_id g) (watchdog g) (broker g) (client_tag g) (header_size g)
    (max_connection g) v (conn g) (mp g) (bind g).
Definition set_conn v (g : gate) :=
  Gate (listen_id g) (watchdog g) (broker g) (client_tag g) (header_size g)
    (max_connection g) (g_hash g) v (mp g) (bind g).
Definition set_mp v (g : gate) :=
  Gate (listen_id g) (watchdog g) (broker g) (client_tag g) (header_size g)
    (max_connection g) (g_hash g) (conn g) v (bind g).
Definition set_bind v (g : gate) :=
  Gate (listen_id g) (watchdog g) (broker g) (client_tag g) (header_size g)
    (max_connection g) (g_hash g) (conn g) (mp g) v.

Definition upd_gate (f : gate → gate) : M world unit :=
  modify (λ w, World (f (w_gate w)) (w_heap w) (w_trace w)).
Definition emit (e : event) : M world unit :=
  modify (λ w, World (w_gate w) (w_heap w) (w_trace w ++ [e])).
Definition skynet_error (fmt : string) (args : list log_arg) : M world unit :=
  emit (EvError fmt args).

(** ** Access to the parts of the world *)

(** [g->conn[id]] *)
Definition get_conn (id : Z) : M world connection :=
  g ← gets w_gate; lift (aget (conn g) id).
Definition put_conn (id : Z) (c : connection) : M world unit :=
  g ← gets w_gate;
  cs ← lift (aset (conn g) id c);
  upd_gate (set_conn cs).

(** An operation of the buffer on [&g->conn[id].buffer] and [&g->mp]. *)
Definition on_buffer {A} (id : Z) (m : M bst A) : M world A :=
  c ← get_conn id;
  w ← gets (λ w, w);
  r ← lift (m (Bst (w_heap w) (buffer c) (mp (w_gate w))));
  let '(a, s') := r in
  put_conn id (set_buffer (b_db s') c);;
  upd_gate (set_mp (b_mp s'));;
  modify (λ w, World (w_gate w) (b_heap s') (w_trace w));;
  mret a.

(** The calls of the id table on [&g->hash]. *)
Definition lookup_id (fd : Z) : M world Z :=
  g ← gets w_gate; lift (hashid_lookup (g_hash g) fd).
Definition insert_id (fd : Z) : M world Z :=
  g ← gets w_gate;
  r ← lift (hashid_insert (g_hash g) fd);
  upd_gate (set_hash r.2);;
  mret r.1.
Definition remove_id (fd : Z) : M world Z :=
  g ← gets w_gate;
  r ← lift (hashid_remove (g_hash g) fd);
  upd_gate (set_hash r.2);;
  mret r.1.

(** [skynet_free(message->buffer)] *)
Definition free_buffer (p : option loc) : M world unit :=
  match p with
  | None => mret tt
  | Some b =>
    w ← gets (λ w, w);
    match blocks (w_heap w) !! b with
    | None => fail FDangling
    | Some _ =>
      modify (λ w, World (w_gate w)
        (set_blocks (delete b (blocks (w_heap w))) (w_heap w)) (w_trace w))
    end
  end.

Section Gate.
Context `{SK : Skynet}.

(** ** Creation, release *)

Definition gate_create : gate :=
  {| listen_id := -1; watchdog := 0; broker := 0; client_tag := 0; header_size := 0;
     max_connection := 0; g_hash := HashId 0 0 0 [] []; conn := [];
     mp := MessagePool None None; bind := replicate BIND_SIZE NUL |}.

(** [for (i=0;i<g->max_connection;i++)]: [left] iterations from [i]. *)
Fixpoint release_loop (left : nat) (i : Z) : M world unit :=
  match left with
  | O => mret tt
  | S left' =>
    c ← get_conn i;
    when (0 <=? c_id c)%Z (emit (EvSocketClose (c_id c)));;
    release_loop left' (i + 1)
  end.

(** The gate and its connections are freed: what is left is the heap. *)
Definition gate_release : M world unit :=
  g ← gets w_gate;
  release_loop (Z.to_nat (max_connection g)) 0;;
  when (0 <=? listen_id g)%Z (emit (EvSocketClose (listen_id g)));;
  h ← gets w_heap;
  r ← lift (messagepool_free (mp g) h);
  upd_gate (set_mp r.1);;
  modify (λ w, World (w_gate w) r.2 (w_trace w));;
  upd_gate (set_hash (hashid_clear (g_hash g)));;
  upd_gate (set_conn []).

(** ** Control commands *)

(** The two loops of [_parm]. *)
Fixpoint parm_skip (left : nat) (msg : list byte) (command_sz : Z) : res Z :=
  match left with
  | O => Ok command_sz
  | S left' =>
    b ← aget msg command_sz;
    if decide (b = SPACE) then parm_skip left' msg (command_sz + 1) else Ok command_sz
  end.
Fixpoint parm_shift (left : nat) (msg : list byte) (command_sz i : Z) : res (list byte) :=
  match left with
  | O => aset msg (i - command_sz) NUL
  | S left' =>
    b ← aget msg i;
    msg' ← aset msg (i - command_sz) b;
    parm_shift left' msg' command_sz (i + 1)
  end.
Definition _parm (msg : list byte) (sz command_sz : Z) : res (list byte) :=
  cs ← parm_skip (Z.to_nat (sz - command_sz)) msg command_sz;
  parm_shift (Z.to_nat (sz - cs)) msg cs cs.

Definition _forward_agent (fd agentaddr clientaddr : Z) : M world unit :=
  id ← lookup_id fd;
  skynet_error "_forward_agent id = %d" [ArgZ id];;
  when (0 <=? id)%Z
    (c ← get_conn id; put_conn id (set_agent agentaddr clientaddr c)).

(** The end of [start_listen], from [skynet_socket_listen] on. *)
Definition listen_at (host : list byte) (port : Z) (listen_addr : list byte)
    : M world (Z * list byte) :=
  t ← gets w_trace;
  let lid := skynet_socket_listen t host port BACKLOG in
  emit (EvSocketListen host port BACKLOG);;
  upd_gate (set_listen_id lid);;
  if (lid <? 0)%Z then mret (1%Z, listen_addr)
  else
    emit (EvSocketStart lid);;
    s ← lift (cstr listen_addr 0);
    skynet_error "start listen address %s" [ArgS s];;
    mret (0%Z, listen_addr).

(** [start_listen] on the string at the start of an array: the value returned
    and the array, whose colon may have been overwritten. *)
Definition start_listen (listen_addr : list byte) : M world (Z * list byte) :=
  s ← lift (cstr listen_addr 0);
  match index_of x3a s with
  | None =>
    let port := strtol_int s in
    if (port <=? 0)%Z then
      skynet_error "Invalid gate address %s" [ArgS s];; mret (1%Z, listen_addr)
    else listen_at [] port listen_addr
  | Some k =>
    p ← lift (cstr listen_addr (k + 1));
    let port := strtol_int p in
    if (port <=? 0)%Z then
      skynet_error "Invalid gate address %s" [ArgS s];; mret (1%Z, listen_addr)
    else
      let listen_addr' := <[k := NUL]> listen_addr in
      host ← lift (cstr listen_addr' 0);
      listen_at host port listen_addr'
  end.

(** The branches of [_ctrl].  [tmp] is the command with a NUL after it, [sz] its
    length and [i] the length of its first word. *)

Definition ctrl_kick (tmp : list byte) (sz i : Z) : M world unit :=
  tmp ← lift (_parm tmp sz i);
  s ← lift (cstr tmp 0);
  let uid := strtol_int s in
  id ← lookup_id uid;
  when (0 <=? id)%Z (emit (EvSocketClose uid)).

Definition ctrl_forward (tmp : list byte) (sz i : Z) : M world unit :=
  skynet_error "forward i  = %d" [ArgZ i];;
  tmp ← lift (_parm tmp sz i);
  r ← lift (strsep tmp 0);
  let '(tmp, client) := r in
  match client with
  | None => mret tt
  | Some client =>
    idstr ← lift (cstr tmp 0);
    let id := strtol_int idstr in
    skynet_error "forward id  = %d" [ArgZ id];;
    let agent := client in
    r ← lift (strsep tmp client);
    let '(tmp, client) := r in
    match client with
    | None => mret tt
    | Some client =>
      a ← lift (cstr tmp (agent + 1));
      let agent_handle := u32 (strtoul16 a) in
      skynet_error "forward agent_handle = %u" [ArgZ agent_handle];;
      c ← lift (cstr tmp (client + 1));
      let client_handle := u32 (strtoul16 c) in
      skynet_error "forward client_handle = %u" [ArgZ client_handle];;
      _forward_agent id agent_handle client_handle
    end
  end.

Definition ctrl_broker (tmp : list byte) (sz i : Z) : M world unit :=
  tmp ← lift (_parm tmp sz i);
  command ← lift (cstr tmp 0);
  t ← gets w_trace;
  emit (EvQueryName command);;
  upd_gate (set_broker (skynet_queryname t command)).

Definition ctrl_start (tmp : list byte) (sz i : Z) : M world unit :=
  tmp ← lift (_parm tmp sz i);
  s ← lift (cstr tmp 0);
  let uid := strtol_int s in
  id ← lookup_id uid;
  when (0 <=? id)%Z (emit (EvSocketStart uid)).

Definition ctrl_close : M world unit :=
  g ← gets w_gate;
  when (0 <=? listen_id g)%Z
    (emit (EvSocketClose (listen_id g));; upd_gate (set_listen_id (-1))).

(** [while ( *p != 0 && *p == ' ') ++p;] *)
Fixpoint skip_blanks (fuel : nat) (tmp : list byte) (p : Z) : res Z :=
  match fuel with
  | O => Fault FFuel
  | S f =>
    b ← aget tmp p;
    if decide (b ≠ NUL ∧ b = SPACE) then skip_blanks f tmp (p + 1) else Ok p
  end.

(** [while ( *p != 0 && *p != ' ') dst[i++] = *p++; dst[i] = 0;] with [dst] an
    array of [size] bytes: the word and the new [p]. *)
Fixpoint copy_word (fuel : nat) (tmp : list byte) (p : Z) (size : nat)
    (dst : list byte) : res (list byte * Z) :=
  match fuel with
  | O => Fault FFuel
  | S f =>
    b ← aget tmp p;
    if decide (b ≠ NUL ∧ b ≠ SPACE) then
      if decide (length dst < size)
      then copy_word f tmp (p + 1) size (dst ++ [b]) else Fault FBounds
    else if decide (length dst < size) then Ok (dst, p) else Fault FBounds
  end.

Definition ctrl_connect (tmp : list byte) (i source : Z) : M world unit :=
  let fuel := S (length tmp) in
  p ← lift (skip_blanks fuel tmp (i + 1));
  r ← lift (copy_word fuel tmp p 100 []);
  let '(ip, p) := r in
  p ← lift (skip_blanks fuel tmp p);
  r ← lift (copy_word fuel tmp p 50 []);
  let iport := atoi r.1 in
  g ← gets w_gate;
  if hashid_full (g_hash g) then mret tt
  else
    t ← gets w_trace;
    let fd := skynet_socket_connect t ip iport in
    emit (EvSocketConnect ip iport);;
    insert_id fd;;
    _forward_agent fd source 0;;
    skynet_error "connect to %s port %d" [ArgS ip; ArgZ iport].

Definition ctrl_listen : M world unit :=
  g ← gets w_gate;
  r ← start_listen (bind g);
  upd_gate (set_bind r.2).

(** [memcmp(command, keyword, i) == 0] *)
Definition is_command (tmp : list byte) (keyword : string) (i : nat) : M world bool :=
  lift (memcmp_eq tmp (bytes keyword ++ [NUL]) i).

Definition _ctrl (msg : list byte) (source : Z) : M world unit :=
  let tmp := msg ++ [NUL] in
  if decide (length msg = 0) then mret tt
  else
    let i := default (length msg) (index_of SPACE msg) in
    let zi := Z.of_nat i in
    let sz := Z.of_nat (length msg) in
    b ← is_command tmp "kick" i;
    if (b : bool) then ctrl_kick tmp sz zi else
    b ← is_command tmp "forward" i;
    if (b : bool) then ctrl_forward tmp sz zi else
    b ← is_command tmp "broker" i;
    if (b : bool) then ctrl_broker tmp sz zi else
    b ← is_command tmp "start" i;
    if (b : bool) then ctrl_start tmp sz zi else
    b ← is_command tmp "close" i;
    if (b : bool) then ctrl_close else
    b ← is_command tmp "connect" i;
    if (b : bool) then ctrl_connect tmp zi source else
    b ← is_command tmp "listen" i;
    if (b : bool) then ctrl_listen else
    command ← lift (cstr tmp 0);
    skynet_error "[gate] Unkown command : %s" [ArgS command].

(** ** Messages *)

(** [_report] of a formatted text: [htonl(19)] and the text, in [char str[1024]]. *)
Definition _report (text : list byte) : M world unit :=
  g ← gets w_gate;
  if (watchdog g =? 0)%Z then mret tt
  else if decide (4 + length text ≤ 1024) then
    emit (EvSend 0 (watchdog g) PTYPE_TEXT 0 (be_bytes 4 19 ++ text))
  else fail FBounds.

(** The type of the messages forwarded. *)
Definition forward_type (g : gate) : Z := Z.lor (client_tag g) PTYPE_TAG_DONTCOPY.

Definition _forward (id size : Z) : M world unit :=
  g ← gets w_gate;
  if negb (broker g =? 0)%Z then
    temp ← on_buffer id (databuffer_read size);
    emit (EvSend 0 (broker g) (forward_type g) 0 temp)
  else
    c ← get_conn id;
    if negb (agent c =? 0)%Z then
      temp ← on_buffer id (databuffer_read size);
      emit (EvSend (client c) (agent c) (forward_type g) 0 temp)
    else if negb (watchdog g =? 0)%Z then
      temp ← on_buffer id (databuffer_read size);
      emit (EvSend 0 (watchdog g) (forward_type g) 0 (fmt_d (c_id c) ++ [SPACE] ++ temp))
    else mret tt.

(** The [for (;;)] of [dispatch_message]. *)
Fixpoint dispatch_loop (fuel : nat) (id fd : Z) : M world unit :=
  match fuel with
  | O => fail FFuel
  | S f =>
    g ← gets w_gate;
    size ← on_buffer id (databuffer_readheader (header_size g));
    if (size <? 0)%Z then mret tt
    else if (0 <? size)%Z then
      if (16777216 <=? size)%Z then
        on_buffer id databuffer_clear;;
        emit (EvSocketClose fd);;
        skynet_error "Recv socket message > 16M" []
      else
        _forward id size;;
        on_buffer id databuffer_reset;;
        dispatch_loop f id fd
    else dispatch_loop f id fd
  end.

(** A turn of the loop takes a header or a payload off the buffer. *)
Definition dispatch_fuel (id : Z) : M world nat :=
  c ← get_conn id;
  mret (Z.to_nat (2 * db_size (buffer c) + 2)).

Definition dispatch_message (id fd : Z) (data : option loc) (sz : Z) : M world unit :=
  on_buffer id (databuffer_push data sz);;
  fuel ← dispatch_fuel id;
  dispatch_loop fuel id fd.

(** [memcpy(c->remote_name, message+1, sz); c->remote_name[sz] = '\0';] *)
Definition copy_name (old tail : list byte) : list byte :=
  let sz := min (length tail) (REMOTE_NAME_SIZE - 1) in
  take sz tail ++ [NUL] ++ drop (S sz) old.

Definition on_data (m : socket_message) : M world unit :=
  id ← lookup_id (sm_id m);
  if (0 <=? id)%Z then dispatch_message id (sm_id m) (sm_buffer m) (sm_ud m)
  else emit (EvSocketClose (sm_id m));; free_buffer (sm_buffer m).

(** The subtype is printed as the integer [htonl(19)] of a little-endian host. *)
Definition on_connect (m : socket_message) : M world unit :=
  g ← gets w_gate;
  if (sm_id m =? listen_id g)%Z then skynet_error "listen ok" []
  else
    id ← lookup_id (sm_id m);
    if (id <? 0)%Z then emit (EvSocketClose (sm_id m))
    else
      c ← get_conn id;
      emit (EvSend 0 (agent c) PTYPE_TEXT 0
        (fmt_u 318767104 ++ bytes " connected " ++ fmt_d (sm_id m))).

Definition on_close (m : socket_message) : M world unit :=
  id ← remove_id (sm_id m);
  when (0 <=? id)%Z
    (c ← get_conn id;
     skynet_error "socket close: %d, msg id:%d" [ArgZ (c_id c); ArgZ (sm_id m)];;
     on_buffer id databuffer_clear;;
     put_conn id (set_c_id (-1) zero_connection);;
     _report (bytes "gate close " ++ fmt_d (sm_id m) ++ [SPACE] ++ fmt_u (agent c))).

Definition on_accept (m : socket_message) : M world unit :=
  g ← gets w_gate;
  c_assert (bool_decide (listen_id g = sm_id m));;
  if hashid_full (g_hash g) then emit (EvSocketClose (sm_ud m))
  else
    id ← insert_id (sm_ud m);
    c ← get_conn id;
    let name := copy_name (remote_name c) (sm_tail m) in
    put_conn id (set_remote_name name (set_c_id (sm_ud m) c));;
    s ← lift (cstr name 0);
    _report (bytes "gate accept " ++ fmt_d (sm_ud m) ++ [SPACE] ++ s);;
    skynet_error "socket open: %d" [ArgZ (sm_ud m)].

Definition dispatch_socket_message (m : socket_message) : M world unit :=
  match sm_type m with
  | SOCKET_DATA => on_data m
  | SOCKET_CONNECT => on_connect m
  | SOCKET_CLOSE | SOCKET_ERROR => on_close m
  | SOCKET_ACCEPT => on_accept m
  | SOCKET_WARNING =>
    skynet_error "fd (%d) send buffer (%d)K" [ArgZ (sm_id m); ArgZ (sm_ud m)]
  | SOCKET_OTHER => mret tt
  end.

(** The message of [_cb], by its type. *)
Inductive cb_message :=
  | CbText (msg : list byte)
  | CbClient (msg : list byte)
  | CbSocket (m : socket_message)
  | CbOther.

(** The socket id in the last four bytes of a client message, little-endian. *)
Definition client_uid (msg : list byte) : res Z :=
  let n := Z.of_nat (length msg) in
  b0 ← aget msg (n - 4); b1 ← aget msg (n - 3); b2 ← aget msg (n - 2); b3 ← aget msg (n - 1);
  Ok (u32 (Z.lor (Z.lor (Z.lor (byteZ b0) (Z.shiftl (byteZ b1) 8))
                        (Z.shiftl (byteZ b2) 16)) (Z.shiftl (byteZ b3) 24))).

Definition on_client (msg : list byte) (source : Z) : M world Z :=
  if decide (length msg ≤ 4) then
    skynet_error "Invalid client message from %x" [ArgZ source];; mret 0%Z
  else
    uid ← lift (client_uid msg);
    skynet_error "uid is %d" [ArgZ (s32 uid)];;
    id ← lookup_id (s32 uid);
    if (0 <=? id)%Z then
      skynet_error "gate accept client msg uid = %d" [ArgZ (s32 uid)];;
      emit (EvSocketSend (s32 uid) (take (length msg - 4) msg));;
      mret 1%Z
    else
      skynet_error "Invalid client id %d from %x" [ArgZ (s32 uid); ArgZ source];;
      mret 0%Z.

Definition _cb (m : cb_message) (source : Z) : M world Z :=
  match m with
  | CbText msg => _ctrl msg source;; mret 0%Z
  | CbClient msg => on_client msg source
  | CbSocket sm => dispatch_socket_message sm;; mret 0%Z
  | CbOther => mret 0%Z
  end.

(** ** Initialisation *)

(** The array [binding], of the size of [parm]: what lies after the string is
    never read. *)
Definition binding_array (sz : nat) (s : list byte) : list byte :=
  s ++ replicate (sz - length s) NUL.

Definition gate_init (parm : option (list byte)) : M world Z :=
  match parm with
  | None => mret 1%Z
  | Some parm =>
    let sz := S (length parm) in
    match sscanf_su parm with
    | (Some word, Some wd) =>
      let binding := binding_array sz word in
      env ← lift (match skynet_getenv (bytes "max_online") with
                  | Some s => Ok s | None => Fault FNull end);
      let max := atoi env in
      hi ← lift (hashid_init max);
      upd_gate (λ g,
        Gate (listen_id g) wd (broker g) PTYPE_CLIENT 4 max hi
          (replicate (Z.to_nat max) (set_c_id (-1) zero_connection)) (mp g) (bind g));;
      emit EvCallback;;
      b0 ← lift (aget binding 0);
      if decide (b0 = x21) then mret 0%Z
      else if decide (sz ≤ BIND_SIZE) then
        upd_gate (λ g, set_bind (binding ++ drop sz (bind g)) g);;
        r ← start_listen binding;
        mret r.1
      else fail FBounds
    | _ => fail FUninit
    end
  end.

End Gate.
