(* ===== verification/GateInv.v ===== *)
(** * GateInv: the invariant of the gate

    Every connection's buffer, the free list and the hash table are well formed
    and disjoint, and the heap holds no block but the ones the buffers own and
    the ones of the environment. *)
From S2P Require Import Prelude IdTable HashId Bytes DataBuffer CString Gate.
From stdpp Require Import gmap list strings.
From Stdlib Require Import ZArith Strings.Byte.

(** ** The invariant *)

Definition idle_connection : connection := set_c_id (-1) zero_connection.

(** The buffer [d] with the queue [ms] on its own. *)
Record buf_ok (h : heap) (d : databuffer) (ms : list mref) : Prop := {
  bo_chain : mchain h (db_head d) ms;
  bo_tail : db_tail d = r_loc <$> last ms;
  bo_sized : sized d ms
}.

(** [chs] are the queues of the connections, [fl] is the free list, [ext] the
    blocks of the environment. *)
Record ginv (ext : list loc) (w : world) (chs : list (list mref)) (fl : list mloc)
    : Prop := {
  gi_hash : wf (g_hash (w_gate w));
  gi_cap : table_cap (g_hash (w_gate w)) = length (conn (w_gate w));
  gi_max : max_connection (w_gate w) = Z.of_nat (length (conn (w_gate w)));
  gi_header : header_size (w_gate w) = 4%Z;
  gi_heap : heap_wf (w_heap w);
  gi_pool : pool_ok (w_heap w) (pool (mp (w_gate w)));
  gi_free : fchain (w_heap w) (freelist (mp (w_gate w))) fl;
  gi_bufs : Forall2 (λ c ms, buf_ok (w_heap w) (buffer c) ms) (conn (w_gate w)) chs;
  gi_locs : NoDup (fl ++ locs (concat chs));
  gi_owned : NoDup (ext ++ bufs (concat chs));
  gi_blocks : ∀ b, is_Some (blocks (w_heap w) !! b) ↔ b ∈ ext ++ bufs (concat chs);
  gi_idle : ∀ i c, conn (w_gate w) !! i = Some c →
    (∃ fd, slots (g_hash (w_gate w)) !! fd = Some i) ∨ c = idle_connection
}.

(** ** Lists of lists *)

Lemma concat_focus {A} (ls : list (list A)) i l : ls !! i = Some l →
  ∃ rest, concat ls ≡ₚ l ++ rest ∧ (∀ l', concat (<[i := l']> ls) ≡ₚ l' ++ rest) ∧
    (∀ j l', j ≠ i → ls !! j = Some l' → l' ⊆ rest).
Proof.
  revert i. induction ls as [|l0 ls IH]; intros [|i] H; simplify_eq/=.
  - exists (concat ls). split_and!; [done..|]. intros [|j] l' Hj Hl; [done|].
    simpl in Hl. intros x Hx. apply list_elem_of_In, in_concat. exists l'.
    split; apply list_elem_of_In; [|done]. by eapply list_elem_of_lookup_2.
  - destruct (IH _ H) as (rest&E1&E2&E3). exists (l0 ++ rest). split_and!.
    + rewrite E1. solve_Permutation.
    + intros l'. rewrite E2. solve_Permutation.
    + intros [|j] l' Hj Hl; simplify_eq/=; [set_solver|].
      intros x Hx. apply elem_of_app. right. eapply (E3 j); [lia|done..].
Qed.

(** ** Focusing on a connection *)

(** The world after an operation on the buffer of connection [i]. *)
Definition buf_world (w : world) (i : nat) (c : connection) (s : bst) : world :=
  World (set_mp (b_mp s) (set_conn (<[i := set_buffer (b_db s) c]> (conn (w_gate w)))
    (w_gate w))) (b_heap s) (w_trace w).

Definition conn_bst (w : world) (c : connection) : bst :=
  Bst (w_heap w) (buffer c) (mp (w_gate w)).

Lemma ginv_length ext w chs fl : ginv ext w chs fl → length chs = length (conn (w_gate w)).
Proof. intros H. symmetry. eapply Forall2_length, (gi_bufs _ _ _ _ H). Qed.

Lemma ginv_focus ext w chs fl i c : ginv ext w chs fl → conn (w_gate w) !! i = Some c →
  ∃ ms, chs !! i = Some ms ∧ db_inv (conn_bst w c) ms fl.
Proof.
  intros H Hc.
  destruct (Forall2_lookup_l _ _ _ _ _ (gi_bufs _ _ _ _ H) Hc) as (ms&Hms&[Hch Htl Hsz]).
  exists ms. split; [done|]. split; [|done].
  destruct (concat_focus chs i ms Hms) as (rest&E&_&_).
  pose proof (gi_locs _ _ _ _ H) as Hl. pose proof (gi_owned _ _ _ _ H) as Hb.
  rewrite E, fmap_app, app_assoc in Hl. rewrite E, fmap_app in Hb.
  apply NoDup_app in Hl as (Hl&_&_). apply NoDup_app in Hb as (_&_&Hb).
  apply NoDup_app in Hb as (Hb&_&_).
  constructor; simpl; try done; apply H.
Qed.

Lemma ginv_queued ext w chs fl r : ginv ext w chs fl → r ∈ concat chs →
  is_Some (msgs (w_heap w) !! r_loc r).
Proof.
  intros H Hr. apply list_elem_of_In, in_concat in Hr as (ms&Hms&Hr).
  apply list_elem_of_In in Hms, Hr. apply list_elem_of_lookup in Hms as [j Hj].
  destruct (Forall2_lookup_r _ _ _ _ _ (gi_bufs _ _ _ _ H) Hj) as (c&_&[Hch _ _]).
  eapply mchain_loc; [done|]. by apply list_elem_of_fmap_2.
Qed.

(** The nodes and the blocks that lie beside a frame: those of the frame change, and all of
    them stay apart. *)
Lemma frame_locs h h' ls bs ls' bs' rest : frame h h' ls bs ls' bs' →
  NoDup (ls ++ rest) → NoDup ls' → (∀ l, l ∈ rest → is_Some (msgs h !! l)) → NoDup (ls' ++ rest).
Proof.
  intros Hfr (_&Hd&Hr)%NoDup_app Hl' Hrest. apply NoDup_app. split_and!; [done| |done].
  intros l Hin Hl. apply (fr_locs _ _ _ _ _ _ Hfr) in Hin as [Hin|Hin]; [by eapply Hd|].
  destruct (Hrest l Hl) as [m Hm]. congruence.
Qed.

Lemma frame_owned h h' ls bs ls' bs' rest : frame h h' ls bs ls' bs' →
  NoDup (bs ++ rest) → NoDup bs' → (∀ b, is_Some (blocks h !! b) ↔ b ∈ bs ++ rest) →
  NoDup (bs' ++ rest) ∧ ∀ b, is_Some (blocks h' !! b) ↔ b ∈ bs' ++ rest.
Proof.
  intros Hfr (_&Hd&Hr)%NoDup_app Hb' Hbl. split.
  { apply NoDup_app. split_and!; [done| |done].
    intros b Hin Hb. apply (fr_bufs _ _ _ _ _ _ Hfr) in Hin. by eapply Hd. }
  intros b. destruct (decide (b ∈ bs)) as [Hin|Hin].
  - destruct (decide (b ∈ bs')) as [Hin'|Hin'].
    + rewrite (fr_kept _ _ _ _ _ _ Hfr), Hbl by done. set_solver.
    + rewrite (fr_freed _ _ _ _ _ _ Hfr) by done. split; [by intros []|].
      intros [?|Hx]%elem_of_app; [done|]. by destruct (Hd b Hin).
  - rewrite (fr_blocks _ _ _ _ _ _ Hfr), Hbl by done.
    assert (b ∉ bs') by (intros ?%(fr_bufs _ _ _ _ _ _ Hfr); done). set_solver.
Qed.

(** The other buffers lie beside the frame of an operation on the buffer of [i]. *)
Lemma frame_bufs cs chs i c d ms ms' h h' ls bs ls' bs' rest :
  frame h h' ls bs ls' bs' → Forall2 (λ c ms, buf_ok h (buffer c) ms) cs chs →
  chs !! i = Some ms → cs !! i = Some c → buf_ok h' d ms' →
  (∀ j l, j ≠ i → chs !! j = Some l → l ⊆ rest) →
  (∀ l, l ∈ locs rest → l ∉ ls) → (∀ b, b ∈ bufs rest → b ∉ bs) →
  Forall2 (λ c ms, buf_ok h' (buffer c) ms) (<[i := set_buffer d c]> cs) (<[i := ms']> chs).
Proof.
  intros Hfr Hall Hms Hc Hd Hothers Hrl Hrb. apply Forall2_same_length_lookup. split.
  { rewrite !length_insert. by eapply Forall2_length. }
  intros j c' ms2 Hcj Hmj. destruct (decide (j = i)) as [->|Hne].
  - rewrite list_lookup_insert_eq in Hcj by (eapply lookup_lt_Some; done).
    rewrite list_lookup_insert_eq in Hmj by (eapply lookup_lt_Some; done).
    by simplify_eq/=.
  - rewrite list_lookup_insert_ne in Hcj by done. rewrite list_lookup_insert_ne in Hmj by done.
    destruct (Forall2_lookup_lr _ _ _ _ _ _ Hall Hcj Hmj) as [Hch Htl Hsz].
    constructor; try done. eapply mchain_frame; [exact Hfr| | |exact Hch].
    + intros l (r&->&Hr)%list_elem_of_fmap. apply Hrl, list_elem_of_fmap_2. by eapply Hothers.
    + intros b (r&->&Hr)%list_elem_of_fmap. apply Hrb, list_elem_of_fmap_2. by eapply Hothers.
Qed.

(** An operation on the buffer of connection [i]: it works in its frame, and may
    take the blocks [e] of the environment. *)
Lemma ginv_buffer e ext w chs fl i c ms s ms' fl' :
  ginv (ext ++ e) w chs fl → conn (w_gate w) !! i = Some c → chs !! i = Some ms →
  (∃ fd, slots (g_hash (w_gate w)) !! fd = Some i) →
  db_inv s ms' fl' →
  frame (w_heap w) (b_heap s) (fl ++ locs ms) (e ++ bufs ms) (fl' ++ locs ms') (bufs ms') →
  ginv ext (buf_world w i c s) (<[i := ms']> chs) fl'.
Proof.
  intros H Hc Hms Huse [[Qheap Qchain Qtail Qfree Qnd Qndb Qpool] Qsz] Hfr.
  destruct (concat_focus chs i ms Hms) as (rest&E&E'&Hothers).
  pose proof (gi_locs _ _ _ _ H) as Hl. pose proof (gi_owned _ _ _ _ H) as Hb.
  assert (Eb : (ext ++ e) ++ bufs (concat chs) ≡ₚ (e ++ bufs ms) ++ ext ++ bufs rest)
    by (rewrite E, fmap_app; solve_Permutation).
  assert (Eb' : ext ++ bufs (concat (<[i := ms']> chs)) ≡ₚ bufs ms' ++ ext ++ bufs rest)
    by (rewrite E', fmap_app; solve_Permutation).
  rewrite E, fmap_app, app_assoc in Hl. rewrite Eb in Hb.
  destruct (frame_owned _ _ _ _ _ _ (ext ++ bufs rest) Hfr) as [Hnd Hbl]; [done..| |].
  { intros b. rewrite (gi_blocks _ _ _ _ H b). by rewrite Eb. }
  constructor; simpl; rewrite ?length_insert; try apply H; try done.
  - apply NoDup_app in Hl as (_&Hl2&_). apply NoDup_app in Hb as (_&Hb2&_).
    eapply frame_bufs; [exact Hfr|apply H|done..| |].
    + intros l ? ?. by eapply Hl2.
    + intros b ? ?. eapply Hb2; [done|]. apply elem_of_app. by right.
  - rewrite E', fmap_app, app_assoc. eapply frame_locs; [done..|].
    intros l (r&->&Hr)%list_elem_of_fmap. eapply ginv_queued; [done|]. rewrite E. set_solver.
  - by rewrite Eb'.
  - intros b. by rewrite Eb'.
  - intros j c'. destruct (decide (j = i)) as [->|Hne]; [by left|].
    rewrite list_lookup_insert_ne by done. apply (gi_idle _ _ _ _ H).
Qed.

(** ** Reading the buffer of a connection off the heap *)

(** The bytes of a queue, followed link by link. *)
Fixpoint walk (fuel : nat) (h : heap) (p : option mloc) : option (list byte) :=
  match p with
  | None => Some []
  | Some l =>
    match fuel with
    | O => None
    | S f =>
      m ← msgs h !! l; b ← m_buffer m; bs ← blocks h !! b;
      rest ← walk f h (m_next m); Some (bs ++ rest)
    end
  end.

(** The pending header and the unread bytes of a buffer. *)
Definition buf_view (h : heap) (d : databuffer) : option abuf :=
  bs ← walk (size (msgs h)) h (db_head d);
  Some (header d, drop (Z.to_nat (offset d)) bs).

(** Those of the connection of a socket. *)
Definition conn_view (w : world) (fd : Z) : option abuf :=
  i ← slots (g_hash (w_gate w)) !! fd;
  c ← conn (w_gate w) !! i;
  buf_view (w_heap w) (buffer c).

Lemma walk_mchain h : ∀ ms fuel p, mchain h p ms → length ms ≤ fuel →
  walk fuel h p = Some (queued ms).
Proof.
  induction ms as [|r ms IH]; intros fuel p Hc Hf; simpl in *.
  - subst. by destruct fuel.
  - destruct Hc as (->&nx&Hm&Hb&Hc). destruct fuel as [|fuel]; [lia|]. simpl.
    rewrite Hm. simpl. rewrite Hb. simpl. rewrite (IH fuel nx) by (done || lia). done.
Qed.

Lemma buf_view_ok h d ms : buf_ok h d ms → NoDup (locs ms) →
  buf_view h d = Some (abs_buf d ms).
Proof.
  intros [Hc _ _] Hnd. unfold buf_view.
  by rewrite (walk_mchain h ms) by (done || by eapply locs_le_msgs).
Qed.

Lemma ginv_view ext w chs fl i c ms : ginv ext w chs fl →
  conn (w_gate w) !! i = Some c → chs !! i = Some ms →
  buf_view (w_heap w) (buffer c) = Some (abs_buf (buffer c) ms).
Proof.
  intros H Hc Hms. destruct (ginv_focus _ _ _ _ _ _ H Hc) as (ms'&Hms'&[Hq Hs]).
  simplify_eq. apply buf_view_ok; [by destruct Hq|].
  destruct Hq as [_ _ _ _ Hnd _ _]. by apply NoDup_app in Hnd as (_&_&?).
Qed.

(** ** Rules for the programs of the gate *)

Definition add_trace (evs : list event) (w : world) : world :=
  World (w_gate w) (w_heap w) (w_trace w ++ evs).

Lemma add_trace_add e1 e2 w : add_trace e2 (add_trace e1 w) = add_trace (e1 ++ e2) w.
Proof. unfold add_trace. simpl. by rewrite app_assoc. Qed.

Lemma add_trace_nil w : add_trace [] w = w.
Proof. destruct w. unfold add_trace. simpl. by rewrite app_nil_r. Qed.

Lemma wp_emit e (Q : unit → world → Prop) w : Q tt (add_trace [e] w) → wp (emit e) Q w.
Proof. done. Qed.

Lemma wp_error f a (Q : unit → world → Prop) w :
  Q tt (add_trace [EvError f a] w) → wp (skynet_error f a) Q w.
Proof. done. Qed.

Lemma wp_upd_gate f (Q : unit → world → Prop) w :
  Q tt (World (f (w_gate w)) (w_heap w) (w_trace w)) → wp (upd_gate f) Q w.
Proof. done. Qed.

Lemma wp_get_conn i c (Q : connection → world → Prop) w :
  conn (w_gate w) !! i = Some c → Q c w → wp (get_conn (Z.of_nat i)) Q w.
Proof. intros H HQ. unfold get_conn. repeat wp_step. by rewrite (aget_nat _ _ _ H). Qed.

Lemma wp_put_conn i c (Q : unit → world → Prop) w :
  i < length (conn (w_gate w)) →
  Q tt (World (set_conn (<[i := c]> (conn (w_gate w))) (w_gate w)) (w_heap w) (w_trace w)) →
  wp (put_conn (Z.of_nat i) c) Q w.
Proof.
  intros H HQ. unfold put_conn. repeat wp_step. rewrite aset_nat by done. simpl.
  by apply wp_upd_gate.
Qed.

Lemma wp_on_buffer {A} i c (m : M bst A) (Q : A → world → Prop) w :
  conn (w_gate w) !! i = Some c →
  wp m (λ a s', Q a (buf_world w i c s')) (conn_bst w c) →
  wp (on_buffer (Z.of_nat i) m) Q w.
Proof.
  intros H Hm. unfold on_buffer. wp_step. apply (wp_get_conn i c); [done|].
  repeat wp_step. apply wp_elim in Hm as (a&s'&E&HQ). unfold conn_bst in E. rewrite E.
  simpl. wp_step. apply wp_put_conn; [by eapply lookup_lt_Some|].
  wp_step. apply wp_upd_gate. wp_step. wp_step. wp_step. done.
Qed.

Lemma wp_lookup_id fd (Q : Z → world → Prop) w :
  wf (g_hash (w_gate w)) → Q (slot_int (slots (g_hash (w_gate w)) !! fd)) w →
  wp (lookup_id fd) Q w.
Proof.
  intros H HQ. unfold lookup_id. repeat wp_step. by rewrite it_lookup.
Qed.

(** [wp_step] and the rules above. *)
Ltac g_step :=
  first
    [ wp_step
    | lazymatch goal with
      | |- wp (emit _) _ _ => apply wp_emit
      | |- wp (skynet_error _ _) _ _ => apply wp_error
      | |- wp (upd_gate _) _ _ => apply wp_upd_gate
      | |- wp (lookup_id _) _ _ => apply wp_lookup_id; [assumption|]
      end; cbv beta ].

(** ** Preservation of the invariant *)

Lemma ginv_trace ext w chs fl evs : ginv ext w chs fl → ginv ext (add_trace evs w) chs fl.
Proof. intros [????????????]. by constructor. Qed.

(** The fields the invariant does not mention. *)
Lemma ginv_gate ext w chs fl g t : ginv ext w chs fl →
  g_hash g = g_hash (w_gate w) → conn g = conn (w_gate w) → mp g = mp (w_gate w) →
  header_size g = header_size (w_gate w) → max_connection g = max_connection (w_gate w) →
  ginv ext (World g (w_heap w) t) chs fl.
Proof. intros [????????????] E1 E2 E3 E4 E5. constructor; simpl; rewrite ?E1, ?E2, ?E3, ?E4, ?E5; done. Qed.

(** The fields of a connection in use other than its buffer. *)
Lemma ginv_conn ext w chs fl i c c' t : ginv ext w chs fl →
  conn (w_gate w) !! i = Some c → buffer c' = buffer c →
  (∃ fd, slots (g_hash (w_gate w)) !! fd = Some i) →
  ginv ext (World (set_conn (<[i := c']> (conn (w_gate w))) (w_gate w)) (w_heap w) t) chs fl.
Proof.
  intros H Hc Eb Huse. pose proof H as [????????????].
  constructor; simpl; rewrite ?length_insert; try done.
  - apply Forall2_same_length_lookup. split.
    { rewrite length_insert. symmetry. by eapply ginv_length. }
    intros j cj ms Hcj Hmj. destruct (decide (j = i)) as [->|Hne].
    + rewrite list_lookup_insert_eq in Hcj by (by eapply lookup_lt_Some). simplify_eq.
      rewrite Eb. exact (Forall2_lookup_lr _ _ _ _ _ _ gi_bufs0 Hc Hmj).
    + rewrite list_lookup_insert_ne in Hcj by done.
      exact (Forall2_lookup_lr _ _ _ _ _ _ gi_bufs0 Hcj Hmj).
  - intros j cj. destruct (decide (j = i)) as [->|Hne]; [by left|].
    rewrite list_lookup_insert_ne by done. auto.
Qed.

(** Taking a slot of the id table. *)
Lemma ginv_insert ext w chs fl fd i hi : ginv ext w chs fl → wf hi →
  table_cap hi = table_cap (g_hash (w_gate w)) →
  slots (g_hash (w_gate w)) !! fd = None →
  slots hi = <[fd := i]> (slots (g_hash (w_gate w))) →
  ginv ext (World (set_hash hi (w_gate w)) (w_heap w) (w_trace w)) chs fl.
Proof.
  intros [????????????] Hwf Hcap Hnone Hs. constructor; simpl; try done; [congruence|].
  intros j c Hc. destruct (gi_idle0 j c Hc) as [[fd' Hfd]|]; [left|by right].
  exists fd'. rewrite Hs, lookup_insert_ne; [done|]. intros ->. congruence.
Qed.

Lemma buf_ok_empty h : buf_ok h empty_db [].
Proof. constructor; [done..|apply sized_empty]. Qed.

(** Giving a slot back, its connection cleared. *)
Lemma ginv_remove ext w chs fl fd i hi t : ginv ext w chs fl → wf hi →
  table_cap hi = table_cap (g_hash (w_gate w)) →
  slots (g_hash (w_gate w)) !! fd = Some i →
  slots hi = delete fd (slots (g_hash (w_gate w))) → chs !! i = Some [] →
  ginv ext (World (set_conn (<[i := idle_connection]> (conn (w_gate w)))
    (set_hash hi (w_gate w))) (w_heap w) t) chs fl.
Proof.
  intros H Hwf Hcap Hfd Hs Hnil. pose proof H as [????????????].
  constructor; simpl; rewrite ?length_insert; try done; [congruence|..].
  - apply Forall2_same_length_lookup. split.
    { rewrite length_insert. symmetry. by eapply ginv_length. }
    intros j cj ms Hcj Hmj. destruct (decide (j = i)) as [->|Hne].
    + apply list_lookup_insert_Some in Hcj as [(_&<-&_)|[? _]]; [|done]. simplify_eq.
      apply buf_ok_empty.
    + rewrite list_lookup_insert_ne in Hcj by done.
      exact (Forall2_lookup_lr _ _ _ _ _ _ gi_bufs0 Hcj Hmj).
  - intros j cj. rewrite list_lookup_insert_Some. intros [(<-&<-&_)|[Hne Hcj]]; [by right|].
    destruct (gi_idle0 j cj Hcj) as [[fd' Hfd']|]; [left|by right].
    exists fd'. rewrite Hs, lookup_delete_ne; [done|]. intros ->. congruence.
Qed.

(** A slot in use has a connection. *)
Lemma ginv_slot ext w chs fl fd i : ginv ext w chs fl →
  slots (g_hash (w_gate w)) !! fd = Some i → ∃ c, conn (w_gate w) !! i = Some c.
Proof.
  intros H Hfd. apply lookup_lt_is_Some_2. rewrite <- (gi_cap _ _ _ _ H).
  eapply it_bound; [apply H|done].
Qed.
