(* ===== verification/GateDispatch.v ===== *)
(** * GateDispatch: the packets of a byte stream

    A reference parser of length-prefixed packets on the abstract buffer, its
    laws (the packets do not depend on how the stream is cut into blocks; encoding
    then parsing is the identity), and the proof that [dispatch_message] computes
    it. *)
From S2P Require Import Prelude IdTable HashId Bytes DataBuffer CString Gate GateInv.
From stdpp Require Import gmap list strings.
From Stdlib Require Import ZArith Strings.Byte.

(** ** The reference parser *)

(** The bound of [dispatch_message] on the length of a packet. *)
Definition packet_limit : Z := 16777216.

(** What is left to parse, in turns of the loop. *)
Definition measure (a : abuf) : nat :=
  2 * length a.2 + (if decide (a.1 = 0)%Z then 0 else 1).

(** The packets, the buffer they leave and whether the connection is closed for
    a packet over the bound.  With [routed] false nobody reads the payloads: they
    are parsed again as headers. *)
Fixpoint parse_loop (fuel : nat) (routed : bool) (a : abuf)
    : list (list byte) * abuf * bool :=
  match fuel with
  | O => ([], a, false)
  | S f =>
    let '(r, a1) := spec_readheader 4 a in
    if (r <? 0)%Z then ([], a1, false)
    else if (0 <? r)%Z then
      if (packet_limit <=? r)%Z then ([], (0%Z, []), true)
      else if routed then
        let '(ps, a2, cl) := parse_loop f routed (0%Z, drop (Z.to_nat r) a1.2) in
        (take (Z.to_nat r) a1.2 :: ps, a2, cl)
      else parse_loop f routed (0%Z, a1.2)
    else parse_loop f routed a1
  end.
Definition parse (routed : bool) (a : abuf) : list (list byte) * abuf * bool :=
  parse_loop (S (measure a)) routed a.
#[global] Arguments parse : simpl never.

(** The outcomes of reading a header. *)
Lemma spec_readheader_cases hs a r a1 : (0 < hs)%Z → spec_readheader hs a = (r, a1) →
  (r < 0)%Z ∨
  (r = 0%Z ∧ a1.1 = 0%Z ∧ a.1 = 0%Z ∧ length a1.2 + Z.to_nat hs = length a.2) ∨
  (0 < r ≤ Z.of_nat (length a1.2))%Z ∧ a1.1 = r ∧
    (a.1 ≠ 0%Z ∧ a1 = a ∨ a.1 = 0%Z ∧ length a1.2 + Z.to_nat hs = length a.2).
Proof.
  intros Hhs. unfold spec_readheader. destruct a as [h st]. simpl.
  destruct (Z.eqb_spec h 0) as [->|Hh].
  - destruct (Z.ltb_spec (Z.of_nat (length st)) hs); [intros [= <- <-]; lia|].
    set (v := s32 _).
    destruct (Z.ltb_spec (Z.of_nat (length (drop (Z.to_nat hs) st))) v) as [|Hv].
    { intros [= <- <-]; lia. }
    intros [= <- <-]. simpl. rewrite length_drop in *.
    destruct (Z.lt_trichotomy v 0) as [?|[?|?]]; [by left|right; left|right; right].
    + lia.
    + split_and!; [lia..|]. right. split; [done|lia].
  - destruct (Z.ltb_spec (Z.of_nat (length st)) h); [intros [= <- <-]; lia|].
    intros [= <- <-]. simpl.
    destruct (Z.lt_trichotomy h 0) as [?|[?|?]]; [by left|done|right; right].
    split_and!; [lia..|]. by left.
Qed.

(** Every turn of the loop leaves less to parse. *)
Lemma measure_decreases a r a1 : spec_readheader 4 a = (r, a1) → (0 ≤ r)%Z →
  if (0 <? r)%Z
  then measure (0%Z, drop (Z.to_nat r) a1.2) < measure a ∧ measure (0%Z, a1.2) < measure a
  else measure a1 < measure a.
Proof.
  intros E Hr. apply spec_readheader_cases in E; [|lia]. unfold measure. simpl.
  rewrite length_drop. destruct (Z.ltb_spec 0 r).
  - destruct E as [|[(?&_)|(?&E1&[(?&->)|[E2 ?]])]]; [lia..| |].
    + rewrite decide_False by done. lia.
    + rewrite E2. simpl. lia.
  - destruct E as [|[(?&E1&E2&?)|(?&_)]]; [lia| |lia]. rewrite E1, E2. simpl. lia.
Qed.

Lemma parse_loop_fuel routed : ∀ f1 f2 a, measure a < f1 → measure a < f2 →
  parse_loop f1 routed a = parse_loop f2 routed a.
Proof.
  induction f1 as [|f1 IH]; intros [|f2] a H1 H2; try lia. cbn [parse_loop].
  destruct (spec_readheader 4 a) as [r a1] eqn:E. pose proof (measure_decreases _ _ _ E) as Hd.
  destruct (Z.ltb_spec r 0); [done|]. specialize (Hd ltac:(lia)).
  destruct (0 <? r)%Z; [|by rewrite (IH f2) by lia].
  destruct (packet_limit <=? r)%Z; [done|].
  destruct routed; by rewrite (IH f2) by lia.
Qed.

(** One turn of the parser. *)
Lemma parse_unfold routed a : parse routed a =
  let '(r, a1) := spec_readheader 4 a in
  if (r <? 0)%Z then ([], a1, false)
  else if (0 <? r)%Z then
    if (packet_limit <=? r)%Z then ([], (0%Z, []), true)
    else if routed then
      let '(ps, a2, cl) := parse routed (0%Z, drop (Z.to_nat r) a1.2) in
      (take (Z.to_nat r) a1.2 :: ps, a2, cl)
    else parse routed (0%Z, a1.2)
  else parse routed a1.
Proof.
  unfold parse at 1. cbn [parse_loop].
  destruct (spec_readheader 4 a) as [r a1] eqn:E. pose proof (measure_decreases _ _ _ E) as Hd.
  destruct (Z.ltb_spec r 0); [done|]. specialize (Hd ltac:(lia)).
  destruct (0 <? r)%Z; [|apply parse_loop_fuel; lia].
  destruct (packet_limit <=? r)%Z; [done|]. unfold parse.
  destruct routed; [|apply parse_loop_fuel; lia].
  by rewrite (parse_loop_fuel _ _ (S (measure (0%Z, drop (Z.to_nat r) a1.2)))) by lia.
Qed.

(** ** Laws of the parser *)

(** More bytes do not change a header that was read. *)
Lemma spec_readheader_app a r a1 t : spec_readheader 4 a = (r, a1) → (0 ≤ r)%Z →
  spec_readheader 4 (a.1, a.2 ++ t) = (r, (a1.1, a1.2 ++ t)).
Proof.
  destruct a as [h s]. unfold spec_readheader. change (Z.to_nat 4) with 4. simpl.
  destruct (Z.eqb_spec h 0) as [->|Hh]; rewrite length_app.
  - destruct (Z.ltb_spec (Z.of_nat (length s)) 4); [intros [= <- <-]; lia|].
    rewrite (proj2 (Z.ltb_ge (Z.of_nat (length s + length t)) 4)) by lia.
    rewrite take_app_le, drop_app_le, length_app by lia. set (v := s32 _).
    destruct (Z.ltb_spec (Z.of_nat (length (drop 4 s))) v); intros [= <- <-]; [lia|].
    rewrite (proj2 (Z.ltb_ge _ v)) by lia. done.
  - destruct (Z.ltb_spec (Z.of_nat (length s)) h); intros [= <- <-]; [lia|].
    rewrite (proj2 (Z.ltb_ge _ h)) by lia. done.
Qed.

(** What a wait leaves behind resumes with the next bytes. *)
Lemma spec_readheader_wait a r a1 t : spec_readheader 4 a = (r, a1) → (r < 0)%Z →
  spec_readheader 4 (a.1, a.2 ++ t) = spec_readheader 4 (a1.1, a1.2 ++ t).
Proof.
  destruct a as [h s]. unfold spec_readheader. change (Z.to_nat 4) with 4. simpl.
  destruct (Z.eqb_spec h 0) as [->|Hh].
  - destruct (Z.ltb_spec (Z.of_nat (length s)) 4); [by intros [= <- <-]|].
    rewrite length_app, (proj2 (Z.ltb_ge (Z.of_nat (length s + length t)) 4)) by lia.
    rewrite take_app_le, drop_app_le by lia. set (v := s32 _).
    destruct (Z.ltb_spec (Z.of_nat (length (drop 4 s))) v); intros [= <- <-] Hr; simpl;
      rewrite (proj2 (Z.eqb_neq v 0)); [done|lia|done|lia].
  - destruct (Z.ltb_spec (Z.of_nat (length s)) h); intros [= <- <-] Hr; simpl;
      by rewrite (proj2 (Z.eqb_neq h 0)).
Qed.

Lemma parse_wait routed a r a1 t : spec_readheader 4 a = (r, a1) → (r < 0)%Z →
  parse routed (a.1, a.2 ++ t) = parse routed (a1.1, a1.2 ++ t).
Proof. intros E Hr. rewrite !parse_unfold. by rewrite (spec_readheader_wait _ _ _ _ E Hr). Qed.

(** Induction on what is left to parse. *)
Lemma abuf_ind (P : abuf → Prop) :
  (∀ a, (∀ a', measure a' < measure a → P a') → P a) → ∀ a, P a.
Proof. intros H. exact (well_founded_ind (well_founded_ltof _ measure) P H). Qed.

(** Parsing [s ++ t] is parsing [s] and then [t] with what it left. *)
Lemma parse_app routed t : ∀ a ps a2 cl, parse routed a = (ps, a2, cl) →
  parse routed (a.1, a.2 ++ t) =
  if cl then (ps, (0%Z, []), true)
  else let '(ps', a3, cl') := parse routed (a2.1, a2.2 ++ t) in (ps ++ ps', a3, cl').
Proof.
  refine (abuf_ind _ _). intros a IH ps a2 cl. rewrite (parse_unfold routed a).
  destruct (spec_readheader 4 a) as [r a1] eqn:E. pose proof (measure_decreases _ _ _ E) as Hd.
  destruct (Z.ltb_spec r 0) as [Hr|Hr].
  { intros [= <- <- <-]. rewrite (parse_wait _ _ _ _ _ E Hr).
    by destruct (parse routed (a1.1, _)) as [[??]?]. }
  specialize (Hd ltac:(lia)). rewrite (parse_unfold routed (a.1, _)), (spec_readheader_app _ _ _ _ E Hr).
  rewrite (proj2 (Z.ltb_ge r 0)) by lia. simpl.
  pose proof (spec_readheader_cases 4 a r a1 ltac:(lia) E) as Hc.
  destruct (Z.ltb_spec 0 r); [|by apply IH].
  destruct (packet_limit <=? r)%Z; [by intros [= <- <- <-]|].
  destruct routed.
  - rewrite take_app_le, drop_app_le by (destruct Hc as [?|[(?&_)|(?&_)]]; lia).
    destruct (parse true (0%Z, drop (Z.to_nat r) a1.2)) as [[ps1 a3] cl1] eqn:E1.
    intros [= <- <- <-]. apply IH in E1; [|lia]. simpl in E1. rewrite E1.
    destruct cl1; [done|]. by destruct (parse true (a3.1, _)) as [[??]?].
  - intros E1. apply IH in E1; [|lia]. done.
Qed.

(** A packet on the wire. *)
Definition encode_packet (p : list byte) : list byte := be_bytes 4 (Z.of_nat (length p)) ++ p.
#[global] Arguments encode_packet : simpl never.

(** Encoded packets parse back; the empty ones are skipped. *)
Lemma parse_encode p t : (Z.of_nat (length p) < packet_limit)%Z →
  parse true (0%Z, encode_packet p ++ t) =
  let '(ps, a, cl) := parse true (0%Z, t) in
  ((if decide (p = []) then ps else p :: ps), a, cl).
Proof.
  intros Hp. unfold packet_limit in Hp. rewrite parse_unfold.
  assert (E : spec_readheader 4 (0%Z, encode_packet p ++ t) =
    (Z.of_nat (length p), (Z.of_nat (length p), p ++ t))).
  { unfold spec_readheader, encode_packet. cbn [fst snd Z.eqb]. rewrite <- app_assoc.
    rewrite (proj2 (Z.ltb_ge _ 4)) by (rewrite length_app, be_bytes_length; lia).
    rewrite take_app_length', drop_app_length' by (by rewrite be_bytes_length).
    rewrite be_value_bytes by lia. rewrite s32_id by (unfold int_min, int_max; lia). simpl.
    rewrite (proj2 (Z.ltb_ge _ _)); [done|]. rewrite length_app. lia. }
  rewrite E, (proj2 (Z.ltb_ge _ 0)) by lia. cbn [fst snd].
  destruct (Z.ltb_spec 0 (Z.of_nat (length p))) as [H|H].
  - rewrite (proj2 (Z.leb_gt packet_limit _)) by (unfold packet_limit; lia).
    rewrite Nat2Z.id, take_app_length, drop_app_length.
    assert (p ≠ []) by (intros ->; simpl in H; lia).
    destruct (parse true (0%Z, t)) as [[??]?]. by rewrite decide_False.
  - assert (p = []) as -> by (apply length_zero_iff_nil; lia). simpl.
    change (Z.of_nat 0) with 0%Z. by destruct (parse true (0%Z, t)) as [[??]?].
Qed.

Lemma parse_encode_all t : ∀ ps, Forall (λ p, Z.of_nat (length p) < packet_limit)%Z ps →
  parse true (0%Z, concat (encode_packet <$> ps) ++ t) =
  let '(ps', a, cl) := parse true (0%Z, t) in (filter (λ p, p ≠ []) ps ++ ps', a, cl).
Proof.
  induction ps as [|p ps IH]; intros Hall.
  - simpl. by destruct (parse true (0%Z, t)) as [[??]?].
  - apply Forall_cons in Hall as [Hp Hall]. rewrite fmap_cons. cbn [concat]. rewrite <- app_assoc.
    rewrite parse_encode, IH by done. destruct (parse true (0%Z, t)) as [[ps' a] cl].
    rewrite filter_cons. by repeat case_decide; try tauto.
Qed.

(** A negative header is never got rid of: the connection delivers nothing any
    more, whatever it receives. *)
Lemma parse_negative routed h s : (h < 0)%Z → parse routed (h, s) = ([], (h, s), false).
Proof.
  intros Hh. rewrite parse_unfold. unfold spec_readheader. simpl.
  rewrite (proj2 (Z.eqb_neq h 0)), (proj2 (Z.ltb_ge _ h)) by lia. by rewrite (proj2 (Z.ltb_lt h 0)).
Qed.

(** ** [dispatch_message] computes the parser *)

(** The world with the buffer of connection [i] in the state [s] and [evs] done. *)
Definition at_buf (evs : list event) (w : world) (i : nat) (c : connection) (s : bst) : world :=
  add_trace evs (buf_world w i c s).

Lemma at_buf_trace evs e w i c s : add_trace e (at_buf evs w i c s) = at_buf (evs ++ e) w i c s.
Proof. apply add_trace_add. Qed.

Lemma wp_on_buffer_at {A} evs w i c0 c s (m : M bst A) (Q : A → world → Prop) :
  conn (w_gate w) !! i = Some c0 → wp m (λ a s', Q a (at_buf evs w i c s')) s →
  wp (on_buffer (Z.of_nat i) m) Q (at_buf evs w i c s).
Proof.
  intros Hc Hm. apply (wp_on_buffer i (set_buffer (b_db s) c)).
  { simpl. rewrite list_lookup_insert_eq; [done|by eapply lookup_lt_Some]. }
  destruct s as [h d p]. unfold conn_bst. simpl. eapply wp_mono; [exact Hm|].
  intros a s'. unfold at_buf, add_trace, buf_world. simpl. by rewrite list_insert_insert_eq.
Qed.

Lemma buf_post_trans s ms fl a s1 a' s2 : buf_post s ms fl a s1 →
  (∀ ms1 fl1, db_inv s1 ms1 fl1 → abs_buf (b_db s1) ms1 = a → buf_post s1 ms1 fl1 a' s2) →
  buf_post s ms fl a' s2.
Proof.
  intros (ms1&fl1&Hinv&Ha&Hf) H. destruct (H _ _ Hinv Ha) as (ms2&fl2&?&?&?).
  exists ms2, fl2. split_and!; [done..|]. by eapply frame_trans.
Qed.

Lemma reset_wp s ms fl : db_inv s ms fl →
  wp databuffer_reset (λ _ s', buf_post s ms fl (0%Z, stream (b_db s) ms) s') s.
Proof.
  intros H. unfold databuffer_reset. apply wp_upd_db. exists ms, fl.
  split_and!; [by apply db_inv_header|done|apply frame_refl].
Qed.

Lemma clear_post_wp s ms fl : db_inv s ms fl →
  wp databuffer_clear (λ _ s', buf_post s ms fl (0%Z, []) s' ∧ b_db s' = empty_db) s.
Proof.
  intros [Hq _]. eapply wp_mono; [by apply clear_wp|]. intros _ s' (fl'&Hi&Hd&Hf).
  split; [|done]. exists [], fl'. split_and!; [done| |done].
  unfold abs_buf. by rewrite Hd, stream_nil.
Qed.

Section Dispatch.
Context `{SK : Skynet}.

(** The message [_forward] makes of a payload: to the broker, else to the agent
    of the connection, else to the watchdog after the id of the connection. *)
Definition route (g : gate) (c : connection) : option (list byte → event) :=
  if negb (broker g =? 0)%Z then Some (EvSend 0 (broker g) (forward_type g) 0)
  else if negb (agent c =? 0)%Z then Some (EvSend (client c) (agent c) (forward_type g) 0)
  else if negb (watchdog g =? 0)%Z then
    Some (λ p, EvSend 0 (watchdog g) (forward_type g) 0 (fmt_d (c_id c) ++ [SPACE] ++ p))
  else None.

Definition is_routed (g : gate) (c : connection) : bool :=
  match route g c with Some _ => true | None => false end.

Lemma forward_wp w i c evs s ms fl sz :
  conn (w_gate w) !! i = Some c → db_inv s ms fl →
  (0 < sz ≤ Z.of_nat (length (stream (b_db s) ms)))%Z →
  wp (_forward (Z.of_nat i) sz) (λ _ w', ∃ evs' s', w' = at_buf (evs ++ evs') w i c s' ∧
    match route (w_gate w) c with
    | Some f => evs' = [f (take (Z.to_nat sz) (stream (b_db s) ms))] ∧
        buf_post s ms fl (header (b_db s), drop (Z.to_nat sz) (stream (b_db s) ms)) s'
    | None => evs' = [] ∧ s' = s
    end) (at_buf evs w i c s).
Proof.
  intros Hc Hinv Hsz. pose proof Hinv as [_ [_ [Hdb _]]].
  assert (Hread : ∀ (k : list byte → M world unit) (Q : unit → world → Prop),
    (∀ s', buf_post s ms fl (header (b_db s), drop (Z.to_nat sz) (stream (b_db s) ms)) s' →
      wp (k (take (Z.to_nat sz) (stream (b_db s) ms))) Q (at_buf evs w i c s')) →
    wp (on_buffer (Z.of_nat i) (databuffer_read sz) ≫= k) Q (at_buf evs w i c s)).
  { intros k Q Hk. wp_step. eapply wp_on_buffer_at; [done|].
    eapply wp_mono; [by apply (read_wp s ms fl); [|lia]|].
    intros bs s' (ms'&fl'&->&Hinv'&Hst&Hh&Hf). apply Hk. exists ms', fl'.
    split_and!; [done| |done]. unfold abs_buf. by rewrite Hst, Hh. }
  unfold _forward, route. g_step. g_step. cbn [w_gate at_buf add_trace buf_world broker set_mp set_conn].
  destruct (negb (broker (w_gate w) =? 0)%Z).
  { apply Hread. intros s' Hp. g_step. eexists [_], s'. by rewrite at_buf_trace. }
  g_step. apply (wp_get_conn i (set_buffer (b_db s) c)).
  { simpl. rewrite list_lookup_insert_eq; [done|by eapply lookup_lt_Some]. }
  cbn [agent set_buffer]. destruct (negb (agent c =? 0)%Z).
  { apply Hread. intros s' Hp. g_step. eexists [_], s'. by rewrite at_buf_trace. }
  cbn [watchdog w_gate at_buf add_trace buf_world set_mp set_conn].
  destruct (negb (watchdog (w_gate w) =? 0)%Z).
  { apply Hread. intros s' Hp. g_step. eexists [_], s'. by rewrite at_buf_trace. }
  g_step. exists [], s. by rewrite app_nil_r.
Qed.

(** The calls of [dispatch_message], given what the parser finds. *)
Definition dispatch_events (g : gate) (c : connection) (fd : Z)
    (r : list (list byte) * abuf * bool) : list event :=
  match route g c with Some f => f <$> r.1.1 | None => [] end ++
  (if r.2 then [EvSocketClose fd; EvError "Recv socket message > 16M" []] else []).

Lemma dispatch_loop_wp w i c fd : conn (w_gate w) !! i = Some c →
  header_size (w_gate w) = 4%Z → ∀ fuel evs s ms fl, db_inv s ms fl →
  measure (abs_buf (b_db s) ms) < fuel →
  wp (dispatch_loop fuel (Z.of_nat i) fd) (λ _ w', ∃ s',
    let r := parse (is_routed (w_gate w) c) (abs_buf (b_db s) ms) in
    w' = at_buf (evs ++ dispatch_events (w_gate w) c fd r) w i c s' ∧
    buf_post s ms fl r.1.2 s') (at_buf evs w i c s).
Proof.
  intros Hc Hhs. induction fuel as [|fuel IH]; intros evs s ms fl Hinv Hm; [lia|].
  assert (Hgo : ∀ evs2 s2 a2 (Q : unit → world → Prop), buf_post s ms fl a2 s2 →
    measure a2 < measure (abs_buf (b_db s) ms) →
    (let r := parse (is_routed (w_gate w) c) a2 in ∀ s3, buf_post s ms fl r.1.2 s3 →
      Q tt (at_buf (evs2 ++ dispatch_events (w_gate w) c fd r) w i c s3)) →
    wp (dispatch_loop fuel (Z.of_nat i) fd) Q (at_buf evs2 w i c s2)).
  { intros evs2 s2 a2 Q (ms2&fl2&Hinv2&<-&Hf2) Hlt HQ.
    eapply wp_mono; [apply (IH evs2 s2 ms2 fl2); [done|lia]|].
    intros [] w' (s3&->&(ms3&fl3&?&?&?)). apply HQ. exists ms3, fl3.
    split_and!; [done..|by eapply frame_trans]. }
  cbn [dispatch_loop]. g_step. g_step. g_step. eapply wp_on_buffer_at; [done|].
  cbn [header_size w_gate at_buf add_trace buf_world set_mp set_conn]. rewrite Hhs.
  eapply wp_mono; [apply (readheader_wp 4); [by right|done]|]. intros r s1 (a1&E&Hp1).
  pose proof (measure_decreases _ _ _ E) as Hd. rewrite parse_unfold, E.
  destruct (Z.ltb_spec r 0) as [Hr|Hr].
  { g_step. exists s1. unfold dispatch_events. simpl.
    by destruct (route _ _); simpl; rewrite app_nil_r. }
  specialize (Hd ltac:(lia)).
  destruct (Z.ltb_spec 0 r) as [Hr0|Hr0]; [|eapply Hgo; [done|lia|eauto]].
  pose proof Hp1 as (ms1&fl1&Hinv1&Ha1&Hf1).
  unfold packet_limit. destruct (16777216 <=? r)%Z.
  { g_step. eapply wp_on_buffer_at; [done|]. eapply wp_mono; [by apply clear_post_wp|].
    intros _ s2 [Hp2 _]. g_step. g_step. g_step. exists s2. unfold dispatch_events. simpl.
    rewrite !at_buf_trace. split.
    - destruct (route _ _); simpl; by rewrite <- app_assoc.
    - destruct Hp2 as (ms2&fl2&?&?&?). exists ms2, fl2.
      split_and!; [done..|by eapply frame_trans]. }
  destruct (spec_readheader_cases 4 _ _ _ ltac:(lia) E) as [?|[(?&_)|(Hr1&Hr2&_)]]; [lia..|].
  rewrite <- Ha1 in Hr1. simpl in Hr1. g_step. eapply wp_mono.
  { by apply (forward_wp w i c evs s1 ms1 fl1 r). }
  intros _ w1 (evs1&s2&->&Hroute). g_step. eapply wp_on_buffer_at; [done|].
  rewrite <- Ha1 in Hd |- *. simpl in Hd |- *. unfold is_routed, dispatch_events in *.
  destruct (route (w_gate w) c) as [f|]; destruct Hroute as [-> Hp2].
  - destruct Hp2 as (ms2&fl2&Hinv2&Ha2&Hf2). injection Ha2 as _ Hst.
    eapply wp_mono; [by apply reset_wp|]. intros _ s3 (ms3&fl3&Hinv3&Ha3&Hf3).
    eapply (Hgo _ _ (0%Z, drop (Z.to_nat r) (stream (b_db s1) ms1))); [|lia|].
    + exists ms3, fl3. rewrite <- Hst. split_and!; [done..|].
      do 2 (eapply frame_trans; [done|]). done.
    + intros s4 Hp4. exists s4.
      destruct (parse true _) as [[ps a] cl]. by rewrite <- app_assoc.
  - subst s2. eapply wp_mono; [by apply reset_wp|]. intros _ s3 (ms3&fl3&Hinv3&Ha3&Hf3).
    eapply (Hgo _ _ (0%Z, stream (b_db s1) ms1)); [|lia|].
    + exists ms3, fl3. split_and!; [done..|]. by eapply frame_trans.
    + intros s4 Hp4. exists s4. by rewrite app_nil_r.
Qed.

(** From a block [b] of the environment, with the bytes [bs]. *)
Lemma dispatch_message_wp ext w chs fl i c ms fd b bs :
  ginv (ext ++ [b]) w chs fl → conn (w_gate w) !! i = Some c → chs !! i = Some ms →
  slots (g_hash (w_gate w)) !! fd = Some i → blocks (w_heap w) !! b = Some bs →
  (Z.of_nat (length (stream (buffer c) ms) + length bs) ≤ int_max)%Z →
  wp (dispatch_message (Z.of_nat i) fd (Some b) (Z.of_nat (length bs))) (λ _ w', ∃ s' ms' fl',
    let r := parse (is_routed (w_gate w) c)
      (header (buffer c), stream (buffer c) ms ++ bs) in
    w' = at_buf (dispatch_events (w_gate w) c fd r) w i c s' ∧
    ginv ext w' (<[i := ms']> chs) fl' ∧ abs_buf (b_db s') ms' = r.1.2) w.
Proof.
  intros H Hc Hms Hfd Hb Hfit. destruct (ginv_focus _ _ _ _ _ _ H Hc) as (ms0&?&Hinv).
  simplify_eq. pose proof Hinv as [_ [_ [Hsz _]]].
  assert (Hnb : b ∉ bufs ms).
  { intros Hin. pose proof (gi_owned _ _ _ _ H) as Hnd.
    destruct (concat_focus _ _ _ Hms) as (rest&E&_). rewrite E, fmap_app in Hnd.
    apply NoDup_app in Hnd as (_&Hd&_). apply (Hd b); set_solver. }
  unfold dispatch_message. g_step. eapply wp_on_buffer; [done|]. simpl in Hsz.
  eapply wp_mono; [apply (push_wp _ ms fl b bs); [done..|simpl; lia]|].
  intros _ s1 (l&fl1&Hinv1&Hst1&Hh1&Hf1). simpl in Hst1, Hh1, Hf1.
  g_step. unfold dispatch_fuel. g_step.
  apply (wp_get_conn i (set_buffer (b_db s1) c)).
  { simpl. rewrite list_lookup_insert_eq; [done|by eapply lookup_lt_Some]. }
  g_step. simpl. replace (buf_world w i c s1) with (at_buf [] w i c s1) by apply add_trace_nil.
  eapply wp_mono; [apply (dispatch_loop_wp w i c fd Hc (gi_header _ _ _ _ H)); [done|]|].
  { destruct Hinv1 as [_ [_ [Hsz1 _]]]. unfold measure, abs_buf. simpl. case_decide; lia. }
  intros _ w' (s'&->&(ms'&fl'&Hinv'&Ha'&Hf')).
  assert (Ea : abs_buf (b_db s1) (ms ++ [MRef l b bs]) =
    (header (buffer c), stream (buffer c) ms ++ bs)) by (unfold abs_buf; by rewrite Hst1, Hh1).
  rewrite Ea in Ha' |- *. exists s', ms', fl'. split_and!; [done| |done].
  apply ginv_trace. eapply (ginv_buffer [b]); [done..|by exists fd|done|].
  eapply frame_trans; [exact Hf1|exact Hf'].
Qed.

End Dispatch.
