(* ===== verification/GateSpec.v ===== *)
(** * GateSpec: what the gate promises, and that its handlers implement it

    The abstract gate keeps a finite map from socket ids to connections; a
    connection has its pending header and unread bytes.  Each message of skynet is
    a function on abstract gates.  The handlers of [Gate.v], run on the hash
    table, the linked buffers and the message pool, compute these functions. *)
From S2P Require Import Prelude IdTable HashId Bytes DataBuffer CString Gate GateInv GateDispatch.
From stdpp Require Import gmap list strings.
From Stdlib Require Import ZArith Strings.Byte.

(** ** The abstract gate *)

Record sconn := SConn {
  s_id : Z;
  s_agent : Z;
  s_client : Z;
  s_name : list byte;
  s_buf : abuf
}.

Record sgate := SGate {
  sg_listen : Z;
  sg_watchdog : Z;
  sg_broker : Z;
  sg_tag : Z;
  sg_bind : list byte;
  sg_cap : nat;
  sg_conns : gmap Z sconn;
  sg_trace : list event
}.

Definition abs_conn (c : connection) (a : abuf) : sconn :=
  SConn (c_id c) (agent c) (client c) (remote_name c) a.

(** The abstraction: the connections are found through the hash table and their
    bytes are read off the heap. *)
Definition abs_conns (w : world) : gmap Z sconn :=
  map_imap (λ _ i,
    c ← conn (w_gate w) !! i; a ← buf_view (w_heap w) (buffer c); Some (abs_conn c a))
    (slots (g_hash (w_gate w))).

Definition abs_gate (w : world) : sgate :=
  let g := w_gate w in
  SGate (listen_id g) (watchdog g) (broker g) (client_tag g) (bind g) (table_cap (g_hash g))
    (abs_conns w) (w_trace w).

Definition sp_emit (evs : list event) (s : sgate) : sgate :=
  SGate (sg_listen s) (sg_watchdog s) (sg_broker s) (sg_tag s) (sg_bind s) (sg_cap s)
    (sg_conns s) (sg_trace s ++ evs).
Definition sp_conns (m : gmap Z sconn) (s : sgate) : sgate :=
  SGate (sg_listen s) (sg_watchdog s) (sg_broker s) (sg_tag s) (sg_bind s) (sg_cap s)
    m (sg_trace s).

(** ** The connections as a function of the parts of the world *)

Definition mconns (sl : gmap Z nat) (cs : list connection) (chs : list (list mref))
    : gmap Z sconn :=
  map_imap (λ _ i, c ← cs !! i; ms ← chs !! i; Some (abs_conn c (abs_buf (buffer c) ms))) sl.

Lemma mconns_lookup sl cs chs fd :
  mconns sl cs chs !! fd =
  i ← sl !! fd; c ← cs !! i; ms ← chs !! i; Some (abs_conn c (abs_buf (buffer c) ms)).
Proof. apply map_lookup_imap. Qed.

Lemma abs_conns_mconns ext w chs fl : ginv ext w chs fl →
  abs_conns w = mconns (slots (g_hash (w_gate w))) (conn (w_gate w)) chs.
Proof.
  intros H. apply map_eq. intros fd. unfold abs_conns. rewrite mconns_lookup, map_lookup_imap.
  destruct (slots _ !! fd) as [i|]; [|done]. simpl.
  destruct (conn (w_gate w) !! i) as [c|] eqn:Hc; [|done]. simpl.
  destruct (ginv_focus _ _ _ _ _ _ H Hc) as (ms&Hms&_). rewrite Hms. simpl.
  by rewrite (ginv_view _ _ _ _ _ _ _ H Hc Hms).
Qed.

(** Two ids never share a slot. *)
Definition inj_map (sl : gmap Z nat) : Prop :=
  ∀ fd fd' i, sl !! fd = Some i → sl !! fd' = Some i → fd = fd'.

Lemma slots_inj hi : wf hi → inj_map (slots hi).
Proof. intros H fd fd' i. by apply it_inj. Qed.

Lemma mconns_update sl cs chs fd i c ms : inj_map sl → sl !! fd = Some i →
  i < length cs → i < length chs →
  mconns sl (<[i := c]> cs) (<[i := ms]> chs) =
  <[fd := abs_conn c (abs_buf (buffer c) ms)]> (mconns sl cs chs).
Proof.
  intros Hinj Hfd Hc Hms. apply map_eq. intros fd'. rewrite mconns_lookup.
  destruct (decide (fd' = fd)) as [->|Hne].
  - rewrite lookup_insert_eq, Hfd. simpl. by rewrite !list_lookup_insert_eq.
  - rewrite lookup_insert_ne, mconns_lookup by done.
    destruct (sl !! fd') as [j|] eqn:Hj; [|done]. simpl.
    assert (i ≠ j) by (intros ->; apply Hne; by eapply Hinj).
    by rewrite !list_lookup_insert_ne.
Qed.

Lemma mconns_other sl cs chs i c ms : (∀ fd, sl !! fd ≠ Some i) →
  mconns sl (<[i := c]> cs) (<[i := ms]> chs) = mconns sl cs chs.
Proof.
  intros Hn. apply map_eq. intros fd. rewrite !mconns_lookup.
  destruct (sl !! fd) as [j|] eqn:Hj; [|done]. simpl. assert (i ≠ j) by (intros ->; by eapply Hn). by rewrite !list_lookup_insert_ne.
Qed.

Lemma mconns_insert sl cs chs fd i c ms : cs !! i = Some c → chs !! i = Some ms →
  mconns (<[fd := i]> sl) cs chs =
  <[fd := abs_conn c (abs_buf (buffer c) ms)]> (mconns sl cs chs).
Proof.
  intros Hc Hms. apply map_eq. intros fd'. rewrite mconns_lookup.
  destruct (decide (fd' = fd)) as [->|Hne].
  - rewrite !lookup_insert_eq. simpl. by rewrite Hc, Hms.
  - by rewrite !lookup_insert_ne, mconns_lookup.
Qed.

Lemma mconns_delete sl cs chs fd : mconns (delete fd sl) cs chs = delete fd (mconns sl cs chs).
Proof.
  apply map_eq. intros fd'. rewrite mconns_lookup. destruct (decide (fd' = fd)) as [->|Hne].
  - by rewrite !lookup_delete_eq.
  - by rewrite !lookup_delete_ne, mconns_lookup.
Qed.

Lemma mconns_size ext w chs fl : ginv ext w chs fl →
  size (abs_conns w) = size (slots (g_hash (w_gate w))).
Proof.
  intros H. rewrite (abs_conns_mconns _ _ _ _ H), <- !size_dom. f_equal.
  apply set_eq. intros fd. rewrite !elem_of_dom, mconns_lookup.
  destruct (slots _ !! fd) as [i|] eqn:Hi; [|by split; intros []]. simpl.
  destruct (ginv_slot _ _ _ _ _ _ H Hi) as [c Hc].
  destruct (ginv_focus _ _ _ _ _ _ H Hc) as (ms&Hms&_). rewrite Hc, Hms. by split; eauto.
Qed.

(** The connection of a socket, concretely. *)
Lemma abs_conns_lookup ext w chs fl fd : ginv ext w chs fl →
  match slots (g_hash (w_gate w)) !! fd with
  | None => abs_conns w !! fd = None
  | Some i => ∃ c ms, conn (w_gate w) !! i = Some c ∧ chs !! i = Some ms ∧
      abs_conns w !! fd = Some (abs_conn c (abs_buf (buffer c) ms))
  end.
Proof.
  intros H. rewrite (abs_conns_mconns _ _ _ _ H), mconns_lookup.
  destruct (slots _ !! fd) as [i|] eqn:Hi; [|done]. simpl.
  destruct (ginv_slot _ _ _ _ _ _ H Hi) as [c Hc].
  destruct (ginv_focus _ _ _ _ _ _ H Hc) as (ms&Hms&_).
  exists c, ms. rewrite Hc, Hms. done.
Qed.

(** ** The abstract handlers *)

Section GateSpec.
Context `{SK : Skynet}.

Definition spec_route (s : sgate) (c : sconn) : option (list byte → event) :=
  let t := Z.lor (sg_tag s) PTYPE_TAG_DONTCOPY in
  if negb (sg_broker s =? 0)%Z then Some (EvSend 0 (sg_broker s) t 0)
  else if negb (s_agent c =? 0)%Z then Some (EvSend (s_client c) (s_agent c) t 0)
  else if negb (sg_watchdog s =? 0)%Z then
    Some (λ p, EvSend 0 (sg_watchdog s) t 0 (fmt_d (s_id c) ++ [SPACE] ++ p))
  else None.

Definition report_events (watchdog : Z) (text : list byte) : list event :=
  if (watchdog =? 0)%Z then [] else [EvSend 0 watchdog PTYPE_TEXT 0 (be_bytes 4 19 ++ text)].

(** [bs] arrives on the socket [fd]. *)
Definition spec_data (fd : Z) (bs : list byte) (s : sgate) : sgate :=
  match sg_conns s !! fd with
  | None => sp_emit [EvSocketClose fd] s
  | Some c =>
    let route := spec_route s c in
    let '(ps, a, closed) :=
      parse (bool_decide (is_Some route)) ((s_buf c).1, (s_buf c).2 ++ bs) in
    sp_emit
      (match route with Some f => f <$> ps | None => [] end ++
       (if closed then [EvSocketClose fd; EvError "Recv socket message > 16M" []] else []))
      (sp_conns (<[fd := SConn (s_id c) (s_agent c) (s_client c) (s_name c) a]> (sg_conns s)) s)
  end.

(** A peer named [name] was accepted as the socket [fd]. *)
Definition spec_accept (fd : Z) (name : list byte) (s : sgate) : sgate :=
  if decide (size (sg_conns s) = sg_cap s) then sp_emit [EvSocketClose fd] s
  else
    let stored := copy_name (replicate REMOTE_NAME_SIZE NUL) name in
    sp_emit
      (report_events (sg_watchdog s)
        (bytes "gate accept " ++ fmt_d fd ++ [SPACE] ++ default [] (until_nul stored)) ++
       [EvError "socket open: %d" [ArgZ fd]])
      (sp_conns (<[fd := SConn fd 0 0 stored (0%Z, [])]> (sg_conns s)) s).

(** The socket [fd] was closed, or failed. *)
Definition spec_close (fd : Z) (s : sgate) : sgate :=
  match sg_conns s !! fd with
  | None => s
  | Some c =>
    sp_emit
      (EvError "socket close: %d, msg id:%d" [ArgZ (s_id c); ArgZ fd] ::
       report_events (sg_watchdog s)
        (bytes "gate close " ++ fmt_d fd ++ [SPACE] ++ fmt_u (s_agent c)))
      (sp_conns (delete fd (sg_conns s)) s)
  end.

(** The socket [fd] is connected. *)
Definition spec_connect (fd : Z) (s : sgate) : sgate :=
  if (fd =? sg_listen s)%Z then sp_emit [EvError "listen ok" []] s
  else match sg_conns s !! fd with
  | None => sp_emit [EvSocketClose fd] s
  | Some c => sp_emit [EvSend 0 (s_agent c) PTYPE_TEXT 0
      (fmt_u 318767104 ++ bytes " connected " ++ fmt_d fd)] s
  end.

(** The socket a client message is for: its last four bytes, little-endian. *)
Definition msg_uid (msg : list byte) : Z :=
  s32 (be_value (reverse (drop (length msg - 4) msg))).

Definition spec_client (msg : list byte) (source : Z) (s : sgate) : Z * sgate :=
  if decide (length msg ≤ 4) then
    (0%Z, sp_emit [EvError "Invalid client message from %x" [ArgZ source]] s)
  else
    let uid := msg_uid msg in
    match sg_conns s !! uid with
    | Some _ => (1%Z, sp_emit [EvError "uid is %d" [ArgZ uid];
        EvError "gate accept client msg uid = %d" [ArgZ uid];
        EvSocketSend uid (take (length msg - 4) msg)] s)
    | None => (0%Z, sp_emit [EvError "uid is %d" [ArgZ uid];
        EvError "Invalid client id %d from %x" [ArgZ uid; ArgZ source]] s)
    end.

(** ** The handlers implement them *)

Definition good (ext : list loc) (w : world) : Prop := ∃ chs fl, ginv ext w chs fl.

Lemma abs_gate_trace evs w : abs_gate (add_trace evs w) = sp_emit evs (abs_gate w).
Proof. done. Qed.

Lemma route_spec w c a : route (w_gate w) c = spec_route (abs_gate w) (abs_conn c a).
Proof. done. Qed.

Lemma is_routed_spec w c a :
  is_routed (w_gate w) c = bool_decide (is_Some (spec_route (abs_gate w) (abs_conn c a))).
Proof.
  unfold is_routed. rewrite (route_spec w c a).
  destruct (spec_route _ _); [by rewrite bool_decide_eq_true_2|].
  rewrite bool_decide_eq_false_2; [done|]. by intros [].
Qed.

(** Freeing a block of the environment. *)
Lemma ginv_free ext b w chs fl t : ginv (ext ++ [b]) w chs fl →
  ginv ext (World (w_gate w) (set_blocks (delete b (blocks (w_heap w))) (w_heap w)) t) chs fl.
Proof.
  intros H. pose proof H as [????????? Hown Hbl ?].
  assert (E : (ext ++ [b]) ++ bufs (concat chs) ≡ₚ b :: ext ++ bufs (concat chs))
    by solve_Permutation.
  rewrite E in Hown. apply NoDup_cons in Hown as [Hb Hown].
  constructor; simpl; try done.
  - by eapply fchain_ext; [|done].
  - eapply Forall2_impl_lookup; [done|]. intros j c ms Hc Hms [Hch ??]. constructor; try done.
    eapply mchain_ext; [|done]. intros r Hr. split; [done|]. simpl.
    rewrite lookup_delete_ne; [done|]. intros ->. apply Hb. apply elem_of_app. right.
    destruct (concat_focus _ _ _ Hms) as (rest&Ec&_). rewrite Ec, fmap_app.
    apply elem_of_app. left. by apply list_elem_of_fmap_2.
  - intros b'. destruct (decide (b' = b)) as [->|Hne].
    + rewrite lookup_delete_eq. split; [by intros []|done].
    + rewrite lookup_delete_ne, Hbl, E by done. set_solver.
Qed.

Lemma abs_gate_parts ext w chs fl : ginv ext w chs fl →
  abs_gate w = SGate (listen_id (w_gate w)) (watchdog (w_gate w)) (broker (w_gate w))
    (client_tag (w_gate w)) (bind (w_gate w)) (table_cap (g_hash (w_gate w)))
    (mconns (slots (g_hash (w_gate w))) (conn (w_gate w)) chs) (w_trace w).
Proof. intros H. unfold abs_gate. by rewrite (abs_conns_mconns _ _ _ _ H). Qed.

Lemma on_data_wp ext w fd b bs tail : good (ext ++ [b]) w →
  blocks (w_heap w) !! b = Some bs →
  (∀ c, abs_conns w !! fd = Some c →
    (Z.of_nat (length (s_buf c).2 + length bs) ≤ int_max)%Z) →
  wp (on_data (SocketMessage SOCKET_DATA fd (Z.of_nat (length bs)) (Some b) tail))
    (λ _ w', good ext w' ∧ abs_gate w' = spec_data fd bs (abs_gate w)) w.
Proof.
  intros (chs&fl&H) Hb Hfit. pose proof (gi_hash _ _ _ _ H) as Hwf.
  pose proof (abs_conns_lookup _ _ _ _ fd H) as Hl.
  unfold on_data, spec_data. cbn [sm_id sm_buffer sm_ud]. repeat g_step.
  cbn [sg_conns abs_gate]. destruct (slots _ !! fd) as [i|] eqn:Hi; simpl slot_int.
  - destruct Hl as (c&ms&Hc&Hms&Hl). rewrite Hl.
    rewrite (proj2 (Z.leb_le 0 _)) by lia. specialize (Hfit _ Hl). simpl in Hfit.
    eapply wp_mono; [by eapply dispatch_message_wp|].
    intros _ w' (s'&ms'&fl'&->&Hinv&Ha). split; [by eexists _, _|].
    etrans; [exact (abs_gate_parts _ _ _ _ Hinv)|].
    cbn [s_buf abs_conn abs_buf fst snd]. rewrite (is_routed_spec w c (abs_buf (buffer c) ms)) in Ha.
    unfold dispatch_events. rewrite (is_routed_spec w c (abs_buf (buffer c) ms)).
    rewrite (route_spec w c (abs_buf (buffer c) ms)). cbn [abs_conn] in Ha |- *.
    set (r := parse _ _) in Ha |- *. destruct r as [[ps a] cl]. simpl in Ha.
    simpl. unfold sp_emit, sp_conns, abs_gate. simpl. f_equal.
    rewrite (mconns_update _ _ _ fd); [| by apply slots_inj|done|by eapply lookup_lt_Some..].
    cbn [buffer set_buffer]. by rewrite Ha, (abs_conns_mconns _ _ _ _ H).
  - rewrite Hl. simpl. repeat g_step. unfold free_buffer. repeat g_step. simpl. rewrite Hb.
    g_step. pose proof (ginv_free _ _ _ _ _ (w_trace w ++ [EvSocketClose fd]) H) as H'.
    split; [by eexists _, _|]. etrans; [exact (abs_gate_parts _ _ _ _ H')|].
    unfold sp_emit, abs_gate. simpl. by rewrite (abs_conns_mconns _ _ _ _ H).
Qed.

(** [_report] of a text that fits its buffer. *)
Lemma report_wp text (Q : unit → world → Prop) w : length text ≤ 1020 →
  Q tt (add_trace (report_events (watchdog (w_gate w)) text) w) → wp (_report text) Q w.
Proof.
  intros Hl HQ. unfold _report, report_events in *. repeat g_step.
  destruct (_ =? _)%Z; [g_step; by rewrite add_trace_nil in HQ|].
  rewrite decide_True by lia. by apply wp_emit.
Qed.

(** The array of the name and the string in it. *)
Lemma copy_name_cstr old tail : length old = REMOTE_NAME_SIZE →
  ∃ s, until_nul (copy_name old tail) = Some s ∧ length s < REMOTE_NAME_SIZE.
Proof.
  intros Hl. destruct (until_nul_some (copy_name old tail)) as (s&->&Hs).
  { unfold copy_name. set_solver. }
  exists s. split; [done|]. unfold copy_name, REMOTE_NAME_SIZE in *.
  rewrite !length_app, length_take, length_drop in Hs. simpl in Hs. lia.
Qed.

Lemma wp_insert_id fd i hi (Q : Z → world → Prop) w :
  hashid_insert (g_hash (w_gate w)) fd = Ok (i, hi) →
  Q i (World (set_hash hi (w_gate w)) (w_heap w) (w_trace w)) → wp (Gate.insert_id fd) Q w.
Proof. intros E HQ. unfold Gate.insert_id. repeat g_step. by rewrite E. Qed.

Lemma wp_remove_id fd i hi (Q : Z → world → Prop) w :
  hashid_remove (g_hash (w_gate w)) fd = Ok (i, hi) →
  Q i (World (set_hash hi (w_gate w)) (w_heap w) (w_trace w)) → wp (remove_id fd) Q w.
Proof. intros E HQ. unfold remove_id. repeat g_step. by rewrite E. Qed.

Lemma accept_world_inv ext w chs fl i fd hi name : ginv ext w chs fl → wf hi →
  table_cap hi = table_cap (g_hash (w_gate w)) → i < table_cap (g_hash (w_gate w)) →
  slots (g_hash (w_gate w)) !! fd = None →
  (∀ fd', slots (g_hash (w_gate w)) !! fd' ≠ Some i) →
  slots hi = <[fd := i]> (slots (g_hash (w_gate w))) →
  conn (w_gate w) !! i = Some idle_connection ∧ chs !! i = Some [] ∧
  let c := set_remote_name name (set_c_id fd idle_connection) in
  ginv ext (World (set_conn (<[i := c]> (conn (w_gate w))) (set_hash hi (w_gate w)))
    (w_heap w) (w_trace w)) chs fl.
Proof.
  intros H Hwf Hcap Hi Hfd Hfree Hs. pose proof H as [? Hlen ????? Hbufs ??? Hidle].
  destruct (lookup_lt_is_Some_2 (conn (w_gate w)) i) as [c Hc]; [lia|].
  destruct (Hidle i c Hc) as [[fd' ?]| ->]; [by edestruct Hfree|].
  destruct (Forall2_lookup_l _ _ _ _ _ Hbufs Hc) as (ms&Hms&[Hch _ _]).
  assert (ms = []) as -> by (by destruct ms as [|? ?]; [|destruct Hch as (?&_)]).
  split_and!; [done..|].
  eapply (ginv_conn _ (World (set_hash hi (w_gate w)) (w_heap w) (w_trace w)) _ _ i);
    [by eapply ginv_insert|done|done|]. exists fd. simpl. by rewrite Hs, lookup_insert_eq.
Qed.

Lemma on_accept_wp ext w fd m : good ext w → sm_id m = listen_id (w_gate w) → sm_ud m = fd →
  (size (abs_conns w) ≠ table_cap (g_hash (w_gate w)) →
    id_ok (table_cap (g_hash (w_gate w))) fd ∧ abs_conns w !! fd = None) →
  wp (on_accept m)
    (λ _ w', good ext w' ∧ abs_gate w' = spec_accept fd (sm_tail m) (abs_gate w)) w.
Proof.
  intros (chs&fl&H) Hid Hud Hok. pose proof (gi_hash _ _ _ _ H) as Hwf.
  pose proof (mconns_size _ _ _ _ H) as Hsize.
  unfold on_accept, spec_accept. cbn [sg_conns sg_cap abs_gate]. rewrite Hsize in Hok |- *.
  repeat g_step. apply wp_assert; [by rewrite Hid; apply bool_decide_eq_true_2|].
  rewrite Hud, it_full by done. case_bool_decide as Hf; case_decide; try done.
  { apply wp_emit. split; [|done]. exists chs, fl. by apply ginv_trace. }
  destruct (Hok Hf) as [Hfdok Hnone]. pose proof (abs_conns_lookup _ _ _ _ fd H) as Hl.
  destruct (slots _ !! fd) as [?|] eqn:Hfd; [destruct Hl as (?&?&_&_&?); congruence|].
  pose proof (it_size (g_hash (w_gate w)) Hwf) as Hle.
  destruct (it_insert (g_hash (w_gate w)) fd Hwf Hfdok Hfd) as (i&hi&Ei&Hwf'&Hcap&Hi&Hfree&Hs);
    [lia|].
  g_step. eapply wp_insert_id; [done|]. g_step.
  set (name := copy_name (replicate REMOTE_NAME_SIZE NUL) (sm_tail m)).
  destruct (accept_world_inv ext w chs fl i fd hi name) as (Hc&Hms&Hinv); [done..|].
  apply (wp_get_conn i idle_connection); [done|]. cbn [remote_name idle_connection set_c_id zero_connection].
  fold name. g_step. apply wp_put_conn; [by eapply lookup_lt_Some|]. simpl.
  destruct (copy_name_cstr (replicate REMOTE_NAME_SIZE NUL) (sm_tail m)) as (s&Es&Hslen); [done|].
  fold name in Es. repeat g_step. unfold cstr. rewrite drop_0, Es. cbn [safely default from_option id].
  g_step. apply report_wp.
  { pose proof (fmt_d_length fd). unfold REMOTE_NAME_SIZE in Hslen.
    simpl. rewrite !length_app. simpl. lia. }
  repeat g_step. rewrite add_trace_add. split; [eexists _, _; by apply ginv_trace|].
  rewrite abs_gate_trace. etrans; [apply f_equal, (abs_gate_parts _ _ _ _ Hinv)|].
  unfold sp_emit, sp_conns, abs_gate. simpl. f_equal; [done|].
  rewrite Hs. erewrite (mconns_insert _ _ _ fd i);
    [|apply list_lookup_insert_eq; by eapply lookup_lt_Some|done].
  rewrite (abs_conns_mconns _ _ _ _ H).
  rewrite <- (mconns_other _ (conn (w_gate w)) chs i
    (set_remote_name name (set_c_id fd idle_connection)) []) by done.
  by rewrite (list_insert_id chs).
Qed.

Lemma on_close_wp ext w m : good ext w →
  wp (on_close m) (λ _ w', good ext w' ∧ abs_gate w' = spec_close (sm_id m) (abs_gate w)) w.
Proof.
  intros (chs&fl&H). pose proof (gi_hash _ _ _ _ H) as Hwf.
  pose proof (abs_conns_lookup _ _ _ _ (sm_id m) H) as Hl.
  destruct (it_remove (g_hash (w_gate w)) (sm_id m) Hwf) as (hi&Er&Hwf'&Hcap&Hs).
  unfold on_close, spec_close. cbn [sg_conns abs_gate]. g_step. eapply wp_remove_id; [done|].
  destruct (slots (g_hash (w_gate w)) !! sm_id m) as [i|] eqn:Hi; simpl slot_int.
  2:{ rewrite Hl. simpl. apply wp_ret. rewrite delete_id in Hs by done.
      assert (Hinv : ginv ext (World (set_hash hi (w_gate w)) (w_heap w) (w_trace w)) chs fl).
      { destruct H. constructor; simpl; rewrite ?Hs, ?Hcap; done. }
      split; [by eexists _, _|]. etrans; [exact (abs_gate_parts _ _ _ _ Hinv)|].
      rewrite (abs_gate_parts _ _ _ _ H). simpl. by rewrite Hs, Hcap. }
  destruct Hl as (c&ms&Hc&Hms&->). rewrite (proj2 (Z.leb_le 0 _)) by lia. cbn [when].
  destruct (ginv_focus _ _ _ _ _ _ H Hc) as (ms0&?&[Hq Hsz]). simplify_eq.
  g_step. apply (wp_get_conn i c); [done|]. repeat g_step.
  apply (wp_on_buffer i c); [done|]. eapply wp_mono; [eapply (clear_wp _ ms fl Hq)|].
  intros _ s' (fl'&Hinv'&Hd'&Hf'). g_step.
  apply wp_put_conn; [simpl; rewrite length_insert; by eapply lookup_lt_Some|].
  apply report_wp.
  { pose proof (fmt_d_length (sm_id m)). pose proof (fmt_u_length (agent c)).
    rewrite !length_app. simpl. lia. }
  assert (Hb : ginv ext (buf_world w i c s') (<[i := []]> chs) fl').
  { eapply (ginv_buffer []); [by rewrite app_nil_r|done..|by eexists|done|exact Hf']. }
  simpl in Hf', Hinv'.
  assert (Hnil : (<[i:=[]]> chs) !! i = Some ([] : list mref))
    by (apply list_lookup_insert_eq; by eapply lookup_lt_Some).
  pose proof (ginv_remove ext (buf_world w i c s') _ fl' (sm_id m) i hi
    (w_trace w ++ EvError "socket close: %d, msg id:%d" [ArgZ (c_id c); ArgZ (sm_id m)] ::
       report_events (watchdog (w_gate w))
        (bytes "gate close " ++ fmt_d (sm_id m) ++ [SPACE] ++ fmt_u (agent c)))
    Hb Hwf' Hcap Hi Hs Hnil) as Hfin.
  unfold add_trace. simpl. rewrite <- app_assoc. split; [by eexists _, _|].
  etrans; [exact (abs_gate_parts _ _ _ _ Hfin)|]. unfold sp_emit, sp_conns, abs_gate. simpl.
  rewrite Hcap. f_equal. rewrite Hs, mconns_delete, list_insert_insert_eq.
  rewrite (abs_conns_mconns _ _ _ _ H), <- !mconns_delete. apply mconns_other.
  intros fd' Hfd'. apply lookup_delete_Some in Hfd' as [Hne Hfd']. apply Hne.
  by eapply (it_inj (g_hash (w_gate w))).
Qed.

Lemma on_connect_wp ext w m : good ext w →
  wp (on_connect m) (λ _ w', good ext w' ∧ abs_gate w' = spec_connect (sm_id m) (abs_gate w)) w.
Proof.
  intros (chs&fl&H). pose proof (gi_hash _ _ _ _ H) as Hwf.
  assert (Hev : ∀ evs, good ext (add_trace evs w) ∧ abs_gate (add_trace evs w) = sp_emit evs (abs_gate w)).
  { intros evs. split; [|done]. exists chs, fl. by apply ginv_trace. }
  pose proof (abs_conns_lookup _ _ _ _ (sm_id m) H) as Hl.
  unfold on_connect, spec_connect. cbn [sg_conns sg_listen abs_gate]. repeat g_step.
  destruct (_ =? _)%Z; [apply wp_error, Hev|]. repeat g_step.
  destruct (slots _ !! _) as [i|] eqn:Hi; simpl slot_int.
  - destruct Hl as (c&ms&Hc&Hms&->). rewrite (proj2 (Z.ltb_ge _ 0)) by lia.
    g_step. apply (wp_get_conn i c); [done|]. apply wp_emit, Hev.
  - rewrite Hl. simpl. apply wp_emit, Hev.
Qed.

(** The shifts of [_cb] compute the little-endian value of the last four bytes. *)
Lemma client_uid_ok msg : 4 < length msg →
  ∃ uid, client_uid msg = Ok uid ∧ s32 uid = msg_uid msg.
Proof.
  intros Hl. unfold msg_uid. set (n := length msg - 4) in *.
  assert (Hsplit : msg = take n msg ++ drop n msg) by (by rewrite take_drop).
  assert (Ht : length (take n msg) = n) by (rewrite length_take; lia).
  destruct (drop n msg) as [|b0 [|b1 [|b2 [|b3 [|? ?]]]]] eqn:Ed;
    try (apply (f_equal length) in Ed; rewrite length_drop in Ed; simpl in Ed; lia).
  assert (Hget : ∀ k b, [b0; b1; b2; b3] !! k = Some b → k < 4 →
    aget msg (Z.of_nat (length msg) - 4 + Z.of_nat k) = Ok b).
  { intros k b Hk Hk4. apply aget_in; [lia|]. replace (Z.to_nat _) with (n + k) by lia.
    rewrite Hsplit, lookup_app_r by lia. rewrite Ht. by replace (n + k - n) with k by lia. }
  unfold client_uid. pose proof (Hget 0 b0 eq_refl ltac:(lia)) as E0.
  pose proof (Hget 1 b1 eq_refl ltac:(lia)) as E1. pose proof (Hget 2 b2 eq_refl ltac:(lia)) as E2.
  pose proof (Hget 3 b3 eq_refl ltac:(lia)) as E3.
  replace (Z.of_nat (length msg) - 4 + Z.of_nat 0)%Z with (Z.of_nat (length msg) - 4)%Z in E0 by lia.
  replace (Z.of_nat (length msg) - 4 + Z.of_nat 1)%Z with (Z.of_nat (length msg) - 3)%Z in E1 by lia.
  replace (Z.of_nat (length msg) - 4 + Z.of_nat 2)%Z with (Z.of_nat (length msg) - 2)%Z in E2 by lia.
  replace (Z.of_nat (length msg) - 4 + Z.of_nat 3)%Z with (Z.of_nat (length msg) - 1)%Z in E3 by lia.
  rewrite E0, E1, E2, E3. cbn [mbind res_bind]. eexists. split; [done|].
  pose proof (byteZ_range b0). pose proof (byteZ_range b1).
  pose proof (byteZ_range b2). pose proof (byteZ_range b3).
  assert (Ev : Z.lor (Z.lor (Z.lor (byteZ b0) (Z.shiftl (byteZ b1) 8)) (Z.shiftl (byteZ b2) 16))
    (Z.shiftl (byteZ b3) 24) = be_value (reverse [b0; b1; b2; b3])).
  { rewrite (Z.lor_comm _ (Z.shiftl (byteZ b3) 24)), (Z.lor_comm _ (Z.shiftl (byteZ b2) 16)),
      (Z.lor_comm _ (Z.shiftl (byteZ b1) 8)).
    rewrite (lor_shiftl_add (byteZ b1) (byteZ b0) 8) by lia. change (2 ^ 8)%Z with 256%Z.
    rewrite (lor_shiftl_add (byteZ b2) _ 16) by (change (2 ^ 16)%Z with 65536%Z; lia).
    change (2 ^ 16)%Z with 65536%Z.
    rewrite (lor_shiftl_add (byteZ b3) _ 24) by (change (2 ^ 24)%Z with 16777216%Z; lia).
    change (2 ^ 24)%Z with 16777216%Z. unfold be_value. simpl. lia. }
  rewrite Ev, u32_id; [done|]. unfold be_value. simpl. lia.
Qed.

Lemma on_client_wp ext w msg source : good ext w →
  wp (on_client msg source) (λ r w', good ext w' ∧
    (r, abs_gate w') = spec_client msg source (abs_gate w)) w.
Proof.
  intros (chs&fl&H). pose proof (gi_hash _ _ _ _ H) as Hwf.
  assert (Hev : ∀ r evs, good ext (add_trace evs w) ∧
    (r, abs_gate (add_trace evs w)) = (r, sp_emit evs (abs_gate w)) :> Z * sgate).
  { intros r evs. split; [|done]. exists chs, fl. by apply ginv_trace. }
  unfold on_client, spec_client. cbn [sg_conns abs_gate].
  case_decide as Hm; [repeat g_step; apply Hev|]. g_step.
  destruct (client_uid_ok msg) as (uid&->&Eu); [lia|]. g_step. simpl. rewrite Eu.
  pose proof (abs_conns_lookup _ _ _ _ (msg_uid msg) H) as Hl. repeat g_step.
  cbn [w_gate add_trace]. destruct (slots _ !! msg_uid msg) as [i|] eqn:Hi; simpl slot_int.
  - destruct Hl as (c&ms&Hc&Hms&->). rewrite (proj2 (Z.leb_le 0 _)) by lia.
    repeat g_step. rewrite !add_trace_add. apply Hev.
  - rewrite Hl. simpl. repeat g_step. rewrite !add_trace_add. apply Hev.
Qed.
End GateSpec.
