(* ===== verification/GateCtrl.v ===== *)
(** * GateCtrl: the text commands of the gate

    The argument of a command is what [_parm] leaves at the start of the buffer.
    A command printed from its abstract syntax is parsed back by [_ctrl] and does
    what the abstract gate does; and whatever the text is, a run of [_ctrl] that
    ends preserves the invariant. *)
From S2P Require Import Prelude IdTable HashId Bytes DataBuffer CString Gate GateInv GateDispatch GateSpec.
From stdpp Require Import gmap list strings.
From Stdlib Require Import ZArith Strings.Byte.

(** ** The argument of a command *)

Fixpoint strip (l : list byte) : list byte :=
  match l with
  | b :: l' => if decide (b = SPACE) then strip l' else l
  | [] => []
  end.

Lemma strip_length l : length (strip l) ≤ length l.
Proof. induction l as [|b l IH]; simpl; [lia|]. case_decide; simpl; lia. Qed.

Lemma strip_drop l : strip l = drop (length l - length (strip l)) l.
Proof.
  induction l as [|b l IH]; simpl; [done|]. case_decide as Hb.
  - pose proof (strip_length l). replace (S (length l) - _) with (S (length l - length (strip l))) by lia.
    done.
  - simpl. by rewrite Nat.sub_diag.
Qed.

Lemma parm_skip_ok msg : ∀ left cs, cs + left ≤ length msg →
  parm_skip left msg (Z.of_nat cs) =
  Ok (Z.of_nat (cs + left - length (strip (take left (drop cs msg))))).
Proof.
  induction left as [|left IH]; intros cs Hl; cbn [parm_skip].
  { rewrite take_0. simpl. f_equal. lia. }
  destruct (lookup_lt_is_Some_2 msg cs) as [b Hb]; [lia|].
  rewrite (aget_nat _ _ _ Hb), (drop_S _ _ _ Hb). cbn [mbind res_bind firstn strip].
  case_decide as E.
  - replace (Z.of_nat cs + 1)%Z with (Z.of_nat (S cs)) by lia.
    rewrite IH by lia. do 2 f_equal. lia.
  - cbn [length]. rewrite length_take, length_drop. f_equal. lia.
Qed.

Lemma parm_shift_ok : ∀ left msg cs i, cs ≤ i → i + left < length msg →
  parm_shift left msg (Z.of_nat cs) (Z.of_nat i) =
  Ok (take (i - cs) msg ++ take left (drop i msg) ++ NUL :: drop (S (i - cs + left)) msg).
Proof.
  induction left as [|left IH]; intros msg cs i Hc Hl; cbn [parm_shift];
    replace (Z.of_nat i - Z.of_nat cs)%Z with (Z.of_nat (i - cs)) by lia.
  - rewrite aset_nat by lia. rewrite insert_take_drop by lia.
    rewrite take_0, Nat.add_0_r. done.
  - destruct (lookup_lt_is_Some_2 msg i) as [b Hb]; [lia|].
    rewrite (aget_nat _ _ _ Hb). cbn [mbind res_bind]. rewrite aset_nat by lia.
    cbn [mbind res_bind]. replace (Z.of_nat i + 1)%Z with (Z.of_nat (S i)) by lia.
    rewrite IH by (rewrite ?length_insert; lia).
    rewrite !drop_insert_lt, (drop_S _ _ _ Hb) by lia.
    replace (S i - cs) with (S (i - cs)) by lia.
    rewrite (take_S_r _ _ b) by (apply list_lookup_insert_eq; lia).
    rewrite take_insert_ge by lia. rewrite <- app_assoc. simpl.
    by replace (i - cs + S left) with (S (i - cs + left)) by lia.
Qed.

(** [_parm] moves what follows the first [i] bytes and the spaces after them to
    the start, and ends it with a NUL. *)
Lemma parm_ok tmp (i : nat) : i ≤ length tmp →
  _parm (tmp ++ [NUL]) (Z.of_nat (length tmp)) (Z.of_nat i) =
  Ok (strip (drop i tmp) ++ NUL :: drop (S (length (strip (drop i tmp)))) (tmp ++ [NUL])).
Proof.
  intros Hi. pose proof (strip_length (drop i tmp)) as Hs. rewrite length_drop in Hs.
  unfold _parm. replace (Z.to_nat _) with (length tmp - i) by lia.
  rewrite parm_skip_ok by (rewrite length_app; simpl; lia).
  rewrite drop_app_le by lia. rewrite take_app_le by (rewrite length_drop; lia).
  rewrite (take_ge (drop i tmp)) by (rewrite length_drop; lia).
  set (arg := strip (drop i tmp)) in *. cbn [mbind res_bind].
  replace (i + (length tmp - i) - length arg) with (length tmp - length arg) by lia.
  rewrite parm_shift_ok by (rewrite ?length_app; simpl; lia).
  rewrite Nat.sub_diag. replace (Z.to_nat _) with (length arg) by lia. rewrite take_0.
  rewrite drop_app_le by lia. rewrite take_app_le by (rewrite length_drop; lia).
  rewrite take_ge by (rewrite length_drop; lia).
  assert (drop (length tmp - length arg) tmp = arg) as ->; [|done].
  unfold arg. rewrite (strip_drop (drop i tmp)) at 2. rewrite drop_drop, length_drop.
  fold arg. f_equal. lia.
Qed.

Lemma strip_plain l : Forall plain l → strip l = l.
Proof. intros H. destruct H as [|b l [_ Hb] _]; simpl; [done|]. by rewrite decide_False. Qed.

(** The argument of the command [word ++ " " ++ arg]. *)
Lemma parm_arg word arg : strip arg = arg → ∃ rest,
  _parm ((word ++ SPACE :: arg) ++ [NUL]) (Z.of_nat (length (word ++ SPACE :: arg)))
    (Z.of_nat (length word)) = Ok (arg ++ NUL :: rest).
Proof.
  intros Hs. eexists. rewrite parm_ok by (rewrite length_app; lia).
  rewrite drop_app_length. simpl. by rewrite Hs.
Qed.

(** ** Commands *)

Inductive command :=
  | Kick (uid : Z)
  | Start (uid : Z)
  | Forward (id : Z) (agent client : list byte)     (* the handles in hexadecimal *)
  | Broker (name : list byte)
  | CloseListen
  | Connect (ip : list byte) (port : Z)
  | Listen.

Definition print_command (cmd : command) : list byte :=
  match cmd with
  | Kick uid => bytes "kick" ++ SPACE :: fmt_d uid
  | Start uid => bytes "start" ++ SPACE :: fmt_d uid
  | Forward id a c =>
    bytes "forward" ++ SPACE :: fmt_d id ++ SPACE :: (x3a :: a) ++ SPACE :: x3a :: c
  | Broker name => bytes "broker" ++ SPACE :: name
  | CloseListen => bytes "close"
  | Connect ip port => bytes "connect" ++ SPACE :: ip ++ SPACE :: fmt_d port
  | Listen => bytes "listen"
  end.

(** The sizes are those of the arrays [ip] and [port] of [_ctrl]. *)
Definition command_wf (cmd : command) : Prop :=
  match cmd with
  | Kick uid | Start uid => (int_min ≤ uid ≤ int_max)%Z
  | Forward id a c => (int_min ≤ id ≤ int_max)%Z ∧ Forall plain a ∧ Forall plain c
  | Broker name => (NUL ∉ name) ∧ strip name = name
  | Connect ip port =>
    Forall plain ip ∧ ip ≠ [] ∧ length ip < 100 ∧ (int_min ≤ port ≤ int_max)%Z
  | CloseListen | Listen => True
  end.

#[global] Instance command_wf_dec cmd : Decision (command_wf cmd).
Proof. destruct cmd; simpl; apply _. Defined.

(** The host and the port of an address, and the array once the colon was
    overwritten. *)
Definition addr_parts (addr : list byte) : list byte * Z * list byte :=
  let s := default [] (until_nul addr) in
  match index_of x3a s with
  | None => ([], strtol_int s, addr)
  | Some k => (take k s, strtol_int (drop (S k) s), <[k := NUL]> addr)
  end.

Section GateCtrl.
Context `{SK : Skynet}.

(** *** The abstract commands *)

Definition sp_listen v (s : sgate) : sgate :=
  SGate v (sg_watchdog s) (sg_broker s) (sg_tag s) (sg_bind s) (sg_cap s) (sg_conns s) (sg_trace s).
Definition sp_broker v (s : sgate) : sgate :=
  SGate (sg_listen s) (sg_watchdog s) v (sg_tag s) (sg_bind s) (sg_cap s) (sg_conns s) (sg_trace s).
Definition sp_bind v (s : sgate) : sgate :=
  SGate (sg_listen s) (sg_watchdog s) (sg_broker s) (sg_tag s) v (sg_cap s) (sg_conns s) (sg_trace s).

Definition set_s_agent (a cl : Z) (c : sconn) : sconn := SConn (s_id c) a cl (s_name c) (s_buf c).

(** [slot] is what the log shows of the hash table. *)
Definition spec_agent (slot fd a cl : Z) (s : sgate) : sgate :=
  sp_emit [EvError "_forward_agent id = %d" [ArgZ slot]]
    (sp_conns (alter (set_s_agent a cl) fd (sg_conns s)) s).

(** The result of [start_listen], the array of the address and the gate. *)
Definition spec_start_listen (addr : list byte) (s : sgate) : Z * list byte * sgate :=
  let '(host, port, addr') := addr_parts addr in
  if (port <=? 0)%Z then
    (1%Z, addr, sp_emit [EvError "Invalid gate address %s" [ArgS (default [] (until_nul addr))]] s)
  else
    let lid := skynet_socket_listen (sg_trace s) host port BACKLOG in
    let s1 := sp_listen lid (sp_emit [EvSocketListen host port BACKLOG] s) in
    if (lid <? 0)%Z then (1%Z, addr', s1)
    else (0%Z, addr', sp_emit [EvSocketStart lid;
      EvError "start listen address %s" [ArgS (default [] (until_nul addr'))]] s1).

Definition spec_command (slot : Z) (cmd : command) (source : Z) (s : sgate) : sgate :=
  match cmd with
  | Kick uid => if decide (is_Some (sg_conns s !! uid)) then sp_emit [EvSocketClose uid] s else s
  | Start uid => if decide (is_Some (sg_conns s !! uid)) then sp_emit [EvSocketStart uid] s else s
  | Forward id a c =>
    let ah := u32 (strtoul16 a) in
    let ch := u32 (strtoul16 c) in
    spec_agent slot id ah ch
      (sp_emit [EvError "forward i  = %d" [ArgZ 7]; EvError "forward id  = %d" [ArgZ id];
        EvError "forward agent_handle = %u" [ArgZ ah];
        EvError "forward client_handle = %u" [ArgZ ch]] s)
  | Broker name =>
    sp_broker (skynet_queryname (sg_trace s) name) (sp_emit [EvQueryName name] s)
  | CloseListen =>
    if (0 <=? sg_listen s)%Z then sp_listen (-1) (sp_emit [EvSocketClose (sg_listen s)] s) else s
  | Connect ip port =>
    if decide (size (sg_conns s) = sg_cap s) then s
    else
      let fd := skynet_socket_connect (sg_trace s) ip port in
      let s1 := sp_emit [EvSocketConnect ip port] s in
      let c := SConn (-1) source 0 (replicate REMOTE_NAME_SIZE NUL) (0%Z, []) in
      sp_emit [EvError "_forward_agent id = %d" [ArgZ slot];
               EvError "connect to %s port %d" [ArgS ip; ArgZ port]]
        (sp_conns (<[fd := c]> (sg_conns s1)) s1)
  | Listen =>
    let '(_, addr', s') := spec_start_listen (sg_bind s) s in sp_bind addr' s'
  end.

(** *** The pieces of a command line *)

Lemma strip_head b l : b ≠ SPACE → strip (b :: l) = b :: l.
Proof. intros H. simpl. by rewrite decide_False. Qed.

Lemma strip_plain_app s l : Forall plain s → s ≠ [] → strip (s ++ l) = s ++ l.
Proof. intros H Hs. destruct H as [|b s [_ Hb] _]; [done|]. by apply strip_head. Qed.

Lemma strsep_split pre s1 s2 rest : SPACE ∉ s1 → NUL ∉ s1 → NUL ∉ s2 →
  strsep (pre ++ s1 ++ SPACE :: s2 ++ NUL :: rest) (length pre) =
  Ok (pre ++ s1 ++ NUL :: s2 ++ NUL :: rest, Some (length pre + length s1 + 1)).
Proof.
  intros H1 H2 H3. unfold strsep.
  replace (pre ++ s1 ++ SPACE :: s2 ++ NUL :: rest) with
    (pre ++ (s1 ++ SPACE :: s2) ++ NUL :: rest) by (by rewrite <- app_assoc).
  rewrite cstr_drop by (try done; unfold SPACE, NUL in *; set_solver). cbn [mbind res_bind].
  rewrite index_of_app by done. do 2 f_equal.
  rewrite insert_app_r, <- app_assoc, <- (Nat.add_0_r (length s1)), insert_app_r. done.
Qed.

Lemma skip_blanks_none fuel tmp (p : nat) b rest : drop p tmp = b :: rest → b ≠ SPACE →
  skip_blanks (S fuel) tmp (Z.of_nat p) = Ok (Z.of_nat p).
Proof.
  intros Hd Hb. cbn [skip_blanks]. rewrite (aget_nat _ _ b).
  - simpl. by rewrite decide_False by tauto.
  - rewrite <- (Nat.add_0_r p), <- lookup_drop, Hd. done.
Qed.

Lemma skip_blanks_one fuel tmp (p : nat) b rest : drop p tmp = SPACE :: b :: rest → b ≠ SPACE →
  skip_blanks (S (S fuel)) tmp (Z.of_nat p) = Ok (Z.of_nat (S p)).
Proof.
  intros Hd Hb. unfold skip_blanks; fold skip_blanks. rewrite (aget_nat _ _ SPACE).
  - simpl. replace (Z.of_nat p + 1)%Z with (Z.of_nat (S p)) by lia.
    apply (skip_blanks_none fuel tmp (S p) b rest); [|done].
    rewrite <- Nat.add_1_r, <- drop_drop, Hd. done.
  - rewrite <- (Nat.add_0_r p), <- lookup_drop, Hd. done.
Qed.

Lemma copy_word_ok tmp size stop rest : ¬ plain stop → ∀ word fuel (p : nat) dst,
  drop p tmp = word ++ stop :: rest → Forall plain word → length word < fuel →
  length dst + length word < size →
  copy_word fuel tmp (Z.of_nat p) size dst = Ok (dst ++ word, Z.of_nat (p + length word)).
Proof.
  intros Hstop. induction word as [|b word IH]; intros [|fuel] p dst Hd Hw Hf Hs;
    simpl in *; try lia; unfold copy_word; fold copy_word.
  - rewrite (aget_nat _ _ stop) by (rewrite <- (Nat.add_0_r p), <- lookup_drop, Hd; done).
    simpl. rewrite decide_False, decide_True by (try lia; exact Hstop).
    by rewrite app_nil_r, Nat.add_0_r.
  - apply Forall_cons in Hw as [Hb Hw].
    rewrite (aget_nat _ _ b) by (rewrite <- (Nat.add_0_r p), <- lookup_drop, Hd; done).
    simpl. rewrite !decide_True by (try lia; exact Hb).
    replace (Z.of_nat p + 1)%Z with (Z.of_nat (S p)) by lia.
    rewrite (IH fuel (S p)); [|by rewrite <- Nat.add_1_r, <- drop_drop, Hd|done|lia|
      rewrite length_app; simpl; lia].
    rewrite <- app_assoc. do 3 f_equal. lia.
Qed.

(** *** The steps the commands share *)

Lemma forward_agent_wp ext w fd a cl : good ext w →
  wp (_forward_agent fd a cl) (λ _ w', good ext w' ∧
    ∃ slot, abs_gate w' = spec_agent slot fd a cl (abs_gate w)) w.
Proof.
  intros (chs&fl&H). pose proof (gi_hash _ _ _ _ H) as Hwf.
  pose proof (abs_conns_lookup _ _ _ _ fd H) as Hl.
  unfold _forward_agent, spec_agent. repeat g_step. cbn [sg_conns abs_gate].
  destruct (slots _ !! fd) as [i|] eqn:Hi; simpl slot_int.
  - destruct Hl as (c&ms&Hc&Hms&Hl). rewrite (proj2 (Z.leb_le 0 _)) by lia. cbn [when].
    g_step. apply (wp_get_conn i c); [done|]. apply wp_put_conn; [by eapply lookup_lt_Some|].
    pose proof (ginv_conn ext w chs fl i c (set_agent a cl c)
      (w_trace w ++ [EvError "_forward_agent id = %d" [ArgZ (Z.of_nat i)]]) H Hc eq_refl
      (ex_intro _ fd Hi)) as Hinv.
    split; [by eexists _, _|]. exists (Z.of_nat i). etrans; [exact (abs_gate_parts _ _ _ _ Hinv)|].
    unfold sp_emit, sp_conns, abs_gate. simpl. f_equal.
    rewrite <- (list_insert_id chs i ms) at 1 by done.
    rewrite (mconns_update _ _ _ fd);
      [|by apply slots_inj|done|by eapply lookup_lt_Some..].
    rewrite <- (abs_conns_mconns _ _ _ _ H). apply map_eq. intros k.
    destruct (decide (k = fd)) as [->|Hne].
    + by rewrite lookup_insert_eq, lookup_alter_eq, Hl.
    + by rewrite lookup_insert_ne, lookup_alter_ne.
  - simpl. apply wp_ret. split; [eexists _, _; by apply ginv_trace|]. exists (-1)%Z.
    rewrite abs_gate_trace. unfold sp_emit, sp_conns, abs_gate. simpl. f_equal.
    apply map_eq. intros k. destruct (decide (k = fd)) as [->|Hne].
    + by rewrite lookup_alter_eq, Hl.
    + by rewrite lookup_alter_ne.
Qed.

Lemma insert_id_wp ext w fd : good ext w → size (abs_conns w) ≠ table_cap (g_hash (w_gate w)) →
  id_ok (table_cap (g_hash (w_gate w))) fd → abs_conns w !! fd = None →
  wp (Gate.insert_id fd) (λ _ w', good ext w' ∧
    abs_gate w' = sp_conns (<[fd := SConn (-1) 0 0 (replicate REMOTE_NAME_SIZE NUL) (0%Z, [])]>
      (abs_conns w)) (abs_gate w)) w.
Proof.
  intros (chs&fl&H) Hf Hfdok Hnone. pose proof (gi_hash _ _ _ _ H) as Hwf.
  rewrite (mconns_size _ _ _ _ H) in Hf.
  pose proof (abs_conns_lookup _ _ _ _ fd H) as Hl.
  destruct (slots _ !! fd) as [?|] eqn:Hfd; [destruct Hl as (?&?&_&_&?); congruence|].
  pose proof (it_size (g_hash (w_gate w)) Hwf) as Hle.
  destruct (it_insert (g_hash (w_gate w)) fd Hwf Hfdok Hfd) as (i&hi&Ei&Hwf'&Hcap&Hi&Hfree&Hs);
    [lia|].
  eapply wp_insert_id; [done|].
  destruct (accept_world_inv ext w chs fl i fd hi []) as (Hc&Hms&_); [done..|].
  pose proof (ginv_insert ext w chs fl fd i hi H Hwf' Hcap Hfd Hs) as Hinv.
  split; [by eexists _, _|]. etrans; [exact (abs_gate_parts _ _ _ _ Hinv)|].
  unfold sp_conns, abs_gate. simpl. f_equal; [done|].
  rewrite Hs, (mconns_insert _ _ _ fd i _ _ Hc Hms). by rewrite (abs_conns_mconns _ _ _ _ H).
Qed.

(** A change of the fields the invariant does not mention. *)
Lemma good_gate ext w g t : good ext w →
  g_hash g = g_hash (w_gate w) → conn g = conn (w_gate w) → mp g = mp (w_gate w) →
  header_size g = header_size (w_gate w) → max_connection g = max_connection (w_gate w) →
  good ext (World g (w_heap w) t).
Proof. intros (chs&fl&H) ?????. exists chs, fl. by eapply ginv_gate. Qed.

Lemma good_trace ext w evs : good ext w → good ext (add_trace evs w).
Proof. intros (chs&fl&H). exists chs, fl. by apply ginv_trace. Qed.

Lemma until_nul_drop l s k : until_nul l = Some s → k ≤ length s →
  until_nul (drop k l) = Some (drop k s).
Proof.
  revert s k. induction l as [|b l IH]; intros s k Hu Hk; simpl in *; [done|].
  case_decide as Hb; simplify_eq.
  { simpl in Hk. by replace k with 0 by lia. }
  destruct (until_nul l) as [s'|] eqn:E; simplify_eq/=. destruct k as [|k]; simpl in *.
  - rewrite decide_False, E by done. done.
  - apply IH; [done|lia].
Qed.

Lemma until_nul_cut l s k : until_nul l = Some s → k < length s →
  until_nul (<[k := NUL]> l) = Some (take k s).
Proof.
  revert s k. induction l as [|b l IH]; intros s k Hu Hk; simpl in *; [done|].
  case_decide as Hb; simplify_eq; [simpl in Hk; lia|].
  destruct (until_nul l) as [s'|] eqn:E; simplify_eq/=. destruct k as [|k]; simpl in *; [done|].
  rewrite decide_False by done. by rewrite (IH s' k) by (done || lia).
Qed.

Lemma index_of_lt c s k : index_of c s = Some k → k < length s.
Proof.
  revert k. induction s as [|b s IH]; intros k H; simpl in *; [done|].
  case_decide; simplify_eq; [lia|]. destruct (index_of c s) as [k'|]; simplify_eq/=.
  specialize (IH k' eq_refl). lia.
Qed.

Lemma listen_at_wp ext w host port addr s : good ext w → until_nul addr = Some s →
  wp (listen_at host port addr) (λ r w', good ext w' ∧
    let lid := skynet_socket_listen (w_trace w) host port BACKLOG in
    let s1 := sp_listen lid (sp_emit [EvSocketListen host port BACKLOG] (abs_gate w)) in
    (r, abs_gate w') =
      if (lid <? 0)%Z then (1%Z, addr, s1)
      else (0%Z, addr, sp_emit [EvSocketStart lid; EvError "start listen address %s" [ArgS s]] s1)) w.
Proof.
  intros H Hs. unfold listen_at. repeat g_step.
  destruct (_ <? 0)%Z; repeat g_step.
  - split; [|done]. by eapply (good_gate ext w).
  - unfold cstr. rewrite drop_0, Hs. simpl. repeat g_step. split.
    + by eapply (good_gate ext w).
    + unfold sp_emit, sp_listen, abs_gate. simpl. by rewrite <- !app_assoc.
Qed.

Lemma cstr_ok l k s : until_nul (drop k l) = Some s → cstr l k = Ok s.
Proof. unfold cstr. by intros ->. Qed.

Lemma start_listen_wp ext w addr : good ext w → NUL ∈ addr →
  wp (start_listen addr) (λ r w', good ext w' ∧
    (r, abs_gate w') = spec_start_listen addr (abs_gate w)) w.
Proof.
  intros H (s&Hs&Hlen)%until_nul_some. unfold start_listen, spec_start_listen, addr_parts.
  rewrite Hs. rewrite (cstr_ok addr 0 s) by done. g_step. g_step. simpl.
  destruct (index_of x3a s) as [k|] eqn:Hk.
  - pose proof (index_of_lt _ _ _ Hk) as Hlt. g_step. replace (k + 1) with (S k) by lia.
    rewrite (cstr_ok _ _ (drop (S k) s)) by (apply until_nul_drop; done || lia). g_step. simpl.
    destruct (_ <=? 0)%Z; [repeat g_step; split; [by apply good_trace|done]|].
    g_step. rewrite (cstr_ok _ 0 (take k s)) by (by apply until_nul_cut). g_step. simpl.
    eapply wp_mono; [eapply listen_at_wp; [done|by apply until_nul_cut]|].
    intros r w' [? ->]. split; [done|]. by rewrite (until_nul_cut _ s).
  - destruct (_ <=? 0)%Z; [repeat g_step; split; [by apply good_trace|done]|].
    eapply wp_mono; [by eapply listen_at_wp|]. intros r w' [? ->]. split; [done|].
    by rewrite Hs.
Qed.

(** *** The commands *)

(** The keyword selects the branch. *)
Lemma ctrl_word arg source w :
  let run word := _ctrl (bytes word ++ SPACE :: arg) source w in
  let tmp word := (bytes word ++ SPACE :: arg) ++ [NUL] in
  let sz word := Z.of_nat (length (bytes word ++ SPACE :: arg)) in
  run "kick" = ctrl_kick (tmp "kick") (sz "kick") 4 w ∧
  run "forward" = ctrl_forward (tmp "forward") (sz "forward") 7 w ∧
  run "broker" = ctrl_broker (tmp "broker") (sz "broker") 6 w ∧
  run "start" = ctrl_start (tmp "start") (sz "start") 5 w ∧
  run "connect" = ctrl_connect (tmp "connect") 7 source w.
Proof. repeat split. Qed.

Lemma ctrl_bare source w :
  _ctrl (bytes "close") source w = ctrl_close w ∧ _ctrl (bytes "listen") source w = ctrl_listen w.
Proof. by split. Qed.

Lemma wp_eq {A} (m m' : M world A) (Q : A → world → Prop) w : m w = m' w → wp m' Q w → wp m Q w.
Proof. unfold wp. by intros ->. Qed.

(** The common part of [kick] and [start]. *)
Lemma ctrl_uid_wp ext w word uid (ev : Z → event) (i : Z) : good ext w →
  i = Z.of_nat (length word) → (int_min ≤ uid ≤ int_max)%Z →
  wp (tmp ← lift (_parm ((word ++ SPACE :: fmt_d uid) ++ [NUL])
        (Z.of_nat (length (word ++ SPACE :: fmt_d uid))) i);
      s ← lift (cstr tmp 0);
      let uid := strtol_int s in
      id ← lookup_id uid;
      when (0 <=? id)%Z (emit (ev uid)))
    (λ _ w', good ext w' ∧ abs_gate w' =
      if decide (is_Some (abs_conns w !! uid)) then sp_emit [ev uid] (abs_gate w)
      else abs_gate w) w.
Proof.
  intros H -> Huid. destruct (parm_arg word (fmt_d uid)) as [rest ->].
  { apply strip_plain, fmt_d_plain. }
  g_step. g_step. simpl. g_step. rewrite cstr_app by apply plain_not_nul, fmt_d_plain.
  g_step. simpl. rewrite strtol_fmt_d by done. pose proof H as (chs&fl&Hi).
  pose proof (gi_hash _ _ _ _ Hi) as Hwf. pose proof (abs_conns_lookup _ _ _ _ uid Hi) as Hl.
  repeat g_step. destruct (slots _ !! uid) as [i|] eqn:E; simpl slot_int.
  - destruct Hl as (c&ms&_&_&Hl). rewrite (proj2 (Z.leb_le 0 _)) by lia. apply wp_emit.
    rewrite decide_True by (rewrite Hl; eauto). split; [by apply good_trace|done].
  - rewrite decide_False by (rewrite Hl; by intros []). done.
Qed.

(** What skynet is asked to promise when the gate connects here: an id that the table
    accepts and does not hold.  A gate that is full does not connect. *)
Definition connect_ok (ip : list byte) (port : Z) (w : world) : Prop :=
  size (abs_conns w) ≠ table_cap (g_hash (w_gate w)) →
  let fd := skynet_socket_connect (w_trace w) ip port in
  id_ok (table_cap (g_hash (w_gate w))) fd ∧ abs_conns w !! fd = None.

(** It is asked for the command [connect] alone. *)
Definition command_ok (cmd : command) (w : world) : Prop :=
  match cmd with Connect ip port => connect_ok ip port w | _ => True end.

(** The address that a text connects to: its word begins [connect], and not [close]. *)
Definition text_connect (msg : list byte) : option (list byte * Z) :=
  let tmp := msg ++ [NUL] in
  let i := default (length msg) (index_of SPACE msg) in
  let fuel := S (length tmp) in
  match memcmp_eq tmp (bytes "close" ++ [NUL]) i, memcmp_eq tmp (bytes "connect" ++ [NUL]) i with
  | Ok false, Ok true =>
    match
      p ← skip_blanks fuel tmp (Z.of_nat i + 1);
      '(ip, p) ← copy_word fuel tmp p 100 [];
      p ← skip_blanks fuel tmp p;
      '(port, _) ← copy_word fuel tmp p 50 [];
      Ok (ip, atoi port)
    with
    | Ok a => Some a
    | Fault _ => None
    end
  | _, _ => None
  end.

Definition text_ok (msg : list byte) (w : world) : Prop :=
  match text_connect msg with Some (ip, port) => connect_ok ip port w | None => True end.

(** The words of the argument of [forward], as the steps of [ctrl_forward] find them. *)
Lemma forward_words (d a c rest : list byte) :
  Forall plain d → Forall plain (x3a :: a) → Forall plain (x3a :: c) →
  let t1 := d ++ NUL :: (x3a :: a) ++ SPACE :: (x3a :: c) ++ NUL :: rest in
  let t2 := (d ++ [NUL]) ++ (x3a :: a) ++ NUL :: (x3a :: c) ++ NUL :: rest in
  strsep ((d ++ SPACE :: (x3a :: a) ++ SPACE :: x3a :: c) ++ NUL :: rest) 0 =
    Ok (t1, Some (length d + 1)) ∧
  strsep t1 (length d + 1) = Ok (t2, Some (length d + 1 + S (length a) + 1)) ∧
  cstr t2 (length d + 1 + 1) = Ok a ∧
  cstr t2 (length d + 1 + S (length a) + 1 + 1) = Ok c.
Proof.
  intros Hd Hpa Hpc.
  assert (Hsp : ∀ s, Forall plain s → SPACE ∉ s).
  { intros s Hs Hin. rewrite Forall_forall in Hs. by destruct (Hs _ Hin). }
  pose proof (plain_not_nul _ Hd) as Hdn.
  pose proof (plain_not_nul _ Hpa) as Hpan. pose proof (plain_not_nul _ Hpc) as Hpcn.
  set (fields := (x3a :: a) ++ SPACE :: x3a :: c).
  assert (Hf : fields ++ NUL :: rest = (x3a :: a) ++ SPACE :: (x3a :: c) ++ NUL :: rest)
    by (unfold fields; by rewrite <- app_assoc).
  intros t1 t2. split; [|split; [|split]].
  - unfold t1. rewrite <- Hf, <- app_assoc.
    apply (strsep_split [] d fields rest); [by apply Hsp|done|].
    unfold fields, NUL, SPACE in *. set_solver.
  - pose proof (strsep_split (d ++ [NUL]) (x3a :: a) (x3a :: c) rest) as E2.
    rewrite length_app, <- app_assoc in E2. apply E2; [by apply Hsp|done..].
  - replace t2 with ((d ++ [NUL; x3a]) ++ a ++ NUL :: (x3a :: c) ++ NUL :: rest)
      by (unfold t2; rewrite <- !app_assoc; done).
    apply cstr_drop; [rewrite length_app; simpl; lia|set_solver].
  - replace t2 with ((d ++ [NUL] ++ (x3a :: a) ++ [NUL; x3a]) ++ c ++ NUL :: rest)
      by (unfold t2; by rewrite <- !app_assoc).
    apply cstr_drop; [repeat (rewrite length_app; simpl); lia|set_solver].
Qed.

Lemma ctrl_forward_wp ext w id a c : good ext w → command_wf (Forward id a c) →
  let arg := fmt_d id ++ SPACE :: (x3a :: a) ++ SPACE :: x3a :: c in
  wp (ctrl_forward ((bytes "forward" ++ SPACE :: arg) ++ [NUL])
      (Z.of_nat (length (bytes "forward" ++ SPACE :: arg))) 7)
    (λ _ w', good ext w' ∧ ∃ slot, abs_gate w' = spec_command slot (Forward id a c) 0 (abs_gate w)) w.
Proof.
  intros H (Hid&Ha&Hc) arg. pose proof (fmt_d_plain id) as Hd.
  destruct (parm_arg (bytes "forward") arg) as [rest E].
  { apply strip_plain_app; [done|apply fmt_d_nonempty]. }
  change (Z.of_nat (length (bytes "forward"))) with 7%Z in E.
  destruct (forward_words (fmt_d id) a c rest) as (E1&E2&E3&E4);
    [done|by constructor; [split|]..|].
  unfold ctrl_forward. g_step. g_step. eapply wp_lift_bind; [exact E|].
  eapply wp_lift_bind; [exact E1|]. cbv beta iota.
  eapply wp_lift_bind; [by apply cstr_app, plain_not_nul|]. cbv beta zeta. rewrite strtol_fmt_d by done.
  g_step. g_step. eapply wp_lift_bind; [exact E2|]. cbv beta iota.
  eapply wp_lift_bind; [exact E3|]. cbv beta zeta. g_step. g_step.
  eapply wp_lift_bind; [exact E4|]. cbv beta zeta. g_step. g_step. rewrite !add_trace_add.
  eapply wp_mono; [apply forward_agent_wp; by apply good_trace|].
  intros _ w' (?&slot&->). split; [done|]. exists slot. done.
Qed.

Lemma ctrl_broker_wp ext w name : good ext w → command_wf (Broker name) →
  wp (ctrl_broker ((bytes "broker" ++ SPACE :: name) ++ [NUL])
      (Z.of_nat (length (bytes "broker" ++ SPACE :: name))) 6)
    (λ _ w', good ext w' ∧ abs_gate w' = spec_command 0 (Broker name) 0 (abs_gate w)) w.
Proof.
  intros H [Hn Hs]. destruct (parm_arg (bytes "broker") name Hs) as [rest E].
  change (Z.of_nat (length (bytes "broker"))) with 6%Z in E.
  unfold ctrl_broker. eapply wp_lift_bind; [exact E|].
  eapply wp_lift_bind; [by apply cstr_app|]. repeat g_step. split; [|done].
  by eapply (good_gate ext w).
Qed.

(** The words of a connect command, as the steps of [ctrl_connect] find them. *)
Lemma connect_words ip d : Forall plain ip → ip ≠ [] → length ip < 100 →
  Forall plain d → d ≠ [] → length d < 50 →
  let tmp := (bytes "connect" ++ SPACE :: ip ++ SPACE :: d) ++ [NUL] in
  skip_blanks (S (length tmp)) tmp (7 + 1) = Ok (Z.of_nat 8) ∧
  copy_word (S (length tmp)) tmp (Z.of_nat 8) 100 [] = Ok (ip, Z.of_nat (8 + length ip)) ∧
  skip_blanks (S (length tmp)) tmp (Z.of_nat (8 + length ip)) = Ok (Z.of_nat (S (8 + length ip))) ∧
  copy_word (S (length tmp)) tmp (Z.of_nat (S (8 + length ip))) 50 [] =
    Ok (d, Z.of_nat (S (8 + length ip) + length d)).
Proof.
  intros Hip Hip0 Hipl Hd Hd0 Hdl tmp.
  assert (Htl : length tmp = 10 + length ip + length d).
  { unfold tmp. simpl. rewrite !length_app. simpl. lia. }
  assert (D1 : drop 8 tmp = ip ++ SPACE :: d ++ [NUL]).
  { unfold tmp. simpl. by rewrite <- app_assoc. }
  assert (D2 : drop (8 + length ip) tmp = SPACE :: d ++ [NUL])
    by (by rewrite <- drop_drop, D1, drop_app_length).
  assert (D3 : drop (S (8 + length ip)) tmp = d ++ [NUL])
    by (by rewrite <- Nat.add_1_r, <- drop_drop, D2).
  assert (Hstop : (¬ plain SPACE) ∧ ¬ plain NUL) by (unfold plain; tauto).
  split; [|split; [|split]].
  - destruct ip as [|b ip]; [done|]. apply Forall_cons in Hip as [[_ Hb] _].
    by eapply (skip_blanks_none _ _ 8).
  - apply (copy_word_ok tmp 100 SPACE (d ++ [NUL]) (proj1 Hstop) ip _ 8 []);
      [done|done|lia|change (length ([] : list byte)) with 0; lia].
  - destruct d as [|b l]; [done|]. apply Forall_cons in Hd as [[_ Hb] _].
    rewrite Htl. by eapply (skip_blanks_one _ _ (8 + length ip)).
  - apply (copy_word_ok tmp 50 NUL [] (proj2 Hstop) d _ (S (8 + length ip)) []);
      [done|done|lia|change (length ([] : list byte)) with 0; lia].
Qed.

Lemma ctrl_connect_wp ext w ip port source : good ext w → connect_ok ip port w →
  command_wf (Connect ip port) →
  wp (ctrl_connect ((bytes "connect" ++ SPACE :: ip ++ SPACE :: fmt_d port) ++ [NUL]) 7 source)
    (λ _ w', good ext w' ∧ ∃ slot,
      abs_gate w' = spec_command slot (Connect ip port) source (abs_gate w)) w.
Proof.
  intros H Hok (Hip&Hip0&Hipl&Hport). pose proof (fmt_d_length port) as Hdl.
  destruct (connect_words ip (fmt_d port)) as (E1&E2&E3&E4);
    [done|done|lia|apply fmt_d_plain|apply fmt_d_nonempty|lia|].
  set (tmp := _ ++ [NUL]) in *.
  unfold ctrl_connect, atoi. eapply wp_lift_bind; [exact E1|].
  eapply wp_lift_bind; [exact E2|]. cbv beta iota. eapply wp_lift_bind; [exact E3|].
  eapply wp_lift_bind; [exact E4|]. cbv beta zeta. cbn [fst]. rewrite strtol_fmt_d by done.
  unfold spec_command. cbn [sg_conns sg_cap abs_gate]. pose proof H as (chs&fl&Hi).
  pose proof (mconns_size _ _ _ _ Hi) as Hsize. pose proof (gi_hash _ _ _ _ Hi) as Hwf.
  g_step. g_step. rewrite it_full, <- Hsize by done.
  case_bool_decide as Hf; [apply wp_ret; split; [done|]; exists 0%Z; by rewrite decide_True|].
  g_step. g_step. g_step. g_step. g_step.
  destruct (Hok Hf) as [Hid Hnone].
  eapply wp_mono; [by apply (insert_id_wp ext); [apply good_trace|..]|].
  intros _ w1 [Hg1 Ha1]. g_step.
  eapply wp_mono; [by apply (forward_agent_wp ext)|]. intros _ w2 (Hg2&slot&Ha2).
  apply wp_error. split; [by apply good_trace|]. exists slot. rewrite decide_False by done.
  rewrite abs_gate_trace, Ha2, Ha1, abs_gate_trace. unfold spec_agent, sp_emit, sp_conns.
  simpl. rewrite <- !app_assoc. f_equal. apply map_eq. intros k.
  destruct (decide (k = skynet_socket_connect (w_trace w) ip port)) as [->|Hne].
  - by rewrite lookup_alter_eq, !lookup_insert_eq.
  - by rewrite lookup_alter_ne, !lookup_insert_ne.
Qed.

(** A printed command does what its abstract syntax says. *)
Lemma command_wp ext w cmd source : good ext w → NUL ∈ bind (w_gate w) → command_ok cmd w →
  command_wf cmd →
  wp (_ctrl (print_command cmd) source) (λ _ w', good ext w' ∧ ∃ slot,
    abs_gate w' = spec_command slot cmd source (abs_gate w)) w.
Proof.
  intros H Hb Hok Hc. destruct cmd as [uid|uid|id a c|name| |ip port|]; cbn [print_command].
  - destruct (ctrl_word (fmt_d uid) source w) as (E&_).
    eapply wp_eq; [exact E|]. clear E. eapply wp_mono.
    { by apply (ctrl_uid_wp ext w (bytes "kick") uid EvSocketClose). }
    intros _ w' [??]. split; [done|]. by exists 0%Z.
  - destruct (ctrl_word (fmt_d uid) source w) as (_&_&_&E&_).
    eapply wp_eq; [exact E|]. clear E. eapply wp_mono.
    { by apply (ctrl_uid_wp ext w (bytes "start") uid EvSocketStart). }
    intros _ w' [??]. split; [done|]. by exists 0%Z.
  - destruct (ctrl_word (fmt_d id ++ SPACE :: (x3a :: a) ++ SPACE :: x3a :: c) source w) as (_&E&_).
    eapply wp_eq; [exact E|]. clear E. by apply ctrl_forward_wp.
  - destruct (ctrl_word name source w) as (_&_&E&_).
    eapply wp_eq; [exact E|]. clear E. eapply wp_mono; [by apply ctrl_broker_wp|].
    intros _ w' [??]. split; [done|]. by exists 0%Z.
  - eapply wp_eq; [exact (proj1 (ctrl_bare source w))|]. unfold ctrl_close. repeat g_step. apply wp_when.
    + intros E. repeat g_step. split; [by eapply (good_gate ext w)|]. exists 0%Z.
      unfold spec_command. cbn [sg_listen abs_gate]. by rewrite E.
    + intros E. split; [done|]. exists 0%Z. unfold spec_command. cbn [sg_listen abs_gate].
      by rewrite E.
  - destruct (ctrl_word (ip ++ SPACE :: fmt_d port) source w) as (_&_&_&_&E).
    eapply wp_eq; [exact E|]. clear E. by apply ctrl_connect_wp.
  - eapply wp_eq; [exact (proj2 (ctrl_bare source w))|]. unfold ctrl_listen. repeat g_step.
    eapply wp_mono; [by apply start_listen_wp|]. intros [r addr] w' [Hg' E']. g_step.
    split; [by eapply (good_gate ext w')|]. exists 0%Z. simpl.
    unfold spec_command. cbn [sg_bind abs_gate]. rewrite <- E'. done.
Qed.

(** *** Any text *)

(** [wlp m Q w]: if [m] ends without a fault, then in [Q]. *)
Definition wlp {A} (m : M world A) (Q : A → world → Prop) (w : world) : Prop :=
  ∀ a w', m w = Ok (a, w') → Q a w'.

Lemma wlp_wp {A} (m : M world A) Q w : wp m Q w → wlp m Q w.
Proof. intros (a&w'&E&H)%wp_elim a' w'' E'. congruence. Qed.

Lemma wlp_bind {A B} (m : M world A) (k : A → M world B) Q w :
  wlp m (λ a w', wlp (k a) Q w') w → wlp (m ≫= k) Q w.
Proof.
  intros H b w'. unfold mbind, M_bind. destruct (m w) as [[a w1]|] eqn:E; [|done].
  intros E'. by eapply (H a w1).
Qed.

Lemma wlp_mono {A} (m : M world A) (Q Q' : A → world → Prop) w :
  wlp m Q w → (∀ a w', Q a w' → Q' a w') → wlp m Q' w.
Proof. intros H HQ a w' E. by apply HQ, H. Qed.

Lemma wlp_lift {A} (r : res A) (Q : A → world → Prop) w : (∀ a, Q a w) → wlp (lift r) Q w.
Proof. intros H a w'. unfold lift. destruct r; [|done]. by intros [= <- <-]. Qed.

Lemma wlp_lift_eq {A} (r : res A) (Q : A → world → Prop) w :
  (∀ a, r = Ok a → Q a w) → wlp (lift r) Q w.
Proof. intros H a w'. unfold lift. destruct r; [|done]. intros [= <- <-]. auto. Qed.

Lemma wlp_when b (m : M world unit) (Q : unit → world → Prop) w :
  wlp m Q w → Q tt w → wlp (when b m) Q w.
Proof. destruct b; [done|]. intros _ HQ a w' [= <- <-]. done. Qed.

(** The invariant, and what the commands need of the address of the gate. *)
Definition gate_ok (ext : list loc) (w : world) : Prop := good ext w ∧ NUL ∈ bind (w_gate w).

Lemma gate_ok_trace ext w evs : gate_ok ext w → gate_ok ext (add_trace evs w).
Proof. intros [H ?]. split; [by apply good_trace|done]. Qed.

Lemma gate_ok_change ext w g t : gate_ok ext w →
  g_hash g = g_hash (w_gate w) → conn g = conn (w_gate w) → mp g = mp (w_gate w) →
  header_size g = header_size (w_gate w) → max_connection g = max_connection (w_gate w) →
  NUL ∈ bind g → gate_ok ext (World g (w_heap w) t).
Proof. intros [H ?] ??????. split; [by eapply good_gate|done]. Qed.

(** The handlers do not write the address. *)
Lemma abs_gate_ok ext w w' s : NUL ∈ bind (w_gate w) → good ext w' → abs_gate w' = s →
  sg_bind s = bind (w_gate w) → gate_ok ext w'.
Proof. intros Hb Hg Ha Hs. split; [done|]. subst s. simpl in Hs. by rewrite Hs. Qed.

Lemma forward_agent_ok ext w fd a cl : gate_ok ext w →
  wlp (_forward_agent fd a cl) (λ _ w', gate_ok ext w') w.
Proof.
  intros [H Hb]. apply wlp_wp. eapply wp_mono; [by apply forward_agent_wp|].
  intros _ w' (?&slot&Ha). by eapply abs_gate_ok.
Qed.

Lemma lookup_id_ok ext w fd (Q : Z → world → Prop) : gate_ok ext w →
  (∀ id, Q id w) → wlp (lookup_id fd) Q w.
Proof.
  intros [(chs&fl&H) _] HQ. pose proof (gi_hash _ _ _ _ H). apply wlp_wp.
  by apply wp_lookup_id.
Qed.

(** The rules, on a goal whose state satisfies [gate_ok]. *)
Ltac k_step :=
  lazymatch goal with
  | |- wlp (mbind _ _) _ _ => apply wlp_bind
  | |- wlp (lift _) _ _ => apply wlp_lift; intros ?
  | |- wlp (mret _) _ _ => apply wlp_wp, wp_ret
  | |- wlp (gets _) _ _ => apply wlp_wp, wp_gets
  | |- wlp (emit _) _ _ => apply wlp_wp, wp_emit
  | |- wlp (skynet_error _ _) _ _ => apply wlp_wp, wp_error
  | |- wlp (upd_gate _) _ _ => apply wlp_wp, wp_upd_gate
  | |- wlp (when _ _) _ _ => apply wlp_when
  | |- wlp (lookup_id _) _ _ => eapply lookup_id_ok; [eauto using gate_ok_trace|intros ?]
  | |- wlp (let '(_, _) := ?p in _) _ _ => destruct p
  | |- wlp (match ?o with Some _ => _ | None => _ end) _ _ => destruct o
  | |- wlp (if ?b then _ else _) _ _ => destruct b
  end; cbv beta zeta.

Lemma ctrl_forward_ok ext w tmp sz i : gate_ok ext w →
  wlp (ctrl_forward tmp sz i) (λ _ w', gate_ok ext w') w.
Proof.
  intros H. unfold ctrl_forward. repeat k_step; eauto using gate_ok_trace.
  apply forward_agent_ok. eauto using gate_ok_trace.
Qed.

Lemma ctrl_connect_ok ext w msg source :
  let i := default (length msg) (index_of SPACE msg) in
  memcmp_eq (msg ++ [NUL]) (bytes "close" ++ [NUL]) i = Ok false →
  memcmp_eq (msg ++ [NUL]) (bytes "connect" ++ [NUL]) i = Ok true →
  gate_ok ext w → text_ok msg w →
  wlp (ctrl_connect (msg ++ [NUL]) (Z.of_nat i) source) (λ _ w', gate_ok ext w') w.
Proof.
  intros i E1 E2 [H Hb] Hok. pose proof H as (chs&fl&Hi). unfold ctrl_connect.
  unfold text_ok, text_connect in Hok. fold i in Hok. rewrite E1, E2 in Hok. cbv zeta in Hok.
  apply wlp_bind, wlp_lift_eq. intros p E0. rewrite E0 in Hok. cbn [mbind res_bind] in Hok.
  apply wlp_bind, wlp_lift_eq. intros [ip p1] E3. rewrite E3 in Hok. cbn [mbind res_bind] in Hok.
  apply wlp_bind, wlp_lift_eq. intros p2 E4. rewrite E4 in Hok. cbn [mbind res_bind] in Hok.
  apply wlp_bind, wlp_lift_eq. intros [port p3] E5. rewrite E5 in Hok. cbn [mbind res_bind] in Hok.
  do 2 k_step. cbn [fst].
  rewrite it_full, <- (mconns_size _ _ _ _ Hi) by apply (gi_hash _ _ _ _ Hi).
  case_bool_decide as Hf; [by k_step|]. do 4 k_step. k_step.
  destruct (Hok Hf) as [Hid Hnone]. apply wlp_wp. eapply wp_mono.
  { apply (insert_id_wp ext); [by apply good_trace|done..]. }
  intros _ w1 [Hg1 Ha1]. assert (H1 : gate_ok ext w1) by (by eapply abs_gate_ok).
  k_step. eapply wlp_mono; [by apply forward_agent_ok|]. intros u w2 H2. k_step.
  by apply gate_ok_trace.
Qed.

Lemma spec_start_listen_bind addr s : sg_bind (spec_start_listen addr s).2 = sg_bind s.
Proof.
  unfold spec_start_listen. by destruct (addr_parts _) as [[??]?]; repeat case_match.
Qed.

Lemma spec_start_listen_nul addr s : NUL ∈ addr → NUL ∈ (spec_start_listen addr s).1.2.
Proof.
  intros Hin. destruct (until_nul_some addr Hin) as (str&Hs&Hl).
  unfold spec_start_listen, addr_parts. rewrite Hs. simpl default.
  destruct (index_of x3a str) as [k|] eqn:Hk; cbv zeta; repeat case_match; try done;
    simpl; apply list_elem_of_lookup; exists k; apply list_lookup_insert_eq;
    pose proof (index_of_lt _ _ _ Hk); lia.
Qed.

(** A run of [_ctrl] that ends leaves a gate in order, whatever the text. *)
Lemma ctrl_ok ext w msg source : gate_ok ext w → text_ok msg w →
  wlp (_ctrl msg source) (λ _ w', gate_ok ext w') w.
Proof.
  intros H Hok. pose proof H as [Hg Hb]. unfold _ctrl, is_command. case_decide; [by k_step|].
  cbv zeta. k_step. k_step. k_step.
  { unfold ctrl_kick. repeat k_step; eauto using gate_ok_trace. }
  k_step. k_step. k_step; [by apply ctrl_forward_ok|].
  k_step. k_step. k_step.
  { unfold ctrl_broker. repeat k_step. by eapply (gate_ok_change ext w). }
  k_step. k_step. k_step.
  { unfold ctrl_start. repeat k_step; eauto using gate_ok_trace. }
  apply wlp_bind, wlp_lift_eq. intros [] E1.
  { unfold ctrl_close. repeat k_step; [by eapply (gate_ok_change ext w)|done]. }
  apply wlp_bind, wlp_lift_eq. intros [] E2; [by apply ctrl_connect_ok|].
  k_step. k_step. k_step.
  { unfold ctrl_listen. k_step. k_step. k_step. apply wlp_wp.
    eapply wp_mono; [by apply start_listen_wp|]. intros [r addr] w' [Hg' E]. k_step.
    eapply (gate_ok_change ext w'); try done; simpl.
    - split; [done|]. apply (f_equal (λ x, sg_bind x.2)) in E. simpl in E. rewrite E.
      by rewrite spec_start_listen_bind.
    - pose proof (spec_start_listen_nul _ (abs_gate w) Hb) as Hn. by rewrite <- E in Hn. }
  repeat k_step. by apply gate_ok_trace.
Qed.

Lemma copy_word_overflow tmp size stop rest : ¬ plain stop → ∀ word fuel (p : nat) dst,
  drop p tmp = word ++ stop :: rest → Forall plain word → length word < fuel →
  size ≤ length dst + length word →
  copy_word fuel tmp (Z.of_nat p) size dst = Fault FBounds.
Proof.
  intros Hstop. induction word as [|b word IH]; intros [|fuel] p dst Hd Hw Hf Ho; simpl in *;
    try lia; unfold copy_word; fold copy_word.
  - rewrite (aget_nat _ _ stop) by (rewrite <- (Nat.add_0_r p), <- lookup_drop, Hd; done).
    simpl. rewrite decide_False by exact Hstop. by rewrite decide_False by lia.
  - apply Forall_cons in Hw as [Hb Hw].
    rewrite (aget_nat _ _ b) by (rewrite <- (Nat.add_0_r p), <- lookup_drop, Hd; done).
    simpl. rewrite (decide_True (P := b ≠ NUL ∧ b ≠ SPACE)) by exact Hb.
    case_decide; [|done]. replace (Z.of_nat p + 1)%Z with (Z.of_nat (S p)) by lia.
    apply (IH fuel (S p)); [by rewrite <- Nat.add_1_r, <- drop_drop, Hd|done|lia|].
    rewrite length_app. simpl. lia.
Qed.

(** *** Theorems *)

(** [_parm] leaves at the start of the buffer, ended by a NUL, what follows the
    command word and the spaces after it, whatever the text. *)
Lemma parm_correct tmp (i : nat) : i ≤ length tmp →
  ∃ rest, _parm (tmp ++ [NUL]) (Z.of_nat (length tmp)) (Z.of_nat i) =
    Ok (strip (drop i tmp) ++ NUL :: rest) ∧
  length (strip (drop i tmp) ++ NUL :: rest) = length (tmp ++ [NUL]).
Proof.
  intros Hi. eexists. split; [by apply parm_ok|]. pose proof (strip_length (drop i tmp)) as Hs.
  rewrite length_drop in Hs. rewrite !length_app. simpl. rewrite length_drop, length_app. simpl. lia.
Qed.

(** C10: A command printed from its abstract syntax is parsed back by [_ctrl], does
    not fault, preserves the invariant and has the effect the abstract gate gives
    the command; the id of a new connection is one the table does not hold. *)
Theorem command_correct ext w cmd source : gate_ok ext w → command_ok cmd w → command_wf cmd →
  ∃ w' slot, _ctrl (print_command cmd) source w = Ok (tt, w') ∧ good ext w' ∧
    abs_gate w' = spec_command slot cmd source (abs_gate w).
Proof.
  intros [H Hb] Hok Hc.
  destruct (wp_elim _ _ _ (command_wp ext w cmd source H Hb Hok Hc)) as ([]&w'&E&Hg&slot&Ha).
  by exists w', slot.
Qed.

(** C32: Any text whatever, if [_ctrl] gets to its end, leaves the gate in order; when the
    text connects, the id of the connection has to be one the table does not hold. *)
Theorem ctrl_any_text ext w w' msg source : gate_ok ext w → text_ok msg w →
  _ctrl msg source w = Ok (tt, w') → gate_ok ext w'.
Proof. intros H Hok E. by apply (ctrl_ok ext w msg source H Hok tt w'). Qed.

(** [start_listen] parses "host:port" or "port" and listens there: its result,
    the calls it makes and the array it leaves are those of the specification. *)
Lemma start_listen_correct ext w addr : good ext w → NUL ∈ addr →
  ∃ r w', start_listen addr w = Ok (r, w') ∧ good ext w' ∧
    (r, abs_gate w') = spec_start_listen addr (abs_gate w).
Proof.
  intros H Hn. destruct (wp_elim _ _ _ (start_listen_wp ext w addr H Hn)) as (r&w'&E&?&?).
  by exists r, w'.
Qed.

(** Listening on "host:port" cuts the stored address at the colon: the next
    [start_listen] takes the digits of the host for the port of no host. *)
Lemma listen_again ext w addr host port : good ext w →
  until_nul addr = Some (host ++ x3a :: port) → x3a ∉ host → (0 < strtol_int port)%Z →
  ∃ r addr' w', start_listen addr w = Ok ((r, addr'), w') ∧ NUL ∈ addr' ∧
    addr_parts addr = (host, strtol_int port, addr') ∧
    addr_parts addr' = ([], strtol_int host, addr').
Proof.
  intros H Hs Hh Hp.
  assert (Hin : NUL ∈ addr).
  { clear -Hs. revert Hs. generalize (host ++ x3a :: port). induction addr as [|b l IH]; intros s E.
    - done.
    - simpl in E. case_decide as Eb; [subst; left|]. right. destruct (until_nul l); [by eapply IH|done]. }
  destruct (wp_elim _ _ _ (start_listen_wp ext w addr H Hin)) as ([r a]&w'&E&_&Ha).
  pose proof (spec_start_listen_nul addr (abs_gate w) Hin) as Hn.
  assert (Hparts : addr_parts addr = (host, strtol_int port, <[length host := NUL]> addr)).
  { unfold addr_parts. rewrite Hs. cbn [default from_option id]. rewrite index_of_app by done.
    by rewrite take_app_length, <- Nat.add_1_r, <- drop_drop, drop_app_length. }
  assert (a = <[length host := NUL]> addr) as ->.
  { apply (f_equal (λ x, x.1.2)) in Ha. simpl in Ha. rewrite Ha. unfold spec_start_listen.
    rewrite Hparts. rewrite (proj2 (Z.leb_gt _ 0)) by lia. by destruct (_ <? _)%Z. }
  rewrite <- Ha in Hn. exists r, (<[length host := NUL]> addr), w'. split_and!; [done..|].
  unfold addr_parts at 1.
  rewrite (until_nul_cut _ _ (length host) Hs) by (rewrite length_app; simpl; lia).
  cbn [default from_option id]. by rewrite take_app_length, index_of_None.
Qed.

(** The command word is compared over its own length only: every beginning of
    "kick", the empty one included, kicks. *)
Lemma kick_prefix ext w i uid source : good ext w → i ≤ 4 → (int_min ≤ uid ≤ int_max)%Z →
  ∃ w', _ctrl (take i (bytes "kick") ++ SPACE :: fmt_d uid) source w = Ok (tt, w') ∧
    abs_gate w' = spec_command 0 (Kick uid) source (abs_gate w).
Proof.
  intros H Hi Hu.
  assert (Hw : wp (_ctrl (take i (bytes "kick") ++ SPACE :: fmt_d uid) source)
    (λ _ w', good ext w' ∧ abs_gate w' =
      if decide (is_Some (abs_conns w !! uid)) then sp_emit [EvSocketClose uid] (abs_gate w)
      else abs_gate w) w).
  { eapply (wp_eq _ (ctrl_kick ((take i (bytes "kick") ++ SPACE :: fmt_d uid) ++ [NUL])
      (Z.of_nat (length (take i (bytes "kick") ++ SPACE :: fmt_d uid))) (Z.of_nat i))).
    - do 5 (destruct i as [|i]; [reflexivity|]). lia.
    - apply (ctrl_uid_wp ext w (take i (bytes "kick")) uid EvSocketClose); [done| |done].
      rewrite length_take. change (length (bytes "kick")) with 4. lia. }
  apply wp_elim in Hw as ([]&w'&E&_&Ha). by exists w'.
Qed.

(** "connect" without an argument, or with an address of 100 bytes or more,
    makes [_ctrl] leave the bounds of its arrays. *)
Lemma connect_out_of_bounds w source ip rest : Forall plain ip → 100 ≤ length ip →
  _ctrl (bytes "connect") source w = Fault FBounds ∧
  _ctrl (bytes "connect" ++ SPACE :: ip ++ SPACE :: rest) source w = Fault FBounds.
Proof.
  intros Hip Hl. split; [done|].
  destruct (ctrl_word (ip ++ SPACE :: rest) source w) as (_&_&_&_&E). cbv zeta in E. rewrite E.
  set (tmp := (bytes "connect" ++ SPACE :: ip ++ SPACE :: rest) ++ [NUL]).
  assert (D1 : drop 8 tmp = ip ++ SPACE :: rest ++ [NUL])
    by (unfold tmp; simpl; by rewrite <- app_assoc).
  assert (Hlen : length ip < length tmp).
  { apply (f_equal length) in D1. rewrite length_drop, length_app in D1. cbn [length] in D1. lia. }
  assert (E1 : skip_blanks (S (length tmp)) tmp (7 + 1) = Ok (Z.of_nat 8)).
  { destruct ip as [|b ip]; [simpl in Hl; lia|]. apply Forall_cons in Hip as [[_ Hb] _].
    by eapply (skip_blanks_none _ _ 8). }
  assert (E2 : copy_word (S (length tmp)) tmp (Z.of_nat 8) 100 [] = Fault FBounds).
  { apply (copy_word_overflow tmp 100 SPACE (rest ++ [NUL]) (λ H, proj2 H eq_refl) ip _ 8 []);
      [done|done|lia|exact Hl]. }
  unfold ctrl_connect. cbv zeta. unfold mbind at 1, M_bind at 1, lift at 1. rewrite E1.
  unfold mbind at 1, M_bind at 1, lift at 1. by rewrite E2.
Qed.

End GateCtrl.
