(* ===== verification/GateLife.v ===== *)
(** * GateLife: the gate from its initialisation to its release

    [gate_init] establishes the invariant, every message preserves it and is
    served without a fault as the abstract gate says, and [gate_release] frees the
    message pool but not the blocks still queued. *)
From S2P Require Import Prelude IdTable HashId Bytes DataBuffer CString Gate GateInv GateDispatch GateSpec GateCtrl.
From stdpp Require Import gmap list strings relations.
From Stdlib Require Import ZArith Strings.Byte.

(** ** Requests *)

(** The messages the gate serves. *)
Inductive request :=
  | RData (fd : Z) (bs : list byte)
  | RConnect (fd : Z)
  | RClose (fd : Z)
  | RError (fd : Z)
  | RAccept (lid fd : Z) (name : list byte)
  | RWarning (fd ud : Z)
  | RClient (msg : list byte) (source : Z)
  | RCommand (cmd : command) (source : Z).

(** skynet allocates the block of the bytes that arrived. *)
Definition malloc_block (bs : list byte) : M world loc := λ w,
  let b := fresh_loc (blocks (w_heap w)) in
  Ok (b, World (w_gate w) (set_blocks (<[b := bs]> (blocks (w_heap w))) (w_heap w)) (w_trace w)).

Section GateLife.
Context `{SK : Skynet}.

Definition serve (r : request) : M world Z :=
  match r with
  | RData fd bs =>
    b ← malloc_block bs;
    _cb (CbSocket (SocketMessage SOCKET_DATA fd (Z.of_nat (length bs)) (Some b) [])) 0
  | RConnect fd => _cb (CbSocket (SocketMessage SOCKET_CONNECT fd 0 None [])) 0
  | RClose fd => _cb (CbSocket (SocketMessage SOCKET_CLOSE fd 0 None [])) 0
  | RError fd => _cb (CbSocket (SocketMessage SOCKET_ERROR fd 0 None [])) 0
  | RAccept lid fd name => _cb (CbSocket (SocketMessage SOCKET_ACCEPT lid fd None name)) 0
  | RWarning fd ud => _cb (CbSocket (SocketMessage SOCKET_WARNING fd ud None [])) 0
  | RClient msg source => _cb (CbClient msg) source
  | RCommand cmd source => _cb (CbText (print_command cmd)) source
  end.

(** What the environment has to respect: a queue of at most [INT_MAX] bytes, an
    accept on the listening socket of an id the table can hold and does not, commands of
    the printed form, and for [connect] such an id too. *)
Definition request_ok (r : request) (w : world) : Prop :=
  match r with
  | RData fd bs => ∀ c, abs_conns w !! fd = Some c →
      (Z.of_nat (length (s_buf c).2 + length bs) ≤ int_max)%Z
  | RAccept lid fd _ => lid = listen_id (w_gate w) ∧
      (size (abs_conns w) ≠ table_cap (g_hash (w_gate w)) →
       id_ok (table_cap (g_hash (w_gate w))) fd ∧ abs_conns w !! fd = None)
  | RCommand cmd _ => command_wf cmd ∧ command_ok cmd w
  | _ => True
  end.

(** The abstract gate on a request. *)
Definition spec_request (slot : Z) (r : request) (s : sgate) : Z * sgate :=
  match r with
  | RData fd bs => (0%Z, spec_data fd bs s)
  | RConnect fd => (0%Z, spec_connect fd s)
  | RClose fd | RError fd => (0%Z, spec_close fd s)
  | RAccept _ fd name => (0%Z, spec_accept fd name s)
  | RWarning fd ud =>
    (0%Z, sp_emit [EvError "fd (%d) send buffer (%d)K" [ArgZ fd; ArgZ ud]] s)
  | RClient msg source => spec_client msg source s
  | RCommand cmd source => (0%Z, spec_command slot cmd source s)
  end.

(** ** Serving a request *)

Lemma good_malloc w bs : good [] w →
  let b := fresh_loc (blocks (w_heap w)) in
  let w' := World (w_gate w) (set_blocks (<[b := bs]> (blocks (w_heap w))) (w_heap w)) (w_trace w) in
  good ([] ++ [b]) w' ∧ abs_gate w' = abs_gate w.
Proof.
  intros (chs&fl&H) b w'. pose proof H as [A1 A2 A3 A4 A5 A6 A7 A8 A9 A10 A11 A12].
  assert (Hb : b ∉ bufs (concat chs)).
  { intros Hin. destruct (proj2 (A11 b) Hin) as [? E].
    unfold b in E. by rewrite lookup_fresh in E. }
  assert (H' : ginv ([] ++ [b]) w' chs fl).
  { constructor; simpl; try done.
    - by eapply fchain_ext; [|done].
    - eapply Forall2_impl_lookup; [done|]. intros j c ms Hc Hms [Hch ??]. constructor; try done.
      eapply mchain_ext; [|done]. intros r Hr. split; [done|]. simpl.
      rewrite lookup_insert_ne; [done|]. intros E. apply Hb. rewrite E.
      destruct (concat_focus _ _ _ Hms) as (rest&Ec&_). rewrite Ec, fmap_app.
      apply elem_of_app. left. by apply list_elem_of_fmap_2.
    - by apply NoDup_cons.
    - intros b'. destruct (decide (b' = b)) as [->|Hne].
      + rewrite lookup_insert_eq. split; [set_solver|eauto].
      + rewrite lookup_insert_ne, A11 by done. set_solver. }
  split; [by eexists _, _|].
  rewrite (abs_gate_parts _ _ _ _ H), (abs_gate_parts _ _ _ _ H'). done.
Qed.

(** The abstract requests do not write the address, the [listen] command apart. *)
Lemma spec_request_nul slot r s : NUL ∈ sg_bind s → NUL ∈ sg_bind (spec_request slot r s).2.
Proof.
  intros Hb. destruct r as [fd bs|fd|fd|fd|lid fd name|fd ud|msg source|cmd source]; simpl;
    unfold spec_data, spec_connect, spec_close, spec_accept, spec_client;
    repeat case_match; try done; simplify_eq/=; try done.
  destruct cmd; simpl; repeat case_match; simplify_eq/=; try done.
  all: pose proof (spec_start_listen_nul (sg_bind s) s Hb) as Hn; by rewrite H in Hn.
Qed.

Lemma wp_then_ret (m : M world unit) (z : Z) (Q : Z → world → Prop) w :
  wp m (λ _ w', Q z w') w → wp (m;; mret z) Q w.
Proof. intros H. apply wp_bind. eapply wp_mono; [done|]. intros [] w'. apply wp_ret. Qed.

Lemma serve_wp r w : good [] w → NUL ∈ bind (w_gate w) → request_ok r w →
  wp (serve r) (λ res w', good [] w' ∧ ∃ slot, (res, abs_gate w') = spec_request slot r (abs_gate w)) w.
Proof.
  intros H Hb Hok.
  assert (Hz : ∀ (m : M world unit) s', wp m (λ _ w', good [] w' ∧ abs_gate w' = s') w →
    wp (m;; mret 0%Z) (λ res w', good [] w' ∧ ∃ _ : Z, (res, abs_gate w') = (0%Z, s')) w).
  { intros m s' Hm. apply wp_then_ret. eapply wp_mono; [done|].
    intros _ w' [? ->]. split; [done|]. by exists 0%Z. }
  destruct r as [fd bs|fd|fd|fd|lid fd name|fd ud|msg source|cmd source];
    cbn [serve _cb spec_request dispatch_socket_message sm_type].
  - destruct (good_malloc w bs H) as [Hg Ha]. apply wp_bind. eapply wp_intro; [done|].
    apply wp_then_ret. eapply wp_mono.
    + apply (on_data_wp [] _ fd _ bs); [exact Hg|simpl; apply lookup_insert_eq|].
      intros c. apply (f_equal sg_conns) in Ha. simpl in Ha. rewrite Ha. apply Hok.
    + intros _ w' [? E]. split; [done|]. exists 0%Z. rewrite Ha in E. by rewrite E.
  - by apply Hz, on_connect_wp.
  - by apply Hz, (on_close_wp [] w (SocketMessage SOCKET_CLOSE fd 0 None [])).
  - by apply Hz, (on_close_wp [] w (SocketMessage SOCKET_ERROR fd 0 None [])).
  - destruct Hok as [-> Hok]. by apply Hz, on_accept_wp.
  - apply Hz, wp_error. split; [by apply good_trace|done].
  - eapply wp_mono; [by apply on_client_wp|]. intros res w' [? ->]. split; [done|]. by exists 0%Z.
  - destruct Hok as [Hwf Hcon]. apply wp_then_ret. eapply wp_mono; [by apply command_wp|].
    intros _ w' (?&slot&->). split; [done|]. by exists slot.
Qed.

(** ** Initialisation *)

Lemma take_word_length s : length (take_word s).1 ≤ length s.
Proof.
  induction s as [|b s IH]; simpl; [lia|]. destruct (is_space b); simpl; [lia|].
  destruct (take_word s) as [w r]. simpl in *. lia.
Qed.

Lemma skip_spaces_length s : length (skip_spaces s) ≤ length s.
Proof. induction s as [|b s IH]; simpl; [lia|]. destruct (is_space b); simpl; lia. Qed.

Lemma sscanf_word s word wd : sscanf_su s = (Some word, Some wd) →
  length word ≤ length s ∧ word ≠ [].
Proof.
  unfold sscanf_su. pose proof (take_word_length (skip_spaces s)) as Hw.
  pose proof (skip_spaces_length s). destruct (take_word _) as [w r]. simpl in Hw.
  destruct w as [|b w]; [done|]. intros E.
  assert (word = b :: w) as -> by (repeat case_match; congruence). split; [|done]. simpl in *. lia.
Qed.

Lemma binding_array_facts sz word : length word < sz →
  length (binding_array sz word) = sz ∧ NUL ∈ binding_array sz word.
Proof.
  intros H. unfold binding_array. rewrite length_app, length_replicate. split; [lia|].
  apply elem_of_app. right. apply elem_of_replicate. split; [done|lia].
Qed.

(** The gate after its table and its connections were made, with no free list. *)
Lemma ginv_init g hi t max : wf hi → slots hi = ∅ → table_cap hi = Z.to_nat max →
  (0 ≤ max)%Z → g_hash g = hi → max_connection g = max → header_size g = 4%Z →
  conn g = replicate (Z.to_nat max) idle_connection → mp g = MessagePool None None →
  ginv [] (World g (Heap ∅ ∅ ∅) t) (replicate (Z.to_nat max) []) [].
Proof.
  intros Hwf Hs Hcap Hmax Eg Em Eh Ec Ep.
  assert (Hcc : concat (replicate (Z.to_nat max) ([] : list mref)) = [])
    by (clear; induction (Z.to_nat max); simpl; done).
  constructor; simpl; rewrite ?Eg, ?Em, ?Ec, ?Ep, ?Hcc, ?length_replicate; try done.
  - lia.
  - intros l [m Hm]. simpl in Hm. by rewrite lookup_empty in Hm.
  - exists []. split_and!; [done|constructor|]. intros c. simpl. rewrite lookup_empty.
    split; [by intros ?%elem_of_nil|by intros []].
  - apply Forall2_replicate, buf_ok_empty.
  - constructor.
  - constructor.
  - intros b. rewrite lookup_empty. split; [by intros []|by intros ?%elem_of_nil].
  - intros i c (->&_)%lookup_replicate. by right.
Qed.

Definition initial_world : world := World gate_create (Heap ∅ ∅ ∅) [].

(** The abstract gate after [gate_init(parm)], and its result. *)
Definition spec_init (word : list byte) (sz : nat) (wd max : Z) : Z * sgate :=
  let zeros := replicate BIND_SIZE NUL in
  let s b := SGate (-1) wd 0 PTYPE_CLIENT b (Z.to_nat max) ∅ [EvCallback] in
  if decide (head word = Some x21) then (0%Z, s zeros)
  else
    let binding := binding_array sz word in
    let '(r, _, s') := spec_start_listen binding (s (binding ++ drop sz zeros)) in (r, s').

Lemma gate_init_wp p word wd env max : sscanf_su p = (Some word, Some wd) →
  skynet_getenv (bytes "max_online") = Some env → atoi env = max → (0 ≤ max ≤ 2 ^ 30)%Z →
  head word = Some x21 ∨ length p < BIND_SIZE →
  wp (gate_init (Some p)) (λ r w', good [] w' ∧ NUL ∈ bind (w_gate w') ∧
    (r, abs_gate w') = spec_init word (S (length p)) wd max) initial_world.
Proof.
  intros Hp Henv Hmax Hrange Hfit. destruct (sscanf_word _ _ _ Hp) as [Hwl Hw0].
  destruct (binding_array_facts (S (length p)) word ltac:(lia)) as [Hbl Hbn].
  unfold gate_init, spec_init. rewrite Hp, Henv. eapply wp_lift_bind; [done|]. rewrite Hmax.
  destruct (init_ok max Hrange) as (hi&Ehi&Hwf&Hcap&Hs). eapply wp_lift_bind; [exact Ehi|].
  g_step. g_step. g_step. g_step. destruct word as [|b word]; [done|].
  eapply wp_lift_bind; [by apply (aget_nat _ 0 b)|]. cbn [head] in *.
  assert (Hg0 : ∀ v t, good [] (World (Gate (-1) wd 0 PTYPE_CLIENT 4 max hi
    (replicate (Z.to_nat max) idle_connection) (MessagePool None None) v) (Heap ∅ ∅ ∅) t) ∧
    abs_gate (World (Gate (-1) wd 0 PTYPE_CLIENT 4 max hi
    (replicate (Z.to_nat max) idle_connection) (MessagePool None None) v) (Heap ∅ ∅ ∅) t) =
    SGate (-1) wd 0 PTYPE_CLIENT v (Z.to_nat max) ∅ t).
  { intros v t. split.
    - eexists _, _. apply ginv_init with hi; try done; try lia.
    - unfold abs_gate, abs_conns. simpl. rewrite Hs, Hcap. done. }
  destruct (decide (b = x21)) as [->|Hb].
  - g_step. rewrite decide_True by done. split_and!; [apply Hg0| |].
    + apply elem_of_replicate. split; [done|unfold BIND_SIZE; lia].
    + f_equal. apply Hg0.
  - destruct Hfit as [[= ->]|Hfit]; [done|]. rewrite decide_True by lia.
    rewrite (decide_False (P := Some b = Some x21)) by congruence.
    set (binding := binding_array (S (length p)) (b :: word)) in *. g_step. g_step. g_step.
    destruct (Hg0 (binding ++ drop (S (length p)) (replicate BIND_SIZE NUL)) [EvCallback])
      as [Hg1 Ha1].
    eapply wp_mono; [eapply start_listen_wp; [exact Hg1|exact Hbn]|].
    intros [r addr] w' [Hg E]. g_step.
    set (s0 := SGate _ _ _ _ (binding ++ _) _ _ _) in Ha1 |- *.
    assert (E' : (r, addr, abs_gate w') = spec_start_listen binding s0)
      by (rewrite <- Ha1; exact E). clear E. rename E' into E. cbv zeta. rewrite <- E.
    split_and!; [done| |done]. apply (f_equal (λ x, sg_bind x.2)) in E. cbn [snd] in E.
    rewrite spec_start_listen_bind in E. change (bind (w_gate w')) with (sg_bind (abs_gate w')).
    rewrite E. apply elem_of_app. by left.
Qed.

(** ** Release *)

Definition close_events (cs : list connection) : list event :=
  omap (λ c, if (0 <=? c_id c)%Z then Some (EvSocketClose (c_id c)) else None) cs.

Lemma release_loop_wp w : ∀ left i evs, i + left = length (conn (w_gate w)) →
  wp (release_loop left (Z.of_nat i))
    (λ _ w', w' = add_trace (evs ++ close_events (drop i (conn (w_gate w)))) w) (add_trace evs w).
Proof.
  induction left as [|left IH]; intros i evs Hi; cbn [release_loop].
  { g_step. by rewrite drop_ge, app_nil_r by lia. }
  destruct (lookup_lt_is_Some_2 (conn (w_gate w)) i) as [c Hc]; [lia|].
  g_step. apply (wp_get_conn i c); [done|]. rewrite (drop_S _ _ _ Hc).
  replace (Z.of_nat i + 1)%Z with (Z.of_nat (S i)) by lia. g_step.
  apply wp_when; intros E; [apply wp_emit; rewrite add_trace_add|];
    (eapply wp_mono; [apply IH; lia|]); intros _ w' ->; cbn [close_events omap list_omap];
    rewrite E; [by rewrite <- app_assoc|done].
Qed.

Lemma gate_release_wp ext w : good ext w →
  wp gate_release (λ _ w', w_heap w' = Heap (blocks (w_heap w)) ∅ ∅ ∧
    w_trace w' = w_trace w ++ close_events (conn (w_gate w)) ++
      (if (0 <=? listen_id (w_gate w))%Z then [EvSocketClose (listen_id (w_gate w))] else [])) w.
Proof.
  intros (chs&fl&H). unfold gate_release. g_step. g_step. rewrite (gi_max _ _ _ _ H), Nat2Z.id.
  g_step. rewrite <- (add_trace_nil w) at 2. eapply wp_mono; [by apply (release_loop_wp w _ 0)|].
  intros _ w' ->. rewrite drop_0, app_nil_l.
  set (evs := close_events _). g_step.
  assert (Hend : ∀ evs', wp (h ← gets w_heap; r ← lift (messagepool_free (mp (w_gate w)) h);
      upd_gate (set_mp r.1);; modify (λ w, World (w_gate w) r.2 (w_trace w));;
      upd_gate (λ g, set_hash (hashid_clear (g_hash g)) g);; upd_gate (set_conn []))
    (λ _ w', w_heap w' = Heap (blocks (w_heap w)) ∅ ∅ ∧ w_trace w' = w_trace w ++ evs')
    (add_trace evs' w)).
  { intros evs'. g_step. g_step. eapply wp_lift_bind.
    { apply messagepool_free_ok; [apply (gi_heap _ _ _ _ H)|apply (gi_pool _ _ _ _ H)]. }
    repeat g_step. done. }
  cbn [listen_id w_gate add_trace].
  destruct (0 <=? listen_id (w_gate w))%Z; cbn [when].
  - apply wp_emit. rewrite add_trace_add. apply Hend.
  - apply wp_ret. rewrite app_nil_r. apply Hend.
Qed.

(** ** Reachable gates *)

(** A message is served; a text may be any text, but a run that faults is not a
    step. *)
Inductive step : world → world → Prop :=
  | step_request r res w w' : request_ok r w → serve r w = Ok (res, w') → step w w'
  | step_text msg source res w w' : text_ok msg w →
      _cb (CbText msg) source w = Ok (res, w') → step w w'.

(** The conditions on the arguments of [gate_init]. *)
Record init_ok_args (p : list byte) : Prop := {
  ia_args : ∃ word wd, sscanf_su p = (Some word, Some wd) ∧
    (head word = Some x21 ∨ length p < BIND_SIZE);
  ia_max : ∃ env, skynet_getenv (bytes "max_online") = Some env ∧ (0 ≤ atoi env ≤ 2 ^ 30)%Z
}.

Definition reachable (w : world) : Prop :=
  ∃ p r w0, init_ok_args p ∧ gate_init (Some p) initial_world = Ok (r, w0) ∧ rtc step w0 w.

Lemma serve_ok r w : gate_ok [] w → request_ok r w → ∃ res w' slot,
  serve r w = Ok (res, w') ∧ gate_ok [] w' ∧ (res, abs_gate w') = spec_request slot r (abs_gate w).
Proof.
  intros [H Hb] Hok. pose proof (serve_wp r w H Hb Hok) as Hwp.
  apply wp_elim in Hwp as (res&w'&E&Hg&slot&Ha). exists res, w', slot.
  split_and!; [done| |done]. split; [done|].
  pose proof (spec_request_nul slot r (abs_gate w) Hb) as Hn. by rewrite <- Ha in Hn.
Qed.

Lemma step_ok w w' : gate_ok [] w → step w w' → gate_ok [] w'.
Proof.
  intros H Hs. destruct Hs as [r res w w' Hok E|msg source res w w' Hok E].
  - destruct (serve_ok r w H Hok) as (res1&w1&slot&E1&Hg&_). congruence.
  - pose proof (ctrl_ok [] w msg source H Hok) as Hc. simpl in E.
    unfold mbind, M_bind in E. destruct (_ctrl msg source w) as [[u w1]|] eqn:E1; [|done].
    injection E as _ <-. by apply (Hc u).
Qed.

Lemma init_reachable_ok p r w0 : init_ok_args p → gate_init (Some p) initial_world = Ok (r, w0) →
  gate_ok [] w0.
Proof.
  intros [(word&wd&Hp&Hfit) (env&Henv&Hmax)] E.
  pose proof (gate_init_wp p word wd env _ Hp Henv eq_refl Hmax Hfit) as Hwp.
  apply wp_elim in Hwp as (r1&w1&E1&Hg&Hn&_). rewrite E in E1. injection E1 as -> ->. done.
Qed.

Lemma reachable_ok w : reachable w → gate_ok [] w.
Proof.
  intros (p&r&w0&Hp&E&Hsteps). pose proof (init_reachable_ok p r w0 Hp E) as H0.
  clear E Hp. induction Hsteps as [|w1 w2 w3 Hs _ IH]; [done|]. apply IH. by eapply step_ok.
Qed.

Lemma ginv_no_conns w chs fl : ginv [] w chs fl → abs_conns w = ∅ → blocks (w_heap w) = ∅.
Proof.
  intros H He. apply map_empty. intros b. apply eq_None_not_Some.
  intros Hb%(gi_blocks _ _ _ _ H). simpl in Hb. apply list_elem_of_fmap in Hb as (r&_&Hr).
  apply list_elem_of_In, in_concat in Hr as (ms&Hms&Hr). apply list_elem_of_In in Hms, Hr.
  apply list_elem_of_lookup in Hms as [i Hi].
  destruct (Forall2_lookup_r _ _ _ _ _ (gi_bufs _ _ _ _ H) Hi) as (c&Hc&[Hch _ _]).
  destruct (gi_idle _ _ _ _ H i c Hc) as [[fd Hfd]| ->].
  - pose proof (abs_conns_lookup _ _ _ _ fd H) as Hl. rewrite Hfd in Hl.
    destruct Hl as (?&?&_&_&Hl). by rewrite He, lookup_empty in Hl.
  - destruct ms as [|? ?]; [by apply elem_of_nil in Hr|]. by destruct Hch as [? _].
Qed.

(** ** Streams of packets *)

Fixpoint serve_all (rs : list request) : M world unit :=
  match rs with
  | [] => mret tt
  | r :: rs' => serve r;; serve_all rs'
  end.

(** Receiving [bs1] and then [bs2] is receiving them at once, unless a packet
    over the bound closes the connection. *)
Lemma spec_data_app fd c bs1 bs2 s : sg_conns s !! fd = Some c →
  (parse (bool_decide (is_Some (spec_route s c))) ((s_buf c).1, (s_buf c).2 ++ bs1)).2 = false →
  spec_data fd bs2 (spec_data fd bs1 s) = spec_data fd (bs1 ++ bs2) s.
Proof.
  intros Hc. unfold spec_data. rewrite !Hc.
  destruct (parse _ (_, _ ++ bs1)) as [[ps1 a1] cl1] eqn:E1. simpl. intros ->.
  rewrite lookup_insert_eq. cbn [s_buf s_id s_agent s_client s_name].
  set (c1 := SConn _ _ _ _ a1). set (s1 := sp_emit _ _).
  change (spec_route s1 c1) with (spec_route s c).
  pose proof (parse_app _ bs2 _ _ _ _ E1) as E. cbn [fst snd] in E. rewrite app_assoc, E.
  destruct (parse _ (a1.1, _)) as [[ps2 a2] cl2]. unfold sp_emit, sp_conns. simpl. f_equal.
  - by rewrite insert_insert_eq.
  - rewrite <- !app_assoc. f_equal. destruct (spec_route s c); simpl; [|done].
    by rewrite fmap_app, <- app_assoc.
Qed.

Lemma parse_length routed : ∀ a, length (parse routed a).1.2.2 ≤ length a.2.
Proof.
  refine (abuf_ind _ _). intros a IH. rewrite parse_unfold.
  destruct (spec_readheader 4 a) as [r a1] eqn:E. pose proof (measure_decreases _ _ _ E) as Hd.
  assert (Hl : length a1.2 ≤ length a.2).
  { revert E. unfold spec_readheader. repeat case_match; intros; simplify_eq/=;
      rewrite ?length_drop; lia. }
  destruct (Z.ltb_spec r 0); [done|]. specialize (Hd ltac:(lia)).
  destruct (0 <? r)%Z; [|etrans; [by apply IH|done]].
  destruct (packet_limit <=? r)%Z; [simpl; lia|].
  destruct routed.
  - pose proof (IH _ (proj1 Hd)) as H1. simpl in H1. rewrite length_drop in H1.
    destruct (parse true _) as [[ps a2] cl]. simpl in *. lia.
  - etrans; [by apply (IH _ (proj2 Hd))|]. done.
Qed.

Lemma serve_data_wp fd c : ∀ chunks bs w, gate_ok [] w → abs_conns w !! fd = Some c →
  (Z.of_nat (length (s_buf c).2 + length (concat (bs :: chunks))) ≤ int_max)%Z →
  (parse (bool_decide (is_Some (spec_route (abs_gate w) c)))
    ((s_buf c).1, (s_buf c).2 ++ concat (bs :: chunks))).2 = false →
  wp (serve_all (RData fd <$> bs :: chunks)) (λ _ w', gate_ok [] w' ∧
    abs_gate w' = spec_data fd (concat (bs :: chunks)) (abs_gate w)) w.
Proof.
  intros chunks. revert c. induction chunks as [|bs2 chunks IH]; intros c bs w H Hc Hlen Hcl.
  - cbn [fmap list_fmap serve_all concat] in *. rewrite app_nil_r in *.
    destruct (serve_ok (RData fd bs) w H) as (res&w'&slot&E&Hg&Ha).
    { intros c' Hc'. replace c' with c by congruence. done. }
    apply wp_bind. eapply wp_intro; [exact E|]. apply wp_ret. split; [done|].
    apply (f_equal snd) in Ha. done.
  - set (rest := concat (bs2 :: chunks)) in *.
    change (concat (bs :: bs2 :: chunks)) with (bs ++ rest) in *.
    destruct (serve_ok (RData fd bs) w H) as (res&w'&slot&E&Hg&Ha).
    { intros c' Hc'. replace c' with c by congruence. rewrite length_app in Hlen. lia. }
    apply (f_equal snd) in Ha. cbn [snd spec_request] in Ha.
    cbn [fmap list_fmap serve_all]. apply wp_bind. eapply wp_intro; [exact E|].
    set (rt := bool_decide (is_Some (spec_route (abs_gate w) c))) in *.
    destruct (parse rt ((s_buf c).1, (s_buf c).2 ++ bs)) as [[ps1 a1] cl1] eqn:E1.
    pose proof (parse_app _ rest _ _ _ _ E1) as E2. cbn [fst snd] in E2.
    rewrite <- app_assoc in E2. rewrite E2 in Hcl. destruct cl1; [done|].
    assert (Happ := spec_data_app fd c bs rest (abs_gate w) Hc).
    fold rt in Happ. rewrite E1 in Happ. rewrite <- (Happ eq_refl), <- Ha.
    pose proof (parse_length rt ((s_buf c).1, (s_buf c).2 ++ bs)) as Hpl. rewrite E1 in Hpl.
    cbn [fst snd] in Hpl. rewrite length_app in Hpl.
    unfold spec_data in Ha. cbn [sg_conns abs_gate] in Ha. rewrite Hc in Ha. fold rt in Ha.
    rewrite E1 in Ha. set (c1 := SConn _ _ _ _ a1) in Ha.
    apply (IH c1); [done| | |].
    + apply (f_equal sg_conns) in Ha. simpl in Ha. by rewrite Ha, lookup_insert_eq.
    + fold rest. rewrite length_app in Hlen. simpl. lia.
    + fold rest. rewrite Ha. change (spec_route _ c1) with (spec_route (abs_gate w) c).
      fold rt. cbn [s_buf c1]. by destruct (parse rt (a1.1, _)) as [[??]?].
Qed.

Lemma delivers_wp w fd c f chunks ps : gate_ok [] w → abs_conns w !! fd = Some c →
  s_buf c = (0%Z, []) → spec_route (abs_gate w) c = Some f →
  Forall (λ p, Z.of_nat (length p) < packet_limit)%Z ps →
  (Z.of_nat (length (concat (encode_packet <$> ps))) ≤ int_max)%Z →
  concat chunks = concat (encode_packet <$> ps) →
  wp (serve_all (RData fd <$> chunks)) (λ _ w', gate_ok [] w' ∧
    abs_gate w' = sp_emit (f <$> filter (λ p, p ≠ []) ps) (abs_gate w)) w.
Proof.
  intros H Hc Hb Hf Hps Hlen Hch. destruct chunks as [|bs chunks].
  { apply wp_ret. split; [done|]. destruct ps as [|p ps].
    - simpl. unfold sp_emit, abs_gate. simpl. by rewrite app_nil_r.
    - apply (f_equal length) in Hch. rewrite fmap_cons in Hch. cbn [concat] in Hch.
      unfold encode_packet in Hch at 1. rewrite !length_app, be_bytes_length in Hch. simpl in Hch. lia. }
  pose proof (parse_encode_all [] ps Hps) as Hp. rewrite app_nil_r in Hp.
  assert (Hnil : parse true (0%Z, []) = ([], (0%Z, []), false)) by reflexivity.
  rewrite Hnil, app_nil_r in Hp.
  assert (Hrt : bool_decide (is_Some (spec_route (abs_gate w) c)) = true)
    by (apply bool_decide_eq_true_2; rewrite Hf; eauto).
  eapply wp_mono; [apply (serve_data_wp fd c)|]; rewrite ?Hb, ?Hrt, ?Hch; try done.
  { cbn [fst snd]. by rewrite app_nil_l, Hp. }
  intros _ w' [Hg ->]. split; [done|]. unfold spec_data. cbn [sg_conns abs_gate].
  rewrite Hc, Hf, Hb. rewrite bool_decide_eq_true_2 by eauto. cbn [fst snd].
  rewrite app_nil_l, Hp, app_nil_r. unfold sp_emit, sp_conns. simpl. f_equal.
  apply insert_id. rewrite Hc. by destruct c; simplify_eq/=.
Qed.

Lemma serve_data_ok fd bs c w : gate_ok [] w → abs_conns w !! fd = Some c →
  (Z.of_nat (length (s_buf c).2 + length bs) ≤ int_max)%Z →
  ∃ w', serve (RData fd bs) w = Ok (0%Z, w') ∧ abs_gate w' = spec_data fd bs (abs_gate w).
Proof.
  intros Hw Hc Hlen. destruct (serve_ok (RData fd bs) w Hw) as (res&w'&slot&E&_&Ha).
  { intros c' Hc'. by replace c' with c by congruence. }
  exists w'. pose proof (f_equal fst Ha) as Hr. apply (f_equal snd) in Ha. simpl in Hr. by subst.
Qed.

(** A header over the bound, before and after all its bytes came. *)
Lemma parse_oversize routed n p : (packet_limit ≤ n ≤ int_max)%Z →
  parse routed (0%Z, be_bytes 4 n ++ p) =
  if (Z.of_nat (length p) <? n)%Z then ([], (n, p), false) else ([], (0%Z, []), true).
Proof.
  unfold packet_limit, int_max. intros Hn. rewrite parse_unfold.
  assert (E : spec_readheader 4 (0%Z, be_bytes 4 n ++ p) =
    if (Z.of_nat (length p) <? n)%Z then ((-1)%Z, (n, p)) else (n, (n, p))).
  { unfold spec_readheader. cbn [fst snd Z.eqb].
    rewrite (proj2 (Z.ltb_ge _ 4)) by (rewrite length_app, be_bytes_length; lia).
    rewrite take_app_length', drop_app_length' by (by rewrite be_bytes_length).
    rewrite be_value_bytes by lia. rewrite s32_id by (unfold int_min, int_max; lia). done. }
  rewrite E. destruct (Z.ltb_spec (Z.of_nat (length p)) n); [done|].
  rewrite (proj2 (Z.ltb_ge n 0)), (proj2 (Z.ltb_lt 0 n)) by lia.
  by rewrite (proj2 (Z.leb_le packet_limit n)) by (unfold packet_limit; lia).
Qed.

(** A header with the top bit set is a negative [int]. *)
Lemma parse_top_bit routed b0 b1 b2 b3 p : (128 ≤ byteZ b0)%Z →
  (s32 (be_value [b0; b1; b2; b3]) < 0)%Z ∧
  parse routed (0%Z, b0 :: b1 :: b2 :: b3 :: p) =
  ([], (s32 (be_value [b0; b1; b2; b3]), p), false).
Proof.
  intros Hb. pose proof (byteZ_range b0). pose proof (byteZ_range b1).
  pose proof (byteZ_range b2). pose proof (byteZ_range b3).
  assert (Hneg : (s32 (be_value [b0; b1; b2; b3]) < 0)%Z).
  { unfold be_value. cbn [foldl]. set (v := (_ + byteZ b3)%Z).
    assert (2147483648 ≤ v < 4294967296)%Z by lia.
    unfold s32. replace ((v + 2147483648) `mod` 4294967296)%Z with (v - 2147483648)%Z; [lia|].
    apply Z.mod_unique with 1%Z; lia. }
  split; [done|]. rewrite parse_unfold. unfold spec_readheader. cbn [fst snd Z.eqb].
  rewrite (proj2 (Z.ltb_ge _ 4)) by (simpl; lia).
  change (take (Z.to_nat 4) (b0 :: b1 :: b2 :: b3 :: p)) with [b0; b1; b2; b3].
  change (drop (Z.to_nat 4) (b0 :: b1 :: b2 :: b3 :: p)) with p.
  rewrite (proj2 (Z.ltb_ge _ (s32 _))) by lia. by rewrite (proj2 (Z.ltb_lt _ 0)).
Qed.

(** Without a route the payload of a packet is parsed as headers. *)
Lemma parse_unrouted p : (0 < Z.of_nat (length p) < packet_limit)%Z →
  parse false (0%Z, encode_packet p) = parse false (0%Z, p).
Proof.
  unfold packet_limit. intros Hp. rewrite parse_unfold.
  assert (E : spec_readheader 4 (0%Z, encode_packet p) =
    (Z.of_nat (length p), (Z.of_nat (length p), p))).
  { unfold spec_readheader, encode_packet. cbn [fst snd Z.eqb].
    rewrite (proj2 (Z.ltb_ge _ 4)) by (rewrite length_app, be_bytes_length; lia).
    rewrite take_app_length', drop_app_length' by (by rewrite be_bytes_length).
    rewrite be_value_bytes by lia. rewrite s32_id by (unfold int_min, int_max; lia). simpl.
    by rewrite Z.ltb_irrefl. }
  rewrite E, (proj2 (Z.ltb_ge _ 0)), (proj2 (Z.ltb_lt 0 _)) by lia.
  by rewrite (proj2 (Z.leb_gt packet_limit _)) by (unfold packet_limit; lia).
Qed.

(** ** Theorems *)

(** C2: Whatever messages and texts the gate served since [gate_init], its hash
    table, linked buffers, message pool and free list are well formed and
    disjoint, and the heap holds no byte block but the queued ones.  Its environment
    queues at most INT_MAX bytes on a connection, and gives a new connection, one that
    is accepted or that a text opens, an id that the table does not hold. *)
Theorem gate_reachable_ok w : reachable w → gate_ok [] w.
Proof. apply reachable_ok. Qed.

(** C1: In every reachable state the gate serves every message its environment may
    send without a fault, and what it does to its connections, what it sends and
    what it returns are those of the abstract gate.  [request_ok] says what the
    environment may send: at most INT_MAX bytes that are queued on a connection, new ids
    for connections, and commands in their printed form. *)
Theorem gate_serves w r : reachable w → request_ok r w → ∃ res w' slot,
  serve r w = Ok (res, w') ∧ reachable w' ∧
  (res, abs_gate w') = spec_request slot r (abs_gate w).
Proof.
  intros Hw Hok. destruct (serve_ok r w (reachable_ok w Hw) Hok) as (res&w'&slot&E&_&Ha).
  exists res, w', slot. split_and!; [done| |done].
  destruct Hw as (p&r0&w0&Hp&E0&Hsteps). exists p, r0, w0. split_and!; [done..|].
  eapply rtc_r; [done|]. by eapply step_request.
Qed.

(** C3: Packets sent on a connection, each after its big-endian length and cut into
    blocks anyhow, are delivered one by one, whole and in order to the broker, the
    agent or the watchdog; the empty ones are dropped and nothing stays queued. *)
Theorem gate_delivers w fd c f chunks ps : reachable w → abs_conns w !! fd = Some c →
  s_buf c = (0%Z, []) → spec_route (abs_gate w) c = Some f →
  Forall (λ p, Z.of_nat (length p) < packet_limit)%Z ps →
  (Z.of_nat (length (concat (encode_packet <$> ps))) ≤ int_max)%Z →
  concat chunks = concat (encode_packet <$> ps) →
  ∃ w', serve_all (RData fd <$> chunks) w = Ok (tt, w') ∧
    abs_gate w' = sp_emit (f <$> filter (λ p, p ≠ []) ps) (abs_gate w).
Proof.
  intros Hw Hc Hb Hf Hps Hlen Hch.
  destruct (wp_elim _ _ _ (delivers_wp w fd c f chunks ps (reachable_ok w Hw) Hc Hb Hf Hps Hlen Hch))
    as ([]&w'&E&_&Ha). by exists w'.
Qed.

(** C18: How a stream is cut into blocks does not matter: two cuts of the same bytes
    leave the gate in the same abstract state, unless the stream holds a packet
    over the bound. *)
Theorem gate_chunking w fd c chunks1 chunks2 : reachable w → abs_conns w !! fd = Some c →
  chunks1 ≠ [] → chunks2 ≠ [] → concat chunks1 = concat chunks2 →
  (Z.of_nat (length (s_buf c).2 + length (concat chunks1)) ≤ int_max)%Z →
  (parse (bool_decide (is_Some (spec_route (abs_gate w) c)))
    ((s_buf c).1, (s_buf c).2 ++ concat chunks1)).2 = false →
  ∃ w1 w2, serve_all (RData fd <$> chunks1) w = Ok (tt, w1) ∧
    serve_all (RData fd <$> chunks2) w = Ok (tt, w2) ∧ abs_gate w1 = abs_gate w2.
Proof.
  intros Hw%reachable_ok Hc Hn1 Hn2 Hcat Hlen Hcl.
  destruct chunks1 as [|b1 l1]; [done|]. destruct chunks2 as [|b2 l2]; [done|].
  pose proof Hlen as Hlen2. pose proof Hcl as Hcl2. rewrite Hcat in Hlen2, Hcl2.
  destruct (wp_elim _ _ _ (serve_data_wp fd c l1 b1 w Hw Hc Hlen Hcl)) as ([]&w1&E1&_&A1).
  destruct (wp_elim _ _ _ (serve_data_wp fd c l2 b2 w Hw Hc Hlen2 Hcl2)) as ([]&w2&E2&_&A2).
  exists w1, w2. split_and!; [done..|]. by rewrite A1, A2, Hcat.
Qed.

(** C17: A gate without connections has freed every block it was given. *)
Theorem gate_no_leak w : reachable w → abs_conns w = ∅ → blocks (w_heap w) = ∅.
Proof. intros [(chs&fl&H) _]%reachable_ok. by eapply ginv_no_conns. Qed.

(** [gate_init] of "binding watchdog" makes an empty table of [max_online]
    connections, listens on the binding unless it starts with an exclamation mark
    and leaves the gate in order. *)
Lemma gate_init_correct p word wd env : sscanf_su p = (Some word, Some wd) →
  skynet_getenv (bytes "max_online") = Some env → (0 ≤ atoi env ≤ 2 ^ 30)%Z →
  head word = Some x21 ∨ length p < BIND_SIZE →
  ∃ r w, gate_init (Some p) initial_world = Ok (r, w) ∧ gate_ok [] w ∧
    (r, abs_gate w) = spec_init word (S (length p)) wd (atoi env).
Proof.
  intros Hp Henv Hmax Hfit.
  destruct (wp_elim _ _ _ (gate_init_wp p word wd env _ Hp Henv eq_refl Hmax Hfit))
    as (r&w&E&Hg&Hb&Ha). by exists r, w.
Qed.

(** A binding that does not fit [char bind[200]] is copied past its end. *)
Lemma gate_init_overflow p word wd env : sscanf_su p = (Some word, Some wd) →
  skynet_getenv (bytes "max_online") = Some env → (0 ≤ atoi env ≤ 2 ^ 30)%Z →
  head word ≠ Some x21 → BIND_SIZE ≤ length p →
  gate_init (Some p) initial_world = Fault FBounds.
Proof.
  intros Hp Henv Hmax Hx Hlen. destruct (sscanf_word _ _ _ Hp) as [_ Hw0].
  unfold gate_init. rewrite Hp, Henv. destruct (init_ok _ Hmax) as (hi&Ehi&_).
  destruct word as [|b word]; [done|]. unfold mbind, M_bind, lift. rewrite Ehi.
  unfold upd_gate, emit, modify. unfold aget. rewrite bool_decide_eq_true_2 by lia. simpl.
  rewrite decide_False by (intros ->; by apply Hx). by rewrite decide_False by lia.
Qed.

(** [gate_release] closes the sockets of the accepted connections and the
    listening one and frees every chunk of the message pool, but no block that is
    still queued. *)
Lemma gate_release_correct w : reachable w → ∃ w', gate_release w = Ok (tt, w') ∧
  w_heap w' = Heap (blocks (w_heap w)) ∅ ∅ ∧
  w_trace w' = w_trace w ++ close_events (conn (w_gate w)) ++
    (if (0 <=? listen_id (w_gate w))%Z then [EvSocketClose (listen_id (w_gate w))] else []).
Proof.
  intros [H _]%reachable_ok.
  destruct (wp_elim _ _ _ (gate_release_wp _ _ H)) as ([]&w'&E&?&?). by exists w'.
Qed.

(** A packet over the 16M bound is not refused when its header arrives: it is
    buffered whole, and only then the buffer is dropped and the socket closed. *)
Lemma oversize_packet w fd c n p : reachable w → abs_conns w !! fd = Some c →
  s_buf c = (0%Z, []) → (packet_limit ≤ n ≤ int_max)%Z →
  (Z.of_nat (4 + length p) ≤ int_max)%Z →
  ∃ w', serve (RData fd (be_bytes 4 n ++ p)) w = Ok (0%Z, w') ∧
    abs_gate w' =
      let kept a := <[fd := SConn (s_id c) (s_agent c) (s_client c) (s_name c) a]> (abs_conns w) in
      if (Z.of_nat (length p) <? n)%Z then sp_conns (kept (n, p)) (abs_gate w)
      else sp_emit [EvSocketClose fd; EvError "Recv socket message > 16M" []]
        (sp_conns (kept (0%Z, [])) (abs_gate w)).
Proof.
  intros Hw%reachable_ok Hc Hb Hn Hlen.
  destruct (serve_data_ok fd (be_bytes 4 n ++ p) c w Hw Hc) as (w'&E&Ha).
  { by rewrite Hb, length_app, be_bytes_length. }
  exists w'. split; [done|]. rewrite Ha. unfold spec_data.
  cbn [sg_conns abs_gate]. rewrite Hc, Hb. cbn [fst snd]. rewrite app_nil_l, parse_oversize by done.
  cbv zeta. destruct (Z.of_nat (length p) <? n)%Z; destruct (spec_route _ c);
    unfold sp_emit, sp_conns, abs_gate; simpl; by rewrite ?app_nil_r.
Qed.

(** C40: A header with the top bit set becomes a negative length: the connection
    never delivers anything again, however much it receives. *)
Theorem negative_header_wedges w fd c b0 b1 b2 b3 p chunks : reachable w →
  abs_conns w !! fd = Some c → s_buf c = (0%Z, []) → (128 ≤ byteZ b0)%Z →
  concat chunks = b0 :: b1 :: b2 :: b3 :: p → (Z.of_nat (4 + length p) ≤ int_max)%Z →
  ∃ w', serve_all (RData fd <$> chunks) w = Ok (tt, w') ∧ w_trace w' = w_trace w ∧
    ∃ c', abs_conns w' !! fd = Some c' ∧ ((s_buf c').1 < 0)%Z ∧ (s_buf c').2 = p.
Proof.
  intros Hw%reachable_ok Hc Hb Hb0 Hcat Hlen. destruct chunks as [|bs chunks]; [done|].
  assert (Hp := λ rt, parse_top_bit rt b0 b1 b2 b3 p Hb0).
  destruct (wp_elim _ _ _ (serve_data_wp fd c chunks bs w Hw Hc
    ltac:(rewrite Hb, Hcat; exact Hlen) ltac:(rewrite Hb, Hcat; cbn [fst snd];
      rewrite app_nil_l; by rewrite (proj2 (Hp _))))) as ([]&w'&E&_&Ha).
  exists w'. split; [done|]. unfold spec_data in Ha. cbn [sg_conns abs_gate] in Ha.
  rewrite Hc, Hb, Hcat in Ha. cbn [fst snd] in Ha. rewrite app_nil_l, (proj2 (Hp _)) in Ha. split.
  - apply (f_equal sg_trace) in Ha. simpl in Ha. rewrite Ha.
    by destruct (spec_route _ c); simpl; rewrite app_nil_r.
  - eexists. apply (f_equal sg_conns) in Ha. simpl in Ha.
    rewrite Ha, lookup_insert_eq. split; [done|]. split; [apply (Hp true)|done].
Qed.

(** When there is neither a broker nor an agent nor a watchdog, the payload of
    a packet is taken for headers: the gate is left as if the payload alone had
    been received. *)
Lemma unrouted_desync w fd c p : reachable w → abs_conns w !! fd = Some c →
  s_buf c = (0%Z, []) → spec_route (abs_gate w) c = None →
  (0 < Z.of_nat (length p) < packet_limit)%Z →
  ∃ w1 w2, serve (RData fd (encode_packet p)) w = Ok (0%Z, w1) ∧
    serve (RData fd p) w = Ok (0%Z, w2) ∧ abs_gate w1 = abs_gate w2.
Proof.
  intros Hw%reachable_ok Hc Hb Hr Hp. pose proof Hp as Hp'. unfold packet_limit in Hp'.
  destruct (serve_data_ok fd (encode_packet p) c w Hw Hc) as (w1&E1&A1).
  { unfold encode_packet. rewrite Hb, length_app, be_bytes_length. unfold int_max. simpl length. lia. }
  destruct (serve_data_ok fd p c w Hw Hc) as (w2&E2&A2).
  { rewrite Hb. unfold int_max. simpl length. lia. }
  exists w1, w2. split_and!; [done..|].
  rewrite A1, A2. unfold spec_data. cbn [sg_conns abs_gate]. rewrite Hc, Hb, Hr.
  rewrite bool_decide_eq_false_2 by (by intros []). cbn [fst snd].
  by rewrite !app_nil_l, parse_unrouted.
Qed.

End GateLife.
