(* ===== verification/GateDemo.v ===== *)
(** * GateDemo: a concrete gate

    A skynet that answers with fixed values, the gates it starts, and the theorems
    on the gate applied to them. *)
From S2P Require Import Prelude IdTable HashId Bytes DataBuffer CString Gate GateInv GateDispatch GateSpec GateCtrl GateLife.
From stdpp Require Import gmap list strings relations.
From Stdlib Require Import ZArith Strings.Byte.

(** The listening socket is 100, the connected ones are 200 and onwards, every name is the
    service 7 and max_online is 4. *)
Definition connects (t : list event) : nat :=
  length (omap (λ e, match e with EvSocketConnect _ _ => Some tt | _ => None end) t).

Definition demo : Skynet := {|
  skynet_socket_listen := λ _ _ _ _, 100%Z;
  skynet_socket_connect := λ t _ _, (200 + Z.of_nat (connects t))%Z;
  skynet_queryname := λ _ _, 7%Z;
  skynet_getenv := λ _, Some (bytes "4");
  PTYPE_TEXT := 0;
  PTYPE_CLIENT := 1;
  PTYPE_TAG_DONTCOPY := 65536
|}.
#[local] Existing Instance demo.

Definition started (parm : string) : world :=
  match gate_init (Some (bytes parm)) initial_world with
  | Ok (_, w) => w
  | Fault _ => initial_world
  end.
Definition served (r : request) (w : world) : world :=
  match serve r w with Ok (_, w') => w' | Fault _ => w end.

(** A gate with the watchdog 9 and a peer on the socket 5, and one with no watchdog. *)
Definition gate9 : world := started "0.0.0.0:8888 9".
Definition gate9_peer : world := served (RAccept 100 5 (bytes "peer")) gate9.
Definition gate0 : world := started "! 0".
Definition gate0_peer : world := served (RAccept (-1) 5 (bytes "peer")) gate0.
Definition peer9 : sconn := SConn 5 0 0 (copy_name (replicate REMOTE_NAME_SIZE NUL) (bytes "peer")) (0%Z, []).

Lemma gate9_reachable : reachable gate9.
Proof.
  exists (bytes "0.0.0.0:8888 9"), 0%Z, gate9. split_and!; [|vm_compute; reflexivity|done].
  split.
  - exists (bytes "0.0.0.0:8888"), 9%Z. split; [vm_compute; reflexivity|right; vm_compute; lia].
  - exists (bytes "4"). split; [done|vm_compute; split; discriminate].
Qed.

Lemma gate0_reachable : reachable gate0.
Proof.
  exists (bytes "! 0"), 0%Z, gate0. split_and!; [|vm_compute; reflexivity|done].
  split.
  - exists (bytes "!"), 0%Z. split; [vm_compute; reflexivity|by left].
  - exists (bytes "4"). split; [done|vm_compute; split; discriminate].
Qed.

Lemma reachable_served w r : reachable w → request_ok r w → reachable (served r w).
Proof.
  intros Hw Hok. destruct (serve_ok r w (reachable_ok w Hw) Hok) as (res&w'&slot&E&_).
  unfold served. rewrite E. destruct Hw as (p&r0&w0&Hp&E0&Hsteps). exists p, r0, w0.
  split_and!; [done..|]. eapply rtc_r; [done|]. by eapply step_request.
Qed.

Lemma accept_ok_demo w name : listen_id (w_gate w) = 100%Z ∨ listen_id (w_gate w) = (-1)%Z →
  table_cap (g_hash (w_gate w)) = 4 → abs_conns w !! 5%Z = None →
  request_ok (RAccept (listen_id (w_gate w)) 5 name) w.
Proof.
  intros _ Hcap Hn. split; [done|]. intros _. rewrite Hcap. split; [|done].
  split; vm_compute; discriminate.
Qed.

Lemma gate9_peer_reachable : reachable gate9_peer.
Proof.
  apply reachable_served; [apply gate9_reachable|].
  apply (accept_ok_demo gate9); [by left|reflexivity|vm_compute; reflexivity].
Qed.

Lemma gate0_peer_reachable : reachable gate0_peer.
Proof.
  apply reachable_served; [apply gate0_reachable|].
  apply (accept_ok_demo gate0); [by right|reflexivity|vm_compute; reflexivity].
Qed.

Lemma gate9_peer_conns : abs_conns gate9_peer = {[5%Z := peer9]}.
Proof. vm_compute. reflexivity. Qed.

Lemma gate0_peer_conns : abs_conns gate0_peer = {[5%Z := peer9]}.
Proof. vm_compute. reflexivity. Qed.

Lemma gate9_peer_lookup : abs_conns gate9_peer !! 5%Z = Some peer9.
Proof. by rewrite gate9_peer_conns. Qed.

Lemma gate0_peer_lookup : abs_conns gate0_peer !! 5%Z = Some peer9.
Proof. by rewrite gate0_peer_conns. Qed.

Lemma gate9_peer_ok : gate_ok [] gate9_peer.
Proof. apply reachable_ok, gate9_peer_reachable. Qed.

(** The gate with a connection 200 that it opened itself. *)
Definition connect_request : request := RCommand (Connect (bytes "127.0.0.1") 80) 7.
Definition gate9_out : world := served connect_request gate9_peer.

Lemma connect_ok_demo ip port w :
  id_ok (table_cap (g_hash (w_gate w))) (200 + Z.of_nat (connects (w_trace w))) →
  abs_conns w !! (200 + Z.of_nat (connects (w_trace w)))%Z = None → connect_ok ip port w.
Proof. by intros ?? _. Qed.

Lemma gate9_out_reachable : reachable gate9_out.
Proof.
  apply reachable_served; [apply gate9_peer_reachable|]. split.
  - apply (bool_decide_unpack _). by vm_compute.
  - apply connect_ok_demo; [split; vm_compute; discriminate|vm_compute; reflexivity].
Qed.

Lemma gate9_out_conns : is_Some (abs_conns gate9_out !! 5%Z) ∧ is_Some (abs_conns gate9_out !! 200%Z).
Proof. split; eexists; vm_compute; reflexivity. Qed.

(** The peer sends a packet and a half, and leaves. *)
Definition gate9_queued : world := served (RData 5 [x00; x00; x00; x01; x61; x00; x00; x00; x02; x62]) gate9_peer.
Definition gate9_left : world := served (RClose 5) gate9_queued.

Lemma gate9_queued_reachable : reachable gate9_queued.
Proof.
  apply reachable_served; [apply gate9_peer_reachable|].
  intros c. rewrite gate9_peer_conns. intros [_ <-]%lookup_singleton_Some. vm_compute. discriminate.
Qed.

Lemma gate9_left_reachable : reachable gate9_left.
Proof. apply reachable_served; [apply gate9_queued_reachable|exact I]. Qed.

(** ** The life of the gate *)

Lemma gate_reachable_ok_witness :
  is_Some (abs_conns (served (RCommand (Kick 200) 7) gate9_out) !! 200%Z) ∧
  gate_ok [] (served (RCommand (Kick 200) 7) gate9_out).
Proof.
  split; [eexists; vm_compute; reflexivity|]. apply gate_reachable_ok, reachable_served.
  - apply gate9_out_reachable.
  - split; [split; vm_compute; discriminate|exact I].
Defined.

Lemma gate_serves_witness : ∃ res w' slot,
  serve (RCommand (Kick 200) 7) gate9_out = Ok (res, w') ∧ reachable w' ∧
  (res, abs_gate w') = spec_request slot (RCommand (Kick 200) 7) (abs_gate gate9_out).
Proof.
  apply (gate_serves gate9_out); [apply gate9_out_reachable|].
  split; [split; vm_compute; discriminate|exact I].
Defined.

Lemma gate_delivers_witness : ∃ f w',
  serve_all (RData 5 <$> [[x00; x00; x00]; [x02; x61]; [x62; x00; x00; x00; x00; x00; x00; x00; x01; x63]])
    gate9_peer = Ok (tt, w') ∧
  abs_gate w' = sp_emit (f <$> [[x61; x62]; [x63]]) (abs_gate gate9_peer).
Proof.
  eexists. apply (gate_delivers gate9_peer 5 peer9 _
    [[x00; x00; x00]; [x02; x61]; [x62; x00; x00; x00; x00; x00; x00; x00; x01; x63]]
    [[x61; x62]; []; [x63]]).
  - apply gate9_peer_reachable.
  - apply gate9_peer_lookup.
  - reflexivity.
  - reflexivity.
  - repeat constructor.
  - vm_compute. discriminate.
  - vm_compute. reflexivity.
Defined.

Lemma gate_chunking_witness : ∃ w1 w2,
  serve_all (RData 5 <$> [[x00; x00]; [x00; x01; x61]]) gate9_peer = Ok (tt, w1) ∧
  serve_all (RData 5 <$> [[x00; x00; x00; x01; x61]]) gate9_peer = Ok (tt, w2) ∧
  abs_gate w1 = abs_gate w2.
Proof.
  apply (gate_chunking gate9_peer 5 peer9); [apply gate9_peer_reachable|apply gate9_peer_lookup|
    done|done|reflexivity|vm_compute; discriminate|vm_compute; reflexivity].
Defined.

Lemma gate_no_leak_witness :
  blocks (w_heap gate9_queued) ≠ ∅ ∧ blocks (w_heap gate9_left) = ∅.
Proof.
  split.
  - intros E%(f_equal size). vm_compute in E. discriminate.
  - apply (gate_no_leak gate9_left); [apply gate9_left_reachable|vm_compute; reflexivity].
Defined.

Lemma gate_init_correct_witness : ∃ r w, gate_init (Some (bytes "! 0")) initial_world = Ok (r, w) ∧
  gate_ok [] w ∧ (r, abs_gate w) = spec_init (bytes "!") 4 0 4.
Proof.
  apply (gate_init_correct (bytes "! 0") (bytes "!") 0 (bytes "4"));
    [vm_compute; reflexivity|reflexivity|vm_compute; split; discriminate|by left].
Defined.

Lemma gate_init_overflow_witness :
  gate_init (Some (replicate 200 x31 ++ bytes " 9")) initial_world = Fault FBounds.
Proof.
  apply (gate_init_overflow _ (replicate 200 x31) 9 (bytes "4"));
    [vm_compute; reflexivity|reflexivity|vm_compute; split; discriminate|done|vm_compute; lia].
Defined.

Lemma gate_release_correct_witness : ∃ w', gate_release gate9_peer = Ok (tt, w') ∧
  w_heap w' = Heap (blocks (w_heap gate9_peer)) ∅ ∅ ∧
  w_trace w' = w_trace gate9_peer ++ close_events (conn (w_gate gate9_peer)) ++
    (if (0 <=? listen_id (w_gate gate9_peer))%Z
     then [EvSocketClose (listen_id (w_gate gate9_peer))] else []).
Proof. apply (gate_release_correct gate9_peer), gate9_peer_reachable. Defined.

Lemma oversize_packet_witness : ∃ w',
  serve (RData 5 (be_bytes 4 packet_limit ++ [x61])) gate9_peer = Ok (0%Z, w') ∧
  abs_gate w' = sp_conns (<[5%Z := SConn 5 0 0 (s_name peer9) (packet_limit, [x61])]>
    (abs_conns gate9_peer)) (abs_gate gate9_peer).
Proof.
  apply (oversize_packet gate9_peer 5 peer9 packet_limit [x61]); [apply gate9_peer_reachable|
    apply gate9_peer_lookup|reflexivity|vm_compute; split; discriminate|vm_compute; discriminate].
Defined.

Lemma negative_header_wedges_witness : ∃ w',
  serve_all (RData 5 <$> [[x80; x00]; [x00; x00; x61]]) gate9_peer = Ok (tt, w') ∧
  w_trace w' = w_trace gate9_peer ∧
  ∃ c', abs_conns w' !! 5%Z = Some c' ∧ ((s_buf c').1 < 0)%Z ∧ (s_buf c').2 = [x61].
Proof.
  apply (negative_header_wedges gate9_peer 5 peer9 x80 x00 x00 x00 [x61]);
    [apply gate9_peer_reachable|apply gate9_peer_lookup|reflexivity|vm_compute; discriminate|
     reflexivity|vm_compute; discriminate].
Defined.

Lemma unrouted_desync_witness : ∃ w1 w2,
  serve (RData 5 (encode_packet [x61; x62])) gate0_peer = Ok (0%Z, w1) ∧
  serve (RData 5 [x61; x62]) gate0_peer = Ok (0%Z, w2) ∧ abs_gate w1 = abs_gate w2.
Proof.
  apply (unrouted_desync gate0_peer 5 peer9 [x61; x62]); [apply gate0_peer_reachable|
    apply gate0_peer_lookup|reflexivity|vm_compute; reflexivity|vm_compute; split; reflexivity].
Defined.

(** ** The commands *)

Lemma parm_correct_witness : ∃ rest, _parm (bytes "kick   12" ++ [NUL]) 9 4 =
    Ok (bytes "12" ++ NUL :: rest) ∧ length (bytes "12" ++ NUL :: rest) = 10.
Proof. apply (parm_correct (bytes "kick   12") 4). vm_compute. lia. Defined.

Lemma command_correct_witness : ∃ w' slot,
  _ctrl (print_command (Forward 200 (bytes "1f") (bytes "0"))) 3 gate9_out = Ok (tt, w') ∧
  good [] w' ∧ abs_gate w' =
    spec_command slot (Forward 200 (bytes "1f") (bytes "0")) 3 (abs_gate gate9_out).
Proof.
  apply (command_correct [] gate9_out); [apply reachable_ok, gate9_out_reachable|exact I|].
  split; [vm_compute; split; discriminate|]. split; repeat constructor; discriminate.
Defined.

Definition texted (msg : string) (w : world) : world :=
  match _ctrl (bytes msg) 3 w with Ok (_, w') => w' | Fault _ => w end.

Lemma ctrl_any_text_witness :
  gate_ok [] (texted "connect 127.0.0.1 80 x" gate9_out) ∧ gate_ok [] (texted "kick x" gate9_out).
Proof.
  pose proof (reachable_ok _ gate9_out_reachable) as H. split.
  - apply (ctrl_any_text [] gate9_out _ (bytes "connect 127.0.0.1 80 x") 3);
      [done| |vm_compute; reflexivity].
    apply (connect_ok_demo (bytes "127.0.0.1") 80);
      [split; vm_compute; discriminate|vm_compute; reflexivity].
  - apply (ctrl_any_text [] gate9_out _ (bytes "kick x") 3); [done|exact I|vm_compute; reflexivity].
Defined.

Lemma start_listen_correct_witness : ∃ r w',
  start_listen (bytes "0.0.0.0:80" ++ [NUL]) gate9_peer = Ok (r, w') ∧ good [] w' ∧
  (r, abs_gate w') = spec_start_listen (bytes "0.0.0.0:80" ++ [NUL]) (abs_gate gate9_peer).
Proof.
  apply (start_listen_correct [] gate9_peer); [apply gate9_peer_ok|].
  apply elem_of_app. right. by left.
Defined.

Lemma listen_again_witness : ∃ r addr' w',
  start_listen (bytes "127.0.0.1:8888" ++ [NUL]) gate9_peer = Ok ((r, addr'), w') ∧ NUL ∈ addr' ∧
  addr_parts (bytes "127.0.0.1:8888" ++ [NUL]) = (bytes "127.0.0.1", 8888%Z, addr') ∧
  addr_parts addr' = ([], 127%Z, addr').
Proof.
  apply (listen_again [] gate9_peer (bytes "127.0.0.1:8888" ++ [NUL]) (bytes "127.0.0.1")
    (bytes "8888")); [apply gate9_peer_ok|reflexivity| |vm_compute; reflexivity].
  by apply (bool_decide_unpack _).
Defined.

Lemma kick_prefix_witness : ∃ w', _ctrl (bytes " 5") 3 gate9_peer = Ok (tt, w') ∧
  abs_gate w' = spec_command 0 (Kick 5) 3 (abs_gate gate9_peer).
Proof.
  apply (kick_prefix [] gate9_peer 0 5 3); [apply gate9_peer_ok|lia|vm_compute; split; discriminate].
Defined.

Lemma connect_out_of_bounds_witness :
  _ctrl (bytes "connect") 3 gate9_peer = Fault FBounds ∧
  _ctrl (bytes "connect" ++ SPACE :: replicate 100 x31 ++ SPACE :: bytes "80") 3 gate9_peer
    = Fault FBounds.
Proof.
  apply (connect_out_of_bounds gate9_peer 3 (replicate 100 x31) (bytes "80"));
    [apply Forall_replicate; by split|vm_compute; lia].
Defined.
