(* ===== verification/Adlist.v ===== *)
(** * Adlist: the doubly linked list of redis (adlist/adlist.c)

    The heap has the allocated [list], [listNode] and [listIter] structures, by
    type.  A value is an opaque pointer, NULL being 0; the methods of a list are
    function pointers, whose calls are logged and whose results are parameters.
    [malloc] fails where the plan of the state says so. *)
From S2P Require Import Prelude.
From stdpp Require Import gmap list.
From Stdlib Require Import ZArith.

(** ** Data *)

Record listNode := ListNode { prev : option loc; next : option loc; value : Z }.

Record listIter := ListIter { it_next : option loc; direction : Z }.

Record adlist := List {
  head : option loc;
  tail : option loc;
  dup : option Z;
  free : option Z;
  match_ : option Z;               (* match *)
  len : Z
}.

Definition AL_START_HEAD : Z := 0.
Definition AL_START_TAIL : Z := 1.

(** The calls of the methods. *)
Inductive call :=
  | CallDup (f ptr res : Z)
  | CallFree (f ptr : Z)
  | CallMatch (f ptr key : Z) (res : bool).

(** The next [malloc]s succeed as [a_plan] says, and those after it succeed. *)
Record ast := Ast {
  a_lists : gmap loc adlist;
  a_nodes : gmap loc listNode;
  a_iters : gmap loc listIter;
  a_plan : list bool;
  a_calls : list call
}.

#[global] Instance listNode_eq_dec : EqDecision listNode.
Proof. solve_decision. Defined.
#[global] Instance listIter_eq_dec : EqDecision listIter.
Proof. solve_decision. Defined.
#[global] Instance adlist_eq_dec : EqDecision adlist.
Proof. solve_decision. Defined.
#[global] Instance call_eq_dec : EqDecision call.
Proof. solve_decision. Defined.
#[global] Instance ast_eq_dec : EqDecision ast.
Proof. solve_decision. Defined.

(** ** Field updates *)

Definition set_prev v (n : listNode) := ListNode v (next n) (value n).
Definition set_next v (n : listNode) := ListNode (prev n) v (value n).
Definition set_value v (n : listNode) := ListNode (prev n) (next n) v.
Definition set_head v (l : adlist) := List v (tail l) (dup l) (free l) (match_ l) (len l).
Definition set_tail v (l : adlist) := List (head l) v (dup l) (free l) (match_ l) (len l).
Definition set_len v (l : adlist) := List (head l) (tail l) (dup l) (free l) (match_ l) v.
Definition set_methods d f m (l : adlist) := List (head l) (tail l) d f m (len l).

Definition upd_lists f : M ast unit :=
  modify (λ s, Ast (f (a_lists s)) (a_nodes s) (a_iters s) (a_plan s) (a_calls s)).
Definition upd_nodes f : M ast unit :=
  modify (λ s, Ast (a_lists s) (f (a_nodes s)) (a_iters s) (a_plan s) (a_calls s)).
Definition upd_iters f : M ast unit :=
  modify (λ s, Ast (a_lists s) (a_nodes s) (f (a_iters s)) (a_plan s) (a_calls s)).
Definition log_call c : M ast unit :=
  modify (λ s, Ast (a_lists s) (a_nodes s) (a_iters s) (a_plan s) (a_calls s ++ [c])).

(** ** Memory *)

(** A pointer in a heap of one type. *)
Definition deref {A} (h : ast → gmap loc A) (p : option loc) : M ast A :=
  match p with
  | None => fail FNull
  | Some l => m ← gets h; match m !! l with Some x => mret x | None => fail FDangling end
  end.

Definition load_node (p : option loc) : M ast listNode := deref a_nodes p.
Definition load_list (p : option loc) : M ast adlist := deref a_lists p.
Definition load_iter (p : option loc) : M ast listIter := deref a_iters p.

(** A store to some fields of a structure. *)
Definition upd_node (p : option loc) (f : listNode → listNode) : M ast unit :=
  n ← load_node p;
  match p with Some l => upd_nodes (<[l := f n]>) | None => mret tt end.
Definition upd_list (p : option loc) (f : adlist → adlist) : M ast unit :=
  x ← load_list p;
  match p with Some l => upd_lists (<[l := f x]>) | None => mret tt end.
Definition upd_iter (p : option loc) (f : listIter → listIter) : M ast unit :=
  x ← load_iter p;
  match p with Some l => upd_iters (<[l := f x]>) | None => mret tt end.

(** Whether the next [malloc] succeeds. *)
Definition malloc_succeeds : M ast bool := λ s,
  match a_plan s with
  | [] => Ok (true, s)
  | b :: plan => Ok (b, Ast (a_lists s) (a_nodes s) (a_iters s) plan (a_calls s))
  end.

(** [free] of a structure; freeing NULL does nothing. *)
Definition free_at {A} (h : ast → gmap loc A) (upd : (gmap loc A → gmap loc A) → M ast unit)
    (p : option loc) : M ast unit :=
  match p with
  | None => mret tt
  | Some l =>
    m ← gets h;
    match m !! l with None => fail FDangling | Some _ => upd (delete l) end
  end.
Definition free_node (p : option loc) : M ast unit := free_at a_nodes upd_nodes p.
Definition free_list (p : option loc) : M ast unit := free_at a_lists upd_lists p.
Definition free_iter (p : option loc) : M ast unit := free_at a_iters upd_iters p.

Section Adlist.

(** What the methods answer, after the calls so far, and the contents of fresh
    memory. *)
Context (dup_fn : list call → Z → Z → Z) (match_fn : list call → Z → Z → Z → bool).
Context (junk_node : listNode) (junk_list : adlist) (junk_iter : listIter).

Definition malloc_node : M ast (option loc) :=
  ok ← malloc_succeeds;
  if (ok : bool) then
    m ← gets a_nodes; let l := fresh_loc m in upd_nodes (<[l := junk_node]>);; mret (Some l)
  else mret None.
Definition malloc_list : M ast (option loc) :=
  ok ← malloc_succeeds;
  if (ok : bool) then
    m ← gets a_lists; let l := fresh_loc m in upd_lists (<[l := junk_list]>);; mret (Some l)
  else mret None.
Definition malloc_iter : M ast (option loc) :=
  ok ← malloc_succeeds;
  if (ok : bool) then
    m ← gets a_iters; let l := fresh_loc m in upd_iters (<[l := junk_iter]>);; mret (Some l)
  else mret None.

Definition call_dup (f ptr : Z) : M ast Z :=
  cs ← gets a_calls; let r := dup_fn cs f ptr in log_call (CallDup f ptr r);; mret r.
Definition call_free (f ptr : Z) : M ast unit := log_call (CallFree f ptr).
Definition call_match (f ptr key : Z) : M ast bool :=
  cs ← gets a_calls; let r := match_fn cs f ptr key in log_call (CallMatch f ptr key r);; mret r.

(** ** Operations *)

Definition listCreate : M ast (option loc) :=
  list ← malloc_list;
  match list with
  | None => mret None
  | Some _ => upd_list list (λ _, List None None None None None 0);; mret list
  end.

(** [while (len--)] *)
Fixpoint release_loop (n : nat) (list current : option loc) : M ast unit :=
  match n with
  | O => mret tt
  | S n' =>
    c ← load_node current;
    l ← load_list list;
    match free l with Some f => call_free f (value c) | None => mret tt end;;
    free_node current;;
    release_loop n' list (next c)
  end.

Definition listRelease (list : option loc) : M ast unit :=
  l ← load_list list;
  release_loop (Z.to_nat (len l)) list (head l);;
  free_list list.

Definition incr_len (list : option loc) : M ast unit :=
  upd_list list (λ l, set_len (u64 (len l + 1)) l).

Definition listAddNodeHead (list : option loc) (v : Z) : M ast (option loc) :=
  node ← malloc_node;
  match node with
  | None => mret None
  | Some _ =>
    upd_node node (set_value v);;
    l ← load_list list;
    (if (len l =? 0)%Z then
       upd_list list (set_tail node);; upd_list list (set_head node);;
       upd_node node (set_next None);; upd_node node (set_prev None)
     else
       upd_node node (set_prev None);; upd_node node (set_next (head l));;
       upd_node (head l) (set_prev node);; upd_list list (set_head node));;
    incr_len list;;
    mret list
  end.

Definition listAddNodeTail (list : option loc) (v : Z) : M ast (option loc) :=
  node ← malloc_node;
  match node with
  | None => mret None
  | Some _ =>
    upd_node node (set_value v);;
    l ← load_list list;
    (if (len l =? 0)%Z then
       upd_list list (set_tail node);; upd_list list (set_head node);;
       upd_node node (set_next None);; upd_node node (set_prev None)
     else
       upd_node node (set_next None);; upd_node node (set_prev (tail l));;
       upd_node (tail l) (set_next node);; upd_list list (set_tail node));;
    incr_len list;;
    mret list
  end.

Definition listInsertNode (list old_node : option loc) (v : Z) (after : bool)
    : M ast (option loc) :=
  node ← malloc_node;
  match node with
  | None => mret None
  | Some _ =>
    upd_node node (set_value v);;
    (if after then
       o ← load_node old_node;
       upd_node node (set_next (next o));; upd_node node (set_prev old_node);;
       l ← load_list list;
       when (bool_decide (tail l = old_node)) (upd_list list (set_tail node))
     else
       upd_node node (set_next old_node);;
       o ← load_node old_node;
       upd_node node (set_prev (prev o));;
       l ← load_list list;
       when (bool_decide (head l = old_node)) (upd_list list (set_head node)));;
    n ← load_node node;
    when (bool_decide (prev n ≠ None)) (upd_node (prev n) (set_next node));;
    n ← load_node node;
    when (bool_decide (next n ≠ None)) (upd_node (next n) (set_prev node));;
    incr_len list;;
    mret list
  end.

Definition listDelNode (list node : option loc) : M ast unit :=
  n ← load_node node;
  (if bool_decide (prev n ≠ None) then upd_node (prev n) (set_next (next n))
   else upd_list list (set_head (next n)));;
  n ← load_node node;
  (if bool_decide (next n ≠ None) then upd_node (next n) (set_prev (prev n))
   else upd_list list (set_tail (prev n)));;
  l ← load_list list;
  match free l with
  | Some f => n ← load_node node; call_free f (value n)
  | None => mret tt
  end;;
  free_node node;;
  upd_list list (λ l, set_len (u64 (len l - 1)) l).

Definition listGetIterator (list : option loc) (dir : Z) : M ast (option loc) :=
  iter ← malloc_iter;
  match iter with
  | None => mret None
  | Some _ =>
    l ← load_list list;
    upd_iter iter (λ it, ListIter (if (dir =? AL_START_HEAD)%Z then head l else tail l)
      (direction it));;
    upd_iter iter (λ it, ListIter (it_next it) dir);;
    mret iter
  end.

Definition listNext (iter : option loc) : M ast (option loc) :=
  it ← load_iter iter;
  let current := it_next it in
  match current with
  | None => mret None
  | Some _ =>
    c ← load_node current;
    upd_iter iter (λ it, ListIter
      (if (direction it =? AL_START_HEAD)%Z then next c else prev c) (direction it));;
    mret current
  end.

Definition listReleaseIterator (iter : option loc) : M ast unit := free_iter iter.

(** The [while] of [listDup], one node per unit of fuel; false is [return NULL]. *)
Fixpoint dup_loop (fuel : nat) (copy iter : option loc) : M ast bool :=
  match fuel with
  | O => fail FFuel
  | S fuel' =>
    node ← listNext iter;
    match node with
    | None => mret true
    | Some _ =>
      n ← load_node node;
      c ← load_list copy;
      v ← match dup c with Some f => call_dup f (value n) | None => mret (value n) end;
      if bool_decide (is_Some (dup c)) && (v =? 0)%Z then
        listRelease copy;; listReleaseIterator iter;; mret false
      else
        r ← listAddNodeTail copy v;
        match r with
        | None => listRelease copy;; listReleaseIterator iter;; mret false
        | Some _ => dup_loop fuel' copy iter
        end
    end
  end.

Definition loop_fuel (s : ast) : nat := S (size (a_nodes s)).

(** The [return;] when the copy cannot be allocated leaves no value. *)
Definition listDup (orig : option loc) : M ast (option loc) :=
  copy ← listCreate;
  match copy with
  | None => fail FNoValue
  | Some _ =>
    o ← load_list orig;
    upd_list copy (set_methods (dup o) (free o) (match_ o));;
    iter ← listGetIterator orig AL_START_HEAD;
    fuel ← gets loop_fuel;
    ok ← dup_loop fuel copy iter;
    if (ok : bool) then listReleaseIterator iter;; mret copy else mret None
  end.

Fixpoint search_loop (fuel : nat) (list iter : option loc) (key : Z) : M ast (option loc) :=
  match fuel with
  | O => fail FFuel
  | S fuel' =>
    node ← listNext iter;
    match node with
    | None => listReleaseIterator iter;; mret None
    | Some _ =>
      l ← load_list list;
      n ← load_node node;
      found ← match match_ l with
              | Some f => call_match f (value n) key
              | None => mret (bool_decide (key = value n))
              end;
      if (found : bool) then listReleaseIterator iter;; mret node
      else search_loop fuel' list iter key
    end
  end.

Definition listSearchKey (list : option loc) (key : Z) : M ast (option loc) :=
  iter ← listGetIterator list AL_START_HEAD;
  fuel ← gets loop_fuel;
  search_loop fuel list iter key.

(** [while (index-- && n) n = step n;] *)
Fixpoint index_loop (index : nat) (step : listNode → option loc) (n : option loc)
    : M ast (option loc) :=
  match index with
  | O => mret n
  | S index' =>
    match n with
    | None => mret None
    | Some _ => x ← load_node n; index_loop index' step (step x)
    end
  end.

(** The result of an operation on [long]s. *)
Definition long_res (z : Z) : res Z :=
  if bool_decide (- 2 ^ 63 ≤ z < 2 ^ 63)%Z then Ok z else Fault FOverflow.

Definition listIndex (list : option loc) (index : Z) : M ast (option loc) :=
  if (index <? 0)%Z then
    i ← lift (long_res (- index));
    i ← lift (long_res (i - 1));
    l ← load_list list;
    index_loop (Z.to_nat i) prev (tail l)
  else
    l ← load_list list;
    index_loop (Z.to_nat index) next (head l).

Definition listRewind (list li : option loc) : M ast unit :=
  upd_iter li (λ it, ListIter (it_next it) AL_START_HEAD);;
  l ← load_list list;
  upd_iter li (λ it, ListIter (head l) (direction it)).

Definition listRewindTail (list li : option loc) : M ast unit :=
  upd_iter li (λ it, ListIter (it_next it) AL_START_TAIL);;
  l ← load_list list;
  upd_iter li (λ it, ListIter (tail l) (direction it)).

Definition listRotate (list : option loc) : M ast unit :=
  l ← load_list list;
  let tl := tail l in
  if (len l <=? 1)%Z then mret tt
  else
    t ← load_node tl;
    upd_list list (set_tail (prev t));;
    t ← load_node tl;
    upd_node (prev t) (set_next None);;
    l ← load_list list;
    upd_node tl (set_next (head l));;
    upd_node tl (set_prev None);;
    l ← load_list list;
    upd_node (head l) (set_prev tl);;
    upd_list list (set_head tl).

End Adlist.

#[global] Arguments load_node : simpl never.
#[global] Arguments load_list : simpl never.
#[global] Arguments load_iter : simpl never.
#[global] Arguments upd_node : simpl never.
#[global] Arguments upd_list : simpl never.
#[global] Arguments upd_iter : simpl never.
#[global] Arguments free_node : simpl never.
#[global] Arguments free_list : simpl never.
#[global] Arguments free_iter : simpl never.

