(* ===== verification/AdlistProofs.v ===== *)
(** * AdlistProofs: the list of adlist.c as a doubly linked segment

    [list_at] says that a list structure heads a well-linked sequence of nodes;
    each operation of [Adlist] has a rule that says what it makes of that
    sequence, of the other memory, of the malloc plan and of the calls of the
    list's methods. *)
From stdpp Require Import gmap list.
From Stdlib Require Import ZArith.
From S2P Require Import Prelude Adlist.

(** ** Specification *)

(** A node of a list: its address and its value. *)
Abbreviation nref := (loc * Z)%type.
Abbreviation nlocs ns := ns.*1.
Abbreviation nvals ns := ns.*2.

(** The address of the first node, or [q]; of the last node, or [p]. *)
Definition first_of (ns : list nref) (q : option loc) : option loc :=
  match ns with [] => q | r :: _ => Some r.1 end.
Definition last_of (p : option loc) (ns : list nref) : option loc :=
  match last ns with Some r => Some r.1 | None => p end.

(** The nodes [ns], linked both ways, between [p] and [q]. *)
Fixpoint dlseg (h : gmap loc listNode) (p : option loc) (ns : list nref) (q : option loc)
    : Prop :=
  match ns with
  | [] => True
  | r :: ns' => h !! r.1 = Some (ListNode p (first_of ns' q) r.2) ∧ dlseg h (Some r.1) ns' q
  end.

(** The list at [a] holds the nodes [ns]. *)
Record list_at (s : ast) (a : loc) (x : adlist) (ns : list nref) : Prop := {
  la_list : a_lists s !! a = Some x;
  la_head : head x = first_of ns None;
  la_tail : tail x = last_of None ns;
  la_seg : dlseg (a_nodes s) None ns None;
  la_nodup : NoDup (nlocs ns);
  la_len : len x = Z.of_nat (length ns);
  la_max : (Z.of_nat (length ns) < 2 ^ 64)%Z
}.

(** What an operation on the list [a] leaves alone. *)
Record aframe (s s' : ast) (a : loc) (ns ns' : list nref) : Prop := {
  af_lists : ∀ l, l ≠ a → a_lists s' !! l = a_lists s !! l;
  af_nodes : ∀ l, l ∉ nlocs ns → l ∉ nlocs ns' → a_nodes s' !! l = a_nodes s !! l;
  af_new : ∀ l, l ∈ nlocs ns' → l ∈ nlocs ns ∨ a_nodes s !! l = None;
  af_gone : ∀ l, l ∈ nlocs ns → l ∉ nlocs ns' → a_nodes s' !! l = None;
  af_iters : a_iters s' = a_iters s
}.

(** ** Segments *)

Lemma last_of_snoc p ns r : last_of p (ns ++ [r]) = Some r.1.
Proof. unfold last_of. by rewrite last_snoc. Qed.

Lemma last_of_cons p r ns : last_of p (r :: ns) = last_of (Some r.1) ns.
Proof. unfold last_of. rewrite last_cons. by destruct (last ns). Qed.

Lemma last_of_app p ns1 ns2 : last_of p (ns1 ++ ns2) = last_of (last_of p ns1) ns2.
Proof.
  unfold last_of. rewrite last_app. by destruct (last ns2); [|destruct (last ns1)].
Qed.

Lemma first_of_app ns1 ns2 q : first_of (ns1 ++ ns2) q = first_of ns1 (first_of ns2 q).
Proof. by destruct ns1. Qed.

Lemma last_of_elem p ns l : last_of p ns = Some l → l ∈ nlocs ns ∨ p = Some l.
Proof.
  unfold last_of. destruct (last ns) as [r|] eqn:E; [|by right]. intros [= <-]. left.
  apply list_elem_of_fmap_2. rewrite last_lookup in E. by eapply list_elem_of_lookup_2.
Qed.

Lemma dlseg_app h ns1 ns2 p q : dlseg h p (ns1 ++ ns2) q ↔
  dlseg h p ns1 (first_of ns2 q) ∧ dlseg h (last_of p ns1) ns2 q.
Proof.
  revert p. induction ns1 as [|r ns1 IH]; intros p; simpl; [tauto|].
  rewrite first_of_app, IH, last_of_cons. tauto.
Qed.

Lemma dlseg_ext h h' ns p q : (∀ l, l ∈ nlocs ns → h' !! l = h !! l) →
  dlseg h p ns q → dlseg h' p ns q.
Proof.
  revert p. induction ns as [|r ns IH]; intros p Hext; simpl; [done|].
  rewrite Hext by set_solver. intros [? ?]. split; [done|]. apply IH; [set_solver|done].
Qed.

Lemma dlseg_lookup h ns p q l : dlseg h p ns q → l ∈ nlocs ns → is_Some (h !! l).
Proof.
  revert p. induction ns as [|r ns IH]; intros p; simpl; [set_solver|].
  intros [? ?] [->|]%elem_of_cons; eauto.
Qed.

(** Another successor for the last node, another predecessor for the first. *)
Lemma dlseg_relink_last h h' ns p q q' : NoDup (nlocs ns) → dlseg h p ns q →
  (∀ l n, last_of None ns = Some l → h !! l = Some n → h' !! l = Some (set_next q' n)) →
  (∀ l, l ∈ nlocs ns → last_of None ns ≠ Some l → h' !! l = h !! l) →
  dlseg h' p ns q'.
Proof.
  intros Hnd Hs Hlast Hext. destruct ns as [|r ns _] using rev_ind; [done|].
  rewrite dlseg_app in Hs |- *. destruct Hs as [Hs1 [Hr _]]. simpl in Hr |- *.
  rewrite last_of_snoc in Hlast, Hext. rewrite fmap_app in Hnd, Hext. simpl in Hnd, Hext.
  apply NoDup_app in Hnd as (_&Hd&_). split_and!; [|by rewrite (Hlast _ _ eq_refl Hr)|done].
  eapply dlseg_ext; [|done]. intros l Hl. apply Hext; [set_solver|].
  intros [= <-]. eapply Hd; [done|]. set_solver.
Qed.

Lemma dlseg_relink_first h h' ns p p' q : NoDup (nlocs ns) → dlseg h p ns q →
  (∀ l n, first_of ns None = Some l → h !! l = Some n → h' !! l = Some (set_prev p' n)) →
  (∀ l, l ∈ nlocs ns → first_of ns None ≠ Some l → h' !! l = h !! l) →
  dlseg h' p' ns q.
Proof.
  intros Hnd Hs Hfirst Hext. destruct ns as [|r ns]; [done|]. simpl in *.
  destruct Hs as [Hr Hs]. apply NoDup_cons in Hnd as [Hn Hnd].
  split; [by rewrite (Hfirst _ _ eq_refl Hr)|].
  eapply dlseg_ext; [|done]. intros l Hl. apply Hext; [set_solver|]. intros [= <-]. done.
Qed.

(** The nodes around a place that gets the neighbours [a] and [b]. *)
Record relinked (h h' : gmap loc listNode) (ns1 ns2 : list nref) (a b : option loc) : Prop := {
  rl_last : ∀ l n, last_of None ns1 = Some l → h !! l = Some n → h' !! l = Some (set_next a n);
  rl_first : ∀ l n, first_of ns2 None = Some l → h !! l = Some n → h' !! l = Some (set_prev b n);
  rl_rest : ∀ l, l ∈ nlocs (ns1 ++ ns2) → last_of None ns1 ≠ Some l →
    first_of ns2 None ≠ Some l → h' !! l = h !! l
}.

Lemma first_of_elem ns l : first_of ns None = Some l → l ∈ nlocs ns.
Proof. destruct ns as [|r ns]; [done|]. intros [= <-]. by left. Qed.

Lemma relinked_segs h h' ns1 ns2 q p a b : NoDup (nlocs (ns1 ++ ns2)) →
  dlseg h None ns1 q → dlseg h p ns2 None → relinked h h' ns1 ns2 a b →
  dlseg h' None ns1 a ∧ dlseg h' b ns2 None.
Proof.
  rewrite fmap_app. intros Hnd H1 H2 [Hl Hf Hr]. rewrite fmap_app in Hr.
  apply NoDup_app in Hnd as (Hnd1&Hd&Hnd2). split.
  - eapply dlseg_relink_last; [done..|]. intros l Hin Hne. apply Hr; [set_solver|done|].
    intros E%first_of_elem. by eapply Hd.
  - eapply dlseg_relink_first; [done..|]. intros l Hin Hne. apply Hr; [set_solver| |done].
    intros E%last_of_elem. destruct E as [E|?]; [by eapply Hd|done].
Qed.

(** A new node between [ns1] and [ns2]; a node between them taken out. *)
Lemma dlseg_insert h h' ns1 ns2 x v : NoDup (nlocs (ns1 ++ ns2)) →
  dlseg h None (ns1 ++ ns2) None → relinked h h' ns1 ns2 (Some x) (Some x) →
  h' !! x = Some (ListNode (last_of None ns1) (first_of ns2 None) v) →
  dlseg h' None (ns1 ++ (x, v) :: ns2) None.
Proof.
  intros Hnd [H1 H2]%dlseg_app Hr Hx. apply dlseg_app. simpl.
  destruct (relinked_segs h h' ns1 ns2 _ _ (Some x) (Some x) Hnd H1 H2 Hr). done.
Qed.

Lemma dlseg_remove h h' ns1 ns2 r : NoDup (nlocs (ns1 ++ r :: ns2)) →
  dlseg h None (ns1 ++ r :: ns2) None →
  relinked h h' ns1 ns2 (first_of ns2 None) (last_of None ns1) →
  dlseg h' None (ns1 ++ ns2) None.
Proof.
  intros Hnd [H1 [Hr H2]]%dlseg_app Hrl. apply dlseg_app.
  assert (Hnd' : NoDup (nlocs (ns1 ++ ns2))).
  { rewrite fmap_app in Hnd |- *. simpl in Hnd. rewrite <- Permutation_middle in Hnd.
    by apply NoDup_cons in Hnd as [_ ?]. }
  by destruct (relinked_segs h h' ns1 ns2 _ _ _ _ Hnd' H1 H2 Hrl).
Qed.

(** ** Rules *)

Definition with_nodes m (s : ast) := Ast (a_lists s) m (a_iters s) (a_plan s) (a_calls s).
Definition with_lists m (s : ast) := Ast m (a_nodes s) (a_iters s) (a_plan s) (a_calls s).
Definition with_iters m (s : ast) := Ast (a_lists s) (a_nodes s) m (a_plan s) (a_calls s).
Definition with_call c (s : ast) :=
  Ast (a_lists s) (a_nodes s) (a_iters s) (a_plan s) (a_calls s ++ [c]).

(** Whether the next [malloc] succeeds, and the state after it was asked. *)
Definition plan_ok (s : ast) : bool := default true (hd_error (a_plan s)).
Definition pop (s : ast) : ast :=
  Ast (a_lists s) (a_nodes s) (a_iters s) (tl (a_plan s)) (a_calls s).

Lemma wp_load_node l n (Q : listNode → ast → Prop) s :
  a_nodes s !! l = Some n → Q n s → wp (load_node (Some l)) Q s.
Proof. intros E HQ. unfold load_node, deref. wp_step. wp_step. by rewrite E. Qed.

Lemma wp_load_list l x (Q : adlist → ast → Prop) s :
  a_lists s !! l = Some x → Q x s → wp (load_list (Some l)) Q s.
Proof. intros E HQ. unfold load_list, deref. wp_step. wp_step. by rewrite E. Qed.

Lemma wp_load_iter l x (Q : listIter → ast → Prop) s :
  a_iters s !! l = Some x → Q x s → wp (load_iter (Some l)) Q s.
Proof. intros E HQ. unfold load_iter, deref. wp_step. wp_step. by rewrite E. Qed.

Lemma wp_upd_node l n f (Q : unit → ast → Prop) s : a_nodes s !! l = Some n →
  Q tt (with_nodes (<[l := f n]> (a_nodes s)) s) → wp (upd_node (Some l) f) Q s.
Proof. intros E HQ. unfold upd_node. wp_step. by eapply wp_load_node. Qed.

Lemma wp_upd_list l x f (Q : unit → ast → Prop) s : a_lists s !! l = Some x →
  Q tt (with_lists (<[l := f x]> (a_lists s)) s) → wp (upd_list (Some l) f) Q s.
Proof. intros E HQ. unfold upd_list. wp_step. by eapply wp_load_list. Qed.

Lemma wp_upd_iter l x f (Q : unit → ast → Prop) s : a_iters s !! l = Some x →
  Q tt (with_iters (<[l := f x]> (a_iters s)) s) → wp (upd_iter (Some l) f) Q s.
Proof. intros E HQ. unfold upd_iter. wp_step. by eapply wp_load_iter. Qed.

Lemma wp_free_node l n (Q : unit → ast → Prop) s : a_nodes s !! l = Some n →
  Q tt (with_nodes (delete l (a_nodes s)) s) → wp (free_node (Some l)) Q s.
Proof. intros E HQ. unfold free_node, free_at. wp_step. wp_step. by rewrite E. Qed.

Lemma wp_free_list l x (Q : unit → ast → Prop) s : a_lists s !! l = Some x →
  Q tt (with_lists (delete l (a_lists s)) s) → wp (free_list (Some l)) Q s.
Proof. intros E HQ. unfold free_list, free_at. wp_step. wp_step. by rewrite E. Qed.

Lemma wp_free_iter l x (Q : unit → ast → Prop) s : a_iters s !! l = Some x →
  Q tt (with_iters (delete l (a_iters s)) s) → wp (free_iter (Some l)) Q s.
Proof. intros E HQ. unfold free_iter, free_at. wp_step. wp_step. by rewrite E. Qed.

Lemma wp_malloc_succeeds (Q : bool → ast → Prop) s :
  Q (plan_ok s) (pop s) → wp malloc_succeeds Q s.
Proof.
  destruct s as [ls ns its [|b plan] cs]; unfold plan_ok, pop, wp, malloc_succeeds; done.
Qed.

(** The pure map facts of the programs below. *)
Ltac map_done := simpl; simplify_map_eq; try done.

(** [wp_step] and the loads and stores of structures the context knows. *)
Ltac al_step :=
  first
    [ wp_step
    | lazymatch goal with
      | |- wp (call_free _ _) _ _ => apply wp_modify
      | |- wp (load_node (Some ?l)) _ _ => eapply wp_load_node; [solve [map_done]|]
      | |- wp (load_list (Some ?l)) _ _ => eapply wp_load_list; [solve [map_done]|]
      | |- wp (load_iter (Some ?l)) _ _ => eapply wp_load_iter; [solve [map_done]|]
      | |- wp (upd_node (Some ?l) _) _ _ => eapply wp_upd_node; [solve [map_done]|]
      | |- wp (upd_list (Some ?l) _) _ _ => eapply wp_upd_list; [solve [map_done]|]
      | |- wp (upd_iter (Some ?l) _) _ _ => eapply wp_upd_iter; [solve [map_done]|]
      | |- wp (free_node (Some ?l)) _ _ => eapply wp_free_node; [solve [map_done]|]
      | |- wp (free_list (Some ?l)) _ _ => eapply wp_free_list; [solve [map_done]|]
      | |- wp (free_iter (Some ?l)) _ _ => eapply wp_free_iter; [solve [map_done]|]
      end; cbv beta ];
  cbn [with_nodes with_lists with_iters with_call pop a_lists a_nodes a_iters a_plan a_calls].

(** ** The lists after an insertion and a removal *)

Lemma list_at_insert s s' a x x' ns1 ns2 p v : list_at s a x (ns1 ++ ns2) →
  a_nodes s !! p = None → (Z.of_nat (S (length (ns1 ++ ns2))) < 2 ^ 64)%Z →
  a_lists s' = <[a := x']> (a_lists s) → a_iters s' = a_iters s →
  head x' = first_of ns1 (Some p) → tail x' = last_of (Some p) ns2 → len x' = u64 (len x + 1) →
  relinked (a_nodes s) (a_nodes s') ns1 ns2 (Some p) (Some p) →
  a_nodes s' !! p = Some (ListNode (last_of None ns1) (first_of ns2 None) v) →
  (∀ l, l ≠ p → l ∉ nlocs (ns1 ++ ns2) → a_nodes s' !! l = a_nodes s !! l) →
  list_at s' a x' (ns1 ++ (p, v) :: ns2) ∧
  aframe s s' a (ns1 ++ ns2) (ns1 ++ (p, v) :: ns2).
Proof.
  intros [Hl Hh Ht Hs Hnd Hlen Hmax] Hp Hroom El Ei Eh Et Elen Hr Hx Hrest.
  assert (Hpn : p ∉ nlocs (ns1 ++ ns2)).
  { intros Hin. destruct (dlseg_lookup _ _ _ _ _ Hs Hin) as [n Hn]. congruence. }
  assert (Hperm : nlocs (ns1 ++ (p, v) :: ns2) ≡ₚ p :: nlocs (ns1 ++ ns2)).
  { rewrite !fmap_app. simpl. by rewrite Permutation_middle. }
  assert (Elength : length (ns1 ++ (p, v) :: ns2) = S (length (ns1 ++ ns2))).
  { rewrite !length_app. simpl. lia. }
  split; constructor.
  - by rewrite El, lookup_insert_eq.
  - rewrite Eh, first_of_app. done.
  - rewrite Et, last_of_app, last_of_cons. done.
  - by eapply dlseg_insert.
  - rewrite Hperm. by apply NoDup_cons.
  - rewrite Elen, Hlen, Elength. unfold u64. rewrite Z.mod_small by lia. lia.
  - by rewrite Elength.
  - intros l Hne. by rewrite El, lookup_insert_ne.
  - intros l Hn1 Hn2. rewrite Hperm in Hn2. apply Hrest; set_solver.
  - intros l. rewrite Hperm. intros [->|?]%elem_of_cons; [by right|by left].
  - intros l Hin Hn. rewrite Hperm in Hn. set_solver.
  - done.
Qed.

Lemma list_at_remove s s' a x x' ns1 ns2 r : list_at s a x (ns1 ++ r :: ns2) →
  a_lists s' = <[a := x']> (a_lists s) → a_iters s' = a_iters s →
  head x' = first_of ns1 (first_of ns2 None) → tail x' = last_of (last_of None ns1) ns2 →
  len x' = u64 (len x - 1) →
  relinked (a_nodes s) (a_nodes s') ns1 ns2 (first_of ns2 None) (last_of None ns1) →
  (∀ l, l ∉ nlocs (ns1 ++ ns2) → a_nodes s' !! l = delete r.1 (a_nodes s) !! l) →
  list_at s' a x' (ns1 ++ ns2) ∧ aframe s s' a (ns1 ++ r :: ns2) (ns1 ++ ns2).
Proof.
  intros [Hl Hh Ht Hs Hnd Hlen Hmax] El Ei Eh Et Elen Hr Hrest.
  assert (Hperm : nlocs (ns1 ++ r :: ns2) ≡ₚ r.1 :: nlocs (ns1 ++ ns2)).
  { rewrite !fmap_app. simpl. by rewrite Permutation_middle. }
  pose proof Hnd as Hnd'. rewrite Hperm in Hnd'. apply NoDup_cons in Hnd' as [Hn Hnd'].
  assert (Elength : length (ns1 ++ r :: ns2) = S (length (ns1 ++ ns2))).
  { rewrite !length_app. simpl. lia. }
  split; constructor.
  - by rewrite El, lookup_insert_eq.
  - by rewrite Eh, first_of_app.
  - by rewrite Et, last_of_app.
  - by eapply dlseg_remove.
  - done.
  - rewrite Elen, Hlen, Elength. unfold u64. rewrite Elength in Hmax.
    rewrite Z.mod_small by lia. lia.
  - rewrite Elength in Hmax. lia.
  - intros l Hne. by rewrite El, lookup_insert_ne.
  - intros l Hn1 Hn2. rewrite Hrest, lookup_delete_ne; [done| |done].
    intros <-. apply Hn1. rewrite Hperm. by left.
  - intros l Hin. left. rewrite Hperm. by right.
  - intros l Hin Hn2. rewrite Hrest by done. rewrite Hperm in Hin.
    apply elem_of_cons in Hin as [->|?]; [|done]. by rewrite lookup_delete_eq.
  - done.
Qed.

(** ** The operations *)

Section AdlistProofs.
Context (dup_fn : list call → Z → Z → Z) (match_fn : list call → Z → Z → Z → bool).
Context (junk_node : listNode) (junk_list : adlist) (junk_iter : listIter).

Lemma wp_malloc_node (Q : option loc → ast → Prop) s :
  (plan_ok s = true → ∀ p, a_nodes s !! p = None →
     Q (Some p) (with_nodes (<[p := junk_node]> (a_nodes s)) (pop s))) →
  (plan_ok s = false → Q None (pop s)) → wp (malloc_node junk_node) Q s.
Proof.
  intros H1 H2. unfold malloc_node. wp_step. apply wp_malloc_succeeds.
  destruct (plan_ok s); repeat wp_step; [apply H1; [done|apply lookup_fresh]|by apply H2].
Qed.

Lemma wp_malloc_list (Q : option loc → ast → Prop) s :
  (plan_ok s = true → ∀ p, a_lists s !! p = None →
     Q (Some p) (with_lists (<[p := junk_list]> (a_lists s)) (pop s))) →
  (plan_ok s = false → Q None (pop s)) → wp (malloc_list junk_list) Q s.
Proof.
  intros H1 H2. unfold malloc_list. wp_step. apply wp_malloc_succeeds.
  destruct (plan_ok s); repeat wp_step; [apply H1; [done|apply lookup_fresh]|by apply H2].
Qed.

Lemma wp_malloc_iter (Q : option loc → ast → Prop) s :
  (plan_ok s = true → ∀ p, a_iters s !! p = None →
     Q (Some p) (with_iters (<[p := junk_iter]> (a_iters s)) (pop s))) →
  (plan_ok s = false → Q None (pop s)) → wp (malloc_iter junk_iter) Q s.
Proof.
  intros H1 H2. unfold malloc_iter. wp_step. apply wp_malloc_succeeds.
  destruct (plan_ok s); repeat wp_step; [apply H1; [done|apply lookup_fresh]|by apply H2].
Qed.

(** An insertion: the list gets a node with a fresh address, or [malloc] failed and
    nothing changed. *)
Definition inserted (s : ast) (a : loc) (x : adlist) (ns1 ns2 : list nref) (v : Z)
    (r : option loc) (s' : ast) : Prop :=
  if plan_ok s then
    r = Some a ∧ a_plan s' = a_plan (pop s) ∧ a_calls s' = a_calls s ∧ ∃ p x',
      a_nodes s !! p = None ∧ dup x' = dup x ∧ free x' = free x ∧ match_ x' = match_ x ∧
      list_at s' a x' (ns1 ++ (p, v) :: ns2) ∧
      aframe s s' a (ns1 ++ ns2) (ns1 ++ (p, v) :: ns2)
  else r = None ∧ s' = pop s.

(** *** Links *)

Lemma first_of_last ns l q q' : last_of None ns = Some l → first_of ns q = first_of ns q'.
Proof. by destruct ns. Qed.

(** The links of the code: the node before, or the head, gets its next node, and the node
    behind, or the tail, its previous one. *)
Definition link_next (p q : option loc) (h : gmap loc listNode) : gmap loc listNode :=
  match p with Some l => alter (set_next q) l h | None => h end.
Definition link_prev (p q : option loc) (h : gmap loc listNode) : gmap loc listNode :=
  match q with Some l => alter (set_prev p) l h | None => h end.
Definition link_head (p q : option loc) (x : adlist) : adlist :=
  match p with Some _ => x | None => set_head q x end.
Definition link_tail (p q : option loc) (x : adlist) : adlist :=
  match q with Some _ => x | None => set_tail p x end.

Lemma alter_insert_at {V} (f : V → V) l (m : gmap loc V) v :
  m !! l = Some v → alter f l m = <[l := f v]> m.
Proof. intros H. by rewrite <- (insert_id m l v H) at 1; rewrite alter_insert_eq. Qed.

Lemma link_next_other p q h l : p ≠ Some l → link_next p q h !! l = h !! l.
Proof. destruct p; [|done]. intros H. apply lookup_alter_ne. congruence. Qed.

Lemma link_prev_other p q h l : q ≠ Some l → link_prev p q h !! l = h !! l.
Proof. destruct q; [|done]. intros H. apply lookup_alter_ne. congruence. Qed.

Lemma link_next_wp a x p q (Q : ast → Prop) s : a_lists s !! a = Some x →
  (∀ l, p = Some l → is_Some (a_nodes s !! l)) →
  Q (with_lists (<[a := link_head p q x]> (a_lists s)) (with_nodes (link_next p q (a_nodes s)) s)) →
  wp (if bool_decide (p ≠ None) then upd_node p (set_next q) else upd_list (Some a) (set_head q))
    (λ _ s', Q s') s.
Proof.
  intros Hl Hp HQ. destruct p as [l|]; cbn [link_next link_head] in HQ.
  - destruct (Hp l eq_refl) as [n Hn]. rewrite bool_decide_eq_true_2 by done. al_step.
    rewrite (alter_insert_at _ _ _ _ Hn), insert_id in HQ by done. by destruct s.
  - rewrite bool_decide_eq_false_2 by (intros E; by apply E). al_step. by destruct s.
Qed.

Lemma link_prev_wp a x p q (Q : ast → Prop) s : a_lists s !! a = Some x →
  (∀ l, q = Some l → is_Some (a_nodes s !! l)) →
  Q (with_lists (<[a := link_tail p q x]> (a_lists s)) (with_nodes (link_prev p q (a_nodes s)) s)) →
  wp (if bool_decide (q ≠ None) then upd_node q (set_prev p) else upd_list (Some a) (set_tail p))
    (λ _ s', Q s') s.
Proof.
  intros Hl Hp HQ. destruct q as [l|]; cbn [link_prev link_tail] in HQ.
  - destruct (Hp l eq_refl) as [n Hn]. rewrite bool_decide_eq_true_2 by done. al_step.
    rewrite (alter_insert_at _ _ _ _ Hn), insert_id in HQ by done. by destruct s.
  - rewrite bool_decide_eq_false_2 by (intros E; by apply E). al_step. by destruct s.
Qed.

Lemma when_next_wp p q (Q : unit → ast → Prop) s :
  (∀ l, p = Some l → is_Some (a_nodes s !! l)) →
  Q tt (with_nodes (link_next p q (a_nodes s)) s) →
  wp (when (bool_decide (p ≠ None)) (upd_node p (set_next q))) Q s.
Proof.
  intros Hp HQ. destruct p as [l|]; cbn [link_next] in HQ.
  - destruct (Hp l eq_refl) as [n Hn]. rewrite bool_decide_eq_true_2 by done. cbn [when]. al_step.
    by rewrite <- (alter_insert_at _ _ _ _ Hn).
  - rewrite bool_decide_eq_false_2 by (intros E; by apply E). by destruct s.
Qed.

Lemma when_prev_wp p q (Q : unit → ast → Prop) s :
  (∀ l, q = Some l → is_Some (a_nodes s !! l)) →
  Q tt (with_nodes (link_prev p q (a_nodes s)) s) →
  wp (when (bool_decide (q ≠ None)) (upd_node q (set_prev p))) Q s.
Proof.
  intros Hp HQ. destruct q as [l|]; cbn [link_prev] in HQ.
  - destruct (Hp l eq_refl) as [n Hn]. rewrite bool_decide_eq_true_2 by done. cbn [when]. al_step.
    by rewrite <- (alter_insert_at _ _ _ _ Hn).
  - rewrite bool_decide_eq_false_2 by (intros E; by apply E). by destruct s.
Qed.

Lemma when_tail_wp a x r p q (Q : unit → ast → Prop) s : a_lists s !! a = Some x →
  (tail x = r ↔ q = None) → Q tt (with_lists (<[a := link_tail p q x]> (a_lists s)) s) →
  wp (when (bool_decide (tail x = r)) (upd_list (Some a) (set_tail p))) Q s.
Proof.
  intros Hl Hq HQ. case_bool_decide as E; cbn [when].
  - apply Hq in E as ->. by al_step.
  - destruct q; [|by destruct E; apply Hq]. cbn in HQ. rewrite insert_id in HQ by done. by destruct s.
Qed.

Lemma when_head_wp a x r p q (Q : unit → ast → Prop) s : a_lists s !! a = Some x →
  (head x = r ↔ p = None) → Q tt (with_lists (<[a := link_head p q x]> (a_lists s)) s) →
  wp (when (bool_decide (head x = r)) (upd_list (Some a) (set_head q))) Q s.
Proof.
  intros Hl Hq HQ. case_bool_decide as E; cbn [when].
  - apply Hq in E as ->. by al_step.
  - destruct p; [|by destruct E; apply Hq]. cbn in HQ. rewrite insert_id in HQ by done. by destruct s.
Qed.

Lemma head_link_tail p q x : head (link_tail p q x) = head x.
Proof. by destruct q. Qed.

Lemma tail_link_head p q x : tail (link_head p q x) = tail x.
Proof. by destruct p. Qed.

Lemma linked_head ns1 q x o : head x = first_of ns1 o →
  head (link_head (last_of None ns1) q x) = first_of ns1 q.
Proof.
  intros E. destruct (last_of None ns1) as [l|] eqn:E1; simpl.
  - rewrite E. by eapply first_of_last.
  - destruct ns1 as [|? ? _] using rev_ind; [done|by rewrite last_of_snoc in E1].
Qed.

Lemma linked_tail ns2 p x o : tail x = last_of o ns2 →
  tail (link_tail p (first_of ns2 None) x) = last_of p ns2.
Proof. intros E. destruct ns2 as [|r ns2]; [done|]. simpl in *. by rewrite E, !last_of_cons. Qed.

(** The segments around such a change: [h0] is the heap before the links, where the
    nodes of the segments are those of [h]. *)
Lemma links_relinked h h0 h' ns1 ns2 a b : NoDup (nlocs (ns1 ++ ns2)) →
  (∀ l, l ∈ nlocs (ns1 ++ ns2) → h0 !! l = h !! l ∧
     h' !! l = link_prev b (first_of ns2 None) (link_next (last_of None ns1) a h0) !! l) →
  relinked h h' ns1 ns2 a b.
Proof.
  rewrite fmap_app. intros (_&Hd&_)%NoDup_app Hh.
  assert (Hne : ∀ l, last_of None ns1 = Some l → first_of ns2 None ≠ Some l).
  { intros l E1 E2%first_of_elem. apply last_of_elem in E1 as [E1|?]; [|done]. by apply (Hd l). }
  constructor; rewrite ?fmap_app.
  - intros l n E Hn. destruct (Hh l) as [E0 ->].
    { apply elem_of_app. left. by apply last_of_elem in E as [E|?]. }
    rewrite link_prev_other by auto. rewrite E. simpl. by rewrite lookup_alter_eq, E0, Hn.
  - intros l n E Hn. destruct (Hh l) as [E0 ->].
    { apply elem_of_app. right. by apply first_of_elem. }
    rewrite E at 1. simpl. rewrite lookup_alter_eq, link_next_other, E0, Hn; [done|].
    intros E1. by apply (Hne l).
  - intros l Hin ??. destruct (Hh l Hin) as [<- ->].
    by rewrite link_prev_other, link_next_other.
Qed.

Lemma links_rest ns1 ns2 a b h l : l ∉ nlocs (ns1 ++ ns2) →
  link_prev b (first_of ns2 None) (link_next (last_of None ns1) a h) !! l = h !! l.
Proof.
  rewrite fmap_app. intros Hl. rewrite link_prev_other, link_next_other; [done| |].
  - intros E. apply last_of_elem in E as [E|?]; [|done]. set_solver.
  - intros E%first_of_elem. set_solver.
Qed.

(** *** The operations *)

(** The links an insertion writes, pointwise; [p] is the fresh node. *)
Ltac relink_done p :=
  constructor; simpl;
    [ intros ? ? [= <-] ?; by simplify_map_eq
    | intros ? ? [= <-] ?; by simplify_map_eq
    | intros l ???; assert (l ≠ p) by (intros ->; done);
      by rewrite ?lookup_insert_ne by congruence ].

Lemma len_zero x (ns : list nref) : len x = Z.of_nat (length ns) → (len x =? 0)%Z = bool_decide (ns = []).
Proof.
  intros ->. destruct ns as [|r ns]; [done|]. rewrite bool_decide_eq_false_2 by done.
  apply Z.eqb_neq. simpl. lia.
Qed.

(** The other node of a pointer into a list is not the fresh one. *)
Lemma fresh_ne (h : gmap loc listNode) p l n : h !! p = None → h !! l = Some n → p ≠ l.
Proof. intros ?? ->. congruence. Qed.

Lemma fresh_not_in s a x ns p : list_at s a x ns → a_nodes s !! p = None → p ∉ nlocs ns.
Proof.
  intros H Hp Hin. destruct (dlseg_lookup _ _ _ _ _ (la_seg _ _ _ _ H) Hin) as [n Hn]. congruence.
Qed.

Lemma addhead_wp s a x ns v : list_at s a x ns → (Z.of_nat (S (length ns)) < 2 ^ 64)%Z →
  wp (listAddNodeHead junk_node (Some a) v) (inserted s a x [] ns v) s.
Proof.
  intros H Hroom. pose proof H as [Hl Hh Ht Hs Hnd Hlen Hmax].
  unfold listAddNodeHead, incr_len. wp_step.
  apply wp_malloc_node; intros Hok; [intros p Hp|]; unfold inserted; rewrite Hok; [|by wp_step].
  pose proof (fresh_not_in _ _ _ _ _ H Hp) as Hpn.
  repeat al_step. rewrite (len_zero _ ns) by done. case_bool_decide as Hns.
  - subst ns. repeat al_step. split_and!; [done..|]. 
    exists p, (set_len (u64 (len x + 1)) (set_head (Some p) (set_tail (Some p) x))).
    do 4 (split; [done|]).
    eapply (list_at_insert s _ a x _ [] []); try done; simpl.
    + by rewrite !insert_insert_eq.
    + constructor; simpl; [done|done|]. intros l Hin. set_solver.
    + by simplify_map_eq.
    + intros l Hlp _. by rewrite !lookup_insert_ne.
  - destruct ns as [|[l1 v1] ns]; [done|]. simpl in Hh, Hs. destruct Hs as [Hn1 Hs].
    pose proof (fresh_ne _ _ _ _ Hp Hn1) as Hne. simpl in Hne.
    repeat al_step. rewrite Hh. repeat al_step. split_and!; [done..|].
    
    exists p, (set_len (u64 (len x + 1)) (set_head (Some p) x)).
    do 4 (split; [done|]).
    eapply (list_at_insert s _ a x _ [] ((l1, v1) :: ns)); try done; simpl.
    + by rewrite !insert_insert_eq.
    + by rewrite Ht, !last_of_cons.
    + relink_done p.
    + by simplify_map_eq.
    + intros l Hlp Hnl. apply not_elem_of_cons in Hnl as [? ?]. by rewrite !lookup_insert_ne.
Qed.

(** The last node of a non-empty list. *)
Lemma dlseg_last h ns r : dlseg h None (ns ++ [r]) None →
  h !! r.1 = Some (ListNode (last_of None ns) None r.2).
Proof. intros [_ [Hr _]]%dlseg_app. done. Qed.

Lemma addtail_wp s a x ns v : list_at s a x ns → (Z.of_nat (S (length ns)) < 2 ^ 64)%Z →
  wp (listAddNodeTail junk_node (Some a) v) (inserted s a x ns [] v) s.
Proof.
  intros H Hroom. pose proof H as [Hl Hh Ht Hs Hnd Hlen Hmax].
  unfold listAddNodeTail, incr_len. wp_step.
  apply wp_malloc_node; intros Hok; [intros p Hp|]; unfold inserted; rewrite Hok; [|by wp_step].
  pose proof (fresh_not_in _ _ _ _ _ H Hp) as Hpn.
  repeat al_step. rewrite (len_zero _ ns) by done. case_bool_decide as Hns.
  - subst ns. repeat al_step. split_and!; [done..|]. 
    exists p, (set_len (u64 (len x + 1)) (set_head (Some p) (set_tail (Some p) x))).
    do 4 (split; [done|]).
    eapply (list_at_insert s _ a x _ [] []); try done; simpl.
    + by rewrite !insert_insert_eq.
    + constructor; simpl; [done|done|]. intros l Hin. set_solver.
    + by simplify_map_eq.
    + intros l Hlp _. by rewrite !lookup_insert_ne.
  - destruct ns as [|[l1 v1] ns _] using rev_ind; [done|].
    pose proof (dlseg_last _ _ _ Hs) as Hn1. simpl in Hn1. rewrite last_of_snoc in Ht.
    pose proof (fresh_ne _ _ _ _ Hp Hn1) as Hne.
    repeat al_step. rewrite Ht. repeat al_step. split_and!; [done..|].
    
    exists p, (set_len (u64 (len x + 1)) (set_tail (Some p) x)).
    do 4 (split; [done|]).
    eapply (list_at_insert s _ a x _ (ns ++ [(l1, v1)]) []); rewrite ?app_nil_r; try done; simpl.
    + by rewrite !insert_insert_eq.
    + by destruct ns.
    + assert (El : last_of None (ns ++ [(l1, v1)]) = Some l1) by apply last_of_snoc.
      constructor; rewrite ?El, ?app_nil_r; simpl; [|done|].
      * intros ? ? [= <-] ?. by simplify_map_eq.
      * intros l ???. assert (l ≠ p) by (intros ->; done).
        by rewrite ?lookup_insert_ne by congruence.
    + rewrite last_of_snoc. by simplify_map_eq.
    + intros l Hlp Hnl. rewrite fmap_app in Hnl. simpl in Hnl.
      rewrite !lookup_insert_ne; set_solver.
Qed.

(** A node in the middle of a list. *)
Lemma dlseg_mid h ns1 ns2 r : dlseg h None (ns1 ++ r :: ns2) None →
  h !! r.1 = Some (ListNode (last_of None ns1) (first_of ns2 None) r.2).
Proof. by intros [_ [Hr _]]%dlseg_app. Qed.

Lemma last_of_mid ns1 ns2 r : NoDup (nlocs (ns1 ++ r :: ns2)) → ns2 ≠ [] →
  last_of None (ns1 ++ r :: ns2) ≠ Some r.1.
Proof.
  rewrite fmap_app. intros (_&_&Hnd)%NoDup_app Hne E. simpl in Hnd.
  apply NoDup_cons in Hnd as [Hn _]. apply Hn. clear Hn.
  destruct ns2 as [|r2 ns2 _] using rev_ind; [done|].
  rewrite last_of_app, last_of_cons, last_of_snoc in E. injection E as E.
  rewrite <- E, fmap_app. set_solver.
Qed.

Lemma first_of_mid ns1 ns2 r : NoDup (nlocs (ns1 ++ r :: ns2)) → ns1 ≠ [] →
  first_of (ns1 ++ r :: ns2) None ≠ Some r.1.
Proof.
  rewrite fmap_app. intros (_&Hd&_)%NoDup_app Hne. destruct ns1 as [|r1 ns1]; [done|].
  intros [= E]. apply (Hd r1.1); simpl; set_solver.
Qed.

(** The end of [listInsertNode], once the new node has its neighbours. *)
Lemma insert_finish s s1 a x x1 ns1 ns2 p v : list_at s a x (ns1 ++ ns2) →
  (Z.of_nat (S (length (ns1 ++ ns2))) < 2 ^ 64)%Z → plan_ok s = true → a_nodes s !! p = None →
  s1 = Ast (<[a := x1]> (a_lists s))
    (<[p := ListNode (last_of None ns1) (first_of ns2 None) v]> (a_nodes s))
    (a_iters s) (a_plan (pop s)) (a_calls s) →
  dup x1 = dup x → free x1 = free x → match_ x1 = match_ x → len x1 = len x →
  head x1 = first_of ns1 (Some p) → tail x1 = last_of (Some p) ns2 →
  wp (n ← load_node (Some p);
      when (bool_decide (prev n ≠ None)) (upd_node (prev n) (set_next (Some p)));;
      n ← load_node (Some p);
      when (bool_decide (next n ≠ None)) (upd_node (next n) (set_prev (Some p)));;
      incr_len (Some a);;
      mret (Some a)) (inserted s a x ns1 ns2 v) s1.
Proof.
  intros H Hroom Hok Hp -> Ed Ef Em El Eh Et. pose proof H as [_ _ _ Hs Hnd _ _].
  pose proof (fresh_not_in _ _ _ _ _ H Hp) as Hpn. al_step. al_step. cbn [prev next].
  set (N := <[p := _]> (a_nodes s)).
  assert (Hin : ∀ l, l ∈ nlocs (ns1 ++ ns2) → N !! l = a_nodes s !! l ∧ is_Some (N !! l)).
  { intros l Hl. subst N. rewrite lookup_insert_ne by (intros ->; done). split; [done|].
    by eapply dlseg_lookup. }
  assert (HP : ∀ l, last_of None ns1 = Some l → l ∈ nlocs (ns1 ++ ns2)).
  { intros l E. rewrite fmap_app. apply elem_of_app. left. by apply last_of_elem in E as [E|?]. }
  assert (HQ : ∀ l, first_of ns2 None = Some l → l ∈ nlocs (ns1 ++ ns2)).
  { intros l E. rewrite fmap_app. apply elem_of_app. right. by apply first_of_elem. }
  wp_step. apply when_next_wp; [intros l E; by apply Hin, HP|]. cbn.
  assert (HN : link_next (last_of None ns1) (Some p) N !! p = N !! p).
  { apply link_next_other. intros E. by apply Hpn, HP. }
  unfold N at 2 in HN. rewrite lookup_insert_eq in HN. al_step. al_step. cbn [prev next]. wp_step.
  apply when_prev_wp; cbn.
  { intros l E. destruct (Hin l (HQ l E)) as [_ Hl]. destruct (last_of None ns1); [|done].
    by apply lookup_alter_is_Some. }
  unfold incr_len. repeat al_step. unfold inserted. rewrite Hok. split_and!; [done..|].
  exists p, (set_len (u64 (len x1 + 1)) x1). do 4 (split; [done|]).
  eapply list_at_insert; try done; cbn.
  - by rewrite insert_insert_eq.
  - by rewrite El.
  - eapply links_relinked; [done|]. intros l Hl. split; [by apply Hin|done].
  - rewrite links_rest by done. apply lookup_insert_eq.
  - intros l Hlp Hl. rewrite links_rest by done. by apply lookup_insert_ne.
Qed.

Lemma insert_after_wp s a x ns1 r ns2 v : list_at s a x (ns1 ++ r :: ns2) →
  (Z.of_nat (S (length (ns1 ++ r :: ns2))) < 2 ^ 64)%Z →
  wp (listInsertNode junk_node (Some a) (Some r.1) v true)
    (inserted s a x (ns1 ++ [r]) ns2 v) s.
Proof.
  intros H Hroom. pose proof H as [Hl Hh Ht Hs Hnd _ _].
  unfold listInsertNode. wp_step.
  apply wp_malloc_node; intros Hok; [intros p Hp|]; [|by unfold inserted; rewrite Hok; wp_step].
  pose proof (dlseg_mid _ _ _ _ Hs) as Hr. pose proof (fresh_ne _ _ _ _ Hp Hr) as Hne.
  assert (Eapp : (ns1 ++ [r]) ++ ns2 = ns1 ++ r :: ns2) by (by rewrite <- app_assoc).
  repeat al_step. apply (when_tail_wp a _ _ _ (first_of ns2 None)); [done| |].
  { rewrite Ht. destruct ns2 as [|r2 ns2]; [by rewrite last_of_snoc|].
    split; [intros E; by apply last_of_mid in E|done]. }
  eapply (insert_finish s _ a x (link_tail (Some p) (first_of ns2 None) x));
    rewrite ?Eapp; try done; try by destruct (first_of ns2 None).
  - unfold with_lists, with_nodes. cbn. by rewrite !insert_insert_eq, last_of_snoc.
  - rewrite head_link_tail, Hh. by destruct ns1.
  - eapply linked_tail. by rewrite Ht, last_of_app, last_of_cons.
Qed.

Lemma insert_before_wp s a x ns1 r ns2 v : list_at s a x (ns1 ++ r :: ns2) →
  (Z.of_nat (S (length (ns1 ++ r :: ns2))) < 2 ^ 64)%Z →
  wp (listInsertNode junk_node (Some a) (Some r.1) v false)
    (inserted s a x ns1 (r :: ns2) v) s.
Proof.
  intros H Hroom. pose proof H as [Hl Hh Ht Hs Hnd _ _].
  unfold listInsertNode. wp_step.
  apply wp_malloc_node; intros Hok; [intros p Hp|]; [|by unfold inserted; rewrite Hok; wp_step].
  pose proof (dlseg_mid _ _ _ _ Hs) as Hr. pose proof (fresh_ne _ _ _ _ Hp Hr) as Hne.
  repeat al_step. apply (when_head_wp a _ _ (last_of None ns1)); [done| |].
  { rewrite Hh. destruct ns1 as [|r1 ns1]; [done|].
    split; [intros E; by apply first_of_mid in E|].
    destruct ns1 as [|? ns1 _] using rev_ind; [done|].
    by rewrite last_of_cons, last_of_snoc. }
  eapply (insert_finish s _ a x (link_head (last_of None ns1) (Some p) x));
    try done; try by destruct (last_of None ns1).
  - unfold with_lists, with_nodes. cbn. by rewrite !insert_insert_eq.
  - eapply linked_head. rewrite Hh. apply first_of_app.
  - by rewrite tail_link_head, Ht, last_of_app, !last_of_cons.
Qed.

(** ** Deletion *)

(** The node goes away and its value is given to the list's [free]. *)
Definition deleted (s : ast) (a : loc) (x : adlist) (ns1 : list nref) (r : nref)
    (ns2 : list nref) (s' : ast) : Prop :=
  a_plan s' = a_plan s ∧
  a_calls s' = a_calls s ++ match free x with Some f => [CallFree f r.2] | None => [] end ∧
  ∃ x', dup x' = dup x ∧ free x' = free x ∧ match_ x' = match_ x ∧
    list_at s' a x' (ns1 ++ ns2) ∧ aframe s s' a (ns1 ++ r :: ns2) (ns1 ++ ns2).

(** The call of [free], if there is one. *)
Lemma wp_free_value o v (Q : unit → ast → Prop) s :
  Q tt (Ast (a_lists s) (a_nodes s) (a_iters s) (a_plan s)
    (a_calls s ++ match o with Some f => [CallFree f v] | None => [] end)) →
  wp (match o with Some f => call_free f v | None => mret tt end) Q s.
Proof.
  intros HQ. destruct o; [done|]. rewrite app_nil_r in HQ. by destruct s.
Qed.

(** The end of [listDelNode], once the neighbours are linked to each other. *)
Lemma delete_finish (s1 : ast) a (x1 : adlist) (r : nref) n1 (Q : ast → Prop) :
  a_lists s1 !! a = Some x1 → a_nodes s1 !! r.1 = Some n1 → value n1 = r.2 →
  Q (Ast (<[a := set_len (u64 (len x1 - 1)) x1]> (a_lists s1)) (delete r.1 (a_nodes s1)) (a_iters s1)
      (a_plan s1) (a_calls s1 ++ match free x1 with Some f => [CallFree f r.2] | None => [] end)) →
  wp (l ← load_list (Some a);
      match free l with
      | Some f => n ← load_node (Some r.1); call_free f (value n)
      | None => mret tt
      end;;
      free_node (Some r.1);;
      upd_list (Some a) (λ l, set_len (u64 (len l - 1)) l)) (λ _ s', Q s') s1.
Proof.
  intros Hl Hn Hv HQ. repeat al_step.
  destruct (free x1); repeat al_step; [rewrite <- Hv in HQ; exact HQ|].
  rewrite app_nil_r in HQ. exact HQ.
Qed.

(** The two neighbours of a node of a list, and the node itself, are three nodes. *)
Record neighbours (h : gmap loc listNode) (ns1 : list nref) (r : nref) (ns2 : list nref) : Prop := {
  nb_node : h !! r.1 = Some (ListNode (last_of None ns1) (first_of ns2 None) r.2);
  nb_last l : last_of None ns1 = Some l →
    l ≠ r.1 ∧ first_of ns2 None ≠ Some l ∧ l ∈ nlocs ns1 ∧ is_Some (h !! l);
  nb_first l : first_of ns2 None = Some l → l ≠ r.1 ∧ l ∈ nlocs ns2 ∧ is_Some (h !! l);
  nb_other : r.1 ∉ nlocs (ns1 ++ ns2);
  nb_nodup : NoDup (nlocs (ns1 ++ ns2))
}.

Lemma list_at_neighbours s a x ns1 r ns2 :
  list_at s a x (ns1 ++ r :: ns2) → neighbours (a_nodes s) ns1 r ns2.
Proof.
  intros [_ _ _ Hs Hnd _ _]. rewrite fmap_app in Hnd. simpl in Hnd.
  apply NoDup_app in Hnd as (Hnd1&Hd&Hnd2). apply NoDup_cons in Hnd2 as [Hn2 Hnd2].
  assert (Hin : ∀ l, l ∈ nlocs (ns1 ++ r :: ns2) → is_Some (a_nodes s !! l))
    by (intros l Hl; by eapply dlseg_lookup).
  rewrite fmap_app in Hin. split.
  - by eapply dlseg_mid.
  - intros l E. apply last_of_elem in E as [E|?]; [|done]. pose proof (Hd l E) as Hdl.
    split_and!; [set_solver| |done|apply Hin; set_solver].
    intros E2%first_of_elem. set_solver.
  - intros l E%first_of_elem. split_and!; [by intros ->|done|apply Hin; set_solver].
  - rewrite fmap_app. intros [H|H]%elem_of_app; [|done]. apply (Hd _ H). by left.
  - rewrite fmap_app. apply NoDup_app. split; [done|]. split; [|done].
    intros l H Hl. apply (Hd _ H). by right.
Qed.

(** The nodes after [listDelNode]. *)
Definition unlinked h ns1 (r : nref) ns2 : gmap loc listNode :=
  let p := last_of None ns1 in let q := first_of ns2 None in
  delete r.1 (link_prev p q (link_next p q h)).

Lemma unlinked_relinked h ns1 r ns2 : neighbours h ns1 r ns2 →
  relinked h (unlinked h ns1 r ns2) ns1 ns2 (first_of ns2 None) (last_of None ns1).
Proof.
  intros [_ _ _ Hr Hnd]. eapply links_relinked; [done|]. intros l Hl. split; [done|].
  apply lookup_delete_ne. congruence.
Qed.

Lemma unlinked_rest h ns1 r ns2 l : l ∉ nlocs (ns1 ++ ns2) →
  unlinked h ns1 r ns2 !! l = delete r.1 h !! l.
Proof.
  intros Hl. unfold unlinked. destruct (decide (l = r.1)) as [->|Hne].
  - by rewrite !lookup_delete_eq.
  - rewrite !lookup_delete_ne by done. by apply links_rest.
Qed.

Lemma delnode_wp s a x ns1 r ns2 : list_at s a x (ns1 ++ r :: ns2) →
  wp (listDelNode (Some a) (Some r.1)) (λ _ s', deleted s a x ns1 r ns2 s') s.
Proof.
  intros H. pose proof (list_at_neighbours _ _ _ _ _ _ H) as Hnb.
  pose proof H as [Hl Hh Ht _ _ _ _]. pose proof Hnb as [Hr Hp Hq _ _].
  set (p := last_of None ns1) in *. set (q := first_of ns2 None) in *.
  unfold listDelNode. al_step. al_step. cbn [prev next]. wp_step.
  apply (link_next_wp a x); [done|naive_solver|]. cbn.
  assert (Hr' : link_next p q (a_nodes s) !! r.1 = Some (ListNode p q r.2)).
  { rewrite link_next_other; [done|]. intros E. by destruct (Hp _ E) as [? _]. }
  al_step. al_step. cbn [prev next]. wp_step.
  apply (link_prev_wp a (link_head p q x)); [apply lookup_insert_eq| |].
  { intros l E. destruct (Hq l E) as (_&_&Hs). cbn. destruct p as [l1|]; [|done].
    simpl. apply lookup_alter_is_Some. done. }
  cbn. eapply (delete_finish _ a (link_tail p q (link_head p q x)) r (ListNode p q r.2));
    cbn; [apply lookup_insert_eq| |done|].
  { rewrite link_prev_other; [done|]. intros E. by destruct (Hq _ E) as [? _]. }
  set (x1 := link_tail p q (link_head p q x)).
  assert (dup x1 = dup x ∧ free x1 = free x ∧ match_ x1 = match_ x ∧ len x1 = len x)
    as (Ed & Ef & Em & El) by (subst x1; unfold link_tail, link_head; by destruct p, q).
  unfold deleted. cbn. rewrite Ef. split_and!; [done..|].
  exists (set_len (u64 (len x1 - 1)) x1). do 3 (split; [done|]).
  rewrite first_of_app in Hh. rewrite last_of_app, last_of_cons in Ht.
  eapply list_at_remove; [done|cbn; by rewrite !insert_insert_eq|done|..]; cbn.
  - subst x1. rewrite head_link_tail. by eapply linked_head.
  - eapply linked_tail. by rewrite tail_link_head.
  - by rewrite El.
  - by apply unlinked_relinked.
  - intros l Hl'. by apply unlinked_rest.
Qed.

(** ** Creation and release *)

Definition empty_list : adlist := List None None None None None 0.

Lemma list_at_empty s a x : a_lists s !! a = Some x → head x = None → tail x = None →
  len x = 0%Z → list_at s a x [].
Proof. intros ????. constructor; simpl; try done. constructor. Qed.

Lemma create_wp (Q : option loc → ast → Prop) s :
  (plan_ok s = true → ∀ a, a_lists s !! a = None →
     Q (Some a) (with_lists (<[a := empty_list]> (a_lists s)) (pop s))) →
  (plan_ok s = false → Q None (pop s)) → wp (listCreate junk_list) Q s.
Proof.
  intros H1 H2. unfold listCreate. wp_step.
  apply wp_malloc_list; intros Hok; [intros a Ha|by wp_step; apply H2].
  repeat al_step. rewrite insert_insert_eq. by apply H1.
Qed.

(** The calls of [free] on the values of a list. *)
Definition free_calls (o : option Z) (vs : list Z) : list call :=
  match o with Some f => CallFree f <$> vs | None => [] end.

Lemma free_calls_cons o v vs :
  free_calls o (v :: vs) = match o with Some f => [CallFree f v] | None => [] end ++ free_calls o vs.
Proof. by destruct o. Qed.

(** The nodes [ns] are gone. *)
Definition without (ns : list nref) (h : gmap loc listNode) : gmap loc listNode :=
  foldr (λ r h, delete r.1 h) h ns.

Lemma without_lookup ns h l : without ns h !! l = if decide (l ∈ nlocs ns) then None else h !! l.
Proof.
  induction ns as [|r ns IH]; simpl; [done|]. destruct (decide (l = r.1)) as [->|Hne].
  - rewrite lookup_delete_eq, decide_True by (by left). done.
  - rewrite lookup_delete_ne, IH by done. repeat case_decide; set_solver.
Qed.

#[global] Arguments without : simpl never.

Lemma nodes_release_wp a x : ∀ ns p s, a_lists s !! a = Some x → dlseg (a_nodes s) p ns None →
  NoDup (nlocs ns) →
  wp (release_loop (length ns) (Some a) (first_of ns None)) (λ _ s',
    a_lists s' = a_lists s ∧ a_iters s' = a_iters s ∧ a_plan s' = a_plan s ∧
    a_nodes s' = without ns (a_nodes s) ∧ a_calls s' = a_calls s ++ free_calls (free x) (nvals ns)) s.
Proof.
  induction ns as [|r ns IH]; intros p s Hl Hs Hnd; cbn [length release_loop].
  { wp_step. split_and!; try done. by destruct (free x); rewrite app_nil_r. }
  destruct Hs as [Hr Hs]. apply NoDup_cons in Hnd as [Hn Hnd].
  cbn [first_of]. repeat al_step. apply wp_free_value. repeat al_step. cbn [next].
  eapply wp_mono; [eapply (IH (Some r.1)); [done| |done]|].
  - eapply dlseg_ext; [|done]. intros l Hin. cbn. rewrite lookup_delete_ne; [done|].
    intros E. by rewrite E in Hn.
  - intros _ s' (E1&E2&E3&E4&E5). cbn in *. rewrite E1, E2, E3, E4, E5. split_and!; try done.
    + apply map_eq. intros l. rewrite !without_lookup. rewrite fmap_cons.
      destruct (decide (l = r.1)) as [->|Hne].
      * rewrite lookup_delete_eq, (decide_True (P := r.1 ∈ _ :: _)) by (by left). by case_decide.
      * rewrite lookup_delete_ne by done. destruct (decide (l ∈ nlocs ns)) as [Hin|Hin].
        -- by rewrite decide_True by (by right).
        -- rewrite decide_False; [done|]. by intros [?|?]%elem_of_cons.
    + by rewrite free_calls_cons, <- app_assoc.
Qed.

Lemma release_wp s a x ns : list_at s a x ns → wp (listRelease (Some a)) (λ _ s',
    s' = Ast (delete a (a_lists s)) (without ns (a_nodes s)) (a_iters s) (a_plan s)
      (a_calls s ++ free_calls (free x) (nvals ns))) s.
Proof.
  intros [Hl Hh Ht Hs Hnd Hlen Hmax]. unfold listRelease. repeat al_step.
  rewrite Hlen, Nat2Z.id, Hh. eapply wp_mono; [by eapply nodes_release_wp|].
  intros _ [ls nd it pl cs] (E1&E2&E3&E4&E5). cbn in *. subst.
  eapply wp_free_list; [done|]. done.
Qed.

(** ** Indices *)

Lemma index_next_wp k : ∀ ns p s, dlseg (a_nodes s) p ns None →
  wp (index_loop k next (first_of ns None)) (λ r s', s' = s ∧ r = fst <$> ns !! k) s.
Proof.
  induction k as [|k IH]; intros [|r ns] p s Hs; cbn [index_loop first_of]; try by wp_step.
  destruct Hs as [Hr Hs]. repeat al_step. cbn [next]. by eapply IH.
Qed.

Lemma index_prev_wp k : ∀ ns q s, dlseg (a_nodes s) None ns q →
  wp (index_loop k prev (last_of None ns)) (λ r s', s' = s ∧ r = fst <$> reverse ns !! k) s.
Proof.
  induction k as [|k IH]; intros ns q s Hs; destruct ns as [|r ns _] using rev_ind;
    rewrite ?last_of_snoc, ?reverse_snoc; cbn [index_loop].
  - by wp_step.
  - by wp_step.
  - by apply wp_ret.
  - apply dlseg_app in Hs as [Hs [Hr _]]. repeat al_step. cbn [prev]. by eapply (IH ns).
Qed.

Lemma index_wp s a x ns i : list_at s a x ns → (- 2 ^ 63 < i < 2 ^ 63)%Z →
  wp (listIndex (Some a) i) (λ r s', s' = s ∧
    r = fst <$> if (i <? 0)%Z then reverse ns !! Z.to_nat (- i - 1) else ns !! Z.to_nat i) s.
Proof.
  intros [Hl Hh Ht Hs Hnd Hlen Hmax] Hi. unfold listIndex, long_res.
  destruct (Z.ltb_spec i 0).
  - rewrite bool_decide_eq_true_2 by lia. al_step. al_step. simpl.
    rewrite bool_decide_eq_true_2 by lia. al_step. al_step. simpl. repeat al_step.
    rewrite Ht. by eapply index_prev_wp.
  - repeat al_step. rewrite Hh. by eapply index_next_wp.
Qed.

(** ** Iterators *)

Lemma getiter_wp s a x ns dir (Q : option loc → ast → Prop) : list_at s a x ns →
  (plan_ok s = true → ∀ it, a_iters s !! it = None →
     Q (Some it) (with_iters (<[it := ListIter
       (if (dir =? AL_START_HEAD)%Z then first_of ns None else last_of None ns) dir]>
       (a_iters s)) (pop s))) →
  (plan_ok s = false → Q None (pop s)) → wp (listGetIterator junk_iter (Some a) dir) Q s.
Proof.
  intros [Hl Hh Ht _ _ _ _] H1 H2. unfold listGetIterator. wp_step.
  apply wp_malloc_iter; intros Hok; [intros it Hit|by wp_step; apply H2].
  repeat al_step. cbn. rewrite !insert_insert_eq, Hh, Ht. by apply H1.
Qed.

(** A step forward over [ns], what is left to visit. *)
Lemma next_fwd_wp s it p ns (Q : option loc → ast → Prop) :
  a_iters s !! it = Some (ListIter (first_of ns None) AL_START_HEAD) →
  dlseg (a_nodes s) p ns None →
  Q (first_of ns None)
    (with_iters (<[it := ListIter (first_of (List.tl ns) None) AL_START_HEAD]> (a_iters s)) s) →
  wp (listNext (Some it)) Q s.
Proof.
  intros Hit Hs HQ. unfold listNext. repeat al_step. cbn [it_next].
  destruct ns as [|r ns]; cbn [first_of List.tl] in *.
  - wp_step. rewrite insert_id in HQ by done. by destruct s.
  - destruct Hs as [Hr Hs]. repeat al_step. exact HQ.
Qed.

(** A step backward. *)
Lemma next_bwd_wp s it q ns dir (Q : option loc → ast → Prop) : dir ≠ AL_START_HEAD →
  a_iters s !! it = Some (ListIter (last_of None ns) dir) → dlseg (a_nodes s) None ns q →
  Q (last_of None ns)
    (with_iters (<[it := ListIter (last_of None (removelast ns)) dir]> (a_iters s)) s) →
  wp (listNext (Some it)) Q s.
Proof.
  intros Hdir Hit Hs HQ. unfold listNext. repeat al_step. cbn [it_next].
  destruct ns as [|r ns _] using rev_ind.
  - simpl in *. wp_step. rewrite insert_id in HQ by done. by destruct s.
  - rewrite last_of_snoc in *. rewrite removelast_last in HQ.
    apply dlseg_app in Hs as [Hs [Hr _]]. repeat al_step. cbn [direction prev].
    rewrite (proj2 (Z.eqb_neq _ _) Hdir). exact HQ.
Qed.

(** ** Search *)

(** The comparison of a value with the key, and the calls made so far after it. *)
Definition found (m : option Z) (cs : list call) (v key : Z) : bool * list call :=
  match m with
  | Some f => let b := match_fn cs f v key in (b, cs ++ [CallMatch f v key b])
  | None => (bool_decide (key = v), cs)
  end.

(** The first node whose value matches, and the calls made until then. *)
Fixpoint search_spec (m : option Z) (cs : list call) (key : Z) (ns : list nref)
    : option loc * list call :=
  match ns with
  | [] => (None, cs)
  | r :: ns' =>
    let '(b, cs') := found m cs r.2 key in
    if b then (Some r.1, cs') else search_spec m cs' key ns'
  end.

Lemma wp_found m v key (Q : bool → ast → Prop) s :
  Q (found m (a_calls s) v key).1
    (Ast (a_lists s) (a_nodes s) (a_iters s) (a_plan s) (found m (a_calls s) v key).2) →
  wp (match m with
      | Some f => call_match match_fn f v key
      | None => mret (bool_decide (key = v))
      end) Q s.
Proof. intros HQ. destruct m as [f|]; [exact HQ|]. by destruct s. Qed.

Lemma search_loop_wp a x it key : ∀ ns fuel p s, a_lists s !! a = Some x →
  a_iters s !! it = Some (ListIter (first_of ns None) AL_START_HEAD) →
  dlseg (a_nodes s) p ns None → length ns < fuel →
  wp (search_loop match_fn fuel (Some a) (Some it) key) (λ r s',
    (r, a_calls s') = search_spec (match_ x) (a_calls s) key ns ∧
    a_lists s' = a_lists s ∧ a_nodes s' = a_nodes s ∧ a_plan s' = a_plan s ∧
    a_iters s' = delete it (a_iters s)) s.
Proof.
  induction ns as [|r ns IH]; intros fuel p s Hl Hit Hs Hf;
    (destruct fuel as [|fuel]; simpl in Hf; [lia|]); cbn [search_loop]; wp_step;
    (eapply next_fwd_wp; [exact Hit|exact Hs|]); cbn [first_of List.tl];
    unfold listReleaseIterator.
  - al_step. eapply wp_free_iter; [cbn; apply lookup_insert_eq|]. al_step. cbn.
    by rewrite delete_insert_eq.
  - destruct Hs as [Hr Hs]. repeat al_step. cbn [value search_spec]. apply wp_found.
    cbn [a_calls with_iters].
    destruct (found (match_ x) (a_calls s) r.2 key) as [[|] cs]; cbn [fst snd].
    + al_step. eapply wp_free_iter; [cbn; apply lookup_insert_eq|]. al_step. cbn.
      by rewrite delete_insert_eq.
    + eapply wp_mono; [eapply (IH fuel (Some r.1))|]; cbn;
        [done|apply lookup_insert_eq|done|lia|].
      intros r' s' (E1&E2&E3&E4&E5). rewrite E1, E2, E3, E4, E5. by rewrite delete_insert_eq.
Qed.

(** The fuel of the loops is enough for the nodes of a list. *)
Lemma loop_fuel_enough s a x ns : list_at s a x ns → length ns < loop_fuel s.
Proof.
  intros [_ _ _ Hs Hnd _ _]. unfold loop_fuel.
  rewrite <- (length_fmap fst), <- size_dom.
  rewrite <- (size_list_to_set (C := gset loc)) by done. apply le_n_S, subseteq_size.
  intros l Hin%elem_of_list_to_set. apply elem_of_dom. by eapply dlseg_lookup.
Qed.

Lemma search_wp s a x ns key : list_at s a x ns → plan_ok s = true →
  wp (listSearchKey match_fn junk_iter (Some a) key) (λ r s',
    (r, a_calls s') = search_spec (match_ x) (a_calls s) key ns ∧
    a_lists s' = a_lists s ∧ a_nodes s' = a_nodes s ∧ a_plan s' = a_plan (pop s) ∧
    a_iters s' = a_iters s) s.
Proof.
  intros H Hok. pose proof H as [Hl Hh Ht Hs Hnd Hlen Hmax]. unfold listSearchKey. wp_step.
  eapply getiter_wp; [done| |congruence]. intros _ it Hit. cbn [Z.eqb AL_START_HEAD].
  repeat al_step. eapply wp_mono.
  { eapply (search_loop_wp a x it key ns _ None); [done|cbn; apply lookup_insert_eq|done|].
    by apply (loop_fuel_enough s a x). }
  intros r s' (E1&E2&E3&E4&E5). cbn in *. rewrite E1, E2, E3, E4, E5. split_and!; try done.
  by rewrite delete_insert_id.
Qed.

(** ** Rotation *)

(** The second half of [listRotate], once the last node is cut off. *)
Lemma rotate_finish (s : ast) a (x : adlist) ns r lh (Q : ast → Prop) :
  a_lists s !! a = Some x → head x = Some lh → first_of ns None = Some lh →
  dlseg (a_nodes s) None ns None → NoDup (nlocs (ns ++ [r])) →
  a_nodes s !! r.1 = Some (ListNode (last_of None ns) None r.2) →
  (∀ h, dlseg h None (r :: ns) None → (∀ l, l ∉ nlocs (ns ++ [r]) → h !! l = a_nodes s !! l) →
     Q (Ast (<[a := set_head (Some r.1) x]> (a_lists s)) h (a_iters s) (a_plan s) (a_calls s))) →
  wp (l ← load_list (Some a);
      upd_node (Some r.1) (set_next (head l));;
      upd_node (Some r.1) (set_prev None);;
      l ← load_list (Some a);
      upd_node (head l) (set_prev (Some r.1));;
      upd_list (Some a) (set_head (Some r.1))) (λ _, Q) s.
Proof.
  intros Hl Hh Hf Hs Hnd Hr HQ. destruct ns as [|[lh' vh] ns]; [done|].
  injection Hf as [= ->]. pose proof Hs as [Hhd _]. simpl in Hhd.
  rewrite fmap_app in Hnd. apply NoDup_app in Hnd as (Hnd&Hd&_).
  assert (Hne : lh ≠ r.1) by (intros ->; apply (Hd r.1); simpl; set_solver).
  repeat al_step. rewrite Hh. repeat al_step. apply HQ; cbn [a_nodes with_nodes with_lists].
  - split; [simpl; by simplify_map_eq|].
    eapply (dlseg_relink_first (a_nodes s) _ _ None); [done..| |].
    + intros l n [= <-] Hn. by simplify_map_eq.
    + intros l Hin Hl'. simpl in Hl'. assert (l ≠ r.1) by (intros ->; apply (Hd r.1); set_solver).
      by rewrite !lookup_insert_ne by congruence.
  - intros l Hin. rewrite fmap_app in Hin. simpl in Hin.
    rewrite !lookup_insert_ne; set_solver.
Qed.

(** The last node moves to the front, or a list of at most one node stays. *)
Definition rotate {A} (l : list A) : list A :=
  match last l with Some x => x :: removelast l | None => [] end.

Lemma rotate_snoc {A} (l : list A) x : rotate (l ++ [x]) = x :: l.
Proof. unfold rotate. by rewrite last_snoc, removelast_last. Qed.

Lemma rotate_fmap {A B} (f : A → B) l : f <$> rotate l = rotate (f <$> l).
Proof.
  destruct l as [|x l _] using rev_ind; [done|]. rewrite rotate_snoc, fmap_app. simpl.
  by rewrite rotate_snoc.
Qed.

Lemma aframe_same s s' a ns ns' : nlocs ns ≡ₚ nlocs ns' → a_iters s' = a_iters s →
  (∀ l, l ≠ a → a_lists s' !! l = a_lists s !! l) →
  (∀ l, l ∉ nlocs ns → a_nodes s' !! l = a_nodes s !! l) → aframe s s' a ns ns'.
Proof.
  intros Hp Hi Hl Hn. constructor; auto.
  - intros l. rewrite Hp. by left.
  - intros l. rewrite Hp. done.
Qed.

Lemma rotate_wp s a x ns : list_at s a x ns →
  wp (listRotate (Some a)) (λ _ s', a_plan s' = a_plan s ∧ a_calls s' = a_calls s ∧ ∃ x',
    dup x' = dup x ∧ free x' = free x ∧ match_ x' = match_ x ∧
    list_at s' a x' (rotate ns) ∧ aframe s s' a ns (rotate ns)) s.
Proof.
  intros H. pose proof H as [Hl Hh Ht Hs Hnd Hlen Hmax]. unfold listRotate. repeat al_step.
  destruct (Z.leb_spec (len x) 1) as [Hle|Hgt].
  { wp_step. split_and!; [done..|]. exists x. do 3 (split; [done|]).
    assert (rotate ns = ns) as -> by (destruct ns as [|? [|? ?]]; simpl in *; [done|done|lia]).
    split; [done|]. by apply aframe_same. }
  destruct ns as [|r ns _] using rev_ind; [simpl in *; lia|]. rewrite rotate_snoc.
  destruct ns as [|r1 ns _] using rev_ind; [simpl in *; lia|].
  assert (exists lh, first_of (ns ++ [r1]) None = Some lh) as [lh Hf].
  { destruct ns; simpl; eauto. }
  rewrite last_of_snoc in Ht. rewrite first_of_app, first_of_app in Hh.
  rewrite first_of_app in Hf.
  pose proof Hs as [Hs1 [Hr _]]%dlseg_app. simpl in Hr. rewrite last_of_snoc in Hr.
  pose proof Hs1 as [_ [Hr1 _]]%dlseg_app. simpl in Hr1.
  pose proof Hnd as Hnd0. rewrite fmap_app in Hnd0. apply NoDup_app in Hnd0 as (Hnd1&Hd&_).
  assert (Hne : r1.1 ≠ r.1).
  { intros E. apply (Hd r.1); rewrite ?fmap_app, <- ?E; simpl; set_solver. }
  rewrite Ht. repeat al_step. cbn [prev]. al_step.
  eapply (rotate_finish _ a (set_tail (Some r1.1) x) (ns ++ [r1]) r lh); cbn.
  - by simplify_map_eq.
  - rewrite Hh. by destruct ns.
  - by rewrite first_of_app.
  - eapply dlseg_relink_last; [done|exact Hs1| |].
    + intros l n. rewrite last_of_snoc. intros [= <-] Hn. by simplify_map_eq.
    + intros l Hin Hl'. rewrite last_of_snoc in Hl'. rewrite lookup_insert_ne; congruence.
  - done.
  - rewrite last_of_snoc. by simplify_map_eq.
  - intros h Hseg Hrest. split_and!; [done..|].
    exists (set_head (Some r.1) (set_tail (Some r1.1) x)). do 3 (split; [done|]).
    assert (Hperm : nlocs ((ns ++ [r1]) ++ [r]) ≡ₚ nlocs (r :: ns ++ [r1])).
    { rewrite fmap_app. simpl. by rewrite Permutation_app_comm. }
    split; [constructor; cbn|apply aframe_same; try done; cbn].
    + by simplify_map_eq.
    + done.
    + by rewrite last_of_cons, last_of_snoc.
    + done.
    + by rewrite <- Hperm.
    + rewrite Hlen, length_app. simpl. lia.
    + rewrite length_app in Hmax. simpl in *. lia.
    + intros l Hla. by rewrite !lookup_insert_ne.
    + intros l Hin. rewrite Hrest by done. rewrite lookup_insert_ne; [done|].
      intros <-. apply Hin. rewrite !fmap_app. simpl. set_solver.
Qed.

(** ** Duplication *)

(** The copy of a value, and the calls after it. *)
Definition dup_value (d : option Z) (cs : list call) (v : Z) : Z * list call :=
  match d with
  | Some f => let w := dup_fn cs f v in (w, cs ++ [CallDup f v w])
  | None => (v, cs)
  end.

(** [listDup] over the values [vs], with [ws] copied: the values of the copy, or
    nothing where a value cannot be copied or a node not allocated and the copies
    made are freed; the malloc plan and the calls after it. *)
Fixpoint dup_spec (d f : option Z) (plan : list bool) (cs : list call) (ws vs : list Z)
    : option (list Z) * list bool * list call :=
  match vs with
  | [] => (Some ws, plan, cs)
  | v :: vs' =>
    let '(w, cs') := dup_value d cs v in
    if bool_decide (is_Some d) && (w =? 0)%Z then (None, plan, cs' ++ free_calls f ws)
    else if default true (hd_error plan) then dup_spec d f (tl plan) cs' (ws ++ [w]) vs'
    else (None, tl plan, cs' ++ free_calls f ws)
  end.

(** The values that the calls made with [dup] and gave to [free]. *)
Definition made (cs : list call) : list Z :=
  omap (λ c, match c with CallDup _ _ w => Some w | _ => None end) cs.
Definition freed (cs : list call) : list Z :=
  omap (λ c, match c with CallFree _ v => Some v | _ => None end) cs.

Lemma freed_calls f vs : freed (free_calls (Some f) vs) = vs ∧ made (free_calls (Some f) vs) = [].
Proof. cbn. induction vs as [|v vs [IH1 IH2]]; [done|]. split; [by cbn; f_equal|done]. Qed.

Lemma made_app cs cs' : made (cs ++ cs') = made cs ++ made cs'.
Proof. apply omap_app. Qed.
Lemma freed_app cs cs' : freed (cs ++ cs') = freed cs ++ freed cs'.
Proof. apply omap_app. Qed.

(** A copy that is given up frees the values in it: all that [dup] made but the last,
    or the first ones of the original when there is no [dup]. *)
Lemma dup_spec_freed d f plan cs ws vs plan' calls :
  dup_spec d (Some f) plan cs ws vs = (None, plan', calls) →
  ∃ new, calls = cs ++ new ∧
    if d is Some _ then ∃ us w, made new = us ++ [w] ∧ freed new = ws ++ us
    else ∃ k, k < length vs ∧ freed new = ws ++ take k vs.
Proof.
  revert plan cs ws. induction vs as [|v vs IH]; intros plan cs ws; cbn [dup_spec]; [done|].
  set (p := dup_value d cs v). destruct p as [w cs'] eqn:Ep.
  assert (Hcs : ∃ c, cs' = cs ++ c ∧ freed c = [] ∧ made c = if d is Some _ then [w] else []).
  { subst p. destruct d as [g|]; injection Ep as <- <-; [by eexists|].
    exists []. by rewrite app_nil_r. }
  destruct Hcs as (c & -> & Hfc & Hmc). destruct (freed_calls f ws) as [Hf Hm].
  assert (Hend : ∃ new, (cs ++ c) ++ free_calls (Some f) ws = cs ++ new ∧
    if d is Some _ then ∃ us w, made new = us ++ [w] ∧ freed new = ws ++ us
    else ∃ k, k < length (v :: vs) ∧ freed new = ws ++ take k (v :: vs)).
  { exists (c ++ free_calls (Some f) ws). split; [by rewrite (assoc_L (++))|].
    rewrite made_app, freed_app, Hfc, Hmc, Hf, Hm, app_nil_r. destruct d as [g|].
    - exists [], w. by rewrite app_nil_r.
    - exists 0. simpl. rewrite app_nil_r. split; [lia|done]. }
  destruct (_ && _); [intros [= _ <-]; exact Hend|].
  destruct (default true (hd_error plan)); [|intros [= _ <-]; exact Hend].
  intros (new & -> & H)%IH. exists (c ++ new). split; [by rewrite (assoc_L (++))|].
  rewrite made_app, freed_app, Hfc, Hmc. subst p. destruct d as [g|].
  - destruct H as (us & u & -> & ->). exists (w :: us), u.
    split; [done|]. by rewrite <- (assoc_L (++)).
  - injection Ep as <- _. destruct H as (k & Hk & ->). exists (S k). simpl.
    split; [lia|]. by rewrite <- (assoc_L (++)).
Qed.

Lemma wp_dup_value d v (Q : Z → ast → Prop) s :
  Q (dup_value d (a_calls s) v).1
    (Ast (a_lists s) (a_nodes s) (a_iters s) (a_plan s) (dup_value d (a_calls s) v).2) →
  wp (match d with Some f => call_dup dup_fn f v | None => mret v end) Q s.
Proof. intros HQ. destruct d as [f|]; [exact HQ|]. by destruct s. Qed.

(** During the loop of a [listDup] begun in [s0], the copy [c] has the nodes [cs],
    all new, and the iterator [it] is at the nodes [ns]. *)
Record dup_inv (s0 s : ast) (c it : loc) (xc : adlist) (cs ns : list nref) : Prop := {
  di_copy : list_at s c xc cs;
  di_new : a_lists s0 !! c = None;
  di_lists : ∀ l, l ≠ c → a_lists s !! l = a_lists s0 !! l;
  di_fresh : ∀ l, l ∈ nlocs cs → a_nodes s0 !! l = None;
  di_nodes : ∀ l, l ∉ nlocs cs → a_nodes s !! l = a_nodes s0 !! l;
  di_it : a_iters s0 !! it = None;
  di_iters : a_iters s = <[it := ListIter (first_of ns None) AL_START_HEAD]> (a_iters s0);
  di_room : (Z.of_nat (length cs + length ns) < 2 ^ 64)%Z
}.

(** What a [listDup] that made the values [ws] leaves. *)
Definition dup_post (s0 : ast) (d f m : option Z) (o : option (list Z)) (r : option loc)
    (s' : ast) : Prop :=
  a_iters s' = a_iters s0 ∧
  match o with
  | None => r = None ∧ a_lists s' = a_lists s0 ∧ a_nodes s' = a_nodes s0
  | Some ws => ∃ c x' ns', r = Some c ∧ a_lists s0 !! c = None ∧ nvals ns' = ws ∧
      dup x' = d ∧ free x' = f ∧ match_ x' = m ∧ list_at s' c x' ns' ∧
      (∀ l, l ≠ c → a_lists s' !! l = a_lists s0 !! l) ∧
      (∀ l, l ∈ nlocs ns' → a_nodes s0 !! l = None) ∧
      (∀ l, l ∉ nlocs ns' → a_nodes s' !! l = a_nodes s0 !! l)
  end.

(** Giving the copy up. *)
Lemma dup_abandon s0 s c it xc cs ns : dup_inv s0 s c it xc cs ns →
  wp (listRelease (Some c);; listReleaseIterator (Some it);; mret false) (λ b s',
    b = false ∧ a_plan s' = a_plan s ∧ a_calls s' = a_calls s ++ free_calls (free xc) (nvals cs) ∧
    a_lists s' = a_lists s0 ∧ a_nodes s' = a_nodes s0 ∧ a_iters s' = a_iters s0) s.
Proof.
  intros [Hc Hnew Hls Hfresh Hns Hit Hits Hroom]. unfold listReleaseIterator. wp_step.
  eapply wp_mono; [by eapply release_wp|]. intros _ s' ->. wp_step.
  eapply wp_free_iter; [cbn; rewrite Hits; apply lookup_insert_eq|]. wp_step. cbn.
  split_and!; [done..| | |].
  - apply map_eq. intros l. destruct (decide (l = c)) as [->|Hne].
    + by rewrite lookup_delete_eq.
    + by rewrite lookup_delete_ne, Hls.
  - apply map_eq. intros l. rewrite without_lookup. case_decide as Hin; [|by apply Hns].
    symmetry. by apply Hfresh.
  - by rewrite Hits, delete_insert_id.
Qed.

(** The copy gets a node. *)
Lemma dup_inv_add s0 s1 s2 c it xc x' cs ns q w : dup_inv s0 s1 c it xc cs ns →
  a_nodes s1 !! q = None →
  list_at s2 c x' (cs ++ (q, w) :: []) → aframe s1 s2 c (cs ++ []) (cs ++ (q, w) :: []) →
  (Z.of_nat (length cs + S (length ns)) < 2 ^ 64)%Z →
  dup_inv s0 s2 c it x' (cs ++ [(q, w)]) ns.
Proof.
  intros [Hc Hnew Hls Hfresh Hns Hit Hits Hroom] Hq Hl' [Fl Fn Fnew _ Fi] Hr.
  rewrite app_nil_r in *.
  assert (Hq' : q ∉ nlocs cs).
  { intros Hin. destruct (dlseg_lookup _ _ _ _ _ (la_seg _ _ _ _ Hc) Hin). congruence. }
  constructor; try done.
  - intros l Hne. by rewrite Fl, Hls.
  - intros l. rewrite fmap_app, elem_of_app. intros [?|Hin]; [by apply Hfresh|].
    apply list_elem_of_singleton in Hin as ->. simpl. rewrite <- Hns; done.
  - intros l Hin. assert (l ∉ nlocs cs) by (rewrite fmap_app in Hin; set_solver).
    rewrite Fn by done. by apply Hns.
  - by rewrite Fi.
  - rewrite length_app. simpl. lia.
Qed.

Lemma dup_loop_wp s0 c it d f m : ∀ ns fuel p s xc cs, dup_inv s0 s c it xc cs ns →
  dup xc = d → free xc = f → match_ xc = m → dlseg (a_nodes s0) p ns None → length ns < fuel →
  wp (dup_loop dup_fn junk_node fuel (Some c) (Some it)) (λ b s',
    let '(o, plan, calls) := dup_spec d f (a_plan s) (a_calls s) (nvals cs) (nvals ns) in
    a_plan s' = plan ∧ a_calls s' = calls ∧
    match o with
    | None => b = false ∧ a_iters s' = a_iters s0 ∧ a_lists s' = a_lists s0 ∧
        a_nodes s' = a_nodes s0
    | Some ws => b = true ∧ ∃ xc' cs', dup_inv s0 s' c it xc' cs' [] ∧ nvals cs' = ws ∧
        dup xc' = d ∧ free xc' = f ∧ match_ xc' = m
    end) s.
Proof.
  induction ns as [|r ns IH]; intros fuel p s xc cs HI Hd Hf Hm Hs Hfuel;
    (destruct fuel as [|fuel]; simpl in Hfuel; [lia|]); cbn [dup_loop fmap list_fmap dup_spec];
    pose proof HI as [Hc Hnew Hls Hfresh Hns Hit Hits Hroom]; wp_step.
  { eapply (next_fwd_wp _ _ p []); [rewrite Hits; apply lookup_insert_eq|done|].
    cbn [first_of List.tl]. wp_step. split_and!; [done..|]. exists xc, cs. split_and!; try done.
    constructor; try done; cbn; [by destruct Hc; constructor|].
    by rewrite Hits, insert_insert_eq. }
  assert (Hs' : dlseg (a_nodes s) p (r :: ns) None).
  { eapply dlseg_ext; [|exact Hs]. intros l Hin. apply Hns. intros Hin'.
    destruct (dlseg_lookup _ _ _ _ _ Hs Hin) as [? E]. by rewrite Hfresh in E. }
  eapply (next_fwd_wp _ _ p (r :: ns)); [rewrite Hits; apply lookup_insert_eq|done|].
  cbn [first_of List.tl]. destruct Hs' as [Hr _]. destruct Hs as [_ Hs].
  wp_step. eapply wp_load_node; [exact Hr|]. wp_step.
  eapply wp_load_list; [apply Hc|]. wp_step. rewrite Hd.
  apply wp_dup_value. cbn [value a_calls with_iters a_lists a_nodes a_iters a_plan].
  destruct (dup_value d (a_calls s) r.2) as [w calls]. cbn [fst snd].
  set (s1 := Ast _ _ _ _ _).
  assert (HI1 : dup_inv s0 s1 c it xc cs ns).
  { constructor; try done; cbn; [| |simpl in Hroom; lia].
    - destruct Hc. by constructor.
    - by rewrite Hits, insert_insert_eq. }
  destruct (bool_decide (is_Some d) && (w =? 0)%Z).
  { eapply wp_mono; [by eapply dup_abandon|]. intros b s' (->&E1&E2&E3&E4&E5).
    rewrite Hf in E2. done. }
  wp_step. eapply wp_mono.
  { eapply (addtail_wp _ c xc cs w); [apply HI1|]. simpl in Hroom. lia. }
  intros o s2 H2. unfold inserted, plan_ok in H2. cbn [a_plan s1] in H2.
  destruct (default true (hd_error (a_plan s))).
  - destruct H2 as (->&E1&E2&q&x'&Hq&Hd'&Hf'&Hm'&Hl'&Hfr).
    pose proof (dup_inv_add _ _ _ _ _ _ _ _ _ _ _ HI1 Hq Hl' Hfr ltac:(simpl in Hroom; lia)) as HI2.
    eapply wp_mono; [eapply (IH fuel (Some r.1) s2 x'); [exact HI2|congruence..|done|lia]|].
    intros b s' H. rewrite E1, E2, fmap_app in H. exact H.
  - destruct H2 as [-> ->]. eapply wp_mono.
    { eapply (dup_abandon _ (pop s1)). destruct HI1 as [Hc1 ???????].
      constructor; try done. by destruct Hc1; constructor. }
    intros b s' (->&E1&E2&E3&E4&E5). rewrite Hf in E2. done.
Qed.

Lemma dup_wp s a x ns : list_at s a x ns → plan_ok s = true → plan_ok (pop s) = true →
  wp (listDup dup_fn junk_node junk_list junk_iter (Some a)) (λ r s',
    let '(o, plan, calls) :=
      dup_spec (dup x) (free x) (tl (tl (a_plan s))) (a_calls s) [] (nvals ns) in
    a_plan s' = plan ∧ a_calls s' = calls ∧ dup_post s (dup x) (free x) (match_ x) o r s') s.
Proof.
  intros H Hok1 Hok2. pose proof H as [Hl Hh Ht Hs Hnd Hlen Hmax]. unfold listDup. wp_step.
  apply create_wp; [intros _ c Hc|congruence].
  assert (Hca : a ≠ c) by congruence.
  al_step. al_step. al_step. al_step. cbn [dup free match_ set_methods]. al_step.
  eapply (getiter_wp _ a x ns).
  { constructor; try done. cbn. by simplify_map_eq. }
  2:{ unfold plan_ok. cbn. unfold plan_ok in Hok2. cbn in Hok2. congruence. }
  intros _ it Hit. cbn [Z.eqb AL_START_HEAD]. al_step. al_step. al_step.
  set (s1 := with_iters _ _).
  assert (HI : dup_inv s s1 c it (set_methods (dup x) (free x) (match_ x) empty_list) [] ns).
  { constructor; try done.
    - constructor; try done; [|constructor]. cbn. by simplify_map_eq.
    - intros l Hne. cbn. by simplify_map_eq.
    - set_solver. }
  eapply wp_mono; [eapply (dup_loop_wp s c it _ _ _ ns _ None); [exact HI|done..|]|].
  { apply (loop_fuel_enough s a x ns H). }
  intros b s2. cbn [s1 with_iters a_plan a_calls fmap list_fmap].
  destruct (dup_spec _ _ _ _ _ _) as [[o plan] calls]. intros (E1&E2&Ho).
  destruct o as [ws|]; [|destruct Ho as (->&?&?&?); by wp_step].
  destruct Ho as (->&xc&cs&[Hcl Hnew Hls Hfresh Hns Hi Hits Hroom]&Hws&Hd&Hf&Hm).
  al_step. unfold listReleaseIterator. eapply wp_free_iter.
  { rewrite Hits. apply lookup_insert_eq. }
  al_step. split_and!; [done..|]. split; [cbn; by rewrite Hits, delete_insert_id|].
  exists c, xc, cs. split_and!; try done. by destruct Hcl; constructor.
Qed.

(** The original list is as it was, copied or not. *)
Lemma dup_post_original s a x ns d f m o r s' : list_at s a x ns →
  dup_post s d f m o r s' → list_at s' a x ns.
Proof.
  intros [Hl Hh Ht Hs Hnd Hlen Hmax] [_ Hp].
  assert (Hw : a_lists s' !! a = Some x ∧ ∀ l, l ∈ nlocs ns → a_nodes s' !! l = a_nodes s !! l).
  { destruct o as [ws|]; [|by destruct Hp as (_&->&->)].
    destruct Hp as (c&x'&ns'&_&Hc&_&_&_&_&_&Hls&Hnew&Hns). split.
    - rewrite Hls; [done|congruence].
    - intros l Hin. apply Hns. intros Hin'. destruct (dlseg_lookup _ _ _ _ _ Hs Hin) as [? E].
      by rewrite Hnew in E. }
  destruct Hw as [Hl' Hn']. constructor; try done. by eapply dlseg_ext.
Qed.

(** ** Sequences of operations *)

Lemma aframe_trans s1 s2 s3 a ns1 ns2 ns3 :
  aframe s1 s2 a ns1 ns2 → aframe s2 s3 a ns2 ns3 → aframe s1 s3 a ns1 ns3.
Proof.
  intros [L1 N1 W1 G1 I1] [L2 N2 W2 G2 I2]. constructor.
  - intros l Hl. by rewrite L2, L1.
  - intros l H1 H3. destruct (decide (l ∈ nlocs ns2)) as [H2|H2].
    + rewrite G2 by done. destruct (W1 l H2) as [?|E]; done.
    + by rewrite N2, N1.
  - intros l H3. destruct (decide (l ∈ nlocs ns1)) as [H1|H1]; [by left|]. right.
    destruct (decide (l ∈ nlocs ns2)) as [H2|H2]; [by destruct (W1 l H2)|].
    rewrite <- N1 by done. by destruct (W2 l H3).
  - intros l H1 H3. destruct (decide (l ∈ nlocs ns2)) as [H2|H2]; [by apply G2|].
    rewrite N2 by done. by apply G1.
  - congruence.
Qed.

Lemma aframe_refl s s' a ns : a_lists s' = a_lists s → a_nodes s' = a_nodes s →
  a_iters s' = a_iters s → aframe s s' a ns ns.
Proof. intros El En Ei. apply aframe_same; [done|done|by rewrite El|by rewrite En]. Qed.

(** An operation of a client of one list; the places are indices of [listIndex]. *)
Inductive list_op :=
  | OAddHead (v : Z)
  | OAddTail (v : Z)
  | OInsert (i : Z) (v : Z) (after : bool)
  | ODel (i : Z)
  | OIndex (i : Z)
  | ORotate.

(** What the client gets: the value added, deleted or looked up. *)
Definition run_op (a : option loc) (o : list_op) : M ast (option Z) :=
  match o with
  | OAddHead v => r ← listAddNodeHead junk_node a v; mret ((λ _, v) <$> r)
  | OAddTail v => r ← listAddNodeTail junk_node a v; mret ((λ _, v) <$> r)
  | OInsert i v after =>
    n ← listIndex a i;
    match n with
    | None => mret None
    | Some _ => r ← listInsertNode junk_node a n v after; mret ((λ _, v) <$> r)
    end
  | ODel i =>
    n ← listIndex a i;
    match n with
    | None => mret None
    | Some _ => x ← load_node n; listDelNode a n;; mret (Some (value x))
    end
  | OIndex i =>
    n ← listIndex a i;
    match n with None => mret None | Some _ => x ← load_node n; mret (Some (value x)) end
  | ORotate => listRotate a;; mret None
  end.

Fixpoint run_ops (a : option loc) (os : list list_op) : M ast (list (option Z)) :=
  match os with
  | [] => mret []
  | o :: os' => r ← run_op a o; rs ← run_ops a os'; mret (r :: rs)
  end.

(** The same on a sequence of values, with the plan of [malloc] and the calls. *)
Abbreviation lstate := (list Z * list bool * list call)%type.

Definition position (n : nat) (i : Z) : option nat :=
  if (i <? 0)%Z then
    if (- i <=? Z.of_nat n)%Z then Some (Z.to_nat (Z.of_nat n + i)) else None
  else if (i <? Z.of_nat n)%Z then Some (Z.to_nat i) else None.

Definition spec_insert (k : nat) (v : Z) (st : lstate) : option Z * lstate :=
  let '(vs, plan, cs) := st in
  if default true (hd_error plan) then (Some v, (take k vs ++ v :: drop k vs, tl plan, cs))
  else (None, (vs, tl plan, cs)).

Definition spec_op (f : option Z) (o : list_op) (st : lstate) : option Z * lstate :=
  let '(vs, plan, cs) := st in
  match o with
  | OAddHead v => spec_insert 0 v st
  | OAddTail v => spec_insert (length vs) v st
  | OInsert i v after =>
    match position (length vs) i with
    | None => (None, st)
    | Some k => spec_insert (if after then S k else k) v st
    end
  | ODel i =>
    match position (length vs) i with
    | None => (None, st)
    | Some k =>
      (vs !! k, (take k vs ++ drop (S k) vs, plan, cs ++ free_calls f (option_list (vs !! k))))
    end
  | OIndex i => (position (length vs) i ≫= λ k, vs !! k, st)
  | ORotate => (None, (rotate vs, plan, cs))
  end.

Fixpoint spec_ops (f : option Z) (os : list list_op) (st : lstate) : list (option Z) * lstate :=
  match os with
  | [] => ([], st)
  | o :: os' =>
    let '(r, st1) := spec_op f o st in
    let '(rs, st2) := spec_ops f os' st1 in (r :: rs, st2)
  end.

Definition op_in_range (o : list_op) : Prop :=
  match o with
  | OInsert i _ _ | ODel i | OIndex i => (- 2 ^ 63 < i < 2 ^ 63)%Z
  | _ => True
  end.

(** The list at [a] of [s'] is the outcome [st] of operations on that of [s]. *)
Definition op_post (s : ast) (a : loc) (x : adlist) (ns : list nref) (st : lstate)
    (s' : ast) : Prop :=
  ∃ x' ns', dup x' = dup x ∧ free x' = free x ∧ match_ x' = match_ x ∧
    list_at s' a x' ns' ∧ aframe s s' a ns ns' ∧ (nvals ns', a_plan s', a_calls s') = st.

Lemma inserted_post s a x ns1 ns2 v r s' : list_at s a x (ns1 ++ ns2) →
  inserted s a x ns1 ns2 v r s' →
  let '(o, st) := spec_insert (length ns1) v (nvals (ns1 ++ ns2), a_plan s, a_calls s) in
  (λ _, v) <$> r = o ∧ op_post s a x (ns1 ++ ns2) st s'.
Proof.
  intros H. unfold inserted, spec_insert, plan_ok. destruct (default true _).
  - intros (->&E1&E2&p&x'&Hp&Hd&Hf&Hm&Hl&Hfr). split; [done|].
    exists x', (ns1 ++ (p, v) :: ns2). split_and!; try done.
    rewrite E1, E2, !fmap_app, <- (length_fmap snd ns1), take_app_length, drop_app_length. done.
  - intros [-> ->]. split; [done|]. exists x, (ns1 ++ ns2). split_and!; try done.
    + by destruct H; constructor.
    + by apply aframe_refl.
Qed.

(** Where [listIndex] arrives. *)
Lemma position_index s a x ns i : list_at s a x ns → (- 2 ^ 63 < i < 2 ^ 63)%Z →
  wp (listIndex (Some a) i) (λ n s', s' = s ∧
    n = (position (length ns) i ≫= λ k, fst <$> ns !! k)) s.
Proof.
  intros H Hi. eapply wp_mono; [by eapply index_wp|]. intros n s' [-> ->]. split; [done|].
  unfold position. destruct (Z.ltb_spec i 0); [destruct (Z.leb_spec (- i) (Z.of_nat (length ns)))|
    destruct (Z.ltb_spec i (Z.of_nat (length ns)))]; cbn [mbind option_bind].
  - rewrite reverse_lookup by lia. do 2 f_equal. lia.
  - rewrite lookup_ge_None_2; [done|]. rewrite length_reverse. lia.
  - done.
  - rewrite lookup_ge_None_2; [done|lia].
Qed.

Lemma position_lt n i k : position n i = Some k → k < n.
Proof.
  unfold position. destruct (Z.ltb_spec i 0); [destruct (Z.leb_spec (- i) (Z.of_nat n))|
    destruct (Z.ltb_spec i (Z.of_nat n))]; intros [= <-]; lia.
Qed.

(** The nodes around a place. *)
Lemma split_at (ns : list nref) k : k < length ns →
  ∃ ns1 r ns2, ns = ns1 ++ r :: ns2 ∧ length ns1 = k.
Proof.
  intros Hk. destruct (lookup_lt_is_Some_2 ns k Hk) as [r Hr].
  exists (take k ns), r, (drop (S k) ns). split; [by rewrite take_drop_middle|].
  rewrite length_take. lia.
Qed.

(** [listIndex] finds nothing, or a node. *)
Lemma at_index_wp s a x ns i (Q : option loc → ast → Prop) : list_at s a x ns →
  (- 2 ^ 63 < i < 2 ^ 63)%Z → (position (length ns) i = None → Q None s) →
  (∀ ns1 r ns2, ns = ns1 ++ r :: ns2 → position (length ns) i = Some (length ns1) →
     Q (Some r.1) s) → wp (listIndex (Some a) i) Q s.
Proof.
  intros H Hi Hnone Hsome. eapply wp_mono; [by eapply position_index|]. intros n s' [-> ->].
  destruct (position (length ns) i) as [k|] eqn:Ek; [|by apply Hnone].
  pose proof (position_lt _ _ _ Ek) as Hk. destruct (split_at ns k Hk) as (ns1&r&ns2&->&<-).
  cbn [mbind option_bind]. rewrite list_lookup_middle by done. by eapply Hsome.
Qed.

Lemma op_wp s a x ns o : list_at s a x ns → (Z.of_nat (S (length ns)) < 2 ^ 64)%Z →
  op_in_range o → wp (run_op (Some a) o) (λ r s',
    let '(r', st) := spec_op (free x) o (nvals ns, a_plan s, a_calls s) in
    r = r' ∧ op_post s a x ns st s') s.
Proof.
  intros H Hroom Ho.
  assert (Hsame : op_post s a x ns (nvals ns, a_plan s, a_calls s) s).
  { exists x, ns. split_and!; try done. by apply aframe_refl. }
  destruct o as [v|v|i v after|i|i|]; cbn [run_op spec_op op_in_range] in *.
  - wp_step. eapply wp_mono; [by eapply addhead_wp|]. intros r s' Hi. wp_step.
    pose proof (inserted_post s a x [] ns v r s' H Hi) as Hp. by destruct (spec_insert _ _ _).
  - wp_step. eapply wp_mono; [by eapply addtail_wp|]. intros r s' Hi. wp_step.
    rewrite <- (app_nil_r ns) in H.
    pose proof (inserted_post s a x ns [] v r s' H Hi) as Hp. rewrite app_nil_r in Hp.
    rewrite length_fmap. by destruct (spec_insert _ _ _).
  - rewrite length_fmap. wp_step.
    eapply at_index_wp; [done..|intros ->; by wp_step|]. intros ns1 r ns2 -> ->.
    destruct after; wp_step.
    + eapply wp_mono; [by eapply insert_after_wp|]. intros o s' Hi. wp_step.
      assert (Eapp : (ns1 ++ [r]) ++ ns2 = ns1 ++ r :: ns2) by (by rewrite <- app_assoc).
      rewrite <- Eapp in *.
      pose proof (inserted_post s a x (ns1 ++ [r]) ns2 v o s' H Hi) as Hp.
      rewrite length_app, Nat.add_1_r in Hp. by destruct (spec_insert _ _ _).
    + eapply wp_mono; [by eapply insert_before_wp|]. intros o s' Hi. wp_step.
      pose proof (inserted_post s a x ns1 (r :: ns2) v o s' H Hi) as Hp.
      by destruct (spec_insert _ _ _).
  - rewrite length_fmap. wp_step.
    eapply at_index_wp; [done..|intros ->; by wp_step|]. intros ns1 r ns2 -> ->.
    wp_step. eapply wp_load_node; [by eapply dlseg_mid, la_seg|]. wp_step.
    eapply wp_mono; [by eapply delnode_wp|]. intros [] s' (E1&E2&x'&Hd&Hf&Hm&Hl&Hfr). wp_step.
    cbn [value]. rewrite !fmap_app, fmap_cons, list_lookup_middle by (by rewrite length_fmap).
    split; [done|]. exists x', (ns1 ++ ns2). split_and!; try done.
    rewrite E1, E2, <- (length_fmap snd ns1), take_app_length, fmap_app. do 3 f_equal.
    rewrite cons_middle, app_assoc, drop_app_length'; [done|].
    rewrite length_app. simpl. lia.
  - rewrite length_fmap. wp_step.
    eapply at_index_wp; [done..|intros ->; by wp_step|]. intros ns1 r ns2 -> ->.
    wp_step. eapply wp_load_node; [by eapply dlseg_mid, la_seg|]. wp_step.
    split; [|exact Hsame]. cbn [value mbind option_bind].
    by rewrite fmap_app, fmap_cons, list_lookup_middle by (by rewrite length_fmap).
  - wp_step. eapply wp_mono; [by eapply rotate_wp|].
    intros [] s' (E1&E2&x'&Hd&Hf&Hm&Hl&Hfr). wp_step. split; [done|].
    exists x', (rotate ns). split_and!; try done. rewrite E1, E2, rotate_fmap. done.
Qed.

Lemma spec_op_length f o vs plan cs :
  length (spec_op f o (vs, plan, cs)).2.1.1 ≤ S (length vs).
Proof.
  assert (Hi : ∀ k v, k ≤ length vs →
    length (spec_insert k v (vs, plan, cs)).2.1.1 ≤ S (length vs)).
  { intros k v Hk. unfold spec_insert. destruct (default true _); cbn [fst snd]; [|lia].
    rewrite length_app. simpl. rewrite length_take, length_drop. lia. }
  destruct o as [v|v|i v after|i|i|]; cbn [spec_op].
  - apply Hi. lia.
  - apply Hi. lia.
  - destruct (position _ i) as [k|] eqn:E; [|simpl; lia]. apply position_lt in E.
    apply Hi. destruct after; lia.
  - destruct (position _ i) as [k|] eqn:E; simpl; [|lia].
    rewrite length_app, length_take, length_drop. lia.
  - simpl. lia.
  - destruct vs as [|v vs _] using rev_ind; cbn [fst snd]; [simpl; lia|].
    rewrite rotate_snoc. simpl. rewrite length_app. simpl. lia.
Qed.

(** The operations on one list, in any order and whatever [malloc] answers, are those on
    the sequence of its values; nothing else changes, no node is lost, and no pointer is
    misused. *)
Lemma ops_wp a : ∀ os s x ns, list_at s a x ns →
  (Z.of_nat (length ns + length os) < 2 ^ 64)%Z → Forall op_in_range os →
  wp (run_ops (Some a) os) (λ rs s',
    let '(rs', st) := spec_ops (free x) os (nvals ns, a_plan s, a_calls s) in
    rs = rs' ∧ op_post s a x ns st s') s.
Proof.
  induction os as [|o os IH]; intros s x ns H Hroom Hr; cbn [run_ops spec_ops].
  { wp_step. split; [done|]. exists x, ns. split_and!; try done. by apply aframe_refl. }
  apply Forall_cons in Hr as [Ho Hr]. simpl in Hroom. wp_step.
  eapply wp_mono; [eapply op_wp; [done|lia|done]|]. intros r s1.
  pose proof (spec_op_length (free x) o (nvals ns) (a_plan s) (a_calls s)) as Hlen.
  destruct (spec_op _ _ _) as [r' [[vs plan] cs]]. cbn [fst snd] in Hlen.
  intros (<-&x1&ns1&Hd&Hf&Hm&H1&Hfr&[= <- <- <-]). rewrite !length_fmap in Hlen. wp_step.
  eapply wp_mono; [eapply (IH s1 x1 ns1); [done|lia|done]|]. intros rs s2. rewrite Hf.
  destruct (spec_ops _ _ _) as [rs' st]. intros (<-&x2&ns2&Hd2&Hf2&Hm2&H2&Hfr2&<-). wp_step.
  split; [done|]. exists x2, ns2. split_and!; try congruence. by eapply aframe_trans.
Qed.

(** ** Visiting a list and deleting the node the iterator is at *)

(** The loop of the comment of [listNext]; the client deletes the current node unless
    it keeps it. *)
Fixpoint visit_loop (fuel : nat) (keep : Z → bool) (a iter : option loc)
    : M ast (list Z) :=
  match fuel with
  | O => fail FFuel
  | S fuel' =>
    node ← listNext iter;
    match node with
    | None => listReleaseIterator iter;; mret []
    | Some _ =>
      n ← load_node node;
      when (negb (keep (value n))) (listDelNode a node);;
      vs ← visit_loop fuel' keep a iter; mret (value n :: vs)
    end
  end.

Definition visit (keep : Z → bool) (a : option loc) (dir : Z) : M ast (list Z) :=
  iter ← listGetIterator junk_iter a dir;
  fuel ← gets loop_fuel;
  visit_loop fuel keep a iter.

(** What the loop makes of the values still to visit: those kept and those freed. *)
Definition kept (keep : Z → bool) (ns : list nref) : list nref :=
  List.filter (λ r, keep r.2) ns.
Definition dropped (keep : Z → bool) (vs : list Z) : list Z :=
  List.filter (λ v, negb (keep v)) vs.

Lemma free_calls_app o vs1 vs2 : free_calls o (vs1 ++ vs2) = free_calls o vs1 ++ free_calls o vs2.
Proof. destruct o; [apply fmap_app|done]. Qed.

Lemma visit_step s a x ns1 r ns2 keep : list_at s a x (ns1 ++ r :: ns2) →
  wp (when (negb (keep r.2)) (listDelNode (Some a) (Some r.1))) (λ _ s',
    a_plan s' = a_plan s ∧ a_calls s' = a_calls s ++ free_calls (free x) (dropped keep [r.2]) ∧
    ∃ x', dup x' = dup x ∧ free x' = free x ∧ match_ x' = match_ x ∧
      list_at s' a x' (ns1 ++ kept keep [r] ++ ns2) ∧
      aframe s s' a (ns1 ++ r :: ns2) (ns1 ++ kept keep [r] ++ ns2)) s.
Proof.
  intros H. unfold kept, dropped. simpl. destruct (keep r.2); simpl.
  - wp_step. split_and!; [done|by destruct (free x); rewrite app_nil_r|].
    exists x. split_and!; try done. by apply aframe_refl.
  - eapply wp_mono; [by eapply delnode_wp|]. intros [] s' (E1&E2&x'&Hd&Hf&Hm&Hl&Hfr).
    split_and!; [done| |by exists x']. rewrite E2. by destruct (free x).
Qed.

(** The outcome of visiting [ns] in the order [vs]; [ns'] is the list then. *)
Definition visit_post (s : ast) (a it : loc) (x : adlist) (ns ns' : list nref)
    (keep : Z → bool) (vs vs' : list Z) (s' : ast) : Prop :=
  vs' = vs ∧ a_plan s' = a_plan s ∧
  a_calls s' = a_calls s ++ free_calls (free x) (dropped keep vs) ∧
  ∃ x', dup x' = dup x ∧ free x' = free x ∧ match_ x' = match_ x ∧ list_at s' a x' ns' ∧
    aframe (with_iters (delete it (a_iters s)) s) s' a ns ns'.

Lemma aframe_iters s s' m a ns ns' : aframe s s' a ns ns' →
  aframe (with_iters m s) (with_iters m s') a ns ns'.
Proof. intros []. by constructor. Qed.

(** The last step: the iterator is at the end and freed. *)
Lemma visit_end s a it x ns keep i : list_at s a x ns →
  wp (listReleaseIterator (Some it);; mret [])
    (λ vs s', visit_post s a it x ns ns keep [] vs s') (with_iters (<[it := i]> (a_iters s)) s).
Proof.
  intros H. unfold listReleaseIterator. al_step.
  eapply wp_free_iter; [cbn; apply lookup_insert_eq|]. al_step. split_and!; [done..| |].
  - cbn. by destruct (free x); rewrite app_nil_r.
  - exists x. split_and!; [done..| |]; [by destruct H; constructor|].
    apply aframe_refl; [done..|]. cbn. by rewrite delete_insert_eq.
Qed.

(** A step, and the rest of the loop after it. *)
Lemma visit_cons s s2 s3 a it x x2 ns ns2 ns3 keep i v vs vs' :
  a_plan s2 = a_plan s →
  a_calls s2 = a_calls s ++ free_calls (free x) (dropped keep [v]) →
  dup x2 = dup x → free x2 = free x → match_ x2 = match_ x →
  aframe (with_iters (<[it := i]> (a_iters s)) s) s2 a ns ns2 →
  visit_post s2 a it x2 ns2 ns3 keep vs vs' s3 →
  visit_post s a it x ns ns3 keep (v :: vs) (v :: vs') s3.
Proof.
  intros E1 E2 Hd Hf Hm Hfr (->&E3&E4&x3&Hd3&Hf3&Hm3&Hl&Hfr3).
  split_and!; [done|congruence| |].
  - rewrite E4, E2, Hf, <- app_assoc, <- free_calls_app. unfold dropped. simpl.
    by destruct (keep v).
  - exists x3. split_and!; try congruence. eapply aframe_trans; [|exact Hfr3].
    apply (aframe_iters _ _ (delete it (a_iters s2))) in Hfr as Hfr'.
    rewrite (af_iters _ _ _ _ _ Hfr) in Hfr' |- *. cbn in *. by rewrite delete_insert_eq in *.
Qed.

Lemma visit_fwd_wp a it keep : ∀ ns2 fuel s x ns1, list_at s a x (ns1 ++ ns2) →
  a_iters s !! it = Some (ListIter (first_of ns2 None) AL_START_HEAD) → length ns2 < fuel →
  wp (visit_loop fuel keep (Some a) (Some it)) (λ vs s',
    visit_post s a it x (ns1 ++ ns2) (ns1 ++ kept keep ns2) keep (nvals ns2) vs s') s.
Proof.
  induction ns2 as [|r ns2 IH]; intros fuel s x ns1 H Hit Hf;
    (destruct fuel as [|fuel]; simpl in Hf; [lia|]); cbn [visit_loop]; wp_step;
    pose proof (la_seg _ _ _ _ H) as Hs; apply dlseg_app in Hs as [_ Hs];
    (eapply next_fwd_wp; [exact Hit|exact Hs|]); cbn [first_of List.tl];
    [by apply visit_end|].
  destruct Hs as [Hr Hs]. al_step. eapply wp_load_node; [exact Hr|]. al_step. cbn [value].
  set (s1 := with_iters _ s).
  assert (H1 : list_at s1 a x (ns1 ++ r :: ns2)) by (by destruct H; constructor).
  eapply wp_mono; [by apply visit_step|]. intros [] s2 (E1&E2&x2&Hd&Hfe&Hm&Hl2&Hfr). al_step.
  eapply wp_mono.
  { eapply (IH fuel s2 x2 (ns1 ++ kept keep [r])); [by rewrite <- app_assoc| |lia]. rewrite (af_iters _ _ _ _ _ Hfr).
    cbn. apply lookup_insert_eq. }
  intros vs s3 H3. wp_step. rewrite <- !app_assoc in H3. rewrite fmap_cons.
  replace (kept keep (r :: ns2)) with (kept keep [r] ++ kept keep ns2)
    by (unfold kept; simpl; by destruct (keep r.2)).
  by eapply visit_cons.
Qed.

Lemma visit_bwd_wp a it keep dir : dir ≠ AL_START_HEAD → ∀ ns1 fuel s x ns2,
  list_at s a x (ns1 ++ ns2) →
  a_iters s !! it = Some (ListIter (last_of None ns1) dir) → length ns1 < fuel →
  wp (visit_loop fuel keep (Some a) (Some it)) (λ vs s',
    visit_post s a it x (ns1 ++ ns2) (kept keep ns1 ++ ns2) keep (reverse (nvals ns1)) vs s') s.
Proof.
  intros Hdir. induction ns1 as [|r ns1 IH] using rev_ind; intros fuel s x ns2 H Hit Hf;
    rewrite ?length_app in Hf; (destruct fuel as [|fuel]; simpl in Hf; [lia|]);
    cbn [visit_loop]; wp_step;
    pose proof (la_seg _ _ _ _ H) as Hs; apply dlseg_app in Hs as [Hs _];
    (eapply next_bwd_wp; [exact Hdir|exact Hit|exact Hs|]);
    rewrite ?last_of_snoc, ?removelast_last; [by apply visit_end|].
  apply dlseg_app in Hs as [Hs [Hr _]]. al_step. eapply wp_load_node; [exact Hr|]. al_step.
  cbn [value]. set (s1 := with_iters _ s). rewrite <- app_assoc in H. simpl in H.
  assert (H1 : list_at s1 a x (ns1 ++ r :: ns2)) by (by destruct H; constructor).
  eapply wp_mono; [by apply visit_step|]. intros [] s2 (E1&E2&x2&Hd&Hfe&Hm&Hl2&Hfr). al_step.
  eapply wp_mono.
  { eapply (IH fuel s2 x2); [done| |lia]. rewrite (af_iters _ _ _ _ _ Hfr).
    cbn. apply lookup_insert_eq. }
  intros vs s3 H3. wp_step. rewrite fmap_app, reverse_app, <- app_assoc. simpl.
  replace (kept keep (ns1 ++ [r]) ++ ns2) with (kept keep ns1 ++ kept keep [r] ++ ns2)
    by (unfold kept; by rewrite List.filter_app, <- app_assoc).
  by eapply visit_cons.
Qed.

(** A visit in either direction. *)
Lemma visit_wp s a x ns keep dir : list_at s a x ns → plan_ok s = true →
  wp (visit keep (Some a) dir) (λ vs s',
    vs = (if (dir =? AL_START_HEAD)%Z then nvals ns else reverse (nvals ns)) ∧
    a_plan s' = a_plan (pop s) ∧
    a_calls s' = a_calls s ++ free_calls (free x) (dropped keep vs) ∧
    ∃ x', dup x' = dup x ∧ free x' = free x ∧ match_ x' = match_ x ∧
      list_at s' a x' (kept keep ns) ∧ aframe s s' a ns (kept keep ns)) s.
Proof.
  intros H Hok. unfold visit. wp_step. eapply getiter_wp; [done| |congruence].
  intros _ it Hit. al_step. al_step. set (s1 := with_iters _ _).
  assert (H1 : list_at s1 a x ns) by (by destruct H; constructor).
  assert (Hfr0 : ∀ s' ns', aframe (with_iters (delete it (a_iters s1)) s1) s' a ns ns' →
    aframe s s' a ns ns').
  { intros s' ns' Hfr. eapply aframe_trans; [|exact Hfr]. apply aframe_refl; [done..|].
    cbn. by rewrite delete_insert_id. }
  destruct (Z.eqb_spec dir AL_START_HEAD) as [->|Hdir]; eapply wp_mono.
  - eapply (visit_fwd_wp a it keep ns _ s1 x []); [done|cbn; apply lookup_insert_eq|].
    by apply (loop_fuel_enough s a x).
  - intros vs s' (->&E1&E2&x'&Hd&Hf&Hm&Hl&Hfr). split_and!; [done..|]. exists x'. eauto 10.
  - eapply (visit_bwd_wp a it keep dir Hdir ns _ s1 x []);
      [by rewrite app_nil_r|cbn; apply lookup_insert_eq|]. by apply (loop_fuel_enough s a x).
  - rewrite !app_nil_r. intros vs s' (->&E1&E2&x'&Hd&Hf&Hm&Hl&Hfr). split_and!; [done..|].
    exists x'. eauto 10.
Qed.

End AdlistProofs.
