(* ===== verification/AdlistSpec.v ===== *)
(** * AdlistSpec: what the list of adlist.c does for its clients

    The theorems hold for any behaviour of the list's methods ([dup_fn],
    [match_fn]), any contents of fresh memory and any plan of [malloc]; the
    witnesses run the operations on a list of three nodes. *)
From stdpp Require Import gmap list.
From Stdlib Require Import ZArith.
From S2P Require Import Prelude Adlist AdlistProofs.

Section AdlistSpec.
Context (dup_fn : list call → Z → Z → Z) (match_fn : list call → Z → Z → Z → bool).
Context (junk_node : listNode) (junk_list : adlist) (junk_iter : listIter).

(** A list from its creation, with its methods, to its release. *)
Definition list_life (d f m : option Z) (os : list list_op) : M ast (option (list (option Z))) :=
  a ← listCreate junk_list;
  match a with
  | None => mret None
  | Some _ =>
    upd_list a (set_methods d f m);;
    rs ← run_ops junk_node a os;
    listRelease a;;
    mret (Some rs)
  end.

(** C6: A sequence of additions at either end, insertions, deletions, look-ups by index and
    rotations of a list does, whatever [malloc] answers, what it does on the
    sequence of the list's values: the results, the values, the mallocs asked and the
    values given to the list's [free] are those of [spec_ops], the list stays
    well linked, no other list or node changes, removed nodes are freed and no
    bad pointer is used. *)
Theorem adlist_ops s a x ns os : list_at s a x ns →
  (Z.of_nat (length ns + length os) < 2 ^ 64)%Z → Forall op_in_range os →
  ∃ rs s', run_ops junk_node (Some a) os s = Ok (rs, s') ∧
    let '(rs', st) := spec_ops (free x) os (nvals ns, a_plan s, a_calls s) in
    rs = rs' ∧ op_post s a x ns st s'.
Proof. intros H Hroom Hr. by apply wp_elim, ops_wp. Qed.

(** C25: A list that is created, used and released gives all its memory back, and each
    value still in it is given to its [free] once, from head to tail. *)
Theorem adlist_life s d f m os : plan_ok s = true →
  (Z.of_nat (length os) < 2 ^ 64)%Z → Forall op_in_range os →
  let '(rs, (vs, plan, cs)) := spec_ops f os ([], a_plan (pop s), a_calls s) in
  list_life d f m os s =
    Ok (Some rs, Ast (a_lists s) (a_nodes s) (a_iters s) plan (cs ++ free_calls f vs)).
Proof.
  intros Hok Hroom Hr.
  assert (wp (list_life d f m os) (λ r s', let '(rs, (vs, plan, cs)) :=
    spec_ops f os ([], a_plan (pop s), a_calls s) in
    r = Some rs ∧ s' = Ast (a_lists s) (a_nodes s) (a_iters s) plan (cs ++ free_calls f vs)) s)
    as (r&s'&E&H)%wp_elim.
  { unfold list_life. wp_step. apply create_wp; [intros _ a Ha|congruence]. al_step. al_step.
    rewrite insert_insert_eq. set (s1 := with_lists _ _).
    assert (H1 : list_at s1 a (set_methods d f m empty_list) []).
    { apply list_at_empty; [|done..]. cbn. by rewrite lookup_insert_eq. }
    al_step. eapply wp_mono; [by eapply ops_wp|]. intros rs s2. cbn [fmap list_fmap free
      set_methods empty_list a_plan a_calls s1 with_lists pop].
    destruct (spec_ops f os _) as [rs' st]. intros (<-&x'&ns'&_&Hf&_&H2&Hfr&<-). cbn in Hf.
    al_step. eapply wp_mono; [by eapply release_wp|]. intros _ s3 ->. wp_step.
    split; [done|]. rewrite Hf. destruct Hfr as [Fl Fn Fnew _ Fi]. f_equal.
    - apply map_eq. intros l. destruct (decide (l = a)) as [->|Hne].
      + by rewrite lookup_delete_eq.
      + rewrite lookup_delete_ne, Fl by done. cbn. by rewrite lookup_insert_ne.
    - apply map_eq. intros l. rewrite without_lookup. case_decide as Hin.
      + destruct (Fnew l Hin) as [?%elem_of_nil|E]; done.
      + by rewrite Fn by (done || apply not_elem_of_nil).
    - by rewrite Fi. }
  destruct (spec_ops f os _) as [rs [[vs plan] cs]]. destruct H as [-> ->]. done.
Qed.

(** [listSearchKey] returns the first node whose value matches the key, by the
    list's [match] or by pointer, and calls [match] on the values up to it only;
    the list and the memory stay. *)
Lemma adlist_search s a x ns key : list_at s a x ns → plan_ok s = true →
  let '(r, cs) := search_spec match_fn (match_ x) (a_calls s) key ns in
  listSearchKey match_fn junk_iter (Some a) key s =
    Ok (r, Ast (a_lists s) (a_nodes s) (a_iters s) (a_plan (pop s)) cs).
Proof.
  intros H Hok. destruct (wp_elim _ _ _ (search_wp match_fn junk_iter s a x ns key H Hok))
    as (r&[ls nd it pl cs]&E&E1&E2&E3&E4&E5). cbn in *. rewrite <- E1. by subst.
Qed.

(** Without memory, [listDup] leaves its result without a value when the copy cannot
    be allocated, and [listDup] and [listSearchKey] use a NULL iterator when the
    iterator cannot be. *)
Lemma listDup_no_copy s a x ns : list_at s a x ns → plan_ok s = false →
  listDup dup_fn junk_node junk_list junk_iter (Some a) s = Fault FNoValue.
Proof. by destruct s as [ls nd it [|[|] plan] cs]. Qed.

Lemma listDup_no_iter s a x ns : list_at s a x ns → plan_ok s = true → plan_ok (pop s) = false →
  listDup dup_fn junk_node junk_list junk_iter (Some a) s = Fault FNull.
Proof.
  intros [Hl _ _ _ _ _ _] H1 H2. unfold listDup.
  destruct (wp_elim _ _ _ (create_wp junk_list (λ r s', ∃ c, r = Some c ∧ a_lists s !! c = None ∧
    s' = with_lists (<[c := empty_list]> (a_lists s)) (pop s)) s
    ltac:(intros _ c Hc; by exists c) ltac:(congruence))) as (r&s1&E&c&->&Hc&->).
  rewrite (bind_ok _ _ _ _ _ E). assert (a ≠ c) by congruence.
  destruct s as [ls nd it [|[|] [|[|] plan]] cs]; try done. cbn in *.
  unfold load_list, upd_list, deref, gets, mbind, M_bind. cbn. simplify_map_eq.
  unfold load_list, deref, gets, mbind, M_bind. cbn. by rewrite lookup_insert_eq.
Qed.

Lemma listSearchKey_no_iter s a x ns key : list_at s a x ns → plan_ok s = false →
  listSearchKey match_fn junk_iter (Some a) key s = Fault FNull.
Proof. by destruct s as [ls nd it [|[|] plan] cs]. Qed.

(** C23: [listDup] copies the values in order, with the list's [dup] or by pointer, into a
    new list with the same methods and leaves the original list as it was; when a
    value cannot be copied or a node not allocated it returns NULL, the copy is
    released, and the heap is that before the call.  With [dup] and [free] every value
    that was made is then freed but the last, which is the NULL of [dup] or, when the
    node was not allocated, a value that is lost; with [free] alone the values freed
    are those of the original, which still holds them.  Only two allocations that fail
    end the call otherwise: that of the copy leaves no value ([return;]), and that of
    the iterator is used as NULL. *)
Theorem adlist_dup s a x ns : list_at s a x ns →
  match listDup dup_fn junk_node junk_list junk_iter (Some a) s with
  | Fault f => plan_ok s = false ∧ f = FNoValue ∨
      plan_ok s = true ∧ plan_ok (pop s) = false ∧ f = FNull
  | Ok (r, s') => plan_ok s = true ∧ plan_ok (pop s) = true ∧
      (let '(o, plan, calls) :=
         dup_spec dup_fn (dup x) (free x) (tl (tl (a_plan s))) (a_calls s) [] (nvals ns) in
       a_plan s' = plan ∧ a_calls s' = calls ∧ list_at s' a x ns ∧
       dup_post s (dup x) (free x) (match_ x) o r s') ∧
      (r = None → is_Some (free x) → ∃ new, a_calls s' = a_calls s ++ new ∧
         if dup x is Some _ then ∃ us w, made new = us ++ [w] ∧ freed new = us
         else ∃ k, k < length ns ∧ freed new = take k (nvals ns))
  end.
Proof.
  intros H. destruct (plan_ok s) eqn:H1.
  2: { rewrite (listDup_no_copy s a x ns H H1). by left. }
  destruct (plan_ok (pop s)) eqn:H2.
  2: { rewrite (listDup_no_iter s a x ns H H1 H2). by right. }
  destruct (wp_elim _ _ _ (dup_wp dup_fn junk_node junk_list junk_iter s a x ns H H1 H2))
    as (r&s'&->&Hp). split; [done|]. split; [done|].
  destruct (dup_spec _ _ _ _ _ _ _) as [[o plan] calls] eqn:Ed. destruct Hp as (E1&E2&Hp).
  split; [split_and!; try done; by eapply dup_post_original|].
  intros -> [f Hf]. rewrite Hf in Ed. rewrite E2.
  assert (o = None) as ->.
  { destruct o as [ws|]; [|done]. by destruct Hp as (_&c&x'&ns'&[=]&_). }
  apply dup_spec_freed in Ed. by rewrite length_fmap in Ed.
Qed.

(** C24: The loop of [listNext] visits each value once, from head to tail or from tail to
    head, also when it deletes the nodes it is at; the values kept stay in order,
    the others are given to [free] in the order of the visit, and the iterator is
    freed. *)
Theorem adlist_visit s a x ns keep dir : list_at s a x ns → plan_ok s = true →
  ∃ vs s', visit junk_iter keep (Some a) dir s = Ok (vs, s') ∧
    vs = (if (dir =? AL_START_HEAD)%Z then nvals ns else reverse (nvals ns)) ∧
    a_calls s' = a_calls s ++ free_calls (free x) (dropped keep vs) ∧
    ∃ x', dup x' = dup x ∧ free x' = free x ∧ match_ x' = match_ x ∧
      list_at s' a x' (kept keep ns) ∧ aframe s s' a ns (kept keep ns).
Proof.
  intros H Hok. destruct (wp_elim _ _ _ (visit_wp junk_iter s a x ns keep dir H Hok))
    as (vs&s'&E&E1&_&E2&E3). eauto 10.
Qed.

(** The index whose negation is no [long] overflows. *)
Lemma adlist_index_min s a : listIndex (Some a) (- 2 ^ 63) s = Fault FOverflow.
Proof. done. Qed.

End AdlistSpec.

(** ** Witnesses *)

(** Methods: the copies of 1, 2, 3 are 11, 12, 13; a value matches a key with the same
    remainder by 2. *)
Definition demo_dup (_ : list call) (_ ptr : Z) : Z := ptr + 10.
Definition demo_match (_ : list call) (_ ptr key : Z) : bool := ((ptr - key) mod 2 =? 0)%Z.
Definition demo_node : listNode := ListNode (Some 99%positive) (Some 99%positive) 99.
Definition demo_iter : listIter := ListIter (Some 99%positive) 9.
Definition demo_garbage : adlist := List None None None None None 99.

(** The list 1, 2, 3 with all methods set, at address 5. *)
Definition demo_refs : list nref := [(2%positive, 1%Z); (7%positive, 2%Z); (3%positive, 3%Z)].
Definition demo_list : adlist := List (Some 2%positive) (Some 3%positive) (Some 1%Z) (Some 2%Z) (Some 3%Z) 3.
Definition demo_state (plan : list bool) : ast := Ast {[5%positive := demo_list]}
  (<[2%positive := ListNode None (Some 7%positive) 1]>
    (<[7%positive := ListNode (Some 2%positive) (Some 3%positive) 2]>
      {[3%positive := ListNode (Some 7%positive) None 3]})) ∅ plan [].

Lemma demo_list_at plan : list_at (demo_state plan) 5%positive demo_list demo_refs.
Proof. constructor; try done. repeat constructor; set_solver. Qed.

Lemma adlist_ops_witness : ∃ rs s',
  run_ops demo_node (Some 5%positive) [ORotate; ODel 1; OAddHead 8; OInsert (-1) 9 false; OIndex (-2)]
    (demo_state [true; false]) = Ok (rs, s') ∧
  rs = [None; Some 1; Some 8; None; Some 3]%Z ∧
  op_post (demo_state [true; false]) 5%positive demo_list demo_refs
    ([8; 3; 2]%Z, [], [CallFree 2 1]) s'.
Proof.
  apply (adlist_ops demo_node (demo_state [true; false]) 5%positive demo_list demo_refs
    [ORotate; ODel 1; OAddHead 8; OInsert (-1) 9 false; OIndex (-2)]);
    [apply demo_list_at|done|repeat constructor; done].
Defined.

Lemma adlist_life_witness :
  list_life demo_node demo_garbage None (Some 2%Z) None [OAddTail 1; OAddTail 4; OAddHead 8; ORotate; ODel 0]
    (demo_state [true; true; false]) =
  Ok (Some [Some 1; None; Some 8; None; Some 1]%Z,
      Ast (a_lists (demo_state [])) (a_nodes (demo_state [])) ∅ [] [CallFree 2 1; CallFree 2 8]).
Proof.
  apply (adlist_life demo_node demo_garbage (demo_state [true; true; false]) None (Some 2%Z) None
    [OAddTail 1; OAddTail 4; OAddHead 8; ORotate; ODel 0]); [done..|repeat constructor; done].
Defined.

Lemma adlist_search_witness :
  listSearchKey demo_match demo_iter (Some 5%positive) 6 (demo_state []) =
  Ok (Some 7%positive, Ast (a_lists (demo_state [])) (a_nodes (demo_state [])) ∅ []
    [CallMatch 3 1 6 false; CallMatch 3 2 6 true]).
Proof.
  apply (adlist_search demo_match demo_iter (demo_state []) 5%positive demo_list demo_refs 6);
    [apply demo_list_at|done].
Defined.

(** The third node of the copy cannot be allocated: the value 13 is lost. *)
Lemma adlist_dup_witness :
  match listDup demo_dup demo_node demo_garbage demo_iter (Some 5%positive)
    (demo_state [true; true; true; true; false]) with
  | Fault _ => False
  | Ok (r, s') =>
      (a_plan s' = [] ∧
       a_calls s' = [CallDup 1 1 11; CallDup 1 2 12; CallDup 1 3 13; CallFree 2 11; CallFree 2 12] ∧
       list_at s' 5%positive demo_list demo_refs ∧
       dup_post (demo_state [true; true; true; true; false]) (Some 1%Z) (Some 2%Z) (Some 3%Z)
         None r s') ∧
      (r = None → is_Some (free demo_list) → ∃ new, a_calls s' = [] ++ new ∧
         if dup demo_list is Some _ then ∃ us w, made new = us ++ [w] ∧ freed new = us
         else ∃ k, k < length demo_refs ∧ freed new = take k (nvals demo_refs))
  end.
Proof.
  pose proof (adlist_dup demo_dup demo_node demo_garbage demo_iter
    (demo_state [true; true; true; true; false]) 5%positive demo_list demo_refs
    (demo_list_at _)) as H.
  destruct (listDup _ _ _ _ _ _) as [[r s']|f].
  - exact (proj2 (proj2 H)).
  - destruct H as [[[=] _]|(_ & [=] & _)].
Defined.

Lemma adlist_visit_witness : ∃ vs s',
  visit demo_iter Z.even (Some 5%positive) AL_START_TAIL (demo_state []) = Ok (vs, s') ∧
  vs = [3; 2; 1]%Z ∧ a_calls s' = [CallFree 2 3; CallFree 2 1] ∧
  ∃ x', dup x' = Some 1%Z ∧ free x' = Some 2%Z ∧ match_ x' = Some 3%Z ∧
    list_at s' 5%positive x' [(7%positive, 2%Z)] ∧
    aframe (demo_state []) s' 5%positive demo_refs [(7%positive, 2%Z)].
Proof.
  destruct (adlist_visit demo_iter (demo_state []) 5%positive demo_list demo_refs Z.even
    AL_START_TAIL (demo_list_at _) eq_refl) as (vs&s'&E&Ev&Ec&H).
  exists vs, s'. split_and!; [exact E|exact Ev| |exact H]. rewrite Ec, Ev. reflexivity.
Defined.

