(* ===== verification/TailQueue.v ===== *)
(** * TailQueue: the intrusive tail queue (tailqueueTest/tailqueue.h, main.c)

    A queue is a head and elements that hold their own links.  A back link is the
    address of the cell that points to the element: the [tqh_first] of the head or
    the [tqe_next] of the element before it.  The macros that go backwards cast such
    an address to a head, whose [tqh_last] is then the word after the cell: the
    [tqh_last] of a head, or the [tqe_prev] of an element. *)
From stdpp Require Import gmap list strings.
From Stdlib Require Import ZArith.
From S2P Require Import Prelude.

(** ** Data *)

(** The address of a cell that holds a forward pointer. *)
Inductive cell := HeadFirst (h : loc) | NextOf (l : loc).

(** [TAILQ_HEAD(AlarmInfoTailQueue, AlarmInfo)] *)
Record tqhead := TqHead { tqh_first : option loc; tqh_last : option cell }.

(** [struct AlarmInfo], with its [TAILQ_ENTRY(AlarmInfo) TQueueField]. *)
Record AlarmInfo := Alarm {
  tqe_next : option loc;
  tqe_prev : option cell;
  devId : Z;
  name : string
}.

Record tst := Tst {
  t_heads : gmap loc tqhead;
  t_elems : gmap loc AlarmInfo;
  t_out : list (Z * string)          (* what was printed *)
}.

#[global] Instance cell_eq_dec : EqDecision cell.
Proof. solve_decision. Defined.
#[global] Instance tqhead_eq_dec : EqDecision tqhead.
Proof. solve_decision. Defined.
#[global] Instance AlarmInfo_eq_dec : EqDecision AlarmInfo.
Proof. solve_decision. Defined.
#[global] Instance tst_eq_dec : EqDecision tst.
Proof. solve_decision. Defined.

Definition set_first v (h : tqhead) := TqHead v (tqh_last h).
Definition set_last v (h : tqhead) := TqHead (tqh_first h) v.
Definition set_next v (e : AlarmInfo) := Alarm v (tqe_prev e) (devId e) (name e).
Definition set_prev v (e : AlarmInfo) := Alarm (tqe_next e) v (devId e) (name e).
Definition set_data d n (e : AlarmInfo) := Alarm (tqe_next e) (tqe_prev e) d n.

Definition with_heads m (s : tst) := Tst m (t_elems s) (t_out s).
Definition with_elems m (s : tst) := Tst (t_heads s) m (t_out s).

(** ** Memory *)

Definition load_head (h : loc) : M tst tqhead :=
  m ← gets t_heads; match m !! h with Some x => mret x | None => fail FDangling end.
Definition load_elem (p : option loc) : M tst AlarmInfo :=
  match p with
  | None => fail FNull
  | Some l => m ← gets t_elems; match m !! l with Some x => mret x | None => fail FDangling end
  end.
Definition upd_head (h : loc) (f : tqhead → tqhead) : M tst unit :=
  x ← load_head h; modify (λ s, with_heads (<[h := f x]> (t_heads s)) s).
Definition upd_elem (p : option loc) (f : AlarmInfo → AlarmInfo) : M tst unit :=
  x ← load_elem p;
  match p with
  | Some l => modify (λ s, with_elems (<[l := f x]> (t_elems s)) s)
  | None => mret tt
  end.

(** [*c = v], [*c], and the word after the cell. *)
Definition store_cell (c : option cell) (v : option loc) : M tst unit :=
  match c with
  | None => fail FNull
  | Some (HeadFirst h) => upd_head h (set_first v)
  | Some (NextOf l) => upd_elem (Some l) (set_next v)
  end.
Definition load_cell (c : option cell) : M tst (option loc) :=
  match c with
  | None => fail FNull
  | Some (HeadFirst h) => x ← load_head h; mret (tqh_first x)
  | Some (NextOf l) => x ← load_elem (Some l); mret (tqe_next x)
  end.
Definition load_after_cell (c : option cell) : M tst (option cell) :=
  match c with
  | None => fail FNull
  | Some (HeadFirst h) => x ← load_head h; mret (tqh_last x)
  | Some (NextOf l) => x ← load_elem (Some l); mret (tqe_prev x)
  end.

(** ** The macros *)

Definition TAILQ_FIRST (head : loc) : M tst (option loc) :=
  h ← load_head head; mret (tqh_first h).
Definition TAILQ_NEXT (elm : option loc) : M tst (option loc) :=
  e ← load_elem elm; mret (tqe_next e).
Definition TAILQ_LAST (head : loc) : M tst (option loc) :=
  h ← load_head head; c ← load_after_cell (tqh_last h); load_cell c.
Definition TAILQ_PREV (elm : option loc) : M tst (option loc) :=
  e ← load_elem elm; c ← load_after_cell (tqe_prev e); load_cell c.
Definition TAILQ_EMPTY (head : loc) : M tst bool :=
  f ← TAILQ_FIRST head; mret (bool_decide (f = None)).

(** The body is run at each element. *)
Fixpoint foreach_loop (fuel : nat) (step : option loc → M tst (option loc))
    (body : option loc → M tst unit) (var : option loc) : M tst unit :=
  match fuel with
  | O => fail FFuel
  | S fuel' =>
    match var with
    | None => mret tt
    | Some _ => body var;; v ← step var; foreach_loop fuel' step body v
    end
  end.
Definition foreach_fuel (s : tst) : nat := S (size (t_elems s)).
Definition TAILQ_FOREACH (head : loc) (body : option loc → M tst unit) : M tst unit :=
  var ← TAILQ_FIRST head; fuel ← gets foreach_fuel; foreach_loop fuel TAILQ_NEXT body var.
Definition TAILQ_FOREACH_REVERSE (head : loc) (body : option loc → M tst unit) : M tst unit :=
  var ← TAILQ_LAST head; fuel ← gets foreach_fuel; foreach_loop fuel TAILQ_PREV body var.

Definition TAILQ_INIT (head : loc) : M tst unit :=
  upd_head head (set_first None);;
  upd_head head (set_last (Some (HeadFirst head))).

Definition TAILQ_INSERT_HEAD (head elm : loc) : M tst unit :=
  h ← load_head head;
  upd_elem (Some elm) (set_next (tqh_first h));;
  (if bool_decide (tqh_first h ≠ None) then
     h ← load_head head; upd_elem (tqh_first h) (set_prev (Some (NextOf elm)))
   else upd_head head (set_last (Some (NextOf elm))));;
  upd_head head (set_first (Some elm));;
  upd_elem (Some elm) (set_prev (Some (HeadFirst head))).

Definition TAILQ_INSERT_TAIL (head elm : loc) : M tst unit :=
  upd_elem (Some elm) (set_next None);;
  h ← load_head head;
  upd_elem (Some elm) (set_prev (tqh_last h));;
  h ← load_head head;
  store_cell (tqh_last h) (Some elm);;
  upd_head head (set_last (Some (NextOf elm))).

Definition TAILQ_INSERT_AFTER (head listelm elm : loc) : M tst unit :=
  x ← load_elem (Some listelm);
  upd_elem (Some elm) (set_next (tqe_next x));;
  (if bool_decide (tqe_next x ≠ None) then
     e ← load_elem (Some elm); upd_elem (tqe_next e) (set_prev (Some (NextOf elm)))
   else upd_head head (set_last (Some (NextOf elm))));;
  upd_elem (Some listelm) (set_next (Some elm));;
  upd_elem (Some elm) (set_prev (Some (NextOf listelm))).

Definition TAILQ_INSERT_BEFORE (listelm elm : loc) : M tst unit :=
  x ← load_elem (Some listelm);
  upd_elem (Some elm) (set_prev (tqe_prev x));;
  upd_elem (Some elm) (set_next (Some listelm));;
  x ← load_elem (Some listelm);
  store_cell (tqe_prev x) (Some elm);;
  upd_elem (Some listelm) (set_prev (Some (NextOf elm))).

Definition TAILQ_REMOVE (head elm : loc) : M tst unit :=
  e ← load_elem (Some elm);
  (if bool_decide (tqe_next e ≠ None) then upd_elem (tqe_next e) (set_prev (tqe_prev e))
   else upd_head head (set_last (tqe_prev e)));;
  e ← load_elem (Some elm);
  store_cell (tqe_prev e) (tqe_next e).

Definition TAILQ_REPLACE (head elm elm2 : loc) : M tst unit :=
  e ← load_elem (Some elm);
  upd_elem (Some elm2) (set_next (tqe_next e));;
  (if bool_decide (tqe_next e ≠ None) then
     e2 ← load_elem (Some elm2); upd_elem (tqe_next e2) (set_prev (Some (NextOf elm2)))
   else upd_head head (set_last (Some (NextOf elm2))));;
  e ← load_elem (Some elm);
  upd_elem (Some elm2) (set_prev (tqe_prev e));;
  e2 ← load_elem (Some elm2);
  store_cell (tqe_prev e2) (Some elm2).

(** ** The program of main.c *)

Definition malloc_alarm (junk : AlarmInfo) : M tst loc :=
  m ← gets t_elems; let l := fresh_loc m in
  modify (with_elems (<[l := junk]> m));; mret l.
Definition free_alarm (l : loc) : M tst unit :=
  _ ← load_elem (Some l); modify (λ s, with_elems (delete l (t_elems s)) s).

(** [printf("%d, %s\n", p->devId, p->name)] *)
Definition print_alarm (p : option loc) : M tst unit :=
  x ← load_elem p;
  modify (λ s, Tst (t_heads s) (t_elems s) (t_out s ++ [(devId x, name x)])).

Definition main (junk : AlarmInfo) (alarmTQHead : loc) : M tst Z :=
  TAILQ_INIT alarmTQHead;;
  obj0 ← malloc_alarm junk;
  obj1 ← malloc_alarm junk;
  obj2 ← malloc_alarm junk;
  upd_elem (Some obj0) (set_data 0 "zhangfei");;
  upd_elem (Some obj1) (set_data 1 "liubei");;
  upd_elem (Some obj2) (set_data 2 "guanyu");;
  TAILQ_INSERT_HEAD alarmTQHead obj0;;
  TAILQ_INSERT_HEAD alarmTQHead obj1;;
  TAILQ_INSERT_BEFORE obj0 obj2;;
  TAILQ_FOREACH alarmTQHead print_alarm;;
  free_alarm obj0;;
  free_alarm obj1;;
  free_alarm obj2;;
  mret 0%Z.
