(* ===== verification/TailQueueProofs.v ===== *)
(** * TailQueueProofs: the macros of tailqueue.h on the sequence of elements

    A queue is cut into a left and a right part by a [gap]: what the last cell of
    the left part holds, and where the back link of the right part points.  A macro
    that inserts, removes or replaces an element opens a gap, writes the two links
    around it and closes it. *)
From stdpp Require Import gmap list strings.
From Stdlib Require Import ZArith.
From S2P Require Import Prelude TailQueue.

(** ** Specification *)

Definition first (ls : list loc) (q : option loc) : option loc :=
  match ls with [] => q | l :: _ => Some l end.
(** The last cell of a part that begins at the cell [a]. *)
Definition after (a : cell) (ls : list loc) : cell :=
  match last ls with None => a | Some l => NextOf l end.

(** The elements [ls], from the cell [a] that points to the first to what the last
    cell holds, [q]. *)
Fixpoint tseg (es : gmap loc AlarmInfo) (a : cell) (ls : list loc) (q : option loc) : Prop :=
  match ls with
  | [] => True
  | l :: ls' =>
    (∃ e, es !! l = Some e ∧ tqe_prev e = Some a ∧ tqe_next e = first ls' q) ∧
    tseg es (NextOf l) ls' q
  end.

Record gap (s : tst) (h : loc) (l1 l2 : list loc) (q : option loc) (a : cell) : Prop := {
  g_head : t_heads s !! h = Some (TqHead (first l1 q) (Some (after a l2)));
  g_left : tseg (t_elems s) (HeadFirst h) l1 q;
  g_right : tseg (t_elems s) a l2 None;
  g_nodup : NoDup (l1 ++ l2)
}.

(** The queue at [h] holds the elements [ls], linked both ways. *)
Definition tq_at (s : tst) (h : loc) (ls : list loc) : Prop := gap s h [] ls (first ls None) (HeadFirst h).

(** What a macro on the queue [h] and the elements [xs] leaves alone. *)
Record tframe (s s' : tst) (h : loc) (xs : list loc) : Prop := {
  tf_heads : ∀ l, l ≠ h → t_heads s' !! l = t_heads s !! l;
  tf_elems : ∀ l, l ∉ xs → t_elems s' !! l = t_elems s !! l;
  tf_data : ∀ l, (λ e, (devId e, name e)) <$> t_elems s' !! l = (λ e, (devId e, name e)) <$> t_elems s !! l;
  tf_out : t_out s' = t_out s
}.

Lemma tframe_refl s h xs : tframe s s h xs.
Proof. done. Qed.

Lemma tframe_trans s1 s2 s3 h xs : tframe s1 s2 h xs → tframe s2 s3 h xs → tframe s1 s3 h xs.
Proof.
  intros [H1 E1 D1 O1] [H2 E2 D2 O2]. constructor; intros.
  - by rewrite H2, H1.
  - by rewrite E2, E1.
  - by rewrite D2, D1.
  - congruence.
Qed.

Lemma tframe_weaken s s' h xs ys : xs ⊆ ys → tframe s s' h xs → tframe s s' h ys.
Proof. intros Hs [? E ? ?]. constructor; auto. Qed.

Lemma tframe_is_Some s s' h xs l : tframe s s' h xs → is_Some (t_elems s !! l) →
  is_Some (t_elems s' !! l).
Proof.
  intros [_ _ D _] [e E]. specialize (D l). rewrite E in D. destruct (t_elems s' !! l); [eauto|done].
Qed.

(** ** Segments *)

Lemma first_app l1 l2 q : first (l1 ++ l2) q = first l1 (first l2 q).
Proof. by destruct l1. Qed.

Lemma after_snoc a ls l : after a (ls ++ [l]) = NextOf l.
Proof. unfold after. by rewrite last_snoc. Qed.

Lemma after_cons a l ls : after a (l :: ls) = after (NextOf l) ls.
Proof. unfold after. rewrite last_cons. by destruct (last ls). Qed.

Lemma after_app a l1 l2 : after a (l1 ++ l2) = after (after a l1) l2.
Proof. unfold after. rewrite last_app. by destruct (last l2); [|destruct (last l1)]. Qed.

Lemma tseg_app es a l1 l2 q : tseg es a (l1 ++ l2) q ↔
  tseg es a l1 (first l2 q) ∧ tseg es (after a l1) l2 q.
Proof.
  revert a. induction l1 as [|l l1 IH]; intros a; simpl; [tauto|].
  rewrite first_app, IH, after_cons. tauto.
Qed.

Lemma tseg_ext es es' a ls q : (∀ l, l ∈ ls → es' !! l = es !! l) → tseg es a ls q → tseg es' a ls q.
Proof.
  revert a. induction ls as [|l ls IH]; intros a Hext; simpl; [done|].
  rewrite Hext by (by left). intros [? ?]. split; [done|].
  apply IH; [|done]. intros l' ?. apply Hext. by right.
Qed.

Lemma tseg_lookup es a ls q l : tseg es a ls q → l ∈ ls → is_Some (es !! l).
Proof.
  revert a. induction ls as [|l' ls IH]; intros a; simpl; [by intros _ ?%elem_of_nil|].
  intros [(e&?&_) ?] [->|]%elem_of_cons; eauto.
Qed.

(** ** The writes around a gap *)

Definition put_elem (l : loc) (f : AlarmInfo → AlarmInfo) (s : tst) : tst :=
  with_elems (alter f l (t_elems s)) s.
Definition put_head (h : loc) (f : tqhead → tqhead) (s : tst) : tst :=
  with_heads (alter f h (t_heads s)) s.
Definition put_cell (c : cell) (v : option loc) (s : tst) : tst :=
  match c with HeadFirst h => put_head h (set_first v) s | NextOf l => put_elem l (set_next v) s end.
(** The back link of the right part, whose first element is [q]. *)
Definition put_back (h : loc) (q : option loc) (c : option cell) (s : tst) : tst :=
  match q with Some l => put_elem l (set_prev c) s | None => put_head h (set_last c) s end.

Lemma alter_some {A} (f : A → A) (m : gmap loc A) k x :
  m !! k = Some x → <[k := f x]> m = alter f k m.
Proof.
  intros E. apply map_eq. intros i. destruct (decide (i = k)) as [->|Hne].
  - by rewrite lookup_insert_eq, lookup_alter_eq, E.
  - by rewrite lookup_insert_ne, lookup_alter_ne by done.
Qed.

Lemma wp_load_head h x (Q : tqhead → tst → Prop) s :
  t_heads s !! h = Some x → Q x s → wp (load_head h) Q s.
Proof. intros E HQ. unfold load_head. wp_step. wp_step. by rewrite E. Qed.

Lemma wp_load_elem l e (Q : AlarmInfo → tst → Prop) s :
  t_elems s !! l = Some e → Q e s → wp (load_elem (Some l)) Q s.
Proof. intros E HQ. unfold load_elem. wp_step. wp_step. by rewrite E. Qed.

Lemma wp_put_head h f (Q : unit → tst → Prop) s :
  is_Some (t_heads s !! h) → Q tt (put_head h f s) → wp (upd_head h f) Q s.
Proof.
  intros [x E] HQ. unfold upd_head. wp_step. eapply wp_load_head; [done|]. wp_step.
  by rewrite (alter_some f _ _ _ E).
Qed.

Lemma wp_put_elem l f (Q : unit → tst → Prop) s :
  is_Some (t_elems s !! l) → Q tt (put_elem l f s) → wp (upd_elem (Some l) f) Q s.
Proof.
  intros [x E] HQ. unfold upd_elem. wp_step. eapply wp_load_elem; [done|]. wp_step.
  by rewrite (alter_some f _ _ _ E).
Qed.

Lemma last_elem ls (l : loc) : last ls = Some l → l ∈ ls.
Proof. rewrite last_lookup. apply list_elem_of_lookup_2. Qed.

Lemma wp_put_cell s h l1 l2 q a v (Q : unit → tst → Prop) : gap s h l1 l2 q a →
  Q tt (put_cell (after (HeadFirst h) l1) v s) →
  wp (store_cell (Some (after (HeadFirst h) l1)) v) Q s.
Proof.
  intros [Hh Hl _ _] HQ. unfold after in *. destruct (last l1) as [l|] eqn:E; simpl.
  - apply wp_put_elem; [|done]. eapply tseg_lookup; [done|by apply last_elem].
  - by apply wp_put_head; [eexists|].
Qed.

Lemma wp_put_back s h l1 l2 q a c (Q : unit → tst → Prop) : gap s h l1 l2 q a →
  Q tt (put_back h (first l2 None) c s) →
  wp (if bool_decide (first l2 None ≠ None) then upd_elem (first l2 None) (set_prev c)
      else upd_head h (set_last c)) Q s.
Proof.
  intros [Hh _ Hr _] HQ. destruct l2 as [|l l2]; cbn [first tseg] in *.
  - rewrite bool_decide_eq_false_2 by (intros H; by apply H). by apply wp_put_head; [eexists|].
  - rewrite bool_decide_eq_true_2 by done. apply wp_put_elem; [|done].
    destruct Hr as [(e&He&_) _]. by exists e.
Qed.

Lemma put_elem_ne l f s k : k ≠ l → t_elems (put_elem l f s) !! k = t_elems s !! k.
Proof. intros Hne. simpl. by rewrite lookup_alter_ne. Qed.

Lemma put_cell_elem h l1 v s k : k ∉ l1 →
  t_elems (put_cell (after (HeadFirst h) l1) v s) !! k = t_elems s !! k.
Proof.
  intros Hk. unfold after. destruct (last l1) as [l|] eqn:E; simpl; [|done].
  rewrite lookup_alter_ne; [done|]. intros ->. by apply Hk, last_elem.
Qed.

Lemma put_back_elem h l2 c s k : k ∉ l2 →
  t_elems (put_back h (first l2 None) c s) !! k = t_elems s !! k.
Proof.
  intros Hk. destruct l2 as [|l l2]; simpl; [done|]. rewrite lookup_alter_ne; [done|].
  intros ->. apply Hk. by left.
Qed.

(** A queue is a gap anywhere, and the other way round. *)
Lemma gap_split s h l1 l2 : tq_at s h (l1 ++ l2) ↔
  gap s h l1 l2 (first l2 None) (after (HeadFirst h) l1).
Proof.
  split; intros [Hh Hl Hr Hn].
  - apply tseg_app in Hr as [H1 H2]. constructor; try done.
    rewrite Hh. simpl. by rewrite first_app, after_app.
  - constructor; try done; [|by apply tseg_app].
    rewrite Hh. simpl. by rewrite first_app, after_app.
Qed.

Lemma gap_put_elem s h l1 l2 q a x f : gap s h l1 l2 q a → x ∉ l1 ++ l2 →
  gap (put_elem x f s) h l1 l2 q a.
Proof.
  intros [Hh Hl Hr Hn] Hx. constructor; try done;
    (eapply tseg_ext; [|done]); intros l Hin; apply put_elem_ne; intros ->; apply Hx; set_solver.
Qed.

Lemma gap_put_cell s h l1 l2 q a v : gap s h l1 l2 q a →
  gap (put_cell (after (HeadFirst h) l1) v s) h l1 l2 v a.
Proof.
  intros [Hh Hl Hr Hn]. apply NoDup_app in Hn as Hn'. destruct Hn' as (Hn1&Hd&_).
  destruct l1 as [|l l1 _] using rev_ind.
  - constructor; try done. simpl. by rewrite lookup_alter_eq, Hh.
  - rewrite after_snoc. simpl. apply tseg_app in Hl as [H1 [(e&He&Hp&Hx) _]].
    apply NoDup_app in Hn1 as (_&Hd1&_). constructor; try done.
    + simpl. rewrite Hh. rewrite !first_app. by destruct l1.
    + apply tseg_app. split.
      * eapply tseg_ext; [|exact H1]. intros k Hk. apply put_elem_ne. intros ->.
        by eapply Hd1; [|left].
      * split; [|done]. exists (set_next v e). simpl. by rewrite lookup_alter_eq, He.
    + eapply tseg_ext; [|exact Hr]. intros k Hk. apply put_elem_ne. intros ->.
      eapply Hd; [|exact Hk]. set_solver.
Qed.

Lemma gap_put_back s h l1 l2 q a c : gap s h l1 l2 q a →
  gap (put_back h (first l2 None) (Some c) s) h l1 l2 q c.
Proof.
  intros [Hh Hl Hr Hn]. apply NoDup_app in Hn as Hn'. destruct Hn' as (_&Hd&Hn2).
  destruct l2 as [|l l2].
  - constructor; try done. simpl. by rewrite lookup_alter_eq, Hh.
  - simpl in *. destruct Hr as [(e&He&Hp&Hx) Hr]. apply NoDup_cons in Hn2 as [Hn2 _].
    constructor; try done.
    + simpl. by rewrite Hh, !after_cons.
    + eapply tseg_ext; [|exact Hl]. intros k Hk. apply put_elem_ne. intros ->.
      eapply Hd; [done|by left].
    + split; [exists (set_prev (Some c) e); simpl; by rewrite lookup_alter_eq, He|].
      eapply tseg_ext; [|exact Hr]. intros k Hk. apply put_elem_ne. by intros ->.
Qed.

(** Taking an element out of the sequence, and putting one in. *)
Lemma gap_open s h l1 x l2 : tq_at s h (l1 ++ x :: l2) →
  gap s h l1 l2 (Some x) (NextOf x) ∧ (x ∉ l1 ++ l2) ∧
  ∃ e, t_elems s !! x = Some e ∧ tqe_prev e = Some (after (HeadFirst h) l1) ∧
    tqe_next e = first l2 None.
Proof.
  intros [Hh Hl [He Hr] Hn]%gap_split. simpl in *. rewrite after_cons in Hh.
  rewrite <- Permutation_middle in Hn. apply NoDup_cons in Hn as [Hx Hn]. done.
Qed.

Lemma gap_close s h l1 x l2 e : gap s h l1 l2 (Some x) (NextOf x) → x ∉ l1 ++ l2 →
  t_elems s !! x = Some e → tqe_prev e = Some (after (HeadFirst h) l1) →
  tqe_next e = first l2 None → tq_at s h (l1 ++ x :: l2).
Proof.
  intros [Hh Hl Hr Hn] Hx He Hp Hnx. apply gap_split. constructor; [|done| |].
  - by rewrite after_cons.
  - split; [by exists e|done].
  - rewrite <- Permutation_middle. by apply NoDup_cons.
Qed.

(** The frames of the writes. *)
Lemma tframe_put_elem s h xs l f : l ∈ xs → (∀ e, devId (f e) = devId e ∧ name (f e) = name e) →
  tframe s (put_elem l f s) h xs.
Proof.
  intros Hl Hf. constructor; simpl; try done.
  - intros k Hk. rewrite lookup_alter_ne; [done|]. by intros ->.
  - intros k. destruct (decide (k = l)) as [->|Hne].
    + rewrite lookup_alter_eq. destruct (t_elems s !! l) as [e|]; [|done]. simpl.
      by destruct (Hf e) as [-> ->].
    + by rewrite lookup_alter_ne.
Qed.

Lemma tframe_put_head s h xs f : tframe s (put_head h f s) h xs.
Proof. constructor; simpl; try done. intros k Hk. by rewrite lookup_alter_ne. Qed.

Lemma tframe_put_cell s h xs l1 v : l1 ⊆ xs →
  tframe s (put_cell (after (HeadFirst h) l1) v s) h xs.
Proof.
  intros Hs. unfold after. destruct (last l1) as [l|] eqn:E; [|apply tframe_put_head].
  apply tframe_put_elem; [|done]. by apply Hs, last_elem.
Qed.

Lemma tframe_put_back s h xs l2 c : l2 ⊆ xs → tframe s (put_back h (first l2 None) c s) h xs.
Proof.
  intros Hs. destruct l2 as [|l l2]; [apply tframe_put_head|].
  apply tframe_put_elem; [|done]. apply Hs. by left.
Qed.

(** ** The macros *)

(** [wp_put_back] where the code reads the pointer to the right part again. *)
Lemma wp_put_back_load {A} s h l1 l2 q a c (m : M tst A) (g : A → option loc)
    (Q : unit → tst → Prop) : gap s h l1 l2 q a →
  wp m (λ y s', s' = s ∧ g y = first l2 None) s → Q tt (put_back h (first l2 None) c s) →
  wp (if bool_decide (first l2 None ≠ None) then y ← m; upd_elem (g y) (set_prev c)
      else upd_head h (set_last c)) Q s.
Proof.
  intros H Hm HQ. pose proof (wp_put_back s h l1 l2 q a c Q H HQ) as Hw.
  destruct (bool_decide (first l2 None ≠ None)); [|done].
  wp_step. eapply wp_mono; [exact Hm|]. by intros y s' [-> ->].
Qed.

(** The element [x] in the states of a macro that did not write it otherwise. *)
Ltac elem_done :=
  repeat first
    [ rewrite put_back_elem by set_solver
    | rewrite put_cell_elem by set_solver
    | rewrite lookup_alter_eq
    | rewrite lookup_alter_ne by done
    | progress cbn [t_elems t_heads put_elem put_head with_elems with_heads] ].

(** The frame of a macro is that of its writes. *)
Ltac frame_done :=
  repeat first
    [ eapply tframe_trans; [|apply tframe_put_back; set_solver]
    | eapply tframe_trans; [|apply tframe_put_cell; set_solver]
    | eapply tframe_trans; [|apply tframe_put_elem; [set_solver|done]]
    | apply tframe_refl ].

Lemma init_wp s h : is_Some (t_heads s !! h) →
  wp (TAILQ_INIT h) (λ _ s', tq_at s' h [] ∧ tframe s s' h []) s.
Proof.
  intros [x Hx]. unfold TAILQ_INIT. wp_step. apply wp_put_head; [by eexists|].
  apply wp_put_head; [simpl; rewrite lookup_alter_eq, Hx; by eexists|]. split.
  - constructor; try done; [|constructor]. simpl. by rewrite !lookup_alter_eq, Hx.
  - eapply tframe_trans; apply tframe_put_head.
Qed.

Lemma insert_head_wp s h ls x : tq_at s h ls → x ∉ ls → is_Some (t_elems s !! x) →
  wp (TAILQ_INSERT_HEAD h x) (λ _ s', tq_at s' h (x :: ls) ∧ tframe s s' h (x :: ls)) s.
Proof.
  intros H Hx [e He]. unfold TAILQ_INSERT_HEAD. wp_step.
  eapply wp_load_head; [apply H|]. cbn [tqh_first]. wp_step.
  apply wp_put_elem; [by eexists|]. change (first [] ?q) with q. wp_step.
  eapply (gap_put_elem _ _ _ _ _ _ x (set_next (first ls None))) in H as H1; [|done].
  eapply (wp_put_back_load _ h [] ls); [exact H1| |].
  { eapply wp_load_head; [apply H1|]. done. }
  eapply (gap_put_back _ _ _ _ _ _ (NextOf x)) in H1 as H2.
  wp_step. eapply (wp_put_cell _ h []); [exact H2|].
  eapply (gap_put_cell _ _ _ _ _ _ (Some x)) in H2 as H3.
  apply wp_put_elem; [elem_done; rewrite He; by eexists|].
  eapply (gap_put_elem _ _ _ _ _ _ x (set_prev (Some (HeadFirst h)))) in H3 as H4; [|done].
  split; [|frame_done]. eapply (gap_close _ h [] x ls); [exact H4|done|elem_done; by rewrite He|done..].
Qed.

Lemma insert_tail_wp s h ls x : tq_at s h ls → x ∉ ls → is_Some (t_elems s !! x) →
  wp (TAILQ_INSERT_TAIL h x) (λ _ s', tq_at s' h (ls ++ [x]) ∧ tframe s s' h (ls ++ [x])) s.
Proof.
  intros H Hx [e He]. unfold TAILQ_INSERT_TAIL. wp_step. apply wp_put_elem; [by eexists|].
  rewrite <- (app_nil_r ls) in H. apply (proj1 (gap_split s h ls [])) in H.
  assert (Hx' : x ∉ ls ++ []) by (by rewrite app_nil_r).
  eapply (gap_put_elem _ _ _ _ _ _ x (set_next None)) in H as H1; [|done].
  wp_step. eapply wp_load_head; [apply H1|]. cbn [tqh_last]. wp_step.
  apply wp_put_elem; [elem_done; rewrite He; by eexists|].
  eapply (gap_put_elem _ _ _ _ _ _ x (set_prev (Some (after (HeadFirst h) ls)))) in H1 as H2; [|done].
  wp_step. eapply wp_load_head; [apply H2|]. cbn [tqh_last]. wp_step.
  eapply (wp_put_cell _ h ls []); [exact H2|].
  eapply (gap_put_cell _ _ _ _ _ _ (Some x)) in H2 as H3.
  eapply (gap_put_back _ _ _ _ _ _ (NextOf x)) in H3 as H4.
  apply wp_put_head; [by eexists; apply H3|].
  split; [|change (put_head h _ ?s) with (put_back h (first [] None) (Some (NextOf x)) s); frame_done].
  eapply (gap_close _ h ls x []); [exact H4|done|elem_done; by rewrite He|done..].
Qed.

Lemma tinsert_after_wp s h l1 y l2 x : tq_at s h (l1 ++ y :: l2) → x ∉ l1 ++ y :: l2 →
  is_Some (t_elems s !! x) →
  wp (TAILQ_INSERT_AFTER h y x) (λ _ s', tq_at s' h (l1 ++ y :: x :: l2) ∧
    tframe s s' h (l1 ++ y :: x :: l2)) s.
Proof.
  intros H Hx [e He]. unfold TAILQ_INSERT_AFTER. wp_step.
  destruct (gap_open _ _ _ _ _ H) as (_&_&ey&Hy&_&Hn). eapply wp_load_elem; [exact Hy|].
  rewrite Hn. rewrite cons_middle, app_assoc in H, Hx.
  apply (proj1 (gap_split s h (l1 ++ [y]) l2)) in H.
  wp_step. apply wp_put_elem; [by eexists|].
  eapply (gap_put_elem _ _ _ _ _ _ x (set_next (first l2 None))) in H as H1; [|done].
  wp_step. eapply (wp_put_back_load _ h (l1 ++ [y]) l2); [exact H1| |].
  { eapply wp_load_elem; [elem_done; by rewrite He|]. done. }
  eapply (gap_put_back _ _ _ _ _ _ (NextOf x)) in H1 as H2.
  wp_step. pose proof (wp_put_cell _ h (l1 ++ [y]) l2 _ _ (Some x) (λ _, eq _) H2 eq_refl) as Hw.
  rewrite after_snoc in Hw. simpl in Hw.
  eapply (gap_put_cell _ _ _ _ _ _ (Some x)) in H2 as H3. rewrite after_snoc in H3.
  eapply wp_mono; [exact Hw|]. intros [] s' <-.
  assert (Hxy : x ≠ y) by (intros ->; apply Hx; set_solver).
  apply wp_put_elem; [elem_done; rewrite He; by eexists|].
  eapply (gap_put_elem _ _ _ _ _ _ x (set_prev (Some (NextOf y)))) in H3 as H4; [|done].
  rewrite (cons_middle y), app_assoc. split; [|frame_done].
  eapply (gap_close _ h (l1 ++ [y]) x l2); [exact H4|done|elem_done; by rewrite He| |done].
  by rewrite after_snoc.
Qed.

Lemma tinsert_before_wp s h l1 y l2 x : tq_at s h (l1 ++ y :: l2) → x ∉ l1 ++ y :: l2 →
  is_Some (t_elems s !! x) →
  wp (TAILQ_INSERT_BEFORE y x) (λ _ s', tq_at s' h (l1 ++ x :: y :: l2) ∧
    tframe s s' h (l1 ++ x :: y :: l2)) s.
Proof.
  intros H Hx [e He]. unfold TAILQ_INSERT_BEFORE. wp_step.
  destruct (gap_open _ _ _ _ _ H) as (_&_&ey&Hy&Hp&_). eapply wp_load_elem; [exact Hy|].
  rewrite Hp. apply (proj1 (gap_split s h l1 (y :: l2))) in H.
  assert (Hxy : y ≠ x) by (intros ->; apply Hx; set_solver).
  wp_step. apply wp_put_elem; [by eexists|].
  eapply (gap_put_elem _ _ _ _ _ _ x (set_prev (Some (after (HeadFirst h) l1)))) in H as H1; [|done].
  wp_step. apply wp_put_elem; [elem_done; rewrite He; by eexists|].
  eapply (gap_put_elem _ _ _ _ _ _ x (set_next (Some y))) in H1 as H2; [|done].
  wp_step. eapply wp_load_elem; [elem_done; exact Hy|]. rewrite Hp. wp_step.
  eapply (wp_put_cell _ h l1 (y :: l2)); [exact H2|].
  eapply (gap_put_cell _ _ _ _ _ _ (Some x)) in H2 as H3.
  eapply (gap_put_back _ _ _ _ _ _ (NextOf x)) in H3 as H4.
  apply wp_put_elem; [destruct H3 as [_ _ [(ey'&->&_) _] _]; by eexists|].
  split; [|change (put_elem y _ ?s) with (put_back h (first (y :: l2) None) (Some (NextOf x)) s); frame_done].
  eapply (gap_close _ h l1 x (y :: l2)); [exact H4|done|elem_done; by rewrite He|done..].
Qed.

Lemma remove_wp s h l1 x l2 : tq_at s h (l1 ++ x :: l2) →
  wp (TAILQ_REMOVE h x) (λ _ s', tq_at s' h (l1 ++ l2) ∧ tframe s s' h (l1 ++ x :: l2)) s.
Proof.
  intros H. unfold TAILQ_REMOVE. wp_step.
  destruct (gap_open _ _ _ _ _ H) as (H1&Hx&e&He&Hp&Hn). eapply wp_load_elem; [exact He|].
  rewrite Hn, Hp. wp_step. eapply (wp_put_back _ h l1 l2); [exact H1|].
  eapply (gap_put_back _ _ _ _ _ _ (after (HeadFirst h) l1)) in H1 as H2.
  wp_step. eapply wp_load_elem; [elem_done; exact He|]. rewrite Hn, Hp.
  eapply (wp_put_cell _ h l1 l2); [exact H2|].
  eapply (gap_put_cell _ _ _ _ _ _ (first l2 None)) in H2 as H3.
  split; [by apply gap_split|frame_done].
Qed.

Lemma replace_wp s h l1 y l2 x : tq_at s h (l1 ++ y :: l2) → x ∉ l1 ++ y :: l2 →
  is_Some (t_elems s !! x) →
  wp (TAILQ_REPLACE h y x) (λ _ s', tq_at s' h (l1 ++ x :: l2) ∧
    tframe s s' h (l1 ++ x :: y :: l2)) s.
Proof.
  intros H Hx [e He]. unfold TAILQ_REPLACE. wp_step.
  destruct (gap_open _ _ _ _ _ H) as (H0&Hy'&ey&Hy&Hp&Hn). eapply wp_load_elem; [exact Hy|].
  assert (Hxy : y ≠ x) by (intros ->; apply Hx; set_solver).
  assert (Hx' : x ∉ l1 ++ l2) by set_solver.
  rewrite Hn. wp_step. apply wp_put_elem; [by eexists|].
  eapply (gap_put_elem _ _ _ _ _ _ x (set_next (first l2 None))) in H0 as H1; [|done].
  wp_step. eapply (wp_put_back_load _ h l1 l2); [exact H1| |].
  { eapply wp_load_elem; [elem_done; by rewrite He|]. done. }
  eapply (gap_put_back _ _ _ _ _ _ (NextOf x)) in H1 as H2.
  wp_step. eapply wp_load_elem; [elem_done; exact Hy|]. rewrite Hp. wp_step.
  apply wp_put_elem; [elem_done; rewrite He; by eexists|].
  eapply (gap_put_elem _ _ _ _ _ _ x (set_prev (Some (after (HeadFirst h) l1)))) in H2 as H3; [|done].
  wp_step. eapply wp_load_elem; [elem_done; by rewrite He|]. cbn [tqe_prev set_prev].
  eapply (wp_put_cell _ h l1 l2); [exact H3|].
  eapply (gap_put_cell _ _ _ _ _ _ (Some x)) in H3 as H4. split; [|frame_done].
  eapply (gap_close _ h l1 x l2); [exact H4|done|elem_done; by rewrite He|done..].
Qed.

(** ** Access and traversal *)

Lemma next_wp s h l1 x l2 : tq_at s h (l1 ++ x :: l2) →
  wp (TAILQ_NEXT (Some x)) (λ r s', s' = s ∧ r = first l2 None) s.
Proof.
  intros (_&_&e&He&_&Hn)%gap_open. unfold TAILQ_NEXT. wp_step. eapply wp_load_elem; [done|].
  by wp_step.
Qed.

(** The cast from a cell to a head reads the element before it, or NULL at the first. *)
Lemma cell_back_wp s h l1 l2 : tq_at s h (l1 ++ l2) →
  wp (c ← load_after_cell (Some (after (HeadFirst h) l1)); load_cell c)
    (λ r s', s' = s ∧ r = last l1) s.
Proof.
  intros H. destruct l1 as [|x l1 _] using rev_ind.
  - simpl in H. wp_step. simpl. wp_step. eapply wp_load_head; [apply H|]. cbn [tqh_last]. wp_step.
    destruct l2 as [|y l2 _] using rev_ind.
    + simpl. wp_step. eapply wp_load_head; [apply H|]. by wp_step.
    + rewrite after_snoc. destruct (gap_open _ _ l2 y [] H) as (_&_&e&He&_&Hn).
      simpl. wp_step. eapply wp_load_elem; [exact He|]. by wp_step.
  - rewrite after_snoc, last_snoc. rewrite <- app_assoc in H. simpl in H.
    destruct (gap_open _ _ l1 x l2 H) as ([Hh Hl _ _]&_&e&He&Hp&_).
    wp_step. simpl. wp_step. eapply wp_load_elem; [exact He|]. rewrite Hp. wp_step.
    destruct l1 as [|w l1 _] using rev_ind.
    + simpl. wp_step. eapply wp_load_head; [exact Hh|]. by wp_step.
    + rewrite after_snoc. apply tseg_app in Hl as [_ [(e'&He'&_&Hn') _]].
      simpl. wp_step. eapply wp_load_elem; [exact He'|]. by wp_step.
Qed.

Lemma prev_wp s h l1 x l2 : tq_at s h (l1 ++ x :: l2) →
  wp (TAILQ_PREV (Some x)) (λ r s', s' = s ∧ r = last l1) s.
Proof.
  intros H. destruct (gap_open _ _ _ _ _ H) as (_&_&e&He&Hp&_). unfold TAILQ_PREV.
  wp_step. eapply wp_load_elem; [exact He|]. rewrite Hp. by eapply cell_back_wp.
Qed.

Lemma last_wp s h ls : tq_at s h ls → wp (TAILQ_LAST h) (λ r s', s' = s ∧ r = last ls) s.
Proof.
  intros H. unfold TAILQ_LAST. wp_step. eapply wp_load_head; [apply H|]. cbn [tqh_last].
  eapply (cell_back_wp s h ls []). by rewrite app_nil_r.
Qed.

Lemma first_wp s h ls : tq_at s h ls →
  wp (TAILQ_FIRST h) (λ r s', s' = s ∧ r = first ls None) s.
Proof. intros H. unfold TAILQ_FIRST. wp_step. eapply wp_load_head; [apply H|]. by wp_step. Qed.

Lemma empty_wp s h ls : tq_at s h ls →
  wp (TAILQ_EMPTY h) (λ r s', s' = s ∧ r = bool_decide (ls = [])) s.
Proof.
  intros H. unfold TAILQ_EMPTY. wp_step. eapply wp_mono; [by apply first_wp|].
  intros r s' [-> ->]. wp_step. split; [done|]. by destruct ls.
Qed.

Lemma foreach_fuel_enough s h ls : tq_at s h ls → length ls < foreach_fuel s.
Proof.
  intros [_ _ Hs Hn]. simpl in Hn. unfold foreach_fuel. rewrite <- size_dom.
  rewrite <- (size_list_to_set (C := gset loc)) by done. apply le_n_S, subseteq_size.
  intros l Hin%elem_of_list_to_set. apply elem_of_dom. by eapply tseg_lookup.
Qed.

Section Foreach.
Context (h : loc) (ls : list loc) (body : option loc → M tst unit) (I : list loc → tst → Prop).
Context (body_ok : ∀ seen l s, l ∈ ls → tq_at s h ls → I seen s →
  wp (body (Some l)) (λ _ s', tq_at s' h ls ∧ I (seen ++ [l]) s') s).

Lemma foreach_fwd_wp : ∀ l2 fuel l1 s, ls = l1 ++ l2 → length l2 < fuel → tq_at s h ls → I l1 s →
  wp (foreach_loop fuel TAILQ_NEXT body (first l2 None)) (λ _ s', tq_at s' h ls ∧ I ls s') s.
Proof.
  induction l2 as [|x l2 IH]; intros fuel l1 s E Hf H HI; (destruct fuel as [|fuel]; [lia|]);
    simpl in Hf; cbn [foreach_loop first].
  - wp_step. rewrite app_nil_r in E. by subst.
  - wp_step. eapply wp_mono; [eapply body_ok; [|done|exact HI]; rewrite E; set_solver|].
    intros [] s1 [H1 HI1]. wp_step.
    eapply wp_mono; [eapply (next_wp s1 h l1); by rewrite <- E|]. intros r s' [-> ->].
    apply (IH fuel (l1 ++ [x])); [by rewrite <- app_assoc|lia|done..].
Qed.

Lemma foreach_bwd_wp : ∀ l1 fuel l2 s, ls = l1 ++ l2 → length l1 < fuel → tq_at s h ls →
  I (reverse l2) s →
  wp (foreach_loop fuel TAILQ_PREV body (last l1)) (λ _ s', tq_at s' h ls ∧ I (reverse ls) s') s.
Proof.
  induction l1 as [|x l1 IH] using rev_ind; intros fuel l2 s E Hf H HI;
    rewrite ?length_app in Hf; (destruct fuel as [|fuel]; [lia|]); simpl in Hf;
    rewrite ?last_snoc; cbn [foreach_loop last].
  - wp_step. by subst.
  - rewrite <- app_assoc in E. simpl in E.
    wp_step. eapply wp_mono; [eapply body_ok; [|done|exact HI]; rewrite E; set_solver|].
    intros [] s1 [H1 HI1]. wp_step.
    eapply wp_mono; [eapply (prev_wp s1 h l1); by rewrite <- E|]. intros r s' [-> ->].
    apply (IH fuel (x :: l2)); [done|lia|done|]. by rewrite reverse_cons.
Qed.

Lemma foreach_wp s : tq_at s h ls → I [] s →
  wp (TAILQ_FOREACH h body) (λ _ s', tq_at s' h ls ∧ I ls s') s.
Proof.
  intros H HI. unfold TAILQ_FOREACH. wp_step. eapply wp_mono; [by apply first_wp|].
  intros r s' [-> ->]. wp_step. wp_step.
  apply (foreach_fwd_wp ls _ []); [done|by eapply foreach_fuel_enough|done..].
Qed.

Lemma foreach_reverse_wp s : tq_at s h ls → I [] s →
  wp (TAILQ_FOREACH_REVERSE h body) (λ _ s', tq_at s' h ls ∧ I (reverse ls) s') s.
Proof.
  intros H HI. unfold TAILQ_FOREACH_REVERSE. wp_step. eapply wp_mono; [by apply last_wp|].
  intros r s' [-> ->]. wp_step. wp_step.
  apply (foreach_bwd_wp ls _ []); [by rewrite app_nil_r|by eapply foreach_fuel_enough|done..].
Qed.

End Foreach.
