(* ===== verification/TailQueueSpec.v ===== *)
(** * TailQueueSpec: what the tail queue does for its clients

    Sequences of the macros against operations on the sequence of elements, the
    traversals, and the program of main.c. *)
From stdpp Require Import gmap list strings.
From Stdlib Require Import ZArith.
From S2P Require Import Prelude TailQueue TailQueueProofs.

(** ** Sequences of operations *)

Inductive tq_op :=
  | TqInsertHead (x : loc)
  | TqInsertTail (x : loc)
  | TqInsertAfter (y x : loc)
  | TqInsertBefore (y x : loc)
  | TqRemove (y : loc)
  | TqReplace (y x : loc).

Definition run_tq (h : loc) (o : tq_op) : M tst unit :=
  match o with
  | TqInsertHead x => TAILQ_INSERT_HEAD h x
  | TqInsertTail x => TAILQ_INSERT_TAIL h x
  | TqInsertAfter y x => TAILQ_INSERT_AFTER h y x
  | TqInsertBefore y x => TAILQ_INSERT_BEFORE y x
  | TqRemove y => TAILQ_REMOVE h y
  | TqReplace y x => TAILQ_REPLACE h y x
  end.

Fixpoint run_tqs (h : loc) (os : list tq_op) : M tst unit :=
  match os with [] => mret tt | o :: os' => run_tq h o;; run_tqs h os' end.

(** The sequence with [new] in the place of [y]. *)
Fixpoint splice (y : loc) (new ls : list loc) : option (list loc) :=
  match ls with
  | [] => None
  | l :: ls' => if decide (l = y) then Some (new ++ ls') else cons l <$> splice y new ls'
  end.

(** The element an operation puts into the queue: it must not be there already. *)
Definition new_elem (o : tq_op) : list loc :=
  match o with
  | TqInsertHead x | TqInsertTail x | TqInsertAfter _ x | TqInsertBefore _ x | TqReplace _ x => [x]
  | TqRemove _ => []
  end.

Definition spec_tq (o : tq_op) (ls : list loc) : option (list loc) :=
  if decide (Forall (λ x, x ∉ ls) (new_elem o)) then
    match o with
    | TqInsertHead x => Some (x :: ls)
    | TqInsertTail x => Some (ls ++ [x])
    | TqInsertAfter y x => splice y [y; x] ls
    | TqInsertBefore y x => splice y [x; y] ls
    | TqRemove y => splice y [] ls
    | TqReplace y x => splice y [x] ls
    end
  else None.

Fixpoint spec_tqs (os : list tq_op) (ls : list loc) : option (list loc) :=
  match os with [] => Some ls | o :: os' => spec_tq o ls ≫= spec_tqs os' end.

Lemma splice_Some y new ls ls' : splice y new ls = Some ls' →
  ∃ l1 l2, ls = l1 ++ y :: l2 ∧ ls' = l1 ++ new ++ l2.
Proof.
  revert ls'. induction ls as [|l ls IH]; intros ls'; simpl; [done|].
  case_decide as Hl.
  - intros [= <-]. subst. by exists [], ls.
  - intros (r&E&->)%fmap_Some. destruct (IH _ E) as (l1&l2&->&->). by exists (l :: l1), l2.
Qed.

Lemma tq_wp s h ls o ls' : tq_at s h ls → Forall (λ x, is_Some (t_elems s !! x)) (new_elem o) →
  spec_tq o ls = Some ls' →
  wp (run_tq h o) (λ _ s', tq_at s' h ls' ∧ tframe s s' h (ls ++ new_elem o)) s ∧
  ls' ⊆ ls ++ new_elem o.
Proof.
  intros H Ha. unfold spec_tq. case_decide as Hn; [|done].
  assert (Hw : ∀ (m : M tst unit) xs l, xs ⊆ ls ++ new_elem o →
    wp m (λ _ s', tq_at s' h l ∧ tframe s s' h xs) s →
    wp m (λ _ s', tq_at s' h l ∧ tframe s s' h (ls ++ new_elem o)) s).
  { intros m xs l Hxs Hm. eapply wp_mono; [exact Hm|]. intros _ s' [? ?].
    split; [done|]. by eapply tframe_weaken. }
  destruct o as [x|x|y x|y x|y|y x]; cbn [run_tq new_elem] in *;
    try (apply Forall_cons in Ha as [Ha _]; apply Forall_cons in Hn as [Hn _]).
  - intros [= <-]. split; [|set_solver]. eapply Hw; [|by apply insert_head_wp]. set_solver.
  - intros [= <-]. split; [|set_solver]. eapply Hw; [|by apply insert_tail_wp]. set_solver.
  - intros (l1&l2&->&->)%splice_Some. split; [|set_solver].
    eapply Hw; [|by apply tinsert_after_wp]. set_solver.
  - intros (l1&l2&->&->)%splice_Some. split; [|set_solver].
    eapply Hw; [|by apply tinsert_before_wp]. set_solver.
  - intros (l1&l2&->&->)%splice_Some. split; [|set_solver].
    eapply Hw; [|by apply remove_wp]. set_solver.
  - intros (l1&l2&->&->)%splice_Some. split; [|set_solver].
    eapply Hw; [|by apply replace_wp]. set_solver.
Qed.

Lemma tqs_wp h : ∀ os s ls ls', tq_at s h ls →
  Forall (λ x, is_Some (t_elems s !! x)) (os ≫= new_elem) → spec_tqs os ls = Some ls' →
  wp (run_tqs h os) (λ _ s', tq_at s' h ls' ∧ tframe s s' h (ls ++ (os ≫= new_elem))) s.
Proof.
  induction os as [|o os IH]; intros s ls ls' H Ha; cbn [spec_tqs run_tqs].
  { intros [= <-]. by apply wp_ret. }
  rewrite bind_cons in Ha |- *. apply Forall_app in Ha as [Ho Ha].
  intros (l1&E1&E2)%bind_Some. destruct (tq_wp s h ls o l1 H Ho E1) as [Hw Hs].
  wp_step. eapply wp_mono; [exact Hw|]. intros [] s1 [H1 Hf1].
  eapply wp_mono; [apply (IH s1 l1 ls' H1); [|exact E2]|].
  - eapply Forall_impl; [exact Ha|]. intros x Hx. by eapply tframe_is_Some.
  - intros [] s2 [H2 Hf2]. split; [done|]. eapply tframe_trans.
    + eapply tframe_weaken; [|exact Hf1]. set_solver.
    + eapply tframe_weaken; [|exact Hf2]. set_solver.
Qed.

(** C8: A sequence of insertions, removals and replacements does on the queue what it
    does on the sequence of its elements: afterwards the queue is linked both ways,
    the data of all elements is the same and no other head or element is written. *)
Theorem tailq_ops s h ls os ls' : tq_at s h ls →
  Forall (λ x, is_Some (t_elems s !! x)) (os ≫= new_elem) → spec_tqs os ls = Some ls' →
  ∃ s', run_tqs h os s = Ok (tt, s') ∧ tq_at s' h ls' ∧ tframe s s' h (ls ++ (os ≫= new_elem)).
Proof.
  intros H Ha E. destruct (wp_elim _ _ _ (tqs_wp h os s ls ls' H Ha E)) as ([]&s'&E'&?&?).
  by exists s'.
Qed.

(** ** Traversal *)

Definition data (s : tst) (l : loc) : option (Z * string) :=
  (λ e, (devId e, name e)) <$> t_elems s !! l.
Definition printed (s : tst) (ls : list loc) : tst :=
  Tst (t_heads s) (t_elems s) (t_out s ++ omap (data s) ls).

(** Printing a part of a queue. *)
Lemma print_ok s0 h ls : ∀ seen l s, l ∈ ls → tq_at s h ls → s = printed s0 seen →
  wp (print_alarm (Some l)) (λ _ s', tq_at s' h ls ∧ s' = printed s0 (seen ++ [l])) s.
Proof.
  intros seen l s Hl H ->. pose proof (g_right _ _ _ _ _ _ H) as Hs. cbn [printed t_elems] in Hs.
  destruct (tseg_lookup _ _ _ _ _ Hs Hl) as [e He]. unfold print_alarm. wp_step.
  eapply wp_load_elem; [exact He|]. wp_step. split.
  - destruct H. by constructor.
  - unfold printed. cbn [t_heads t_elems t_out]. f_equal. rewrite omap_app, app_assoc. f_equal.
    simpl. unfold data. by rewrite He.
Qed.

Lemma printed_nil s : printed s [] = s.
Proof. destruct s. unfold printed. simpl. by rewrite app_nil_r. Qed.

(** C27: [TAILQ_FOREACH] runs over the elements from the first to the last and
    [TAILQ_FOREACH_REVERSE], over the cast back links, from the last to the first;
    [TAILQ_FIRST], [TAILQ_LAST] and [TAILQ_EMPTY] tell the ends. *)
Theorem tailq_traverse s h ls : tq_at s h ls →
  TAILQ_FOREACH h print_alarm s = Ok (tt, printed s ls) ∧
  TAILQ_FOREACH_REVERSE h print_alarm s = Ok (tt, printed s (reverse ls)) ∧
  TAILQ_FIRST h s = Ok (head ls, s) ∧ TAILQ_LAST h s = Ok (last ls, s) ∧
  TAILQ_EMPTY h s = Ok (bool_decide (ls = []), s).
Proof.
  intros H. pose proof (print_ok s h ls) as Hp. pose proof (eq_sym (printed_nil s)) as E0.
  destruct (wp_elim _ _ _ (foreach_wp h ls _ _ Hp s H E0)) as ([]&s1&E1&_&->).
  destruct (wp_elim _ _ _ (foreach_reverse_wp h ls _ _ Hp s H E0)) as ([]&s2&E2&_&->).
  destruct (wp_elim _ _ _ (first_wp s h ls H)) as (r3&s3&E3&->&->).
  destruct (wp_elim _ _ _ (last_wp s h ls H)) as (r4&s4&E4&->&->).
  destruct (wp_elim _ _ _ (empty_wp s h ls H)) as (r5&s5&E5&->&->).
  by split_and!.
Qed.

(** ** The program *)

Lemma wp_malloc_alarm junk (Q : loc → tst → Prop) s :
  (∀ p, t_elems s !! p = None → Q p (with_elems (<[p := junk]> (t_elems s)) s)) →
  wp (malloc_alarm junk) Q s.
Proof. intros HQ. unfold malloc_alarm. repeat wp_step. apply HQ, lookup_fresh. Qed.

Lemma wp_free_alarm l (Q : unit → tst → Prop) s : is_Some (t_elems s !! l) →
  Q tt (with_elems (delete l (t_elems s)) s) → wp (free_alarm l) Q s.
Proof. intros [e E] HQ. unfold free_alarm. wp_step. by eapply wp_load_elem. Qed.

(** The objects of the program: three fresh elements, with the data it gives them. *)
Record objects (m es : gmap loc AlarmInfo) (p0 p1 p2 : loc) : Prop := {
  ob_fresh : Forall (λ p, m !! p = None) [p0; p1; p2];
  ob_nodup : NoDup [p0; p1; p2];
  ob_data0 : (λ e, (devId e, name e)) <$> es !! p0 = Some (0%Z, "zhangfei");
  ob_data1 : (λ e, (devId e, name e)) <$> es !! p1 = Some (1%Z, "liubei");
  ob_data2 : (λ e, (devId e, name e)) <$> es !! p2 = Some (2%Z, "guanyu");
  ob_rest : ∀ l, l ∉ [p0; p1; p2] → es !! l = m !! l
}.

Lemma objects_frame m s s' h p0 p1 p2 xs : objects m (t_elems s) p0 p1 p2 →
  tframe s s' h xs → xs ⊆ [p0; p1; p2] → objects m (t_elems s') p0 p1 p2.
Proof.
  intros [? ? D0 D1 D2 R] [_ E D _] Hs. constructor; rewrite ?D; try done.
  intros l Hl. rewrite E; [by apply R|]. intros Hin. by apply Hl, Hs.
Qed.

Lemma objects_some m es p0 p1 p2 p : objects m es p0 p1 p2 → p ∈ [p0; p1; p2] → is_Some (es !! p).
Proof.
  intros [_ _ (?&E0&_)%fmap_Some (?&E1&_)%fmap_Some (?&E2&_)%fmap_Some _].
  rewrite !elem_of_cons, elem_of_nil. intros [->|[->|[->|[]]]]; by eexists.
Qed.

(** The three insertions. *)
Lemma build_wp {A} h m p0 p1 p2 s (k : M tst A) (Q : A → tst → Prop) :
  objects m (t_elems s) p0 p1 p2 → tq_at s h [] →
  (∀ s', objects m (t_elems s') p0 p1 p2 → tq_at s' h [p1; p2; p0] →
     tframe s s' h [p0; p1; p2] → wp k Q s') →
  wp (TAILQ_INSERT_HEAD h p0;; TAILQ_INSERT_HEAD h p1;; TAILQ_INSERT_BEFORE p0 p2;; k) Q s.
Proof.
  intros Ho H HQ. pose proof (ob_nodup _ _ _ _ _ Ho) as Hn. wp_step.
  apply NoDup_cons in Hn as [Hn0 [Hn1 _]%NoDup_cons].
  eapply wp_mono; [apply (insert_head_wp s h [] p0 H); [apply not_elem_of_nil|]|].
  { eapply objects_some; [done|by left]. }
  intros [] s1 [H1 F1]. eapply objects_frame in Ho as Ho1; [|done|set_solver]. wp_step.
  eapply wp_mono; [apply (insert_head_wp s1 h [p0] p1 H1); [set_solver|]|].
  { eapply objects_some; [exact Ho1|set_solver]. }
  intros [] s2 [H2 F2]. eapply objects_frame in Ho1 as Ho2; [|done|set_solver]. wp_step.
  eapply wp_mono; [apply (tinsert_before_wp s2 h [p1] p0 [] p2 H2); [set_solver|]|].
  { eapply objects_some; [exact Ho2|set_solver]. }
  intros [] s3 [H3 F3]. eapply objects_frame in Ho2 as Ho3; [|done|set_solver].
  apply HQ; [done..|].
  eapply tframe_trans; [|eapply tframe_trans]; (eapply tframe_weaken; [|eassumption]); set_solver.
Qed.

(** What the objects print, and the elements without them. *)
Lemma objects_print s m p0 p1 p2 : objects m (t_elems s) p0 p1 p2 →
  omap (data s) [p1; p2; p0] = [(1%Z, "liubei"); (2%Z, "guanyu"); (0%Z, "zhangfei")].
Proof. intros [_ _ D0 D1 D2 _]. simpl. unfold data. by rewrite D0, D1, D2. Qed.

Lemma objects_free m es p0 p1 p2 : objects m es p0 p1 p2 →
  delete p2 (delete p1 (delete p0 es)) = m.
Proof.
  intros [Hf Hn _ _ _ Hr]. rewrite !Forall_cons in Hf. destruct Hf as (H0&H1&H2&_).
  apply map_eq. intros l.
  destruct (decide (l = p2)) as [->|N2]; [by rewrite lookup_delete_eq|rewrite lookup_delete_ne by done].
  destruct (decide (l = p1)) as [->|N1]; [by rewrite lookup_delete_eq|rewrite lookup_delete_ne by done].
  destruct (decide (l = p0)) as [->|N0]; [by rewrite lookup_delete_eq|rewrite lookup_delete_ne by done].
  apply Hr. set_solver.
Qed.

Lemma setup_objects m p0 p1 p2 junk : m !! p0 = None → <[p0 := junk]> m !! p1 = None →
  <[p1 := junk]> (<[p0 := junk]> m) !! p2 = None →
  objects m (alter (set_data 2 "guanyu") p2 (alter (set_data 1 "liubei") p1
    (alter (set_data 0 "zhangfei") p0 (<[p2 := junk]> (<[p1 := junk]> (<[p0 := junk]> m))))))
    p0 p1 p2.
Proof.
  intros H0 H1 H2.
  assert (p0 ≠ p1) by (intros ->; by rewrite lookup_insert_eq in H1).
  assert (p1 ≠ p2) by (intros ->; by rewrite lookup_insert_eq in H2).
  rewrite lookup_insert_ne in H1, H2 by done.
  assert (p0 ≠ p2) by (intros ->; by rewrite lookup_insert_eq in H2).
  rewrite lookup_insert_ne in H2 by done.
  constructor; [by repeat constructor| |by simplify_map_eq..|].
  - apply NoDup_cons. split; [set_solver|]. apply NoDup_cons. split; [set_solver|].
    apply NoDup_singleton.
  - intros l Hl. assert (l ≠ p0 ∧ l ≠ p1 ∧ l ≠ p2) as (?&?&?) by set_solver.
    by rewrite !lookup_alter_ne, !lookup_insert_ne.
Qed.

(** The program prints obj1, obj2, obj0 and gives its memory back. *)
Lemma tailq_main junk h s : is_Some (t_heads s !! h) →
  ∃ hd, main junk h s = Ok (0%Z, Tst (<[h := hd]> (t_heads s)) (t_elems s)
    (t_out s ++ [(1%Z, "liubei"); (2%Z, "guanyu"); (0%Z, "zhangfei")])).
Proof.
  intros Hh. assert (wp (main junk h) (λ r s', r = 0%Z ∧ ∃ hd,
    s' = Tst (<[h := hd]> (t_heads s)) (t_elems s)
      (t_out s ++ [(1%Z, "liubei"); (2%Z, "guanyu"); (0%Z, "zhangfei")])) s)
    as (r&s'&E&->&hd&->)%wp_elim; [|by exists hd].
  unfold main. wp_step. eapply wp_mono; [by apply init_wp|]. intros [] s1 [H1 F1].
  wp_step. apply wp_malloc_alarm. intros p0 N0. wp_step. apply wp_malloc_alarm. intros p1 N1.
  wp_step. apply wp_malloc_alarm. intros p2 N2. cbn [t_elems with_elems] in N1, N2.
  pose proof (setup_objects _ _ _ _ junk N0 N1 N2) as Ho.
  do 3 (wp_step; apply wp_put_elem; [cbn [t_elems put_elem with_elems];
    rewrite ?lookup_alter_is_Some, ?lookup_insert_is_Some'; by eauto|]).
  eapply build_wp; [exact Ho|by destruct H1; constructor|]. intros s2 Ho2 H2 F2.
  wp_step. eapply wp_mono; [eapply (foreach_wp h _ _ _ (print_ok s2 h _) s2 H2);
    by rewrite printed_nil|]. intros [] s3 [_ ->].
  unfold printed. rewrite (objects_print _ _ _ _ _ Ho2).
  pose proof (ob_nodup _ _ _ _ _ Ho2) as Hn.
  apply NoDup_cons in Hn as [Hn0 [Hn1 _]%NoDup_cons].
  assert (HS : ∀ p, p ∈ [p0; p1; p2] → is_Some (t_elems s2 !! p))
    by (intros p Hp; by eapply objects_some).
  do 3 (wp_step; apply wp_free_alarm; [cbn [t_elems with_elems];
    rewrite ?lookup_delete_ne by set_solver; apply HS; set_solver|]).
  apply wp_ret. split; [done|].
  exists (TqHead (first [] (first [p1; p2; p0] None))
    (Some (after (HeadFirst h) [p1; p2; p0]))).
  unfold with_elems. cbn [t_heads t_elems t_out]. f_equal.
  - apply map_eq. intros l. destruct (decide (l = h)) as [->|Hne].
    + by rewrite lookup_insert_eq, (g_head _ _ _ _ _ _ H2).
    + rewrite lookup_insert_ne, (tf_heads _ _ _ _ F2) by done. cbn. by apply (tf_heads _ _ _ _ F1).
  - rewrite (objects_free _ _ _ _ _ Ho2). apply map_eq. intros l.
    apply (tf_elems _ _ _ _ F1), not_elem_of_nil.
  - by rewrite (tf_out _ _ _ _ F2), <- (tf_out _ _ _ _ F1).
Qed.

(** ** Witnesses *)

(** The queue 2, 3 at the head 1; the elements 4 and 5 are in no queue. *)
Definition loose (d : Z) : AlarmInfo := Alarm None None d "x".
Definition demo_queue : tst := Tst {[1%positive := TqHead (Some 2%positive) (Some (NextOf 3))]}
  (<[2%positive := Alarm (Some 3%positive) (Some (HeadFirst 1)) 20 "a"]>
    (<[3%positive := Alarm None (Some (NextOf 2)) 30 "b"]>
      (<[4%positive := loose 40]> {[5%positive := loose 50]}))) [].

Lemma demo_queue_at : tq_at demo_queue 1 [2; 3]%positive.
Proof.
  constructor; [done|done| |apply NoDup_cons; split; [set_solver|apply NoDup_singleton]].
  split; [by eexists|]. split; [by eexists|done].
Qed.

Lemma tailq_ops_witness : ∃ s',
  run_tqs 1 [TqInsertBefore 2 4; TqRemove 2; TqInsertAfter 3 5; TqReplace 4 2] demo_queue = Ok (tt, s') ∧
  tq_at s' 1 [2; 3; 5]%positive ∧ tframe demo_queue s' 1 [2; 3; 4; 5; 2]%positive.
Proof.
  apply (tailq_ops demo_queue 1 [2; 3]%positive
    [TqInsertBefore 2 4; TqRemove 2; TqInsertAfter 3 5; TqReplace 4 2]);
    [apply demo_queue_at|repeat constructor; by eexists|reflexivity].
Defined.

Lemma tailq_traverse_witness :
  TAILQ_FOREACH 1 print_alarm demo_queue =
    Ok (tt, Tst (t_heads demo_queue) (t_elems demo_queue) [(20%Z, "a"); (30%Z, "b")]) ∧
  TAILQ_FOREACH_REVERSE 1 print_alarm demo_queue =
    Ok (tt, Tst (t_heads demo_queue) (t_elems demo_queue) [(30%Z, "b"); (20%Z, "a")]) ∧
  TAILQ_FIRST 1 demo_queue = Ok (Some 2%positive, demo_queue) ∧
  TAILQ_LAST 1 demo_queue = Ok (Some 3%positive, demo_queue) ∧
  TAILQ_EMPTY 1 demo_queue = Ok (false, demo_queue).
Proof. apply (tailq_traverse demo_queue 1 [2; 3]%positive), demo_queue_at. Defined.

Lemma tailq_main_witness : ∃ hd, main (loose 0) 1 demo_queue =
  Ok (0%Z, Tst (<[1%positive := hd]> (t_heads demo_queue)) (t_elems demo_queue)
    [(1%Z, "liubei"); (2%Z, "guanyu"); (0%Z, "zhangfei")]).
Proof. apply (tailq_main (loose 0) 1 demo_queue). by eexists. Defined.
