(* ===== verification/SearchTree.v ===== *)
(** * SearchTree: the binary search tree (tree/searchTree.h, searchTree.cpp)

    The state is the object, [CBinarySearchTree], and the heap of its nodes.  [new]
    does not fail; [delete] of a node frees that node alone, which has no
    destructor. *)
From stdpp Require Import gmap list.
From Stdlib Require Import ZArith.
From S2P Require Import Prelude.

(** ** Data *)

(** [STSearchTreeNode] *)
Record st_node := StNode {
  key : Z;
  parent : option loc;
  n_left : option loc;               (* left *)
  n_right : option loc               (* right *)
}.

(** [CBinarySearchTree] and the heap *)
Record bst := Bst {
  m_pRoot : option loc;
  m_nLen : Z;
  t_nodes : gmap loc st_node
}.

#[global] Instance st_node_eq_dec : EqDecision st_node.
Proof. solve_decision. Defined.
#[global] Instance bst_eq_dec : EqDecision bst.
Proof. solve_decision. Defined.

Definition set_parent v (n : st_node) := StNode (key n) v (n_left n) (n_right n).
Definition set_left v (n : st_node) := StNode (key n) (parent n) v (n_right n).
Definition set_right v (n : st_node) := StNode (key n) (parent n) (n_left n) v.

Definition with_root r (s : bst) := Bst r (m_nLen s) (t_nodes s).
Definition with_len n (s : bst) := Bst (m_pRoot s) n (t_nodes s).
Definition with_nodes m (s : bst) := Bst (m_pRoot s) (m_nLen s) m.

Definition load (p : option loc) : M bst st_node :=
  match p with
  | None => fail FNull
  | Some l => m ← gets t_nodes; match m !! l with Some n => mret n | None => fail FDangling end
  end.
Definition upd (p : option loc) (f : st_node → st_node) : M bst unit :=
  n ← load p;
  match p with
  | Some l => modify (λ s, with_nodes (<[l := f n]> (t_nodes s)) s)
  | None => mret tt
  end.

(** One turn of a loop per node. *)
Definition tree_fuel (s : bst) : nat := S (size (t_nodes s)).

(** ** Construction, destruction *)

Definition CBinarySearchTree (h : gmap loc st_node) : bst := Bst None 0 h.

(** The root is deleted, and none of the nodes below it. *)
Definition CBinarySearchTree_destroy : M bst unit :=
  root ← gets m_pRoot;
  match root with
  | Some r =>
    _ ← load root;
    modify (λ s, with_nodes (delete r (t_nodes s)) s);;
    modify (with_root None)
  | None => mret tt
  end;;
  modify (with_len 0).

(** ** Queries *)

Fixpoint search_loop (fuel : nat) (k : Z) (pNode : option loc) : M bst (option loc) :=
  match fuel with
  | O => fail FFuel
  | S fuel' =>
    match pNode with
    | None => mret None
    | Some _ =>
      n ← load pNode;
      if (key n =? k)%Z then mret pNode
      else if (k <? key n)%Z then search_loop fuel' k (n_left n)
      else search_loop fuel' k (n_right n)
    end
  end.

Definition search (k : Z) : M bst (option loc) :=
  root ← gets m_pRoot;
  match root with
  | None => mret None
  | Some _ => fuel ← gets tree_fuel; search_loop fuel k root
  end.

(** [while (p->next) p = p->next;] *)
Fixpoint descend (fuel : nat) (next : st_node → option loc) (p : option loc)
    : M bst (option loc) :=
  match fuel with
  | O => fail FFuel
  | S fuel' =>
    n ← load p;
    match next n with None => mret p | Some _ => descend fuel' next (next n) end
  end.

(** [while (NULL != y && pNode == y->side) { pNode = y; y = y->parent; }] *)
Fixpoint climb (fuel : nat) (side : st_node → option loc) (pNode y : option loc)
    : M bst (option loc) :=
  match fuel with
  | O => fail FFuel
  | S fuel' =>
    match y with
    | None => mret None
    | Some _ =>
      n ← load y;
      if bool_decide (pNode = side n) then climb fuel' side y (parent n) else mret y
    end
  end.

Definition treeSuccessor (k : Z) : M bst (option loc) :=
  pNode ← search k;
  match pNode with
  | None => mret None
  | Some _ =>
    n ← load pNode;
    fuel ← gets tree_fuel;
    match n_right n with
    | Some _ => descend fuel n_left (n_right n)
    | None => climb fuel n_right pNode (parent n)
    end
  end.

Definition treePreDecessor (k : Z) : M bst (option loc) :=
  pNode ← search k;
  match pNode with
  | None => mret None
  | Some _ =>
    n ← load pNode;
    fuel ← gets tree_fuel;
    match n_left n with
    | Some _ => descend fuel n_right (n_left n)
    | None => climb fuel n_left pNode (parent n)
    end
  end.

(** The result and the reference argument [key]; None where it is not written. *)
Definition minKey : M bst (bool * option Z) :=
  root ← gets m_pRoot;
  match root with
  | None => mret (false, None)
  | Some _ =>
    fuel ← gets tree_fuel;
    p ← descend fuel n_left root;
    n ← load p;
    l ← load (n_left n);
    mret (true, Some (key l))
  end.

Definition maxKey : M bst (bool * option Z) :=
  root ← gets m_pRoot;
  match root with
  | None => mret (false, None)
  | Some _ =>
    fuel ← gets tree_fuel;
    p ← descend fuel n_right root;
    n ← load p;
    r ← load (n_right n);
    mret (true, Some (key r))
  end.

(** The walk over the nodes, which writes [pOut] from [nPos] on; an element of the new
    array is None before it is written. *)
Fixpoint walk_nodes (fuel : nat) (pNode : option loc) (pOut : list (option Z)) (nPos : Z)
    : M bst (list (option Z) * Z) :=
  match fuel with
  | O => fail FFuel
  | S fuel' =>
    match pNode with
    | None => mret (pOut, nPos)
    | Some _ =>
      n ← load pNode;
      pOut ← lift (aset pOut nPos (Some (key n)));
      nPos ← lift (int_res (nPos + 1));
      r ← walk_nodes fuel' (n_left n) pOut nPos;
      walk_nodes fuel' (n_right n) r.1 r.2
    end
  end.

(** The arguments [pOut] and [nLen] after the call; the array that [pOut] pointed to is
    deleted. *)
Definition inorder_tree_walk (pOut : option (list (option Z))) (nLen : Z)
    : M bst (option (list (option Z)) * Z) :=
  root ← gets m_pRoot;
  match root with
  | None => mret (pOut, nLen)
  | Some _ =>
    len ← gets m_nLen;
    if (len <? 0)%Z then fail FAlloc
    else
      fuel ← gets tree_fuel;
      r ← walk_nodes fuel root (replicate (Z.to_nat len) None) 0;
      mret (Some r.1, len)
  end.

(** ** Changes *)

(** The node is made, but the function ends without a [return]. *)
Definition createNode (junk : st_node) (k : Z) : M bst (option loc) :=
  m ← gets t_nodes;
  let p := fresh_loc m in
  modify (with_nodes (<[p := junk]> m));;
  upd (Some p) (λ _, StNode k None None None);;
  fail FNoValue.

(** Both branches of the comparison go left. *)
Fixpoint insert_loop (fuel : nat) (pNode pTmp pParent : option loc) : M bst (option loc) :=
  match fuel with
  | O => fail FFuel
  | S fuel' =>
    match pTmp with
    | None => mret pParent
    | Some _ =>
      n ← load pNode;
      t ← load pTmp;
      if (key n <? key t)%Z then insert_loop fuel' pNode (n_left t) pTmp
      else insert_loop fuel' pNode (n_left t) pTmp
    end
  end.

Definition insert (pNode : option loc) : M bst bool :=
  root ← gets m_pRoot;
  match root with
  | None =>
    modify (with_root pNode);;
    len ← gets m_nLen;
    len ← lift (int_res (len + 1));
    modify (with_len len);;
    mret true
  | Some _ =>
    fuel ← gets tree_fuel;
    pParent ← insert_loop fuel pNode root None;
    match pParent with
    | None => mret true
    | Some _ =>
      p ← load pParent;
      n ← load pNode;
      (if (key p <? key n)%Z then upd pParent (set_left pNode)
       else upd pParent (set_right pNode));;
      upd pNode (set_parent pParent);;
      mret true
    end
  end.

Definition insertNode (junk : st_node) (k : Z) : M bst bool :=
  pNode ← createNode junk k;
  match pNode with None => mret false | Some _ => insert pNode end.

Definition transplant (u v : option loc) : M bst unit :=
  n ← load u;
  (match parent n with
   | None => modify (with_root v)
   | Some _ =>
     p ← load (parent n);
     if bool_decide (u = n_left p) then upd (parent n) (set_left v)
     else upd (parent n) (set_right v)
   end);;
  match v with
  | Some _ => n ← load u; upd v (set_parent (parent n))
  | None => mret tt
  end.

Definition deleteNode (k : Z) : M bst unit :=
  x ← search k;
  match x with
  | None => mret tt
  | Some _ =>
    n ← load x;
    match n_left n, n_right n with
    | None, _ => transplant x (n_right n)
    | Some _, None => transplant x (n_left n)
    | Some _, Some _ =>
      y ← treeSuccessor k;
      ny ← load y;
      when (bool_decide (parent ny ≠ x))
        (ny ← load y;
         transplant y (n_right ny);;
         n ← load x;
         upd y (set_right (n_right n));;
         ny ← load y;
         upd (n_right ny) (set_parent y));;
      transplant x y;;
      n ← load x;
      upd y (set_left (n_left n));;
      ny ← load y;
      upd (n_left ny) (set_parent y)
    end
  end.
