(* ===== verification/SearchTreeProofs.v ===== *)
(** * SearchTreeProofs: the linked nodes of searchTree.cpp as trees

    A tree in the heap is described by an inductive tree with the addresses of the
    nodes; a node inside it by the path from the node to the root.  Both are
    specified by the sequence of nodes in order. *)
From stdpp Require Import gmap list sorting.
From Stdlib Require Import ZArith.
From S2P Require Import Prelude SearchTree.

(** ** Trees *)

Inductive tree := Leaf | Node (l : tree) (p : loc) (k : Z) (r : tree).

Definition root_of (t : tree) : option loc :=
  match t with Leaf => None | Node _ p _ _ => Some p end.

Abbreviation nref := (loc * Z)%type.

Fixpoint in_order (t : tree) : list nref :=
  match t with Leaf => [] | Node l p k r => in_order l ++ (p, k) :: in_order r end.
Fixpoint pre_order (t : tree) : list nref :=
  match t with Leaf => [] | Node l p k r => (p, k) :: pre_order l ++ pre_order r end.

Lemma pre_order_length t : length (pre_order t) = length (in_order t).
Proof. induction t; simpl; [done|]. rewrite !length_app. simpl. lia. Qed.

Definition locs (ns : list nref) : list loc := ns.*1.
Definition keys (ns : list nref) : list Z := ns.*2.

(** The nodes of [t] in the heap, under the node [par]. *)
Fixpoint tree_at (h : gmap loc st_node) (par : option loc) (t : tree) : Prop :=
  match t with
  | Leaf => True
  | Node l p k r =>
    h !! p = Some (StNode k par (root_of l) (root_of r)) ∧
    tree_at h (Some p) l ∧ tree_at h (Some p) r
  end.

(** The object holds the tree [t]. *)
Record holds (s : bst) (t : tree) : Prop := {
  ho_root : m_pRoot s = root_of t;
  ho_tree : tree_at (t_nodes s) None t;
  ho_nodup : NoDup (locs (in_order t))
}.

(** The keys are in strictly ascending order: a binary search tree. *)
Definition search_tree (t : tree) : Prop := StronglySorted Z.lt (keys (in_order t)).

(** ** Paths *)

Inductive step := InLeft (p : loc) (k : Z) (r : tree) | InRight (l : tree) (p : loc) (k : Z).

(** The steps from a node up to the root. *)
Abbreviation path := (list step).

Fixpoint plug (c : path) (t : tree) : tree :=
  match c with
  | [] => t
  | InLeft p k r :: c' => plug c' (Node t p k r)
  | InRight l p k :: c' => plug c' (Node l p k t)
  end.

Definition par_of (c : path) : option loc :=
  match c with [] => None | InLeft p _ _ :: _ | InRight _ p _ :: _ => Some p end.

(** The root of the whole tree, when [q] is the root of the subtree. *)
Fixpoint root_path (c : path) (q : option loc) : option loc :=
  match c with
  | [] => q
  | InLeft p _ _ :: c' | InRight _ p _ :: c' => root_path c' (Some p)
  end.

(** The nodes before and behind the subtree, in order. *)
Fixpoint before (c : path) : list nref :=
  match c with
  | [] => []
  | InLeft _ _ _ :: c' => before c'
  | InRight l p k :: c' => before c' ++ in_order l ++ [(p, k)]
  end.
Fixpoint behind (c : path) : list nref :=
  match c with
  | [] => []
  | InLeft p k r :: c' => (p, k) :: in_order r ++ behind c'
  | InRight _ _ _ :: c' => behind c'
  end.
Abbreviation around c := (before c ++ behind c).

Fixpoint path_at (h : gmap loc st_node) (c : path) (q : option loc) : Prop :=
  match c with
  | [] => True
  | InLeft p k r :: c' =>
    h !! p = Some (StNode k (par_of c') q (root_of r)) ∧ tree_at h (Some p) r ∧
    path_at h c' (Some p)
  | InRight l p k :: c' =>
    h !! p = Some (StNode k (par_of c') (root_of l) q) ∧ tree_at h (Some p) l ∧
    path_at h c' (Some p)
  end.

Lemma in_order_plug c t : in_order (plug c t) = before c ++ in_order t ++ behind c.
Proof.
  revert t. induction c as [|[p k r|l p k] c IH]; intros t; simpl; [by rewrite app_nil_r|..];
    rewrite IH; simpl; by rewrite <- !app_assoc.
Qed.

Lemma root_of_plug c t : root_of (plug c t) = root_path c (root_of t).
Proof. revert t. induction c as [|[p k r|l p k] c IH]; intros t; simpl; [done|by rewrite IH..]. Qed.

Lemma tree_plug h c t : tree_at h None (plug c t) ↔ path_at h c (root_of t) ∧ tree_at h (par_of c) t.
Proof.
  revert t. induction c as [|[p k r|l p k] c IH]; intros t; simpl; [tauto|rewrite IH; simpl; tauto..].
Qed.

Lemma plug_app c1 c2 t : plug (c1 ++ c2) t = plug c2 (plug c1 t).
Proof. revert t. induction c1 as [|[p k r|l p k] c1 IH]; intros t; simpl; [done|apply IH..]. Qed.

Lemma in_order_around c t : locs (in_order (plug c t)) ≡ₚ locs (around c) ++ locs (in_order t).
Proof.
  unfold locs. rewrite in_order_plug, !fmap_app, <- app_assoc. f_equiv. apply Permutation_app_comm.
Qed.

Lemma locs_app ns1 ns2 : locs (ns1 ++ ns2) = locs ns1 ++ locs ns2.
Proof. apply fmap_app. Qed.

Lemma locs_cons p k ns : locs ((p, k) :: ns) = p :: locs ns.
Proof. done. Qed.

Lemma locs_node l p k r : locs (in_order (Node l p k r)) = locs (in_order l) ++ p :: locs (in_order r).
Proof. apply locs_app. Qed.

Lemma tree_at_ext h h' par t : (∀ l, l ∈ locs (in_order t) → h' !! l = h !! l) →
  tree_at h par t → tree_at h' par t.
Proof.
  revert par. induction t as [|l IHl p k r IHr]; intros par Hext; simpl in *; [done|].
  rewrite locs_app, locs_cons in Hext. intros (Hp&Hl&Hr). rewrite Hext by set_solver.
  split_and!; [done|apply IHl; [set_solver|done]|apply IHr; [set_solver|done]].
Qed.

Lemma path_at_ext h h' c q : (∀ l, l ∈ locs (around c) → h' !! l = h !! l) →
  path_at h c q → path_at h' c q.
Proof.
  revert q. induction c as [|[p k r|l p k] c IH]; intros q Hext; simpl in *; [done|..];
    rewrite ?locs_app, ?locs_cons, ?locs_app in Hext; intros (Hp&Ht&Hc);
    (rewrite Hext by (rewrite ?elem_of_app; set_solver));
    (split_and!; [done| |apply IH; [rewrite locs_app; set_solver|done]]);
    eapply tree_at_ext; [|done| |done]; set_solver.
Qed.

Lemma tree_at_lookup h par t l : tree_at h par t → l ∈ locs (in_order t) → is_Some (h !! l).
Proof.
  revert par. induction t as [|t1 IH1 p k t2 IH2]; intros par; simpl.
  - intros _ []%elem_of_nil.
  - rewrite locs_app, locs_cons, elem_of_app, elem_of_cons. intros (Hp&H1&H2) [?|[->|?]]; eauto.
Qed.

(** The fuel is enough for the height of a tree, and for the length of a path. *)
Lemma tree_fuel_enough s t : holds s t → length (in_order t) < tree_fuel s.
Proof.
  intros [_ Ht Hn]. unfold tree_fuel, locs in *. rewrite <- (length_fmap fst), <- size_dom.
  rewrite <- (size_list_to_set (C := gset loc)) by done. apply le_n_S, subseteq_size.
  intros l Hin%elem_of_list_to_set. apply elem_of_dom. by eapply tree_at_lookup.
Qed.

Lemma zipper_length c : length c ≤ length (around c).
Proof.
  induction c as [|[p k r|l p k] c IH]; simpl; [lia|..];
    rewrite ?length_app in *; simpl; rewrite ?length_app; simpl; lia.
Qed.

(** ** Rules *)

Lemma wp_load l n (Q : st_node → bst → Prop) s :
  t_nodes s !! l = Some n → Q n s → wp (load (Some l)) Q s.
Proof. intros E HQ. unfold load. wp_step. wp_step. by rewrite E. Qed.

Lemma load_ok l n s : t_nodes s !! l = Some n → load (Some l) s = Ok (n, s).
Proof. intros E. unfold load, mbind, M_bind, gets. by rewrite E. Qed.

Lemma wp_upd l n f (Q : unit → bst → Prop) s : t_nodes s !! l = Some n →
  Q tt (with_nodes (<[l := f n]> (t_nodes s)) s) → wp (upd (Some l) f) Q s.
Proof. intros E HQ. unfold upd. wp_step. by eapply wp_load. Qed.

(** ** Search *)

Lemma search_tree_node c l p k r : search_tree (plug c (Node l p k r)) →
  (∀ x, x ∈ keys (in_order l) → (x < k)%Z) ∧ (∀ x, x ∈ keys (in_order r) → (k < x)%Z).
Proof.
  unfold search_tree, keys. rewrite in_order_plug, !fmap_app. simpl. rewrite fmap_app. simpl.
  intros Hs%StronglySorted_app_1_r%StronglySorted_app_1_l. split.
  - intros x Hx. eapply (StronglySorted_app_1_elem_of _ _ _ _ _ Hs); [done|by left].
  - apply StronglySorted_app_1_r, StronglySorted_cons in Hs as [Hs _].
    intros x Hx. apply list_elem_of_lookup_1 in Hx as [i Hi]. by eapply (Forall_lookup_1 _ _ _ _ Hs).
Qed.

Lemma tsearch_loop_wp k : ∀ t c fuel s, tree_at (t_nodes s) (par_of c) t → length (in_order t) < fuel →
  wp (search_loop fuel k (root_of t)) (λ r s', s' = s ∧
    match r with
    | Some p => ∃ c' l' r', plug c t = plug c' (Node l' p k r')
    | None => search_tree (plug c t) → k ∉ keys (in_order t)
    end) s.
Proof.
  induction t as [|l IHl p k' r IHr]; intros c fuel s Ht Hf;
    (destruct fuel as [|fuel]; [lia|]); cbn [search_loop root_of].
  { wp_step. split; [done|]. intros _. apply not_elem_of_nil. }
  destruct Ht as (Hp&Hl&Hr). cbn [in_order] in *. rewrite length_app in Hf. simpl in Hf.
  wp_step. eapply wp_load; [exact Hp|]. cbn [key n_left n_right].
  pose proof (search_tree_node c l p k' r) as Hsort.
  assert (Hin : ∀ x, x ∈ keys (in_order l ++ (p, k') :: in_order r) ↔
    x ∈ keys (in_order l) ∨ x = k' ∨ x ∈ keys (in_order r)).
  { intros x. unfold keys. rewrite fmap_app, elem_of_app. simpl. by rewrite elem_of_cons. }
  destruct (Z.eqb_spec k' k) as [->|Hne]; [|destruct (Z.ltb_spec k k')].
  - wp_step. split; [done|]. by exists c, l, r.
  - eapply wp_mono; [apply (IHl (InLeft p k' r :: c)); [done|lia]|].
    intros [q|] s' [-> H']; (split; [done|]); [done|].
    intros Hs. rewrite Hin. intros [Hx|[->|Hx]]; [by apply H'|lia|].
    apply (proj2 (Hsort Hs)) in Hx. lia.
  - eapply wp_mono; [apply (IHr (InRight l p k' :: c)); [done|lia]|].
    intros [q|] s' [-> H']; (split; [done|]); [done|].
    intros Hs. rewrite Hin. intros [Hx|[->|Hx]]; [|lia|by apply H'].
    apply (proj1 (Hsort Hs)) in Hx. lia.
Qed.

(** A node is found, and on a search tree it is found whenever its key is there. *)
Lemma tsearch_wp s t k : holds s t → wp (search k) (λ r s', s' = s ∧
  match r with
  | Some p => ∃ c l r', t = plug c (Node l p k r')
  | None => search_tree t → k ∉ keys (in_order t)
  end) s.
Proof.
  intros H. pose proof (tree_fuel_enough s t H) as Hf. destruct H as [Hroot Ht Hn].
  unfold search. wp_step. wp_step. rewrite Hroot.
  destruct t as [|l p k' r]; cbn [root_of].
  { wp_step. split; [done|]. intros _. apply not_elem_of_nil. }
  wp_step. wp_step.
  by apply (tsearch_loop_wp k (Node l p k' r) [] _ s).
Qed.

(** ** The first and the last node of a tree *)

Lemma descend_left_wp : ∀ t fuel par s, t ≠ Leaf → tree_at (t_nodes s) par t →
  length (in_order t) ≤ fuel →
  wp (descend fuel n_left (root_of t)) (λ y s', s' = s ∧ ∃ c p k r,
    t = plug c (Node Leaf p k r) ∧ before c = [] ∧ y = Some p) s.
Proof.
  induction t as [|l IHl p k r _]; intros fuel par s Hne Ht Hf; [done|]. destruct Ht as (Hp&Hl&_).
  cbn [in_order] in Hf. rewrite length_app in Hf. simpl in Hf. destruct fuel as [|fuel]; [lia|].
  cbn [descend root_of]. wp_step. eapply wp_load; [exact Hp|]. cbn [n_left].
  destruct l as [|l1 p' k' l2]; cbn [root_of].
  - wp_step. split; [done|]. by exists [], p, k, r.
  - eapply wp_mono; [eapply (IHl fuel); [done|exact Hl|lia]|].
    intros y s' (->&c&p1&k1&r1&E&Hb&->). split; [done|].
    exists (c ++ [InLeft p k r]), p1, k1, r1. split_and!; [by rewrite plug_app, <- E| |done].
    clear -Hb. induction c as [|[?? r'|l' ??] c IH]; simpl in *; [done|by apply IH|].
    by apply app_nil in Hb as [_ [_ ?]%app_nil].
Qed.

Lemma descend_right_wp : ∀ t fuel par s, t ≠ Leaf → tree_at (t_nodes s) par t →
  length (in_order t) ≤ fuel →
  wp (descend fuel n_right (root_of t)) (λ y s', s' = s ∧ ∃ c l p k,
    t = plug c (Node l p k Leaf) ∧ behind c = [] ∧ y = Some p) s.
Proof.
  induction t as [|l _ p k r IHr]; intros fuel par s Hne Ht Hf; [done|]. destruct Ht as (Hp&_&Hr).
  cbn [in_order] in Hf. rewrite length_app in Hf. simpl in Hf. destruct fuel as [|fuel]; [lia|].
  cbn [descend root_of]. wp_step. eapply wp_load; [exact Hp|]. cbn [n_right].
  destruct r as [|r1 p' k' r2]; cbn [root_of].
  - wp_step. split; [done|]. by exists [], l, p, k.
  - eapply wp_mono; [eapply (IHr fuel); [done|exact Hr|simpl in *; lia]|].
    intros y s' (->&c&l1&p1&k1&E&Hb&->). split; [done|].
    exists (c ++ [InRight l p k]), l1, p1, k1. split_and!; [by rewrite plug_app, <- E| |done].
    clear -Hb. induction c as [|[?? r'|l' ??] c IH]; simpl in *; [done|done|by apply IH].
Qed.

(** ** The neighbours *)

(** Upwards, past the ancestors on one side. *)
Lemma climb_right_wp : ∀ c fuel q s, path_at (t_nodes s) c (Some q) →
  NoDup (q :: locs (around c)) → length c < fuel →
  wp (climb fuel n_right (Some q) (par_of c)) (λ y s', s' = s ∧ y = fst <$> head (behind c)) s.
Proof.
  induction c as [|[p k r|l p k] c IH]; intros fuel q s Hc Hn Hf; simpl in Hf;
    (destruct fuel as [|fuel]; [lia|]); cbn [climb par_of].
  - by wp_step.
  - destruct Hc as (Hp&_&_). wp_step. eapply wp_load; [exact Hp|]. cbn [n_right behind].
    rewrite bool_decide_eq_false_2; [by wp_step|]. intros E.
    apply NoDup_cons in Hn as [Hn _]. apply Hn. cbn [before behind].
    rewrite locs_app, locs_cons, locs_app. destruct r as [|r1 p' k' r2]; [done|].
    injection E as ->. cbn [in_order]. rewrite locs_app, locs_cons. set_solver.
  - destruct Hc as (Hp&_&Hc). wp_step. eapply wp_load; [exact Hp|]. cbn [n_right parent behind].
    rewrite bool_decide_eq_true_2 by done. apply (IH fuel p); [done| |lia].
    apply NoDup_cons in Hn as [_ Hn]. cbn [before behind] in Hn.
    eapply (NoDup_Permutation_proper _ (p :: locs (in_order l) ++ locs (around c))) in Hn.
    + apply NoDup_cons in Hn as [Hp' (_&_&Hn)%NoDup_app]. apply NoDup_cons. set_solver.
    + rewrite <- !app_assoc. rewrite !locs_app. simpl. unfold locs. solve_Permutation.
Qed.

Lemma climb_left_wp : ∀ c fuel q s, path_at (t_nodes s) c (Some q) →
  NoDup (q :: locs (around c)) → length c < fuel →
  wp (climb fuel n_left (Some q) (par_of c)) (λ y s', s' = s ∧ y = fst <$> last (before c)) s.
Proof.
  induction c as [|[p k r|l p k] c IH]; intros fuel q s Hc Hn Hf; simpl in Hf;
    (destruct fuel as [|fuel]; [lia|]); cbn [climb par_of].
  - by wp_step.
  - destruct Hc as (Hp&_&Hc). wp_step. eapply wp_load; [exact Hp|]. cbn [n_left parent before].
    rewrite bool_decide_eq_true_2 by done. apply (IH fuel p); [done| |lia].
    apply NoDup_cons in Hn as [_ Hn]. cbn [before behind] in Hn.
    eapply (NoDup_Permutation_proper _ (p :: locs (in_order r) ++ locs (around c))) in Hn.
    + apply NoDup_cons in Hn as [Hp' (_&_&Hn)%NoDup_app]. apply NoDup_cons. set_solver.
    + rewrite !locs_app, locs_cons, !locs_app. unfold locs. solve_Permutation.
  - destruct Hc as (Hp&_&_). wp_step. eapply wp_load; [exact Hp|]. cbn [n_left before].
    rewrite bool_decide_eq_false_2.
    { wp_step. split; [done|]. by rewrite app_assoc, last_snoc. }
    intros E. apply NoDup_cons in Hn as [Hn _]. apply Hn. cbn [before behind].
    rewrite !locs_app. destruct l as [|l1 p' k' l2]; [done|].
    injection E as ->. cbn [in_order]. rewrite locs_app, locs_cons. set_solver.
Qed.

(** A node of a tree and the path to it. *)
Lemma holds_node s c l p k r : holds s (plug c (Node l p k r)) →
  t_nodes s !! p = Some (StNode k (par_of c) (root_of l) (root_of r)) ∧
  path_at (t_nodes s) c (Some p) ∧ tree_at (t_nodes s) (Some p) l ∧
  tree_at (t_nodes s) (Some p) r ∧
  NoDup (p :: locs (around c) ++ locs (in_order l) ++ locs (in_order r)).
Proof.
  intros [_ [Hc (Hp&Hl&Hr)]%tree_plug Hn]. split_and!; try done.
  rewrite in_order_around in Hn. cbn [in_order] in Hn. rewrite !locs_app, locs_cons in Hn.
  eapply NoDup_Permutation_proper; [|exact Hn]. rewrite !locs_app. unfold locs. solve_Permutation.
Qed.

(** The successor of a node that was found. *)
Lemma succ_at s c l p k r : holds s (plug c (Node l p k r)) → search k s = Ok (Some p, s) →
  wp (treeSuccessor k) (λ y s', s' = s ∧ match r with
    | Leaf => y = fst <$> head (behind c)
    | Node _ _ _ _ => ∃ c1 p1 k1 r1, r = plug c1 (Node Leaf p1 k1 r1) ∧ before c1 = [] ∧ y = Some p1
    end) s.
Proof.
  intros H E. pose proof (tree_fuel_enough _ _ H) as Hf. unfold treeSuccessor. wp_step.
  apply (wp_intro _ _ _ _ _ E). destruct (holds_node _ _ _ _ _ _ H) as (Hp&Hc&_&Hr&Hn).
  rewrite in_order_plug in Hf. cbn [in_order] in Hf. rewrite !length_app in Hf. simpl in Hf.
  wp_step. eapply wp_load; [exact Hp|]. cbn [n_right parent]. wp_step. wp_step.
  destruct r as [|r1 p1 k1 r2]; cbn [root_of].
  - apply climb_right_wp; [done| |].
    + eapply (sublist_NoDup _ _ Hn). apply sublist_skip, sublist_inserts_r. done.
    + pose proof (zipper_length c). rewrite !length_app in *. simpl in *. lia.
  - apply (descend_left_wp (Node r1 p1 k1 r2) _ (Some p)); [done|done|lia].
Qed.

Lemma succ_wp s t k : holds s t → wp (treeSuccessor k) (λ y s', s' = s ∧
  ((y = None ∧ (search_tree t → k ∉ keys (in_order t))) ∨
   ∃ ns1 p ns2, in_order t = ns1 ++ (p, k) :: ns2 ∧ y = fst <$> head ns2)) s.
Proof.
  intros H. destruct (wp_elim _ _ _ (tsearch_wp s t k H)) as (o&s'&E&->&Hs).
  destruct o as [p|].
  - destruct Hs as (c&l&r&->). eapply wp_mono; [by eapply succ_at|].
    intros y s' [-> Hy]. split; [done|]. right. rewrite in_order_plug. cbn [in_order].
    exists (before c ++ in_order l), p, (in_order r ++ behind c).
    split; [by rewrite <- !app_assoc|]. destruct r as [|r1 p1 k1 r2]; [done|].
    destruct Hy as (c1&p'&k'&r'&Er&Hb&->). by rewrite Er, in_order_plug, Hb.
  - unfold treeSuccessor. wp_step. apply (wp_intro _ _ _ _ _ E). wp_step. split; [done|by left].
Qed.

Lemma pred_wp s t k : holds s t → wp (treePreDecessor k) (λ y s', s' = s ∧
  ((y = None ∧ (search_tree t → k ∉ keys (in_order t))) ∨
   ∃ ns1 p ns2, in_order t = ns1 ++ (p, k) :: ns2 ∧ y = fst <$> last ns1)) s.
Proof.
  intros H. pose proof (tree_fuel_enough s t H) as Hf. unfold treePreDecessor. wp_step.
  eapply wp_mono; [by apply tsearch_wp|].
  intros [p|] s' [-> Hs]; [|wp_step; split; [done|by left]].
  destruct Hs as (c&l&r&->). destruct (holds_node _ _ _ _ _ _ H) as (Hp&Hc&Hl&_&Hn).
  rewrite in_order_plug in Hf |- *. cbn [in_order] in *.
  wp_step. eapply wp_load; [exact Hp|]. cbn [n_left parent]. wp_step. wp_step.
  destruct l as [|l1 p1 k1 l2]; cbn [root_of].
  - eapply wp_mono; [apply climb_left_wp; [done| |]|].
    + eapply (sublist_NoDup _ _ Hn). apply sublist_skip, sublist_inserts_r. done.
    + pose proof (zipper_length c). rewrite !length_app in *. simpl in *. lia.
    + intros y s' [-> ->]. split; [done|]. right.
      exists (before c), p, (in_order r ++ behind c). by rewrite <- !app_assoc.
  - eapply wp_mono; [apply (descend_right_wp (Node l1 p1 k1 l2) _ (Some p)); [done|done|]|].
    + rewrite !length_app in Hf. cbn [in_order] in *. rewrite length_app in *. lia.
    + intros y s' (->&c'&l'&p'&k'&E&Hb&->). split; [done|]. right.
      exists (before c ++ in_order (Node l1 p1 k1 l2)), p, (in_order r ++ behind c).
      rewrite <- !app_assoc. split; [done|].
      rewrite E, in_order_plug, Hb. cbn [in_order]. rewrite app_nil_r, !app_assoc, last_snoc. done.
Qed.

(** ** Replacing a subtree *)

(** The write to the node above a subtree whose root becomes [q]. *)
Definition relink (c : path) (q : option loc) (h : gmap loc st_node) : gmap loc st_node :=
  match c with
  | [] => h
  | InLeft p k r :: c' => <[p := StNode k (par_of c') q (root_of r)]> h
  | InRight l p k :: c' => <[p := StNode k (par_of c') (root_of l) q]> h
  end.

Lemma relink_lookup c q h l : l ∉ locs (around c) → relink c q h !! l = h !! l.
Proof.
  destruct c as [|[p k r|t p k] c]; cbn [before behind relink]; [done|..];
    rewrite ?locs_app, ?locs_cons; intros Hl; rewrite lookup_insert_ne; set_solver.
Qed.

Lemma path_at_relink h c q q' : NoDup (locs (around c)) → path_at h c q → path_at (relink c q' h) c q'.
Proof.
  destruct c as [|[p k r|l p k] c]; cbn [before behind relink path_at]; [done|..];
    rewrite ?locs_app, ?locs_cons, ?locs_app; intros Hn (Hp&Ht&Hc).
  - eapply (NoDup_Permutation_proper _ (p :: locs (in_order r) ++ locs (around c))) in Hn.
    + apply NoDup_cons in Hn as [Hn _]. rewrite elem_of_app in Hn.
      split; [apply lookup_insert_eq|]. split; [eapply (tree_at_ext h)|eapply (path_at_ext h)];
        try done; intros x Hx; rewrite lookup_insert_ne; naive_solver.
    + rewrite locs_app. unfold locs. solve_Permutation.
  - eapply (NoDup_Permutation_proper _ (p :: locs (in_order l) ++ locs (around c))) in Hn.
    + apply NoDup_cons in Hn as [Hn _]. rewrite elem_of_app in Hn.
      split; [apply lookup_insert_eq|]. split; [eapply (tree_at_ext h)|eapply (path_at_ext h)];
        try done; intros x Hx; rewrite lookup_insert_ne; naive_solver.
    + rewrite locs_app. unfold locs. solve_Permutation.
Qed.

(** A subtree under another parent. *)
Definition reparent (t : tree) (par : option loc) (h : gmap loc st_node) : gmap loc st_node :=
  match t with
  | Leaf => h
  | Node l p k r => <[p := StNode k par (root_of l) (root_of r)]> h
  end.

Lemma reparent_lookup t par h l : l ∉ locs (in_order t) → reparent t par h !! l = h !! l.
Proof.
  destruct t as [|t1 p k t2]; cbn [in_order reparent]; [done|].
  rewrite locs_app, locs_cons. intros Hl. rewrite lookup_insert_ne; set_solver.
Qed.

Lemma tree_at_reparent h par par' t : NoDup (locs (in_order t)) → tree_at h par t →
  tree_at (reparent t par' h) par' t.
Proof.
  destruct t as [|l p k r]; cbn [in_order reparent tree_at]; [done|].
  rewrite locs_app, locs_cons. intros Hn (Hp&Hl&Hr).
  rewrite <- Permutation_middle in Hn. apply NoDup_cons in Hn as [Hn _]. rewrite elem_of_app in Hn.
  split; [apply lookup_insert_eq|]. split; (eapply (tree_at_ext h); [|done]);
    intros x Hx; rewrite lookup_insert_ne; naive_solver.
Qed.

(** [transplant]: the subtree [t], wherever it was, takes the place of the node [u]. *)
Lemma transplant_wp s c u nu t par (Q : unit → bst → Prop) :
  m_pRoot s = root_path c (Some u) → path_at (t_nodes s) c (Some u) →
  t_nodes s !! u = Some nu → parent nu = par_of c → tree_at (t_nodes s) par t →
  NoDup (u :: locs (around c) ++ locs (in_order t)) →
  Q tt (Bst (root_path c (root_of t)) (m_nLen s)
    (reparent t (par_of c) (relink c (root_of t) (t_nodes s)))) →
  wp (transplant (Some u) (root_of t)) Q s.
Proof.
  intros Hroot Hc Hu Hpar Ht [Hnu Hn]%NoDup_cons HQ. rewrite elem_of_app in Hnu.
  apply NoDup_app in Hn as (_&Hd&_).
  unfold transplant. wp_step. eapply wp_load; [exact Hu|]. rewrite Hpar. wp_step.
  assert (Hstep : wp (match par_of c with
    | None => modify (with_root (root_of t))
    | Some _ => p ← load (par_of c);
      if bool_decide (Some u = n_left p) then upd (par_of c) (set_left (root_of t))
      else upd (par_of c) (set_right (root_of t))
    end) (λ _ s', s' = Bst (root_path c (root_of t)) (m_nLen s) (relink c (root_of t) (t_nodes s))) s).
  { destruct c as [|[p k r|l p k] c]; cbn [par_of relink root_path path_at] in *.
    - by wp_step.
    - destruct Hc as (Hp&_&_). wp_step. eapply wp_load; [exact Hp|]. cbn [n_left].
      rewrite bool_decide_eq_true_2 by done. eapply wp_upd; [exact Hp|].
      unfold with_nodes. by rewrite Hroot.
    - destruct Hc as (Hp&_&_). wp_step. eapply wp_load; [exact Hp|]. cbn [n_left].
      rewrite bool_decide_eq_false_2.
      + eapply wp_upd; [exact Hp|]. unfold with_nodes. by rewrite Hroot.
      + intros E. apply Hnu. left. cbn [before behind]. rewrite !locs_app.
        destruct l; [done|]. injection E as ->. cbn [in_order]. rewrite !locs_app, locs_cons. set_solver. }
  eapply wp_mono; [exact Hstep|]. intros [] s' ->. clear Hstep.
  assert (Hu' : relink c (root_of t) (t_nodes s) !! u = Some nu) by (rewrite relink_lookup; tauto).
  destruct t as [|l p k r]; cbn [root_of reparent] in *; [by wp_step|].
  wp_step. eapply wp_load; [exact Hu'|]. rewrite Hpar.
  assert (Hp : relink c (Some p) (t_nodes s) !! p = Some (StNode k par (root_of l) (root_of r))).
  { rewrite relink_lookup; [by destruct Ht|]. intros Hin. apply (Hd p Hin). cbn [in_order].
    rewrite locs_app, locs_cons. set_solver. }
  eapply wp_upd; [exact Hp|]. done.
Qed.

(** ** Deletion *)

(** What a change of a tree with the nodes [xs] leaves: the length and the other nodes;
    no node is freed. *)
Record kept (s s' : bst) (xs : list loc) : Prop := {
  ke_len : m_nLen s' = m_nLen s;
  ke_out : ∀ l, l ∉ xs → t_nodes s' !! l = t_nodes s !! l;
  ke_alive : ∀ l, is_Some (t_nodes s !! l) → is_Some (t_nodes s' !! l)
}.

Lemma kept_trans s1 s2 s3 xs : kept s1 s2 xs → kept s2 s3 xs → kept s1 s3 xs.
Proof.
  intros [L1 O1 A1] [L2 O2 A2]. constructor; [congruence| |auto].
  intros l Hl. by rewrite O2, O1.
Qed.

Lemma alive_insert (h : gmap loc st_node) p n l : is_Some (h !! l) → is_Some (<[p := n]> h !! l).
Proof. intros H. apply lookup_insert_is_Some'. by right. Qed.

Lemma kept_transplant s c t q xs : locs (around c) ++ locs (in_order t) ⊆ xs →
  kept s (Bst q (m_nLen s) (reparent t (par_of c) (relink c (root_of t) (t_nodes s)))) xs.
Proof.
  intros Hxs. constructor; [done| |]; cbn [t_nodes]; intros l Hl.
  - rewrite reparent_lookup, relink_lookup by set_solver. done.
  - assert (is_Some (relink c (root_of t) (t_nodes s) !! l)).
    { destruct c as [|[]]; cbn [relink]; [done|by apply alive_insert..]. }
    destruct t; cbn [reparent]; [done|by apply alive_insert].
Qed.

Lemma transplanted s c t q par : NoDup (locs (around c) ++ locs (in_order t)) →
  path_at (t_nodes s) c q → tree_at (t_nodes s) par t →
  holds (Bst (root_path c (root_of t)) (m_nLen s)
    (reparent t (par_of c) (relink c (root_of t) (t_nodes s)))) (plug c t).
Proof.
  intros Hn Hc Ht. pose proof Hn as (Hn1&Hd&Hn2)%NoDup_app.
  constructor; cbn [m_pRoot t_nodes].
  - by rewrite root_of_plug.
  - apply tree_plug. split.
    + eapply path_at_ext; [|by eapply path_at_relink]. intros l Hl.
      rewrite reparent_lookup; [done|]. by apply Hd.
    + eapply tree_at_reparent; [done|]. eapply tree_at_ext; [|exact Ht]. intros l Hl.
      rewrite relink_lookup; [done|]. intros Hin. by apply (Hd l).
  - by rewrite in_order_around.
Qed.

(** The node [p] has at most one child, [t]. *)
Lemma delete_child_wp s c l p k r t xs : holds s (plug c (Node l p k r)) →
  (t = l ∧ r = Leaf ∨ t = r ∧ l = Leaf) → locs (in_order (plug c (Node l p k r))) ⊆ xs →
  wp (transplant (Some p) (root_of t)) (λ _ s', holds s' (plug c t) ∧ kept s s' xs) s.
Proof.
  intros H Ht Hxs. destruct (holds_node _ _ _ _ _ _ H) as (Hp&Hc&Hl&Hr&Hn).
  assert (Hn' : NoDup (p :: locs (around c) ++ locs (in_order t)) ∧ tree_at (t_nodes s) (Some p) t).
  { destruct Ht as [[-> ->]|[-> ->]]; cbn [in_order] in Hn; [|done].
    change (locs []) with (@nil loc) in Hn. rewrite app_nil_r in Hn. done. }
  destruct Hn' as [Hn' Ht'].
  assert (Hsub : locs (around c) ++ locs (in_order t) ⊆ xs).
  { rewrite in_order_around in Hxs. cbn [in_order] in Hxs. rewrite !locs_app, locs_cons in Hxs.
    rewrite locs_app. destruct Ht as [[-> ->]|[-> ->]]; set_solver. }
  eapply transplant_wp; [|exact Hc|exact Hp|done|exact Ht'|exact Hn'|].
  { destruct H as [-> _ _]. apply root_of_plug. }
  split; [|by apply kept_transplant]. eapply transplanted; [|done..]. by apply NoDup_cons in Hn' as [_ ?].
Qed.

(** The node [p] is about to be replaced by its successor [y], whose right subtree is
    already the rest [r] of the right subtree of [p]. *)
Record spliced (s : bst) (c : path) (p : loc) (k : Z) (l : tree) (pv : option loc) (y : loc)
    (ky : Z) (r : tree) : Prop := {
  sp_root : m_pRoot s = root_path c (Some p);
  sp_path : path_at (t_nodes s) c (Some p);
  sp_node : ∃ nr, t_nodes s !! p = Some (StNode k (par_of c) (root_of l) nr);
  sp_left : tree_at (t_nodes s) (Some p) l;
  sp_tree : tree_at (t_nodes s) pv (Node Leaf y ky r);
  sp_nodup : NoDup (p :: locs (around c) ++ locs (in_order l) ++ y :: locs (in_order r))
}.

Lemma attach_left s c l y ky r pl : holds s (plug c (Node Leaf y ky r)) →
  tree_at (t_nodes s) pl l → NoDup (locs (around c) ++ locs (in_order l) ++ y :: locs (in_order r)) →
  holds (Bst (m_pRoot s) (m_nLen s) (reparent l (Some y)
    (<[y := StNode ky (par_of c) (root_of l) (root_of r)]> (t_nodes s)))) (plug c (Node l y ky r)).
Proof.
  intros H Hl Hn. destruct (holds_node _ _ _ _ _ _ H) as (Hy&Hc&_&Hr&_).
  pose proof Hn as (_&Hd1&(Hnl&Hd2&[Hyr _]%NoDup_cons)%NoDup_app)%NoDup_app.
  assert (Hyl : y ∉ locs (in_order l)) by (intros Hin; apply (Hd2 y Hin); by left).
  constructor; cbn [m_pRoot t_nodes].
  - destruct H as [-> _ _]. by rewrite !root_of_plug.
  - apply tree_plug. split; [|split; [|split]].
    + eapply path_at_ext; [|exact Hc]. intros x Hx.
      rewrite reparent_lookup, lookup_insert_ne; [done| |].
      * intros ->. apply (Hd1 _ Hx). set_solver.
      * intros Hin. apply (Hd1 _ Hx). set_solver.
    + rewrite reparent_lookup by done. apply lookup_insert_eq.
    + eapply tree_at_reparent; [done|]. eapply tree_at_ext; [|exact Hl]. intros x Hx.
      rewrite lookup_insert_ne; [done|]. by intros ->.
    + eapply tree_at_ext; [|exact Hr]. intros x Hx.
      rewrite reparent_lookup, lookup_insert_ne; [done| |].
      * by intros ->.
      * intros Hin. apply (Hd2 _ Hin). by right.
  - rewrite in_order_around. cbn [in_order]. rewrite (locs_app (in_order l)). exact Hn.
Qed.

Lemma splice_wp s c p k l pv y ky r xs : spliced s c p k l pv y ky r → l ≠ Leaf →
  p :: locs (around c) ++ locs (in_order l) ++ y :: locs (in_order r) ⊆ xs →
  wp (transplant (Some p) (Some y);;
      n ← load (Some p);
      upd (Some y) (set_left (n_left n));;
      ny ← load (Some y);
      upd (n_left ny) (set_parent (Some y)))
    (λ _ s', holds s' (plug c (Node l y ky r)) ∧ kept s s' xs) s.
Proof.
  intros [Hroot Hc [nr Hp] Hl Ht Hn] Hne Hxs. wp_step.
  pose proof Hn as [Hpn Hn1]%NoDup_cons. pose proof Hn1 as (_&Hd1&Hn2)%NoDup_app.
  pose proof Hn2 as (Hnl&Hd2&[Hy Hnr]%NoDup_cons)%NoDup_app.
  assert (Hn' : NoDup (p :: locs (around c) ++ locs (in_order (Node Leaf y ky r)))).
  { eapply (sublist_NoDup _ _ Hn). apply sublist_skip, sublist_app; [done|].
    apply (sublist_inserts_l). done. }
  change (Some y) with (root_of (Node Leaf y ky r)) at 1.
  eapply transplant_wp; [done|exact Hc|exact Hp|done|exact Ht|exact Hn'|].
  set (s1 := Bst _ _ _).
  assert (H1 : holds s1 (plug c (Node Leaf y ky r))).
  { eapply transplanted; [|done..]. by apply NoDup_cons in Hn' as [_ ?]. }
  assert (K1 : kept s s1 xs).
  { apply kept_transplant. cbn [in_order]. simpl. set_solver. }
  assert (Hsame : ∀ x, x = p ∨ x ∈ locs (in_order l) → t_nodes s1 !! x = t_nodes s !! x).
  { intros x Hx. assert ((x ∉ locs (around c)) ∧ x ≠ y ∧ (x ∉ locs (in_order r))) as (?&?&?).
    { destruct Hx as [->|Hx]; [set_solver|]. split_and!.
      - intros Hin. apply (Hd1 x Hin). set_solver.
      - intros ->. apply (Hd2 y Hx). by left.
      - intros Hin. apply (Hd2 x Hx). by right. }
    unfold s1. cbn [t_nodes]. rewrite reparent_lookup, relink_lookup; [done..|].
    cbn [in_order]. simpl. set_solver. }
  wp_step. eapply wp_load; [rewrite Hsame by (by left); exact Hp|]. cbn [n_left].
  apply holds_node in H1 as H1'. destruct H1' as (Hny&_&_&Hr1&_).
  wp_step. eapply wp_upd; [exact Hny|]. cbn [root_of set_left key parent n_right].
  wp_step. eapply wp_load; [cbn; apply lookup_insert_eq|]. cbn [n_left].
  assert (Hl1 : tree_at (t_nodes s1) (Some p) l)
    by (eapply tree_at_ext; [|exact Hl]; intros x Hx; apply Hsame; by right).
  destruct l as [|l1 q kq l2]; [done|]. cbn [root_of]. pose proof Hl1 as (Hq&_).
  assert (Hqy : q ≠ y).
  { intros ->. apply (Hd2 y); [|by left]. cbn [in_order]. rewrite locs_app, locs_cons. set_solver. }
  eapply wp_upd; [cbn; rewrite lookup_insert_ne by done; exact Hq|].
  set (l := Node l1 q kq l2) in *.
  assert (Hq' : q ∈ locs (in_order l))
    by (unfold l; cbn [in_order]; rewrite locs_app, locs_cons; set_solver).
  assert (Hh := attach_left s1 c l y ky r (Some p) H1 Hl1 Hn1). split; [exact Hh|].
  eapply kept_trans; [exact K1|]. constructor; [done| |]; cbn [t_nodes with_nodes].
  - intros x Hx. rewrite !lookup_insert_ne; [done|..]; intros ->; apply Hx, Hxs;
      apply elem_of_cons; right; set_solver.
  - intros x Hx. by do 2 apply alive_insert.
Qed.

Lemma hook_right s c p k l pv y ky r : holds s (plug c (Node l p k r)) →
  y ∉ locs (in_order (plug c (Node l p k r))) →
  spliced (Bst (m_pRoot s) (m_nLen s) (reparent r (Some y)
    (<[y := StNode ky pv None (root_of r)]> (t_nodes s)))) c p k l pv y ky r.
Proof.
  intros H Hy. destruct (holds_node _ _ _ _ _ _ H) as (Hp&Hc&Hl&Hr&Hn).
  rewrite in_order_around, locs_node in Hy.
  assert (Hy' : y ≠ p ∧ (y ∉ locs (around c)) ∧ (y ∉ locs (in_order l)) ∧ (y ∉ locs (in_order r)))
    by set_solver.
  destruct Hy' as (Hyp&Hyc&Hyl&Hyr). pose proof Hn as [Hpn (_&Hd1&(_&Hd2&Hnr)%NoDup_app)%NoDup_app]%NoDup_cons.
  assert (Hsame : ∀ x, x ≠ y → x ∉ locs (in_order r) → reparent r (Some y)
    (<[y := StNode ky pv None (root_of r)]> (t_nodes s)) !! x = t_nodes s !! x).
  { intros x Hx1 Hx2. by rewrite reparent_lookup, lookup_insert_ne. }
  constructor; cbn [m_pRoot t_nodes].
  - destruct H as [-> _ _]. by rewrite root_of_plug.
  - eapply path_at_ext; [|exact Hc]. intros x Hx. apply Hsame; [by intros ->|].
    intros Hin. apply (Hd1 _ Hx). set_solver.
  - eexists. rewrite Hsame; [exact Hp|done|set_solver].
  - eapply tree_at_ext; [|exact Hl]. intros x Hx. apply Hsame; [by intros ->|]. by apply Hd2.
  - split; [|split; [done|]].
    + rewrite reparent_lookup by done. apply lookup_insert_eq.
    + eapply tree_at_reparent; [done|]. eapply tree_at_ext; [|exact Hr]. intros x Hx.
      rewrite lookup_insert_ne; [done|]. by intros ->.
  - assert (NoDup (y :: p :: locs (around c) ++ locs (in_order l) ++ locs (in_order r))) as Hn2
      by (apply NoDup_cons; set_solver).
    eapply NoDup_Permutation_proper; [|exact Hn2]. solve_Permutation.
Qed.

Lemma plug_root c1 ry : c1 ≠ [] → ∃ r1 q kq r2, plug c1 ry = Node r1 q kq r2.
Proof.
  intros Hne. revert ry. induction c1 as [|[q kq r0|l0 q kq] c1 IH]; intros ry; [done|..]; simpl;
    (destruct c1; [simpl; eauto|by apply IH]).
Qed.

(** The node [y], out of the tree, gets the right subtree of [p]. *)
Lemma hook_wp s c l p k c1 y ky ry xs : holds s (plug c (Node l p k (plug c1 ry))) → c1 ≠ [] →
  t_nodes s !! y = Some (StNode ky (par_of c1) None (root_of ry)) →
  y ∉ locs (in_order (plug c (Node l p k (plug c1 ry)))) →
  y ∈ xs → locs (in_order (plug c1 ry)) ⊆ xs →
  wp (n ← load (Some p);
      upd (Some y) (set_right (n_right n));;
      ny ← load (Some y);
      upd (n_right ny) (set_parent (Some y)))
    (λ _ s', spliced s' c p k l (par_of c1) y ky (plug c1 ry) ∧ kept s s' xs) s.
Proof.
  intros H Hne Hny Hy Hyx Hxs. destruct (holds_node _ _ _ _ _ _ H) as (Hp&Hc&Hl&Hr&Hn).
  pose proof (hook_right s c p k l (par_of c1) y ky _ H Hy) as Hsp.
  rewrite in_order_around, locs_node in Hy.
  assert (Hyp : y ≠ p) by (intros ->; apply Hy; set_solver).
  wp_step. eapply wp_load; [exact Hp|]. cbn [n_right]. wp_step. eapply wp_upd; [exact Hny|].
  cbn [set_right key parent n_left]. wp_step.
  eapply wp_load; [cbn; apply lookup_insert_eq|]. cbn [n_right].
  destruct (plug_root c1 ry Hne) as (r1&q&kq&r2&Er). rewrite Er in *.
  pose proof Hr as (Hq&_). cbn [root_of].
  assert (Hqr : q ∈ locs (in_order (Node r1 q kq r2))) by (rewrite locs_node; set_solver).
  assert (Hyq : q ≠ y) by (intros ->; apply Hy; set_solver).
  eapply wp_upd; [cbn; rewrite lookup_insert_ne by done; exact Hq|].
  split; [exact Hsp|]. constructor; [done| |]; cbn [t_nodes with_nodes].
  - intros x Hx. rewrite !lookup_insert_ne; [done|..]; intros ->; apply Hx; [done|by apply Hxs].
  - intros x Hx. by do 2 apply alive_insert.
Qed.

(** The successor below the right child leaves its place to its right subtree. *)
Lemma unhook_wp s c l p k c1 y ky ry xs : holds s (plug c (Node l p k (plug c1 (Node Leaf y ky ry)))) →
  c1 ≠ [] → locs (in_order (plug c (Node l p k (plug c1 (Node Leaf y ky ry))))) ⊆ xs →
  wp (ny ← load (Some y);
      transplant (Some y) (n_right ny);;
      n ← load (Some p);
      upd (Some y) (set_right (n_right n));;
      ny ← load (Some y);
      upd (n_right ny) (set_parent (Some y)))
    (λ _ s', spliced s' c p k l (par_of c1) y ky (plug c1 ry) ∧ kept s s' xs) s.
Proof.
  intros H Hne Hxs.
  set (C := c1 ++ InRight l p k :: c).
  assert (EC : ∀ t, plug c (Node l p k (plug c1 t)) = plug C t)
    by (intros t; unfold C; by rewrite plug_app).
  assert (Epar : par_of C = par_of c1) by (unfold C; by destruct c1 as [|[]]).
  rewrite EC in H, Hxs. rewrite in_order_around, locs_node in Hxs.
  destruct (holds_node _ _ _ _ _ _ H) as (Hny&HC&_&Hry&Hn). cbn [root_of] in Hny.
  rewrite Epar in Hny. pose proof Hn as [Hyn Hn']%NoDup_cons.
  change (locs (in_order Leaf)) with (@nil loc) in Hn, Hn', Hyn. rewrite app_nil_l in *.
  wp_step. eapply wp_load; [exact Hny|]. cbn [n_right]. wp_step.
  eapply transplant_wp; [|exact HC|exact Hny|by rewrite Epar|exact Hry|exact Hn|].
  { destruct H as [-> _ _]. apply root_of_plug. }
  assert (H1 := transplanted s C ry _ _ Hn' HC Hry). rewrite <- EC in H1.
  eapply wp_mono; [apply (hook_wp _ c l p k c1 y ky ry xs H1 Hne)|].
  - cbn [t_nodes]. rewrite reparent_lookup, relink_lookup; [done| |]; intros Hin; apply Hyn; set_solver.
  - rewrite EC, in_order_around. rewrite elem_of_app in *. tauto.
  - set_solver.
  - intros x Hx. apply Hxs.
    assert (x ∈ locs (in_order (plug C ry))) as Hx'
      by (rewrite <- EC, in_order_around, locs_node; set_solver).
    rewrite in_order_around in Hx'. set_solver.
  - intros _ s2 [Hsp K2]. split; [exact Hsp|]. eapply kept_trans; [|exact K2].
    apply kept_transplant. set_solver.
Qed.

(** The [if] of [deleteNode]: the successor [y] is the right child, or is unhooked. *)
Lemma successor_ready_wp s c l p k c1 y ky ry xs :
  holds s (plug c (Node l p k (plug c1 (Node Leaf y ky ry)))) →
  locs (in_order (plug c (Node l p k (plug c1 (Node Leaf y ky ry))))) ⊆ xs →
  wp (ny ← load (Some y);
      when (bool_decide (parent ny ≠ Some p))
        (ny ← load (Some y);
         transplant (Some y) (n_right ny);;
         n ← load (Some p);
         upd (Some y) (set_right (n_right n));;
         ny ← load (Some y);
         upd (n_right ny) (set_parent (Some y))))
    (λ _ s', ∃ pv, spliced s' c p k l pv y ky (plug c1 ry) ∧ kept s s' xs) s.
Proof.
  intros H Hxs. destruct (holds_node _ _ _ _ _ _ H) as (Hp&Hc&Hl&Hr&Hn).
  assert (EC : plug c (Node l p k (plug c1 (Node Leaf y ky ry))) =
    plug (c1 ++ InRight l p k :: c) (Node Leaf y ky ry)) by (by rewrite plug_app).
  pose proof H as H'. rewrite EC in H'. destruct (holds_node _ _ _ _ _ _ H') as (Hny&_).
  wp_step. eapply wp_load; [exact Hny|]. cbn [parent].
  destruct c1 as [|e c1]; [|set (c1' := e :: c1) in *].
  - cbn [app par_of plug] in *. rewrite bool_decide_eq_false_2 by (intros Hne; by apply Hne).
    cbn [when]. wp_step. exists (Some p). split; [|by constructor]. constructor; try done.
    + destruct H as [-> _ _]. by rewrite root_of_plug.
    + by eexists.
  - rewrite bool_decide_eq_true_2.
    { eapply wp_mono; [by apply unhook_wp|]. intros [] s' Hs'. by exists (par_of c1'). }
    apply NoDup_cons in Hn as [Hn _]. intros Hpar. apply Hn.
    rewrite !elem_of_app. right. right. rewrite in_order_plug, !locs_app, !elem_of_app.
    unfold c1' in *. destruct e; injection Hpar as ->; cbn [before behind].
    + right. right. by left.
    + left. rewrite !locs_app, !elem_of_app. right. right. by left.
Qed.

(** [deleteNode] of a key that is found, at the node [p]. *)
Lemma delete_found_wp s c l p k r : holds s (plug c (Node l p k r)) →
  search k s = Ok (Some p, s) →
  wp (deleteNode k) (λ _ s', ∃ t', holds s' t' ∧
    in_order t' = before c ++ in_order l ++ in_order r ++ behind c ∧
    kept s s' (locs (in_order (plug c (Node l p k r))))) s.
Proof.
  intros H E. destruct (holds_node _ _ _ _ _ _ H) as (Hp&Hc&Hl&Hr&Hn).
  unfold deleteNode. wp_step. apply (wp_intro _ _ _ _ _ E). wp_step.
  eapply wp_load; [exact Hp|]. cbn [n_left n_right].
  destruct l as [|l1 pl kl l2] eqn:El; cbn [root_of]; [|rewrite <- El in *; destruct r as [|r1 pr kr r2] eqn:Er];
    cbn [root_of].
  - eapply wp_mono; [eapply (delete_child_wp s c Leaf p k r r); [done|by right|done]|].
    intros [] s' [H' K]. exists (plug c r). by rewrite in_order_plug.
  - change (Some pl) with (root_of (Node l1 pl kl l2)). rewrite <- El.
    eapply wp_mono; [eapply (delete_child_wp s c l p k Leaf l); [done|by left|done]|].
    intros [] s' [H' K]. exists (plug c l). by rewrite in_order_plug.
  - assert (Hne : l ≠ Leaf) by (by subst).
    rewrite <- Er in *. wp_step. eapply wp_mono; [by eapply succ_at|]. intros y s' [-> Hy].
    rewrite Er in Hy. destruct Hy as (c1&y'&ky&ry&Ey&Hb&->). rewrite <- Er in Ey.
    clear El Er l1 pl kl l2 r1 pr kr r2. subst r. rename y' into y.
    set (xs := locs (in_order (plug c (Node l p k (plug c1 (Node Leaf y ky ry)))))).
    pose proof (successor_ready_wp s c l p k c1 y ky ry xs H ltac:(done)) as Hw.
    apply wp_bind_inv in Hw. wp_step. eapply wp_mono; [exact Hw|]. intros ny s1 Hw1. wp_step.
    eapply wp_mono; [exact Hw1|]. intros [] s2 (pv&Hsp&K).
    eapply wp_mono; [apply (splice_wp s2 c p k l pv y ky (plug c1 ry) xs Hsp Hne)|].
    + unfold xs. intros x. rewrite (in_order_around c), locs_node, !(in_order_around c1), locs_node.
      repeat (rewrite elem_of_app || rewrite elem_of_cons). tauto.
    + intros [] s3 [H3 K3]. eexists. split; [exact H3|]. split; [|by eapply kept_trans].
      rewrite !in_order_plug. cbn [in_order]. rewrite !in_order_plug, Hb. cbn [in_order].
      rewrite <- !app_assoc. simpl. by rewrite <- ?app_assoc.
Qed.

(** ** Insertion *)

(** Both branches go left: the loop ends at the first node in order. *)
Lemma insert_loop_wp pn n : ∀ t fuel par q s, t ≠ Leaf → tree_at (t_nodes s) par t →
  t_nodes s !! pn = Some n → length (in_order t) < fuel →
  wp (insert_loop fuel (Some pn) (root_of t) q) (λ y s', s' = s ∧ ∃ c p k r,
    t = plug c (Node Leaf p k r) ∧ before c = [] ∧ y = Some p) s.
Proof.
  induction t as [|l IHl p k r _]; intros fuel par q s Hne Ht Hn Hf; [done|].
  destruct Ht as (Hp&Hl&_). cbn [in_order] in Hf. rewrite length_app in Hf. simpl in Hf.
  destruct fuel as [|fuel]; [lia|]. cbn [insert_loop root_of].
  wp_step. eapply wp_load; [exact Hn|]. wp_step. eapply wp_load; [exact Hp|]. cbn [key n_left].
  assert (Hw : wp (insert_loop fuel (Some pn) (root_of l) (Some p)) (λ y s', s' = s ∧
    ∃ c p' k' r', Node l p k r = plug c (Node Leaf p' k' r') ∧ before c = [] ∧ y = Some p') s);
    [|by destruct (key n <? k)%Z].
  destruct l as [|l1 p1 k1 l2].
  - destruct fuel as [|fuel]; [lia|]. cbn [insert_loop root_of]. wp_step. split; [done|].
    by exists [], p, k, r.
  - eapply wp_mono; [eapply (IHl fuel); [done|exact Hl|done|lia]|].
    intros y s' (->&c&p'&k'&r'&E&Hb&->). split; [done|].
    exists (c ++ [InLeft p k r]), p', k', r'. split_and!; [by rewrite plug_app, <- E| |done].
    clear -Hb. induction c as [|[?? r0|l0 ??] c IH]; simpl in *; [done|by apply IH|].
    by apply app_nil in Hb as [_ [_ ?]%app_nil].
Qed.

(** The node [pn] becomes a child of the first node [p] of the tree: the left one when
    its key is greater, and otherwise the right one, in the place of the subtree [r]. *)
Definition inserted (c : path) (p : loc) (kp : Z) (r : tree) (pn : loc) (k : Z) : tree :=
  if (kp <? k)%Z then plug c (Node (Node Leaf pn k Leaf) p kp r)
  else plug c (Node Leaf p kp (Node Leaf pn k Leaf)).

Lemma insert_wp s t pn k : holds s t → t ≠ Leaf → pn ∉ locs (in_order t) →
  t_nodes s !! pn = Some (StNode k None None None) →
  wp (insert (Some pn)) (λ b s', b = true ∧ m_nLen s' = m_nLen s ∧ ∃ c p kp r,
    t = plug c (Node Leaf p kp r) ∧ before c = [] ∧ holds s' (inserted c p kp r pn k)) s.
Proof.
  intros H Hne Hpn Hn. pose proof (tree_fuel_enough s t H) as Hf. unfold insert. wp_step. wp_step.
  pose proof (ho_root _ _ H) as Hroot. rewrite Hroot.
  assert (∃ r0, root_of t = Some r0) as [r0 Er] by (destruct t; [done|by eexists]).
  rewrite Er. cbn [mbind]. wp_step. wp_step. wp_step. rewrite <- Er.
  eapply wp_mono; [by eapply insert_loop_wp; [|apply H| |]|].
  intros y s' (->&c&p&kp&r&->&Hb&->). wp_step.
  destruct (holds_node _ _ _ _ _ _ H) as (Hp&Hc&_&Hr&Hnd). cbn [root_of] in Hp.
  rewrite in_order_around, locs_node in Hpn. change (locs (in_order Leaf)) with (@nil loc) in *.
  rewrite app_nil_l in *.
  assert (Hpp : pn ≠ p) by (intros ->; apply Hpn; rewrite elem_of_app; right; by left).
  eapply wp_load; [exact Hp|]. wp_step. eapply wp_load; [exact Hn|]. cbn [key].
  assert (Hext : ∀ x n n', x ∈ locs (around c) ++ locs (in_order r) →
    <[pn := n']> (<[p := n]> (t_nodes s)) !! x = t_nodes s !! x).
  { intros x n n' Hx. rewrite !lookup_insert_ne; [done|..].
    - intros ->. apply NoDup_cons in Hnd as [Hnd _]. done.
    - intros ->. apply Hpn. rewrite elem_of_app, elem_of_cons in *. tauto. }
  assert (Hnd' : NoDup (locs (around c) ++ pn :: p :: locs (in_order r))).
  { rewrite <- !Permutation_middle. apply NoDup_cons. split; [|done].
    rewrite elem_of_cons, elem_of_app in *. rewrite elem_of_cons in Hpn. tauto. }
  assert (Hroot' : m_pRoot s = root_path c (Some p)) by (rewrite Hroot; apply root_of_plug).
  destruct (kp <? k)%Z eqn:Ek; wp_step; (eapply wp_upd; [exact Hp|]);
    wp_step; (eapply wp_upd; [cbn; rewrite lookup_insert_ne by done; exact Hn|]); wp_step;
    (split; [done|]); (split; [done|]); exists c, p, kp, r; (split; [done|]); (split; [done|]);
    unfold inserted; rewrite Ek; cbn [set_left set_right set_parent key parent n_left n_right].
  - constructor; cbn [m_pRoot t_nodes with_nodes].
    + by rewrite root_of_plug.
    + apply tree_plug. split; [eapply path_at_ext; [|exact Hc]; intros x Hx; apply Hext; set_solver|].
      split; [by rewrite lookup_insert_ne, lookup_insert_eq|].
      split; [cbn; by rewrite lookup_insert_eq|].
      eapply tree_at_ext; [|exact Hr]. intros x Hx. apply Hext. set_solver.
    + rewrite in_order_around, !locs_node. exact Hnd'.
  - constructor; cbn [m_pRoot t_nodes with_nodes].
    + by rewrite root_of_plug.
    + apply tree_plug. split; [eapply path_at_ext; [|exact Hc]; intros x Hx; apply Hext; set_solver|].
      split; [by rewrite lookup_insert_ne, lookup_insert_eq|].
      split; [done|]. split; [by rewrite lookup_insert_eq|done].
    + rewrite in_order_around, !locs_node. change (locs (in_order Leaf)) with (@nil loc). simpl.
      eapply (sublist_NoDup _ (locs (around c) ++ p :: pn :: locs (in_order r))).
      * eapply NoDup_Permutation_proper; [|exact Hnd']. solve_Permutation.
      * apply sublist_app; [done|]. do 2 apply sublist_skip. apply sublist_nil_l.
Qed.

(** A tree after an insertion into it is no search tree. *)
Lemma inserted_unsorted c p kp r pn k : before c = [] →
  ¬ search_tree (inserted c p kp r pn k).
Proof.
  intros Hb Hs. unfold inserted, search_tree in Hs.
  destruct (Z.ltb_spec kp k); rewrite in_order_plug, Hb in Hs; cbn in Hs;
    apply StronglySorted_cons in Hs as [Hs _]; apply Forall_cons in Hs as [Hs _]; lia.
Qed.

(** ** Extremes and walks *)

Lemma min_max_null s t : holds s t → t ≠ Leaf →
  minKey s = Fault FNull ∧ maxKey s = Fault FNull.
Proof.
  intros H Hne. pose proof (tree_fuel_enough s t H) as Hf. pose proof (ho_root _ _ H) as Hroot.
  assert (∃ r0, root_of t = Some r0) as [r0 Er] by (destruct t; [done|by eexists]).
  destruct (wp_elim _ _ _ (descend_left_wp t (tree_fuel s) None s Hne (ho_tree _ _ H) ltac:(lia)))
    as (y&s1&E1&->&c1&p1&k1&r1&Et1&_&->).
  destruct (wp_elim _ _ _ (descend_right_wp t (tree_fuel s) None s Hne (ho_tree _ _ H) ltac:(lia)))
    as (y&s2&E2&->&c2&l2&p2&k2&Et2&_&->).
  assert (Eg : gets m_pRoot s = Ok (Some r0, s)) by (unfold gets; by rewrite Hroot, Er).
  rewrite Er in E1, E2. split.
  - subst t. destruct (holds_node _ _ _ _ _ _ H) as (Hp&_).
    unfold minKey. rewrite (bind_ok _ _ _ _ _ Eg), (bind_ok (gets tree_fuel) _ s _ s eq_refl),
      (bind_ok _ _ _ _ _ E1), (bind_ok _ _ _ _ _ (load_ok _ _ _ Hp)). done.
  - rewrite Et2 in H. destruct (holds_node _ _ _ _ _ _ H) as (Hp&_).
    unfold maxKey. rewrite (bind_ok _ _ _ _ _ Eg), (bind_ok (gets tree_fuel) _ s _ s eq_refl),
      (bind_ok _ _ _ _ _ E2), (bind_ok _ _ _ _ _ (load_ok _ _ _ Hp)). done.
Qed.

(** The walk writes the keys in pre-order from [pos] on. *)
Lemma walk_wp : ∀ t fuel par (done rest : list (option Z)) s, tree_at (t_nodes s) par t →
  length (in_order t) < fuel → length (in_order t) ≤ length rest →
  (Z.of_nat (length done + length rest) ≤ int_max)%Z →
  wp (walk_nodes fuel (root_of t) (done ++ rest) (Z.of_nat (length done))) (λ r s', s' = s ∧
    r = (done ++ (Some <$> keys (pre_order t)) ++ drop (length (in_order t)) rest,
         Z.of_nat (length done + length (in_order t)))) s.
Proof.
  induction t as [|l IHl p k r IHr]; intros fuel par dn rest s Ht Hf Hrest Hmax;
    (destruct fuel as [|fuel]; [lia|]); cbn [walk_nodes root_of].
  { wp_step. split; [done|]. simpl. by rewrite Nat.add_0_r. }
  destruct Ht as (Hp&Hl&Hr). cbn [in_order] in *. rewrite length_app in *. simpl in Hf, Hrest.
  destruct rest as [|x rest]; [simpl in Hrest; lia|]. simpl in Hrest, Hmax.
  wp_step. eapply wp_load; [exact Hp|]. cbn [key n_left n_right].
  apply (wp_lift_bind _ (dn ++ Some k :: rest)).
  { rewrite aset_nat by (rewrite length_app; simpl; lia).
    by rewrite insert_app_r_alt, Nat.sub_diag by lia. }
  apply (wp_lift_bind _ (Z.of_nat (length dn + 1))).
  { rewrite int_res_ok by (unfold int_min, int_max in *; lia). f_equal. lia. }
  rewrite cons_middle, app_assoc. replace (length dn + 1) with (length (dn ++ [Some k]))
    by (rewrite length_app; simpl; lia).
  wp_step. eapply wp_mono; [eapply (IHl fuel (Some p) (dn ++ [Some k]) rest); [done|lia|lia|]|].
  { rewrite length_app. simpl. lia. }
  intros r1 s' [-> ->]. cbn [fst snd]. rewrite (app_assoc (dn ++ [Some k])).
  assert (Elen : length (pre_order l) = length (in_order l)) by apply pre_order_length.
  replace (length (dn ++ [Some k]) + length (in_order l))
    with (length ((dn ++ [Some k]) ++ (Some <$> keys (pre_order l)))).
  2:{ unfold keys. by rewrite !length_app, !length_fmap, Elen. }
  eapply wp_mono; [eapply (IHr fuel (Some p)); [done|lia| |]|].
  - rewrite length_drop. lia.
  - rewrite !length_app, length_drop. unfold keys. rewrite !length_fmap. simpl. lia.
  - intros r2 s' [-> ->]. split; [done|]. f_equal.
    + simpl. unfold keys. rewrite !fmap_app, drop_drop, <- !app_assoc. simpl.
      by rewrite Nat.add_succ_r.
    + rewrite !length_app. unfold keys. rewrite !length_fmap. simpl. rewrite Elen. f_equal. lia.
Qed.
