(* ===== verification/SearchTreeSpec.v ===== *)
(** * SearchTreeSpec: what the binary search tree does for its clients

    The queries and the deletion are correct on every search tree; the insertion
    does not keep one, and the minimum and maximum use a NULL pointer. *)
From stdpp Require Import gmap list sorting.
From Stdlib Require Import ZArith.
From S2P Require Import Prelude SearchTree SearchTreeProofs.

(** ** Sequences of nodes with ascending keys *)

Abbreviation ascending ns := (StronglySorted Z.lt (keys ns)).

Lemma keys_app ns1 ns2 : keys (ns1 ++ ns2) = keys ns1 ++ keys ns2.
Proof. apply fmap_app. Qed.

Lemma ascending_mid ns1 p k ns2 : ascending (ns1 ++ (p, k) :: ns2) →
  (∀ x, x ∈ keys ns1 → (x < k)%Z) ∧ (∀ x, x ∈ keys ns2 → (k < x)%Z).
Proof.
  rewrite keys_app. intros Hs. split; intros x Hx.
  - eapply (StronglySorted_app_1_elem_of _ _ _ _ _ Hs); [done|by left].
  - apply StronglySorted_app_1_r, StronglySorted_cons in Hs as [Hs _].
    apply list_elem_of_lookup_1 in Hx as [i Hi]. by eapply (Forall_lookup_1 _ _ _ _ Hs).
Qed.

Lemma split_unique ns1 : ∀ ns1' p p' (k : Z) ns2 ns2', k ∉ keys ns1 → k ∉ keys ns1' →
  ns1 ++ (p, k) :: ns2 = ns1' ++ (p', k) :: ns2' → ns1 = ns1' ∧ p = p' ∧ ns2 = ns2'.
Proof.
  induction ns1 as [|[q kq] ns1 IH]; intros [|[q' kq'] ns1'] p p' k ns2 ns2' H H' E; simpl in E;
    injection E.
  - by intros -> ->.
  - intros _ -> _. exfalso. apply H'. by left.
  - intros _ -> _. exfalso. apply H. by left.
  - intros E' -> ->. destruct (IH ns1' p p' k ns2 ns2') as (->&->&->); try done.
    + intros ?. apply H. by right.
    + intros ?. apply H'. by right.
Qed.

Lemma ascending_unique ns1 ns1' p p' k ns2 ns2' : ascending (ns1 ++ (p, k) :: ns2) →
  ns1 ++ (p, k) :: ns2 = ns1' ++ (p', k) :: ns2' → ns1 = ns1' ∧ p = p' ∧ ns2 = ns2'.
Proof.
  intros Hs E. eapply split_unique; [| |exact E].
  - intros Hin. apply (proj1 (ascending_mid _ _ _ _ Hs)) in Hin. lia.
  - rewrite E in Hs. intros Hin. apply (proj1 (ascending_mid _ _ _ _ Hs)) in Hin. lia.
Qed.

(** The sequence without the node of a key. *)
Definition without_key (k : Z) (ns : list nref) : list nref :=
  List.filter (λ r, negb (r.2 =? k)%Z) ns.

Lemma without_key_id k ns : k ∉ keys ns → without_key k ns = ns.
Proof.
  induction ns as [|[p x] ns IH]; simpl; [done|]. intros [Hx Hn]%not_elem_of_cons.
  rewrite (proj2 (Z.eqb_neq x k)) by done. simpl. by rewrite IH.
Qed.

Lemma without_key_mid ns1 p k ns2 : ascending (ns1 ++ (p, k) :: ns2) →
  without_key k (ns1 ++ (p, k) :: ns2) = ns1 ++ ns2.
Proof.
  intros Hs. destruct (ascending_mid _ _ _ _ Hs) as [H1 H2].
  unfold without_key. rewrite List.filter_app. simpl. rewrite Z.eqb_refl. simpl.
  rewrite <- (without_key_id k ns1), <- (without_key_id k ns2) at 2; [done|..].
  - intros Hin%H2. lia.
  - intros Hin%H1. lia.
Qed.

Lemma ascending_remove ns1 r ns2 : ascending (ns1 ++ r :: ns2) → ascending (ns1 ++ ns2).
Proof.
  rewrite !keys_app, !StronglySorted_app. simpl. rewrite StronglySorted_cons.
  intros (H&H1&_&H2). split_and!; [|done|done]. intros x1 x2 Hx1 Hx2. apply H; [done|by right].
Qed.

(** ** Queries *)

(** On a search tree [search] ends, changes nothing and returns the node with the
    key, or NULL when no node has it. *)
Lemma tree_search s t k : holds s t → search_tree t →
  ∃ r, search k s = Ok (r, s) ∧
    match r with Some p => (p, k) ∈ in_order t | None => k ∉ keys (in_order t) end.
Proof.
  intros H Hs. destruct (wp_elim _ _ _ (tsearch_wp s t k H)) as (r&s'&E&->&Hr).
  exists r. split; [done|]. destruct r as [p|]; [|by apply Hr].
  destruct Hr as (c&l&r&->). rewrite in_order_plug. cbn [in_order].
  rewrite !elem_of_app, elem_of_cons. tauto.
Qed.

(** C26: The successor of a key in a search tree is the next node in order and the
    predecessor the one before it, or NULL at the ends. *)
Theorem tree_neighbours s t ns1 p k ns2 : holds s t → search_tree t →
  in_order t = ns1 ++ (p, k) :: ns2 →
  treeSuccessor k s = Ok (fst <$> head ns2, s) ∧ treePreDecessor k s = Ok (fst <$> last ns1, s).
Proof.
  intros H Hs Eo. pose proof Hs as Hs'. unfold search_tree in Hs'. rewrite Eo in Hs'.
  assert (Hin : k ∈ keys (in_order t)) by (rewrite Eo, keys_app, elem_of_app; right; by left).
  split.
  - destruct (wp_elim _ _ _ (succ_wp s t k H)) as (y&s'&E&->&[[_ Hn]|(n1&q&n2&En&->)]).
    + by destruct (Hn Hs).
    + rewrite Eo in En. by destruct (ascending_unique _ _ _ _ _ _ _ Hs' En) as (->&->&->).
  - destruct (wp_elim _ _ _ (pred_wp s t k H)) as (y&s'&E&->&[[_ Hn]|(n1&q&n2&En&->)]).
    + by destruct (Hn Hs).
    + rewrite Eo in En. by destruct (ascending_unique _ _ _ _ _ _ _ Hs' En) as (->&->&->).
Qed.

(** The minimum and the maximum of a tree that is not empty use a NULL pointer. *)
Lemma tree_min_max s t : holds s t → t ≠ Leaf →
  minKey s = Fault FNull ∧ maxKey s = Fault FNull.
Proof. apply min_max_null. Qed.

(** [inorder_tree_walk] fills its array with the keys in pre-order, if the length
    the tree keeps is not less than the number of its nodes. *)
Lemma tree_walk s t out n : holds s t → t ≠ Leaf →
  (Z.of_nat (length (in_order t)) ≤ m_nLen s ≤ int_max)%Z →
  inorder_tree_walk out n s = Ok ((Some ((Some <$> keys (pre_order t)) ++
    replicate (Z.to_nat (m_nLen s) - length (in_order t)) None), m_nLen s), s).
Proof.
  intros H Hne [Hlen Hmax].
  destruct (wp_elim _ _ _ (walk_wp t (tree_fuel s) None [] (replicate (Z.to_nat (m_nLen s)) None) s
    (ho_tree _ _ H) (tree_fuel_enough _ _ H) ltac:(rewrite length_replicate; lia)
    ltac:(rewrite length_replicate; simpl; lia))) as (r&s'&E&->&->).
  unfold inorder_tree_walk.
  assert (∃ r0, root_of t = Some r0) as [r0 Er] by (destruct t; [done|by eexists]).
  assert (Eg : gets m_pRoot s = Ok (Some r0, s)) by (unfold gets; by rewrite (ho_root _ _ H), Er).
  rewrite (bind_ok _ _ _ _ _ Eg), (bind_ok (gets m_nLen) _ s _ s eq_refl).
  rewrite (proj2 (Z.ltb_ge (m_nLen s) 0)) by lia.
  rewrite (bind_ok (gets tree_fuel) _ s _ s eq_refl). rewrite Er in E. simpl in E.
  rewrite (bind_ok _ _ _ _ _ E). unfold mret, M_ret. cbn [fst]. by rewrite drop_replicate.
Qed.

(** ** Changes *)

(** C7: [deleteNode] takes the node of its key out of a search tree, which stays a search
    tree with the other nodes, linked to their parents, and leaves the tree when no
    node has the key.  It neither frees the node nor counts it off. *)
Theorem tree_delete s t k : holds s t → search_tree t →
  ∃ s' t', deleteNode k s = Ok (tt, s') ∧ holds s' t' ∧ search_tree t' ∧
    in_order t' = without_key k (in_order t) ∧ kept s s' (locs (in_order t)).
Proof.
  intros H Hs. destruct (wp_elim _ _ _ (tsearch_wp s t k H)) as (r&s'&E&->&Hr).
  destruct r as [p|].
  - destruct Hr as (c&l&r&->).
    destruct (wp_elim _ _ _ (delete_found_wp s c l p k r H E)) as ([]&s'&E'&t'&H'&Eo&K).
    exists s', t'. split; [done|]. split; [done|].
    assert (Eo' : in_order (plug c (Node l p k r)) =
      (before c ++ in_order l) ++ (p, k) :: in_order r ++ behind c)
      by (rewrite in_order_plug; cbn [in_order]; by rewrite <- !app_assoc).
    unfold search_tree in *. rewrite Eo' in Hs.
    assert (Eo2 : in_order t' = (before c ++ in_order l) ++ in_order r ++ behind c)
      by (by rewrite Eo, <- app_assoc).
    split_and!; [|by rewrite Eo', without_key_mid|done]. rewrite Eo2. by eapply ascending_remove.
  - exists s, t. split_and!; try done; [|by rewrite without_key_id by (by apply Hr)].
    unfold deleteNode. by rewrite (bind_ok _ _ _ _ _ E).
Qed.

(** C34: [insert] of a new node into a tree that is not empty returns true, but puts the
    node below the first one on the wrong side: the result is never a search tree,
    and its length is not counted up. *)
Theorem tree_insert s t pn k : holds s t → t ≠ Leaf → pn ∉ locs (in_order t) →
  t_nodes s !! pn = Some (StNode k None None None) →
  ∃ s' t', insert (Some pn) s = Ok (true, s') ∧ holds s' t' ∧ ¬ search_tree t' ∧
    m_nLen s' = m_nLen s.
Proof.
  intros H Hne Hpn Hn.
  destruct (wp_elim _ _ _ (insert_wp s t pn k H Hne Hpn Hn))
    as (b&s'&E&->&El&c&p&kp&r&->&Hb&H').
  exists s', (inserted c p kp r pn k). split_and!; [done..|by apply inserted_unsorted|done].
Qed.

(** [insertNode] uses the value that [createNode] does not return. *)
Lemma insert_node_no_value junk k s : insertNode junk k s = Fault FNoValue.
Proof.
  unfold insertNode, createNode, upd, load, mbind, M_bind, gets, modify. cbn.
  by rewrite lookup_insert_eq.
Qed.

(** ** Witnesses *)

(** The tree of the keys 10, 20, 25, 30, 40 with 20 at the root, and a loose node 9. *)
Definition demo_tree : tree :=
  Node (Node Leaf 2 10 Leaf) 1 20 (Node (Node Leaf 4 25 Leaf) 3 30 (Node Leaf 5 40 Leaf)).
Definition demo_bst : bst := Bst (Some 1%positive) 5
  (<[1%positive := StNode 20 None (Some 2%positive) (Some 3%positive)]>
   (<[2%positive := StNode 10 (Some 1%positive) None None]>
    (<[3%positive := StNode 30 (Some 1%positive) (Some 4%positive) (Some 5%positive)]>
     (<[4%positive := StNode 25 (Some 3%positive) None None]>
      (<[5%positive := StNode 40 (Some 3%positive) None None]>
       {[9%positive := StNode 50 None None None]}))))).

Lemma demo_holds : holds demo_bst demo_tree.
Proof. constructor; [done|done|]. repeat (apply NoDup_cons; split; [set_solver|]). apply NoDup_nil_2. Qed.

Lemma demo_sorted : search_tree demo_tree.
Proof. unfold search_tree. cbn. repeat constructor. Qed.

Lemma tree_search_witness : ∃ r, search 25 demo_bst = Ok (r, demo_bst) ∧
  match r with Some p => (p, 25%Z) ∈ in_order demo_tree | None => 25%Z ∉ keys (in_order demo_tree) end.
Proof. apply (tree_search demo_bst demo_tree 25); [apply demo_holds|apply demo_sorted]. Defined.

Lemma tree_neighbours_witness :
  treeSuccessor 25 demo_bst = Ok (Some 3%positive, demo_bst) ∧
  treePreDecessor 25 demo_bst = Ok (Some 1%positive, demo_bst).
Proof.
  apply (tree_neighbours demo_bst demo_tree [(2%positive, 10%Z); (1%positive, 20%Z)] 4 25
    [(3%positive, 30%Z); (5%positive, 40%Z)]); [apply demo_holds|apply demo_sorted|reflexivity].
Defined.

Lemma tree_min_max_witness : minKey demo_bst = Fault FNull ∧ maxKey demo_bst = Fault FNull.
Proof. apply (tree_min_max demo_bst demo_tree); [apply demo_holds|discriminate]. Defined.

Lemma tree_walk_witness : inorder_tree_walk None 0 demo_bst =
  Ok ((Some [Some 20; Some 10; Some 30; Some 25; Some 40]%Z, 5%Z), demo_bst).
Proof.
  apply (tree_walk demo_bst demo_tree None 0); [apply demo_holds|discriminate|].
  vm_compute. split; discriminate.
Defined.

Lemma tree_delete_witness : ∃ s' t', deleteNode 20 demo_bst = Ok (tt, s') ∧ holds s' t' ∧
  search_tree t' ∧ in_order t' = [(2%positive, 10%Z); (4%positive, 25%Z); (3%positive, 30%Z);
    (5%positive, 40%Z)] ∧ kept demo_bst s' [2; 1; 4; 3; 5]%positive.
Proof. apply (tree_delete demo_bst demo_tree 20); [apply demo_holds|apply demo_sorted]. Defined.

Lemma tree_insert_witness : ∃ s' t', insert (Some 9%positive) demo_bst = Ok (true, s') ∧ holds s' t' ∧
  ¬ search_tree t' ∧ m_nLen s' = 5%Z.
Proof.
  apply (tree_insert demo_bst demo_tree 9 50);
    [apply demo_holds|discriminate|set_solver|reflexivity].
Defined.
