(* ===== verification/ByteMem.v ===== *)
(** * ByteMem: a memory of bytes at integer addresses

    The memory maps an address to the byte it holds; an address that is not in it is
    not allocated.  A word is eight bytes, the lowest first, and NULL is 0. *)
From stdpp Require Import gmap list.
From Stdlib Require Import ZArith Strings.Byte.
From S2P Require Import Prelude Bytes.

Abbreviation bytemem := (gmap Z byte).

Definition word_max : Z := 18446744073709551616.

(** ** Reading and writing *)

Fixpoint read_bytes (m : bytemem) (p : Z) (n : nat) : res (list byte) :=
  match n with
  | O => Ok []
  | S n' =>
    match m !! p with
    | None => Fault FDangling
    | Some b => bs ← read_bytes m (p + 1) n'; Ok (b :: bs)
    end
  end.

Fixpoint write_bytes (m : bytemem) (p : Z) (bs : list byte) : res bytemem :=
  match bs with
  | [] => Ok m
  | b :: bs' =>
    match m !! p with
    | None => Fault FDangling
    | Some _ => write_bytes (<[p := b]> m) (p + 1) bs'
    end
  end.

Fixpoint le_bytes (n : nat) (z : Z) : list byte :=
  match n with O => [] | S n' => Zbyte z :: le_bytes n' (z `div` 256) end.
Fixpoint le_value (bs : list byte) : Z :=
  match bs with [] => 0 | b :: bs' => byteZ b + 256 * le_value bs' end.

Definition load_word (m : bytemem) (p : Z) : res Z :=
  if (p =? 0)%Z then Fault FNull else bs ← read_bytes m p 8; Ok (le_value bs).
Definition store_word (m : bytemem) (p v : Z) : res bytemem :=
  if (p =? 0)%Z then Fault FNull else write_bytes m p (le_bytes 8 v).

(** ** What a range of addresses holds *)

Definition in_range (p n k : Z) : Prop := (p ≤ k < p + n)%Z.
Definition mapped (m : bytemem) (p n : Z) : Prop := ∀ k, in_range p n k → is_Some (m !! k).
Definition holds (m : bytemem) (p : Z) (bs : list byte) : Prop :=
  ∀ i b, bs !! i = Some b → m !! (p + Z.of_nat i)%Z = Some b.
(** The two memories have the same bytes in the range. *)
Definition agree (m m' : bytemem) (p n : Z) : Prop := ∀ k, in_range p n k → m' !! k = m !! k.

#[global] Instance in_range_dec p n k : Decision (in_range p n k).
Proof. unfold in_range. apply _. Defined.

Lemma holds_cons m p b bs :
  holds m p (b :: bs) ↔ m !! p = Some b ∧ holds m (p + 1) bs.
Proof.
  split.
  - intros H. split; [by specialize (H 0 b eq_refl); rewrite Z.add_0_r in H|].
    intros i c Hi. specialize (H (S i) c Hi).
    by replace (p + 1 + Z.of_nat i)%Z with (p + Z.of_nat (S i))%Z by lia.
  - intros [H0 H] [|i] c Hi; simplify_eq/=; [by rewrite Z.add_0_r|].
    replace (p + Z.of_nat (S i))%Z with (p + 1 + Z.of_nat i)%Z by lia. eauto.
Qed.

Lemma read_holds m p bs : holds m p bs → read_bytes m p (length bs) = Ok bs.
Proof.
  revert p. induction bs as [|b bs IH]; intros p; [done|].
  rewrite holds_cons. intros [Hb H]. simpl. by rewrite Hb, (IH _ H).
Qed.

Lemma mapped_holds m p n :
  (0 ≤ n)%Z → mapped m p n → ∃ bs, length bs = Z.to_nat n ∧ holds m p bs.
Proof.
  intros Hn. rewrite <- (Z2Nat.id n) at 1 by done. generalize (Z.to_nat n). clear n Hn.
  intros n. revert p. induction n as [|n IH]; intros p Hm; [by exists []|].
  destruct (Hm p) as [b Hb]; [unfold in_range; lia|].
  destruct (IH (p + 1)%Z) as (bs & Hl & Hh).
  { intros k Hk. apply Hm. unfold in_range in *. lia. }
  exists (b :: bs). rewrite holds_cons. simpl. auto.
Qed.

Lemma holds_mapped m p bs : holds m p bs → mapped m p (Z.of_nat (length bs)).
Proof.
  intros H k Hk. unfold in_range in Hk.
  destruct (lookup_lt_is_Some_2 bs (Z.to_nat (k - p))) as [b Hb]; [lia|].
  specialize (H _ _ Hb). exists b. rewrite <- H. f_equal. lia.
Qed.

Lemma holds_agree m m' p n bs :
  holds m p bs → agree m m' p n → (Z.of_nat (length bs) ≤ n)%Z → holds m' p bs.
Proof.
  intros H Ha Hn i b Hi. rewrite Ha; [by apply H|].
  apply lookup_lt_Some in Hi. unfold in_range. lia.
Qed.

Lemma mapped_agree m m' p n : mapped m p n → agree m m' p n → mapped m' p n.
Proof. intros H Ha k Hk. rewrite Ha by done. by apply H. Qed.

Lemma agree_sub m m' p n q k :
  agree m m' p n → (p ≤ q)%Z → (q + k ≤ p + n)%Z → agree m m' q k.
Proof. intros H ?? i Hi. apply H. unfold in_range in *. lia. Qed.

Lemma agree_trans m1 m2 m3 p n : agree m1 m2 p n → agree m2 m3 p n → agree m1 m3 p n.
Proof. intros H1 H2 k Hk. by rewrite H2, H1. Qed.

(** A write changes its range and nothing else. *)
Lemma write_ok m p bs :
  mapped m p (Z.of_nat (length bs)) →
  ∃ m', write_bytes m p bs = Ok m' ∧ holds m' p bs ∧
    ∀ k, ¬ in_range p (Z.of_nat (length bs)) k → m' !! k = m !! k.
Proof.
  revert m p. induction bs as [|b bs IH]; intros m p Hm; [by exists m|].
  destruct (Hm p) as [c Hc]; [unfold in_range; simpl; lia|].
  destruct (IH (<[p := b]> m) (p + 1)%Z) as (m' & E & Hh & Hk).
  { intros k Hk. destruct (decide (k = p)) as [->|]; [rewrite lookup_insert_eq; eauto|].
    rewrite lookup_insert_ne by done. apply Hm. unfold in_range in *. simpl. lia. }
  exists m'. simpl. rewrite Hc. repeat split; [done| |].
  - apply holds_cons. split; [|done].
    rewrite Hk by (unfold in_range; lia). apply lookup_insert_eq.
  - intros k Hn. rewrite Hk by (unfold in_range in *; simpl in Hn; lia).
    apply lookup_insert_ne. intros ->. apply Hn. unfold in_range. simpl. lia.
Qed.

(** A write and an outside range. *)
Lemma agree_outside m m' p n q k :
  (∀ i, ¬ in_range p n i → m' !! i = m !! i) →
  (p + n ≤ q ∨ q + k ≤ p)%Z → agree m m' q k.
Proof. intros H Hd i Hi. apply H. unfold in_range in *. lia. Qed.

(** ** Words *)

Lemma le_bytes_length n z : length (le_bytes n z) = n.
Proof. revert z. induction n as [|n IH]; intros z; simpl; [done|]. by rewrite IH. Qed.

Lemma le_value_bytes n z : (0 ≤ z < 256 ^ Z.of_nat n)%Z → le_value (le_bytes n z) = z.
Proof.
  revert z. induction n as [|n IH]; intros z Hz.
  - change (256 ^ Z.of_nat 0)%Z with 1%Z in Hz. simpl. lia.
  - simpl. rewrite Nat2Z.inj_succ, Z.pow_succ_r in Hz by lia.
    rewrite IH, byteZ_Zbyte.
    + rewrite (Z.div_mod z 256) at 3 by lia. lia.
    + split; [apply Z.div_pos; lia|]. apply Z.div_lt_upper_bound; lia.
Qed.

Definition holds_word (m : bytemem) (p v : Z) : Prop := holds m p (le_bytes 8 v).

Lemma load_word_ok m p v :
  p ≠ 0%Z → (0 ≤ v < word_max)%Z → holds_word m p v → load_word m p = Ok v.
Proof.
  intros Hp Hv H%read_holds. rewrite le_bytes_length in H. unfold load_word.
  rewrite (proj2 (Z.eqb_neq _ _)) by done. rewrite H. cbn [mbind res_bind].
  by rewrite le_value_bytes.
Qed.

Lemma store_word_ok m p v :
  p ≠ 0%Z → mapped m p 8 →
  ∃ m', store_word m p v = Ok m' ∧ holds_word m' p v ∧
    ∀ k, ¬ in_range p 8 k → m' !! k = m !! k.
Proof.
  intros Hp Hm. unfold store_word. rewrite (proj2 (Z.eqb_neq _ _)) by done.
  pose proof (write_ok m p (le_bytes 8 v)) as H. rewrite le_bytes_length in H. by apply H.
Qed.

Lemma mapped_write m m' p n q k :
  mapped m q k → (∀ i, ¬ in_range p n i → m' !! i = m !! i) → mapped m' p n →
  mapped m' q k.
Proof.
  intros Hm Hk Hp i Hi. destruct (decide (in_range p n i)) as [|Hn]; [auto|].
  rewrite Hk by done. auto.
Qed.

Lemma holds_word_mapped m p v : holds_word m p v → mapped m p 8.
Proof. intros H%holds_mapped. by rewrite le_bytes_length in H. Qed.

Lemma holds_word_agree m m' p v n :
  holds_word m p v → agree m m' p n → (8 ≤ n)%Z → holds_word m' p v.
Proof. intros H Ha Hn. eapply holds_agree; [done..|]. by rewrite le_bytes_length. Qed.
