(* ===== verification/StlAlloc.v ===== *)
(** * StlAlloc: the pool allocator (sgi_stl_learn/stl_alloc.h)

    The state has the static members of [__default_alloc_template], the memory and
    the blocks that [malloc] gave.  A pointer is an address; a pointer into
    [_S_free_list] is an index, [None] as long as the variable has no value.

    The header names [result], [_S_oom_alloc] and [__M_free_list_link] where it
    declares [__result], [_S_oom_malloc] and [_M_free_list_link]: they are read as
    the declared names.  [_S_oom_malloc] and [_S_oom_realloc] are declared and not
    defined: like the C library they are fields of [libc]. *)
From stdpp Require Import gmap list.
From Stdlib Require Import ZArith Strings.Byte.
From S2P Require Import Prelude Bytes ByteMem.

(** ** Data *)

Definition _ALIGN : Z := 8.
Definition _MAX_BYTES : Z := 128.
Definition _NFREELISTS : Z := 16.

(** What the C library and the handlers of exhausted memory answer: from the blocks
    in use (start and size), the arguments; 0 is NULL, and [None] of a handler that
    it does not return. *)
Record libc := Libc {
  malloc_at : gmap Z Z → Z → Z;
  realloc_at : gmap Z Z → Z → Z → Z;
  oom_malloc : gmap Z Z → Z → option Z;
  oom_realloc : gmap Z Z → Z → Z → option Z;
  junk : Z → byte                   (* the content of fresh memory *)
}.

Record alst := Alst {
  _S_free_list : list Z;
  _S_start_free : Z;
  _S_end_free : Z;
  _S_heap_size : Z;
  mem : bytemem;
  blocks : gmap Z Z
}.

(** The initial values of the static members. *)
Definition init_alloc : alst := Alst (replicate 16 0%Z) 0 0 0 ∅ ∅.

#[global] Instance ast_eq_dec : EqDecision alst.
Proof. solve_decision. Defined.

(** ** Field updates *)

Definition set_list v s :=
  Alst v (_S_start_free s) (_S_end_free s) (_S_heap_size s) (mem s) (blocks s).
Definition set_start v s :=
  Alst (_S_free_list s) v (_S_end_free s) (_S_heap_size s) (mem s) (blocks s).
Definition set_end v s :=
  Alst (_S_free_list s) (_S_start_free s) v (_S_heap_size s) (mem s) (blocks s).
Definition set_heap_size v s :=
  Alst (_S_free_list s) (_S_start_free s) (_S_end_free s) v (mem s) (blocks s).
Definition set_memory v b s :=
  Alst (_S_free_list s) (_S_start_free s) (_S_end_free s) (_S_heap_size s) v b.

(** ** Memory *)

(** The link of the free object at [p], and a store to it. *)
Definition get_link (p : Z) : M alst Z := m ← gets mem; lift (load_word m p).
Definition put_link (p v : Z) : M alst unit :=
  s ← gets id; m ← lift (store_word (mem s) p v); modify (set_memory m (blocks s)).

(** [*my] and [*my = v] *)
Definition get_list (my : option Z) : M alst Z :=
  match my with
  | None => fail FUninit
  | Some i => l ← gets _S_free_list; lift (aget l i)
  end.
Definition put_list (my : option Z) (v : Z) : M alst unit :=
  match my with
  | None => fail FUninit
  | Some i => l ← gets _S_free_list; l' ← lift (aset l i v); modify (set_list l')
  end.

(** The blocks of the C library. *)
Definition unmap (m : bytemem) (p n : Z) : bytemem := filter (λ kb, ¬ in_range p n kb.1) m.
Definition del_block (p : Z) : M alst unit :=
  s ← gets id;
  match blocks s !! p with
  | None => fail FDangling
  | Some n => modify (set_memory (unmap (mem s) p n) (delete p (blocks s)))
  end.

Section StlAlloc.
Context (L : libc).

Definition add_block (p n : Z) : M alst unit :=
  modify (λ s, set_memory (map_seqZ p (junk L <$> seqZ p n) ∪ mem s) (<[p := n]> (blocks s)) s).

Definition malloc (n : Z) : M alst Z :=
  b ← gets blocks;
  let p := malloc_at L b n in
  if (p =? 0)%Z then mret 0%Z else add_block p n;; mret p.

Definition free (p : Z) : M alst unit := if (p =? 0)%Z then mret tt else del_block p.

(** [memcpy] *)
Definition memcpy (q p n : Z) : M alst unit :=
  s ← gets id;
  bs ← lift (read_bytes (mem s) p (Z.to_nat n));
  m ← lift (write_bytes (mem s) q bs);
  modify (set_memory m (blocks s)).

(** The block moves to [q] with its content. *)
Definition move_block (p n q : Z) : M alst unit :=
  s ← gets id;
  match blocks s !! p with
  | None => fail FDangling
  | Some m =>
    bs ← lift (read_bytes (mem s) p (Z.to_nat (Z.min m n)));
    del_block p;;
    add_block q n;;
    s ← gets id;
    mem' ← lift (write_bytes (mem s) q bs);
    modify (set_memory mem' (blocks s))
  end.

Definition realloc (p n : Z) : M alst Z :=
  if (p =? 0)%Z then malloc n
  else
    b ← gets blocks;
    let q := realloc_at L b p n in
    if (q =? 0)%Z then mret 0%Z else move_block p n q;; mret q.

(** ** malloc_alloc *)

Definition _S_oom_malloc (n : Z) : M alst Z :=
  b ← gets blocks;
  match oom_malloc L b n with
  | None => fail FAlloc
  | Some p => if (p =? 0)%Z then mret 0%Z else add_block p n;; mret p
  end.
Definition _S_oom_realloc (p n : Z) : M alst Z :=
  b ← gets blocks;
  match oom_realloc L b p n with
  | None => fail FAlloc
  | Some q => if (q =? 0)%Z then mret 0%Z else move_block p n q;; mret q
  end.

Definition malloc_allocate (n : Z) : M alst Z :=
  result ← malloc n;
  if (result =? 0)%Z then _S_oom_malloc n else mret result.

Definition malloc_deallocate (p _n : Z) : M alst unit := free p.

Definition malloc_reallocate (p _old_sz new_sz : Z) : M alst Z :=
  result ← realloc p new_sz;
  if (result =? 0)%Z then _S_oom_realloc p new_sz else mret result.

(** ** __default_alloc_template *)

Definition _S_round_up (bytes : Z) : Z :=
  Z.land (u64 (bytes + (_ALIGN - 1))) (u64 (Z.lnot (_ALIGN - 1))).

Definition _S_freelist_index (bytes : Z) : Z :=
  u64 (u64 (bytes + (_ALIGN - 1)) `div` _ALIGN - 1).

(** [_S_free_list + _S_freelist_index(n)] *)
Definition list_of (n : Z) : option Z := Some (_S_freelist_index n).

(** The loop over the free lists of the objects of [i] bytes and more: the first
    one that is not empty gives its object to the pool. *)
Fixpoint scavenge (fuel : nat) (i : Z) : M alst bool :=
  match fuel with
  | O => fail FFuel
  | S fuel' =>
    if (i <=? _MAX_BYTES)%Z then
      p ← get_list (list_of i);
      if (p =? 0)%Z then scavenge fuel' (u64 (i + _ALIGN))
      else
        next ← get_link p;
        put_list (list_of i) next;;
        modify (set_start p);;
        modify (set_end (p + i));;
        mret true
    else mret false
  end.

(** At most 17 sizes from [size] on are tried. *)
Definition scavenge_fuel : nat := 18.

(** What is left of the pool becomes a free object. *)
Definition save_left (bytes_left : Z) : M alst unit :=
  when (0 <? bytes_left)%Z
    (start ← gets _S_start_free;
     old ← get_list (list_of bytes_left);
     put_link start old;;
     put_list (list_of bytes_left) start).

(** A new pool, before the chunk is asked for again. *)
Definition more_memory (size bytes_to_get : Z) : M alst unit :=
  p ← malloc bytes_to_get;
  modify (set_start p);;
  found ← (if (p =? 0)%Z then scavenge scavenge_fuel size else mret false);
  when (negb found)
    (when (p =? 0)%Z
       (modify (set_end 0);;
        p ← malloc_allocate bytes_to_get;
        modify (set_start p));;
     modify (λ s, set_heap_size (u64 (_S_heap_size s + bytes_to_get)) s);;
     modify (λ s, set_end (_S_start_free s + bytes_to_get) s)).

(** The result is the chunk and the new value of [nobjs]. *)
Fixpoint _S_chunk_alloc (fuel : nat) (size nobjs : Z) : M alst (Z * Z) :=
  match fuel with
  | O => fail FFuel
  | S fuel' =>
    s ← gets id;
    let total_bytes := u64 (size * u64 nobjs) in
    let bytes_left := u64 (_S_end_free s - _S_start_free s) in
    if (total_bytes <=? bytes_left)%Z then
      modify (set_start (_S_start_free s + total_bytes));;
      mret (_S_start_free s, nobjs)
    else if (size <=? bytes_left)%Z then
      if (size =? 0)%Z then fail FDivZero else
      let nobjs := s32 (bytes_left `div` size) in
      let total_bytes := u64 (size * u64 nobjs) in
      modify (set_start (_S_start_free s + total_bytes));;
      mret (_S_start_free s, nobjs)
    else
      let bytes_to_get :=
        u64 (2 * total_bytes + _S_round_up (Z.shiftr (_S_heap_size s) 4)) in
      save_left bytes_left;;
      more_memory size bytes_to_get;;
      _S_chunk_alloc fuel' size nobjs
  end.

(** The call after one that got memory is the last. *)
Definition chunk_fuel : nat := 2.

(** The objects from [current] on, the [i]-th to the last of the chunk. *)
Fixpoint link_objects (fuel : nat) (n nobjs i current : Z) : M alst unit :=
  match fuel with
  | O => fail FFuel
  | S fuel' =>
    let next := (current + n)%Z in
    if (nobjs - 1 =? i)%Z then put_link current 0
    else put_link current next;; link_objects fuel' n nobjs (i + 1) next
  end.

(** [__my_free_list] is declared without a value and never assigned. *)
Definition _S_refill (n : Z) : M alst Z :=
  '(chunk, nobjs) ← _S_chunk_alloc chunk_fuel n 20;
  let my_free_list := None in
  if (nobjs =? 1)%Z then mret chunk
  else
    put_list my_free_list (chunk + n);;
    link_objects (Z.to_nat nobjs) n nobjs 1 (chunk + n);;
    mret chunk.

Definition allocate (n : Z) : M alst Z :=
  if (_MAX_BYTES <? n)%Z then malloc_allocate n
  else
    result ← get_list (list_of n);
    if (result =? 0)%Z then _S_refill (_S_round_up n)
    else
      next ← get_link result;
      put_list (list_of n) next;;
      mret result.

Definition deallocate (p n : Z) : M alst unit :=
  if (_MAX_BYTES <? n)%Z then malloc_deallocate p n
  else
    old ← get_list (list_of n);
    put_link p old;;
    put_list (list_of n) p.

Definition reallocate (p old_sz new_sz : Z) : M alst Z :=
  if (_MAX_BYTES <? old_sz)%Z && (_MAX_BYTES <? new_sz)%Z then realloc p new_sz
  else if (_S_round_up old_sz =? _S_round_up new_sz)%Z then mret p
  else
    result ← allocate new_sz;
    let copy_sz := if (old_sz <? new_sz)%Z then old_sz else new_sz in
    memcpy result p copy_sz;;
    deallocate p old_sz;;
    mret result.

End StlAlloc.

(** ** simple_alloc *)

(** The template parameter [_Alloc]. *)
Record allocator := Allocator {
  al_allocate : Z → M alst Z;
  al_deallocate : Z → Z → M alst unit
}.

Definition malloc_alloc (L : libc) : allocator :=
  Allocator (malloc_allocate L) malloc_deallocate.
Definition default_alloc (L : libc) : allocator := Allocator (allocate L) deallocate.

Section SimpleAlloc.
Context (size_of : Z) (A : allocator).       (* sizeof(_Tp) and _Alloc *)

Definition simple_allocate_n (n : Z) : M alst Z :=
  if (n =? 0)%Z then mret 0%Z else al_allocate A (u64 (n * size_of)).
Definition simple_allocate : M alst Z := al_allocate A size_of.
Definition simple_deallocate_n (p n : Z) : M alst unit :=
  when (negb (n =? 0)%Z) (al_deallocate A p (u64 (n * size_of))).
Definition simple_deallocate (p : Z) : M alst unit := al_deallocate A p size_of.

End SimpleAlloc.

(** ** _Vector_base (stl_vector.h) *)

Record vector_base := VectorBase {
  _M_start : Z;
  _M_finish : Z;
  _M_end_of_storage : Z
}.

Section VectorBase.
Context (size_of : Z) (A : allocator).

Definition _M_allocate (n : Z) : M alst Z := simple_allocate_n size_of A n.
Definition _M_deallocate (p n : Z) : M alst unit := simple_deallocate_n size_of A p n.

(** The two constructors and the destructor; the difference of two pointers is a
    number of elements. *)
Definition _Vector_base : M alst vector_base := mret (VectorBase 0 0 0).
Definition _Vector_base_n (n : Z) : M alst vector_base :=
  p ← _M_allocate n; mret (VectorBase p p (p + n * size_of)).
Definition _Vector_base_destroy (v : vector_base) : M alst unit :=
  _M_deallocate (_M_start v) (u64 ((_M_end_of_storage v - _M_start v) `div` size_of)).

End VectorBase.
