(* ===== verification/StlAllocInv.v ===== *)
(** * StlAllocInv: the memory of the pool allocator cut into areas

    Every byte of the chunks that the allocator got is in the pool, in an object of a
    free list or in a block of a client.  These areas are apart; an operation moves
    an area from one owner to another, or cuts it. *)
From stdpp Require Import gmap list.
From Stdlib Require Import ZArith Strings.Byte.
From S2P Require Import Prelude Bytes ByteMem StlAlloc.
Open Scope Z_scope.

(** ** Areas *)

Abbreviation area := (Z * Z)%type.

Definition disj (a b : area) : Prop := a.1 + a.2 ≤ b.1 ∨ b.1 + b.2 ≤ a.1.

Fixpoint apart (l : list area) : Prop :=
  match l with [] => True | a :: l' => Forall (disj a) l' ∧ apart l' end.

Definition total (l : list area) : Z := foldr (λ a n, a.2 + n) 0 l.

#[global] Instance disj_sym : Symmetric disj.
Proof. intros a b. unfold disj. tauto. Qed.

#[global] Instance apart_perm : Proper ((≡ₚ) ==> iff) apart.
Proof.
  assert (∀ l k : list area, l ≡ₚ k → apart l → apart k) as H.
  { intros l k H. induction H as [|a l k P IH|a b l|]; simpl; [done| | |tauto].
    - intros [Ha Hl]. split; [by rewrite <- P|auto].
    - rewrite !Forall_cons. intros [[Hba Hb] [Ha Hl]]. repeat split; [by symmetry|done..]. }
  intros l k P. split; apply H; [done|by symmetry].
Qed.

#[global] Instance total_perm : Proper ((≡ₚ) ==> eq) total.
Proof. intros l k P. induction P; simpl; lia. Qed.

Lemma apart_app l k :
  apart (l ++ k) ↔ apart l ∧ apart k ∧ Forall (λ a, Forall (disj a) k) l.
Proof.
  induction l as [|a l IH]; simpl.
  - split; [|tauto]. auto.
  - rewrite Forall_app, Forall_cons, IH. tauto.
Qed.

Lemma total_app l k : total (l ++ k) = total l + total k.
Proof. induction l as [|a l IH]; simpl; lia. Qed.

(** Cutting an area in two. *)
Lemma disj_cut p n k a :
  0 ≤ n → 0 ≤ k → disj (p, n + k) a → disj (p, n) a ∧ disj (p + n, k) a.
Proof. unfold disj. simpl. lia. Qed.

Lemma apart_cut p n k l :
  0 ≤ n → 0 ≤ k → apart ((p, n + k) :: l) → apart ((p, n) :: (p + n, k) :: l).
Proof.
  intros Hn Hk [Ha Hl]. simpl. rewrite Forall_cons. repeat split; [|..|done].
  - unfold disj. simpl. lia.
  - eapply Forall_impl; [exact Ha|]. intros a H. by apply (disj_cut p n k).
  - eapply Forall_impl; [exact Ha|]. intros a H. by apply (disj_cut p n k).
Qed.

(** ** The free lists *)

(** A list of free objects, linked through their first words. *)
Fixpoint chain (m : bytemem) (p : Z) (ps : list Z) : Prop :=
  match ps with
  | [] => p = 0
  | q :: qs =>
    p = q ∧ 0 < q < word_max ∧ ∃ next, 0 ≤ next < word_max ∧ holds_word m q next ∧
    chain m next qs
  end.

(** The objects of the list [i] have [8 * (i + 1)] bytes. *)
Definition objects (i : nat) (ps : list Z) : list area :=
  (λ p, (p, 8 * (Z.of_nat i + 1))) <$> ps.
Definition free_areas (lists : list (list Z)) : list area := concat (imap objects lists).

Lemma free_areas_insert lists i ps ps' : lists !! i = Some ps →
  free_areas (<[i := ps']> lists) ++ objects i ps ≡ₚ free_areas lists ++ objects i ps'.
Proof.
  intros Hi. pose proof (lookup_lt_Some _ _ _ Hi) as Hl.
  rewrite <- (take_drop_middle lists i ps Hi) at 2.
  rewrite insert_take_drop by done.
  unfold free_areas. rewrite !imap_app, !concat_app. simpl.
  rewrite !length_take, !Nat.min_l, !Nat.add_0_r by lia.
  rewrite <- !(assoc_L (++)). solve_Permutation.
Qed.

Lemma chain_ext m m' p ps :
  chain m p ps → Forall (λ q, agree m m' q 8) ps → chain m' p ps.
Proof.
  revert p. induction ps as [|q ps IH]; intros p; simpl; [done|].
  intros (-> & Hq & next & Hn & Hw & Hc) [Ha Hps]%Forall_cons.
  repeat split; [tauto..|]. exists next. split; [done|].
  split; [by eapply holds_word_agree|eauto].
Qed.

Lemma chain_null m p ps : chain m p ps → p = 0 ↔ ps = [].
Proof. destruct ps; simpl; [done|]. intros (-> & ? & _). split; [lia|done]. Qed.

Lemma chain_range m p ps : chain m p ps → 0 ≤ p < word_max.
Proof. destruct ps; simpl; [unfold word_max; lia|lia]. Qed.

(** ** The invariant *)

Definition within (c a : area) : Prop := c.1 ≤ a.1 ∧ a.1 + a.2 ≤ c.1 + c.2.

(** An area of a chunk, or the pool before there is a chunk. *)
Definition in_chunks (chunks : list area) (a : area) : Prop :=
  a = (0, 0) ∨ Exists (λ c, within c a) chunks.

Definition aligned (a : area) : Prop := a.1 mod 8 = 0 ∧ a.2 mod 8 = 0 ∧ 0 ≤ a.2.

Definition good_block (c : area) : Prop :=
  0 < c.1 ∧ c.1 mod 8 = 0 ∧ 0 < c.2 ∧ c.1 + c.2 ≤ 9223372036854775808.

(** [small] are the areas of the chunks that are in no free list, [big] the blocks
    that were taken from [malloc] for a client. *)
Record owns (s : alst) (lists : list (list Z)) (chunks small big : list area) : Prop := Owns {
  own_16 : length lists = 16%nat;
  own_chain : Forall2 (chain (mem s)) (_S_free_list s) lists;
  own_apart : apart (free_areas lists ++ small ++ big);
  own_aligned : Forall aligned (free_areas lists ++ small);
  own_in : Forall (in_chunks chunks) (free_areas lists ++ small);
  own_mapped : Forall (λ a, mapped (mem s) a.1 a.2) (free_areas lists ++ small ++ big);
  own_total : total (free_areas lists ++ small) = total chunks;
  own_blocks : map_to_list (blocks s) ≡ₚ chunks ++ big;
  own_good : Forall good_block (chunks ++ big)
}.

Definition has (s : alst) (small big : list area) : Prop :=
  ∃ lists chunks, owns s lists chunks small big.

(** The areas keep their content. *)
Definition kept (l : list area) (s s' : alst) : Prop :=
  Forall (λ a, agree (mem s) (mem s') a.1 a.2) l.

Lemma kept_refl l s : kept l s s.
Proof. apply Forall_forall. intros a _ k _. done. Qed.

Lemma areas_kept_trans l s1 s2 s3 : kept l s1 s2 → kept l s2 s3 → kept l s1 s3.
Proof.
  intros H1 H2. apply Forall_lookup_2. intros i a Ha.
  eapply agree_trans; [exact (Forall_lookup_1 _ _ _ _ H1 Ha)|
    exact (Forall_lookup_1 _ _ _ _ H2 Ha)].
Qed.

Lemma kept_cons a l s s' : kept (a :: l) s s' → kept l s s'.
Proof. by intros [_ H]%Forall_cons. Qed.

(** The areas of the invariant are a multiset. *)
#[global] Instance owns_perm s lists chunks :
  Proper ((≡ₚ) ==> (≡ₚ) ==> impl) (owns s lists chunks).
Proof.
  intros sm sm' Psm bg bg' Pbg [? ? ? ? ? ? ? ? ?].
  split; rewrite <- ?Psm, <- ?Pbg; done.
Qed.

#[global] Instance has_perm s : Proper ((≡ₚ) ==> (≡ₚ) ==> impl) (has s).
Proof.
  intros sm sm' Psm bg bg' Pbg (lists & chunks & H). exists lists, chunks.
  by rewrite <- Psm, <- Pbg.
Qed.

(** The other fields of the state do not matter. *)
Lemma has_ext s s' small big :
  _S_free_list s' = _S_free_list s → mem s' = mem s → blocks s' = blocks s →
  has s small big → has s' small big.
Proof.
  intros E1 E2 E3 (lists & chunks & []). exists lists, chunks.
  split; rewrite ?E1, ?E2, ?E3; done.
Qed.

Lemma in_chunks_block s lists chunks small big a :
  owns s lists chunks small big → a ∈ free_areas lists ++ small →
  a = (0, 0) ∨ ∃ p n, blocks s !! p = Some n ∧ within (p, n) a ∧ good_block (p, n).
Proof.
  intros H Ha. destruct (proj1 (Forall_forall _ _) (own_in _ _ _ _ _ H) a Ha) as [|Hc];
    [by left|right].
  apply Exists_exists in Hc as ([p n] & Hc & Hw). exists p, n.
  assert ((p, n) ∈ chunks ++ big) as Hin by (apply elem_of_app; auto).
  split; [|split; [done|exact (proj1 (Forall_forall _ _) (own_good _ _ _ _ _ H) _ Hin)]].
  apply elem_of_map_to_list. by rewrite (own_blocks _ _ _ _ _ H).
Qed.

Lemma big_block s lists chunks small big p n :
  owns s lists chunks small big → (p, n) ∈ big → blocks s !! p = Some n ∧ good_block (p, n).
Proof.
  intros H Hp. assert ((p, n) ∈ chunks ++ big) as Hin by (apply elem_of_app; auto).
  split; [|exact (proj1 (Forall_forall _ _) (own_good _ _ _ _ _ H) _ Hin)].
  apply elem_of_map_to_list. by rewrite (own_blocks _ _ _ _ _ H).
Qed.

(** A small area that is not empty has an address. *)
Lemma small_bounds s chunks lists small big p n :
  owns s lists chunks small big → (p, n) ∈ free_areas lists ++ small → 0 < n →
  0 < p ∧ p + n ≤ 9223372036854775808.
Proof.
  intros H Hp Hn. destruct (in_chunks_block _ _ _ _ _ _ H Hp) as [E|(q & m & _ & Hw & Hg)].
  - injection E. lia.
  - unfold within, good_block in *. simpl in *. lia.
Qed.

Lemma small_aligned s chunks lists small big p n :
  owns s lists chunks small big → (p, n) ∈ small → aligned (p, n).
Proof.
  intros H Hp. apply (proj1 (Forall_forall _ _) (own_aligned _ _ _ _ _ H)).
  apply elem_of_app. auto.
Qed.

(** ** Cutting a small area *)

Lemma has_cut s p n k small big :
  has s ((p, n + k) :: small) big → 0 ≤ n → 0 ≤ k → n mod 8 = 0 → k mod 8 = 0 →
  (0 < n + k) → has s ((p, n) :: (p + n, k) :: small) big.
Proof.
  intros (lists & chunks & H) Hn Hk Mn Mk Hnk. exists lists, chunks.
  assert (Hp : (p, n + k) ∈ free_areas lists ++ (p, n + k) :: small) by set_solver.
  destruct H as [? ? Hap Hal Hin Hm Ht ? ?].
  rewrite Forall_app, Forall_cons in Hal, Hin.
  destruct Hal as (Hal1 & (Mp & _ & _) & Hal2). destruct Hin as (Hin1 & Hp' & Hin2).
  split; [done|done| | | | | |done|done].
  - rewrite <- !app_comm_cons. rewrite <- !Permutation_middle in *.
    rewrite <- app_comm_cons in Hap. rewrite <- Permutation_middle in Hap.
    by apply apart_cut.
  - rewrite Forall_app, !Forall_cons. unfold aligned in *. simpl in *.
    rewrite Z.add_mod, Mp, Mn by lia. repeat split; try done; lia.
  - rewrite Forall_app, !Forall_cons.
    destruct Hp' as [[= -> ?]|Hc]; [lia|].
    repeat split; [done| | |done]; right; (eapply Exists_impl; [exact Hc|]);
      unfold within; simpl; intros; lia.
  - cbn [app] in *. rewrite Forall_app, ?Forall_cons in *.
    destruct Hm as (Hm1 & Hm & Hm2). repeat split; [done| | |done];
      intros i Hi; apply Hm; unfold in_range in *; simpl in *; lia.
  - rewrite !total_app in *. simpl in *. lia.
Qed.

(** ** Moving areas between the free lists and the others *)

Lemma agree_disj m m' (l : list area) (a : area) :
  (∀ k, Forall (λ b, ¬ in_range b.1 b.2 k) l → m' !! k = m !! k) →
  Forall (λ b, disj b a) l → agree m m' a.1 a.2.
Proof.
  intros H Hd k Hk. apply H. eapply Forall_impl; [exact Hd|].
  intros b Hb. unfold disj, in_range in *. lia.
Qed.

Lemma mapped_agrees m m' (l : list area) :
  Forall (λ a, mapped m a.1 a.2) l → Forall (λ a, agree m m' a.1 a.2) l →
  Forall (λ a, mapped m' a.1 a.2) l.
Proof.
  intros H1 H2. apply Forall_lookup_2. intros i a Ha.
  eapply mapped_agree; [exact (Forall_lookup_1 _ _ _ _ H1 Ha)|
    exact (Forall_lookup_1 _ _ _ _ H2 Ha)].
Qed.

Lemma elem_free_areas lists i ps p :
  lists !! i = Some ps → p ∈ ps → (p, 8 * (Z.of_nat i + 1)) ∈ free_areas lists.
Proof.
  intros Hi Hp. unfold free_areas. apply list_elem_of_In, in_concat. exists (objects i ps).
  split; apply list_elem_of_In.
  - apply list_elem_of_lookup. exists i. rewrite list_lookup_imap, Hi. done.
  - unfold objects. apply list_elem_of_fmap. by exists p.
Qed.

(** The areas [moved] are written and become objects of the list [i]. *)
Lemma owns_push s lists chunks moved small big i ps ps' v m' :
  owns s lists chunks (moved ++ small) big → lists !! i = Some ps →
  (∀ k, Forall (λ b, ¬ in_range b.1 b.2 k) moved → m' !! k = mem s !! k) →
  Forall (λ a, mapped m' a.1 a.2) moved → chain m' v ps' →
  objects i ps' ≡ₚ objects i ps ++ moved →
  owns (set_list (<[i := v]> (_S_free_list s)) (set_memory m' (blocks s) s))
    (<[i := ps']> lists) chunks small big ∧
  Forall (λ a, agree (mem s) m' a.1 a.2) (small ++ big).
Proof.
  intros [H16 Hch Hap Hal Hin Hm Ht Hb Hg] Hi Hout Hmm Hv Hobj.
  assert (Hfree : free_areas (<[i := ps']> lists) ++ small ≡ₚ
    free_areas lists ++ moved ++ small).
  { apply (Permutation_app_inv_r (objects i ps)).
    rewrite <- (assoc_L (++)), (comm (++) small), (assoc_L (++)).
    rewrite (free_areas_insert _ _ _ ps' Hi), Hobj. solve_Permutation. }
  assert (Hall : free_areas (<[i := ps']> lists) ++ small ++ big ≡ₚ
    free_areas lists ++ (moved ++ small) ++ big).
  { by rewrite (assoc_L (++)), Hfree, <- !(assoc_L (++)). }
  assert (Hagree : Forall (λ a, agree (mem s) m' a.1 a.2) (free_areas lists ++ small ++ big)).
  { assert (apart (moved ++ free_areas lists ++ small ++ big)) as Hap'.
    { eapply apart_perm; [|exact Hap]. solve_Permutation. }
    rewrite apart_app in Hap'. destruct Hap' as (_ & _ & Hd).
    apply Forall_forall. intros a Ha. apply (agree_disj _ _ moved); [done|].
    eapply Forall_impl; [exact Hd|]. intros b Hd'. by apply (proj1 (Forall_forall _ _) Hd'). }
  split; [split; simpl|]; [by rewrite length_insert| | | | | |by rewrite Hfree|done..|].
  - apply Forall2_lookup. intros j. destruct (decide (j = i)) as [->|Hj].
    + pose proof (Forall2_length _ _ _ Hch) as Hl. pose proof (lookup_lt_Some _ _ _ Hi).
      rewrite !list_lookup_insert_eq by lia. by constructor.
    + rewrite !list_lookup_insert_ne by done.
      pose proof (proj1 (Forall2_lookup _ _ _) Hch j) as Hcj.
      inversion Hcj as [p qs Hpq Ep Eq|]; constructor.
      apply (chain_ext (mem s)); [done|]. apply Forall_forall. intros q Hq.
      symmetry in Eq. pose proof (elem_free_areas lists j qs q Eq Hq) as Hin'.
      apply (agree_sub _ _ q (8 * (Z.of_nat j + 1))); [|lia..].
      apply (proj1 (Forall_forall _ _) Hagree (_, _)). apply elem_of_app. by left.
  - by rewrite Hall.
  - by rewrite Hfree.
  - by rewrite Hfree.
  - rewrite Hall. rewrite !Forall_app in *. destruct Hm as (Hm1 & [_ Hm2] & Hm3).
    destruct Hagree as (Ha1 & Ha2 & Ha3).
    repeat split; [|done|..]; eauto using mapped_agrees.
  - rewrite Forall_app in Hagree. tauto.
Qed.

Lemma free_areas_pop lists i q ps : lists !! i = Some (q :: ps) →
  free_areas lists ≡ₚ (q, 8 * (Z.of_nat i + 1)) :: free_areas (<[i := ps]> lists).
Proof.
  intros Hi. apply (Permutation_app_inv_r (objects i ps)).
  rewrite <- (free_areas_insert _ _ _ ps Hi). simpl. symmetry. apply Permutation_middle.
Qed.

Lemma owns_chain_at s lists chunks small big i ps :
  owns s lists chunks small big → lists !! i = Some ps →
  ∃ p, _S_free_list s !! i = Some p ∧ chain (mem s) p ps.
Proof.
  intros H Hi. pose proof (proj1 (Forall2_lookup _ _ _) (own_chain _ _ _ _ _ H) i) as Hc.
  rewrite Hi in Hc. inversion Hc. eauto.
Qed.

Lemma owns_pop s lists chunks small big i q ps next :
  owns s lists chunks small big → lists !! i = Some (q :: ps) → chain (mem s) next ps →
  owns (set_list (<[i := next]> (_S_free_list s)) s) (<[i := ps]> lists) chunks
    ((q, 8 * (Z.of_nat i + 1)) :: small) big.
Proof.
  intros [H16 Hch Hap Hal Hin Hm Ht Hb Hg] Hi Hn.
  assert (Hp : free_areas (<[i := ps]> lists) ++ (q, 8 * (Z.of_nat i + 1)) :: small ≡ₚ
    free_areas lists ++ small).
  { rewrite (free_areas_pop _ _ _ _ Hi). simpl. symmetry. apply Permutation_middle. }
  assert (Hp' : free_areas (<[i := ps]> lists) ++ ((q, 8 * (Z.of_nat i + 1)) :: small) ++ big ≡ₚ
    free_areas lists ++ small ++ big).
  { by rewrite (assoc_L (++)), Hp, <- (assoc_L (++)). }
  split; simpl; rewrite ?Hp, ?Hp'; [by rewrite length_insert| |done..].
  apply Forall2_lookup. intros j. destruct (decide (j = i)) as [->|Hj].
  - pose proof (Forall2_length _ _ _ Hch) as Hl. pose proof (lookup_lt_Some _ _ _ Hi).
    rewrite !list_lookup_insert_eq by lia. by constructor.
  - rewrite !list_lookup_insert_ne by done. by apply Forall2_lookup.
Qed.

(** ** The blocks of the C library *)

Definition fresh (b : gmap Z Z) (p n : Z) : Prop :=
  good_block (p, n) ∧ ∀ q m, b !! q = Some m → disj (q, m) (p, n).

Definition with_block (L : libc) (p n : Z) (s : alst) : alst :=
  set_memory (map_seqZ p (junk L <$> seqZ p n) ∪ mem s) (<[p := n]> (blocks s)) s.

Lemma with_block_mem L p n s k :
  mem (with_block L p n s) !! k =
  if decide (in_range p n k) then Some (junk L k) else mem s !! k.
Proof.
  simpl. destruct (decide _) as [Hk|Hk]; unfold in_range in Hk.
  - apply lookup_union_Some_l. apply lookup_map_seqZ_Some. split; [lia|].
    rewrite list_lookup_fmap, (lookup_seqZ_lt p n) by lia. simpl.
    do 2 f_equal. lia.
  - apply lookup_union_r. apply lookup_map_seqZ_None.
    rewrite length_fmap, length_seqZ. lia.
Qed.

Lemma fresh_disj s lists chunks small big p n a :
  owns s lists chunks small big → fresh (blocks s) p n →
  a ∈ free_areas lists ++ small ++ big → disj a (p, n).
Proof.
  intros H [(Hp & _ & Hn & _) Hf]. rewrite (assoc_L (++)), elem_of_app. intros [Ha|Ha].
  - destruct (in_chunks_block _ _ _ _ _ _ H Ha) as [->|(q & m & Hq & Hw & _)].
    + unfold disj. simpl in *. lia.
    + pose proof (Hf _ _ Hq) as Hd. unfold disj, within in *. simpl in *. lia.
  - destruct a as [q m]. apply Hf, (big_block _ _ _ _ _ _ _ H Ha).
Qed.

Lemma fresh_agree L s lists chunks small big p n :
  owns s lists chunks small big → fresh (blocks s) p n →
  Forall (λ a, agree (mem s) (mem (with_block L p n s)) a.1 a.2)
    (free_areas lists ++ small ++ big).
Proof.
  intros H Hf. apply Forall_forall. intros a Ha k Hk. rewrite with_block_mem.
  pose proof (fresh_disj _ _ _ _ _ _ _ _ H Hf Ha) as Hd.
  rewrite decide_False; [done|]. unfold disj, in_range in *. simpl in *. lia.
Qed.

Lemma fresh_none s lists chunks small big p n :
  owns s lists chunks small big → fresh (blocks s) p n → blocks s !! p = None.
Proof.
  intros H [(Hp & _ & Hn & _) Hf]. destruct (blocks s !! p) as [m|] eqn:E; [|done].
  pose proof (Hf _ _ E) as Hd.
  assert (good_block (p, m)) as (_ & _ & Hm & _).
  { apply (proj1 (Forall_forall _ _) (own_good _ _ _ _ _ H)).
    rewrite <- (own_blocks _ _ _ _ _ H). by apply elem_of_map_to_list. }
  unfold disj in Hd. simpl in *. lia.
Qed.

(** The chains of a memory that has the same free objects. *)
Lemma chains_agree m m' fl lists :
  Forall2 (chain m) fl lists → Forall (λ a, agree m m' a.1 a.2) (free_areas lists) →
  Forall2 (chain m') fl lists.
Proof.
  intros Hc Ha. apply Forall2_lookup. intros j.
  pose proof (proj1 (Forall2_lookup _ _ _) Hc j) as Hj.
  inversion Hj as [q qs Hq Ep Eq|]; constructor.
  apply (chain_ext m); [done|]. apply Forall_forall. intros x Hx.
  symmetry in Eq. pose proof (elem_free_areas lists j qs x Eq Hx) as Hin.
  apply (agree_sub _ _ x (8 * (Z.of_nat j + 1))); [|lia..].
  apply (proj1 (Forall_forall _ _) Ha (_, _) Hin).
Qed.

Lemma owns_block_chain L s lists chunks small big p n :
  owns s lists chunks small big → fresh (blocks s) p n →
  Forall2 (chain (mem (with_block L p n s))) (_S_free_list s) lists.
Proof.
  intros H Hf. eapply chains_agree; [exact (own_chain _ _ _ _ _ H)|].
  pose proof (fresh_agree L _ _ _ _ _ _ _ H Hf) as Ha. rewrite Forall_app in Ha. apply Ha.
Qed.

Lemma with_block_mapped L p n s : mapped (mem (with_block L p n s)) p n.
Proof. intros k Hk. rewrite with_block_mem, decide_True by done. eauto. Qed.

Lemma in_chunks_more chunks c a : in_chunks chunks a → in_chunks (c :: chunks) a.
Proof. intros [->|H]; [by left|right; by apply Exists_cons_tl]. Qed.

(** A block for the pool. *)
Lemma has_chunk L s p n small big :
  has s small big → fresh (blocks s) p n → n mod 8 = 0 →
  has (with_block L p n s) ((p, n) :: small) big ∧
  kept (small ++ big) s (with_block L p n s).
Proof.
  intros (lists & chunks & H) Hf Mn. pose proof (fresh_agree L _ _ _ _ _ _ _ H Hf) as Ha.
  pose proof (fresh_none _ _ _ _ _ _ _ H Hf) as Hnone.
  split; [|by rewrite Forall_app in Ha; apply Ha].
  pose proof (proj1 Hf) as (Hp & Mp & Hn & Hmax). simpl in *.
  pose proof H as [H16 _ Hap Hal Hin Hm Ht Hb Hg].
  exists lists, ((p, n) :: chunks). split.
  - done.
  - exact (owns_block_chain L _ _ _ _ _ _ _ H Hf).
  - cbn [app]. rewrite <- Permutation_middle. split; [|done].
    apply Forall_forall. intros a Ha'. symmetry. by eapply fresh_disj.
  - rewrite <- Permutation_middle. constructor; [|done].
    unfold aligned. simpl. repeat split; [done..|lia].
  - rewrite <- Permutation_middle. constructor.
    + right. constructor. unfold within. simpl. lia.
    + eapply Forall_impl; [exact Hin|]. intros a. apply in_chunks_more.
  - cbn [app]. rewrite <- Permutation_middle. constructor; [apply with_block_mapped|].
    by eapply mapped_agrees.
  - rewrite <- Permutation_middle. simpl. by rewrite (own_total _ _ _ _ _ H).
  - simpl. rewrite map_to_list_insert by done. by rewrite (own_blocks _ _ _ _ _ H).
  - constructor; [apply Hf|done].
Qed.

(** A block for a client. *)
Lemma has_big L s p n small big :
  has s small big → fresh (blocks s) p n →
  has (with_block L p n s) small ((p, n) :: big) ∧
  kept (small ++ big) s (with_block L p n s).
Proof.
  intros (lists & chunks & H) Hf. pose proof (fresh_agree L _ _ _ _ _ _ _ H Hf) as Ha.
  pose proof (fresh_none _ _ _ _ _ _ _ H Hf) as Hnone.
  split; [|by rewrite Forall_app in Ha; apply Ha].
  pose proof H as [H16 _ Hap Hal Hin Hm Ht Hb Hg].
  exists lists, chunks. split.
  - done.
  - exact (owns_block_chain L _ _ _ _ _ _ _ H Hf).
  - rewrite <- !Permutation_middle. split; [|done].
    apply Forall_forall. intros a Ha'. symmetry. by eapply fresh_disj.
  - done.
  - done.
  - rewrite <- !Permutation_middle. constructor; [apply with_block_mapped|].
    by eapply mapped_agrees.
  - done.
  - simpl. rewrite map_to_list_insert by done.
    rewrite (own_blocks _ _ _ _ _ H). apply Permutation_middle.
  - rewrite <- Permutation_middle. constructor; [apply Hf|done].
Qed.

(** Only the content of the other areas changes. *)
Lemma owns_mem s lists chunks small big m' :
  owns s lists chunks small big →
  Forall (λ a, agree (mem s) m' a.1 a.2) (free_areas lists) →
  Forall (λ a, mapped m' a.1 a.2) (small ++ big) →
  owns (set_memory m' (blocks s) s) lists chunks small big.
Proof.
  intros [H16 Hch Hap Hal Hin Hm Ht Hb Hg] Ha Hm'. split; try done.
  - by eapply chains_agree.
  - rewrite Forall_app in Hm |- *. split; [|done]. destruct Hm. by eapply mapped_agrees.
Qed.

Lemma unmap_lookup m p n k :
  unmap m p n !! k = if decide (in_range p n k) then None else m !! k.
Proof.
  unfold unmap. rewrite map_lookup_filter.
  destruct (m !! k) as [x|]; simpl; repeat case_decide || case_guard; try done.
Qed.

Lemma unmap_agree m p n (l : list area) :
  Forall (disj (p, n)) l → Forall (λ a, agree m (unmap m p n) a.1 a.2) l.
Proof.
  intros H. eapply Forall_impl; [exact H|]. intros a Hd k Hk.
  rewrite unmap_lookup, decide_False; [done|]. unfold disj, in_range in *. simpl in *. lia.
Qed.

Definition without_block (p n : Z) (s : alst) : alst :=
  set_memory (unmap (mem s) p n) (delete p (blocks s)) s.

(** A client's block goes back to the C library. *)
Lemma has_free s p n small big :
  has s small ((p, n) :: big) →
  del_block p s = Ok (tt, without_block p n s) ∧
  has (without_block p n s) small big ∧ kept (small ++ big) s (without_block p n s).
Proof.
  intros (lists & chunks & H).
  destruct (big_block _ _ _ _ _ p n H ltac:(by left)) as [Hp Hgp].
  split; [unfold del_block, mbind, M_bind, gets; simpl; by rewrite Hp|].
  assert (Hd : Forall (disj (p, n)) (free_areas lists ++ small ++ big)).
  { pose proof (own_apart _ _ _ _ _ H) as Hap. rewrite <- !Permutation_middle in Hap.
    apply Hap. }
  pose proof (unmap_agree (mem s) p n _ Hd) as Ha.
  split; [|by rewrite Forall_app in Ha; apply Ha].
  destruct H as [H16 Hch Hap Hal Hin Hm Ht Hb Hg]. rewrite <- !Permutation_middle in *.
  exists lists, chunks. split; try done.
  - eapply chains_agree; [done|]. rewrite Forall_app in Ha. apply Ha.
  - apply Hap.
  - apply Forall_cons in Hm as [_ Hm]. by eapply mapped_agrees.
  - apply (Permutation_cons_inv (a := (p, n))). simpl.
    by rewrite map_to_list_delete, Hb by done.
  - by apply Forall_cons in Hg as [_ Hg].
Qed.
