(* ===== verification/StlAllocProofs.v ===== *)
(** * StlAllocProofs: the operations of the pool allocator move its areas

    The objects, the pool and the chunks, then the operations; last what a client of
    the allocator relies on, [serves]. *)
From stdpp Require Import gmap list.
From Stdlib Require Import ZArith Strings.Byte.
From S2P Require Import Prelude Bytes ByteMem StlAlloc StlAllocInv.
Open Scope Z_scope.

(** ** Sizes *)

(** The free list of the objects for [n] bytes, and their size. *)
Definition cls (n : Z) : nat := Z.to_nat ((n - 1) / 8).
Definition rnd (n : Z) : Z := 8 * (Z.of_nat (cls n) + 1).

Lemma cls_bound n : 0 < n ≤ 128 → (cls n < 16)%nat ∧ n ≤ rnd n < n + 8 ∧ 8 ≤ rnd n.
Proof.
  intros Hn. unfold rnd, cls. pose proof (Z.div_mod (n - 1) 8 ltac:(lia)).
  pose proof (Z.mod_pos_bound (n - 1) 8 ltac:(lia)). lia.
Qed.

Lemma rnd_mod n : rnd n mod 8 = 0.
Proof. unfold rnd. rewrite Z.mul_comm. apply Z.mod_mul. lia. Qed.

Lemma cls_rnd n : 0 < n ≤ 128 → cls (rnd n) = cls n ∧ 0 < rnd n ≤ 128.
Proof.
  intros Hn. destruct (cls_bound n Hn) as (Hc & Hr & _). split; [|unfold rnd in *; lia].
  unfold rnd. set (c := cls n). unfold cls.
  replace (8 * (Z.of_nat c + 1) - 1) with (7 + Z.of_nat c * 8) by lia.
  rewrite Z.div_add by lia. change (7 / 8) with 0. lia.
Qed.

Lemma rnd_id n : 0 < n → n mod 8 = 0 → rnd n = n.
Proof.
  intros Hn Hm. apply Z.mod_divide in Hm as [k ->]; [|lia]. unfold rnd, cls.
  replace (k * 8 - 1) with (7 + (k - 1) * 8) by lia.
  rewrite Z.div_add by lia. change (7 / 8) with 0. lia.
Qed.

Lemma round_up_spec n :
  0 ≤ n < word_max - 7 → _S_round_up n = 8 * ((n + 7) / 8).
Proof.
  unfold _S_round_up, _ALIGN, word_max. intros Hn. rewrite (u64_id (n + (8 - 1))) by lia.
  set (x := n + (8 - 1)). unfold u64. change 18446744073709551616 with (2 ^ 64).
  rewrite <- Z.land_ones, (Z.land_comm (Z.lnot _)), Z.land_assoc, Z.land_ones by lia.
  rewrite Z.mod_small by (unfold x; change (2 ^ 64) with 18446744073709551616; lia).
  rewrite <- Z.ldiff_land. change (8 - 1) with (Z.ones 3).
  rewrite Z.ldiff_ones_r, Z.shiftl_mul_pow2, Z.shiftr_div_pow2 by lia.
  change (2 ^ 3) with 8. unfold x. rewrite Z.mul_comm. by replace (n + (8 - 1)) with (n + 7) by lia.
Qed.

Lemma div_up n : (n + 7) / 8 = (n - 1) / 8 + 1.
Proof. replace (n + 7) with (n - 1 + 1 * 8) by lia. by rewrite Z.div_add. Qed.

Lemma round_up_rnd n : 0 < n ≤ 128 → _S_round_up n = rnd n.
Proof.
  intros Hn. rewrite round_up_spec by (unfold word_max; lia). unfold rnd, cls.
  rewrite div_up. pose proof (Z.div_pos (n - 1) 8). lia.
Qed.

Lemma list_of_cls n : 0 < n ≤ 128 → list_of n = Some (Z.of_nat (cls n)).
Proof.
  intros Hn. unfold list_of, _S_freelist_index, _ALIGN. f_equal.
  rewrite (u64_id (n + (8 - 1))) by lia. replace (n + (8 - 1)) with (n + 7) by lia.
  rewrite div_up. unfold cls.
  pose proof (Z.div_pos (n - 1) 8 ltac:(lia) ltac:(lia)).
  pose proof (Z.div_lt_upper_bound (n - 1) 8 16 ltac:(lia) ltac:(lia)).
  rewrite u64_id by lia. lia.
Qed.

(** ** Reading and writing the lists *)

(** The state but for the lists and the memory. *)
Definition same_pool (s s' : alst) : Prop :=
  _S_start_free s' = _S_start_free s ∧ _S_end_free s' = _S_end_free s ∧
  _S_heap_size s' = _S_heap_size s ∧ blocks s' = blocks s.

Lemma get_list_ok s i p :
  _S_free_list s !! i = Some p → get_list (Some (Z.of_nat i)) s = Ok (p, s).
Proof.
  intros H. unfold get_list, mbind, M_bind, gets, lift. by rewrite (aget_nat _ _ p).
Qed.

Lemma put_list_ok s i v : (i < length (_S_free_list s))%nat →
  put_list (Some (Z.of_nat i)) v s = Ok (tt, set_list (<[i := v]> (_S_free_list s)) s).
Proof.
  intros H. unfold put_list, mbind, M_bind, gets, lift. by rewrite aset_nat.
Qed.

Lemma get_link_ok s p v :
  0 < p → 0 ≤ v < word_max → holds_word (mem s) p v → get_link p s = Ok (v, s).
Proof.
  intros Hp Hv H. unfold get_link, mbind, M_bind, gets, lift.
  rewrite (load_word_ok _ _ v); [done|lia|done..].
Qed.

Lemma put_link_ok s p v :
  0 < p → mapped (mem s) p 8 →
  ∃ m', put_link p v s = Ok (tt, set_memory m' (blocks s) s) ∧ holds_word m' p v ∧
    ∀ k, ¬ in_range p 8 k → m' !! k = mem s !! k.
Proof.
  intros Hp Hm. destruct (store_word_ok (mem s) p v) as (m' & E & H); [lia|done|].
  exists m'. split; [|done]. unfold put_link, mbind, M_bind, gets, lift, modify. simpl.
  by rewrite E.
Qed.

Lemma owns_list s lists chunks small big i :
  owns s lists chunks small big → (i < 16)%nat →
  ∃ p ps, _S_free_list s !! i = Some p ∧ lists !! i = Some ps ∧ chain (mem s) p ps ∧
    (i < length (_S_free_list s))%nat.
Proof.
  intros H Hi. destruct (lookup_lt_is_Some_2 lists i) as [ps Hps].
  { by rewrite (own_16 _ _ _ _ _ H). }
  destruct (owns_chain_at _ _ _ _ _ _ _ H Hps) as (p & Hp & Hc).
  exists p, ps. repeat split; [done..|]. by eapply lookup_lt_Some.
Qed.

(** An area becomes an object of the list of its size. *)
Lemma push_object_wp s p n small big (Q : unit → alst → Prop) :
  has s ((p, rnd n) :: small) big → 0 < n ≤ 128 →
  (∀ s', has s' small big → kept (small ++ big) s s' → same_pool s s' →
    _S_free_list s' = <[cls n := p]> (_S_free_list s) →
    (∀ old, _S_free_list s !! cls n = Some old → get_link p s' = Ok (old, s')) → Q tt s') →
  wp (old ← get_list (list_of n); put_link p old;; put_list (list_of n) p) Q s.
Proof.
  intros (lists & chunks & H) Hn HQ. destruct (cls_bound n Hn) as (Hc & Hr & H8).
  rewrite (list_of_cls n Hn).
  destruct (owns_list _ _ _ _ _ _ H Hc) as (old & ps & Hold & Hps & Hch & Hl).
  destruct (small_bounds _ _ _ _ _ p (rnd n) H) as [Hp Hmax];
    [apply elem_of_app; right; by left|lia|].
  assert (Hmap : mapped (mem s) p (rnd n)).
  { apply (proj1 (Forall_forall _ _) (own_mapped _ _ _ _ _ H) (p, rnd n)). apply elem_of_app. right. by left. }
  destruct (put_link_ok s p old Hp) as (m' & E & Hw & Hout).
  { intros k Hk. apply Hmap. unfold in_range in *. lia. }
  apply wp_bind, (wp_intro _ _ _ old s); [by apply get_list_ok|].
  apply wp_bind, (wp_intro _ _ _ _ _ E).
  eapply wp_intro; [by apply put_list_ok|].
  destruct (owns_push s lists chunks [(p, rnd n)] small big (cls n) ps (p :: ps) p m')
    as [H' Ha]; [exact H|done|..].
  - intros k [Hk _]%Forall_cons. apply Hout. unfold in_range in *. simpl in Hk. lia.
  - constructor; [|done]. apply (mapped_write (mem s) _ p 8); [done..|].
    by eapply holds_word_mapped.
  - simpl. pose proof (chain_range _ _ _ Hch).
    split; [done|]. split; [unfold word_max; lia|]. exists old. split; [done|]. split; [done|].
    apply (chain_ext (mem s)); [done|]. apply Forall_forall. intros q Hq.
    assert (Hd : disj (p, rnd n) (q, rnd n)).
    { pose proof (own_apart _ _ _ _ _ H) as Hap. cbn [app] in Hap.
      rewrite <- Permutation_middle in Hap. destruct Hap as [Hap _].
      apply (proj1 (Forall_forall _ _) Hap). apply elem_of_app. left.
      by eapply elem_free_areas. }
    eapply agree_outside; [exact Hout|]. unfold disj in Hd. simpl in Hd. lia.
  - simpl. unfold rnd. solve_Permutation.
  - apply HQ; [by exists (<[cls n := p :: ps]> lists), chunks|done..|].
    intros old'. rewrite Hold. intros [= <-]. apply get_link_ok; [done| |done].
    by eapply chain_range.
Qed.

(** The first object of a list that is not empty leaves it. *)
Lemma pop_ok s p n small big :
  has s small big → 0 < n ≤ 128 → _S_free_list s !! cls n = Some p → p ≠ 0 →
  ∃ next, get_link p s = Ok (next, s) ∧
    put_list (list_of n) next s = Ok (tt, set_list (<[cls n := next]> (_S_free_list s)) s) ∧
    has (set_list (<[cls n := next]> (_S_free_list s)) s) ((p, rnd n) :: small) big.
Proof.
  intros (lists & chunks & H) Hn Hp Hp0. destruct (cls_bound n Hn) as (Hc & Hr & H8).
  destruct (owns_list _ _ _ _ _ _ H Hc) as (q & ps & Hq & Hps & Hch & Hl).
  rewrite Hp in Hq. injection Hq as <-.
  destruct ps as [|q ps]; [done|]. destruct Hch as (<- & Hpb & next & Hnext & Hw & Hch).
  exists next. split; [by apply get_link_ok; [lia|..]|]. split.
  - rewrite (list_of_cls n Hn). by apply put_list_ok.
  - exists (<[cls n := ps]> lists), chunks. by apply owns_pop.
Qed.

(** ** The pool *)

Definition pool (s : alst) : area := (_S_start_free s, _S_end_free s - _S_start_free s).

(** The pool, the areas [small] and the free lists make up the chunks. *)
Definition inv (s : alst) (small big : list area) : Prop :=
  _S_start_free s ≤ _S_end_free s ∧ has s (pool s :: small) big.

(** The lists from [i] on stay. *)
Definition lists_from (i : nat) (s s' : alst) : Prop :=
  drop i (_S_free_list s') = drop i (_S_free_list s).

Lemma inv_left s small big : inv s small big →
  u64 (_S_end_free s - _S_start_free s) = _S_end_free s - _S_start_free s ∧
  (_S_end_free s - _S_start_free s) mod 8 = 0 ∧
  (0 < _S_end_free s - _S_start_free s →
   0 < _S_start_free s ∧ _S_end_free s ≤ 9223372036854775808).
Proof.
  intros [Hle (lists & chunks & H)].
  destruct (small_aligned _ _ _ _ _ _ _ H ltac:(by left)) as (_ & Hm & _). simpl in Hm.
  assert (0 < _S_end_free s - _S_start_free s →
    0 < _S_start_free s ∧ _S_end_free s ≤ 9223372036854775808) as Hb.
  { intros Hlt. destruct (small_bounds _ _ _ _ _ (pool s).1 (pool s).2 H) as [Hp Hmax];
      [apply elem_of_app; right; by left|simpl; lia|]. simpl in *. lia. }
  split; [|done]. apply u64_id. destruct (decide (0 < _S_end_free s - _S_start_free s)); lia.
Qed.

(** The beginning of the pool is cut off. *)
Lemma inv_cut s n small big :
  inv s small big → 0 < n ≤ _S_end_free s - _S_start_free s → n mod 8 = 0 →
  inv (set_start (_S_start_free s + n) s) ((_S_start_free s, n) :: small) big.
Proof.
  intros Hi Hn Hm. destruct (inv_left _ _ _ Hi) as (_ & Hl & _). destruct Hi as [Hle H].
  split; [simpl; lia|].
  assert (has s ((_S_start_free s, n) :: (_S_start_free s + n,
    _S_end_free s - _S_start_free s - n) :: small) big) as Hc.
  { apply has_cut; [|lia|lia|done| |lia].
    - unfold pool in H. by replace (n + (_S_end_free s - _S_start_free s - n))
        with (_S_end_free s - _S_start_free s) by lia.
    - by rewrite Zminus_mod, Hl, Hm. }
  unfold pool. simpl.
  replace (_S_end_free s - (_S_start_free s + n)) with (_S_end_free s - _S_start_free s - n) by lia.
  apply (has_ext s); [done..|]. eapply has_perm; [|reflexivity|exact Hc]. apply perm_swap.
Qed.

(** A size of objects, and their number. *)
Definition good_size (size : Z) : Prop := size mod 8 = 0 ∧ 0 < size ≤ 128.

Section Pool.
Context (L : libc).

(** With enough left in the pool the call returns at once. *)
Lemma chunk_now_wp fuel s size nobjs small big :
  inv s small big → good_size size → 1 ≤ nobjs ≤ 20 →
  size ≤ _S_end_free s - _S_start_free s →
  wp (_S_chunk_alloc L (S fuel) size nobjs) (λ ck s',
    ck = (_S_start_free s, Z.min nobjs ((_S_end_free s - _S_start_free s) `div` size)) ∧
    inv s' ((ck.1, size * ck.2) :: small) big ∧ mem s' = mem s ∧
    _S_heap_size s' = _S_heap_size s) s.
Proof.
  intros Hi [Hm Hs] Hn Hle. destruct (inv_left _ _ _ Hi) as (Hu & Hmod & Hb).
  cbn [_S_chunk_alloc]. apply wp_bind, wp_gets. cbn [id]. rewrite Hu.
  set (left := _S_end_free s - _S_start_free s) in *.
  rewrite (u64_id nobjs), (u64_id (size * nobjs)) by nia.
  assert (Hmul : ∀ k, (size * k) mod 8 = 0) by (intros k; by rewrite Zmult_mod, Hm).
  destruct (size * nobjs <=? left) eqn:E.
  - apply Z.leb_le in E. apply wp_bind, wp_modify, wp_ret. cbn [fst snd].
    assert (nobjs ≤ left / size) by (apply Z.div_le_lower_bound; lia).
    split; [by rewrite Z.min_l|]. split; [|done]. apply inv_cut; [done|subst left; nia|done].
  - apply Z.leb_gt in E. rewrite (proj2 (Z.leb_le _ _)) by done.
    rewrite (proj2 (Z.eqb_neq _ _)) by lia.
    assert (1 ≤ left / size < nobjs) as Hk.
    { split; [apply Z.div_le_lower_bound; lia|apply Z.div_lt_upper_bound; lia]. }
    assert (size * (left / size) ≤ left) by (apply Z.mul_div_le; lia).
    rewrite (s32_id (left / size)) by (unfold int_min, int_max; lia).
    rewrite (u64_id (left / size)), (u64_id (size * (left / size))) by nia.
    apply wp_bind, wp_modify, wp_ret. cbn [fst snd].
    split; [by rewrite Z.min_r by lia|]. split; [|done].
    apply inv_cut; [done|subst left; nia|done].
Qed.

(** The first list from [i] on that is not empty, counted from [i], and its first
    object. *)
Definition first_free (i : nat) (s : alst) : option (nat * Z) :=
  list_find (λ p, p ≠ 0) (drop i (_S_free_list s)).

Lemma first_free_step i s p : _S_free_list s !! i = Some p →
  first_free i s = if p =? 0 then prod_map S id <$> first_free (S i) s else Some (0%nat, p).
Proof.
  intros H. unfold first_free. rewrite (drop_S _ _ _ H). simpl.
  destruct (Z.eqb_spec p 0); case_decide; done.
Qed.

(** The loop over the free lists. *)
Lemma scavenge_wp : ∀ fuel k s small big,
  has s small big → (k ≤ 16)%nat → (16 - k < fuel)%nat →
  wp (scavenge fuel (8 * (Z.of_nat k + 1))) (λ b s',
    match first_free k s with
    | Some (j, p) => b = true ∧ mem s' = mem s ∧ _S_heap_size s' = _S_heap_size s ∧
        inv s' small big ∧ _S_start_free s' = p ∧
        _S_end_free s' = p + 8 * (Z.of_nat (k + j) + 1)
    | None => b = false ∧ s' = s
    end) s.
Proof.
  induction fuel as [|fuel IH]; intros k s small big H Hk Hf; [lia|].
  cbn [scavenge]. unfold _MAX_BYTES. set (i := 8 * (Z.of_nat k + 1)).
  pose proof H as (lists & chunks & Ho).
  pose proof (Forall2_length _ _ _ (own_chain _ _ _ _ _ Ho)) as H16.
  rewrite (own_16 _ _ _ _ _ Ho) in H16.
  destruct (i <=? 128) eqn:E.
  2: { apply Z.leb_gt in E. apply wp_ret. unfold first_free. rewrite drop_ge by lia. done. }
  apply Z.leb_le in E. assert (0 < i ≤ 128) as Hi by lia.
  assert (cls i = k) as Hck.
  { unfold cls, i. replace (8 * (Z.of_nat k + 1) - 1) with (7 + Z.of_nat k * 8) by lia.
    rewrite Z.div_add by lia. change (7 / 8) with 0. lia. }
  destruct (cls_bound i Hi) as (Hc & _). rewrite Hck in Hc.
  destruct (owns_list _ _ _ _ _ _ Ho Hc) as (p & ps & Hp & _).
  rewrite (first_free_step _ _ _ Hp).
  eapply wp_bind, wp_intro; [rewrite (list_of_cls i Hi), Hck; by apply get_list_ok|].
  destruct (p =? 0) eqn:Ep.
  - unfold _ALIGN. rewrite u64_id by lia. replace (i + 8) with (8 * (Z.of_nat (S k) + 1)) by lia.
    eapply wp_mono; [apply (IH (S k) s small big); [done|lia|lia]|].
    intros b s'. destruct (first_free (S k) s) as [[j q]|]; [|done]. simpl.
    intros (? & ? & ? & ? & ? & ->). do 5 (split; [done|]). lia.
  - apply Z.eqb_neq in Ep. rewrite <- Hck in Hp.
    destruct (pop_ok s p i small big H Hi Hp Ep) as (next & E1 & E2 & H').
    eapply wp_bind, wp_intro; [exact E1|]. eapply wp_bind, wp_intro; [exact E2|].
    apply wp_bind, wp_modify, wp_bind, wp_modify, wp_ret.
    assert (rnd i = i) as Hr by (unfold rnd; by rewrite Hck). rewrite Hr in H'.
    do 3 (split; [done|]). split; [|simpl; split; [done|rewrite Nat.add_0_r; done]].
    split; [simpl; lia|]. unfold pool. simpl. replace (p + i - p) with i by lia.
    by eapply has_ext; [..|exact H'].
Qed.

Lemma scavenge_at s size small big : has s small big → good_size size →
  wp (scavenge scavenge_fuel size) (λ b s',
    match first_free (cls size) s with
    | Some (j, p) => b = true ∧ mem s' = mem s ∧ _S_heap_size s' = _S_heap_size s ∧
        inv s' small big ∧ _S_start_free s' = p ∧
        _S_end_free s' = p + 8 * (Z.of_nat (cls size + j) + 1)
    | None => b = false ∧ s' = s
    end) s.
Proof.
  intros H [Hm Hs]. pose proof (cls_bound size Hs). unfold scavenge_fuel.
  rewrite <- (rnd_id size) at 1 by (done || lia). unfold rnd. by apply scavenge_wp; [|lia|lia].
Qed.

End Pool.

(** ** More memory *)

(** What the C library promises: a block it gives is apart from those in use. *)
Class LibcOk (L : libc) : Prop := {
  malloc_fresh : ∀ b n, 0 < n → malloc_at L b n ≠ 0 → fresh b (malloc_at L b n) n;
  realloc_fresh : ∀ b p n, 0 < n → is_Some (b !! p) → realloc_at L b p n ≠ 0 →
    fresh (delete p b) (realloc_at L b p n) n;
  oom_malloc_fresh : ∀ b n p, 0 < n → oom_malloc L b n = Some p → fresh b p n
}.

(** The handler of exhausted memory does not return. *)
Definition gives_up (L : libc) : Prop :=
  ∃ b n, malloc_at L b n = 0 ∧ oom_malloc L b n = None.

Section Memory.
Context (L : libc) `{!LibcOk L}.

Abbreviation wpm := (wpt FAlloc (gives_up L)).

Lemma malloc_ok s n : 0 < n → malloc_at L (blocks s) n = 0 ∧ malloc L n s = Ok (0, s) ∨
  ∃ p, malloc L n s = Ok (p, with_block L p n s) ∧ fresh (blocks s) p n ∧ 0 < p.
Proof.
  intros Hn. unfold malloc, mbind, M_bind, gets.
  destruct (malloc_at L (blocks s) n =? 0) eqn:E.
  - apply Z.eqb_eq in E. by left.
  - apply Z.eqb_neq in E. right. exists (malloc_at L (blocks s) n). split; [done|].
    pose proof (malloc_fresh _ _ Hn E) as Hf. split; [done|apply Hf].
Qed.

Lemma malloc_allocate_wpt s n : 0 < n →
  wpm (malloc_allocate L n) (λ p s', fresh (blocks s) p n ∧ s' = with_block L p n s) s.
Proof.
  intros Hn. unfold malloc_allocate.
  destruct (malloc_ok s n Hn) as [(E0 & E)|(p & E & Hf & Hp)]; apply wpt_bind;
    unfold wpt at 1; rewrite E.
  - change (0 =? 0) with true. unfold wpt, _S_oom_malloc, mbind, M_bind, gets.
    destruct (oom_malloc L (blocks s) n) as [p|] eqn:Eo; [|split; [done|by exists (blocks s), n]].
    pose proof (oom_malloc_fresh _ _ _ Hn Eo) as Hf. pose proof (proj1 Hf) as (Hp & _).
    simpl in Hp. rewrite (proj2 (Z.eqb_neq _ _)) by lia. done.
  - rewrite (proj2 (Z.eqb_neq _ _)) by lia. done.
Qed.

Lemma has_nothing s p small big : has s ((p, 0) :: small) big → has s small big.
Proof.
  intros (lists & chunks & [H16 Hch Hap Hal Hin Hm Ht Hb Hg]). exists lists, chunks.
  cbn [app] in *. rewrite <- Permutation_middle in *.
  destruct Hap as [_ Hap]. apply Forall_cons in Hal as [_ Hal], Hin as [_ Hin], Hm as [_ Hm].
  split; done.
Qed.

Lemma save_left_wp s small big (Q : unit → alst → Prop) left :
  inv s small big → left = _S_end_free s - _S_start_free s → left ≤ 128 →
  (∀ s', has s' small big → kept (small ++ big) s s' → same_pool s s' →
    lists_from (Z.to_nat (left / 8)) s s' → Q tt s') →
  wp (save_left left) Q s.
Proof.
  intros Hi -> Hle HQ. pose proof (inv_left _ _ _ Hi) as (_ & Hm & Hb).
  destruct Hi as [Hlt H]. unfold save_left, pool in *.
  set (left := _S_end_free s - _S_start_free s) in *. apply wp_when; intros E.
  - apply Z.ltb_lt in E. apply wp_bind, wp_gets.
    eapply push_object_wp; [by rewrite rnd_id| lia |].
    intros s' H' Hk Hs Hl _. apply HQ; [done..|]. unfold lists_from. rewrite Hl.
    apply drop_insert_lt. pose proof (rnd_id left E Hm) as Hr. unfold rnd in Hr.
    assert (left / 8 = Z.of_nat (cls left) + 1); [|lia].
    symmetry. apply Z.div_unique_exact; lia.
  - apply Z.ltb_ge in E. apply HQ; [|apply kept_refl|done|done].
    replace left with 0 in H by lia. by eapply has_nothing.
Qed.

(** A new chunk becomes the pool. *)
Lemma inv_chunk s p n small big h e : has s small big → fresh (blocks s) p n → n mod 8 = 0 →
  let s' := set_end (p + n) (set_heap_size h (set_start p
    (with_block L p n (set_end e s)))) in
  inv s' small big ∧ kept (small ++ big) s s'.
Proof.
  intros H Hf Hm s'. destruct (has_chunk L s p n small big H Hf Hm) as [H' Hk].
  pose proof (proj1 Hf) as (_ & _ & Hn & _). simpl in Hn.
  split; [|done]. split; [simpl; lia|]. unfold pool. simpl.
  replace (p + n - p) with n by lia. by eapply has_ext; [..|exact H'].
Qed.

Definition heap_ok (s : alst) : Prop := 0 ≤ _S_heap_size s < word_max.

Lemma heap_ok_u64 z : 0 ≤ u64 z < word_max.
Proof. apply Z.mod_pos_bound. unfold word_max. lia. Qed.

(** What [more_memory] finds: a block of [malloc], the first object of the lists of
    the size and above, or what the handler of exhausted memory gets. *)
Definition more_spec (s : alst) (size n : Z) : res area :=
  let p := malloc_at L (blocks s) n in
  if p =? 0 then
    match first_free (cls size) s with
    | Some (j, p) => Ok (p, 8 * (Z.of_nat (cls size + j) + 1))
    | None => match oom_malloc L (blocks s) n with Some p => Ok (p, n) | None => Fault FAlloc end
    end
  else Ok (p, n).

Lemma malloc_spec s n :
  malloc L n s = if malloc_at L (blocks s) n =? 0 then Ok (0, s)
                 else Ok (malloc_at L (blocks s) n, with_block L (malloc_at L (blocks s) n) n s).
Proof. unfold malloc, mbind, M_bind, gets. by destruct (_ =? 0). Qed.

Lemma malloc_allocate_spec s n : 0 < n → malloc_at L (blocks s) n = 0 →
  match oom_malloc L (blocks s) n with
  | Some p => malloc_allocate L n s = Ok (p, with_block L p n s) ∧ fresh (blocks s) p n
  | None => malloc_allocate L n s = Fault FAlloc
  end.
Proof.
  intros Hn E. unfold malloc_allocate, mbind, M_bind. rewrite malloc_spec, E.
  simpl. unfold _S_oom_malloc, mbind, M_bind, gets.
  destruct (oom_malloc L (blocks s) n) as [p|] eqn:Eo; [|done].
  pose proof (oom_malloc_fresh _ _ _ Hn Eo) as Hf. pose proof (proj1 Hf) as (Hp & _).
  simpl in Hp. by rewrite (proj2 (Z.eqb_neq _ _)) by lia.
Qed.

(** [m] ends as its specification says, with a value or with a fault. *)
Definition ends {A B} (m : M alst A) (s : alst) (spec : res B) (Q : B → A → alst → Prop) : Prop :=
  match spec with
  | Ok b => wp m (Q b) s
  | Fault f => m s = Fault f
  end.

Lemma ends_run {A B} (m m' : M alst A) s s' (spec : res B) Q :
  m s = m' s' → ends m' s' spec Q → ends m s spec Q.
Proof. unfold ends, wp. by intros ->. Qed.

Lemma ends_mono {A B} (m : M alst A) s (spec : res B) (Q Q' : B → A → alst → Prop) :
  ends m s spec Q → (∀ b a s', Q b a s' → Q' b a s') → ends m s spec Q'.
Proof. destruct spec; [|done]. intros H HQ. eapply wp_mono; [exact H|]. eauto. Qed.

Lemma more_memory_ok s size n small big :
  has s small big → good_size size → n mod 8 = 0 → size ≤ n → heap_ok s →
  ends (more_memory L size n) s (more_spec s size n) (λ a _ s', inv s' small big ∧
    kept (small ++ big) s s' ∧ heap_ok s' ∧ pool s' = a).
Proof.
  intros H Hs Hm Hn Hh. pose proof Hs as [Hsm Hs']. unfold more_memory, more_spec.
  assert (Hn0 : 0 < n) by lia. set (h := u64 (_S_heap_size s + n)).
  destruct (malloc_at L (blocks s) n =? 0) eqn:E.
  - assert (Em : malloc L n s = Ok (0, s)) by (by rewrite malloc_spec, E).
    apply Z.eqb_eq in E.
    pose proof (scavenge_at (set_start 0 s) size small big
      (has_ext s (set_start 0 s) _ _ eq_refl eq_refl eq_refl H) Hs) as Hsc.
    apply wp_elim in Hsc as (b & s' & Esc & Hb).
    change (first_free (cls size) (set_start 0 s)) with (first_free (cls size) s) in Hb.
    unfold ends. destruct (first_free (cls size) s) as [[j p]|] eqn:Eff.
    + destruct Hb as (-> & Emem & Eb & Hi & Est & Een).
      eapply wp_bind, wp_intro; [exact Em|]. apply wp_bind, wp_modify.
      change (0 =? 0) with true. cbn iota. eapply wp_bind, wp_intro; [exact Esc|]. simpl. apply wp_ret. split; [done|].
      split; [unfold kept; rewrite Emem; exact (kept_refl _ s)|].
      split; [unfold heap_ok; by rewrite Eb|]. unfold pool. rewrite Est, Een. f_equal. lia.
    + destruct Hb as [-> ->].
      pose proof (malloc_allocate_spec (set_end 0 (set_start 0 s)) n Hn0 E) as Ho.
      simpl in Ho. destruct (oom_malloc L (blocks s) n) as [p|].
      * destruct Ho as [Eo Hf]. eapply wp_bind, wp_intro; [exact Em|].
        apply wp_bind, wp_modify. change (0 =? 0) with true. cbn iota.
        eapply wp_bind, wp_intro; [exact Esc|]. simpl.
        apply wp_bind, wp_bind, wp_modify, wp_bind.
        eapply wp_intro; [exact Eo|]. apply wp_modify, wp_bind, wp_modify, wp_modify.
        destruct (inv_chunk s p n small big h 0 H Hf Hm) as [Hi Hk].
        split; [exact Hi|]. split; [exact Hk|]. split; [apply heap_ok_u64|].
        unfold pool. simpl. f_equal. lia.
      * rewrite (bind_ok _ _ _ _ _ Em), (bind_ok _ _ _ tt (set_start 0 s)) by done.
        change (0 =? 0) with true. cbn iota. rewrite (bind_ok _ _ _ _ _ Esc). unfold when, mbind, M_bind, modify. simpl. by rewrite Ho.
  - assert (Em : malloc L n s = Ok (malloc_at L (blocks s) n,
      with_block L (malloc_at L (blocks s) n) n s)) by (by rewrite malloc_spec, E).
    apply Z.eqb_neq in E. pose proof (malloc_fresh _ _ Hn0 E) as Hf.
    set (p := malloc_at L (blocks s) n) in *. cbn beta iota. unfold ends.
    apply wp_bind. eapply wp_intro; [exact Em|]. apply wp_bind, wp_modify.
    rewrite (proj2 (Z.eqb_neq p 0)) by done. apply wp_bind, wp_ret. simpl.
    apply wp_bind, wp_ret, wp_bind, wp_modify, wp_modify.
    destruct (inv_chunk s p n small big h (_S_end_free s) H Hf Hm) as [Hi Hk].
    split; [exact Hi|]. split; [exact Hk|]. split; [apply heap_ok_u64|].
    unfold pool. simpl. f_equal. lia.
Qed.

(** ** Chunks and objects *)

Definition good (s : alst) (small big : list area) : Prop := inv s small big ∧ heap_ok s.

Lemma bytes_to_get_ok total h :
  0 ≤ total ≤ 2560 → total mod 8 = 0 → 0 ≤ h < word_max →
  let n := u64 (2 * total + _S_round_up (Z.shiftr h 4)) in n mod 8 = 0 ∧ 2 * total ≤ n.
Proof.
  unfold word_max. intros Ht Hm Hh. cbv zeta. rewrite Z.shiftr_div_pow2 by lia. change (2 ^ 4) with 16.
  pose proof (Z.div_pos h 16 ltac:(lia) ltac:(lia)).
  pose proof (Z.div_lt_upper_bound h 16 1152921504606846976 ltac:(lia) ltac:(lia)).
  rewrite round_up_spec by (unfold word_max; lia).
  pose proof (Z.div_mod (h / 16 + 7) 8 ltac:(lia)).
  pose proof (Z.mod_pos_bound (h / 16 + 7) 8 ltac:(lia)).
  rewrite u64_id by lia. split; [|lia].
  replace (2 * total + 8 * ((h / 16 + 7) / 8)) with (2 * total + (h / 16 + 7) / 8 * 8) by lia.
  rewrite Z_mod_plus_full, Zmult_mod, Hm. done.
Qed.

(** The memory that a call of [_S_chunk_alloc] cuts its objects from: the pool, or
    what [more_memory] finds for twice the objects and a sixteenth of the heap. *)
Definition chunk_area (s : alst) (size nobjs : Z) : res area :=
  if size <=? (pool s).2 then Ok (pool s)
  else more_spec s size (u64 (2 * (size * nobjs) + _S_round_up (Z.shiftr (_S_heap_size s) 4))).

(** Its results: the beginning, and as many objects as there are and are wanted. *)
Definition chunk_spec (s : alst) (size nobjs : Z) : res (Z * Z) :=
  a ← chunk_area s size nobjs; mret (a.1, Z.min nobjs (a.2 `div` size)).

Lemma cls_left left size : 0 ≤ left < size → left mod 8 = 0 → size mod 8 = 0 →
  (Z.to_nat (left / 8) ≤ cls size)%nat.
Proof.
  intros Hl [a ->]%Z.mod_divide [b ->]%Z.mod_divide; [|lia..]. unfold cls.
  rewrite Z.div_mul by lia. replace (b * 8 - 1) with (7 + (b - 1) * 8) by lia.
  rewrite Z.div_add by lia. change (7 / 8) with 0. lia.
Qed.

(** What is left of the pool goes to a list that the search does not reach. *)
Lemma more_spec_same s s1 size n i : lists_from i s s1 → (i ≤ cls size)%nat →
  blocks s1 = blocks s → more_spec s1 size n = more_spec s size n.
Proof.
  unfold lists_from, more_spec, first_free. intros H Hi ->.
  replace (drop (cls size) (_S_free_list s1)) with (drop (cls size) (_S_free_list s)); [done|].
  replace (cls size) with (i + (cls size - i))%nat by lia. by rewrite <- !drop_drop, H.
Qed.

Lemma more_spec_size s size n a :
  good_size size → size ≤ n → more_spec s size n = Ok a → size ≤ a.2.
Proof.
  intros [Hm Hs] Hn. unfold more_spec. pose proof (rnd_id size ltac:(lia) Hm) as Hr.
  unfold rnd in Hr. destruct (_ =? 0); [|by intros [= <-]].
  destruct (first_free _ _) as [[j p]|]; [intros [= <-]; simpl; lia|].
  destruct (oom_malloc _ _ _); [by intros [= <-]|done].
Qed.

(** The memory has room for an object. *)
Lemma chunk_area_size s size nobjs : heap_ok s → good_size size → 1 ≤ nobjs ≤ 20 →
  match chunk_area s size nobjs with Ok a => size ≤ a.2 | Fault f => f = FAlloc end.
Proof.
  intros Hh Hs Hn. pose proof Hs as [Hm Hb]. unfold chunk_area.
  destruct (Z.leb_spec size (pool s).2) as [Hle|Hle]; [done|].
  destruct (bytes_to_get_ok (size * nobjs) (_S_heap_size s)) as [_ Hg];
    [nia|by rewrite Zmult_mod, Hm|done|].
  set (n := u64 (2 * (size * nobjs) + _)) in *.
  destruct (more_spec s size n) as [a|f] eqn:E; [apply (more_spec_size s size n); [done|nia|done]|].
  unfold more_spec in E. destruct (_ =? 0); [|done].
  destruct (first_free _ _) as [[]|]; [done|]. destruct (oom_malloc _ _ _); [done|congruence].
Qed.

(** The objects of a chunk leave the pool; a handler that gives up ends the call. *)
Lemma chunk_alloc_ok s size nobjs small big :
  good s small big → good_size size → 1 ≤ nobjs ≤ 20 →
  ends (_S_chunk_alloc L chunk_fuel size nobjs) s (chunk_spec s size nobjs) (λ b ck s',
    ck = b ∧ 1 ≤ ck.2 ≤ nobjs ∧ good s' ((ck.1, size * ck.2) :: small) big ∧
    kept (small ++ big) s s').
Proof.
  intros [Hi Hh] Hs Hn. destruct (inv_left _ _ _ Hi) as (Hu & Hmod & _).
  assert (Hnow : ∀ fuel s2, inv s2 small big → heap_ok s2 → kept (small ++ big) s s2 →
    size ≤ (pool s2).2 → wp (_S_chunk_alloc L (S fuel) size nobjs) (λ ck s',
      ck = ((pool s2).1, Z.min nobjs ((pool s2).2 / size)) ∧ 1 ≤ ck.2 ≤ nobjs ∧
      good s' ((ck.1, size * ck.2) :: small) big ∧ kept (small ++ big) s s') s2).
  { intros fuel s2 Hi2 Hh2 Hk2 Hle. simpl in Hle. pose proof Hs as [_ Hs'].
    eapply wp_mono; [by apply (chunk_now_wp L fuel s2 size nobjs small big)|].
    intros ck s' (-> & Hi' & Em & Eh). cbn [fst snd]. split; [done|].
    assert (1 ≤ (_S_end_free s2 - _S_start_free s2) / size)
      by (apply Z.div_le_lower_bound; lia).
    split; [lia|]. split; [split; [done|unfold heap_ok; by rewrite Eh]|].
    unfold kept. by rewrite Em. }
  unfold chunk_spec, chunk_area. destruct (Z.leb_spec size (pool s).2) as [Hle|Hle].
  { simpl. apply (Hnow 1%nat s); [done..|apply kept_refl|done]. }
  unfold chunk_fuel. simpl in Hle. pose proof Hs as [Hm Hb]. pose proof (proj1 Hi) as Hlt.
  destruct (bytes_to_get_ok (size * nobjs) (_S_heap_size s)) as [Hgm Hg];
    [nia|by rewrite Zmult_mod, Hm|done|].
  set (n := u64 (2 * (size * nobjs) + _)) in *.
  remember 1%nat as fuel eqn:Ef.
  assert (Hsave : wp (save_left (_S_end_free s - _S_start_free s)) (λ _ s1,
    has s1 small big ∧ kept (small ++ big) s s1 ∧ heap_ok s1 ∧
    more_spec s1 size n = more_spec s size n) s).
  { eapply save_left_wp; [exact Hi|done|lia|].
    intros s1 H1 K1 (_ & _ & Eh & Eb) Z1. split; [done|]. split; [done|].
    split; [unfold heap_ok; by rewrite Eh|].
    eapply more_spec_same; [exact Z1|by apply cls_left; [lia|..]|done]. }
  apply wp_elim in Hsave as ([] & s1 & E1 & H1 & K1 & Hh1 & Em).
  assert (Estep : _S_chunk_alloc L (S fuel) size nobjs s =
    (more_memory L size n;; _S_chunk_alloc L fuel size nobjs) s1).
  { cbn [_S_chunk_alloc]. rewrite (bind_ok _ _ _ s s) by done. cbn beta zeta. rewrite Hu.
    rewrite (u64_id nobjs), (u64_id (size * nobjs)) by nia.
    rewrite (proj2 (Z.leb_gt _ _)) by nia. rewrite (proj2 (Z.leb_gt _ _)) by lia.
    exact (bind_ok _ _ _ _ _ E1). }
  pose proof (more_memory_ok s1 size n small big H1 Hs Hgm ltac:(nia) Hh1) as Hmore.
  rewrite Em in Hmore. destruct (more_spec s size n) as [a|f] eqn:Ea;
    unfold ends in Hmore |- *; cbn [mbind res_bind].
  - apply (ends_run _ _ _ s1 (Ok a) (λ _, _) Estep). apply wp_bind. eapply wp_mono; [exact Hmore|].
    intros [] s2 (I2 & K2 & Hh2 & <-). subst fuel.
    apply (Hnow 0%nat s2); [done..|by eapply areas_kept_trans|].
    apply (more_spec_size s size n); [done|nia|done].
  - rewrite Estep. unfold mbind, M_bind. by rewrite Hmore.
Qed.

(** *** Objects of a chunk *)

Fixpoint nodes (q n : Z) (r : nat) : list Z :=
  match r with O => [] | S r' => q :: nodes (q + n) n r' end.

Lemma link_objects_ok n nobjs : 8 ≤ n → ∀ r fuel s q i,
  nobjs - i = Z.of_nat (S r) → (r < fuel)%nat →
  0 < q → q + n * Z.of_nat (S r) ≤ 9223372036854775808 →
  mapped (mem s) q (n * Z.of_nat (S r)) →
  ∃ m', link_objects fuel n nobjs i q s = Ok (tt, set_memory m' (blocks s) s) ∧
    chain m' q (nodes q n (S r)) ∧ mapped m' q (n * Z.of_nat (S r)) ∧
    ∀ k, ¬ in_range q (n * Z.of_nat (S r)) k → m' !! k = mem s !! k.
Proof.
  intros Hn. induction r as [|r IH]; intros [|fuel] s q i Hi Hf Hq Hmax Hm; try lia.
  - cbn [link_objects]. rewrite (proj2 (Z.eqb_eq _ _)) by lia.
    destruct (put_link_ok s q 0 Hq) as (m' & E & Hw & Hout).
    { intros k Hk. apply Hm. unfold in_range in *. lia. }
    exists m'. split; [done|]. split; [|split].
    + simpl. split; [done|]. split; [unfold word_max; lia|]. exists 0. unfold word_max. done.
    + eapply mapped_write; [exact Hm|exact Hout|by eapply holds_word_mapped].
    + intros k Hk. apply Hout. unfold in_range in *. lia.
  - cbn [link_objects]. rewrite (proj2 (Z.eqb_neq _ _)) by lia.
    destruct (put_link_ok s q (q + n) Hq) as (m1 & E & Hw & Hout).
    { intros k Hk. apply Hm. unfold in_range in *. lia. }
    destruct (IH fuel (set_memory m1 (blocks s) s) (q + n) (i + 1)) as (m' & E' & Hc & Hm' & Hout');
      [lia..| |].
    { intros k Hk. simpl. destruct (decide (in_range q 8 k)) as [Hq8|Hq8].
      - unfold in_range in *. lia.
      - rewrite Hout by done. apply Hm. unfold in_range in *. lia. }
    exists m'. split; [unfold mbind, M_bind; rewrite E; exact E'|].
    split; [|split].
    + cbn [nodes chain]. split; [done|]. split; [unfold word_max; lia|].
      exists (q + n). split; [unfold word_max; lia|]. split; [|exact Hc].
      apply (holds_word_agree m1 _ _ _ 8); [done| |lia].
      eapply agree_outside; [exact Hout'|]. lia.
    + intros k Hk. destruct (decide (in_range (q + n) (n * Z.of_nat (S r)) k)) as [|Hk']; [auto|].
      rewrite Hout' by done. apply (mapped_write (mem s) m1 q 8 q n); [|done| |].
      * intros j Hj. apply Hm. unfold in_range in *. lia.
      * by eapply holds_word_mapped.
      * unfold in_range in *. lia.
    + intros k Hk. simpl in Hout'. rewrite Hout', Hout; [done|..]; unfold in_range in *; lia.
Qed.

Lemma nodes_within n : 0 < n → ∀ r q p,
  p ∈ nodes q n r → q ≤ p ∧ p + n ≤ q + n * Z.of_nat r.
Proof.
  intros Hn. induction r as [|r IH]; intros q p; simpl; [by intros ?%not_elem_of_nil|].
  intros [->|Hp]%elem_of_cons; [lia|]. apply IH in Hp. lia.
Qed.

Lemma has_objects s n big : 0 < n → n mod 8 = 0 → ∀ r q small,
  has s ((q, n * Z.of_nat (S r)) :: small) big →
  has s (((λ p, (p, n)) <$> nodes q n (S r)) ++ small) big.
Proof.
  intros Hn Hm. induction r as [|r IH]; intros q small H.
  - simpl. by replace (n * Z.of_nat 1) with n in H by lia.
  - replace (n * Z.of_nat (S (S r))) with (n + n * Z.of_nat (S r)) in H by lia.
    apply has_cut in H; [|try lia..]; [|by rewrite Zmult_mod, Hm].
    change (nodes q n (S (S r))) with (q :: nodes (q + n) n (S r)).
    eapply has_perm; [|reflexivity|apply (IH (q + n) ((q, n) :: small))].
    + rewrite fmap_cons. cbn [app]. symmetry. apply Permutation_middle.
    + eapply has_perm; [|reflexivity|exact H]. apply perm_swap.
Qed.

Lemma chunk_mapped s p n small big :
  has s ((p, n) :: small) big → mapped (mem s) p n.
Proof.
  intros (lists & chunks & H).
  apply (proj1 (Forall_forall _ _) (own_mapped _ _ _ _ _ H) (p, n)).
  apply elem_of_app. right. by left.
Qed.

Lemma chunk_bounds s p n small big : has s ((p, n) :: small) big → 0 < n →
  0 < p ∧ p + n ≤ 9223372036854775808.
Proof.
  intros (lists & chunks & H). apply (small_bounds _ _ _ _ _ _ _ H).
  apply elem_of_app. right. by left.
Qed.

(** *** Allocation by areas *)

Lemma good_pool s small big : good s small big → has s (pool s :: small) big.
Proof. by intros [[_ H] _]. Qed.

(** The pool of a state with other lists and another memory. *)
Lemma good_same s s' small big small' big' :
  good s small big → has s' (pool s :: small') big' → same_pool s s' → good s' small' big'.
Proof.
  intros [[Hle _] Hh] H (E1 & E2 & E3 & _). split; [split|].
  - by rewrite E1, E2.
  - unfold pool in *. by rewrite E1, E2.
  - unfold heap_ok. by rewrite E3.
Qed.

Lemma good_perm s small small' big big' :
  small ≡ₚ small' → big ≡ₚ big' → good s small big → good s small' big'.
Proof.
  intros P1 P2 [[Hle H] Hh]. split; [split|]; [done| |done].
  eapply has_perm; [|exact P2|exact H]. by constructor.
Qed.

(** The code: the one object of a chunk, or the pointer that has no value. *)
Definition refill_spec (s : alst) (n : Z) : res Z :=
  ck ← chunk_spec s n 20; if ck.2 =? 1 then Ok ck.1 else Fault FUninit.

Lemma refill_ok s n small big : good s small big → good_size n →
  ends (_S_refill L n) s (refill_spec s n) (λ p q s', q = p ∧ good s' ((p, n) :: small) big ∧
    kept (small ++ big) s s').
Proof.
  intros Hg Hn. pose proof (chunk_alloc_ok s n 20 small big Hg Hn ltac:(lia)) as H.
  unfold _S_refill, refill_spec. destruct (chunk_spec s n 20) as [[c k]|f]; cbn [ends mbind res_bind fst snd] in *.
  - apply wp_elim in H as (ck & s1 & E & -> & Hk & G & K). cbn [fst snd] in *.
    destruct (k =? 1) eqn:E1.
    + apply Z.eqb_eq in E1 as ->. rewrite Z.mul_1_r in G. eapply wp_bind, wp_intro; [exact E|].
      by apply wp_ret.
    + cbn [ends]. rewrite (bind_ok _ _ _ _ _ E). by rewrite E1.
  - unfold mbind, M_bind. by rewrite H.
Qed.

(** The blocks of clients, by their size. *)
Definition small_of (live : list area) : list area :=
  omap (λ b, if b.2 <=? 128 then Some (b.1, rnd b.2) else None) live.
Definition big_of (live : list area) : list area :=
  omap (λ b, if b.2 <=? 128 then None else Some b) live.

Definition serves (s : alst) (live : list area) : Prop :=
  good s (small_of live) (big_of live) ∧ Forall (λ b, 0 < b.2) live.

Lemma kept_live live s s' : Forall (λ b, 0 < b.2) live →
  kept (small_of live ++ big_of live) s s' → kept live s s'.
Proof.
  unfold kept. rewrite Forall_app. intros Hn [Hs Hb]. revert Hn Hs Hb.
  induction live as [|[p n] live IH]; [done|]. intros [Hn Hl]%Forall_cons.
  unfold small_of, big_of. cbn [omap list_omap fst snd].
  destruct (n <=? 128) eqn:E; intros Hs Hb.
  - apply Forall_cons in Hs as [Ha Hs]. constructor; [|by apply IH].
    apply Z.leb_le in E. simpl in *. pose proof (cls_bound n ltac:(lia)).
    eapply agree_sub; [exact Ha|simpl; lia..].
  - apply Forall_cons in Hb as [Ha Hb]. constructor; [done|by apply IH].
Qed.

(** What [allocate] returns: a block of the C library, the first object of the list,
    or what [_S_refill] returns. *)
Definition allocate_spec (s : alst) (n : Z) : res Z :=
  if n <=? 128 then
    p ← aget (_S_free_list s) (Z.of_nat (cls n));
    if p =? 0 then refill_spec s (rnd n) else Ok p
  else
    let p := malloc_at L (blocks s) n in
    if p =? 0 then match oom_malloc L (blocks s) n with Some p => Ok p | None => Fault FAlloc end
    else Ok p.

Lemma malloc_allocate_ok s n : 0 < n → 128 < n →
  ends (malloc_allocate L n) s (allocate_spec s n) (λ p q s', q = p ∧ fresh (blocks s) p n ∧
    s' = with_block L p n s).
Proof.
  intros Hn Hbig. unfold allocate_spec. rewrite (proj2 (Z.leb_gt _ _)) by done. cbv zeta.
  destruct (Z.eqb_spec (malloc_at L (blocks s) n) 0) as [E|E].
  - pose proof (malloc_allocate_spec s n Hn E) as H.
    destruct (oom_malloc L (blocks s) n) as [p|]; [|exact H].
    destruct H as [H Hf]. by eapply wp_intro.
  - pose proof (malloc_fresh _ _ Hn E) as Hf. unfold malloc_allocate.
    eapply wp_bind, wp_intro; [rewrite malloc_spec; by rewrite (proj2 (Z.eqb_neq _ _))|].
    rewrite (proj2 (Z.eqb_neq _ _)) by done. by apply wp_ret.
Qed.

Lemma serves_taken s s' live p n : 0 < n → serves s live →
  good s' (small_of ((p, n) :: live)) (big_of ((p, n) :: live)) →
  kept (small_of live ++ big_of live) s s' → serves s' ((p, n) :: live) ∧ kept live s s'.
Proof.
  intros Hn [_ Hl] G K. split; [split; [done|by constructor]|by apply kept_live].
Qed.

Lemma allocate_ok s live n : serves s live → 0 < n →
  ends (allocate L n) s (allocate_spec s n) (λ p q s', q = p ∧ serves s' ((p, n) :: live) ∧
    kept live s s').
Proof.
  intros Hs Hn. pose proof Hs as [Hg Hl]. pose proof (serves_taken s) as Hdone.
  unfold allocate, _MAX_BYTES. destruct (Z.ltb_spec 128 n) as [E|E].
  - eapply ends_mono; [by apply malloc_allocate_ok|]. intros p q s' (-> & Hf & ->).
    split; [done|]. destruct (has_big L s p n _ _ (good_pool _ _ _ Hg) Hf) as [H' K'].
    apply Hdone; [done..| |by eapply kept_cons]. unfold small_of, big_of.
    cbn [omap list_omap fst snd]. rewrite (proj2 (Z.leb_gt _ _)) by done.
    destruct Hg as [[Hle _] Hh]. split; [split|]; [done|exact H'|done].
  - unfold allocate_spec. rewrite (proj2 (Z.leb_le _ _)) by done.
    assert (0 < n ≤ 128) as Hb by lia. destruct (cls_bound n Hb) as (Hc & _).
    pose proof (good_pool _ _ _ Hg) as (lists & chunks & Ho).
    destruct (owns_list _ _ _ _ _ _ Ho Hc) as (p & ps & Hp & _).
    rewrite (aget_nat _ _ p Hp). cbn [mbind res_bind].
    assert (Hget : get_list (list_of n) s = Ok (p, s))
      by (rewrite (list_of_cls n Hb); by apply get_list_ok).
    assert (Hsm : ∀ q, small_of ((q, n) :: live) = (q, rnd n) :: small_of live ∧
      big_of ((q, n) :: live) = big_of live).
    { intros q. unfold small_of, big_of. cbn [omap list_omap fst snd].
      by rewrite (proj2 (Z.leb_le _ _)) by done. }
    apply (ends_run _ (if p =? 0 then _S_refill L (_S_round_up n) else
      next ← get_link p; put_list (list_of n) next;; mret p) _ s); [exact (bind_ok _ _ _ _ _ Hget)|].
    destruct (p =? 0) eqn:E0.
    + rewrite (round_up_rnd n Hb). destruct (cls_rnd n Hb) as [Ec Hr].
      eapply ends_mono; [apply (refill_ok s (rnd n)); [done|split; [apply rnd_mod|done]]|].
      intros q q' s' (-> & G & K). split; [done|]. apply Hdone; [done..| |done].
      by destruct (Hsm q) as [-> ->].
    + apply Z.eqb_neq in E0.
      destruct (pop_ok s p n _ _ (good_pool _ _ _ Hg) Hb Hp E0) as (next & E1 & E2 & H').
      eapply wp_bind, wp_intro; [exact E1|]. eapply wp_bind, wp_intro; [exact E2|].
      apply wp_ret. split; [done|]. apply Hdone; [done..| |exact (kept_refl _ s)].
      destruct (Hsm p) as [-> ->]. eapply good_same; [exact Hg| |done].
      eapply has_perm; [|reflexivity|exact H']. apply perm_swap.
Qed.

Lemma deallocate_wp s live p n : serves s ((p, n) :: live) →
  wp (deallocate p n) (λ _ s', serves s' live ∧ kept live s s') s.
Proof.
  intros [Hg [Hn Hl]%Forall_cons]. simpl in Hn. unfold deallocate, _MAX_BYTES.
  unfold small_of, big_of in Hg. cbn [omap list_omap fst snd] in Hg.
  fold (small_of live) (big_of live) in Hg. pose proof (good_pool _ _ _ Hg) as H.
  destruct (128 <? n) eqn:E.
  - apply Z.ltb_lt in E. rewrite (proj2 (Z.leb_gt _ _)) in Hg, H by done.
    destruct (has_free s p n _ _ H) as (E1 & H' & K').
    unfold malloc_deallocate, free.
    destruct H as (lists & chunks & H).
    destruct (big_block _ _ _ _ _ p n H ltac:(by left)) as [_ (Hp & _)]. simpl in Hp.
    rewrite (proj2 (Z.eqb_neq _ _)) by lia. eapply wp_intro; [exact E1|].
    split; [split; [|done]|apply kept_live; [done|by eapply kept_cons]].
    destruct Hg as [[Hle _] Hh]. split; [split|]; [done|exact H'|done].
  - apply Z.ltb_ge in E. rewrite (proj2 (Z.leb_le _ _)) in Hg, H by done.
    eapply push_object_wp; [|lia|].
    + eapply has_perm; [|reflexivity|exact H]. apply perm_swap.
    + intros s' H' K P _ _. split; [split; [|done]|apply kept_live; [done|by eapply kept_cons]].
      by eapply good_same.
Qed.

(** What was given back is taken again. *)
Lemma reuse_wp s p n small big : good s ((p, rnd n) :: small) big → 0 < n ≤ 128 →
  wp (deallocate p n;; allocate L n) (λ q s', q = p ∧ good s' ((p, rnd n) :: small) big ∧
    kept (small ++ big) s s' ∧ _S_free_list s' = _S_free_list s ∧ same_pool s s') s.
Proof.
  intros Hg Hb. destruct (cls_bound n Hb) as (Hc & _ & H8).
  assert (H : has s ((p, rnd n) :: pool s :: small) big).
  { eapply has_perm; [apply perm_swap|reflexivity|by apply good_pool]. }
  destruct (chunk_bounds _ _ _ _ _ H ltac:(lia)) as [Hp _].
  pose proof H as (lists & chunks & Ho).
  destruct (owns_list _ _ _ _ _ _ Ho Hc) as (old & ps & Hold & _ & _ & Hlen).
  unfold deallocate, allocate, _MAX_BYTES.
  rewrite (proj2 (Z.ltb_ge _ _)) by lia. apply wp_bind.
  eapply push_object_wp; [exact H|done|]. intros s1 H1 K1 P1 L1 O1.
  assert (Hp1 : _S_free_list s1 !! cls n = Some p) by (by rewrite L1, list_lookup_insert_eq).
  destruct (pop_ok s1 p n _ _ H1 Hb Hp1 ltac:(lia)) as (next & E1 & E2 & H2).
  rewrite (O1 old Hold) in E1. injection E1 as <-.
  eapply wp_bind, wp_intro; [rewrite (list_of_cls n Hb); by apply get_list_ok|].
  rewrite (proj2 (Z.eqb_neq _ _)) by lia.
  eapply wp_bind, wp_intro; [exact (O1 old Hold)|].
  eapply wp_bind, wp_intro; [exact E2|]. apply wp_ret. split; [done|]. split; [|split; [|split]].
  - eapply good_same; [exact Hg| |exact P1]. eapply has_perm; [|reflexivity|exact H2].
    apply perm_swap.
  - by apply kept_cons in K1.
  - simpl. by rewrite L1, list_insert_insert_eq, list_insert_id.
  - exact P1.
Qed.

(** *** What a client relies on *)

Lemma serves_perm s live live' : live ≡ₚ live' → serves s live → serves s live'.
Proof.
  intros P [H Hl]. split; [|by rewrite <- P].
  eapply good_perm; [..|exact H]; unfold small_of, big_of; by rewrite P.
Qed.

Lemma small_big_elem live p n : (p, n) ∈ live → 0 < n →
  ∃ m, (p, m) ∈ small_of live ++ big_of live ∧ n ≤ m.
Proof.
  intros Hp Hn. destruct (n <=? 128) eqn:E.
  - exists (rnd n). split; [|apply Z.leb_le in E; pose proof (cls_bound n); lia].
    apply elem_of_app. left. apply list_elem_of_omap. exists (p, n). simpl. by rewrite E.
  - exists n. split; [|lia]. apply elem_of_app. right. apply list_elem_of_omap.
    exists (p, n). simpl. by rewrite E.
Qed.

Lemma serves_mapped s live p n : serves s live → (p, n) ∈ live → mapped (mem s) p n.
Proof.
  intros [Hg Hl] Hp. pose proof (proj1 (Forall_forall _ _) Hl _ Hp) as Hn. simpl in Hn.
  destruct (small_big_elem live p n Hp Hn) as (m & Hm & Hle).
  destruct (good_pool _ _ _ Hg) as (lists & chunks & H). intros k Hk.
  apply (proj1 (Forall_forall _ _) (own_mapped _ _ _ _ _ H) (p, m));
    [rewrite elem_of_app, elem_of_app, elem_of_cons; rewrite elem_of_app in Hm; tauto|].
  unfold in_range in *. simpl. lia.
Qed.

Lemma serves_address s live p n : serves s live → (p, n) ∈ live → 0 < p ∧ p mod 8 = 0.
Proof.
  intros [Hg Hl] Hp. pose proof (proj1 (Forall_forall _ _) Hl _ Hp) as Hn. simpl in Hn.
  destruct (small_big_elem live p n Hp Hn) as (m & [Hm|Hm]%elem_of_app & Hle);
    destruct (good_pool _ _ _ Hg) as (lists & chunks & H).
  - destruct (small_aligned _ _ _ _ _ p m H) as (Ha & _); [by right|].
    destruct (small_bounds _ _ _ _ _ p m H); [|lia|done].
    apply elem_of_app. right. by right.
  - by destruct (big_block _ _ _ _ _ p m H Hm) as [_ (? & ? & _)].
Qed.

Lemma areas_cons p n live : 0 < n →
  apart (small_of ((p, n) :: live) ++ big_of ((p, n) :: live)) →
  ∃ n', n ≤ n' ∧ apart ((p, n') :: small_of live ++ big_of live).
Proof.
  intros Hn Ha. unfold small_of, big_of in Ha. cbn [omap list_omap fst snd] in Ha.
  destruct (n <=? 128) eqn:E.
  - exists (rnd n). split; [apply Z.leb_le in E; pose proof (cls_bound n); lia|done].
  - exists n. split; [lia|]. by rewrite Permutation_middle.
Qed.

Lemma areas_apart live : Forall (λ b, 0 < b.2) live →
  apart (small_of live ++ big_of live) → apart live.
Proof.
  induction live as [|[p n] live IH]; [done|]. intros [Hn Hl]%Forall_cons Ha.
  destruct (areas_cons p n live Hn Ha) as (n' & Hn' & [Hd Ha']).
  split; [|by apply IH]. apply Forall_forall. intros [q k] Hq.
  pose proof (proj1 (Forall_forall _ _) Hl _ Hq) as Hk. simpl in Hk.
  destruct (small_big_elem live q k Hq Hk) as (m & Hm & Hle).
  pose proof (proj1 (Forall_forall _ _) Hd _ Hm) as Hd'. unfold disj in *. simpl in *. lia.
Qed.

Lemma serves_apart s live : serves s live → apart live.
Proof.
  intros [Hg Hl]. apply areas_apart; [done|].
  destruct (good_pool _ _ _ Hg) as (lists & chunks & H).
  pose proof (own_apart _ _ _ _ _ H) as (_ & [_ Ha] & _)%apart_app. exact Ha.
Qed.

(** A client writes into its block. *)
Lemma serves_write s live p n m' : serves s ((p, n) :: live) →
  (∀ k, ¬ in_range p n k → m' !! k = mem s !! k) → mapped m' p n →
  serves (set_memory m' (blocks s) s) ((p, n) :: live).
Proof.
  intros Hs Hout Hm. destruct Hs as [Hg Hl]. split; [|done].
  pose proof (good_pool _ _ _ Hg) as (lists & chunks & H).
  eapply good_same; [exact Hg| |done]. exists lists, chunks.
  apply Forall_cons in Hl as [Hn Hl]. simpl in Hn.
  destruct (small_big_elem ((p, n) :: live) p n ltac:(by left) Hn) as (m & Hin & Hle).
  assert (Hin' : (p, m) ∈ (pool s :: small_of ((p, n) :: live)) ++ big_of ((p, n) :: live))
    by (cbn [app]; by right).
  apply owns_mem; [done|..].
  - apply Forall_forall. intros a Ha.
    pose proof (own_apart _ _ _ _ _ H) as (_ & _ & Hd)%apart_app.
    pose proof (proj1 (Forall_forall _ _) (proj1 (Forall_forall _ _) Hd a Ha) _ Hin') as Hda.
    eapply agree_outside; [exact Hout|]. unfold disj in Hda. simpl in Hda. lia.
  - apply Forall_forall. intros a Ha. apply (mapped_write (mem s) _ p n); [|done..].
    apply (proj1 (Forall_forall _ _) (own_mapped _ _ _ _ _ H)). apply elem_of_app. by right.
Qed.

Lemma write_live s live p n m' : serves s ((p, n) :: live) →
  (∀ k, ¬ in_range p n k → m' !! k = mem s !! k) →
  kept live s (set_memory m' (blocks s) s).
Proof.
  intros Hs Hout. eapply Forall_impl; [exact (proj1 (serves_apart _ _ Hs))|].
  intros a Hd. eapply agree_outside; [exact Hout|]. unfold disj in Hd. simpl in Hd. lia.
Qed.

(** *** Reallocation *)

(** The first [k] bytes at [q] in [s'] are those at [p] in [s]. *)
Definition copied (s : alst) (p : Z) (s' : alst) (q k : Z) : Prop :=
  ∀ i, 0 ≤ i < k → mem s' !! (q + i) = mem s !! (p + i).

Lemma holds_copied s p s' q bs :
  holds (mem s) p bs → holds (mem s') q bs → copied s p s' q (Z.of_nat (length bs)).
Proof.
  intros H1 H2 i Hi. destruct (lookup_lt_is_Some_2 bs (Z.to_nat i)) as [b Hb]; [lia|].
  pose proof (H1 _ _ Hb) as E1. pose proof (H2 _ _ Hb) as E2.
  rewrite Z2Nat.id in E1, E2 by lia. congruence.
Qed.

(** A write of [bs] into the block at the head of [live]. *)
Lemma write_client s live p n bs : serves s ((p, n) :: live) → Z.of_nat (length bs) ≤ n →
  ∃ m', write_bytes (mem s) p bs = Ok m' ∧ holds m' p bs ∧
    serves (set_memory m' (blocks s) s) ((p, n) :: live) ∧
    kept live s (set_memory m' (blocks s) s).
Proof.
  intros Hs Hl. pose proof (serves_mapped _ _ p n Hs ltac:(by left)) as Hm.
  destruct (write_ok (mem s) p bs) as (m' & E & Hh & Hout).
  { intros k Hk. apply Hm. unfold in_range in *. lia. }
  assert (∀ k, ¬ in_range p n k → m' !! k = mem s !! k) as Hout'.
  { intros k Hk. apply Hout. unfold in_range in *. lia. }
  exists m'. split; [done|]. split; [done|]. split; [|by eapply write_live].
  eapply serves_write; [done|done|].
  apply (mapped_write (mem s) m' p (Z.of_nat (length bs))); [done..|by apply holds_mapped].
Qed.

Lemma read_client s live p n k : serves s live → (p, n) ∈ live → 0 ≤ k ≤ n →
  ∃ bs, Z.of_nat (length bs) = k ∧ read_bytes (mem s) p (Z.to_nat k) = Ok bs ∧
    holds (mem s) p bs.
Proof.
  intros Hs Hp Hk. pose proof (serves_mapped _ _ p n Hs Hp) as Hm.
  destruct (mapped_holds (mem s) p k) as (bs & Hl & Hh); [lia|..].
  { intros i Hi. apply Hm. unfold in_range in *. lia. }
  exists bs. split; [lia|]. split; [|done]. rewrite <- Hl. by apply read_holds.
Qed.

Lemma memcpy_wp s live q p n o k (Q : unit → alst → Prop) :
  serves s ((q, n) :: live) → (p, o) ∈ live → 0 ≤ k ≤ n → k ≤ o →
  (∀ s', serves s' ((q, n) :: live) → kept live s s' → copied s p s' q k → Q tt s') →
  wp (memcpy q p k) Q s.
Proof.
  intros Hs Hp Hk Ho HQ.
  destruct (read_client s _ p o k Hs ltac:(by right) ltac:(lia)) as (bs & Hl & Er & Hh).
  destruct (write_client s live q n bs Hs ltac:(lia)) as (m' & Ew & Hh' & Hs' & Hk').
  unfold memcpy. apply wp_bind, wp_gets. cbn [id].
  eapply wp_lift_bind; [exact Er|]. eapply wp_lift_bind; [exact Ew|].
  apply wp_modify, HQ; [done..|]. rewrite <- Hl. by apply holds_copied.
Qed.

Lemma kept_copied live s s' p n : kept live s s' → (p, n) ∈ live → copied s p s' p n.
Proof.
  intros H Hp i Hi. apply (proj1 (Forall_forall _ _) H (p, n) Hp).
  unfold in_range. simpl. lia.
Qed.

Lemma copied_trans s1 p s2 q s3 r k :
  copied s1 p s2 q k → copied s2 q s3 r k → copied s1 p s3 r k.
Proof. intros H1 H2 i Hi. by rewrite H2, H1. Qed.

Lemma copied_le s p s' q n k : copied s p s' q n → k ≤ n → copied s p s' q k.
Proof. intros H Hk i Hi. apply H. lia. Qed.

Lemma serves_big s live p n : serves s ((p, n) :: live) → 128 < n →
  has s (pool s :: small_of live) ((p, n) :: big_of live) ∧ Forall (λ b, 0 < b.2) live ∧
  0 ≤ (pool s).2 ∧ heap_ok s.
Proof.
  intros [[[Hle H] Hh] [_ Hl]%Forall_cons] Hn. unfold small_of, big_of in H.
  cbn [omap list_omap fst snd] in H. rewrite (proj2 (Z.leb_gt _ _)) in H by done.
  split; [done|]. split; [done|]. split; [simpl; lia|done].
Qed.

Lemma big_serves s live p n : has s (pool s :: small_of live) ((p, n) :: big_of live) →
  Forall (λ b, 0 < b.2) live → 0 ≤ (pool s).2 → heap_ok s → 128 < n →
  serves s ((p, n) :: live).
Proof.
  intros H Hl Hp Hh Hn. simpl in Hp. split; [|by constructor; [simpl; lia|]].
  split; [split; [lia|]|done]. unfold small_of, big_of. cbn [omap list_omap fst snd].
  by rewrite (proj2 (Z.leb_gt _ _)) by done.
Qed.

(** The C library moves a large block. *)
Lemma move_block_wp s live p o q n : serves s ((p, o) :: live) → 128 < o → 128 < n →
  fresh (delete p (blocks s)) q n →
  wp (move_block L p n q) (λ _ s', serves s' ((q, n) :: live) ∧ kept live s s' ∧
    copied s p s' q (Z.min o n)) s.
Proof.
  intros Hs Ho Hn Hf. destruct (serves_big _ _ _ _ Hs Ho) as (H & Hl & Hp & Hh).
  pose proof H as (lists & chunks & Ho').
  destruct (big_block _ _ _ _ _ p o Ho' ltac:(by left)) as [Hb _].
  destruct (read_client s _ p o (Z.min o n) Hs ltac:(by left) ltac:(lia))
    as (bs & Hlen & Er & Hh1).
  destruct (has_free s p o _ _ H) as (E1 & H1 & K1).
  destruct (has_big L (without_block p o s) q n _ _ H1 Hf) as [H2 K2].
  set (s2 := with_block L q n (without_block p o s)) in *.
  assert (Hs2 : serves s2 ((q, n) :: live)) by (by apply big_serves).
  destruct (write_client s2 live q n bs Hs2 ltac:(lia)) as (m' & Ew & Hh' & Hs' & K').
  unfold move_block. apply wp_bind, wp_gets. cbn [id]. rewrite Hb.
  eapply wp_lift_bind; [exact Er|].
  apply wp_bind. eapply wp_intro; [exact E1|].
  apply wp_bind, wp_modify. apply wp_bind, wp_gets. cbn [id].
  eapply wp_lift_bind; [exact Ew|]. apply wp_modify.
  split; [done|]. split.
  - apply areas_kept_trans with s2; [|done]. apply kept_live; [done|].
    apply kept_cons in K1, K2. by eapply areas_kept_trans.
  - rewrite <- Hlen. by apply holds_copied.
Qed.

Lemma realloc_wp s live p o n : serves s ((p, o) :: live) → 128 < o → 128 < n →
  wp (realloc L p n) (λ q s', q = realloc_at L (blocks s) p n ∧ (q = 0 ∧ s' = s ∨
    serves s' ((q, n) :: live) ∧ kept live s s' ∧ copied s p s' q (Z.min o n))) s.
Proof.
  intros Hs Ho Hn. destruct (serves_address s _ p o Hs ltac:(by left)) as [Hp _].
  destruct (serves_big _ _ _ _ Hs Ho) as ((lists & chunks & H) & _).
  destruct (big_block _ _ _ _ _ p o H ltac:(by left)) as [Hb _].
  unfold realloc. rewrite (proj2 (Z.eqb_neq _ _)) by lia. apply wp_bind, wp_gets.
  destruct (realloc_at L (blocks s) p n =? 0) eqn:E;
    [apply Z.eqb_eq in E; rewrite E; apply wp_ret; by auto|].
  apply Z.eqb_neq in E. apply wp_bind.
  eapply wp_mono; [eapply (move_block_wp s live p o _ n); [done..|]|].
  - apply realloc_fresh; [lia|by eexists|done].
  - intros [] s' Hs'. apply wp_ret. by auto.
Qed.

Lemma round_up_eq o n : 0 < o < word_max - 7 → 0 < n < word_max - 7 →
  o ≤ 128 ∨ n ≤ 128 → _S_round_up o = _S_round_up n ↔
  o ≤ 128 ∧ n ≤ 128 ∧ rnd o = rnd n.
Proof.
  intros Ho Hn Hor. rewrite !round_up_spec by lia.
  pose proof (Z.div_mod (o + 7) 8 ltac:(lia)). pose proof (Z.mod_pos_bound (o + 7) 8 ltac:(lia)).
  pose proof (Z.div_mod (n + 7) 8 ltac:(lia)). pose proof (Z.mod_pos_bound (n + 7) 8 ltac:(lia)).
  unfold rnd, cls. pose proof (div_up o) as Eo. pose proof (div_up n) as En.
  pose proof (Z.div_pos (o - 1) 8 ltac:(lia) ltac:(lia)).
  pose proof (Z.div_pos (n - 1) 8 ltac:(lia) ltac:(lia)).
  rewrite !Z2Nat.id by lia. lia.
Qed.

(** Another size of the same class needs nothing. *)
Lemma serves_resize s live p o n : serves s ((p, o) :: live) → 0 < n →
  o ≤ 128 → n ≤ 128 → rnd o = rnd n → serves s ((p, n) :: live).
Proof.
  intros [Hg [_ Hl]%Forall_cons] Hn Ho Hn' E. split; [|by constructor].
  unfold small_of, big_of in *. cbn [omap list_omap fst snd] in *.
  rewrite (proj2 (Z.leb_le o 128)), E in Hg by done.
  by rewrite (proj2 (Z.leb_le n 128)) by done.
Qed.

(** What [reallocate] returns: what [realloc] does, the same block, or a new one. *)
Definition reallocate_spec (s : alst) (p o n : Z) : res Z :=
  if (128 <? o) && (128 <? n) then Ok (realloc_at L (blocks s) p n)
  else if (o <=? 128) && (n <=? 128) && (rnd o =? rnd n) then Ok p
  else allocate_spec s n.

Lemma reallocate_ok s live p o n : serves s ((p, o) :: live) →
  0 < o < word_max - 7 → 0 < n < word_max - 7 →
  ends (reallocate L p o n) s (reallocate_spec s p o n) (λ q q' s', q' = q ∧
    (q = 0 ∧ s' = s ∧ 128 < o ∧ 128 < n ∨
     serves s' ((q, n) :: live) ∧ kept live s s' ∧ copied s p s' q (Z.min o n))).
Proof.
  intros Hs Ho Hn. unfold reallocate, reallocate_spec, _MAX_BYTES.
  destruct ((128 <? o) && (128 <? n)) eqn:Eb.
  { apply andb_true_iff in Eb as [Eo%Z.ltb_lt En%Z.ltb_lt].
    eapply wp_mono; [by apply (realloc_wp s live p o n)|]. intros q s' [-> [[-> ->]|H]]; auto 6. }
  apply andb_false_iff in Eb as Hor. rewrite !Z.ltb_ge in Hor.
  replace ((o <=? 128) && (n <=? 128) && (rnd o =? rnd n))
    with (_S_round_up o =? _S_round_up n).
  2: { apply eq_true_iff_eq. rewrite !andb_true_iff, !Z.eqb_eq, !Z.leb_le.
       rewrite round_up_eq by done. tauto. }
  destruct (_S_round_up o =? _S_round_up n) eqn:E.
  - apply Z.eqb_eq, round_up_eq in E as (Ho' & Hn' & E); [|done..].
    apply wp_ret. split; [done|]. right.
    split; [apply (serves_resize s live p o n); [done|lia|done..]|].
    split; [apply kept_refl|done].
  - clear E Eb. pose proof (allocate_ok s _ n Hs ltac:(lia)) as Ha.
    destruct (allocate_spec s n) as [q|f]; cbn [ends] in *.
    2: { unfold mbind, M_bind. by rewrite Ha. }
    apply wp_bind. eapply wp_mono; [exact Ha|]. intros q' s1 (-> & S1 & K1). cbv zeta.
    replace (if o <? n then o else n) with (Z.min o n) by (destruct (Z.ltb_spec o n); lia).
    apply wp_bind. eapply (memcpy_wp s1 _ q p n o); [exact S1|by left|lia..|].
    intros s2 S2 K2 C2. apply wp_bind.
    eapply wp_mono; [apply (deallocate_wp s2 ((q, n) :: live) p o)|].
    { eapply serves_perm; [|exact S2]. apply perm_swap. }
    intros _ s3 [S3 K3]. apply wp_ret. split; [done|]. right. split; [done|].
    pose proof (kept_cons _ _ _ _ K1). pose proof (kept_cons _ _ _ _ K2).
    split.
    + eapply areas_kept_trans; [done|]. eapply areas_kept_trans; [done|]. by eapply kept_cons.
    + eapply copied_trans; [eapply copied_le; [by eapply kept_copied; [exact K1|left]|lia]|].
      eapply copied_trans; [exact C2|].
      eapply copied_le; [by eapply kept_copied; [exact K3|left]|lia].
Qed.

End Memory.
