(* ===== verification/StlAllocSpec.v ===== *)
(** * StlAllocSpec: what the pool allocator does for its clients

    A request is served, or the run ends where [_S_refill] stores through a pointer
    that has no value, or with a handler of exhausted memory that does not return;
    which of these is a function of the state ([allocate_spec], [reallocate_spec],
    [chunk_spec]).  The theorems hold for any C library that gives blocks apart from
    those in use. *)
From stdpp Require Import gmap list strings.
From Stdlib Require Import ZArith Strings.Byte.
From S2P Require Import Prelude Bytes ByteMem StlAlloc StlAllocInv StlAllocProofs.
Open Scope Z_scope.

(** ** Requests of a client *)

(** A block is named by its number among the live ones. *)
Inductive request :=
  | Allocate (n : Z)
  | Deallocate (i : nat)
  | Reallocate (i : nat) (n : Z)
  | Write (i : nat) (off : nat) (bs : list byte).

Definition valid_size (n : Z) : bool := (0 <? n) && (n <? word_max - 7).

(** What a client does with its live blocks; a request for a block or of a size
    that there is not is not made. *)
Definition write_at (p : Z) (bs : list byte) : M alst unit :=
  s ← gets id; m ← lift (write_bytes (mem s) p bs); modify (set_memory m (blocks s)).

Definition serve (L : libc) (live : list area) (r : request) : M alst (list area) :=
  match r with
  | Allocate n =>
    if valid_size n then p ← allocate L n; mret ((p, n) :: live) else mret live
  | Deallocate i =>
    match live !! i with
    | Some (p, n) => deallocate p n;; mret (delete i live)
    | None => mret live
    end
  | Reallocate i n =>
    match live !! i with
    | Some (p, o) =>
      if valid_size n then
        q ← reallocate L p o n;
        mret (if q =? 0 then live else <[i := (q, n)]> live)
      else mret live
    | None => mret live
    end
  | Write i off bs =>
    match live !! i with
    | Some (p, n) =>
      if Z.of_nat (off + length bs) <=? n
      then write_at (p + Z.of_nat off) bs;; mret live else mret live
    | None => mret live
    end
  end.

Fixpoint serve_all (L : libc) (live : list area) (rs : list request) : M alst (list area) :=
  match rs with
  | [] => mret live
  | r :: rs' => live' ← serve L live r; serve_all L live' rs'
  end.

(** Whether a request is served, and moves its block: see [allocate_spec] and
    [reallocate_spec]. *)
Definition request_spec (L : libc) (s : alst) (live : list area) (r : request) : res bool :=
  match r with
  | Allocate n => if valid_size n then _ ← allocate_spec L s n; mret true else mret true
  | Reallocate i n =>
    match live !! i with
    | Some (p, o) =>
      if valid_size n then q ← reallocate_spec L s p o n; mret (negb (q =? 0)) else mret true
    | None => mret true
    end
  | _ => mret true
  end.

(** What the blocks hold, a byte that was not written being [None].  The C library
    may refuse to move a large block, which then stays. *)
Abbreviation content := (list (option byte)).

Definition spec_serve (c : list content) (r : request) (moved : bool) : list content :=
  match r with
  | Allocate n => if valid_size n then replicate (Z.to_nat n) None :: c else c
  | Deallocate i => delete i c
  | Reallocate i n =>
    match c !! i with
    | Some x =>
      if valid_size n && (moved || (Z.of_nat (length x) <=? 128) || (n <=? 128))
      then <[i := resize (Z.to_nat n) None x]> c else c
    | None => c
    end
  | Write i off bs =>
    match c !! i with
    | Some x =>
      if (off + length bs <=? length x)%nat
      then <[i := list_inserts off (Some <$> bs) x]> c else c
    | None => c
    end
  end.

Fixpoint spec_serve_all (c : list content) (rs : list request) (moved : list bool) : list content :=
  match rs, moved with
  | r :: rs', m :: moved' => spec_serve_all (spec_serve c r m) rs' moved'
  | _, _ => c
  end.

(** The block [b] holds [x]. *)
Definition block_holds (s : alst) (b : area) (x : content) : Prop :=
  length x = Z.to_nat b.2 ∧
  ∀ i v, x !! i = Some (Some v) → mem s !! (b.1 + Z.of_nat i) = Some v.

Record client_ok (s : alst) (live : list area) (c : list content) : Prop := ClientOk {
  cl_serves : serves s live;
  cl_sizes : Forall (λ b, b.2 < word_max - 7) live;
  cl_holds : Forall2 (block_holds s) live c
}.

(** ** Lemmas *)

Lemma valid_size_spec n : valid_size n = true ↔ 0 < n < word_max - 7.
Proof. unfold valid_size. rewrite andb_true_iff, !Z.ltb_lt. done. Qed.

Lemma block_holds_kept s s' (live : list area) (c : list content) :
  kept live s s' → Forall2 (block_holds s) live c → Forall2 (block_holds s') live c.
Proof.
  intros Hk H. eapply Forall2_impl_lookup; [exact H|].
  intros i b x Hb _ [Hl Hx]. split; [done|]. intros j v Hj. rewrite <- (Hx j v Hj).
  apply (Forall_lookup_1 _ _ _ _ Hk Hb). apply lookup_lt_Some in Hj. unfold in_range. lia.
Qed.

Lemma Forall2_insert_delete {A B} (P : A → B → Prop) l k i x y : (i < length l)%nat →
  Forall2 P (delete i l) (delete i k) → length l = length k → P x y →
  Forall2 P (<[i := x]> l) (<[i := y]> k).
Proof.
  revert k i. induction l as [|a l IH]; intros [|b k] [|i]; simpl; try lia.
  - intros _ H _ Hp. by constructor.
  - intros Hi H Hl Hp. inversion H as [|? ? ? ? Hab Hlk]; subst.
    constructor; [done|]. apply IH; [lia|done|lia|done].
Qed.

Lemma Forall2_delete_ {A B} (P : A → B → Prop) l k i :
  Forall2 P l k → Forall2 P (delete i l) (delete i k).
Proof. intros H. revert i. induction H as [|? ? ? ? ? ? IH]; intros [|i]; simpl; auto. Qed.

Lemma insert_delete_perm {A} (l : list A) i x : (i < length l)%nat →
  x :: delete i l ≡ₚ <[i := x]> l.
Proof.
  revert i. induction l as [|a l IH]; intros [|i]; simpl; try lia; [done|].
  intros Hi. rewrite <- IH by lia. apply perm_swap.
Qed.

Lemma delete_out {A} (l : list A) i : l !! i = None → delete i l = l.
Proof. revert i. induction l as [|a l IH]; intros [|i]; simpl; [done..|]. intros H. by rewrite IH. Qed.

(** An operation on the block [i] that leaves the others alone. *)
Lemma client_update s s' live c i b b' x x' :
  client_ok s live c → live !! i = Some b → c !! i = Some x →
  serves s' (b' :: delete i live) → kept (delete i live) s s' →
  b'.2 < word_max - 7 → block_holds s' b' x' →
  client_ok s' (<[i := b']> live) (<[i := x']> c).
Proof.
  intros [Hs Hz Hh] Hb Hx Hs' Hk Hb' Hx'. pose proof (lookup_lt_Some _ _ _ Hb) as Hl. split.
  - eapply serves_perm; [by apply insert_delete_perm|done].
  - by apply Forall_insert.
  - apply Forall2_insert_delete; [done| |by eapply Forall2_length|done].
    eapply block_holds_kept; [exact Hk|]. by apply Forall2_delete_.
Qed.

Lemma client_delete s s' live c i : client_ok s live c →
  serves s' (delete i live) → kept (delete i live) s s' →
  client_ok s' (delete i live) (delete i c).
Proof.
  intros [Hs Hz Hh] Hs' Hk. split; [done|by apply Forall_delete|].
  eapply block_holds_kept; [exact Hk|]. by apply Forall2_delete_.
Qed.

Lemma client_at s live c i b : client_ok s live c → live !! i = Some b →
  serves s (b :: delete i live) ∧ ∃ x, c !! i = Some x ∧ block_holds s b x ∧
    0 < b.2 < word_max - 7.
Proof.
  intros [Hs Hz Hh] Hb. split.
  - eapply serves_perm; [|exact Hs]. by apply delete_Permutation.
  - destruct (Forall2_lookup_l _ _ _ _ _ Hh Hb) as (x & Hx & Hbx). exists x.
    pose proof (Forall_lookup_1 _ _ _ _ Hz Hb). pose proof (Forall_lookup_1 _ _ _ _ (proj2 Hs) Hb).
    done.
Qed.

Lemma block_holds_fresh s p n : block_holds s (p, n) (replicate (Z.to_nat n) None).
Proof.
  split; [by rewrite length_replicate|]. intros i v [H _]%lookup_replicate. done.
Qed.

Lemma block_holds_copied s s' p q o n x : 0 ≤ o → 0 ≤ n → block_holds s (p, o) x →
  copied s p s' q (Z.min o n) → block_holds s' (q, n) (resize (Z.to_nat n) None x).
Proof.
  intros Ho Hn [Hl Hx] Hc. simpl in *. split; [by rewrite length_resize|]. intros i v Hi. simpl.
  pose proof (lookup_lt_Some _ _ _ Hi) as Hlt. rewrite length_resize in Hlt.
  destruct (decide (i < length x)%nat) as [Hix|Hix].
  - rewrite lookup_resize in Hi by lia. rewrite <- (Hx i v Hi). apply Hc. lia.
  - rewrite lookup_resize_new in Hi by lia. done.
Qed.

Lemma block_holds_write s m' p n x off bs : block_holds s (p, n) x →
  (off + length bs ≤ length x)%nat → holds m' (p + Z.of_nat off) bs →
  (∀ k, ¬ in_range (p + Z.of_nat off) (Z.of_nat (length bs)) k → m' !! k = mem s !! k) →
  block_holds (set_memory m' (blocks s) s) (p, n) (list_inserts off (Some <$> bs) x).
Proof.
  intros [Hl Hx] Ho Hh Hout. simpl in *. split; [by rewrite length_inserts|]. intros i v Hi. simpl.
  destruct (decide (off ≤ i < off + length bs)%nat) as [Hin|Hin].
  - rewrite list_lookup_inserts in Hi by (rewrite ?length_fmap; lia).
    rewrite list_lookup_fmap_Some in Hi. destruct Hi as (b & [= ->] & Hb).
    pose proof (Hh _ _ Hb) as E. rewrite <- E. f_equal. lia.
  - rewrite Hout by (unfold in_range; lia). apply Hx. rewrite <- Hi. symmetry.
    destruct (decide (i < off)%nat); [by apply list_lookup_inserts_lt|].
    apply list_lookup_inserts_ge. rewrite length_fmap. lia.
Qed.

Section Serve.
Context (L : libc) `{!LibcOk L}.

Lemma serve_allocate s live c n : client_ok s live c → valid_size n = true →
  ends (allocate L n) s (allocate_spec L s n) (λ _ p s',
    client_ok s' ((p, n) :: live) (replicate (Z.to_nat n) None :: c)).
Proof.
  intros [Hs Hz Hh] Hn%valid_size_spec.
  eapply ends_mono; [apply (allocate_ok L s live n); [done|lia]|].
  intros q p s' (-> & Hs' & Hk). split; [done|by constructor; [simpl; lia|]|].
  constructor; [apply block_holds_fresh|]. by eapply block_holds_kept.
Qed.

Lemma serve_reallocate s live c i p o n x : client_ok s live c → live !! i = Some (p, o) →
  c !! i = Some x → valid_size n = true →
  ends (reallocate L p o n) s (reallocate_spec L s p o n) (λ q' q s', q = q' ∧
    if q =? 0 then client_ok s' live c ∧ 128 < Z.of_nat (length x) ∧ 128 < n
    else client_ok s' (<[i := (q, n)]> live) (<[i := resize (Z.to_nat n) None x]> c)).
Proof.
  intros Hc Hi Hx Hn%valid_size_spec.
  destruct (client_at _ _ _ _ _ Hc Hi) as (Hs & x' & Hx' & Hb & Ho). simpl in Ho.
  simplify_eq. eapply ends_mono; [by apply (reallocate_ok L s (delete i live) p o n)|].
  intros q q' s' [-> [(-> & -> & Ho' & Hn')|(Hs' & Hk & Hcp)]]; split; try done.
  - change (0 =? 0) with true. cbn iota. split; [done|].
    destruct Hb as [-> _]. simpl. lia.
  - destruct (serves_address s' _ q n Hs' ltac:(by left)) as [Hq _].
    rewrite (proj2 (Z.eqb_neq _ _)) by lia.
    eapply client_update; [done..|simpl; lia|].
    eapply block_holds_copied; [| |exact Hb|exact Hcp]; lia.
Qed.

Lemma serve_write s live c i p n x off bs : client_ok s live c → live !! i = Some (p, n) →
  c !! i = Some x → (off + length bs ≤ length x)%nat →
  wp (write_at (p + Z.of_nat off) bs) (λ _ s',
    client_ok s' live (<[i := list_inserts off (Some <$> bs) x]> c)) s.
Proof.
  intros Hc Hi Hx Hl. destruct (client_at _ _ _ _ _ Hc Hi) as (Hs & x' & Hx' & Hb & Ho).
  simplify_eq. pose proof Hb as [Hlen _]. simpl in Ho, Hlen.
  pose proof (serves_mapped _ _ p n Hs ltac:(by left)) as Hm.
  destruct (write_ok (mem s) (p + Z.of_nat off) bs) as (m' & E & Hh & Hout).
  { intros k Hk. apply Hm. unfold in_range in *. lia. }
  unfold write_at. apply wp_bind, wp_gets. cbn [id].
  eapply wp_lift_bind; [exact E|]. apply wp_modify.
  rewrite <- (list_insert_id live i (p, n)) by done.
  assert (Hout' : ∀ k, ¬ in_range p n k → m' !! k = mem s !! k).
  { intros k Hk. apply Hout. unfold in_range in *. lia. }
  eapply client_update; [done..| | |simpl; lia|by apply block_holds_write].
  - eapply serves_write; [done|done|].
    apply (mapped_write (mem s) m' (p + Z.of_nat off) (Z.of_nat (length bs)));
      [done..|by apply holds_mapped].
  - by eapply write_live.
Qed.

Lemma ends_ret {A B} (a : A) (b : B) (Q : B → A → alst → Prop) s :
  Q b a s → ends (mret a) s (mret b) Q.
Proof. done. Qed.

Lemma ends_bind {A B A' B'} (m : M alst A) (k : A → M alst A') s (spec : res B) (g : B → B')
    (Q : B' → A' → alst → Prop) :
  ends m s spec (λ b a s', wp (k a) (Q (g b)) s') →
  ends (m ≫= k) s (b ← spec; mret (g b)) Q.
Proof.
  destruct spec as [b|f]; simpl; [apply wp_bind|]. intros H. unfold mbind, M_bind. by rewrite H.
Qed.

Lemma request_served s live c r : client_ok s live c →
  ends (serve L live r) s (request_spec L s live r) (λ moved live' s',
    client_ok s' live' (spec_serve c r moved)).
Proof.
  intros Hc. assert (Hnone : ∀ i, live !! i = None → c !! i = None).
  { intros i. rewrite !lookup_ge_None. by rewrite (Forall2_length _ _ _ (cl_holds _ _ _ Hc)). }
  destruct r as [n|i|i n|i off bs]; cbn [serve spec_serve request_spec].
  - destruct (valid_size n) eqn:E; [|done].
    apply ends_bind. eapply ends_mono; [by apply serve_allocate|].
    intros z p s' H. by apply wp_ret.
  - destruct (live !! i) as [[p n]|] eqn:Hi.
    + destruct (client_at _ _ _ _ _ Hc Hi) as (Hs & _). apply wp_bind.
      eapply wp_mono; [by apply (deallocate_wp s (delete i live) p n)|].
      intros [] s' [Hs' Hk]. apply wp_ret. by eapply client_delete.
    + apply ends_ret. by rewrite delete_out by auto.
  - destruct (live !! i) as [[p o]|] eqn:Hi; [|apply ends_ret; by rewrite (Hnone i Hi)].
    destruct (client_at _ _ _ _ _ Hc Hi) as (_ & x & Hx & Hb & _). rewrite Hx.
    destruct (valid_size n) eqn:E; [|by apply ends_ret].
    apply ends_bind. eapply ends_mono; [by apply (serve_reallocate s live c i p o n x)|].
    cbv beta. intros q' q s' [<- H]. apply wp_ret. destruct (q =? 0); [|exact H].
    destruct H as (H & H1 & H2). cbn [andb orb negb].
    by rewrite (proj2 (Z.leb_gt _ _) H1), (proj2 (Z.leb_gt _ _) H2).
  - destruct (live !! i) as [[p n]|] eqn:Hi; [|apply ends_ret; by rewrite (Hnone i Hi)].
    destruct (client_at _ _ _ _ _ Hc Hi) as (_ & x & Hx & [Hlen _] & Hn). rewrite Hx.
    simpl in Hlen, Hn.
    destruct (Z.leb_spec (Z.of_nat (off + length bs)) n) as [Hle|Hle].
    + rewrite (proj2 (Nat.leb_le _ _)) by lia. apply wp_bind.
      eapply wp_mono; [by apply (serve_write s live c i p n x off bs); [..|lia]|].
      intros [] s' H. by apply wp_ret.
    + by rewrite (proj2 (Nat.leb_gt _ _)) by lia.
Qed.
End Serve.

(** ** The theorems *)

Lemma init_owns : owns init_alloc (replicate 16 []) [] [(0, 0)] [].
Proof.
  assert (free_areas (replicate 16 []) = []) as E by done.
  split; rewrite ?E; cbn [app]; try done.
  - repeat constructor.
  - constructor; [by repeat split|done].
  - constructor; [by left|done].
  - constructor; [|done]. intros k Hk. unfold in_range in Hk. simpl in Hk. lia.
Qed.

Lemma init_serves : serves init_alloc [].
Proof.
  split; [|done]. split; [|by unfold heap_ok, word_max].
  split; [done|]. exists (replicate 16 []), []. apply init_owns.
Qed.

(** The request at which a run ends, after those before it are served. *)
Definition ends_at (L : libc) (live : list area) (rs : list request) (s : alst) (f : fault) : Prop :=
  ∃ k r live' s', rs !! k = Some r ∧ serve_all L live (take k rs) s = Ok (live', s') ∧
    request_spec L s' live' r = Fault f.

Lemma serve_all_ok (L : libc) `{!LibcOk L} rs : ∀ s live c, client_ok s live c →
  match serve_all L live rs s with
  | Ok (live', s') => ∃ moved, length moved = length rs ∧
      client_ok s' live' (spec_serve_all c rs moved)
  | Fault f => ends_at L live rs s f
  end.
Proof.
  induction rs as [|r rs IH]; intros s live c H; cbn [serve_all]; [by exists []; split|].
  pose proof (request_served L s live c r H) as Hr.
  destruct (request_spec L s live r) as [m|f] eqn:Er; cbn [ends] in Hr.
  - apply wp_elim in Hr as (live1 & s1 & E & H1). rewrite (bind_ok _ _ _ _ _ E).
    specialize (IH s1 live1 _ H1). destruct (serve_all L live1 rs s1) as [[live2 s2]|f].
    + destruct IH as (moved & Hl & H2). exists (m :: moved). simpl. auto.
    + destruct IH as (k & r' & live' & s' & Hk & E' & Ef).
      exists (S k), r', live', s'. split; [done|]. split; [|done]. simpl.
      by rewrite (bind_ok _ _ _ _ _ E).
  - unfold mbind, M_bind. rewrite Hr. exists 0%nat, r, live, s. done.
Qed.

Lemma init_client : client_ok init_alloc [] [].
Proof. split; [apply init_serves|done|done]. Qed.

Section Theorems.
Context (L : libc) `{!LibcOk L}.

(** C9: The pool allocator serves a client's allocations, deallocations,
    reallocations and writes, from any state that it may leave to its clients, the
    initial one among them.  The blocks are apart from each other, aligned and in the
    allocator's memory, and each holds the bytes that the client wrote last and that
    the reallocations kept, whatever the free lists, the pool and exhausted memory.
    A run ends only at a request for which the state says so: a small one whose list
    is empty and for which [_S_chunk_alloc] gives another number of objects than one
    (the pointer of [_S_refill] that has no value), or one that finds memory exhausted
    and a handler that does not return. *)
Theorem alloc_serves s live c rs : client_ok s live c →
  match serve_all L live rs s with
  | Ok (live', s') => apart live' ∧
      Forall (λ b, 0 < b.1 ∧ b.1 mod 8 = 0 ∧ mapped (mem s') b.1 b.2) live' ∧
      ∃ moved, length moved = length rs ∧
        Forall2 (block_holds s') live' (spec_serve_all c rs moved)
  | Fault f => ends_at L live rs s f
  end.
Proof.
  intros H. pose proof (serve_all_ok L rs s live c H) as Hr.
  destruct (serve_all L live rs s) as [[live' s']|f]; [|done].
  destruct Hr as (moved & Hl & [Hs Hz Hh]). split; [by eapply serves_apart|].
  split; [|by exists moved]. apply Forall_forall. intros [p n] Hp.
  destruct (serves_address _ _ _ _ Hs Hp). split; [done|]. split; [done|].
  by eapply serves_mapped.
Qed.

(** The pool, the free lists and the clients' blocks make up the allocator's memory. *)
Definition adds_up (s : alst) (live : list area) : Prop :=
  ∃ lists, length lists = 16%nat ∧ Forall2 (chain (mem s)) (_S_free_list s) lists ∧
    let areas := pool s :: free_areas lists ++ small_of live ++ big_of live in
    apart areas ∧ total areas = total (map_to_list (blocks s)).

Lemma serves_adds_up s live : serves s live → adds_up s live.
Proof.
  intros [Hg _]. destruct (good_pool _ _ _ Hg) as (lists & chunks & H). exists lists.
  split; [apply H|]. split; [apply H|]. cbv zeta.
  assert (P : pool s :: free_areas lists ++ small_of live ++ big_of live ≡ₚ
    free_areas lists ++ (pool s :: small_of live) ++ big_of live) by apply Permutation_middle.
  rewrite P. split; [apply H|]. rewrite (own_blocks _ _ _ _ _ H), (assoc_L (++)), !total_app.
  pose proof (own_total _ _ _ _ _ H) as Ht. rewrite total_app in Ht. lia.
Qed.

(** C16: No memory is lost or given twice.  Before and after any requests that are
    served the pool, the objects of the sixteen free lists and the clients' blocks, a
    small one at its rounded size, are apart, and their sizes add up to the sizes of
    the blocks that the allocator holds of the C library. *)
Theorem alloc_conserves s live c rs : client_ok s live c →
  adds_up s live ∧ ∀ live' s', serve_all L live rs s = Ok (live', s') → adds_up s' live'.
Proof.
  intros H. split; [by apply serves_adds_up, H|]. intros live' s' E.
  pose proof (serve_all_ok L rs s live c H) as Hr. rewrite E in Hr.
  destruct Hr as (moved & _ & H'). by apply serves_adds_up, H'.
Qed.

(** A block of at most 128 bytes that is given back is what the next request for
    its size gets, and the pool and the free lists are as they were before. *)
Lemma alloc_reuse s live p n : serves s ((p, n) :: live) → n ≤ 128 →
  wp (deallocate p n;; allocate L n) (λ q s', q = p ∧ serves s' ((p, n) :: live) ∧
    kept live s s' ∧ _S_free_list s' = _S_free_list s ∧ same_pool s s') s.
Proof.
  intros [Hg Hl] Hn. pose proof Hl as [Hn0 Hl0]%Forall_cons. simpl in Hn0.
  unfold serves, small_of, big_of in *. cbn [omap list_omap fst snd] in *.
  rewrite (proj2 (Z.leb_le _ _) Hn) in *.
  eapply wp_mono; [apply (reuse_wp L); [exact Hg|lia]|].
  intros q s' (-> & Hg' & Hk & E & P). repeat (split; [done|]). split; [|done].
  by apply kept_live.
Qed.
(** C29: A small allocation, as it is written.  It takes the first object of the list of
    its size; when the list is empty, [_S_chunk_alloc] is asked for twenty objects, and
    gives as many as its memory has: the pool when it has room for one, else a block of
    [malloc], the first object of a longer size, or what the handler of exhausted
    memory gets.  One object is the answer; more than one is the store through
    [__my_free_list], which has no value; and no memory ends the run. *)
Theorem alloc_as_written s live n : serves s live → 0 < n ≤ 128 →
  ∃ head, _S_free_list s !! cls n = Some head ∧
  match allocate L n s with
  | Ok (p, s') => serves s' ((p, n) :: live) ∧ kept live s s' ∧
      (head ≠ 0 ∧ p = head ∨
       head = 0 ∧ ∃ size, chunk_area L s (rnd n) 20 = Ok (p, size) ∧
         rnd n ≤ size < 2 * rnd n)
  | Fault f => head = 0 ∧
      (f = FUninit ∧ (∃ p size, chunk_area L s (rnd n) 20 = Ok (p, size) ∧ 2 * rnd n ≤ size) ∨
       f = FAlloc ∧ chunk_area L s (rnd n) 20 = Fault FAlloc)
  end.
Proof.
  intros Hs Hb. pose proof Hs as [Hg _]. destruct (cls_bound n Hb) as (Hc & Hr & _).
  pose proof (good_pool _ _ _ Hg) as (lists & chunks & H).
  destruct (owns_list _ _ _ _ _ _ H Hc) as (head & ps & Hp & _). exists head. split; [done|].
  pose proof (allocate_ok L s live n Hs ltac:(lia)) as Ha. unfold allocate_spec in Ha.
  rewrite (proj2 (Z.leb_le _ _)), (aget_nat _ _ head Hp) in Ha by lia.
  cbn [mbind res_bind] in Ha. destruct (Z.eqb_spec head 0) as [->|Hh].
  - destruct (cls_rnd n Hb) as [_ Hr'].
    pose proof (chunk_area_size L s (rnd n) 20 (proj2 Hg) (conj (rnd_mod n) Hr') ltac:(lia)) as Hsz.
    unfold refill_spec, chunk_spec in Ha.
    destruct (chunk_area L s (rnd n) 20) as [[c size]|f]; cbn [mbind res_bind ends] in *.
    + unfold mret, res_ret in Ha. cbn [mbind res_bind fst snd] in *.
      assert (Hq : (Z.min 20 (size / rnd n) =? 1) = true ↔ size < 2 * rnd n).
      { rewrite Z.eqb_eq. assert (1 ≤ size / rnd n) by (apply Z.div_le_lower_bound; lia).
        pose proof (Z.div_lt_upper_bound size (rnd n) 2).
        pose proof (Z.div_le_lower_bound size (rnd n) 2). lia. }
      destruct (Z.min 20 (size / rnd n) =? 1); cbn [ends] in Ha.
      * apply wp_elim in Ha as (q & s' & -> & -> & S & K). split; [done|]. split; [done|].
        right. split; [done|]. exists size. split; [done|]. split; [done|]. by apply Hq.
      * rewrite Ha. split; [done|]. left. split; [done|]. exists c, size. split; [done|].
        destruct (decide (size < 2 * rnd n)) as [E|]; [|lia]. by apply Hq in E.
    + rewrite Ha. split; [done|]. right. by rewrite Hsz.
  - cbn [ends] in Ha. apply wp_elim in Ha as (q & s' & -> & -> & S & K). auto.
Qed.

(** *** A program from its start *)

(** The lists are empty and there is no pool. *)
Definition no_pool (s : alst) : Prop :=
  _S_free_list s = replicate 16 0 ∧ _S_start_free s = 0 ∧ _S_end_free s = 0.

(** [m] leaves the lists and the pool alone. *)
Definition keeps_pool {A} (m : M alst A) : Prop :=
  ∀ s a s', m s = Ok (a, s') → no_pool s → no_pool s'.

Lemma keeps_bind {A B} (m : M alst A) (k : A → M alst B) :
  keeps_pool m → (∀ a, keeps_pool (k a)) → keeps_pool (m ≫= k).
Proof.
  intros Hm Hk s b s'. unfold mbind, M_bind. destruct (m s) as [[a s1]|f] eqn:E; [|done].
  intros E' H. eapply Hk; [exact E'|]. by eapply Hm.
Qed.

Lemma keeps_gets {A} (g : alst → A) : keeps_pool (gets g).
Proof. by intros s a s' [= <- <-]. Qed.

Lemma keeps_ret {A} (a : A) : keeps_pool (mret a).
Proof. by intros s b s' [= <- <-]. Qed.

Lemma keeps_lift {A} (r : res A) : keeps_pool (lift r).
Proof. intros s b s'. unfold lift. destruct r; [by intros [= <- <-]|done]. Qed.

Lemma keeps_memory m b : keeps_pool (modify (set_memory m b)).
Proof. by intros s [] s' [= <-]. Qed.

Lemma keeps_fail {A} f : keeps_pool (fail (A := A) f).
Proof. done. Qed.

Lemma keeps_add p n : keeps_pool (add_block L p n).
Proof. by intros s [] s' [= <-]. Qed.

Ltac keeps := repeat first
  [ apply keeps_ret | apply keeps_gets | apply keeps_lift | apply keeps_memory
  | apply keeps_fail | apply keeps_add | apply keeps_bind; [|intros ?] | case_match
  | progress unfold del_block, move_block, _S_oom_malloc, malloc, malloc_allocate, realloc,
      malloc_deallocate, free, write_at ].

Lemma no_pool_fault s n : no_pool s → heap_ok s → 0 < n ≤ 128 →
  ∃ f, allocate_spec L s n = Fault f ∧ (f = FUninit ∨ f = FAlloc).
Proof.
  intros (El & E1 & E2) Hh Hb. unfold allocate_spec. rewrite (proj2 (Z.leb_le _ _)), El by lia.
  destruct (cls_bound n Hb) as (Hc & _ & H8). destruct (cls_rnd n Hb) as [_ Hr].
  rewrite (aget_nat _ _ 0) by (apply lookup_replicate; lia). cbn [mbind res_bind].
  change (0 =? 0) with true. cbn iota. unfold refill_spec, chunk_spec, chunk_area, pool.
  rewrite E1, E2. cbn [fst snd]. rewrite (proj2 (Z.leb_gt _ _)) by lia.
  destruct (bytes_to_get_ok (rnd n * 20) (_S_heap_size s)) as [_ Hg];
    [lia|by rewrite Zmult_mod, rnd_mod|done|].
  set (m := u64 (2 * (rnd n * 20) + _)) in *.
  assert (Hq : (Z.min 20 (m / rnd n) =? 1) = false).
  { apply Z.eqb_neq. assert (20 ≤ m / rnd n) by (apply Z.div_le_lower_bound; lia). lia. }
  assert (Hff : first_free (cls (rnd n)) s = None).
  { unfold first_free. rewrite El. apply list_find_None, Forall_forall.
    intros p Hp Hp0. apply Hp0. apply list_elem_of_lookup in Hp as [j Hj].
    rewrite lookup_drop in Hj. by apply lookup_replicate in Hj as [-> _]. }
  unfold more_spec. rewrite Hff. unfold mret, res_ret.
  destruct (malloc_at L (blocks s) m =? 0); [destruct (oom_malloc L (blocks s) m)|];
    cbn [mbind res_bind fst snd]; rewrite ?Hq; eauto.
Qed.

Definition large_only (s : alst) (live : list area) : Prop :=
  no_pool s ∧ Forall (λ b, 128 < b.2) live.

Lemma large_allocate s n : no_pool s → heap_ok s → 0 < n →
  match allocate_spec L s n with Ok _ => 128 < n | Fault f => f = FUninit ∨ f = FAlloc end.
Proof.
  intros Hp Hh Hn. destruct (Z.le_gt_cases n 128) as [Hle|Hlt].
  - by destruct (no_pool_fault s n Hp Hh ltac:(lia)) as (f & -> & Hf).
  - unfold allocate_spec. rewrite (proj2 (Z.leb_gt _ _)) by lia. cbv zeta.
    destruct (_ =? 0); [|lia]. destruct (oom_malloc _ _ _); [lia|auto].
Qed.

(** What the specification of a request says in such a program. *)
Lemma large_request s live r : heap_ok s → large_only s live →
  match request_spec L s live r with
  | Ok _ => match r with
      | Allocate n => ¬ 0 < n ≤ 128
      | Reallocate i n => is_Some (live !! i) → valid_size n = true → 128 < n
      | _ => True
      end
  | Fault f => f = FUninit ∨ f = FAlloc
  end.
Proof.
  intros Hh [Hp Hl]. destruct r as [n|i|i n|i off bs]; cbn [request_spec]; [|done| |done].
  - destruct (valid_size n) eqn:E.
    + apply valid_size_spec in E. pose proof (large_allocate s n Hp Hh ltac:(lia)).
      destruct (allocate_spec L s n); cbn; [lia|done].
    + intros H. enough (valid_size n = true) by congruence. apply valid_size_spec.
      unfold word_max. lia.
  - destruct (live !! i) as [[p o]|] eqn:Hi; [|cbn; by intros []].
    destruct (valid_size n) eqn:E; [|by cbn].
    pose proof (Forall_lookup_1 _ _ _ _ Hl Hi) as Ho. simpl in Ho. apply valid_size_spec in E.
    unfold reallocate_spec. rewrite (proj2 (Z.ltb_lt 128 o)), (proj2 (Z.leb_gt o 128)) by lia.
    cbn [andb]. destruct (Z.ltb_spec 128 n); [by cbn|].
    pose proof (large_allocate s n Hp Hh ltac:(lia)).
    destruct (allocate_spec L s n); [cbn; lia|done].
Qed.

Lemma ends_ok {A B} (m : M alst A) s (spec : res B) Q : ends m s spec Q →
  match m s with Ok _ => ∃ b, spec = Ok b | Fault f => spec = Fault f end.
Proof.
  unfold ends, wp, safely. destruct spec as [b|f]; destruct (m s); try done; [eauto|congruence].
Qed.

(** The large requests keep the lists empty. *)
Lemma keeps_serve live r : Forall (λ b, 128 < b.2) live →
  match r with
  | Allocate n => valid_size n = true → 128 < n
  | Reallocate i n => is_Some (live !! i) → valid_size n = true → 128 < n
  | _ => True
  end → keeps_pool (serve L live r).
Proof.
  intros Hl Hr. destruct r as [n|i|i n|i off bs]; cbn [serve].
  - destruct (valid_size n) eqn:E; [|keeps]. unfold allocate, _MAX_BYTES.
    rewrite (proj2 (Z.ltb_lt _ _)) by auto. keeps.
  - destruct (live !! i) as [[p n]|] eqn:Hi; [|keeps].
    pose proof (Forall_lookup_1 _ _ _ _ Hl Hi) as Ho. simpl in Ho.
    unfold deallocate, _MAX_BYTES. rewrite (proj2 (Z.ltb_lt _ _)) by done. keeps.
  - destruct (live !! i) as [[p o]|] eqn:Hi; [|keeps].
    destruct (valid_size n) eqn:E; [|keeps].
    pose proof (Forall_lookup_1 _ _ _ _ Hl Hi) as Ho. simpl in Ho.
    unfold reallocate, _MAX_BYTES. rewrite (proj2 (Z.ltb_lt _ o)), (proj2 (Z.ltb_lt _ n)) by eauto.
    cbn [andb]. keeps.
  - keeps.
Qed.

Lemma bind_ret_inv {A B} (m : M alst A) (g : A → B) s b s' :
  (a ← m; mret (g a)) s = Ok (b, s') → ∃ a, b = g a.
Proof.
  unfold mbind, M_bind. destruct (m s) as [[a s1]|f]; [|done]. intros [= <- <-]. eauto.
Qed.

Lemma serve_blocks live r s live' s' : Forall (λ b, 128 < b.2) live →
  match r with
  | Allocate n => valid_size n = true → 128 < n
  | Reallocate i n => is_Some (live !! i) → valid_size n = true → 128 < n
  | _ => True
  end → serve L live r s = Ok (live', s') → Forall (λ b, 128 < b.2) live'.
Proof.
  intros Hl Hr. destruct r as [n|i|i n|i off bs]; cbn [serve].
  - destruct (valid_size n) eqn:E; [|by intros [= <- <-]].
    intros [p ->]%bind_ret_inv. constructor; [by apply Hr|done].
  - destruct (live !! i) as [[p n]|]; [|by intros [= <- <-]].
    intros [_ ->]%bind_ret_inv. by apply Forall_delete.
  - destruct (live !! i) as [[p o]|]; [|by intros [= <- <-]].
    destruct (valid_size n) eqn:E; [|by intros [= <- <-]].
    intros [q ->]%bind_ret_inv. destruct (q =? 0); [done|].
    apply Forall_insert; [done|]. by apply Hr.
  - destruct (live !! i) as [[p n]|]; [|by intros [= <- <-]].
    destruct (_ <=? n); [|by intros [= <- <-]]. by intros [_ ->]%bind_ret_inv.
Qed.

Lemma serve_large s live c r : client_ok s live c → large_only s live →
  match serve L live r s with
  | Ok (live', s') => large_only s' live' ∧ ∀ n, r = Allocate n → ¬ 0 < n ≤ 128
  | Fault f => f = FUninit ∨ f = FAlloc
  end.
Proof.
  intros Hc Hlo. pose proof Hlo as [Hp Hl].
  pose proof (ends_ok _ _ _ _ (request_served L s live c r Hc)) as He.
  pose proof (large_request s live r (proj2 (proj1 (cl_serves _ _ _ Hc))) Hlo) as Hq.
  destruct (serve L live r s) as [[live' s']|f] eqn:E; [|by rewrite He in Hq].
  destruct He as [b He]. rewrite He in Hq.
  assert (Hr : match r with
    | Allocate n => valid_size n = true → 128 < n
    | Reallocate i n => is_Some (live !! i) → valid_size n = true → 128 < n
    | _ => True end).
  { destruct r; try done. intros Hn%valid_size_spec. lia. }
  split; [|by intros n ->]. split; [by eapply keeps_serve|by eapply serve_blocks].
Qed.

(** A program that uses this allocator from its start never gets a small block: its
    requests over 128 bytes are blocks of the C library, the sixteen lists and the pool
    stay empty, and the run ends with its first allocation of 1 to 128 bytes (or its
    first reallocation to such a size), at the pointer of [_S_refill] that has no value
    or with exhausted memory. *)
Lemma alloc_from_start rs :
  match serve_all L [] rs init_alloc with
  | Ok (live, s) => Forall (λ b, 128 < b.2) live ∧ _S_free_list s = replicate 16 0 ∧
      pool s = (0, 0) ∧ ∀ n, Allocate n ∈ rs → ¬ 0 < n ≤ 128
  | Fault f => f = FUninit ∨ f = FAlloc
  end.
Proof.
  enough (H : ∀ s live c, client_ok s live c → large_only s live →
    match serve_all L live rs s with
    | Ok (live', s') => large_only s' live' ∧ ∀ n, Allocate n ∈ rs → ¬ 0 < n ≤ 128
    | Fault f => f = FUninit ∨ f = FAlloc
    end).
  { specialize (H _ _ _ init_client). destruct (serve_all L [] rs init_alloc) as [[live s]|f].
    - destruct H as [[(El & E1 & E2) Hl] Hn]; [by repeat split|]. unfold pool.
      by rewrite E1, E2.
    - apply H. by repeat split. }
  induction rs as [|r rs' IH]; intros s live c Hc Hlo; cbn [serve_all].
  { split; [done|]. by intros n ?%not_elem_of_nil. }
  pose proof (serve_large s live c r Hc Hlo) as Hr. pose proof (request_served L s live c r Hc) as Ho.
  pose proof (ends_ok _ _ _ _ Ho) as He.
  destruct (serve L live r s) as [[live1 s1]|f] eqn:E.
  2: { unfold mbind, M_bind. by rewrite E. }
  rewrite (bind_ok _ _ _ _ _ E). destruct Hr as [Hlo1 Hn]. destruct He as [b He].
  rewrite He in Ho. apply wp_elim in Ho as (l & s2 & E' & Hc1). rewrite E in E'.
  injection E' as <- <-. specialize (IH s1 live1 _ Hc1 Hlo1).
  destruct (serve_all L live1 rs' s1) as [[live2 s2]|f]; [|done].
  destruct IH as [IH1 IH2]. split; [done|]. intros n [Hrn|Hin]%elem_of_cons; [by apply Hn|by apply IH2].
Qed.

(** The objects of a chunk of [k] from [c] on. *)
Definition chunk_objects (c size k : Z) : list area :=
  (λ p, (p, size)) <$> nodes c size (Z.to_nat k).

Lemma small_objects size l live : good_size size →
  small_of (((λ p : Z, (p, size)) <$> l) ++ live) = ((λ p, (p, size)) <$> l) ++ small_of live ∧
  big_of (((λ p : Z, (p, size)) <$> l) ++ live) = big_of live.
Proof.
  intros [Hm Hs]. unfold small_of, big_of. induction l as [|p l [IH1 IH2]]; [done|].
  rewrite fmap_cons. cbn [app omap list_omap fst snd].
  rewrite (proj2 (Z.leb_le size 128)) by lia. rewrite (rnd_id size) by (done || lia).
  by rewrite IH1, IH2.
Qed.

Lemma serves_objects s s' live c size k : serves s live → good_size size → 1 ≤ k →
  good s' ((c, size * k) :: small_of live) (big_of live) →
  serves s' (chunk_objects c size k ++ live).
Proof.
  intros [_ Hl] Hs Hk G. pose proof Hs as [Hm Hb].
  split.
  - unfold chunk_objects. destruct (small_objects size (nodes c size (Z.to_nat k)) live Hs)
      as [-> ->].
    replace (Z.to_nat k) with (S (Z.to_nat k - 1)) by lia.
    eapply good_same; [exact G| |done].
    eapply has_perm; [symmetry; apply Permutation_middle|reflexivity|].
    apply has_objects; [lia|done|].
    replace (Z.of_nat (S (Z.to_nat k - 1))) with k by lia.
    eapply has_perm; [apply perm_swap|reflexivity|by apply good_pool].
  - apply Forall_app. split; [|done]. apply Forall_fmap, Forall_forall. intros p _. simpl. lia.
Qed.

(** C30: [_S_chunk_alloc] cuts as many objects as are wanted and there is room for from
    the pool; when there is not room for one, from a block of [malloc] for twice the
    wanted objects and a sixteenth of the heap, the first free object of a longer size,
    or what the handler of exhausted memory gets, after the rest of the pool has gone to
    its free list.  The objects are apart from each other and from the blocks of the
    clients, which keep their content, and nothing is lost.  It calls itself at most
    once. *)
Theorem chunk_alloc_correct s live size nobjs :
  serves s live → good_size size → 1 ≤ nobjs ≤ 20 →
  match chunk_area L s size nobjs with
  | Ok (c, n) => size ≤ n ∧ wp (_S_chunk_alloc L chunk_fuel size nobjs) (λ ck s',
      ck = (c, Z.min nobjs (n / size)) ∧ serves s' (chunk_objects c size ck.2 ++ live) ∧
      apart (chunk_objects c size ck.2 ++ live) ∧ kept live s s' ∧
      adds_up s' (chunk_objects c size ck.2 ++ live)) s
  | Fault f => f = FAlloc ∧ _S_chunk_alloc L chunk_fuel size nobjs s = Fault FAlloc
  end.
Proof.
  intros Hs Hsz Hn. pose proof Hs as [Hg Hl].
  pose proof (chunk_area_size L s size nobjs (proj2 Hg) Hsz Hn) as Ha.
  pose proof (chunk_alloc_ok L s size nobjs _ _ Hg Hsz Hn) as H. unfold chunk_spec in H.
  destruct (chunk_area L s size nobjs) as [[c n]|f]; unfold mret, res_ret in H;
    cbn [mbind res_bind ends fst snd] in *; [|by subst f].
  split; [done|]. eapply wp_mono; [exact H|].
  intros ck s' (-> & Hk & G & K). cbn [fst snd] in *. split; [done|].
  assert (Hs' : serves s' (chunk_objects c size (nobjs `min` (n / size)) ++ live))
    by (apply (serves_objects s); [done..|lia|exact G]).
  split; [done|]. split; [by eapply serves_apart|]. split; [by apply kept_live|].
  by apply serves_adds_up.
Qed.

End Theorems.

(** C31: The sizes.  [_S_round_up] is the least multiple of eight that is not less; the
    lists of the sizes from 1 to 128 are the sixteen of the array, and the objects of a
    list have the rounded size; the list of size 0 is far out of the array. *)
Theorem alloc_sizes :
  (∀ n, 0 ≤ n < word_max - 7 → _S_round_up n mod 8 = 0 ∧ n ≤ _S_round_up n < n + 8) ∧
  (∀ n, 0 < n ≤ 128 → 0 ≤ _S_freelist_index n < 16 ∧
    _S_round_up n = 8 * (_S_freelist_index n + 1)) ∧
  _S_freelist_index 0 = word_max - 1 ∧
  (∀ L s, length (_S_free_list s) = 16%nat → allocate L 0 s = Fault FBounds).
Proof.
  split; [|split; [|split; [done|]]].
  - intros n Hn. rewrite round_up_spec by done.
    pose proof (Z.div_mod (n + 7) 8 ltac:(lia)). pose proof (Z.mod_pos_bound (n + 7) 8 ltac:(lia)).
    rewrite Z.mul_comm, Z.mod_mul by lia. lia.
  - intros n Hn. destruct (cls_bound n Hn) as (Hc & _). pose proof (list_of_cls n Hn) as E.
    unfold list_of in E. injection E as ->. rewrite round_up_rnd by done. unfold rnd. lia.
  - intros L s Hl. unfold allocate, get_list, list_of.
    change (_MAX_BYTES <? 0) with false. cbn iota.
    change (_S_freelist_index 0) with (word_max - 1).
    unfold mbind, M_bind, gets, lift, aget. rewrite bool_decide_eq_true_2 by done.
    rewrite lookup_ge_None_2; [done|]. rewrite Hl. unfold word_max. lia.
Qed.

(** ** The interface of the allocators *)

(** What [simple_alloc] relies on: from the blocks in use an allocation makes one
    more, apart from them, and a deallocation takes one away. *)
Class AllocatorOk (E : Prop) (A : allocator) (I : alst → list area → Prop) : Prop := {
  ok_allocate s live n : I s live → 0 < n →
    wpt FAlloc E (al_allocate A n) (λ p s', I s' ((p, n) :: live) ∧ kept live s s') s;
  ok_deallocate s live p n : I s ((p, n) :: live) →
    wp (al_deallocate A p n) (λ _ s', I s' live ∧ kept live s s') s;
  ok_block s live p n : I s ((p, n) :: live) →
    0 < p ∧ mapped (mem s) p n ∧ Forall (disj (p, n)) live
}.

(** [malloc_alloc] does not use the pool: every block is one of [malloc]. *)
Definition malloc_serves (s : alst) (live : list area) : Prop := good s [] live.

#[global] Instance malloc_alloc_ok L `{!LibcOk L} :
  AllocatorOk (gives_up L) (malloc_alloc L) malloc_serves.
Proof.
  split.
  - intros s live n Hg Hn. eapply wpt_mono; [by apply (malloc_allocate_wpt L)|].
    intros p s' [Hf ->]. destruct (has_big L s p n _ _ (good_pool _ _ _ Hg) Hf) as [H' K'].
    split; [|by eapply kept_cons]. destruct Hg as [[Hle _] Hh]. by split; [split|].
  - intros s live p n Hg. destruct (has_free s p n _ _ (good_pool _ _ _ Hg)) as (E & H' & K').
    destruct (good_pool _ _ _ Hg) as (lists & chunks & H).
    destruct (big_block _ _ _ _ _ p n H ltac:(by left)) as [_ (Hp & _)]. simpl in Hp.
    unfold malloc_alloc, al_deallocate, malloc_deallocate, free.
    rewrite (proj2 (Z.eqb_neq _ _)) by lia. eapply wp_intro; [exact E|].
    split; [|by eapply kept_cons]. destruct Hg as [[Hle _] Hh]. by split; [split|].
  - intros s live p n Hg. destruct (good_pool _ _ _ Hg) as (lists & chunks & H).
    destruct (big_block _ _ _ _ _ p n H ltac:(by left)) as [_ (Hp & _)]. simpl in Hp.
    split; [done|]. split.
    + apply (proj1 (Forall_forall _ _) (own_mapped _ _ _ _ _ H) (p, n)).
      apply elem_of_app. right. right. by left.
    + pose proof (own_apart _ _ _ _ _ H) as (_ & (_ & [Ha _] & _)%apart_app & _)%apart_app. done.
Qed.

Lemma simple_alloc_spec E A I `{!AllocatorOk E A I} size_of n s live :
  I s live → (0 < n → 0 < u64 (n * size_of)) → 0 ≤ n →
  wpt FAlloc E (simple_allocate_n size_of A n) (λ p s',
    (n = 0 → p = 0 ∧ s' = s) ∧
    (0 < n → I s' ((p, u64 (n * size_of)) :: live) ∧ kept live s s' ∧ p ≠ 0 ∧
      mapped (mem s') p (u64 (n * size_of)) ∧ Forall (disj (p, u64 (n * size_of))) live ∧
      (n * size_of < word_max → 0 < size_of → u64 (n * size_of) = n * size_of)) ∧
    wp (simple_deallocate_n size_of A p n) (λ _ s2, I s2 live ∧ kept live s s2) s') s.
Proof.
  intros HI Hu Hn. unfold simple_allocate_n, simple_deallocate_n.
  destruct (n =? 0) eqn:E0.
  - apply Z.eqb_eq in E0 as ->. apply wpt_wp, wp_ret. split; [done|]. split; [lia|].
    apply wp_ret. split; [done|apply kept_refl].
  - apply Z.eqb_neq in E0. assert (0 < n) as Hn' by lia. specialize (Hu Hn').
    eapply wpt_mono; [by apply (ok_allocate (E := E))|]. intros p s' [HI' Hk].
    destruct (ok_block _ _ _ _ HI') as (Hp & Hm & Hd).
    split; [lia|]. split.
    + intros _. repeat (split; [first [done|lia]|]). intros Hlt Hs. apply u64_id.
      unfold word_max in Hlt. lia.
    + eapply wp_mono; [by apply (ok_deallocate (E := E))|]. intros [] s2 [HI2 Hk2].
      split; [done|]. by eapply areas_kept_trans.
Qed.

(** [simple_alloc] over any allocator that keeps the interface: a request for no
    element is NULL and changes nothing; one for [n] elements gets a block of
    [n * sizeof] bytes, apart from the others, as long as the product is a [size_t],
    and else one of the product modulo 2^64 only; giving it back with the same [n]
    leaves the blocks that there were. *)
Lemma simple_alloc_ok E A I `{!AllocatorOk E A I} size_of n s live :
  I s live → (0 < n → 0 < u64 (n * size_of)) → 0 ≤ n →
  wpt FAlloc E (simple_allocate_n size_of A n) (λ p s',
    (n = 0 → p = 0 ∧ s' = s) ∧
    (0 < n → I s' ((p, u64 (n * size_of)) :: live) ∧ kept live s s' ∧ p ≠ 0 ∧
      mapped (mem s') p (u64 (n * size_of)) ∧ Forall (disj (p, u64 (n * size_of))) live ∧
      (n * size_of < word_max → 0 < size_of → u64 (n * size_of) = n * size_of)) ∧
    wp (simple_deallocate_n size_of A p n) (λ _ s2, I s2 live ∧ kept live s s2) s') s.
Proof. exact (simple_alloc_spec E A I size_of n s live). Qed.

(** C28: [_Vector_base] over any allocator that keeps the interface: the storage of a
    vector of [n] elements is apart from the other blocks, holds [n] elements from
    [_M_start] to [_M_end_of_storage], and no element is constructed; its destructor
    gives back what the constructor took, also for the vectors without storage. *)
Theorem vector_base_ok E A I `{!AllocatorOk E A I} size_of n s live :
  I s live → 0 < size_of → 0 ≤ n → n * size_of < word_max →
  wpt FAlloc E (_Vector_base_n size_of A n) (λ v s', kept live s s' ∧
    _M_finish v = _M_start v ∧ _M_end_of_storage v = _M_start v + n * size_of ∧
    (if n =? 0 then _M_start v = 0 ∧ I s' live else
     I s' ((_M_start v, n * size_of) :: live) ∧ mapped (mem s') (_M_start v) (n * size_of) ∧
     Forall (disj (_M_start v, n * size_of)) live) ∧
    wp (_Vector_base_destroy size_of A v) (λ _ s2, I s2 live ∧ kept live s s2) s') s ∧
  wp (v ← _Vector_base; _Vector_base_destroy size_of A v) (λ _ s', s' = s) s.
Proof.
  intros HI Hs Hn Hlt. assert (Hu : u64 (n * size_of) = n * size_of).
  { apply u64_id. unfold word_max in Hlt. nia. }
  split; [|apply wp_bind, wp_ret; unfold _Vector_base_destroy; simpl;
    unfold _M_deallocate, simple_deallocate_n; by rewrite Z.div_0_l by lia].
  unfold _Vector_base_n, _M_allocate. apply wpt_bind.
  eapply wpt_mono; [apply (simple_alloc_spec E A I size_of n s live HI); [nia|done]|].
  intros p s' (H0 & Hp & Hd). apply wpt_wp, wp_ret. unfold _Vector_base_destroy. cbn.
  replace (u64 ((p + n * size_of - p) / size_of)) with n.
  2: { replace (p + n * size_of - p) with (n * size_of) by lia.
       rewrite Z.div_mul by lia. rewrite u64_id; [done|]. unfold word_max in Hlt. nia. }
  rewrite Hu in Hp. destruct (Z.eqb_spec n 0) as [->|Hne].
  - destruct (H0 eq_refl) as [-> ->]. split; [apply kept_refl|].
    split; [done|]. split; [simpl; lia|]. split; [done|]. exact Hd.
  - destruct (Hp ltac:(lia)) as (HI' & Hk & _ & Hm & Hda & _). done.
Qed.

(** ** A concrete C library *)

(** Memory ends at [limit]; the next block begins where the others end.  The handler
    of exhausted memory finds twice as much, and then gives up. *)
Definition end_of (b : gmap Z Z) : Z := map_fold (λ p n e, Z.max e (p + n)) 16 b.
Definition bump (limit : Z) (b : gmap Z Z) (n : Z) : option Z :=
  let p := 16 * ((end_of b + 15) / 16) in
  if (0 <? n) && (p + n <=? limit) then Some p else None.

Definition demo_libc (limit : Z) : libc := {|
  malloc_at := λ b n, default 0 (bump limit b n);
  realloc_at := λ b p n, default 0 (bump limit b n);
  oom_malloc := λ b n, bump (2 * limit) b n;
  oom_realloc := λ b p n, None;
  junk := λ _, "x"%byte
|}.

Lemma end_of_spec b : 16 ≤ end_of b ∧ ∀ p n, b !! p = Some n → p + n ≤ end_of b.
Proof.
  unfold end_of. refine (map_fold_weak_ind
    (λ e b, 16 ≤ e ∧ ∀ p n, b !! p = Some n → p + n ≤ e) _ _ _ _ b).
  - split; [done|]. intros p n H. by rewrite lookup_empty in H.
  - intros q m b' e Hq [He IH]. split; [lia|]. intros p n.
    rewrite lookup_insert_Some. intros [[-> ->]|[_ H]]; [lia|]. specialize (IH _ _ H). lia.
Qed.

Lemma bump_fresh limit b b' n p : limit ≤ 9223372036854775808 → b' ⊆ b →
  bump limit b n = Some p → fresh b' p n.
Proof.
  unfold bump. intros Hl Hs. destruct ((0 <? n) && _) eqn:E; [|done]. intros [= <-].
  apply andb_true_iff in E as [Hn%Z.ltb_lt Hm%Z.leb_le].
  destruct (end_of_spec b) as [H16 He].
  pose proof (Z.div_mod (end_of b + 15) 16 ltac:(lia)).
  pose proof (Z.mod_pos_bound (end_of b + 15) 16 ltac:(lia)).
  split.
  - unfold good_block. simpl. split; [lia|]. split; [|lia].
    replace (16 * ((end_of b + 15) / 16)) with (2 * ((end_of b + 15) / 16) * 8) by lia.
    apply Z.mod_mul. lia.
  - intros q m Hq. specialize (He q m (lookup_weaken _ _ _ _ Hq Hs)). left. simpl. lia.
Qed.

Lemma demo_libc_ok limit : limit ≤ 4611686018427387904 → LibcOk (demo_libc limit).
Proof.
  intros Hl. split; simpl.
  - intros b n Hn H. destruct (bump limit b n) as [p|] eqn:E; [|done].
    by apply (bump_fresh limit b); [lia| |].
  - intros b p n Hn _ H. destruct (bump limit b n) as [q|] eqn:E; [|done].
    by apply (bump_fresh limit b); [lia|apply delete_subseteq|].
  - intros b n p Hn E. by apply (bump_fresh (2 * limit) b); [lia| |].
Qed.

#[global] Instance demo_2000_ok : LibcOk (demo_libc 2000).
Proof. by apply demo_libc_ok. Qed.

(** The state after two chunks of 20 and of 19 objects of 32 bytes, which a client
    holds: the pool has room for one more. *)
Definition demo_chunk (nobjs : Z) (s : alst) : (Z * Z) * alst :=
  match _S_chunk_alloc (demo_libc 2000) chunk_fuel 32 nobjs s with
  | Ok r => r | Fault _ => ((0, 0), s)
  end.
Definition demo_chunk1 : alst := (demo_chunk 20 init_alloc).2.
Definition demo_pool : alst := (demo_chunk 19 demo_chunk1).2.
Definition demo_live : list area := chunk_objects 656 32 19 ++ chunk_objects 16 32 20 ++ [].

Lemma demo_chunk_serves nobjs s live c k : serves s live → 1 ≤ nobjs ≤ 20 →
  (demo_chunk nobjs s).1 = (c, k) → c ≠ 0 →
  serves (demo_chunk nobjs s).2 (chunk_objects c 32 k ++ live).
Proof.
  intros Hs Hn E Hc. pose proof Hs as [Hg _].
  assert (Hz : good_size 32) by (split; [done|lia]).
  pose proof (chunk_alloc_ok (demo_libc 2000) s 32 nobjs _ _ Hg Hz Hn) as H.
  unfold demo_chunk in *. destruct (chunk_spec _ s 32 nobjs) as [b|f]; cbn [ends] in H.
  - apply wp_elim in H as (ck & s' & E' & _ & Hk & G & _). rewrite E' in *.
    cbn [fst] in E. subst ck. cbn [fst snd] in *. by apply (serves_objects s); [..|lia|].
  - rewrite H in E. cbn [fst] in E. congruence.
Qed.

Lemma demo_live_sizes : Forall (λ b, b.2 = 32) demo_live.
Proof. vm_compute. repeat constructor. Qed.

Lemma demo_pool_serves : serves demo_pool demo_live.
Proof.
  apply (demo_chunk_serves 19 demo_chunk1); [|lia|vm_compute; reflexivity|done].
  apply (demo_chunk_serves 20 init_alloc); [apply init_serves|lia|vm_compute; reflexivity|done].
Qed.

(** The client has not written into its objects yet. *)
Definition demo_content : list content := replicate 39 (replicate 32 None).

Lemma demo_client : client_ok demo_pool demo_live demo_content.
Proof.
  split; [apply demo_pool_serves| |].
  - eapply Forall_impl; [apply demo_live_sizes|]. intros b E. simpl in *. unfold word_max. lia.
  - apply Forall2_same_length_lookup. split; [vm_compute; reflexivity|].
    intros i [p n] x Hi [-> _]%lookup_replicate.
    pose proof (Forall_lookup_1 _ _ _ _ demo_live_sizes Hi) as E. simpl in E. subst n.
    apply block_holds_fresh.
Qed.

(** The last object of the pool, objects of the free list, blocks of [malloc], and an
    object of a longer list when [malloc] gives no more. *)
Definition demo_requests : list request :=
  [Allocate 30; Write 0 3 (bytes "hello"); Deallocate 1; Deallocate 1; Allocate 25;
   Reallocate 1 400; Write 1 300 (bytes "large"); Reallocate 1 30; Deallocate 3;
   Allocate 24].

(** The longer list gives two objects of 16 bytes. *)
Definition demo_last : request := Allocate 10.

Definition demo_contents (r : res (list area * alst)) : option (list (list byte)) :=
  match r with
  | Ok (live, s) =>
    mapM (λ b, match read_bytes (mem s) b.1 (Z.to_nat b.2) with
               | Ok bs => Some bs | Fault _ => None end) live
  | Fault _ => None
  end.

Definition demo_final : res (list area * alst) :=
  serve_all (demo_libc 2000) demo_live demo_requests demo_pool.

Lemma demo_run : option_map (take 8) (demo_contents demo_final ≫= (λ l, l !! 2%nat)) =
  Some (bytes "xxxhello").
Proof. vm_compute. reflexivity. Qed.

Definition is_fault {A} (r : res A) (f : fault) : Prop :=
  match r with Ok _ => False | Fault g => g = f end.

(** ** Witnesses *)

(** A run that is served, and one that ends at its last request. *)
Lemma alloc_serves_witness :
  is_Some (demo_contents demo_final) ∧
  match serve_all (demo_libc 2000) demo_live demo_requests demo_pool with
  | Ok (live', s') => apart live' ∧
      Forall (λ b, 0 < b.1 ∧ b.1 mod 8 = 0 ∧ mapped (mem s') b.1 b.2) live' ∧
      ∃ moved, length moved = length demo_requests ∧
        Forall2 (block_holds s') live' (spec_serve_all demo_content demo_requests moved)
  | Fault f => ends_at (demo_libc 2000) demo_live demo_requests demo_pool f
  end ∧
  is_fault (serve_all (demo_libc 2000) demo_live (demo_requests ++ [demo_last]) demo_pool)
    FUninit.
Proof.
  split; [by eexists; vm_compute|]. split; [|vm_compute; reflexivity].
  exact (alloc_serves (demo_libc 2000) demo_pool demo_live demo_content demo_requests demo_client).
Defined.

Lemma alloc_conserves_witness :
  is_Some (demo_contents demo_final) ∧ adds_up demo_pool demo_live ∧
  ∀ live' s', serve_all (demo_libc 2000) demo_live demo_requests demo_pool = Ok (live', s') →
    adds_up s' live'.
Proof.
  split; [by eexists; vm_compute|].
  exact (alloc_conserves (demo_libc 2000) demo_pool demo_live demo_content demo_requests
    demo_client).
Defined.

(** Objects of 40 bytes: the pool is too short, [malloc] has no more and no list is
    longer, and the handler of exhausted memory gets a chunk. *)
Lemma chunk_alloc_correct_witness :
  chunk_area (demo_libc 2000) demo_pool 40 20 = Ok (1296, 1680) ∧
  match chunk_area (demo_libc 2000) demo_pool 40 20 with
  | Ok (c, n) => 40 ≤ n ∧ wp (_S_chunk_alloc (demo_libc 2000) chunk_fuel 40 20) (λ ck s',
      ck = (c, Z.min 20 (n / 40)) ∧ serves s' (chunk_objects c 40 ck.2 ++ demo_live) ∧
      apart (chunk_objects c 40 ck.2 ++ demo_live) ∧ kept demo_live demo_pool s' ∧
      adds_up s' (chunk_objects c 40 ck.2 ++ demo_live)) demo_pool
  | Fault f => f = FAlloc ∧
      _S_chunk_alloc (demo_libc 2000) chunk_fuel 40 20 demo_pool = Fault FAlloc
  end.
Proof.
  split; [vm_compute; reflexivity|].
  apply (chunk_alloc_correct (demo_libc 2000) demo_pool demo_live 40 20);
    [apply demo_pool_serves|split; [done|lia]|lia].
Defined.

Lemma alloc_from_start_witness :
  is_fault (serve_all (demo_libc 2000) [] [Allocate 200; Reallocate 0 300; Allocate 20] init_alloc)
    FUninit ∧
  match serve_all (demo_libc 2000) [] [Allocate 200; Reallocate 0 300; Allocate 129] init_alloc with
  | Ok (live, s) => Forall (λ b, 128 < b.2) live ∧ _S_free_list s = replicate 16 0 ∧
      pool s = (0, 0) ∧ ∀ n, Allocate n ∈ [Allocate 200; Reallocate 0 300; Allocate 129] →
        ¬ 0 < n ≤ 128
  | Fault f => f = FUninit ∨ f = FAlloc
  end ∧
  is_Some (demo_contents
    (serve_all (demo_libc 2000) [] [Allocate 200; Reallocate 0 300; Allocate 129] init_alloc)).
Proof.
  split; [vm_compute; reflexivity|]. split; [|by eexists; vm_compute].
  apply (alloc_from_start (demo_libc 2000)).
Defined.

(** The last object of the pool, and the first small allocation of a program. *)
Lemma alloc_as_written_witness :
  is_fault (allocate (demo_libc 2000) 20 init_alloc) FUninit ∧
  (∃ head, _S_free_list demo_pool !! cls 20 = Some head ∧
  match allocate (demo_libc 2000) 20 demo_pool with
  | Ok (p, s') => serves s' ((p, 20) :: demo_live) ∧ kept demo_live demo_pool s' ∧
      (head ≠ 0 ∧ p = head ∨
       head = 0 ∧ ∃ size, chunk_area (demo_libc 2000) demo_pool (rnd 20) 20 = Ok (p, size) ∧
         rnd 20 ≤ size < 2 * rnd 20)
  | Fault f => head = 0 ∧
      (f = FUninit ∧ (∃ p size, chunk_area (demo_libc 2000) demo_pool (rnd 20) 20 = Ok (p, size) ∧
        2 * rnd 20 ≤ size) ∨
       f = FAlloc ∧ chunk_area (demo_libc 2000) demo_pool (rnd 20) 20 = Fault FAlloc)
  end) ∧
  match allocate (demo_libc 2000) 20 demo_pool with Ok (p, _) => p = 1264 | Fault _ => False end.
Proof.
  split; [vm_compute; reflexivity|]. split; [|vm_compute; reflexivity].
  apply (alloc_as_written (demo_libc 2000) demo_pool demo_live 20); [apply demo_pool_serves|lia].
Defined.

(** One block of 20 bytes. *)
Definition demo_first : alst :=
  match malloc_allocate (demo_libc 2000) 20 init_alloc with Ok (_, s) => s | Fault _ => init_alloc end.

Lemma init_malloc_serves : malloc_serves init_alloc [].
Proof. exact (proj1 init_serves). Qed.

Lemma demo_first_serves : malloc_serves demo_first [(16, 20)].
Proof.
  pose proof (ok_allocate (A := malloc_alloc (demo_libc 2000)) init_alloc [] 20
    init_malloc_serves ltac:(lia)) as H.
  unfold wpt in H. unfold demo_first. cbn [al_allocate malloc_alloc] in H.
  assert (E : match malloc_allocate (demo_libc 2000) 20 init_alloc with
    Ok (p, _) => p = 16 | Fault _ => False end) by (vm_compute; reflexivity).
  destruct (malloc_allocate (demo_libc 2000) 20 init_alloc) as [[p s]|f]; [|done].
  subst p. apply H.
Qed.

(** A vector of five ints. *)
Lemma vector_base_ok_witness :
  wpt FAlloc (gives_up (demo_libc 2000))
    (_Vector_base_n 4 (malloc_alloc (demo_libc 2000)) 5) (λ v s', kept [(16, 20)] demo_first s' ∧
    _M_finish v = _M_start v ∧ _M_end_of_storage v = _M_start v + 5 * 4 ∧
    (if 5 =? 0 then _M_start v = 0 ∧ malloc_serves s' [(16, 20)] else
     malloc_serves s' [(_M_start v, 5 * 4); (16, 20)] ∧ mapped (mem s') (_M_start v) (5 * 4) ∧
     Forall (disj (_M_start v, 5 * 4)) [(16, 20)]) ∧
    wp (_Vector_base_destroy 4 (malloc_alloc (demo_libc 2000)) v)
      (λ _ s2, malloc_serves s2 [(16, 20)] ∧ kept [(16, 20)] demo_first s2) s') demo_first ∧
  wp (v ← _Vector_base; _Vector_base_destroy 4 (malloc_alloc (demo_libc 2000)) v)
    (λ _ s', s' = demo_first) demo_first.
Proof.
  apply (vector_base_ok (gives_up (demo_libc 2000)) (malloc_alloc (demo_libc 2000)) malloc_serves
    4 5 demo_first [(16, 20)]); [apply demo_first_serves|done..].
Defined.
