(* ===== verification/Mysql.v ===== *)
(** * Mysql: the MySQL client (mysql_api_test/MysqlClient.h, MysqlClient.cpp, test.cpp)

    The objects over the MySQL client library, whose answers are a parameter,
    [mysql_api]: functions of the calls so far and of the arguments.  The state is
    the [MysqlClient] and the calls.  A handle or a result set is a number, 0 being
    NULL; a [std::string] is its bytes. *)
From stdpp Require Import gmap list strings.
From Stdlib Require Import ZArith Strings.Byte.
From S2P Require Import Prelude Bytes CString Double.

(** ** Data *)

(** The calls of the library and of the standard one, with what they answered. *)
Inductive mcall :=
  | CInit (h : Z)
  | CClose (h : Z)
  | COptions (h : Z) (timeout : Z)
  | CConnect (h : Z) (ip user password database : str) (port : Z) (ok : bool)
  | CCharset (h : Z) (name : str)
  | CPing (h : Z) (res : Z)
  | CQuery (h : Z) (sql : str) (res : Z)
  | CAffected (h : Z) (res : Z)
  | CEscape (h : Z) (from : str)
  | CStore (h : Z) (r : Z)
  | CFetchField (r : Z)
  | CFetchRow (r : Z)
  | CFetchLengths (r : Z)
  | CNumRows (r : Z)
  | CFree (r : Z)
  | CTime
  | CPrint (s : str).

(** A row is the array of its values; [None] is NULL, and the library ends the bytes
    of a value with a NUL. *)
Abbreviation row := (list (option str)).

Record mysql_api := MysqlApi {
  mysql_init : list mcall → Z;
  mysql_real_connect : list mcall → Z → str → str → str → str → Z → bool;
  mysql_ping : list mcall → Z → Z;
  mysql_real_query : list mcall → Z → str → Z;
  mysql_affected_rows : list mcall → Z → Z;
  mysql_real_escape_string : list mcall → Z → str → str;
  mysql_store_result : list mcall → Z → Z;
  mysql_fetch_field : list mcall → Z → option str;
  mysql_fetch_row : list mcall → Z → option row;
  mysql_fetch_lengths : list mcall → Z → option (list Z);
  mysql_num_rows : list mcall → Z → Z;
  time : list mcall → Z
}.

(** [m_port] has no value before [mysql_connect]. *)
Record MysqlClient := Client {
  m_ip : str;
  m_port : option Z;
  m_database : str;
  m_user : str;
  m_password : str;
  m_mysql_ctx : Z
}.

#[global] Instance byte_countable : Countable byte.
Proof.
  apply (inj_countable' byteZ Zbyte). apply Zbyte_byteZ.
Defined.

Record MysqlResult := Result { m_result : Z; m_field : gmap str Z }.
Record MysqlRow := Row { m_row : list str; row_result : option MysqlResult }.

Record mworld := MWorld { cl : MysqlClient; mtrace : list mcall }.

Definition set_ctx h (c : MysqlClient) :=
  Client (m_ip c) (m_port c) (m_database c) (m_user c) (m_password c) h.

Definition upd_cl (f : MysqlClient → MysqlClient) : M mworld unit :=
  modify (λ w, MWorld (f (cl w)) (mtrace w)).
Definition emit (c : mcall) : M mworld unit := modify (λ w, MWorld (cl w) (mtrace w ++ [c])).

(** A call of the library that answers [f] of the calls so far. *)
Definition call {A} (f : list mcall → A) (mk : A → mcall) : M mworld A :=
  t ← gets mtrace; emit (mk (f t));; mret (f t).

(** [std::string::c_str] as the library reads it. *)
Definition c_str (s : str) : str := default s (until_nul s).

Section Mysql.
Context (A : mysql_api).

(** ** MysqlClient *)

Definition new_client : MysqlClient := Client [] None [] [] [] 0.

Definition handle : M mworld Z := c ← gets cl; mret (m_mysql_ctx c).

Definition init_mysql_ctx : M mworld unit :=
  h ← handle;
  emit (CClose h);;
  h ← call (mysql_init A) CInit;
  upd_cl (set_ctx h);;
  if (h =? 0)%Z then mret tt
  else
    emit (COptions h 20);;
    emit (COptions h 20);;
    c ← gets cl;
    match m_port c with
    | None => fail FUninit
    | Some port =>
      ok ← call
        (λ t, mysql_real_connect A t h (c_str (m_ip c)) (c_str (m_user c))
                (c_str (m_password c)) (c_str (m_database c)) (u32 port))
        (CConnect h (c_str (m_ip c)) (c_str (m_user c)) (c_str (m_password c))
           (c_str (m_database c)) (u32 port));
      upd_cl (set_ctx (if (ok : bool) then h else 0%Z));;
      when ok (emit (CCharset h (bytes "utf8")))
    end.

Definition mysql_connect (ip_port user password database : str) : M mworld bool :=
  match index_of x3a ip_port with
  | None => mret false
  | Some i =>
    upd_cl (λ c, Client (take i ip_port) (Some (atoi (c_str (drop (i + 1) ip_port))))
                   database user password (m_mysql_ctx c));;
    init_mysql_ctx;;
    h ← handle;
    mret (negb (h =? 0)%Z)
  end.

Definition destroy_client : M mworld unit :=
  h ← handle; when (negb (h =? 0)%Z) (emit (CClose h)).

Definition mysql_reconnect : M mworld Z :=
  h ← handle;
  lost ← (if (h =? 0)%Z then mret true
          else r ← call (λ t, mysql_ping A t h) (CPing h); mret (negb (r =? 0)%Z));
  when lost init_mysql_ctx;;
  handle.

Definition mysql_exec (sql : str) : M mworld bool :=
  h ← mysql_reconnect;
  if (h =? 0)%Z then mret false
  else
    r ← call (λ t, mysql_real_query A t h sql) (CQuery h sql);
    mret (r =? 0)%Z.

Definition mysql_last_affected_rows : M mworld Z :=
  h ← mysql_reconnect;
  if (h =? 0)%Z then mret 0%Z
  else r ← call (λ t, mysql_affected_rows A t h) (CAffected h); mret (u32 r).

(** ** MysqlResult *)

Fixpoint fetch_fields (fuel : nat) (r i : Z) (fields : gmap str Z) : M mworld (gmap str Z) :=
  match fuel with
  | O => fail FFuel
  | S fuel' =>
    f ← call (λ t, mysql_fetch_field A t r) (λ _, CFetchField r);
    match f with
    | None => mret fields
    | Some name => fetch_fields fuel' r (i + 1) (<[name := i]> fields)
    end
  end.

(** A result of MySQL has at most 4096 columns. *)
Definition max_fields : nat := 4096.

Definition new_result (mysql : Z) : M mworld MysqlResult :=
  if (mysql =? 0)%Z then mret (Result 0 ∅)
  else
    r ← call (λ t, mysql_store_result A t mysql) (CStore mysql);
    if (r =? 0)%Z then mret (Result 0 ∅)
    else
      fields ← fetch_fields (S max_fields) r 0 ∅;
      mret (Result r fields).

Definition destroy_result (res : MysqlResult) : M mworld unit :=
  when (negb (m_result res =? 0)%Z) (emit (CFree (m_result res))).

Definition num_rows (res : MysqlResult) : M mworld Z :=
  if (m_result res =? 0)%Z then mret 0%Z
  else n ← call (λ t, mysql_num_rows A t (m_result res)) (λ _, CNumRows (m_result res));
       mret (s32 n).

(** [string(r[i], l[i])], or [string(r[i])] without lengths. *)
Definition field_value (r : row) (l : option (list Z)) (i : Z) : res str :=
  v ← aget r i;
  match v with
  | None => Ok []
  | Some raw =>
    match l with
    | None => Ok (c_str raw)
    | Some lens =>
      n ← aget lens i;
      if (n <=? Z.of_nat (length raw) + 1)%Z then Ok (take (Z.to_nat n) (raw ++ [NUL]))
      else Fault FBounds
    end
  end.

(** The loop with [n] fields left from the field [i] on. *)
Fixpoint fetch_values (n : nat) (r : row) (l : option (list Z)) (i : Z) : res (list str) :=
  match n with
  | O => Ok []
  | S n' => v ← field_value r l i; vs ← fetch_values n' r l (i + 1); Ok (v :: vs)
  end.

(** The row that the argument refers to is the second part of the result. *)
Definition fetch_row (res : MysqlResult) : M mworld (bool * MysqlRow) :=
  let row0 := Row [] (Some res) in
  if (m_result res =? 0)%Z then mret (false, row0)
  else
    r ← call (λ t, mysql_fetch_row A t (m_result res)) (λ _, CFetchRow (m_result res));
    match r with
    | None => mret (false, row0)
    | Some r =>
      l ← call (λ t, mysql_fetch_lengths A t (m_result res)) (λ _, CFetchLengths (m_result res));
      vs ← lift (fetch_values (size (m_field res)) r l 0);
      mret (negb (bool_decide (vs = [])), Row vs (Some res))
    end.

Definition name2idx (res : MysqlResult) (name : str) : Z :=
  default (-1)%Z (m_field res !! name).

(** ** MysqlRow *)

Definition new_row : MysqlRow := Row [] None.

Definition get_string (r : MysqlRow) (key : str) : res str :=
  match row_result r with
  | None => Fault FNull
  | Some res =>
    let idx := name2idx res key in
    if ((idx <? 0) || (Z.of_nat (length (m_row r)) <=? idx))%Z then Ok [] else aget (m_row r) idx
  end.

Definition get_int64 (r : MysqlRow) (key : str) : res Z :=
  s ← get_string r key; Ok (strtol10 (c_str s)).

Definition get_int (r : MysqlRow) (key : str) : res Z :=
  s ← get_string r key; Ok (atoi (c_str s)).

Definition get_double (r : MysqlRow) (key : str) : res double :=
  s ← get_string r key; stod (c_str s).

Definition clear (r : MysqlRow) : MysqlRow := Row [] (row_result r).

(** ** The other operations *)

Definition get_insert_id : M mworld Z :=
  mysql_exec (bytes "select  @@IDENTITY as id;");;
  h ← handle;
  res ← new_result h;
  '(ok, r) ← fetch_row res;
  id ← (if (ok : bool) then lift (get_int r (bytes "id")) else mret (-1)%Z);
  destroy_result res;;
  mret id.

Definition mysql_string (from : str) : M mworld str :=
  let temp := replicate (2 * length from + 1) NUL in
  h ← handle;
  if (h =? 0)%Z then mret []
  else
    s ← call (λ t, mysql_real_escape_string A t h from) (λ _, CEscape h from);
    (if decide (length s < length temp) then lift (cstr (s ++ NUL :: drop (length s + 1) temp) 0)
     else fail FBounds).

(** ** test.cpp *)

Definition main : M mworld unit :=
  upd_cl (λ _, new_client);;
  ret ← mysql_connect (bytes "192.168.182.129:3306") (bytes "root") (bytes "123") (bytes "dk_test");
  (if negb ret then emit (CPrint (bytes "connect failed." ++ [x0a]))
   else
     call (time A) (λ _, CTime);;
     start_t ← call (time A) (λ _, CTime);
     emit (CPrint (bytes "begin select" ++ [x0a]));;
     mysql_exec (bytes "select * from t_user where name = 'test100000'");;
     now ← call (time A) (λ _, CTime);
     emit (CPrint (bytes "begin select time: " ++ fmt_d (s32 (now - start_t)) ++ [x0a]));;
     h ← handle;
     result ← new_result h;
     '(_, r) ← fetch_row result;
     uid ← lift (get_int r (bytes "uid"));
     age ← lift (get_int r (bytes "age"));
     emit (CPrint (bytes "uid=" ++ fmt_d uid ++ bytes ", age=" ++ fmt_d age ++ [x0a]));;
     destroy_result result);;
  destroy_client.

End Mysql.
