(* ===== verification/MysqlSpec.v ===== *)
(** * MysqlSpec: what the MySQL client does for its users

    The calls of the library are checked against its rules: a handle or a result set
    is used between the call that made it and the one that frees it.  The theorems
    say which handles the client loses, what an execution calls, and which value of
    a row a column name gets. *)
From stdpp Require Import gmap list strings sets.
From Stdlib Require Import ZArith Strings.Byte.
From S2P Require Import Prelude Bytes CString Double Mysql.

(** ** The rules of the library *)

(** The open handles, those of them whose connection failed, and the result sets. *)
Record held := Held { handles : gset Z; failed : gset Z; results : gset Z }.

Definition uses {X} (s : gset Z) (h : Z) (x : X) : option X :=
  if decide (h ∈ s) then Some x else None.

(** A call by these rules; [None] is a handle or result set that is not open. *)
Definition track (H : held) (c : mcall) : option held :=
  match c with
  | CInit h =>
    if decide (h = 0%Z) then Some H
    else if decide (h ∈ handles H) then None
    else Some (Held ({[h]} ∪ handles H) (failed H) (results H))
  | CClose h =>
    if decide (h = 0%Z) then Some H
    else uses (handles H) h (Held (handles H ∖ {[h]}) (failed H ∖ {[h]}) (results H))
  | CConnect h _ _ _ _ _ ok =>
    uses (handles H) h
      (if (ok : bool) then H else Held (handles H) ({[h]} ∪ failed H) (results H))
  | COptions h _ | CCharset h _ | CPing h _ | CQuery h _ _ | CAffected h _ | CEscape h _ =>
    uses (handles H) h H
  | CStore h r =>
    if decide (r = 0%Z) then uses (handles H) h H
    else if decide (r ∈ results H) then None
    else uses (handles H) h (Held (handles H) (failed H) ({[r]} ∪ results H))
  | CFetchField r | CFetchRow r | CFetchLengths r | CNumRows r => uses (results H) r H
  | CFree r => uses (results H) r (Held (handles H) (failed H) (results H ∖ {[r]}))
  | CTime | CPrint _ => Some H
  end.

Fixpoint track_all (H : held) (t : list mcall) : option held :=
  match t with
  | [] => Some H
  | c :: t' => H' ← track H c; track_all H' t'
  end.

Definition nothing_held : held := Held ∅ ∅ ∅.
Definition tracked (t : list mcall) : option held := track_all nothing_held t.

Lemma mtracked_app t c : tracked (t ++ [c]) = (H ← tracked t; track H c).
Proof.
  unfold tracked. generalize nothing_held. induction t as [|d t IH]; intros H; simpl.
  - by destruct (track H c).
  - destruct (track H d); simpl; [apply IH|done].
Qed.

(** ** What the library promises *)

#[global] Instance mcall_eq_dec : EqDecision mcall.
Proof. solve_decision. Defined.

Definition count_calls (c : mcall) (t : list mcall) : nat :=
  length (filter (λ d, d = c) t).

Definition row_lengths (r : row) : list Z := (λ v, Z.of_nat (length (default [] v))) <$> r.

(** After the calls [t] the result set [r] has the columns [names] and these rows,
    until it is freed: the fields and the rows come in order, and the lengths are
    those of the row fetched last. *)
Definition result_is (A : mysql_api) (r : Z) (t : list mcall) (names : list str)
    (rows : list row) : Prop :=
  ∀ calls, CFree r ∉ calls → (∀ h, CStore h r ∉ calls) →
    mysql_fetch_field A (t ++ calls) r = names !! count_calls (CFetchField r) calls ∧
    mysql_fetch_row A (t ++ calls) r = rows !! count_calls (CFetchRow r) calls ∧
    ∀ k x, count_calls (CFetchRow r) calls = S k → rows !! k = Some x →
      mysql_fetch_lengths A (t ++ calls) r = Some (row_lengths x).

Class MysqlOk (A : mysql_api) : Prop := {
  init_fresh t H : tracked t = Some H → mysql_init A t ∉ handles H;
  store_fresh t H h : tracked t = Some H → mysql_store_result A t h ∉ results H;
  store_result t h : mysql_store_result A t h ≠ 0%Z → ∃ names rows,
    (length names ≤ max_fields) ∧ Forall (λ x, length x = length names) rows ∧
    result_is A (mysql_store_result A t h) (t ++ [CStore h (mysql_store_result A t h)])
      names rows;
  escape_ok t h s : (length (mysql_real_escape_string A t h s) ≤ 2 * length s) ∧
    NUL ∉ mysql_real_escape_string A t h s
}.

(** ** The invariant *)

Definition ctx_set (c : MysqlClient) : gset Z :=
  if decide (m_mysql_ctx c = 0%Z) then ∅ else {[m_mysql_ctx c]}.

(** The open handles are the client's one and those whose connection failed; [R] are
    the open result sets. *)
Definition inv (R : gset Z) (w : mworld) : Prop :=
  ∃ H, tracked (mtrace w) = Some H ∧ results H = R ∧ (0%Z ∉ handles H) ∧
    handles H = failed H ∪ ctx_set (cl w) ∧ (m_mysql_ctx (cl w) ∉ failed H).

Definition same_config (c c' : MysqlClient) : Prop :=
  m_ip c' = m_ip c ∧ m_port c' = m_port c ∧ m_database c' = m_database c ∧
  m_user c' = m_user c ∧ m_password c' = m_password c.

Definition is_query (c : mcall) : bool := match c with CQuery _ _ _ => true | _ => false end.
Definition no_query (t : list mcall) : Prop := Forall (λ c, is_query c = false) t.

Section Lemmas.
Context (A : mysql_api) `{!MysqlOk A}.

Lemma wp_memit c (Q : unit → mworld → Prop) w :
  Q tt (MWorld (cl w) (mtrace w ++ [c])) → wp (emit c) Q w.
Proof. done. Qed.

Lemma wp_mcall {X} (f : list mcall → X) mk (Q : X → mworld → Prop) w :
  Q (f (mtrace w)) (MWorld (cl w) (mtrace w ++ [mk (f (mtrace w))])) → wp (call f mk) Q w.
Proof. done. Qed.

Lemma wp_handle (Q : Z → mworld → Prop) w : Q (m_mysql_ctx (cl w)) w → wp handle Q w.
Proof. done. Qed.

(** The next call, when its handle is open. *)
Lemma mtracked_use t H c H' : tracked t = Some H → track H c = Some H' →
  tracked (t ++ [c]) = Some H'.
Proof. intros E E'. by rewrite mtracked_app, E. Qed.

Lemma uses_in {X} (s : gset Z) h (x : X) : h ∈ s → uses s h x = Some x.
Proof. intros Hin. unfold uses. by rewrite decide_True. Qed.

Lemma tracked_two t H c d : tracked t = Some H → track H c = Some H → track H d = Some H →
  tracked ((t ++ [c]) ++ [d]) = Some H.
Proof. intros E1 E2 E3. by do 2 (eapply mtracked_use; [|done]). Qed.

(** The handle that the client has is open. *)
Lemma inv_ctx R w H : tracked (mtrace w) = Some H → inv R w →
  (m_mysql_ctx (cl w) ≠ 0%Z) → m_mysql_ctx (cl w) ∈ handles H.
Proof.
  intros E (H' & E' & _ & _ & Hh & _) Hne. rewrite E in E'. injection E' as <-.
  rewrite Hh. unfold ctx_set. rewrite decide_False by done. set_solver.
Qed.

(** Calls of the open handle that change nothing. *)
Lemma inv_call R w c : inv R w → (∀ H, tracked (mtrace w) = Some H → track H c = Some H) →
  inv R (MWorld (cl w) (mtrace w ++ [c])).
Proof.
  intros (H & E & HR & H0 & Hh & Hf) Hc. exists H.
  split; [|done]. simpl. eapply mtracked_use; [exact E|by apply Hc].
Qed.

(** After [mysql_close] no handle but the failed ones is open. *)
Lemma inv_close R w : inv R w →
  inv R (MWorld (set_ctx 0 (cl w)) (mtrace w ++ [CClose (m_mysql_ctx (cl w))])).
Proof.
  intros (H & E & HR & H0 & Hh & Hf). unfold ctx_set in Hh.
  destruct (decide (m_mysql_ctx (cl w) = 0%Z)) as [E0|E0].
  - exists H. split; [simpl; eapply mtracked_use; [done|]; simpl; by rewrite decide_True|].
    split; [done|]. split; [done|]. unfold ctx_set. simpl. split; [done|]. set_solver.
  - exists (Held (handles H ∖ {[m_mysql_ctx (cl w)]}) (failed H ∖ {[m_mysql_ctx (cl w)]}) R).
    split; [simpl; eapply mtracked_use; [done|]; simpl; rewrite decide_False by done|].
    { rewrite uses_in by set_solver. by rewrite HR. }
    split; [done|]. unfold ctx_set. simpl. split; [set_solver|]. split; [set_solver|].
    set_solver.
Qed.
(** A new handle is open, whether its connection fails or not. *)
Lemma connected_inv R w h c d e (ok : bool) f : inv R (MWorld (set_ctx 0 (cl w)) (mtrace w)) →
  h ≠ 0%Z → (∀ H, tracked (mtrace w) = Some H → h ∉ handles H) →
  (∀ H, h ∈ handles H → track H c = Some H) → (∀ H, h ∈ handles H → track H d = Some H) →
  (∀ H, h ∈ handles H → track H e =
    Some (if ok then H else Held (handles H) ({[h]} ∪ failed H) (results H))) →
  (∀ H, h ∈ handles H → track H f = Some H) →
  inv R (MWorld (set_ctx (if ok then h else 0%Z) (cl w))
    (mtrace w ++ [CInit h; c; d; e] ++ (if ok then [f] else []))).
Proof.
  intros (H & E & HR & H0 & Hh & Hf) Hne Hnew Hc Hd He Hf'. simpl in E, Hh, Hf.
  specialize (Hnew H E). unfold ctx_set in Hh. simpl in Hh.
  set (H1 := Held ({[h]} ∪ handles H) (failed H) (results H)).
  assert (Hin : h ∈ handles H1) by set_solver.
  assert (E1 : tracked (mtrace w ++ [CInit h]) = Some H1).
  { eapply mtracked_use; [done|]. simpl. by rewrite !decide_False. }
  assert (E2 : tracked (mtrace w ++ [CInit h; c; d; e]) =
    Some (if ok then H1 else Held (handles H1) ({[h]} ∪ failed H1) (results H1))).
  { replace (mtrace w ++ [CInit h; c; d; e])
      with ((((mtrace w ++ [CInit h]) ++ [c]) ++ [d]) ++ [e]) by (by rewrite <- !(assoc_L (++))).
    eapply mtracked_use; [|by apply He].
    by eapply tracked_two; [|apply Hc|apply Hd]. }
  destruct ok; rewrite ?app_nil_r.
  - exists H1. split; [|].
    + cbn [mtrace]. rewrite (assoc_L (++)). eapply mtracked_use; [exact E2|by apply Hf'].
    + split; [done|]. unfold ctx_set. simpl. rewrite decide_False by done.
      split; [set_solver|]. split; set_solver.
  - eexists. split; [exact E2|]. unfold ctx_set. simpl.
    split; [done|]. split; [set_solver|]. split; set_solver.
Qed.

(** What [init_mysql_ctx] calls last. *)
Definition connected (w : mworld) (calls : list mcall) : Prop :=
  m_mysql_ctx (cl w) ≠ 0%Z → ∃ calls0, calls = calls0 ++ [CCharset (m_mysql_ctx (cl w)) (bytes "utf8")].

Lemma mysql_init_wp R w (Q : unit → mworld → Prop) : inv R w → is_Some (m_port (cl w)) →
  (∀ w' calls, inv R w' → same_config (cl w) (cl w') → mtrace w' = mtrace w ++ calls →
    no_query calls → connected w' calls → Q tt w') →
  wp (init_mysql_ctx A) Q w.
Proof.
  intros Hi [port Hp] HQ. pose proof (inv_close R w Hi) as Hi1.
  set (t1 := mtrace w ++ [CClose (m_mysql_ctx (cl w))]) in *.
  unfold init_mysql_ctx. apply wp_bind, wp_handle, wp_bind, wp_memit, wp_bind, wp_mcall.
  fold t1. cbn [mtrace cl]. apply wp_bind, wp_modify. cbn [mtrace cl].
  destruct (Z.eqb_spec (mysql_init A t1) 0) as [E|E].
  - apply wp_ret. eapply HQ; [| |by unfold t1; cbn [mtrace]; rewrite <- (assoc_L (++))|
      by repeat constructor|by intros H].
    + rewrite E. eapply (inv_call R (MWorld (set_ctx 0 (cl w)) t1)); [done|].
      by intros H _.
    + done.
  - set (h := mysql_init A t1) in *. apply wp_bind, wp_memit, wp_bind, wp_memit, wp_bind, wp_gets.
    cbn [mtrace cl set_ctx m_port m_ip m_user m_password m_database]. rewrite Hp.
    apply wp_bind, wp_mcall. cbn [mtrace cl]. set (ok := mysql_real_connect A _ _ _ _ _ _ _).
    apply wp_bind, wp_modify. cbn [mtrace cl].
    assert (Hnew : ∀ H, tracked t1 = Some H → h ∉ handles H) by (intros H; apply init_fresh).
    assert (Hin : ∀ c, (∀ H, h ∈ handles H → track H c = Some H) → True) by done.
    destruct ok eqn:Eok.
    + apply wp_memit. eapply HQ; [| |unfold t1; cbn [mtrace]; by rewrite <- !(assoc_L (++))|
        by repeat constructor|].
      * cbn [mtrace cl]. rewrite <- !(assoc_L (++)). simpl app.
        eapply (connected_inv R (MWorld (set_ctx 0 (cl w)) t1) h _ _ _ true); try done;
          intros H Hh; simpl; by rewrite uses_in.
      * done.
      * intros _. cbn [cl set_ctx m_mysql_ctx]. by eexists [_; _; _; _; _].
    + apply wp_ret. eapply HQ; [| |unfold t1; cbn [mtrace]; by rewrite <- !(assoc_L (++))|
        by repeat constructor|by intros H].
      * cbn [mtrace cl]. rewrite <- !(assoc_L (++)). simpl app.
        rewrite <- (app_nil_r [CInit h; _; _; _]).
        eapply (connected_inv R (MWorld (set_ctx 0 (cl w)) t1) h _ _ _ false CTime); try done;
          intros H Hh; simpl; by rewrite ?uses_in.
      * done.
Qed.

(** A call that shows the handle to be connected. *)
Definition alive (h : Z) (c : mcall) : Prop := c = CPing h 0 ∨ c = CCharset h (bytes "utf8").

Lemma no_query_app t t' : no_query (t ++ t') ↔ no_query t ∧ no_query t'.
Proof. apply Forall_app. Qed.

Lemma same_config_trans c1 c2 c3 :
  same_config c1 c2 → same_config c2 c3 → same_config c1 c3.
Proof. unfold same_config. intuition congruence. Qed.

Lemma inv_open_call R w c : inv R w → (m_mysql_ctx (cl w) ≠ 0%Z) →
  (∀ H, m_mysql_ctx (cl w) ∈ handles H → track H c = Some H) →
  inv R (MWorld (cl w) (mtrace w ++ [c])).
Proof.
  intros Hi Hne Hc. apply inv_call; [done|]. intros H E. apply Hc. by eapply inv_ctx.
Qed.

Lemma reconnect_wp R w (Q : Z → mworld → Prop) : inv R w → is_Some (m_port (cl w)) →
  (∀ w' calls, inv R w' → same_config (cl w) (cl w') → mtrace w' = mtrace w ++ calls →
    no_query calls →
    ((m_mysql_ctx (cl w') ≠ 0%Z) → ∃ calls0 c, calls = calls0 ++ [c] ∧
      alive (m_mysql_ctx (cl w')) c) →
    Q (m_mysql_ctx (cl w')) w') →
  wp (mysql_reconnect A) Q w.
Proof.
  intros Hi Hp HQ. unfold mysql_reconnect. apply wp_bind, wp_handle, wp_bind.
  destruct (Z.eqb_spec (m_mysql_ctx (cl w)) 0) as [E|E].
  - apply wp_ret, wp_bind. simpl. apply (mysql_init_wp R w); [done..|].
    intros w' calls Hi' Hc Ht Hq Hcon. apply wp_handle. eapply HQ; [done..|].
    intros Hne. destruct (Hcon Hne) as [calls0 ->]. exists calls0. eexists. split; [done|]. by right.
  - apply wp_bind, wp_mcall, wp_ret. set (r := mysql_ping A (mtrace w) _).
    assert (Hi' : inv R (MWorld (cl w) (mtrace w ++ [CPing (m_mysql_ctx (cl w)) r]))).
    { apply inv_open_call; [done..|]. intros H Hin. simpl. by apply uses_in. }
    apply wp_bind. destruct (Z.eqb_spec r 0) as [Er|Er]; simpl.
    + apply wp_ret, wp_handle. eapply (HQ _ [CPing (m_mysql_ctx (cl w)) r]); [done..|by repeat constructor|].
      intros _. exists [], (CPing (m_mysql_ctx (cl w)) r). split; [done|]. left. by rewrite Er.
    + apply (mysql_init_wp R _); [done..|]. intros w' calls Hi2 Hc Ht Hq Hcon. apply wp_handle.
      eapply HQ; [done|done|cbn [mtrace] in Ht; rewrite <- (assoc_L (++)) in Ht; exact Ht| |].
      * apply Forall_app. split; [by repeat constructor|done].
      * intros Hne. destruct (Hcon Hne) as [calls0 ->]. eexists (_ :: calls0), _.
        split; [done|]. by right.
Qed.

(** What an execution called and answered. *)
Definition exec_post (sql : str) (b : bool) (w w' : mworld) : Prop :=
  ∃ calls, mtrace w' = mtrace w ++ calls ∧
  ((m_mysql_ctx (cl w') = 0%Z) ∧ b = false ∧ no_query calls ∨
   ∃ calls0 c r, (m_mysql_ctx (cl w') ≠ 0%Z) ∧ no_query calls0 ∧
     calls = calls0 ++ [c; CQuery (m_mysql_ctx (cl w')) sql r] ∧
     alive (m_mysql_ctx (cl w')) c ∧ b = bool_decide (r = 0%Z)).

Lemma exec_wp R w sql (Q : bool → mworld → Prop) : inv R w → is_Some (m_port (cl w)) →
  (∀ b w', inv R w' → same_config (cl w) (cl w') → exec_post sql b w w' → Q b w') →
  wp (mysql_exec A sql) Q w.
Proof.
  intros Hi Hp HQ. unfold mysql_exec. apply wp_bind, (reconnect_wp R w); [done..|].
  intros w' calls Hi' Hc Ht Hq Ha. destruct (Z.eqb_spec (m_mysql_ctx (cl w')) 0) as [E|E].
  - apply wp_ret, HQ; [done..|]. exists calls. split; [done|]. by left.
  - apply wp_bind, wp_mcall, wp_ret. set (r := mysql_real_query A (mtrace w') _ _).
    apply HQ; [|done|].
    + apply inv_open_call; [done..|]. intros H Hin. simpl. by apply uses_in.
    + destruct (Ha E) as (calls0 & c & -> & Hal). apply no_query_app in Hq as [Hq _].
      exists (calls0 ++ [c; CQuery (m_mysql_ctx (cl w')) sql r]). cbn [mtrace cl]. split.
      * rewrite Ht, <- !(assoc_L (++)). done.
      * right. exists calls0, c, r. do 4 (split; [done|]).
        destruct (Z.eqb_spec r 0); [by rewrite bool_decide_eq_true_2|by rewrite bool_decide_eq_false_2].
Qed.

(** *** Results *)

Fixpoint fields_of (i : Z) (names : list str) (m : gmap str Z) : gmap str Z :=
  match names with [] => m | name :: names' => fields_of (i + 1) names' (<[name := i]> m) end.

Lemma fields_of_none names key : ∀ i m, key ∉ names → fields_of i names m !! key = m !! key.
Proof.
  induction names as [|n names IH]; intros i m H; [done|]. simpl.
  rewrite IH by set_solver. apply lookup_insert_ne. set_solver.
Qed.

(** A name that occurs twice has the index of its last column. *)
Lemma fields_of_last names key : ∀ i m k, names !! k = Some key →
  (∀ j, k < j → names !! j ≠ Some key) →
  fields_of i names m !! key = Some (i + Z.of_nat k)%Z.
Proof.
  induction names as [|n names IH]; intros i m k Hk Hlast; [done|].
  destruct k as [|k]; simpl in *.
  - injection Hk as ->. rewrite fields_of_none; [rewrite lookup_insert_eq; f_equal; lia|].
    intros [j Hj]%list_elem_of_lookup. apply (Hlast (S j)); [lia|done].
  - rewrite (IH _ _ k); [f_equal; lia|done|]. intros j Hj. apply (Hlast (S j)). lia.
Qed.

Lemma fields_of_dom names : ∀ i m, dom (fields_of i names m) = list_to_set names ∪ dom m.
Proof.
  induction names as [|n names IH]; intros i m; simpl; [set_solver|].
  rewrite IH, dom_insert_L. set_solver.
Qed.

(** The number of different names. *)
Lemma fields_of_size names : size (fields_of 0 names ∅) = length (remove_dups names).
Proof.
  rewrite <- size_dom, fields_of_dom, dom_empty_L, union_empty_r_L.
  rewrite <- (size_list_to_set (C := gset str) (remove_dups names)) by apply NoDup_remove_dups.
  f_equal. apply set_eq. intros x. by rewrite !elem_of_list_to_set, elem_of_remove_dups.
Qed.

Lemma fields_of_size_le names : size (fields_of 0 names ∅) ≤ length names.
Proof.
  rewrite fields_of_size. apply submseteq_length, NoDup_submseteq; [apply NoDup_remove_dups|].
  intros x. by rewrite elem_of_remove_dups.
Qed.

Lemma count_replicate c n : count_calls c (replicate n c) = n.
Proof.
  unfold count_calls. induction n as [|n IH]; [done|]. cbn [replicate].
  rewrite filter_cons_True by done. simpl. by rewrite IH.
Qed.

Lemma count_app c t t' : count_calls c (t ++ t') = count_calls c t + count_calls c t'.
Proof. unfold count_calls. by rewrite filter_app, length_app. Qed.

Lemma count_other c d n : c ≠ d → count_calls c (replicate n d) = 0.
Proof.
  intros H. unfold count_calls. induction n as [|n IH]; [done|]. cbn [replicate].
  by rewrite filter_cons_False by congruence.
Qed.

Lemma inv_result_call R w r c : inv R w → r ∈ R →
  (∀ H, r ∈ results H → track H c = Some H) → inv R (MWorld (cl w) (mtrace w ++ [c])).
Proof.
  intros Hi Hr Hc. apply inv_call; [done|]. intros H E. apply Hc.
  destruct Hi as (H' & E' & <- & _). rewrite E in E'. by simplify_eq.
Qed.

Lemma fetch_fields_wp (R : gset Z) (r : Z) (t0 : list mcall) (names : list str)
    (rows : list row) (w : mworld) (Q : gmap str Z → mworld → Prop) :
  result_is A r t0 names rows → r ∈ R →
  (∀ w', inv R w' → cl w' = cl w →
    mtrace w' = t0 ++ replicate (S (length names)) (CFetchField r) →
    Q (fields_of 0 names ∅) w') → ∀ fuel i fields,
  inv R w → i ≤ length names → length names - i < fuel →
  mtrace w = t0 ++ replicate i (CFetchField r) →
  fields_of (Z.of_nat i) (drop i names) fields = fields_of 0 names ∅ →
  wp (fetch_fields A fuel r (Z.of_nat i) fields) Q w.
Proof.
  intros Hres Hr HQ fuel. revert w HQ. induction fuel as [|fuel IH];
    intros w HQ i fields Hi Hle Hf Ht Hfs; [lia|].
  cbn [fetch_fields]. apply wp_bind, wp_mcall.
  destruct (Hres (replicate i (CFetchField r))) as (Ef & _).
  { intros [? _]%elem_of_replicate. done. }
  { intros h [? _]%elem_of_replicate. done. }
  rewrite <- Ht, count_replicate in Ef. rewrite Ef.
  assert (Hi' : inv R (MWorld (cl w) (mtrace w ++ [CFetchField r]))).
  { apply (inv_result_call R w r); [done..|]. intros H Hin. simpl. by apply uses_in. }
  assert (Ht' : mtrace w ++ [CFetchField r] = t0 ++ replicate (S i) (CFetchField r)).
  { rewrite Ht, <- (assoc_L (++)). f_equal. symmetry. apply replicate_S_end. }
  destruct (names !! i) as [name|] eqn:E.
  - replace (Z.of_nat i + 1)%Z with (Z.of_nat (S i)) by lia. apply lookup_lt_Some in E as Hlt.
    apply IH; [exact HQ|done|lia|lia|done|].
    rewrite <- Hfs, (drop_S _ _ _ E). simpl. f_equal. lia.
  - apply lookup_ge_None in E. assert (i = length names) as -> by lia.
    apply wp_ret. rewrite drop_all in Hfs. simpl in Hfs. rewrite Hfs.
    by apply HQ.
Qed.

(** A result set whose fields were read, and none of its rows. *)
Definition ready (names : list str) (rows : list row) (r : MysqlResult) (w : mworld) : Prop :=
  m_field r = fields_of 0 names ∅ ∧ Forall (λ x, length x = length names) rows ∧
  ∃ t0, mtrace w = t0 ++ replicate (S (length names)) (CFetchField (m_result r)) ∧
    result_is A (m_result r) t0 names rows.

Lemma store_inv R w r : inv R w → (m_mysql_ctx (cl w) ≠ 0%Z) → r ∉ R →
  (r ≠ 0%Z) → inv ({[r]} ∪ R) (MWorld (cl w) (mtrace w ++ [CStore (m_mysql_ctx (cl w)) r])).
Proof.
  intros Hi Hne Hr Hr0. pose proof Hi as (H & E & HR & H0 & Hh & Hf).
  exists (Held (handles H) (failed H) ({[r]} ∪ results H)).
  split; [|by rewrite HR]. simpl. eapply mtracked_use; [exact E|]. simpl.
  rewrite decide_False by done. rewrite decide_False by (by rewrite HR).
  apply uses_in. by eapply inv_ctx.
Qed.

Lemma read_result_wp w names rows (Q : MysqlResult → mworld → Prop) :
  let h := m_mysql_ctx (cl w) in let r := mysql_store_result A (mtrace w) h in
  inv ∅ w → (h ≠ 0%Z) → (r ≠ 0%Z) → length names ≤ max_fields →
  Forall (λ x, length x = length names) rows →
  result_is A r (mtrace w ++ [CStore h r]) names rows →
  (∀ res w', inv {[r]} w' → cl w' = cl w → m_result res = r → ready names rows res w' →
    Q res w') →
  wp (new_result A h) Q w.
Proof.
  intros h r Hi Hh Hr Hn Hrows Hres HQ. unfold new_result.
  rewrite (proj2 (Z.eqb_neq _ _)) by done. apply wp_bind, wp_mcall. fold r.
  rewrite (proj2 (Z.eqb_neq _ _)) by done. apply wp_bind.
  assert (Hi' : inv {[r]} (MWorld (cl w) (mtrace w ++ [CStore h r]))).
  { rewrite <- (union_empty_r_L {[r]}). apply store_inv; [done..| |done]. set_solver. }
  apply (fetch_fields_wp {[r]} r (mtrace w ++ [CStore h r]) names rows
    (MWorld (cl w) (mtrace w ++ [CStore h r])) _ Hres ltac:(set_solver)) with (i := 0);
    [|done|lia|unfold max_fields in *; lia|by rewrite app_nil_r|done].
  intros w' Hi2 Hc Ht. apply wp_ret, HQ; [done..|]. split; [done|]. split; [done|].
  by exists (mtrace w ++ [CStore h r]).
Qed.

Lemma new_result_wp w (Q : MysqlResult → mworld → Prop) : inv ∅ w →
  (∀ w', inv ∅ w' → cl w' = cl w → Q (Result 0 ∅) w') →
  (∀ res w' names rows, (m_result res ≠ 0%Z) → inv {[m_result res]} w' → cl w' = cl w →
    ready names rows res w' → Q res w') →
  wp (new_result A (m_mysql_ctx (cl w))) Q w.
Proof.
  intros Hi HQ0 HQ. destruct (decide (m_mysql_ctx (cl w) = 0%Z)) as [E|E].
  { unfold new_result. rewrite (proj2 (Z.eqb_eq _ _)) by done. apply wp_ret. by apply HQ0. }
  destruct (decide (mysql_store_result A (mtrace w) (m_mysql_ctx (cl w)) = 0%Z)) as [Er|Er].
  - unfold new_result. rewrite (proj2 (Z.eqb_neq _ _)) by done. apply wp_bind, wp_mcall.
    cbv beta. rewrite Er. apply wp_ret, HQ0; [|done]. apply inv_open_call; [done..|].
    intros H Hin. simpl. by apply uses_in.
  - destruct (store_result _ _ Er) as (names & rows & Hn & Hrows & Hres).
    apply (read_result_wp w names rows); [done..|].
    intros res w' Hi' Hc Hr Hready. rewrite <- Hr in Er, Hi'. by eapply HQ.
Qed.

(** *** Rows *)

Lemma field_value_ok (x : row) i v : x !! i = Some v →
  field_value x (Some (row_lengths x)) (Z.of_nat i) = Ok (default [] v).
Proof.
  intros H. unfold field_value. rewrite (aget_nat _ _ _ H). simpl. destruct v as [raw|]; [|done].
  rewrite (aget_nat _ _ (Z.of_nat (length raw))).
  - simpl. rewrite (proj2 (Z.leb_le _ _)) by lia. by rewrite Nat2Z.id, take_app_length.
  - unfold row_lengths. by rewrite list_lookup_fmap, H.
Qed.

Lemma fetch_values_ok (x : row) : ∀ n i, i + n ≤ length x →
  fetch_values n x (Some (row_lengths x)) (Z.of_nat i) = Ok (take n (drop i (default [] <$> x))).
Proof.
  induction n as [|n IH]; intros i Hi; [by rewrite take_0|]. cbn [fetch_values].
  destruct (lookup_lt_is_Some_2 x i) as [v Hv]; [lia|].
  rewrite (field_value_ok _ _ _ Hv). cbn [mbind res_bind].
  replace (Z.of_nat i + 1)%Z with (Z.of_nat (S i)) by lia. rewrite IH by lia.
  cbn [mbind res_bind]. erewrite (drop_S _ _ i); [done|].
  by rewrite list_lookup_fmap, Hv.
Qed.

Lemma first_fields_empty {X} (names : list str) (x : list X) : length x = length names →
  negb (bool_decide (take (length (remove_dups names)) x = [])) = bool_decide (names ≠ []).
Proof.
  intros Hl. destruct names as [|n names]; [by destruct x|].
  rewrite (bool_decide_eq_true_2 (_ ≠ [])) by done.
  rewrite bool_decide_eq_false_2; [done|]. intros Hn%(f_equal length).
  rewrite length_take in Hn. cbn [length] in Hl.
  assert (n ∈ remove_dups (n :: names)) as Hin by (rewrite elem_of_remove_dups; by left).
  assert (remove_dups (n :: names) ≠ []) as Hne by (intros E; rewrite E in Hin; set_solver).
  destruct (decide (length (remove_dups (n :: names)) = 0)) as [E|E].
  - by apply length_zero_iff_nil in E.
  - change (length (@nil X)) with 0 in Hn. lia.
Qed.

Lemma fetch_row_wp w names rows res (Q : bool * MysqlRow → mworld → Prop) :
  inv {[m_result res]} w → (m_result res ≠ 0%Z) → ready names rows res w →
  (∀ w', inv {[m_result res]} w' → cl w' = cl w →
    match rows with
    | [] => Q (false, Row [] (Some res)) w'
    | x :: _ => Q (bool_decide (names ≠ []),
        Row (take (length (remove_dups names)) (default [] <$> x)) (Some res)) w'
    end) →
  wp (fetch_row A res) Q w.
Proof.
  intros Hi Hr (Hf & Hrows & t0 & Ht & Hres) HQ. unfold fetch_row.
  rewrite (proj2 (Z.eqb_neq _ _)) by done. apply wp_bind, wp_mcall.
  set (fs := replicate (S (length names)) (CFetchField (m_result res))) in *.
  destruct (Hres fs) as (_ & Er & _).
  { intros [? _]%elem_of_replicate. done. }
  { intros h [? _]%elem_of_replicate. done. }
  rewrite <- Ht in Er. unfold fs in Er. rewrite count_other in Er by done. rewrite Er.
  assert (Hi1 : inv {[m_result res]} (MWorld (cl w) (mtrace w ++ [CFetchRow (m_result res)]))).
  { apply (inv_result_call _ w (m_result res)); [done|set_solver|]. intros H Hin. simpl. by apply uses_in. }
  destruct rows as [|x rows]; [by apply wp_ret, HQ|]. cbn [lookup list_lookup].
  apply wp_bind, wp_mcall. cbn [mtrace cl].
  destruct (Hres (fs ++ [CFetchRow (m_result res)])) as (_ & _ & El).
  { intros [[? _]%elem_of_replicate|?%list_elem_of_singleton]%elem_of_app; done. }
  { intros h [[? _]%elem_of_replicate|?%list_elem_of_singleton]%elem_of_app; done. }
  rewrite (assoc_L (++)), <- Ht in El. rewrite (El 0 x); [| |done].
  2: { rewrite count_app. unfold fs. rewrite count_other by done. unfold count_calls.
       by rewrite filter_cons_True. }
  apply Forall_cons in Hrows as [Hx _]. rewrite Hf.
  pose proof (fields_of_size_le names) as Hle.
  rewrite (fetch_values_ok x (size (fields_of 0 names ∅)) 0) by lia.
  apply wp_bind, wp_lift, wp_ret. rewrite drop_0, fields_of_size.
  match goal with |- Q (?b, _) _ => replace b with (bool_decide (names ≠ [])) end.
  - apply (HQ (MWorld (cl w) _)); [|done].
    apply (inv_result_call _ (MWorld (cl w) (mtrace w ++ [CFetchRow (m_result res)]))
      (m_result res)); [done|set_solver|]. intros H Hin. simpl. by apply uses_in.
  - symmetry. apply first_fields_empty. by rewrite length_fmap.
Qed.

(** The row that was fetched, by column name. *)
Lemma get_string_unknown res vs key : m_field res !! key = None →
  get_string (Row vs (Some res)) key = Ok [].
Proof. intros H. unfold get_string, name2idx. simpl. by rewrite H. Qed.

Lemma get_string_at res names (x : row) key i v : m_field res = fields_of 0 names ∅ →
  length x = length names → names !! i = Some key → (∀ j, i < j → names !! j ≠ Some key) →
  x !! i = Some v →
  get_string (Row (take (length (remove_dups names)) (default [] <$> x)) (Some res)) key =
  Ok (if decide (i < length (remove_dups names)) then default [] v else []).
Proof.
  intros Hf Hl Hi Hlast Hv. unfold get_string, name2idx. simpl.
  rewrite Hf, (fields_of_last _ _ 0 ∅ i) by done. simpl.
  rewrite (proj2 (Z.ltb_ge _ _)) by lia. simpl.
  assert (i < length x) by (by eapply lookup_lt_Some).
  rewrite length_take, length_fmap. destruct (decide _) as [Hd|Hd].
  - rewrite (proj2 (Z.leb_gt _ _)) by lia. apply aget_nat.
    rewrite lookup_take_lt by done. by rewrite list_lookup_fmap, Hv.
  - by rewrite (proj2 (Z.leb_le _ _)) by lia.
Qed.

(** *** The other operations *)

Lemma free_inv r w : inv {[r]} w → inv ∅ (MWorld (cl w) (mtrace w ++ [CFree r])).
Proof.
  intros (H & E & HR & H0 & Hh & Hf).
  exists (Held (handles H) (failed H) (results H ∖ {[r]})).
  split; [simpl; eapply mtracked_use; [exact E|]; simpl; apply uses_in; rewrite HR; set_solver|].
  split; [simpl; rewrite HR; set_solver|done].
Qed.

Lemma destroy_wp r w (Q : unit → mworld → Prop) : inv {[m_result r]} w → (m_result r ≠ 0%Z) →
  (∀ w', inv ∅ w' → cl w' = cl w → Q tt w') → wp (destroy_result r) Q w.
Proof.
  intros Hi Hr HQ. unfold destroy_result. rewrite (proj2 (Z.eqb_neq _ _)) by done. simpl.
  apply wp_memit, HQ; [|done]. by apply free_inv.
Qed.

(** A result set, its first row and its end, as the program uses them. *)
Lemma use_result_wp {X} w (k : MysqlResult → bool * MysqlRow → M mworld X)
    (Q : X → mworld → Prop) : inv ∅ w →
  (∀ res okr R w', inv R w' → cl w' = cl w → is_Some (row_result okr.2) →
    (∀ w2 (Q2 : unit → mworld → Prop), inv R w2 → cl w2 = cl w →
      (∀ w3, inv ∅ w3 → cl w3 = cl w → Q2 tt w3) → wp (destroy_result res) Q2 w2) →
    wp (k res okr) Q w') →
  wp (res ← new_result A (m_mysql_ctx (cl w)); okr ← fetch_row A res; k res okr) Q w.
Proof.
  intros Hi Hk. apply wp_bind, new_result_wp; [done|..].
  - intros w' Hi' Hc. unfold fetch_row. simpl. apply wp_bind, wp_ret.
    apply (Hk _ _ ∅); [done..| |]; [by eexists|].
    intros w2 Q2 Hi2 Hc2 HQ2. unfold destroy_result. simpl. by apply wp_ret, HQ2.
  - intros res w' names rows Hr Hi' Hc Hready. apply wp_bind, (fetch_row_wp w' names rows); [done..|].
    intros w2 Hi2 Hc2. assert (Hd : ∀ okr, is_Some (row_result okr.2) → wp (k res okr) Q w2).
    { intros okr Hrr. apply (Hk res okr {[m_result res]}); [done|congruence|done|].
      intros w3 Q2 Hi3 Hc3 HQ2. apply destroy_wp; [done..|]. intros w4 Hi4 Hc4.
      apply HQ2; [done|congruence]. }
    destruct rows as [|x rows]; apply Hd; by eexists.
Qed.

(** A column that is missing, or not read, is the number 0 for [get_int] and [get_int64],
    and an exception for [get_double]; after [clear] every column is. *)
Lemma get_numbers_missing r key res : row_result r = Some res →
  (name2idx res key < 0 ∨ Z.of_nat (length (m_row r)) ≤ name2idx res key)%Z →
  get_int r key = Ok 0%Z ∧ get_int64 r key = Ok 0%Z ∧ get_double r key = Fault FError.
Proof.
  intros E H. unfold get_int, get_int64, get_double, get_string. rewrite E.
  assert (((name2idx res key <? 0) || (Z.of_nat (length (m_row r)) <=? name2idx res key))%Z = true)
    as -> by (apply orb_true_iff; rewrite Z.ltb_lt, Z.leb_le; done).
  by vm_compute.
Qed.

Lemma get_numbers_clear r key res : row_result r = Some res →
  get_int (clear r) key = Ok 0%Z ∧ get_double (clear r) key = Fault FError.
Proof.
  intros E. destruct (get_numbers_missing (clear r) key res) as (? & _ & ?); [done| |done].
  simpl. lia.
Qed.

Lemma get_int_ok r key : is_Some (row_result r) → ∃ z, get_int r key = Ok z.
Proof.
  intros [res E]. unfold get_int, get_string. rewrite E. destruct (_ || _) eqn:Eb; [by eexists|].
  apply orb_false_iff in Eb as [H1%Z.ltb_ge H2%Z.leb_gt].
  destruct (lookup_lt_is_Some_2 (m_row r) (Z.to_nat (name2idx res key))) as [s Hs]; [lia|].
  rewrite (aget_in _ _ s) by done. by eexists.
Qed.

Lemma get_insert_id_wp w (Q : Z → mworld → Prop) : inv ∅ w → is_Some (m_port (cl w)) →
  (∀ id w', inv ∅ w' → same_config (cl w) (cl w') → Q id w') → wp (get_insert_id A) Q w.
Proof.
  intros Hi Hp HQ. unfold get_insert_id. apply wp_bind, (exec_wp ∅ w); [done..|].
  intros b w1 Hi1 Hc1 _. apply wp_bind, wp_handle.
  apply use_result_wp; [done|]. intros res [ok r] R w2 Hi2 Hc2 Hr Hd. apply wp_bind.
  assert (Hend : ∀ id, wp (destroy_result res;; mret id) Q w2).
  { intros id. apply wp_bind, Hd; [done..|]. intros w3 Hi3 Hc3. apply wp_ret, HQ; [done|].
    by rewrite Hc3. }
  destruct ok; [|apply wp_ret, Hend].
  destruct (get_int_ok r (bytes "id") Hr) as [z E]. apply wp_lift. rewrite E. apply Hend.
Qed.

Lemma string_wp R w from (Q : str → mworld → Prop) : inv R w →
  (∀ s w', inv R w' → cl w' = cl w →
    s = (if decide (m_mysql_ctx (cl w) = 0%Z) then []
         else mysql_real_escape_string A (mtrace w) (m_mysql_ctx (cl w)) from) → Q s w') →
  wp (mysql_string A from) Q w.
Proof.
  intros Hi HQ. unfold mysql_string. apply wp_bind, wp_handle.
  destruct (Z.eqb_spec (m_mysql_ctx (cl w)) 0) as [E|E].
  - apply wp_ret, HQ; [done..|]. by rewrite decide_True.
  - apply wp_bind, wp_mcall. cbv beta.
    destruct (escape_ok (mtrace w) (m_mysql_ctx (cl w)) from) as [Hl Hn].
    rewrite decide_True by (rewrite length_replicate; lia).
    apply wp_lift. rewrite cstr_app by done. apply HQ; [|done|by rewrite decide_False].
    apply inv_open_call; [done..|]. intros H Hin. simpl. by apply uses_in.
Qed.

Lemma index_of_elem c s : index_of c s = None → c ∉ s.
Proof.
  induction s as [|b s IH]; simpl; [set_solver|]. case_decide; [done|].
  destruct (index_of c s); [done|]. intros _. apply not_elem_of_cons. auto.
Qed.

Lemma connect_wp w a u p d (Q : bool → mworld → Prop) : inv ∅ w →
  (∀ b w', inv ∅ w' → (x3a ∈ a ∨ is_Some (m_port (cl w)) → is_Some (m_port (cl w'))) →
    b = (if decide (x3a ∈ a) then negb (m_mysql_ctx (cl w') =? 0)%Z else false) → Q b w') →
  wp (mysql_connect A a u p d) Q w.
Proof.
  intros Hi HQ. unfold mysql_connect. destruct (index_of x3a a) as [i|] eqn:E.
  - assert (x3a ∈ a) as Hin.
    { destruct (decide (x3a ∈ a)) as [|Hn]; [done|]. by rewrite (index_of_None _ _ Hn) in E. }
    apply wp_bind, wp_modify, wp_bind, (mysql_init_wp ∅); [exact Hi|by eexists|].
    intros w' calls Hi' Hc _ _ _. apply wp_bind, wp_handle, wp_ret, HQ; [done| |by rewrite decide_True].
    intros _. destruct Hc as (_ & -> & _). by eexists.
  - apply index_of_elem in E. apply wp_ret, HQ; [done| |by rewrite decide_False].
    by intros [Hin|Hp].
Qed.

Lemma affected_wp R w (Q : Z → mworld → Prop) : inv R w → is_Some (m_port (cl w)) →
  (∀ n w', inv R w' → same_config (cl w) (cl w') → (0 ≤ n < 4294967296)%Z → Q n w') →
  wp (mysql_last_affected_rows A) Q w.
Proof.
  intros Hi Hp HQ. unfold mysql_last_affected_rows. apply wp_bind, (reconnect_wp R w); [done..|].
  intros w' calls Hi' Hc _ _ _. destruct (Z.eqb_spec (m_mysql_ctx (cl w')) 0) as [E|E].
  - by apply wp_ret, HQ.
  - apply wp_bind, wp_mcall, wp_ret, HQ; [|done|apply Z.mod_pos_bound; lia].
    apply inv_open_call; [done..|]. intros H Hin. simpl. by apply uses_in.
Qed.

End Lemmas.

(** ** Sequences of operations *)

Inductive mop :=
  | OConnect (ip_port user password database : str)
  | OReconnect
  | OExec (sql : str)
  | OAffected
  | OInsertId
  | OString (from : str).

Definition run_op (A : mysql_api) (o : mop) : M mworld unit :=
  match o with
  | OConnect a u p d => mysql_connect A a u p d;; mret tt
  | OReconnect => mysql_reconnect A;; mret tt
  | OExec sql => mysql_exec A sql;; mret tt
  | OAffected => mysql_last_affected_rows A;; mret tt
  | OInsertId => get_insert_id A;; mret tt
  | OString s => mysql_string A s;; mret tt
  end.

Fixpoint run_ops (A : mysql_api) (os : list mop) : M mworld unit :=
  match os with [] => mret tt | o :: os' => run_op A o;; run_ops A os' end.

(** A client from its constructor to its destructor. *)
Definition client_life (A : mysql_api) (a u p d : str) (os : list mop) : M mworld unit :=
  upd_cl (λ _, new_client);; mysql_connect A a u p d;; run_ops A os;; destroy_client.

Definition start : mworld := MWorld new_client [].

Section Theorems.
Context (A : mysql_api) `{!MysqlOk A}.

Lemma start_inv : inv ∅ start.
Proof. by exists nothing_held. Qed.

Lemma destroy_client_wp w (Q : unit → mworld → Prop) : inv ∅ w →
  (∀ w' H, tracked (mtrace w') = Some H → handles H = failed H → results H = ∅ →
    cl w' = cl w → Q tt w') → wp destroy_client Q w.
Proof.
  intros Hi HQ. pose proof (inv_close A ∅ w Hi) as (H' & E' & HR & _ & Hh & _).
  unfold destroy_client. apply wp_bind, wp_handle. unfold ctx_set in Hh. simpl in Hh.
  rewrite union_empty_r_L in Hh.
  destruct (Z.eqb_spec (m_mysql_ctx (cl w)) 0) as [E|E]; simpl.
  - destruct Hi as (H & Et & HR' & H0 & Hh' & _). unfold ctx_set in Hh'.
    rewrite decide_True, union_empty_r_L in Hh' by done. apply wp_ret. by apply (HQ w H).
  - apply wp_memit. by apply (HQ (MWorld (cl w) _) H').
Qed.

Lemma run_op_wp o w (Q : unit → mworld → Prop) : inv ∅ w → is_Some (m_port (cl w)) →
  (∀ w', inv ∅ w' → is_Some (m_port (cl w')) → Q tt w') → wp (run_op A o) Q w.
Proof.
  intros Hi Hp HQ.
  assert (Hc : ∀ w', inv ∅ w' → same_config (cl w) (cl w') → Q tt w').
  { intros w' Hi' (_ & E & _). apply HQ; [done|by rewrite E]. }
  destruct o; apply wp_bind.
  - apply connect_wp; [done..|]. intros b w' Hi' Hp' _. apply wp_ret, HQ; auto.
  - apply (reconnect_wp A ∅ w); [done..|]. intros. by apply wp_ret, Hc.
  - apply (exec_wp A ∅ w); [done..|]. intros. by apply wp_ret, Hc.
  - apply (affected_wp A ∅ w); [done..|]. intros. by apply wp_ret, Hc.
  - apply get_insert_id_wp; [done..|]. intros. by apply wp_ret, Hc.
  - apply (string_wp A ∅ w); [done..|]. intros s w' Hi' E _. apply wp_ret, HQ; [done|by rewrite E].
Qed.

Lemma run_ops_wp os : ∀ w (Q : unit → mworld → Prop), inv ∅ w → is_Some (m_port (cl w)) →
  (∀ w', inv ∅ w' → is_Some (m_port (cl w')) → Q tt w') → wp (run_ops A os) Q w.
Proof.
  induction os as [|o os IH]; intros w Q Hi Hp HQ; cbn [run_ops].
  - by apply wp_ret, HQ.
  - apply wp_bind, run_op_wp; [done..|]. intros w' Hi' Hp'. by apply IH.
Qed.

(** C14: Handles and result sets.  In every life of a client that begins with an
    address that has a colon, whatever the library answers, every call uses a handle
    and a result set that are open, no loop is left unfinished, and at the end every
    result set is freed and every handle closed but those whose connection failed:
    [init_mysql_ctx] overwrites these with NULL. *)
Theorem mysql_handles a u p d os : x3a ∈ a →
  wp (client_life A a u p d os) (λ _ w', ∃ H, tracked (mtrace w') = Some H ∧
    handles H = failed H ∧ results H = ∅) start.
Proof.
  intros Ha. unfold client_life. apply wp_bind, wp_modify, wp_bind, connect_wp; [done|apply start_inv|].
  intros b w1 Hi1 Hp1 _. apply wp_bind, run_ops_wp; [done|by apply Hp1; left|].
  intros w2 Hi2 _. apply destroy_client_wp; [done|]. intros w3 H E Hh Hr _. by exists H.
Qed.

(** C19: An execution makes at most one query, its last call, right after a ping that
    was answered or a connection that was made, on the handle that the client then
    has; it answers true just when the library accepted the query, and false with no
    query when there is no connection. *)
Theorem mysql_exec_correct sql w R : inv R w → is_Some (m_port (cl w)) →
  wp (mysql_exec A sql) (λ b w', inv R w' ∧ same_config (cl w) (cl w') ∧
    exec_post sql b w w') w.
Proof. intros Hi Hp. by apply (exec_wp A R w). Qed.

(** C20: A row by column names.  With the columns [names] and the first row [x], a name
    that no column has gets the empty string, and a name gets the value of its last
    column, all bytes of it, NULL being empty; but only the first columns are read,
    as many as there are different names, and a name whose last column is behind them
    gets the empty string as well.  With different names every column is read. *)
Theorem mysql_row names (x : row) rows w :
  let h := m_mysql_ctx (cl w) in let r := mysql_store_result A (mtrace w) h in
  inv ∅ w → (h ≠ 0%Z) → (r ≠ 0%Z) → length names ≤ max_fields →
  Forall (λ x, length x = length names) (x :: rows) →
  result_is A r (mtrace w ++ [CStore h r]) names (x :: rows) →
  wp (res ← new_result A h; fetch_row A res) (λ okr w', inv {[r]} w' ∧
    okr.1 = bool_decide (names ≠ []) ∧
    (∀ key, key ∉ names → get_string okr.2 key = Ok []) ∧
    (∀ key i v, names !! i = Some key → (∀ j, i < j → names !! j ≠ Some key) →
      x !! i = Some v → get_string okr.2 key =
        Ok (if decide (i < length (remove_dups names)) then default [] v else [])) ∧
    (NoDup names → ∀ key i v, names !! i = Some key → x !! i = Some v →
      get_string okr.2 key = Ok (default [] v))) w.
Proof.
  intros h r Hi Hh Hr Hn Hrows Hres.
  apply wp_bind, (read_result_wp A w names (x :: rows)); [done..|].
  intros res w' Hi' Hc Er Hready. pose proof Hready as (Hf & _). change (m_result res = r) in Er. change (inv {[r]} w') in Hi'.
  clearbody r. subst r. apply Forall_cons in Hrows as [Hx _].
  apply (fetch_row_wp A w' names (x :: rows)); [done..|]. intros w2 Hi2 Hc2. cbn [fst snd].
  split; [done|]. split; [done|].
  assert (Hat : ∀ key i v, names !! i = Some key → (∀ j, i < j → names !! j ≠ Some key) →
    x !! i = Some v →
    get_string (Row (take (length (remove_dups names)) (default [] <$> x)) (Some res)) key =
    Ok (if decide (i < length (remove_dups names)) then default [] v else [])).
  { intros key i v. by apply (get_string_at A). }
  split; [|split; [done|]].
  - intros key Hk. apply get_string_unknown. rewrite Hf. by rewrite (fields_of_none A).
  - intros Hnd key i v Hi3 Hv. rewrite (Hat key i v); [|done| |done].
    + rewrite decide_True; [done|]. apply lookup_lt_Some in Hi3 as Hlt.
      assert (length names ≤ length (remove_dups names)); [|lia].
      apply submseteq_length, NoDup_submseteq; [done|]. intros y. by rewrite elem_of_remove_dups.
    + intros j Hj Hj'. pose proof (NoDup_lookup _ _ _ _ Hnd Hi3 Hj'). lia.
Qed.

(** The program of test.cpp runs to its end whatever the library answers, also
    without a connection or a row, and keeps to the rules of handles and results. *)
Lemma mysql_main w : mtrace w = [] →
  wp (main A) (λ _ w', ∃ H, tracked (mtrace w') = Some H ∧ handles H = failed H ∧
    results H = ∅) w.
Proof.
  intros Hw. unfold main. apply wp_bind, wp_modify. rewrite Hw.
  apply wp_bind, (connect_wp A); [apply start_inv|]. intros b w1 Hi1 Hp1 _.
  assert (Hend : ∀ w', inv ∅ w' → wp destroy_client (λ _ w', ∃ H,
    tracked (mtrace w') = Some H ∧ handles H = failed H ∧ results H = ∅) w').
  { intros w' Hi'. apply destroy_client_wp; [done|]. intros w3 H E Hh Hr _. by exists H. }
  assert (Hp : is_Some (m_port (cl w1))).
  { apply Hp1. left. apply (bool_decide_unpack _). by vm_compute. }
  apply wp_bind. destruct b; simpl negb; cbn iota; [|apply wp_memit, Hend; by apply inv_call].
  apply wp_bind, wp_mcall, wp_bind, wp_mcall, wp_bind, wp_memit. cbn [mtrace cl].
  set (w2 := MWorld (cl w1) _).
  assert (Hi2 : inv ∅ w2) by (do 3 (eapply (inv_call ∅ (MWorld (cl w1) _)); [|done]); destruct w1; done).
  apply wp_bind, (exec_wp A ∅ w2); [done..|]. intros b w3 Hi3 Hc3 _.
  apply wp_bind, wp_mcall, wp_bind, wp_memit, wp_bind, wp_handle. cbn [mtrace cl].
  set (w4 := MWorld (cl w3) _).
  assert (Hi4 : inv ∅ w4) by (do 2 (eapply (inv_call ∅ (MWorld (cl w3) _)); [|done]); destruct w3; done).
  apply (use_result_wp A w4); [done|]. intros res [ok r] R w5 Hi5 Hc5 Hr Hd.
  destruct (get_int_ok r (bytes "uid") Hr) as [uid E1].
  destruct (get_int_ok r (bytes "age") Hr) as [age E2].
  apply (wp_lift_bind _ uid); [exact E1|]. apply (wp_lift_bind _ age); [exact E2|].
  apply wp_bind, wp_memit, Hd; [by apply inv_call|done|]. intros w6 Hi6 _. by apply Hend.
Qed.

(** A client that was not connected uses the port that has no value. *)
Lemma mysql_exec_unconnected sql : (mysql_init A [CClose 0] ≠ 0%Z) →
  mysql_exec A sql start = Fault FUninit.
Proof.
  intros Hne. unfold mysql_exec, mysql_reconnect, init_mysql_ctx, handle, emit, call, upd_cl,
    mbind, M_bind, gets, modify, mret, M_ret. simpl.
  by rewrite (proj2 (Z.eqb_neq _ _) Hne).
Qed.

End Theorems.

(** ** A concrete library *)

(** The first connection fails, the others do not.  Every result has the columns id,
    name and id again, and one row. *)
Definition demo_names : list str := [bytes "id"; bytes "name"; bytes "id"].
Definition demo_rows : list row := [[Some (bytes "7"); Some (bytes "ann"); Some (bytes "9")]].

Definition unused (s : gset Z) : Z := fresh ({[0%Z]} ∪ s).

(** The number of calls that [c] counts since the result set [r] was stored. *)
Definition since_store (c : mcall) (r : Z) (t : list mcall) : nat :=
  foldl (λ k d, match d with CStore _ r' => if decide (r' = r) then 0 else k
                | _ => if decide (d = c) then S k else k end) 0 t.

Definition demo_api : mysql_api := {|
  mysql_init t := match tracked t with Some H => unused (handles H) | None => 0%Z end;
  mysql_real_connect t _ _ _ _ _ _ :=
    existsb (λ c, match c with CConnect _ _ _ _ _ _ _ => true | _ => false end) t;
  mysql_ping _ _ := 0%Z;
  mysql_real_query _ _ _ := 0%Z;
  mysql_affected_rows _ _ := 1%Z;
  mysql_real_escape_string _ _ s := filter (λ b, b ≠ NUL) s;
  mysql_store_result t _ := match tracked t with Some H => unused (results H) | None => 0%Z end;
  mysql_fetch_field t r := demo_names !! since_store (CFetchField r) r t;
  mysql_fetch_row t r := demo_rows !! since_store (CFetchRow r) r t;
  mysql_fetch_lengths t r :=
    match since_store (CFetchRow r) r t with
    | O => None | S k => row_lengths <$> demo_rows !! k
    end;
  mysql_num_rows _ _ := 1%Z;
  time _ := 0%Z
|}.

Lemma munused_fresh s : unused s ∉ s.
Proof.
  unfold unused. pose proof (is_fresh ({[0%Z]} ∪ s)) as H. set_solver.
Qed.

Lemma since_store_app c r t h calls : (∀ h, CStore h r ∉ calls) → (∀ h r, c ≠ CStore h r) →
  since_store c r ((t ++ [CStore h r]) ++ calls) = count_calls c calls.
Proof.
  intros Hn Hc. unfold since_store. rewrite !foldl_app. simpl. rewrite decide_True by done.
  assert (H : ∀ k, foldl (λ k d, match d with CStore _ r' => if decide (r' = r) then 0 else k
    | _ => if decide (d = c) then S k else k end) k calls = k + count_calls c calls);
    [|by rewrite H].
  revert Hn. unfold count_calls. induction calls as [|d calls IH]; intros Hn k; [simpl; lia|].
  cbn [foldl]. rewrite IH by set_solver.
  destruct (decide (d = c)) as [->|Hd].
  - rewrite filter_cons_True by done. cbn [length].
    destruct c; try lia. by destruct (Hc h0 r0).
  - rewrite filter_cons_False by done. destruct d; try done.
    rewrite decide_False; [done|]. intros ->. apply (Hn h0). by left.
Qed.

Lemma demo_result r t h : result_is demo_api r (t ++ [CStore h r]) demo_names demo_rows.
Proof.
  intros calls _ Hs. simpl. rewrite !since_store_app by done.
  split; [done|]. split; [done|]. intros k x Hk Hx. rewrite Hk. by rewrite Hx.
Qed.

#[global] Instance demo_api_ok : MysqlOk demo_api.
Proof.
  split; simpl.
  - intros t H ->. apply munused_fresh.
  - intros t H _ ->. apply munused_fresh.
  - intros t h _. exists demo_names, demo_rows.
    split; [unfold max_fields; simpl; lia|]. split; [by repeat constructor|apply demo_result].
  - intros _ _ s. split; [|by rewrite list_elem_of_filter; intros []].
    pose proof (length_filter (λ b, b ≠ NUL) s). lia.
Qed.

(** ** Witnesses *)

Lemma mysql_handles_witness :
  wp (client_life demo_api (bytes "1.2.3.4:33") [] [] [] [OExec (bytes "x"); OInsertId; OAffected])
    (λ _ w', ∃ H, tracked (mtrace w') = Some H ∧ handles H = failed H ∧ results H = ∅) start.
Proof. apply (mysql_handles demo_api). apply (bool_decide_unpack _). by vm_compute. Defined.

(** One handle is lost in this life. *)
Lemma demo_life_loses :
  match client_life demo_api (bytes "1.2.3.4:33") [] [] [] [OExec (bytes "x")] start with
  | Ok (_, w) => (λ H, size (handles H)) <$> tracked (mtrace w)
  | Fault _ => None
  end = Some 1.
Proof. vm_compute. reflexivity. Qed.

(** The client after its second connection. *)
Definition demo_connect : M mworld unit :=
  mysql_connect demo_api (bytes "1.2.3.4:33") [] [] [];;
  mysql_connect demo_api (bytes "1.2.3.4:33") [] [] [];; mret tt.
Definition demo_world : mworld :=
  match demo_connect start with Ok (_, w) => w | Fault _ => start end.

Lemma demo_world_inv : inv ∅ demo_world ∧ is_Some (m_port (cl demo_world)).
Proof.
  assert (H : wp demo_connect (λ _ w, inv ∅ w ∧ is_Some (m_port (cl w))) start).
  { assert (x3a ∈ bytes "1.2.3.4:33") by (apply (bool_decide_unpack _); by vm_compute).
    apply wp_bind, (connect_wp demo_api); [apply start_inv|]. intros b w1 Hi1 Hp1 _.
    apply wp_bind, (connect_wp demo_api); [done|]. intros b2 w2 Hi2 Hp2 _.
    apply wp_ret. split; [done|]. apply Hp2. by left. }
  unfold wp, safely in H. unfold demo_world. destruct (demo_connect start) as [[[] w]|f]; done.
Qed.

Lemma mysql_exec_correct_witness :
  wp (mysql_exec demo_api (bytes "x")) (λ b w', inv ∅ w' ∧ same_config (cl demo_world) (cl w') ∧
    exec_post (bytes "x") b demo_world w') demo_world.
Proof. apply (mysql_exec_correct demo_api); apply demo_world_inv. Defined.

Lemma mysql_row_witness :
  let h := m_mysql_ctx (cl demo_world) in
  let r := mysql_store_result demo_api (mtrace demo_world) h in
  wp (res ← new_result demo_api h; fetch_row demo_api res) (λ okr w', inv {[r]} w' ∧
    okr.1 = bool_decide (demo_names ≠ []) ∧
    (∀ key, key ∉ demo_names → get_string okr.2 key = Ok []) ∧
    (∀ key i v, demo_names !! i = Some key → (∀ j, i < j → demo_names !! j ≠ Some key) →
      [Some (bytes "7"); Some (bytes "ann"); Some (bytes "9")] !! i = Some v →
      get_string okr.2 key =
        Ok (if decide (i < length (remove_dups demo_names)) then default [] v else [])) ∧
    (NoDup demo_names → ∀ key i v, demo_names !! i = Some key →
      [Some (bytes "7"); Some (bytes "ann"); Some (bytes "9")] !! i = Some v →
      get_string okr.2 key = Ok (default [] v))) demo_world.
Proof.
  apply (mysql_row demo_api demo_names [Some (bytes "7"); Some (bytes "ann"); Some (bytes "9")] []).
  - apply demo_world_inv.
  - by vm_compute.
  - by vm_compute.
  - unfold max_fields. simpl. lia.
  - by repeat constructor.
  - apply demo_result.
Defined.

Lemma mysql_main_witness :
  wp (main demo_api) (λ _ w', ∃ H, tracked (mtrace w') = Some H ∧ handles H = failed H ∧
    results H = ∅) start.
Proof. by apply (mysql_main demo_api). Defined.

(** With the second id behind the columns that are read, id is empty. *)
Lemma demo_columns :
  match (res ← new_result demo_api (m_mysql_ctx (cl demo_world)); fetch_row demo_api res)
    demo_world with
  | Ok ((_, r), _) => Some (get_string r (bytes "id"), get_string r (bytes "name"))
  | Fault _ => None
  end = Some (Ok [], Ok (bytes "ann")).
Proof. vm_compute. reflexivity. Qed.
