(* ===== verification/Sockets.v ===== *)
(** * Sockets: the socket programs (epoll_test/server.cpp, epoll_test/client.cpp,
    socket_test/test_socket1.cpp)

    The programs over the operating system, whose answers are a parameter, [os]:
    functions of the calls so far and of the arguments.  The state is the calls and,
    for the server, its arrays [events] and [line].  A descriptor is a number. *)
From stdpp Require Import gmap list strings.
From Stdlib Require Import ZArith Strings.Byte.
From S2P Require Import Prelude Bytes CString.

Abbreviation str := (list byte).

(** ** Data *)

(** A [struct epoll_event]. *)
Record epoll_event := Event { ev_fd : Z; ev_events : Z }.

Definition EPOLLIN : Z := 1.
Definition EPOLLET : Z := 2147483648.
Definition O_NONBLOCK : Z := 2048.
Definition ECONNRESET : Z := 104.

(** What [read] answers: -1 and [errno], or the bytes read. *)
Inductive rd :=
  | RErr (errno : Z)
  | RData (bs : str).

(** The calls, with what they answered.  An address is the text it was made of, [None]
    being the address 0; a port is in the byte order of the host. *)
Inductive ocall :=
  | OEpollCreate (fd : Z)
  | OSocket (fd : Z)
  | OCtlAdd (epfd fd : Z) (ev : epoll_event)
  | OBind (fd : Z) (ip : option str) (port res : Z)
  | OListen (fd backlog res : Z)
  | OConnect (fd : Z) (ip : option str) (port res : Z)
  | OWait (epfd max : Z) (evs : option (list epoll_event))
  | OAccept (fd conn : Z)
  | ORead (fd : Z) (r : rd)
  | OClose (fd : Z)
  | OPrint (s : str)
  | OPerror (s : str)
  | OSleep (n : Z)
  | OGetFl (fd res : Z)
  | OSetFl (fd flags res : Z).

#[global] Instance event_eq_dec : EqDecision epoll_event.
Proof. solve_decision. Defined.
#[global] Instance rd_eq_dec : EqDecision rd.
Proof. solve_decision. Defined.
#[global] Instance ocall_eq_dec : EqDecision ocall.
Proof. solve_decision. Defined.

Record os := OS {
  epoll_create : list ocall → Z;
  socket : list ocall → Z;
  bind : list ocall → Z → option str → Z → Z;
  listen : list ocall → Z → Z → Z;
  connect : list ocall → Z → option str → Z → Z;
  epoll_wait : list ocall → Z → Z → option (list epoll_event);
  accept : list ocall → Z → Z;
  read : list ocall → Z → Z → rd;
  errno : list ocall → Z;
  inet_pton : str → Z;
  fputs_eof : list ocall → str → bool;
  fcntl_getfl : list ocall → Z → Z;
  fcntl_setfl : list ocall → Z → Z → Z
}.

(** The programs' state: [line] is [recvline] of test_socket1.cpp and [buf] of
    client.cpp, which have no [events]. *)
Record srv := Srv { events : list (option epoll_event); line : str; calls : list ocall }.

Definition set_events e (s : srv) := Srv e (line s) (calls s).
Definition set_line l (s : srv) := Srv (events s) l (calls s).

Definition emit (c : ocall) : M srv unit :=
  modify (λ s, Srv (events s) (line s) (calls s ++ [c])).
Definition call {A} (f : list ocall → A) (mk : A → ocall) : M srv A :=
  t ← gets calls; emit (mk (f t));; mret (f t).

(** [events[i]], and the write of [n] bytes to [line]. *)
Definition get_event (i : Z) : M srv epoll_event :=
  es ← gets events;
  e ← lift (aget es i);
  match e with Some e => mret e | None => fail FUninit end.

Definition put_event (i : Z) (e : epoll_event) : M srv unit :=
  es ← gets events;
  es' ← lift (aset es i (Some e));
  modify (set_events es').

Definition fill_line (bs : str) : M srv unit :=
  l ← gets line;
  if decide (length bs ≤ length l) then modify (set_line (bs ++ drop (length bs) l))
  else fail FBounds.

Definition put_line (n : Z) (b : byte) : M srv unit :=
  l ← gets line;
  l' ← lift (aset l n b);
  modify (set_line l').

Definition NL : byte := x0a.
Definition endl (s : str) : str := s ++ [NL].

Section Sockets.
Context (K : os).

(** The result is false when the program exits. *)
Definition setnonblocking (sock : Z) : M srv bool :=
  opts ← call (λ t, fcntl_getfl K t sock) (OGetFl sock);
  if (opts <? 0)%Z then emit (OPerror (bytes "fcntl(sock,GETFL)"));; mret false
  else
    let opts := Z.lor opts O_NONBLOCK in
    r ← call (λ t, fcntl_setfl K t sock opts) (OSetFl sock opts);
    if (r <? 0)%Z then emit (OPerror (bytes "fcntl(sock,SETFL,opts)"));; mret false
    else mret true.

(** [read(fd, line, n)] *)
Definition read_line (fd n : Z) : M srv rd :=
  r ← call (λ t, read K t fd n) (ORead fd);
  match r with
  | RErr _ => mret r
  | RData bs => fill_line bs;; mret r
  end.

(** ** server.cpp *)

Definition LISTENQ : Z := 20.
Definition MAXLINE : nat := 250.
Definition portnumber : Z := 6666.
Definition MAXEVENTS : nat := 20.

(** The setup: the descriptors of epoll and of the listening socket, or the code of
    [exit]. *)
Definition setup : M srv (Z + Z * Z) :=
  epfd ← call (epoll_create K) OEpollCreate;
  listenfd ← call (socket K) OSocket;
  if (listenfd =? -1)%Z then
    emit (OPerror (bytes "create socket failed"));; mret (inl (-1)%Z)
  else
    emit (OCtlAdd epfd listenfd (Event listenfd (Z.lor EPOLLIN EPOLLET)));;
    b ← call (λ t, bind K t listenfd (Some (bytes "192.168.161.129")) portnumber)
          (OBind listenfd (Some (bytes "192.168.161.129")) portnumber);
    if (b =? -1)%Z then emit (OPerror (bytes "bind failed"));; mret (inl (-1)%Z)
    else
      l ← call (λ t, listen K t listenfd LISTENQ) (OListen listenfd LISTENQ);
      if (l =? -1)%Z then emit (OPerror (bytes "listen failed"));; mret (inl (-1)%Z)
      else mret (inr (epfd, listenfd)).

(** The branch of a connection with data. *)
Definition on_readable (i : Z) : M srv unit :=
  emit (OPrint (endl (bytes "EPOLLIN")));;
  e ← get_event i;
  if (ev_fd e <? 0)%Z then mret tt
  else
    r ← read_line (ev_fd e) (Z.of_nat MAXLINE);
    n ← (match r with
         | RErr e_no =>
           (if (e_no =? ECONNRESET)%Z then
              emit (OClose (ev_fd e));;
              put_event i (Event (-1) (ev_events e))
            else emit (OPrint (endl (bytes "readline error"))));;
           mret (-1)%Z
         | RData [] =>
           emit (OClose (ev_fd e));;
           put_event i (Event (-1) (ev_events e));;
           emit (OPrint (endl (bytes "client close socket")));;
           mret 0%Z
         | RData bs => mret (Z.of_nat (length bs))
         end);
    put_line n NL;;
    l ← gets line;
    s ← lift (cstr l 0);
    emit (OPrint (endl (bytes "read: " ++ s))).

(** The branch of the listening socket; the code of [exit], if it exits. *)
Definition on_listening (epfd listenfd : Z) : M srv (option Z) :=
  connfd ← call (λ t, accept K t listenfd) (OAccept listenfd);
  if (connfd <? 0)%Z then emit (OPerror (bytes "connfd < 0"));; mret (Some (-1)%Z)
  else
    emit (OCtlAdd epfd connfd (Event connfd (Z.lor EPOLLIN EPOLLET)));;
    mret None.

Definition on_event (epfd listenfd i : Z) : M srv (option Z) :=
  e ← get_event i;
  if (ev_fd e =? listenfd)%Z then on_listening epfd listenfd
  else if negb (Z.land (ev_events e) EPOLLIN =? 0)%Z then on_readable i;; mret None
  else mret None.

(** The loop over the events with [n] events left from [i] on. *)
Fixpoint on_events (epfd listenfd : Z) (n : nat) (i : Z) : M srv (option Z) :=
  match n with
  | O => mret None
  | S n' =>
    x ← on_event epfd listenfd i;
    match x with
    | Some c => mret (Some c)
    | None => on_events epfd listenfd n' (i + 1)
    end
  end.

(** What [epoll_wait] writes to the array. *)
Definition fill_events (evs : list epoll_event) : M srv unit :=
  es ← gets events;
  if decide (length evs ≤ length es) then
    modify (set_events ((Some <$> evs) ++ drop (length evs) es))
  else fail FBounds.

Definition wait (epfd : Z) : M srv Z :=
  r ← call (λ t, epoll_wait K t epfd (Z.of_nat MAXEVENTS)) (OWait epfd (Z.of_nat MAXEVENTS));
  match r with
  | None => mret (-1)%Z
  | Some evs => fill_events evs;; mret (Z.of_nat (length evs))
  end.

(** The body of the endless loop. *)
Definition round (epfd listenfd : Z) : M srv (option Z) :=
  nfds ← wait epfd;
  emit (OPrint (endl (bytes "wake up: " ++ fmt_d nfds)));;
  on_events epfd listenfd (Z.to_nat nfds) 0.

(** The first [n] rounds; the loop has no other end than [exit]. *)
Fixpoint rounds (n : nat) (epfd listenfd : Z) : M srv (option Z) :=
  match n with
  | O => mret None
  | S n' =>
    x ← round epfd listenfd;
    match x with
    | Some c => mret (Some c)
    | None => rounds n' epfd listenfd
    end
  end.

(** The arrays of [main]: [events] has no value, [line] is zero. *)
Definition server_start : srv :=
  Srv (replicate MAXEVENTS None) (replicate MAXLINE NUL) [].

Definition server_main (n : nat) : M srv (option Z) :=
  x ← setup;
  match x with
  | inl c => mret (Some c)
  | inr (epfd, listenfd) => rounds n epfd listenfd
  end.

(** ** client.cpp *)

Definition client_start : srv := Srv [] (replicate 120 NUL) [].

Definition client_main : M srv Z :=
  s ← call (socket K) OSocket;
  call (λ t, connect K t s (Some (bytes "127.0.0.1")) 9995)
    (OConnect s (Some (bytes "127.0.0.1")) 9995);;
  read_line s 120;;
  l ← gets line;
  text ← lift (cstr l 0);
  emit (OPrint (endl text));;
  emit (OSleep 5);;
  mret 0%Z.

(** ** test_socket1.cpp *)

Definition RECVLINE : nat := 1024.

(** The array has no value before; its bytes are never read before they are written. *)
Definition recv_start (l : str) : srv := Srv [] l [].

(** The loop, and the last result of [read]. *)
Fixpoint recv_loop (fuel : nat) (s : Z) : M srv Z :=
  match fuel with
  | O => fail FFuel
  | S fuel' =>
    r ← read_line s (Z.of_nat RECVLINE);
    match r with
    | RErr _ => mret (-1)%Z
    | RData [] => mret 0%Z
    | RData bs =>
      put_line (Z.of_nat (length bs)) NUL;;
      l ← gets line;
      text ← lift (cstr l 0);
      emit (OPrint text);;
      t ← gets calls;
      when (fputs_eof K t text) (emit (OPrint (endl (bytes "fputs error"))));;
      recv_loop fuel' s
    end
  end.

Definition test_socket1_main (fuel : nat) (argv : list str) : M srv Z :=
  match argv with
  | [_; ip; port] =>
    s ← call (socket K) OSocket;
    if (s =? -1)%Z then
      e ← gets (λ w, errno K (calls w));
      emit (OPrint (endl (bytes "create socket failed. err=" ++ fmt_u (u32 e))));;
      mret (-1)%Z
    else
      let p := inet_pton K ip in
      if (p <? 0)%Z then
        emit (OPrint (endl (bytes "inet_pton error for " ++ ip)));; mret (-1)%Z
      else
        let addr := if (p =? 0)%Z then None else Some ip in
        c ← call (λ t, connect K t s addr (atoi port `mod` 65536))
              (OConnect s addr (atoi port `mod` 65536));
        if (c <? 0)%Z then emit (OPrint (endl (bytes "connect error")));; mret 0%Z
        else
          n ← recv_loop fuel s;
          when (n <? 0)%Z (emit (OPrint (endl (bytes "read error"))));;
          mret 0%Z
  | _ => mret 0%Z
  end.

End Sockets.
