(* ===== verification/SocketsSpec.v ===== *)
(** * SocketsSpec: what the socket programs do

    The calls are checked against the rules of descriptors, and the texts the server
    prints against the bytes it reads.  The theorems say that the server uses open
    descriptors and keeps every connection registered, which calls a round makes, what
    is printed for a message, when a read ends outside of an array, and that
    test_socket1.cpp prints the stream it receives. *)
From stdpp Require Import gmap list strings sets.
From Stdlib Require Import ZArith Strings.Byte.
From S2P Require Import Prelude Bytes CString Sockets.

(** ** The rules of descriptors *)

(** The open descriptors, and those registered with epoll. *)
Record descs := Descs { opened : gset Z; watched : gset Z }.

Definition needs {X} (b : Prop) `{!Decision b} (x : X) : option X :=
  if decide b then Some x else None.

(** A new descriptor, or the failure of its call. *)
Definition adds (H : descs) (fd : Z) : option descs :=
  if decide (fd < 0)%Z then Some H
  else needs (fd ∉ opened H) (Descs ({[fd]} ∪ opened H) (watched H)).

Definition track (H : descs) (c : ocall) : option descs :=
  match c with
  | OEpollCreate fd | OSocket fd => adds H fd
  | OAccept fd conn => H' ← needs (fd ∈ opened H) H; adds H' conn
  | OCtlAdd epfd fd ev =>
    needs (epfd ∈ opened H ∧ fd ∈ opened H ∧ (fd ∉ watched H) ∧ ev_fd ev = fd)
      (Descs (opened H) ({[fd]} ∪ watched H))
  | OBind fd _ _ _ | OListen fd _ _ | OConnect fd _ _ _ | ORead fd _ | OWait fd _ _
  | OGetFl fd _ | OSetFl fd _ _ =>
    needs (fd ∈ opened H) H
  | OClose fd =>
    needs (fd ∈ opened H) (Descs (opened H ∖ {[fd]}) (watched H ∖ {[fd]}))
  | OPrint _ | OPerror _ | OSleep _ => Some H
  end.

Definition tracked (t : list ocall) : option descs :=
  foldl (λ H c, H' ← H; track H' c) (Some (Descs ∅ ∅)) t.

Lemma descs_app t c : tracked (t ++ [c]) = (H ← tracked t; track H c).
Proof. unfold tracked. by rewrite foldl_app. Qed.

Lemma descs_use t H c H' : tracked t = Some H → track H c = Some H' →
  tracked (t ++ [c]) = Some H'.
Proof. intros E E'. by rewrite descs_app, E. Qed.

Lemma needs_true {X} (b : Prop) `{!Decision b} (x : X) : b → needs b x = Some x.
Proof. intros. unfold needs. by rewrite decide_True. Qed.

Lemma adds_new H fd : fd ∉ opened H →
  adds H fd = Some (if decide (fd < 0)%Z then H else Descs ({[fd]} ∪ opened H) (watched H)).
Proof. intros Hn. unfold adds. destruct (decide (fd < 0)%Z); [done|]. by apply needs_true. Qed.

(** ** What the operating system promises *)

Class OsOk (K : os) : Prop := {
  socket_result t : (-1 ≤ socket K t)%Z;
  socket_fresh t H : tracked t = Some H → socket K t ∉ opened H;
  accept_fresh t H fd : tracked t = Some H → accept K t fd ∉ opened H;
  wait_ok t H epfd max evs : tracked t = Some H → epoll_wait K t epfd max = Some evs →
    (Z.of_nat (length evs) ≤ max)%Z ∧ NoDup (ev_fd <$> evs) ∧
    Forall (λ e, ev_fd e ∈ watched H) evs;
  read_length t fd n bs : read K t fd n = RData bs → (Z.of_nat (length bs) ≤ n)%Z
}.

(** ** Messages and texts *)

(** What [line] holds after a message was read to [l] and its end was written. *)
Definition overlay (l m : str) : str := m ++ NL :: drop (S (length m)) l.

Definition read_bytes (c : ocall) : option str :=
  match c with ORead _ (RData bs) => Some bs | _ => None end.
Definition messages (t : list ocall) : list str := omap read_bytes t.

(** The texts of the messages. *)
Definition reading (s : str) : str := endl (bytes "read: " ++ s).
Definition said (c : ocall) : option str :=
  match c with
  | OPrint s => if decide (take 6 s = bytes "read: ") then Some s else None
  | _ => None
  end.
Definition texts (t : list ocall) : list str := omap said t.

(** The string that is shown for the last message: a message hides as much of the
    one shown before as it has bytes, and one more for its end. *)
Definition shown (ms : list str) : str := foldl overlay [] ms.

Fixpoint all_shown (s : str) (ms : list str) : list str :=
  match ms with
  | [] => []
  | m :: ms' => overlay s m :: all_shown (overlay s m) ms'
  end.

(** The reads that leave a NUL in the array. *)
Definition short (r : rd) : Prop :=
  match r with RErr _ => False | RData bs => length bs ≤ MAXLINE - 2 end.

(** ** A round *)

(** The calls that serve an event. *)
Inductive served (epfd listenfd : Z) : epoll_event → list ocall → Prop :=
  | served_accept e conn : ev_fd e = listenfd → (0 ≤ conn)%Z →
      served epfd listenfd e
        [OAccept listenfd conn; OCtlAdd epfd conn (Event conn (Z.lor EPOLLIN EPOLLET))]
  | served_data e bs s : ev_fd e ≠ listenfd → Z.land (ev_events e) EPOLLIN ≠ 0%Z → bs ≠ [] →
      served epfd listenfd e
        [OPrint (endl (bytes "EPOLLIN")); ORead (ev_fd e) (RData bs); OPrint (reading s)]
  | served_end e s : ev_fd e ≠ listenfd → Z.land (ev_events e) EPOLLIN ≠ 0%Z →
      served epfd listenfd e
        [OPrint (endl (bytes "EPOLLIN")); ORead (ev_fd e) (RData []); OClose (ev_fd e);
         OPrint (endl (bytes "client close socket")); OPrint (reading s)]
  | served_other e : ev_fd e ≠ listenfd → Z.land (ev_events e) EPOLLIN = 0%Z →
      served epfd listenfd e [].

(** The calls that serve a round of events, and the code of [exit] when [accept]
    failed. *)
Inductive served_all (epfd listenfd : Z) :
    list epoll_event → list ocall → option Z → Prop :=
  | all_nil : served_all epfd listenfd [] [] None
  | all_cons e evs t t' x : served epfd listenfd e t → served_all epfd listenfd evs t' x →
      served_all epfd listenfd (e :: evs) (t ++ t') x
  | all_exit e evs conn : ev_fd e = listenfd → (conn < 0)%Z →
      served_all epfd listenfd (e :: evs)
        [OAccept listenfd conn; OPerror (bytes "connfd < 0")] (Some (-1)%Z).

Inductive round_does (epfd listenfd : Z) : list ocall → option Z → Prop :=
  | round_failed :
      round_does epfd listenfd
        [OWait epfd (Z.of_nat MAXEVENTS) None; OPrint (endl (bytes "wake up: -1"))] None
  | round_events evs t x : served_all epfd listenfd evs t x →
      round_does epfd listenfd
        (OWait epfd (Z.of_nat MAXEVENTS) (Some evs) ::
         OPrint (endl (bytes "wake up: " ++ fmt_d (Z.of_nat (length evs)))) :: t) x.

Inductive rounds_do (epfd listenfd : Z) : nat → list ocall → option Z → Prop :=
  | rounds_done : rounds_do epfd listenfd 0 [] None
  | rounds_next n t t' x : round_does epfd listenfd t None →
      rounds_do epfd listenfd n t' x → rounds_do epfd listenfd (S n) (t ++ t') x
  | rounds_exit n t c : round_does epfd listenfd t (Some c) →
      rounds_do epfd listenfd (S n) t (Some c).

(** The calls before the loop. *)
Definition setup_calls (epfd listenfd b l : Z) : list ocall :=
  [OEpollCreate epfd; OSocket listenfd;
   OCtlAdd epfd listenfd (Event listenfd (Z.lor EPOLLIN EPOLLET));
   OBind listenfd (Some (bytes "192.168.161.129")) portnumber b;
   OListen listenfd LISTENQ l].

(** The calls of a setup that ends with [exit]. *)
Inductive setup_exits : list ocall → Prop :=
  | exit_socket epfd :
      setup_exits [OEpollCreate epfd; OSocket (-1); OPerror (bytes "create socket failed")]
  | exit_bind epfd listenfd :
      setup_exits (take 4 (setup_calls epfd listenfd (-1) 0) ++ [OPerror (bytes "bind failed")])
  | exit_listen epfd listenfd b :
      setup_exits (setup_calls epfd listenfd b (-1) ++ [OPerror (bytes "listen failed")]).

(** ** The reads of a run that may leave the array *)

Section Long.
Context (K : os).

(** The next read of [fd] fails or leaves no NUL in the array, or one before it left
    none. *)
Definition reads_long (s : srv) (fd : Z) : Prop :=
  (∃ m, m ∈ messages (calls s) ∧ MAXLINE - 2 < length m) ∨
  ¬ short (read K (calls s ++ [OPrint (endl (bytes "EPOLLIN"))]) fd (Z.of_nat MAXLINE)).

(** The event [i] makes the server read so. *)
Definition event_long (listenfd : Z) (s : srv) (i : nat) : Prop :=
  ∃ e, events s !! i = Some (Some e) ∧ ev_fd e ≠ listenfd ∧
    Z.land (ev_events e) EPOLLIN ≠ 0%Z ∧ reads_long s (ev_fd e).

(** One of [n] events does, after those before it were served. *)
Definition events_long (epfd listenfd : Z) (n i : nat) (s : srv) : Prop :=
  ∃ j s', j < n ∧ on_events K epfd listenfd j (Z.of_nat i) s = Ok (None, s') ∧
    event_long listenfd s' (i + j).

(** One of the next round. *)
Definition wake_up (epfd : Z) : M srv Z :=
  nfds ← wait K epfd;
  emit (OPrint (endl (bytes "wake up: " ++ fmt_d nfds)));;
  mret nfds.
Definition round_long (epfd listenfd : Z) (s : srv) : Prop :=
  ∃ nfds s', wake_up epfd s = Ok (nfds, s') ∧
    events_long epfd listenfd (Z.to_nat nfds) 0 s'.

(** One of the first [n] rounds. *)
Definition rounds_long (epfd listenfd : Z) (n : nat) (s : srv) : Prop :=
  ∃ k s', k < n ∧ rounds K k epfd listenfd s = Ok (None, s') ∧ round_long epfd listenfd s'.

(** One of the run of [n] rounds. *)
Definition long_read (n : nat) : Prop :=
  ∃ epfd listenfd s, setup K server_start = Ok (inr (epfd, listenfd), s) ∧
    rounds_long epfd listenfd n s.

End Long.

(** The server between two events, with the connections [conns]. *)
Record server_state (epfd listenfd : Z) (conns : gset Z) (s : srv) : Prop := {
  st_tracked : tracked (calls s) =
    Some (Descs ({[epfd; listenfd]} ∪ conns) ({[listenfd]} ∪ conns));
  st_epfd : epfd ≠ listenfd ∧ epfd ∉ conns;
  st_listen : listenfd ∉ conns;
  st_fds : (0 ≤ listenfd)%Z ∧ ∀ fd, fd ∈ conns → (0 ≤ fd)%Z;
  st_events : length (events s) = MAXEVENTS;
  st_line : line s = foldl overlay (replicate MAXLINE NUL) (messages (calls s));
  st_short : Forall (λ m, length m < MAXLINE) (messages (calls s));
  st_texts : texts (calls s) = (λ l, reading (default [] (until_nul l))) <$>
    all_shown (replicate MAXLINE NUL) (messages (calls s))
}.

(** ** Lemmas on the texts *)

Lemma all_shown_app s ms m : all_shown s (ms ++ [m]) =
  all_shown s ms ++ [overlay (foldl overlay s ms) m].
Proof. revert s. induction ms as [|x ms IH]; intros s; simpl; [done|]. by rewrite IH. Qed.

Lemma overlay_length l m : length m < length l → length (overlay l m) = length l.
Proof. intros. unfold overlay. rewrite length_app. simpl. rewrite length_drop. lia. Qed.

Lemma overlays_length l ms : Forall (λ m, length m < length l) ms →
  length (foldl overlay l ms) = length l.
Proof.
  revert l. induction ms as [|m ms IH]; intros l Hms; [done|]. apply Forall_cons in Hms as [Hm Hms].
  simpl. assert (E : length (overlay l m) = length l) by (apply overlay_length; lia).
  rewrite IH; rewrite ?E; done.
Qed.

(** The last byte of the array stays NUL. *)
Lemma overlay_last l m n : length l = S n → l !! n = Some NUL → length m < n →
  overlay l m !! n = Some NUL.
Proof.
  intros Hl Hn Hm. unfold overlay. rewrite lookup_app_r by lia.
  rewrite lookup_cons_ne_0 by lia. rewrite lookup_drop. by replace (S _ + _) with n by lia.
Qed.

Lemma overlays_last n l ms : length l = S n → l !! n = Some NUL →
  Forall (λ m, length m < n) ms → foldl overlay l ms !! n = Some NUL.
Proof.
  revert l. induction ms as [|m ms IH]; intros l Hl Hn Hms; [done|].
  apply Forall_cons in Hms as [Hm Hms]. simpl.
  apply IH; [rewrite overlay_length by lia; done|by apply overlay_last|done].
Qed.

Lemma overlay_zeros s k m : overlay (s ++ replicate k NUL) m =
  overlay s m ++ replicate (k - (S (length m) - length s)) NUL.
Proof.
  unfold overlay. rewrite drop_app, drop_replicate, <- (assoc_L (++)). done.
Qed.

Lemma overlay_shown_length s m : length (overlay s m) = S (length m) `max` length s.
Proof. unfold overlay. rewrite length_app. simpl. rewrite length_drop. lia. Qed.

Lemma overlay_no_nul s m : NUL ∉ s → NUL ∉ m → NUL ∉ overlay s m.
Proof.
  intros Hs Hm. unfold overlay. rewrite elem_of_app, elem_of_cons.
  intros [?|[?|Hd]]; [done|done|]. by apply Hs, (subseteq_drop (S (length m)) s).
Qed.

(** The strings in the array are the shown ones as long as a NUL is left. *)
Lemma all_shown_zeros ms : ∀ s k, NUL ∉ s →
  Forall (λ m, (NUL ∉ m) ∧ S (length m) < length s + k) ms → (0 < k) →
  (λ l, default [] (until_nul l)) <$> all_shown (s ++ replicate k NUL) ms = all_shown s ms.
Proof.
  induction ms as [|m ms IH]; intros s k Hs Hms Hk; [done|].
  apply Forall_cons in Hms as [[Hm Hl] Hms]. simpl. rewrite overlay_zeros.
  assert (Hn := overlay_no_nul s m Hs Hm). pose proof (overlay_shown_length s m) as Hlen.
  f_equal.
  - destruct (k - _) as [|k'] eqn:E; [lia|]. simpl. by rewrite until_nul_app.
  - apply IH; [done| |lia]. eapply Forall_impl; [exact Hms|]. intros x [Hx Hx'].
    split; [done|]. lia.
Qed.

Lemma overlay_full l m : length l = MAXLINE → MAXLINE - 1 ≤ length m → (NUL ∉ m) →
  NUL ∉ overlay l m.
Proof.
  intros Hl Hm Hn. unfold overlay. rewrite drop_ge by (unfold MAXLINE in *; lia).
  rewrite elem_of_app, elem_of_cons. by intros [?|[?|?%not_elem_of_nil]].
Qed.

(** A shown string is as long as the longest message so far, with its newline. *)
Lemma all_shown_length ms k : k < length ms →
  length <$> all_shown [] ms !! k =
  Some (foldr Nat.max 0 ((λ m, S (length m)) <$> take (S k) ms)).
Proof.
  assert (H : ∀ s, k < length ms → length <$> all_shown s ms !! k =
    Some (foldr Nat.max (length s) ((λ m, S (length m)) <$> take (S k) ms))); [|apply H].
  revert k. induction ms as [|m ms IH]; intros k s Hk; [simpl in Hk; lia|].
  destruct k as [|k]; cbn [all_shown lookup list_lookup].
  - cbn [take fmap list_fmap foldr option_fmap option_map]. by rewrite overlay_shown_length.
  - rewrite IH by (simpl in Hk; lia). rewrite overlay_shown_length. f_equal.
    cbn [take fmap list_fmap foldr].
    generalize (S (length m)) (length s) ((λ m, S (length m)) <$> take (S k) ms).
    intros x a l. induction l as [|y l IH']; cbn [foldr]; lia.
Qed.

(** ** Rules for the operations *)

Lemma wp_oemit c (Q : unit → srv → Prop) s :
  Q tt (Srv (events s) (line s) (calls s ++ [c])) → wp (emit c) Q s.
Proof. done. Qed.

Lemma wp_ocall {X} (f : list ocall → X) mk (Q : X → srv → Prop) s :
  Q (f (calls s)) (Srv (events s) (line s) (calls s ++ [mk (f (calls s))])) → wp (call f mk) Q s.
Proof. done. Qed.

Lemma wp_get_event i e (Q : epoll_event → srv → Prop) s :
  events s !! i = Some (Some e) → Q e s → wp (get_event (Z.of_nat i)) Q s.
Proof.
  intros Hi HQ. unfold get_event. apply wp_bind, wp_gets, wp_bind, wp_lift.
  by rewrite (aget_nat _ _ _ Hi).
Qed.

Lemma wp_put_event i e (Q : unit → srv → Prop) s : i < length (events s) →
  Q tt (set_events (<[i := Some e]> (events s)) s) → wp (put_event (Z.of_nat i) e) Q s.
Proof.
  intros Hi HQ. unfold put_event. apply wp_bind, wp_gets, wp_bind, wp_lift.
  rewrite aset_nat by done. by apply wp_modify.
Qed.

Lemma wp_fill_line bs (Q : unit → srv → Prop) s : length bs ≤ length (line s) →
  Q tt (set_line (bs ++ drop (length bs) (line s)) s) → wp (fill_line bs) Q s.
Proof.
  intros Hl HQ. unfold fill_line. apply wp_bind, wp_gets. by rewrite decide_True.
Qed.

Lemma wp_put_line n b (Q : unit → srv → Prop) s : n < length (line s) →
  Q tt (set_line (<[n := b]> (line s)) s) → wp (put_line (Z.of_nat n) b) Q s.
Proof.
  intros Hi HQ. unfold put_line. apply wp_bind, wp_gets, wp_bind, wp_lift.
  rewrite aset_nat by done. by apply wp_modify.
Qed.

(** The end of a message after its bytes were read. *)
Lemma insert_end (bs l : str) b : length bs < length l →
  <[length bs := b]> (bs ++ drop (length bs) l) = bs ++ b :: drop (S (length bs)) l.
Proof.
  intros Hl. rewrite insert_app_r_alt by lia. rewrite Nat.sub_diag.
  destruct (drop (length bs) l) as [|x l'] eqn:E.
  - apply (f_equal length) in E. rewrite length_drop in E. simpl in E. lia.
  - simpl. do 2 f_equal. replace (S (length bs)) with (length bs + 1) by lia.
    by rewrite <- drop_drop, E.
Qed.

(** The string at the beginning of an array. *)
Lemma cstr_0 l : cstr l 0 = match until_nul l with Some s => Ok s | None => Fault FBounds end.
Proof. done. Qed.

(** ** The server keeps its state *)

Section Server.
Context (K : os) `{!OsOk K} (epfd listenfd : Z).

Abbreviation state conns s := (server_state epfd listenfd conns s).
Abbreviation conn_descs conns := (Descs ({[epfd; listenfd]} ∪ conns) ({[listenfd]} ∪ conns)).

(** A call that reads nothing, shows nothing and changes no descriptor but to
    [conns']. *)
Lemma state_call conns conns' s c : state conns s →
  track (conn_descs conns) c = Some (conn_descs conns') →
  (epfd ∉ conns') → (listenfd ∉ conns') → (∀ fd, fd ∈ conns' → (0 ≤ fd)%Z) →
  read_bytes c = None → said c = None →
  state conns' (Srv (events s) (line s) (calls s ++ [c])).
Proof.
  intros [Ht [He _] Hl [Hf0 Hf] Hes Hline Hs Htx] Hc He' Hl' Hf' Hr Hsaid.
  assert (Em : messages (calls s ++ [c]) = messages (calls s)).
  { unfold messages. rewrite omap_app. simpl. by rewrite Hr, app_nil_r. }
  assert (Et : texts (calls s ++ [c]) = texts (calls s)).
  { unfold texts. rewrite omap_app. simpl. by rewrite Hsaid, app_nil_r. }
  split; cbn [calls line events]; rewrite ?Em, ?Et; try done.
  by eapply descs_use.
Qed.

Lemma state_quiet conns s c : state conns s →
  track (conn_descs conns) c = Some (conn_descs conns) →
  read_bytes c = None → said c = None →
  state conns (Srv (events s) (line s) (calls s ++ [c])).
Proof. intros Hst Hc. pose proof Hst as [_ [? ?] ? [? ?]]. by apply (state_call conns). Qed.

(** The state without the calls does not depend on what the events hold. *)
Lemma state_events conns s es : state conns s → length es = MAXEVENTS →
  state conns (set_events es s).
Proof. intros [] Hes. by split. Qed.

Lemma state_line_length conns s : state conns s → length (line s) = MAXLINE.
Proof.
  intros [_ _ _ _ _ -> Hs _]. rewrite overlays_length; [apply length_replicate|].
  by rewrite length_replicate.
Qed.

(** Without a long read there is a NUL behind the message. *)
Lemma state_line_nul conns s bs : state conns s → length bs ≤ MAXLINE - 2 →
  until_nul (overlay (line s) bs) = None →
  ∃ m, m ∈ messages (calls s) ∧ MAXLINE - 2 < length m.
Proof.
  intros Hst Hbs Hnone. pose proof (state_line_length _ _ Hst) as Hlen.
  destruct Hst as [_ _ _ _ _ Hline Hs _].
  destruct (decide (Forall (λ m, length m ≤ MAXLINE - 2) (messages (calls s)))) as [Ha|Ha].
  - exfalso. assert (Hlast : overlay (line s) bs !! (MAXLINE - 1) = Some NUL).
    { apply overlay_last; [by rewrite Hlen| |unfold MAXLINE in *; lia].
      rewrite Hline. apply overlays_last; [apply length_replicate| |].
      - apply lookup_replicate_2. unfold MAXLINE. lia.
      - eapply Forall_impl; [exact Ha|]. unfold MAXLINE. intros m ?. simpl in *. lia. }
    destruct (until_nul_some (overlay (line s) bs)) as (x&E&_); [by eapply list_elem_of_lookup_2|].
    congruence.
  - apply not_Forall_Exists in Ha; [|tc_solve]. apply Exists_exists in Ha as (m & Hin & Hm).
    exists m. split; [done|]. by apply Nat.nle_gt.
Qed.

(** A message of a connection was read, its end written and the text printed; at the
    end of its stream the connection was closed. *)
Definition read_calls (fd : Z) (bs txt : str) : list ocall :=
  [OPrint (endl (bytes "EPOLLIN")); ORead fd (RData bs)] ++
  (if decide (bs = []) then [OClose fd; OPrint (endl (bytes "client close socket"))] else []) ++
  [OPrint (reading txt)].

Definition left_open (fd : Z) (bs : str) (conns : gset Z) : gset Z :=
  if decide (bs = []) then conns ∖ {[fd]} else conns.

Lemma texts_read t fd bs txt : texts (t ++ read_calls fd bs txt) = texts t ++ [reading txt].
Proof.
  unfold texts. rewrite omap_app. f_equal. unfold read_calls. by destruct (decide (bs = [])).
Qed.

Lemma messages_read t fd bs txt : messages (t ++ read_calls fd bs txt) = messages t ++ [bs].
Proof.
  unfold messages. rewrite omap_app. f_equal. unfold read_calls. by destruct (decide (bs = [])).
Qed.

Lemma tracked_read conns t fd bs txt : tracked t = Some (conn_descs conns) → fd ∈ conns →
  (epfd ∉ conns) → (listenfd ∉ conns) →
  tracked (t ++ read_calls fd bs txt) = Some (conn_descs (left_open fd bs conns)).
Proof.
  intros Ht Hfd He Hl. unfold tracked in *. rewrite foldl_app, Ht. unfold read_calls, left_open.
  assert (fd ≠ listenfd ∧ fd ≠ epfd) by set_solver.
  destruct (decide (bs = [])); simpl; repeat (rewrite needs_true by set_solver; simpl); [|done].
  do 2 f_equal; apply leibniz_equiv; set_solver.
Qed.

Lemma left_open_sub fd bs conns : left_open fd bs conns ⊆ conns.
Proof. unfold left_open. destruct (decide _); set_solver. Qed.

Lemma state_read conns s es fd bs txt : state conns s → fd ∈ conns → length es = MAXEVENTS →
  length bs < MAXLINE → until_nul (overlay (line s) bs) = Some txt →
  state (left_open fd bs conns)
    (Srv es (overlay (line s) bs) (calls s ++ read_calls fd bs txt)).
Proof.
  intros [Ht [He He'] Hl [Hf0 Hf] _ Hline Hs Htx] Hfd Hes Hbs Hu.
  pose proof (left_open_sub fd bs conns) as Hsub.
  split; cbn [calls line events]; rewrite ?messages_read, ?texts_read.
  - by apply tracked_read.
  - split; [done|set_solver].
  - set_solver.
  - split; [done|]. intros x Hx. apply Hf. set_solver.
  - done.
  - rewrite foldl_app. cbn [foldl]. by rewrite <- Hline.
  - apply Forall_app. split; [done|]. by apply Forall_singleton.
  - rewrite Htx, all_shown_app, fmap_app, <- Hline. cbn [fmap list_fmap]. by rewrite Hu.
Qed.

(** ** The branches of an event *)

(** The end of the message, and the text. *)
Definition show_line (n : Z) : M srv unit :=
  put_line n NL;;
  l ← gets line;
  s ← lift (cstr l 0);
  emit (OPrint (endl (bytes "read: " ++ s))).

Lemma show_line_negative E (Q : unit → srv → Prop) s : E → wpt FBounds E (show_line (-1)) Q s.
Proof.
  intros HE. unfold show_line, put_line. apply wpt_bind, wpt_bind, wpt_wp, wp_gets, wpt_bind.
  unfold lift, aset. rewrite bool_decide_eq_false_2 by lia. done.
Qed.

Lemma show_line_wpt E bs l0 (Q : unit → srv → Prop) s :
  line s = bs ++ drop (length bs) l0 → length l0 = MAXLINE → length bs ≤ MAXLINE →
  (MAXLINE ≤ length bs → E) → (until_nul (overlay l0 bs) = None → E) →
  (∀ txt, until_nul (overlay l0 bs) = Some txt → length bs < MAXLINE →
    Q tt (Srv (events s) (overlay l0 bs) (calls s ++ [OPrint (reading txt)]))) →
  wpt FBounds E (show_line (Z.of_nat (length bs))) Q s.
Proof.
  intros Hs Hl0 Hbs HE1 HE2 HQ. unfold show_line. apply wpt_bind.
  destruct (decide (length bs < MAXLINE)) as [Hlt|Hge].
  - apply wpt_wp, wp_put_line.
    { rewrite Hs, length_app, length_drop. lia. }
    rewrite Hs, insert_end by lia. apply wpt_bind, wpt_wp, wp_gets.
    cbn [line set_line events calls]. fold (overlay l0 bs).
    unfold lift. apply wpt_bind. rewrite cstr_0.
    destruct (until_nul (overlay l0 bs)) as [txt|] eqn:Eu; [|by split; [|apply HE2]].
    by apply HQ.
  - unfold put_line. apply wpt_bind, wpt_wp, wp_gets, wpt_bind. unfold lift, aset.
    rewrite bool_decide_eq_false_2; [split; [done|apply HE1; lia]|].
    rewrite Hs, length_app, length_drop. lia.
Qed.

(** The event [i] of the array is one of the descriptor [ev_fd e], which has data: what
    the read returns decides how it is served, and whether it ends with a fault. *)
Lemma on_readable_cases (E : Prop) s i e (Q : unit → srv → Prop) :
  events s !! i = Some (Some e) → length (line s) = MAXLINE → (0 ≤ ev_fd e)%Z →
  match read K (calls s ++ [OPrint (endl (bytes "EPOLLIN"))]) (ev_fd e) (Z.of_nat MAXLINE) with
  | RErr _ => E
  | RData bs =>
    (MAXLINE ≤ length bs → E) ∧ (until_nul (overlay (line s) bs) = None → E) ∧
    ∀ txt es, until_nul (overlay (line s) bs) = Some txt → length bs < MAXLINE →
      length es = length (events s) → (∀ j, j ≠ i → es !! j = events s !! j) →
      Q tt (Srv es (overlay (line s) bs) (calls s ++ read_calls (ev_fd e) bs txt))
  end →
  wpt FBounds E (on_readable K (Z.of_nat i)) Q s.
Proof.
  intros Hi Hlen Hpos HQ. pose proof (lookup_lt_Some _ _ _ Hi) as Hlt.
  unfold on_readable. apply wpt_bind, wpt_wp, wp_oemit, wpt_bind, wpt_wp.
  apply (wp_get_event i e); [done|]. rewrite (proj2 (Z.ltb_ge _ _)) by done.
  apply wpt_bind. unfold read_line at 1. apply wpt_bind, wpt_wp, wp_ocall. cbn [calls events line].
  set (t := calls s ++ _) in *.
  destruct (read K t (ev_fd e) (Z.of_nat MAXLINE)) as [er|bs] eqn:Er.
  - apply wpt_wp, wp_ret, wpt_bind.
    destruct (er =? ECONNRESET)%Z; [|by apply wpt_bind, wpt_wp, wp_oemit, show_line_negative].
    apply wpt_bind, wpt_bind, wpt_wp, wp_oemit, wpt_wp, wp_put_event; [done|].
    by apply wpt_wp, wp_ret, show_line_negative.
  - assert (Hbs : length bs ≤ MAXLINE) by (apply read_length in Er; lia).
    destruct HQ as (HE1 & HE2 & HQ).
    apply wpt_bind, wpt_wp, wp_fill_line; [cbn [line]; lia|]. cbn [line set_line events calls].
    apply wpt_wp, wp_ret, wpt_bind. destruct bs as [|b bs'].
    + apply wpt_bind, wpt_wp, wp_oemit, wpt_bind, wpt_wp, wp_put_event; [done|].
      apply wpt_bind, wpt_wp, wp_oemit, wpt_wp, wp_ret.
      apply (show_line_wpt _ [] (line s)); try done. intros txt Hu Hb. cbn [set_events set_line events line calls].
      unfold t. rewrite <- !(assoc_L (++)). apply (HQ txt); [done..|by rewrite length_insert|].
      intros j Hj. rewrite list_lookup_insert_ne by congruence. done.
    + apply wpt_wp, wp_ret.
      apply (show_line_wpt _ (b :: bs') (line s)); try done. intros txt Hu Hb. cbn [set_events set_line events line calls].
      unfold t. rewrite <- !(assoc_L (++)). by apply (HQ txt).
Qed.

Lemma on_readable_wpt conns s i e (Q : unit → srv → Prop) : state conns s →
  events s !! i = Some (Some e) → ev_fd e ∈ conns →
  (∀ s' bs txt, state (left_open (ev_fd e) bs conns) s' →
    calls s' = calls s ++ read_calls (ev_fd e) bs txt →
    (∀ j, j ≠ i → events s' !! j = events s !! j) → Q tt s') →
  wpt FBounds (reads_long K s (ev_fd e)) (on_readable K (Z.of_nat i)) Q s.
Proof.
  intros Hst Hi Hfd HQ. pose proof (state_line_length _ _ Hst) as Hlen.
  pose proof Hst as [_ _ _ [_ Hpos] Hes _ _ _].
  apply (on_readable_cases _ _ i e); [done|done|by apply Hpos|].
  unfold reads_long. destruct (read _ _ _ _) as [er|bs] eqn:Er; [right; by intros []|].
  assert (HE1 : MAXLINE - 2 < length bs → ¬ short (RData bs)) by (unfold short; lia).
  split; [intros ?; right; apply HE1; unfold MAXLINE in *; lia|]. split.
  - intros Hnone. destruct (decide (length bs ≤ MAXLINE - 2)); [|right; apply HE1; lia].
    left. by apply (state_line_nul conns s bs).
  - intros txt es Hu Hb Hl Hes'. apply (HQ _ bs txt); [|done..].
    apply state_read; try done. by rewrite Hl.
Qed.

Lemma served_read e bs txt : ev_fd e ≠ listenfd → Z.land (ev_events e) EPOLLIN ≠ 0%Z →
  served epfd listenfd e (read_calls (ev_fd e) bs txt).
Proof.
  intros Hfd Hin. unfold read_calls. destruct (decide (bs = [])) as [->|Hbs]; by constructor.
Qed.

(** The branch of the listening socket. *)
Lemma on_listening_wp conns s (Q : option Z → srv → Prop) : state conns s →
  (∀ conn s', state conns s' → (conn < 0)%Z →
    calls s' = calls s ++ [OAccept listenfd conn; OPerror (bytes "connfd < 0")] →
    Q (Some (-1)%Z) s') →
  (∀ conn s', state ({[conn]} ∪ conns) s' → (0 ≤ conn)%Z → events s' = events s →
    calls s' = calls s ++
      [OAccept listenfd conn; OCtlAdd epfd conn (Event conn (Z.lor EPOLLIN EPOLLET))] →
    Q None s') →
  wp (on_listening K epfd listenfd) Q s.
Proof.
  intros Hst HQ1 HQ2. pose proof Hst as [Ht [He He'] Hl [Hf0 Hf] Hes Hline Hs Htx].
  unfold on_listening. apply wp_bind, wp_ocall. set (conn := accept K (calls s) listenfd).
  assert (Hnew := accept_fresh _ _ listenfd Ht). fold conn in Hnew. simpl in Hnew.
  destruct (Z.ltb_spec conn 0) as [Hc|Hc].
  - apply wp_bind, wp_oemit, wp_ret. cbn [events line calls].
    eapply HQ1; [|exact Hc|cbn [calls]; by rewrite <- (assoc_L (++))].
    apply (state_quiet conns (Srv _ _ _)); [|done..].
    apply state_quiet; [done| |done..]. simpl. rewrite needs_true by set_solver. simpl.
    by rewrite adds_new, decide_True.
  - apply wp_bind, wp_oemit, wp_ret. cbn [events line calls].
    eapply HQ2; [|exact Hc|done|cbn [calls]; by rewrite <- (assoc_L (++))].
    split; cbn [calls line events]; [|split; [done|set_solver]|set_solver|
      split; [done|intros fd; set_solver]|done|..].
    + eapply descs_use; [eapply descs_use; [exact Ht|]|].
      * simpl. rewrite needs_true by set_solver. simpl. rewrite adds_new by done.
        by rewrite decide_False by lia.
      * simpl. rewrite needs_true by set_solver. do 2 f_equal; apply leibniz_equiv; set_solver.
    + unfold messages. rewrite !omap_app. simpl. by rewrite !app_nil_r.
    + unfold messages. rewrite !omap_app. simpl. by rewrite !app_nil_r.
    + unfold messages, texts. rewrite !omap_app. simpl. by rewrite !app_nil_r.
Qed.

(** The bind with what the first part did. *)
Lemma wpt_bind_eq {A B} E (m : M srv A) (k : A → M srv B) Q s :
  wpt FBounds E m (λ a s', m s = Ok (a, s') → wpt FBounds E (k a) Q s') s →
  wpt FBounds E (m ≫= k) Q s.
Proof.
  unfold wpt, mbind, M_bind. destruct (m s) as [[a s']|]; [|done]. by intros H; apply H.
Qed.

Lemma wpt_impl {A} (E E' : Prop) (m : M srv A) Q s :
  wpt FBounds E m Q s → (E → E') → wpt FBounds E' m Q s.
Proof. unfold wpt. destruct (m s) as [[]|]; naive_solver. Qed.

(** The loop over the events of a round. *)
Lemma on_events_wpt evs : ∀ conns s i (E : Prop) (Q : option Z → srv → Prop), state conns s →
  (events_long K epfd listenfd (length evs) i s → E) →
  (∀ j e, evs !! j = Some e → events s !! (i + j) = Some (Some e)) →
  NoDup (ev_fd <$> evs) → Forall (λ e, ev_fd e = listenfd ∨ ev_fd e ∈ conns) evs →
  (∀ x s' conns' t, state conns' s' → calls s' = calls s ++ t →
    served_all epfd listenfd evs t x → Q x s') →
  wpt FBounds E (on_events K epfd listenfd (length evs) (Z.of_nat i)) Q s.
Proof.
  induction evs as [|e evs IH]; intros conns s i E Q Hst HE Hes Hnd Hall HQ.
  { apply wpt_wp, wp_ret. apply (HQ _ _ conns []); [done|by rewrite app_nil_r|constructor]. }
  apply NoDup_cons in Hnd as [Hnot Hnd]. apply Forall_cons in Hall as [Hfd Hall].
  assert (Hi : events s !! i = Some (Some e)) by (rewrite <- (Nat.add_0_r i); by apply Hes).
  assert (Hrest : ∀ conns' s' t, state conns' s' → conns ∖ {[ev_fd e]} ⊆ conns' →
    (∀ j, j ≠ i → events s' !! j = events s !! j) → calls s' = calls s ++ t →
    served epfd listenfd e t → on_event K epfd listenfd (Z.of_nat i) s = Ok (None, s') →
    wpt FBounds E (on_events K epfd listenfd (length evs) (Z.of_nat i + 1)) Q s').
  { intros conns' s' t Hst' Hsub Hes' Hc Hserved Hev.
    replace (Z.of_nat i + 1)%Z with (Z.of_nat (S i)) by lia.
    apply (IH conns'); [done| | |done| |].
    - intros (j & s2 & Hj & Eo & Hlong). apply HE. exists (S j), s2.
      split; [simpl; lia|]. split; [|by rewrite <- plus_n_Sm].
      cbn [on_events]. rewrite (bind_ok _ _ _ _ _ Hev).
      by replace (Z.of_nat i + 1)%Z with (Z.of_nat (S i)) by lia.
    - intros j e' Hj. rewrite Hes' by lia. rewrite Nat.add_succ_comm. by apply Hes.
    - rewrite Forall_forall in Hall |- *. intros e' He'. destruct (Hall e' He') as [?|?]; [by left|].
      right. apply Hsub. apply elem_of_difference. split; [done|].
      rewrite elem_of_singleton. intros Efd. apply Hnot. rewrite <- Efd. by apply list_elem_of_fmap_2.
    - intros x s2 conns2 t' Hst2 Hc2 Hall2. apply (HQ x s2 conns2 (t ++ t')); [done| |by constructor].
      by rewrite Hc2, Hc, <- (assoc_L (++)). }
  simpl. apply wpt_bind_eq. unfold on_event at 1.
  apply wpt_bind, wpt_wp, (wp_get_event i e); [done|].
  destruct (Z.eqb_spec (ev_fd e) listenfd) as [El|El].
  - apply wpt_wp, (on_listening_wp conns); [done|..].
    + intros conn s' Hst' Hc Hcalls _. apply wpt_wp, wp_ret.
      eapply HQ; [done..|]. by constructor.
    + intros conn s' Hst' Hc Hes' Hcalls Hev. eapply Hrest; [done|set_solver| |done| |done].
      * intros j _. by rewrite Hes'.
      * by constructor.
  - destruct Hfd as [?|Hfd]; [done|].
    destruct (Z.eqb_spec (Z.land (ev_events e) EPOLLIN) 0) as [E0|E0]; cbn [negb].
    + apply wpt_wp, wp_ret. intros Hev.
      apply (Hrest conns s []); [done|set_solver|done| |by constructor|done].
      by rewrite app_nil_r.
    + apply wpt_bind. eapply wpt_impl; [apply (on_readable_wpt conns s i e); [done..|]|].
      * intros s' bs txt Hst' Hc Hes'. apply wpt_wp, wp_ret. intros Hev.
        eapply Hrest; [done| |done|done|by apply served_read|done].
        unfold left_open. destruct (decide _); set_solver.
      * intros Hlong. apply HE. exists 0, s. split; [simpl; lia|]. split; [done|].
        rewrite Nat.add_0_r. by exists e.
Qed.

Lemma round_wake s : round K epfd listenfd s =
  (nfds ← wake_up K epfd; on_events K epfd listenfd (Z.to_nat nfds) 0) s.
Proof.
  unfold round, wake_up, mbind, M_bind. destruct (wait K epfd s) as [[n s']|]; [|done].
  by destruct (emit _ s') as [[]|].
Qed.

(** The wait, and what it leaves in the array. *)
Lemma wake_up_wp conns s (Q : Z → srv → Prop) : state conns s →
  (∀ s', state conns s' → calls s' = calls s ++
      [OWait epfd (Z.of_nat MAXEVENTS) None; OPrint (endl (bytes "wake up: -1"))] →
    Q (-1)%Z s') →
  (∀ evs s', state conns s' → calls s' = calls s ++
      [OWait epfd (Z.of_nat MAXEVENTS) (Some evs);
       OPrint (endl (bytes "wake up: " ++ fmt_d (Z.of_nat (length evs))))] →
    (∀ j e, evs !! j = Some e → events s' !! j = Some (Some e)) →
    NoDup (ev_fd <$> evs) → Forall (λ e, ev_fd e = listenfd ∨ ev_fd e ∈ conns) evs →
    Q (Z.of_nat (length evs)) s') →
  wp (wake_up K epfd) Q s.
Proof.
  intros Hst HQ1 HQ2. pose proof Hst as [Ht _ _ _ Hes _ _ _].
  unfold wake_up, wait. apply wp_bind, wp_bind, wp_ocall. cbn [events line calls].
  destruct (epoll_wait K (calls s) epfd (Z.of_nat MAXEVENTS)) as [evs|] eqn:Ew.
  - destruct (wait_ok _ _ _ _ _ Ht Ew) as (Hlen & Hnd & Hall). apply Nat2Z.inj_le in Hlen.
    set (s1 := Srv (events s) (line s) _).
    assert (Hst1 : state conns s1).
    { apply state_quiet; [done| |done..]. apply needs_true. set_solver. }
    apply wp_bind. unfold fill_events. apply wp_bind, wp_gets. cbn [events].
    rewrite decide_True by (subst s1; cbn [events]; lia). apply wp_modify, wp_ret.
    apply wp_bind, wp_oemit, wp_ret. apply HQ2; [| | |done|].
    + apply (state_quiet conns (set_events _ s1)); [|done..]. apply state_events; [done|].
      rewrite length_app, length_fmap, length_drop. subst s1. cbn [events]. lia.
    + cbn [calls set_events]. subst s1. cbn [calls]. by rewrite <- (assoc_L (++)).
    + intros j e Hj. cbn [events set_events].
      rewrite lookup_app_l by (rewrite length_fmap; by eapply lookup_lt_Some).
      by rewrite list_lookup_fmap, Hj.
    + eapply Forall_impl; [exact Hall|]. intros e He. set_solver.
  - apply wp_ret, wp_bind, wp_oemit, wp_ret. cbn [events line calls].
    apply HQ1; [|cbn [calls]; by rewrite <- (assoc_L (++))].
    apply (state_quiet conns (Srv _ _ _)); [|done..].
    apply state_quiet; [done| |done..]. apply needs_true. set_solver.
Qed.

Lemma round_wpt conns s (E : Prop) (Q : option Z → srv → Prop) : state conns s →
  (round_long K epfd listenfd s → E) →
  (∀ x s' conns' t, state conns' s' → calls s' = calls s ++ t →
    round_does epfd listenfd t x → Q x s') →
  wpt FBounds E (round K epfd listenfd) Q s.
Proof.
  intros Hst HE HQ. unfold wpt. rewrite round_wake.
  change (wpt FBounds E (nfds ← wake_up K epfd; on_events K epfd listenfd (Z.to_nat nfds) 0) Q s).
  apply wpt_bind_eq, wpt_wp, (wake_up_wp conns); [done|..].
  - intros s' Hst' Hc _. apply wpt_wp, wp_ret. eapply HQ; [done|done|apply round_failed].
  - intros evs s' Hst' Hc Hes Hnd Hall Hw. rewrite Nat2Z.id.
    apply (on_events_wpt evs conns s' 0); try done.
    + intros Hlong. apply HE. exists (Z.of_nat (length evs)), s'. by rewrite Nat2Z.id.
    + intros x s2 conns' t Hst2 Hc2 Hserved. eapply HQ; [done| |by apply round_events].
      rewrite Hc2, Hc. by rewrite <- (assoc_L (++)).
Qed.

Lemma rounds_wpt n : ∀ conns s (E : Prop) (Q : option Z → srv → Prop), state conns s →
  (rounds_long K epfd listenfd n s → E) →
  (∀ x s' conns' t, state conns' s' → calls s' = calls s ++ t →
    rounds_do epfd listenfd n t x → Q x s') →
  wpt FBounds E (rounds K n epfd listenfd) Q s.
Proof.
  induction n as [|n IH]; intros conns s E Q Hst HE HQ.
  { apply wpt_wp, wp_ret. apply (HQ _ _ conns []); [done|by rewrite app_nil_r|constructor]. }
  simpl. apply wpt_bind_eq, (round_wpt conns); [done| |].
  { intros Hlong. apply HE. exists 0, s. split; [lia|]. by split. }
  intros [c|] s' conns' t Hst' Hc Hr Heq.
  - apply wpt_wp, wp_ret. eapply HQ; [done..|]. by constructor.
  - apply (IH conns'); [done| |].
    + intros (k & s2 & Hk & Ek & Hlong). apply HE. exists (S k), s2. split; [lia|].
      split; [|done]. cbn [rounds]. by rewrite (bind_ok _ _ _ _ _ Heq).
    + intros x s2 conns2 t' Hst2 Hc2 Hr2.
      apply (HQ x s2 conns2 (t ++ t')); [done| |by constructor].
      by rewrite Hc2, Hc, <- (assoc_L (++)).
Qed.

End Server.

(** ** The setup and the whole run *)

Section Theorems.
Context (K : os) `{!OsOk K}.

Lemma setup_wp (Q : Z + Z * Z → srv → Prop) : (0 ≤ epoll_create K [])%Z →
  (∀ s', is_Some (tracked (calls s')) → setup_exits (calls s') → Q (inl (-1)%Z) s') →
  (∀ epfd listenfd b l s', server_state epfd listenfd ∅ s' →
    (b ≠ -1)%Z → (l ≠ -1)%Z → calls s' = setup_calls epfd listenfd b l →
    Q (inr (epfd, listenfd)) s') →
  wp (setup K) Q server_start.
Proof.
  intros He HQ1 HQ2. unfold setup. apply wp_bind, wp_ocall. cbn [events line calls server_start].
  set (epfd := epoll_create K []) in *. apply wp_bind, wp_ocall. cbn [events line calls].
  set (lfd := socket K _).
  assert (Ht1 : tracked ([] ++ [OEpollCreate epfd]) = Some (Descs {[epfd]} ∅)).
  { unfold tracked. simpl. rewrite adds_new by set_solver. rewrite decide_False by lia.
    simpl. do 2 f_equal. set_solver. }
  assert (Hnew := socket_fresh _ _ Ht1). fold lfd in Hnew.
  assert (Hres := socket_result ([] ++ [OEpollCreate epfd])). fold lfd in Hres.
  assert (Ht2 := descs_use _ _ (OSocket lfd) _ Ht1 (adds_new _ _ Hnew)).
  destruct (Z.eqb_spec lfd (-1)) as [El|El].
  { apply wp_bind, wp_oemit, wp_ret, HQ1; cbn [calls].
    - rewrite descs_app, Ht2. by eexists.
    - rewrite El. apply exit_socket. }
  rewrite decide_False in Ht2 by lia. cbn [opened watched] in Ht2, Hnew.
  apply wp_bind, wp_oemit, wp_bind, wp_ocall. cbn [events line calls].
  set (c := OCtlAdd epfd lfd _). set (b := bind K _ _ _ _).
  assert (Ht3 := descs_use _ _ c (Descs ({[lfd]} ∪ {[epfd]}) {[lfd]}) Ht2).
  ospecialize (Ht3 _). { simpl. rewrite needs_true by set_solver. do 2 f_equal. set_solver. }
  set (c2 := OBind lfd _ _ b).
  set (t4 := ((([] ++ [OEpollCreate epfd]) ++ [OSocket lfd]) ++ [c])) in *.
  assert (Ht4 : tracked (t4 ++ [c2]) = Some (Descs ({[lfd]} ∪ {[epfd]}) {[lfd]})).
  { eapply descs_use; [exact Ht3|]. apply needs_true. set_solver. }
  destruct (Z.eqb_spec b (-1)) as [Eb|Eb].
  { apply wp_bind, wp_oemit, wp_ret, HQ1; cbn [calls].
    - rewrite descs_app, Ht4. by eexists.
    - subst t4 c2 c. rewrite Eb. apply (exit_bind epfd lfd). }
  apply wp_bind, wp_ocall. cbn [events line calls]. set (l := listen K _ _ _).
  set (c3 := OListen lfd LISTENQ l).
  set (t5 := t4 ++ [c2]) in *.
  assert (Ht5 : tracked (t5 ++ [c3]) = Some (Descs ({[lfd]} ∪ {[epfd]}) {[lfd]})).
  { eapply descs_use; [exact Ht4|]. apply needs_true. set_solver. }
  destruct (Z.eqb_spec l (-1)) as [E|E].
  { apply wp_bind, wp_oemit, wp_ret, HQ1; cbn [calls].
    - rewrite descs_app, Ht5. by eexists.
    - subst t4 t5 c3 c2 c. rewrite E. apply (exit_listen epfd lfd b). }
  apply wp_ret, (HQ2 _ _ b l); [|done..].
  split; cbn [calls line events server_start]; [|split; [set_solver|set_solver]|set_solver|
    split; [lia|set_solver]|done..].
  rewrite Ht5. do 2 f_equal; set_solver.
Qed.

(** A run of the server. *)
Lemma main_wpt n (Q : option Z → srv → Prop) : (0 ≤ epoll_create K [])%Z →
  (∀ s, is_Some (tracked (calls s)) → setup_exits (calls s) → Q (Some (-1)%Z) s) →
  (∀ epfd listenfd b l conns t x s, server_state epfd listenfd conns s →
    (b ≠ -1)%Z → (l ≠ -1)%Z → calls s = setup_calls epfd listenfd b l ++ t →
    rounds_do epfd listenfd n t x → Q x s) →
  wpt FBounds (long_read K n) (server_main K n) Q server_start.
Proof.
  intros He HQ1 HQ2. unfold server_main. apply wpt_bind_eq, wpt_wp, setup_wp; [done| |].
  - intros s Ht Hs _. apply wpt_wp, wp_ret. by apply HQ1.
  - intros epfd lfd b l s Hst Hb Hl Hc Heq. apply (rounds_wpt K epfd lfd n ∅); [done| |].
    { intros Hlong. by exists epfd, lfd, s. }
    intros x s' conns t Hst' Hc' Hr. eapply HQ2; [exact Hst'|exact Hb|exact Hl| |exact Hr]. by rewrite Hc', Hc.
Qed.

(** C12: Descriptors.  Once [epoll_create] has given a descriptor (the code does not
    look), a run of the server of any number of rounds uses a descriptor only while it
    is open, registers each accepted connection once, with its own descriptor as the
    data, and while the server is running every open descriptor but that of epoll is
    registered, however the operating system answers.  It ends with a fault only by an
    access outside of the array line, and only if one of the reads that it comes to
    fails or returns more than 248 bytes. *)
Theorem server_descriptors n : (0 ≤ epoll_create K [])%Z →
  wpt FBounds (long_read K n) (server_main K n) (λ x s, ∃ H, tracked (calls s) = Some H ∧
    (x = None → ∃ epfd, epfd ∈ opened H ∧ watched H = opened H ∖ {[epfd]})) server_start.
Proof.
  intros He. apply main_wpt; [done| |].
  - intros s [H Ht] _. exists H. split; [done|]. by intros [=].
  - intros epfd lfd b l conns t x s [Ht [Hne Hn] _ _ _ _ _ _] _ _ _ _. eexists.
    split; [exact Ht|]. intros _. exists epfd. cbn [opened watched].
    split; [set_solver|]. apply leibniz_equiv. set_solver.
Qed.

(** C11: The calls of a run.  The setup makes its calls in order and ends with -1 at the
    first of socket, bind and listen that fails; then each round waits, prints the
    number of events and serves them in their order, each by one accept, which
    registers the connection, or one read of up to 250 bytes, which closes the
    connection at its end; a failing accept ends the run with -1.  So one connection is
    accepted and one piece is read per event, though the events are edge-triggered. *)
Theorem server_rounds n : (0 ≤ epoll_create K [])%Z →
  wpt FBounds (long_read K n) (server_main K n) (λ x s,
    (x = Some (-1)%Z ∧ setup_exits (calls s)) ∨
    ∃ epfd listenfd b l t, (b ≠ -1)%Z ∧ (l ≠ -1)%Z ∧
      calls s = setup_calls epfd listenfd b l ++ t ∧ rounds_do epfd listenfd n t x)
    server_start.
Proof.
  intros He. apply main_wpt; [done|by left|].
  intros epfd lfd b l conns t x s _ Hb Hl Hc Hr. right. by exists epfd, lfd, b, l, t.
Qed.

(** Reads that leave the array.  When the server reads the data of a connection, a
    failed read writes line[-1], 250 bytes make it write line[250], and with 249 bytes
    without a NUL, or with earlier data that leaves none, it prints beyond the array. *)
Lemma server_read_faults epfd listenfd conns s i e : server_state epfd listenfd conns s →
  events s !! i = Some (Some e) → ev_fd e ∈ conns →
  match read K (calls s ++ [OPrint (endl (bytes "EPOLLIN"))]) (ev_fd e) (Z.of_nat MAXLINE) with
  | RErr _ => True
  | RData bs => MAXLINE ≤ length bs ∨ (MAXLINE - 1 ≤ length bs ∧ (NUL ∉ bs)) ∨
      until_nul (overlay (line s) bs) = None
  end →
  on_readable K (Z.of_nat i) s = Fault FBounds.
Proof.
  intros Hst Hi Hfd Hr. pose proof (state_line_length _ _ _ _ Hst) as Hlen.
  pose proof Hst as [_ _ _ [_ Hpos] _ _ _ _].
  assert (H : wpt FBounds True (on_readable K (Z.of_nat i)) (λ _ _, False) s).
  { apply (on_readable_cases K _ _ i e); [done|done|by apply Hpos|].
    destruct (read _ _ _ _) as [er|bs]; [done|]. do 2 (split; [done|]).
    intros txt es Hu Hb. destruct Hr as [?|[[Hl Hn]|?]]; [lia| |congruence].
    rewrite until_nul_none in Hu; [done|]. by apply (overlay_full _ _ Hlen). }
  unfold wpt in H. destruct (on_readable K (Z.of_nat i) s) as [[]|f]; [done|].
  by destruct H as [-> _].
Qed.

(** C21: The texts.  In every run whose messages have no NUL and at most 248 bytes the
    text printed for a message is the message, a newline and what the texts before
    still show behind it: the line is never cleared, so a text is as long as the
    longest message so far. *)
Theorem server_texts n : (0 ≤ epoll_create K [])%Z →
  wpt FBounds (long_read K n) (server_main K n) (λ x s,
    Forall (λ m, (NUL ∉ m) ∧ length m ≤ MAXLINE - 2) (messages (calls s)) →
    texts (calls s) = reading <$> all_shown [] (messages (calls s)) ∧
    ∀ k, k < length (messages (calls s)) →
      length <$> all_shown [] (messages (calls s)) !! k =
      Some (foldr Nat.max 0 ((λ m, S (length m)) <$> take (S k) (messages (calls s)))))
    server_start.
Proof.
  intros He. apply main_wpt; [done| |].
  - intros s _ Hs _. destruct Hs; (split; [done|]); simpl; lia.
  - intros epfd lfd b l conns t x s Hst _ _ _ _ Hms. split; [|intros k Hk; by apply all_shown_length].
    rewrite (st_texts _ _ _ _ Hst).
    rewrite (list_fmap_compose (λ l, default [] (until_nul l)) reading).
    f_equal. apply (all_shown_zeros _ [] MAXLINE); [set_solver| |unfold MAXLINE; lia].
    eapply Forall_impl; [exact Hms|]. unfold MAXLINE. intros m [? ?]. split; [done|]. simpl. lia.
Qed.

(** ** The clients *)

Definition is_read (c : ocall) : bool := match c with ORead _ _ => true | _ => false end.
Definition reads (t : list ocall) : nat := length (filter (λ c, is_read c = true) t).

(** The reads return these pieces in their order, and then [last]. *)
Definition stream_is (chunks : list str) (last : rd) : Prop :=
  ∀ t fd n, read K t fd n = default last (RData <$> chunks !! reads t).

Definition printed (t : list ocall) : str :=
  concat (omap (λ c, match c with OPrint s => Some s | _ => None end) t).

(** What is printed of a piece: its bytes before the first NUL. *)
Definition before_nul (bs : str) : str := default bs (until_nul bs).

Lemma reads_app t t' : reads (t ++ t') = reads t + reads t'.
Proof. unfold reads. by rewrite filter_app, length_app. Qed.

Lemma printed_app t t' : printed (t ++ t') = printed t ++ printed t'.
Proof. unfold printed. by rewrite omap_app, concat_app. Qed.

Lemma printed_one s : printed [OPrint s] = s.
Proof. apply app_nil_r. Qed.

Lemma until_nul_end bs l : until_nul (bs ++ NUL :: l) = Some (before_nul bs).
Proof.
  unfold before_nul. induction bs as [|b bs IH]; [done|]. simpl.
  destruct (decide (b = NUL)); [done|]. rewrite IH. simpl. by destruct (until_nul bs).
Qed.

Lemma before_nul_id bs : NUL ∉ bs → before_nul bs = bs.
Proof. intros Hn. unfold before_nul. by rewrite until_nul_none. Qed.

Definition is_end (r : rd) : Prop := match r with RErr _ => True | RData bs => bs = [] end.

(** The result of the read that ends the loop of test_socket1.cpp. *)
Definition end_result (r : rd) : Z := match r with RErr _ => -1 | RData _ => 0 end.

Lemma recv_loop_wp chunks last : stream_is chunks last → is_end last →
  Forall (λ bs, bs ≠ [] ∧ length bs ≤ RECVLINE) chunks → (∀ t s, fputs_eof K t s = false) →
  ∀ fuel fd s (Q : Z → srv → Prop), length (line s) = S RECVLINE →
  reads (calls s) ≤ length chunks < reads (calls s) + fuel →
  (∀ s' t, calls s' = calls s ++ t →
    printed t = concat (before_nul <$> drop (reads (calls s)) chunks) →
    Q (end_result last) s') →
  wp (recv_loop K fuel fd) Q s.
Proof.
  intros Hstr Hlast Hch Hput. induction fuel as [|fuel IH]; intros fd s Q Hlen Hfuel HQ; [lia|].
  simpl. apply wp_bind. unfold read_line. apply wp_bind, wp_ocall. cbn [events line calls].
  rewrite !Hstr. destruct (chunks !! reads (calls s)) as [bs|] eqn:Ec; cbn [fmap option_fmap option_map default].
  - apply Forall_lookup_1 with (1 := Hch) in Ec as Hbs. destruct Hbs as [Hne Hbs].
    apply wp_bind, wp_fill_line; [cbn [line]; lia|]. cbn [events line calls set_line].
    apply wp_ret. destruct bs as [|b bs']; [done|].
    set (bs := b :: bs') in *.
    apply wp_bind, wp_put_line.
    { cbn [line set_line]. rewrite length_app, length_drop. unfold RECVLINE in *. lia. }
    cbn [events line calls set_line]. rewrite insert_end by (unfold RECVLINE in *; lia).
    apply wp_bind, wp_gets, wp_bind, wp_lift. cbn [events line calls set_line].
    rewrite cstr_0, until_nul_end. cbn [safely].
    apply wp_bind, wp_oemit, wp_bind, wp_gets. cbn [events line calls]. rewrite Hput.
    apply wp_bind, wp_ret.
    assert (Hreads : reads ((calls s ++ [ORead fd (RData bs)]) ++ [OPrint (before_nul bs)]) =
      S (reads (calls s))).
    { rewrite !reads_app. change (reads [ORead fd (RData bs)]) with 1.
      change (reads [OPrint _]) with 0. lia. }
    refine (IH fd (Srv (events s) (bs ++ NUL :: drop (S (length bs)) (line s))
      ((calls s ++ [ORead fd (RData bs)]) ++ [OPrint (before_nul bs)])) Q _ _ _);
      cbn [line calls]; rewrite ?Hreads.
    + rewrite length_app. cbn [length]. rewrite length_drop, Hlen. unfold RECVLINE in *. lia.
    + apply lookup_lt_Some in Ec. lia.
    + intros s' t Hc Hp. cbn [calls] in Hc. eapply HQ; [rewrite Hc, <- !(assoc_L (++)); reflexivity|].
      rewrite !printed_app, Hp, (drop_S _ _ _ Ec), printed_one. done.
  - assert (E : drop (reads (calls s)) chunks = []).
    { apply drop_ge. by apply lookup_ge_None. }
    destruct last as [er|bs]; cbn in Hlast; [|subst bs; apply wp_bind, wp_fill_line; [simpl; lia|]].
    + apply wp_ret, wp_ret. eapply HQ; [done|]. by rewrite E.
    + apply wp_ret, wp_ret. eapply (HQ _ [_]); [done|]. by rewrite E.
Qed.

(** C22: test_socket1.cpp.  When the connection is made, the program prints the bytes
    that it receives, however the stream is cut into pieces of at most 1024 bytes, up
    to the first NUL of each piece, to the end of the stream or its first error; it
    needs one more step of its loop than there are pieces, and ends with 0. *)
Theorem recv_prints prog ip port chunks last l fuel :
  stream_is chunks last → is_end last →
  Forall (λ bs, bs ≠ [] ∧ length bs ≤ RECVLINE) chunks → (∀ t s, fputs_eof K t s = false) →
  (socket K [] ≠ -1)%Z → (0 ≤ inet_pton K ip)%Z →
  (∀ t fd a p, 0 ≤ connect K t fd a p)%Z →
  length l = S RECVLINE → length chunks < fuel →
  wp (test_socket1_main K fuel [prog; ip; port]) (λ r s', r = 0%Z ∧
    printed (calls s') = concat (before_nul <$> chunks) ++
      (if (end_result last <? 0)%Z then endl (bytes "read error") else []) ∧
    (NUL ∉ concat chunks → concat (before_nul <$> chunks) = concat chunks)) (recv_start l).
Proof.
  intros Hstr Hlast Hch Hput Hs Hip Hconn Hl Hfuel. unfold test_socket1_main.
  apply wp_bind, wp_ocall. cbn [events line calls recv_start].
  rewrite (proj2 (Z.eqb_neq _ _)) by done. rewrite (proj2 (Z.ltb_ge _ _)) by done.
  apply wp_bind, wp_ocall. cbn [events line calls].
  rewrite (proj2 (Z.ltb_ge _ _)) by apply Hconn. apply wp_bind.
  apply (recv_loop_wp chunks last); try done; [split; [apply Nat.le_0_l|exact Hfuel]|].
  intros s' t Hc Hp. cbn [calls] in Hc.
  assert (Hid : NUL ∉ concat chunks → concat (before_nul <$> chunks) = concat chunks).
  { intros Hn. f_equal. rewrite <- (list_fmap_id chunks) at 2. apply list_fmap_ext.
    intros i bs Hi. apply before_nul_id. intros Hin. apply Hn, list_elem_of_In, in_concat.
    exists bs. split; apply list_elem_of_In; [by eapply list_elem_of_lookup_2|done]. }
  assert (Hpr : printed (calls s') = concat (before_nul <$> chunks)).
  { rewrite Hc, printed_app. exact Hp. }
  destruct (end_result last <? 0)%Z eqn:E; cbn [when].
  - apply wp_bind, wp_oemit, wp_ret. cbn [calls]. split; [done|]. split; [|done].
    rewrite printed_app, Hpr. f_equal.
  - apply wp_bind, wp_ret, wp_ret. split; [done|]. split; [|done]. by rewrite app_nil_r.
Qed.

(** client.cpp prints what it receives up to the first NUL; 120 bytes without a NUL
    leave none in the array. *)
Lemma client_prints bs : read K [OSocket (socket K []); OConnect (socket K [])
    (Some (bytes "127.0.0.1")) 9995 (connect K [OSocket (socket K [])] (socket K [])
      (Some (bytes "127.0.0.1")) 9995)] (socket K []) 120 = RData bs →
  match client_main K client_start with
  | Ok (r, s) => r = 0%Z ∧ printed (calls s) = endl (before_nul bs) ∧
      (length bs < 120 ∨ NUL ∈ bs)
  | Fault f => f = FBounds ∧ length bs = 120 ∧ NUL ∉ bs
  end.
Proof.
  intros Hr. pose proof (read_length _ _ _ _ Hr) as Hlen.
  unfold client_main, read_line, fill_line, call, emit, mbind, M_bind, gets, modify, mret, M_ret.
  cbn [events line calls client_start app]. rewrite Hr. cbn [events line calls].
  rewrite decide_True by (rewrite length_replicate; lia). cbn [events line calls set_line].
  rewrite drop_replicate. unfold lift. rewrite cstr_0.
  destruct (decide (length bs < 120)) as [Hlt|Hge].
  - replace (120 - length bs) with (S (119 - length bs)) by lia. simpl replicate.
    rewrite until_nul_end. cbn [calls]. split; [done|]. split; [|by left].
    unfold printed. simpl. by rewrite app_nil_r.
  - replace (120 - length bs) with 0 by lia. simpl replicate. rewrite app_nil_r.
    destruct (decide (NUL ∈ bs)) as [Hin|Hnot].
    + destruct (until_nul_some _ Hin) as (x&E&_). rewrite E. cbn [calls]. split; [done|].
      split; [|by right]. unfold printed, before_nul. rewrite E. simpl. by rewrite app_nil_r.
    + rewrite until_nul_none by done. split; [done|]. split; [lia|done].
Qed.

End Theorems.

(** Without an epoll descriptor, on which every wait fails, the server spins: it prints
    that it woke up and serves nothing. *)
Lemma server_no_epoll K n listenfd epfd t : (∀ t max, epoll_wait K t epfd max = None) →
  rounds K n epfd listenfd (Srv (events server_start) (line server_start) t) =
    Ok (None, Srv (events server_start) (line server_start)
      (t ++ concat (replicate n [OWait epfd (Z.of_nat MAXEVENTS) None;
        OPrint (endl (bytes "wake up: -1"))]))).
Proof.
  intros Hw. revert t. induction n as [|n IH]; intros t.
  - by rewrite app_nil_r.
  - cbn [rounds]. unfold round, wait, call, emit, mbind, M_bind, gets, modify, mret, M_ret in *.
    cbn [calls events line]. rewrite !Hw. cbn [calls events line on_events Z.to_nat].
    unfold mret, M_ret. cbv beta iota. refine (eq_trans (IH _) _). by rewrite <- !(assoc_L (++)).
Qed.

(** ** A concrete operating system *)

(** Descriptors are new, everything registered has data, and every read of enough
    bytes answers [r]. *)
Definition unused (s : gset Z) : Z := fresh ({[0%Z; 1%Z; 2%Z]} ∪ s).
Definition unused_in (t : list ocall) : Z :=
  match tracked t with Some H => Z.abs (unused (opened H ∪ set_map Z.opp (opened H))) | None => -1 end.

Definition demo_os (r : rd) : os := {|
  epoll_create _ := 3%Z;
  socket := unused_in;
  bind _ _ _ _ := 0%Z;
  listen _ _ _ := 0%Z;
  connect _ _ _ _ := 0%Z;
  epoll_wait t _ max :=
    if decide (max < 0)%Z then None
    else (λ H, (λ fd, Event fd EPOLLIN) <$> take (Z.to_nat max) (elements (watched H))) <$> tracked t;
  accept t _ := unused_in t;
  read t _ n :=
    match r with
    | RErr _ => r
    | RData bs => if decide (Z.of_nat (length bs) ≤ n)%Z then r else RErr 0
    end;
  errno _ := 0%Z;
  inet_pton _ := 1%Z;
  fputs_eof _ _ := false;
  fcntl_getfl _ _ := 2%Z;
  fcntl_setfl _ _ _ := 0%Z
|}.

Lemma unused_in_fresh t H : tracked t = Some H → unused_in t ∉ opened H.
Proof.
  intros E. unfold unused_in. rewrite E. set (X := _ ∪ _).
  assert (Hf : unused X ∉ X).
  { unfold unused. pose proof (is_fresh ({[0%Z; 1%Z; 2%Z]} ∪ X)) as Hx. set_solver. }
  intros Hin. apply Hf. subst X. apply elem_of_union.
  destruct (Z.abs_spec (unused (opened H ∪ set_map Z.opp (opened H)))) as [[_ Ea]|[_ Ea]];
    rewrite Ea in Hin; [by left|right].
  apply elem_of_map. eexists. split; [|exact Hin]. lia.
Qed.

#[global] Instance demo_os_ok r : OsOk (demo_os r).
Proof.
  split; cbn [socket accept epoll_wait read demo_os].
  - intros t. unfold unused_in. destruct (tracked t); lia.
  - apply unused_in_fresh.
  - intros t H _. apply unused_in_fresh.
  - intros t H _ max evs -> E. destruct (decide (max < 0)%Z); [done|]. injection E as <-.
    rewrite length_fmap, length_take. split; [lia|]. split.
    + rewrite <- list_fmap_compose. unfold compose. cbn [ev_fd]. rewrite list_fmap_id.
      pose proof (NoDup_elements (watched H)) as Hnd.
      rewrite <- (take_drop (Z.to_nat max) (elements _)) in Hnd. by apply NoDup_app in Hnd as [? _].
    + apply Forall_fmap, Forall_take, Forall_forall. intros fd. cbn. by rewrite elem_of_elements.
  - intros t _ n bs E. destruct r as [|bs']; [done|]. destruct (decide _); [|done].
    by injection E as <-.
Qed.

(** [setnonblocking] adds the flag to those the descriptor has, or exits with the text of
    the call that failed. *)
Lemma setnonblocking_correct (K : os) sock s :
  let get := fcntl_getfl K (calls s) sock in
  let set := fcntl_setfl K (calls s ++ [OGetFl sock get]) sock (Z.lor get O_NONBLOCK) in
  wp (setnonblocking K sock)
    (λ ok s', events s' = events s ∧ line s' = line s ∧
       (ok = true ↔ (0 ≤ get ∧ 0 ≤ set)%Z) ∧
       calls s' = calls s ++ OGetFl sock get ::
         (if (get <? 0)%Z then [OPerror (bytes "fcntl(sock,GETFL)")]
          else OSetFl sock (Z.lor get O_NONBLOCK) set ::
            if (set <? 0)%Z then [OPerror (bytes "fcntl(sock,SETFL,opts)")] else [])) s.
Proof.
  intros get set. unfold wp, setnonblocking, call, emit, gets, modify, mbind, M_bind, mret, M_ret.
  cbn [calls events line]. fold get. destruct (get <? 0)%Z eqn:E1; simpl.
  - rewrite <- (assoc_L (++)). apply Z.ltb_lt in E1.
    split; [done|]. split; [done|]. split; [split; [done|lia]|done].
  - fold set. destruct (set <? 0)%Z eqn:E2; simpl; rewrite <- !(assoc_L (++));
      apply Z.ltb_ge in E1; (split; [done|]; split; [done|]; split; [|done]).
    + apply Z.ltb_lt in E2. split; [done|lia].
    + by apply Z.ltb_ge in E2.
Qed.

(** ** Witnesses *)

Definition demo_hi : os := demo_os (RData (bytes "hi")).

(** Every read fails. *)
Definition demo_failing : os := demo_os (RErr ECONNRESET).

(** A run that is served, and one that ends at its first read. *)
Lemma server_descriptors_witness :
  wpt FBounds (long_read demo_hi 3) (server_main demo_hi 3) (λ x s, ∃ H,
    tracked (calls s) = Some H ∧
    (x = None → ∃ epfd, epfd ∈ opened H ∧ watched H = opened H ∖ {[epfd]})) server_start ∧
  match server_main demo_hi 3 server_start with Ok (x, _) => x = None | Fault _ => False end ∧
  match server_main demo_failing 3 server_start with Ok _ => False | Fault f => f = FBounds end.
Proof.
  split; [|split; vm_compute; reflexivity]. apply (server_descriptors demo_hi). cbn. lia.
Defined.

Lemma server_rounds_witness :
  wpt FBounds (long_read demo_hi 3) (server_main demo_hi 3) (λ x s,
    (x = Some (-1)%Z ∧ setup_exits (calls s)) ∨
    ∃ epfd listenfd b l t, (b ≠ -1)%Z ∧ (l ≠ -1)%Z ∧
      calls s = setup_calls epfd listenfd b l ++ t ∧ rounds_do epfd listenfd 3 t x)
    server_start.
Proof. apply (server_rounds demo_hi). cbn. lia. Defined.

Lemma server_texts_witness :
  wpt FBounds (long_read demo_hi 3) (server_main demo_hi 3) (λ x s,
    Forall (λ m, (NUL ∉ m) ∧ length m ≤ MAXLINE - 2) (messages (calls s)) →
    texts (calls s) = reading <$> all_shown [] (messages (calls s)) ∧
    ∀ k, k < length (messages (calls s)) →
      length <$> all_shown [] (messages (calls s)) !! k =
      Some (foldr Nat.max 0 ((λ m, S (length m)) <$> take (S k) (messages (calls s)))))
    server_start.
Proof. apply (server_texts demo_hi). cbn. lia. Defined.

(** Three rounds of this server: it accepts three connections and reads from two. *)
Lemma demo_rounds :
  match server_main demo_hi 3 server_start with
  | Ok (x, s) => Some (x, length (messages (calls s)),
      (λ H, (size (opened H), size (watched H))) <$> tracked (calls s))
  | Fault _ => None
  end = Some (None, 3, Some (5, 4)).
Proof. vm_compute. reflexivity. Qed.

(** What was read first shows behind a shorter message. *)
Lemma demo_stale :
  all_shown [] [bytes "hello"; bytes "ok"] =
  [bytes "hello" ++ [NL]; bytes "ok" ++ [NL] ++ bytes "lo" ++ [NL]].
Proof. reflexivity. Qed.

(** A connection 5 whose reads fail. *)
Definition demo_event : epoll_event := Event 5 EPOLLIN.
Definition demo_state : srv :=
  Srv (Some demo_event :: replicate 19 None) (replicate MAXLINE NUL)
    (setup_calls 3 4 0 0 ++ [OAccept 4 5; OCtlAdd 3 5 (Event 5 (Z.lor EPOLLIN EPOLLET))]).

Lemma demo_state_ok : server_state 3 4 {[5%Z]} demo_state.
Proof.
  split; [by vm_compute|split; [done|set_solver]|set_solver| |done|done|by repeat constructor|done].
  split; [done|]. intros fd. rewrite elem_of_singleton. lia.
Qed.

Lemma server_read_faults_witness : on_readable demo_failing 0 demo_state = Fault FBounds.
Proof.
  apply (server_read_faults demo_failing 3 4 {[5%Z]} demo_state 0 demo_event);
    [apply demo_state_ok|reflexivity|by apply elem_of_singleton|exact I].
Defined.

(** A stream in two pieces. *)
Definition demo_stream : os := {|
  epoll_create _ := 3%Z;
  socket _ := 3%Z;
  bind _ _ _ _ := 0%Z;
  listen _ _ _ := 0%Z;
  connect _ _ _ _ := 0%Z;
  epoll_wait _ _ _ := None;
  accept _ _ := (-1)%Z;
  read t _ _ := default (RData []) (RData <$> [bytes "he"; bytes "llo"] !! reads t);
  errno _ := 0%Z;
  inet_pton _ := 1%Z;
  fputs_eof _ _ := false;
  fcntl_getfl _ _ := 2%Z;
  fcntl_setfl _ _ _ := 0%Z
|}.

Lemma recv_prints_witness :
  wp (test_socket1_main demo_stream 3 [bytes "t"; bytes "127.0.0.1"; bytes "80"])
    (λ r s', r = 0%Z ∧
      printed (calls s') = concat (before_nul <$> [bytes "he"; bytes "llo"]) ++
        (if (end_result (RData []) <? 0)%Z then endl (bytes "read error") else []) ∧
      (NUL ∉ concat [bytes "he"; bytes "llo"] →
        concat (before_nul <$> [bytes "he"; bytes "llo"]) = concat [bytes "he"; bytes "llo"]))
    (recv_start (replicate 1025 x61)).
Proof.
  apply (recv_prints demo_stream (bytes "t") (bytes "127.0.0.1") (bytes "80")
    [bytes "he"; bytes "llo"] (RData []) (replicate 1025 x61) 3); try done.
  - unfold RECVLINE. repeat (apply Forall_cons; split; [split; [done|simpl; lia]|]).
    by apply Forall_nil.
  - simpl. lia.
Defined.
