(* ===== verification/Watchdog.v ===== *)
(** * Watchdog: the watchdog service (service_test/cpp/Watchdog.h, Watchdog.cpp,
    service_watchdog.cpp)

    The service that starts the gate and receives its messages.  The class has no
    fields; its state is what it did.  The answers of skynet to the start of the gate
    are a parameter. *)
From stdpp Require Import gmap list strings.
From Stdlib Require Import ZArith Strings.Byte.
From S2P Require Import Prelude Bytes CString Gate.

Abbreviation str := (list byte).

Inductive dog_event :=
  | DPrint (s : str)
  | DNewContext (name parm : str)
  | DCallback.

Abbreviation dog := (list dog_event).

Definition dog_emit (e : dog_event) : M dog unit := modify (λ t, t ++ [e]).

Definition newline (s : str) : str := s ++ [x0a].

(** [strsep(&c, " ")] on a message, which need not be a string: what comes before the
    first space or NUL, and the message after the space was overwritten. *)
Fixpoint strsep_msg (data : str) : res (str * str) :=
  match data with
  | [] => Fault FBounds
  | b :: data' =>
    if decide (b = NUL) then Ok ([], data)
    else if decide (b = SPACE) then Ok ([], NUL :: data')
    else '(s, data'') ← strsep_msg data'; Ok (b :: s, b :: data'')
  end.

(** ** Objects *)

(** The objects that exist; one has no fields. *)
Abbreviation dogs := (gmap loc unit).

Definition new_Watchdog : unit := tt.

Definition watchdog_create : M dogs loc := λ h,
  let dog := fresh_loc h in Ok (dog, <[dog := new_Watchdog]> h).

Definition watchdog_release (dog : option loc) : M dogs unit := λ h,
  match dog with
  | None => Ok (tt, h)
  | Some l => match h !! l with Some _ => Ok (tt, delete l h) | None => Fault FDangling end
  end.

Section Watchdog.
Context `{SK : Skynet}.

(** [skynet_context_new(name, parm)]: the handle of the new service, if any. *)
Context (context_new : str → str → option Z).

(** ** Watchdog *)

Definition dog_init (parm : str) : bool := true.
Definition service_init (ctx : Z) (parm : str) (len : Z) : bool := true.

(** The message after the call; a message without data is NULL. *)
Definition watchdog_poll (data : option str) (size source session type : Z) :
    M dog (option str) :=
  if ((type =? PTYPE_TEXT) || (type =? PTYPE_CLIENT))%Z then
    match data with
    | None => fail FNull
    | Some data =>
      '(s, data') ← lift (strsep_msg data);
      dog_emit (DPrint (newline (bytes "watchdog_poll fd=" ++ fmt_d (atoi s))));;
      mret (Some data')
    end
  else mret data.

(** ** service_watchdog.cpp *)

Definition watchdog_cb (type session source : Z) (msg : option str) (sz : Z) : M dog Z :=
  watchdog_poll msg (u32 sz) source session type;;
  mret 0%Z.

(** What [snprintf(sendline, 100, "%s %u", parm, handle)] leaves in the array. *)
Definition sendline (parm : str) (handle : Z) : str := take 99 (parm ++ [SPACE] ++ fmt_u handle).

(** The service with the handle [handle]; [parm] is a string. *)
Definition watchdog_init (handle : Z) (parm : str) : M dog Z :=
  let line := sendline parm handle in
  dog_emit (DPrint (newline (bytes "watchdog_init sendline=" ++ line)));;
  dog_emit (DNewContext (bytes "gate") line);;
  match context_new (bytes "gate") line with
  | None => dog_emit (DPrint (newline (bytes "create gate error")));; mret (-1)%Z
  | Some gate =>
    let temp := fmt_u gate in
    if negb (service_init handle temp (Z.of_nat (length temp))) then
      dog_emit (DPrint (newline (bytes "service init failed.")));; mret (-1)%Z
    else
      dog_emit DCallback;;
      mret 0%Z
  end.

End Watchdog.
