(* ===== verification/WatchdogSpec.v ===== *)
(** * WatchdogSpec: the watchdog and the gate together

    What the watchdog prints for the messages of the gate, and which gate it starts. *)
From stdpp Require Import gmap list strings relations.
From Stdlib Require Import ZArith Strings.Byte.
From S2P Require Import Prelude IdTable HashId Bytes DataBuffer CString Gate GateInv GateDispatch GateSpec GateCtrl GateLife GateDemo Watchdog.

(** ** Messages *)

Lemma strsep_msg_word w b rest : Forall plain w → b = SPACE ∨ b = NUL →
  ∃ data', strsep_msg (w ++ b :: rest) = Ok (w, data').
Proof.
  intros Hw Hb. induction w as [|c w IH]; simpl.
  - destruct Hb as [-> | ->]; simpl; eauto.
  - apply Forall_cons in Hw as [[Hn Hs] Hw]. rewrite !decide_False by done.
    destruct (IH Hw) as [data' ->]. simpl. eauto.
Qed.

(** Outside of the message when it has neither a space nor a NUL. *)
Lemma strsep_msg_none w : Forall plain w → strsep_msg w = Fault FBounds.
Proof.
  induction w as [|c w IH]; [done|]. intros Hw. apply Forall_cons in Hw as [[Hn Hs] Hw]. simpl.
  rewrite !decide_False by done. by rewrite IH.
Qed.

Definition told (fd : Z) : dog_event := DPrint (newline (bytes "watchdog_poll fd=" ++ fmt_d fd)).

Section WatchdogSpec.
Context `{SK : Skynet}.

Lemma spec_init_watchdog word sz wd max : sg_watchdog (spec_init word sz wd max).2 = wd.
Proof.
  unfold spec_init. destruct (decide _); [done|]. unfold spec_start_listen.
  repeat case_match; simplify_eq; done.
Qed.

(** A message that skynet delivers to the watchdog, with the type without its tags. *)
Definition hear (msg_type : Z → Z) (wd : Z) (e : event) : M dog unit :=
  match e with
  | EvSend source destination type session data =>
    when (destination =? wd)%Z
      (watchdog_cb (msg_type type) session source (Some data) (Z.of_nat (length data));; mret tt)
  | _ => mret tt
  end.

Fixpoint hear_all (msg_type : Z → Z) (wd : Z) (es : list event) : M dog unit :=
  match es with
  | [] => mret tt
  | e :: es' => hear msg_type wd e;; hear_all msg_type wd es'
  end.

Lemma poll_number (type size source session fd : Z) rest t :
  type = PTYPE_TEXT ∨ type = PTYPE_CLIENT → (int_min ≤ fd ≤ int_max)%Z →
  ∃ data', watchdog_poll (Some (fmt_d fd ++ SPACE :: rest)) size source session type t =
    Ok (data', t ++ [told fd]).
Proof.
  intros Ht Hfd. unfold watchdog_poll.
  assert (((type =? PTYPE_TEXT) || (type =? PTYPE_CLIENT))%Z = true) as ->
    by (destruct Ht as [-> | ->]; rewrite Z.eqb_refl, ?orb_true_r; done).
  destruct (strsep_msg_word (fmt_d fd) SPACE rest (fmt_d_plain fd)) as [data' E]; [by left|].
  exists (Some data'). unfold mbind, M_bind, lift. rewrite E. unfold atoi. by rewrite strtol_fmt_d.
Qed.

Lemma hear_packet msg_type wd type s fd p t : msg_type type = PTYPE_CLIENT →
  (int_min ≤ fd ≤ int_max)%Z →
  hear msg_type wd (EvSend s wd type 0 (fmt_d fd ++ [SPACE] ++ p)) t = Ok (tt, t ++ [told fd]).
Proof.
  intros Hty Hfd. unfold hear. rewrite Z.eqb_refl. cbn [when]. unfold watchdog_cb.
  rewrite Hty. set (sz := u32 _).
  destruct (poll_number PTYPE_CLIENT sz s 0 fd p t) as [d E]; [by right|done|].
  unfold mbind, M_bind. cbn [app]. by rewrite E.
Qed.

(** C13: From a peer to the watchdog.  When no broker and no agent takes the packets of
    a connection, packets that are framed by their lengths and cut into blocks anyhow
    make the gate send, for each nonempty packet in order, one message from which the
    watchdog reads back the descriptor of the connection, and prints it. *)
Theorem watchdog_hears msg_type w fd c chunks ps t : reachable w → abs_conns w !! fd = Some c →
  s_buf c = (0%Z, []) → broker (w_gate w) = 0%Z → s_agent c = 0%Z → watchdog (w_gate w) ≠ 0%Z →
  msg_type (Z.lor (client_tag (w_gate w)) PTYPE_TAG_DONTCOPY) = PTYPE_CLIENT →
  (int_min ≤ s_id c ≤ int_max)%Z →
  Forall (λ p, Z.of_nat (length p) < packet_limit)%Z ps →
  (Z.of_nat (length (concat (encode_packet <$> ps))) ≤ int_max)%Z →
  concat chunks = concat (encode_packet <$> ps) →
  ∃ w' sent, serve_all (RData fd <$> chunks) w = Ok (tt, w') ∧
    w_trace w' = w_trace w ++ sent ∧
    hear_all msg_type (watchdog (w_gate w)) sent t =
      Ok (tt, t ++ ((λ _, told (s_id c)) <$> filter (λ p, p ≠ []) ps)).
Proof.
  intros Hw Hc Hb Hbr Hag Hwd Hty Hid Hps Hlen Hch.
  set (f := λ p, EvSend 0 (watchdog (w_gate w)) (Z.lor (client_tag (w_gate w)) PTYPE_TAG_DONTCOPY)
    0 (fmt_d (s_id c) ++ [SPACE] ++ p)).
  assert (Hf : spec_route (abs_gate w) c = Some f).
  { unfold spec_route. cbn [abs_gate sg_broker sg_watchdog sg_tag].
    rewrite Hbr, Hag. cbn [Z.eqb negb]. by rewrite (proj2 (Z.eqb_neq _ _)). }
  destruct (wp_elim _ _ _ (delivers_wp w fd c f chunks ps (reachable_ok w Hw) Hc Hb Hf Hps Hlen Hch))
    as ([]&w'&E&_&Ha).
  exists w', (f <$> filter (λ p, p ≠ []) ps). split; [done|]. split; [exact (f_equal sg_trace Ha)|].
  clear -Hty Hid. revert t. generalize (filter (λ p, p ≠ []) ps). intros l.
  induction l as [|p l IH]; intros t; cbn [fmap list_fmap hear_all]; [by rewrite app_nil_r|].
  refine (eq_trans (bind_ok _ _ _ _ _ (hear_packet _ _ _ _ _ _ _ Hty Hid)) _).
  rewrite IH, <- (assoc_L (++)). done.
Qed.

(** What the gate reports itself starts with a NUL: the watchdog prints the descriptor
    0, whatever is reported. *)
Lemma report_unread size source session text t : ∃ data',
  watchdog_poll (Some (be_bytes 4 19 ++ text)) size source session PTYPE_TEXT t =
    Ok (data', t ++ [told 0]).
Proof.
  eexists. unfold watchdog_poll. rewrite Z.eqb_refl. cbn [orb].
  unfold mbind, M_bind, lift. change (be_bytes 4 19) with [x00; x00; x00; x13].
  cbn [app strsep_msg]. rewrite decide_True by done. done.
Qed.

(** ** The gate that the watchdog starts *)

(** What a gate that is started with the word [parm] does with its address. *)
Definition starts_on (parm : str) (r : Z) (w : world) : Prop :=
  if decide (head parm = Some x21) then
    r = 0%Z ∧ listen_id (w_gate w) = (-1)%Z ∧ w_trace w = [EvCallback]
  else
    let '(host, port, _) := addr_parts (parm ++ [NUL]) in
    if (port <=? 0)%Z then
      r = 1%Z ∧ listen_id (w_gate w) = (-1)%Z ∧
      w_trace w = [EvCallback; EvError "Invalid gate address %s" [ArgS parm]]
    else
      let lid := skynet_socket_listen [EvCallback] host port BACKLOG in
      listen_id (w_gate w) = lid ∧
      if (lid <? 0)%Z then r = 1%Z ∧ w_trace w = [EvCallback; EvSocketListen host port BACKLOG]
      else r = 0%Z ∧ ∃ text, w_trace w =
        [EvCallback; EvSocketListen host port BACKLOG; EvSocketStart lid;
         EvError "start listen address %s" [ArgS text]].

Lemma spec_init_starts parm sz wd max r w : NUL ∉ parm → length parm < sz →
  (r, abs_gate w) = spec_init parm sz wd max → starts_on parm r w.
Proof.
  intros Hn Hsz E. unfold spec_init in E. unfold starts_on.
  change (listen_id (w_gate w)) with (sg_listen (abs_gate w)).
  change (w_trace w) with (sg_trace (abs_gate w)).
  revert E. generalize (abs_gate w). intros g E.
  destruct (decide (head parm = Some x21)) as [Hh|Hh].
  { by injection E as -> ->. }
  unfold spec_start_listen in E. assert (Hu : until_nul (binding_array sz parm) = Some parm).
  { unfold binding_array. replace (sz - length parm) with (S (sz - length parm - 1)) by lia.
    by apply until_nul_app. }
  assert (Ha : (addr_parts (binding_array sz parm)).1 = (addr_parts (parm ++ [NUL])).1).
  { unfold addr_parts. rewrite Hu, (until_nul_app parm []) by done.
    cbn [default from_option id]. by destruct (index_of x3a parm). }
  rewrite Hu in E. cbn [default from_option id] in E.
  destruct (addr_parts (binding_array sz parm)) as [[host port] addr'].
  destruct (addr_parts (parm ++ [NUL])) as [[host' port'] addr'']. cbn [fst] in Ha.
  injection Ha as <- <-. destruct (port <=? 0)%Z.
  - by injection E as -> ->.
  - cbn [sg_trace] in E. destruct (skynet_socket_listen _ _ _ _ <? 0)%Z.
    + by injection E as -> ->.
    + injection E as -> ->. split; [done|]. split; [done|]. by eexists.
Qed.

(** C36: Starting the gate.  The start line holds the parameter of the watchdog and its
    handle; when it fits 99 bytes, and the parameter is a word, the gate that is
    started from it is in order and reports to the watchdog.  Its init answers 0 when
    the parameter begins with '!', and then it does not listen, and when it listens on
    the host and the port of the parameter; it answers 1 when there is no port or the
    socket cannot listen.  As skynet gives a new service only if its init answered 0,
    the watchdog's init answers 0, and takes its callback, exactly then, and else -1. *)
Theorem watchdog_starts_gate context_new handle parm env :
  parm ≠ [] → Forall (λ b, is_space b = false) parm → (NUL ∉ parm) →
  (0 ≤ handle < 4294967296)%Z → length (parm ++ [SPACE] ++ fmt_u handle) ≤ 99 →
  skynet_getenv (bytes "max_online") = Some env → (0 ≤ atoi env ≤ 2 ^ 30)%Z →
  (∀ line r w, gate_init (Some line) initial_world = Ok (r, w) →
    is_Some (context_new (bytes "gate") line) ↔ r = 0%Z) →
  ∃ line r w rd t, line = parm ++ [SPACE] ++ fmt_u handle ∧ sendline parm handle = line ∧
    gate_init (Some line) initial_world = Ok (r, w) ∧ gate_ok [] w ∧
    watchdog (w_gate w) = handle ∧ starts_on parm r w ∧
    watchdog_init context_new handle parm [] = Ok (rd, t) ∧ DNewContext (bytes "gate") line ∈ t ∧
    rd = (if r =? 0 then 0 else -1)%Z ∧ (DCallback ∈ t ↔ rd = 0%Z).
Proof.
  intros Hne Hp Hnul Hh Hlen Henv Hmax Hnew.
  assert (El : sendline parm handle = parm ++ [SPACE] ++ fmt_u handle)
    by (unfold sendline; by rewrite take_ge).
  assert (Hs := sscanf_word_number parm handle Hne Hp Hh).
  destruct (wp_elim _ _ _ (gate_init_wp (parm ++ [SPACE] ++ fmt_u handle) parm handle env _ Hs Henv
    eq_refl Hmax ltac:(right; unfold BIND_SIZE; lia))) as (r&w&E&Hg&Hb&Ha).
  assert (Hwd : watchdog (w_gate w) = handle).
  { change (sg_watchdog (abs_gate w) = handle). pose proof (f_equal snd Ha) as Ha2. simpl in Ha2.
    rewrite Ha2. apply spec_init_watchdog. }
  assert (Hst : starts_on parm r w).
  { eapply spec_init_starts; [done| |exact Ha]. rewrite length_app. lia. }
  specialize (Hnew _ _ _ E).
  exists (parm ++ [SPACE] ++ fmt_u handle), r, w. unfold watchdog_init. rewrite El.
  destruct (context_new _ _) as [g|]; eexists _, _; (split; [done|]); (split; [done|]);
    (split; [exact E|]); (split; [by split|]); (split; [done|]); (split; [exact Hst|]);
    (split; [reflexivity|]); cbn [app]; (split; [set_solver|]).
  - rewrite (proj1 Hnew) by done. split; [done|]. set_solver.
  - rewrite (proj2 (Z.eqb_neq r 0)) by (intros ?%Hnew; by destruct H). split; [done|]. set_solver.
Qed.

(** A parameter of 98 bytes or more leaves no room for the handle, and the gate uses the
    watchdog that it did not read. *)
Lemma watchdog_long_parm handle parm : Forall (λ b, is_space b = false) parm →
  98 ≤ length parm → gate_init (Some (sendline parm handle)) initial_world = Fault FUninit.
Proof.
  intros Hp Hlen. assert (E : ∃ w, sscanf_su (sendline parm handle) = (Some w, None)).
  { unfold sendline. rewrite take_app. destruct (decide (length parm = 98)) as [El|El].
    - rewrite take_ge by lia. replace (99 - length parm) with 1 by lia.
      change (take 1 _) with [SPACE]. exists parm. unfold sscanf_su.
      destruct parm as [|b p]; [done|]. apply Forall_cons in Hp as Hb. destruct Hb as [Hb _].
      assert (skip_spaces ((b :: p) ++ [SPACE]) = (b :: p) ++ [SPACE]) as -> by (simpl; by rewrite Hb).
      by rewrite take_word_app.
    - replace (99 - length parm) with 0 by lia. cbn [take]. rewrite app_nil_r.
      assert (Ht : Forall (λ b, is_space b = false) (take 99 parm)) by by apply Forall_take.
      destruct (take 99 parm) as [|b p] eqn:Et.
      { apply (f_equal length) in Et. rewrite length_take in Et. cbn [length] in Et. lia. }
      exists (b :: p). unfold sscanf_su. apply Forall_cons in Ht as Hb. destruct Hb as [Hb _].
      assert (skip_spaces (b :: p) = b :: p) as -> by (simpl; by rewrite Hb).
      by rewrite take_word_all. }
  destruct E as [x E]. unfold gate_init. by rewrite E.
Qed.

End WatchdogSpec.

(** A service that is created and released leaves no object, and is released once. *)
Lemma watchdog_create_release h :
  ∃ dog h', watchdog_create h = Ok (dog, h') ∧ h !! dog = None ∧
    watchdog_release (Some dog) h' = Ok (tt, h) ∧
    watchdog_release (Some dog) h = Fault FDangling.
Proof.
  exists (fresh_loc h), (<[fresh_loc h := tt]> h). unfold watchdog_release.
  rewrite lookup_insert_eq, lookup_fresh. split; [done|]. split; [done|]. split; [|done].
  by rewrite delete_insert_id by apply lookup_fresh.
Qed.

(** ** Witnesses *)

#[local] Existing Instance demo.

Lemma watchdog_hears_witness : ∃ w' sent,
  serve_all (RData 5 <$> [[x00; x00; x00]; [x02; x61]; [x62; x00; x00; x00; x01; x63]])
    gate9_peer = Ok (tt, w') ∧
  w_trace w' = w_trace gate9_peer ++ sent ∧
  hear_all (λ t, Z.land t 255) (watchdog (w_gate gate9_peer)) sent [] =
    Ok (tt, [told 5; told 5]).
Proof.
  apply (watchdog_hears (λ t, Z.land t 255) gate9_peer 5 peer9
    [[x00; x00; x00]; [x02; x61]; [x62; x00; x00; x00; x01; x63]] [[x61; x62]; [x63]] []).
  - apply gate9_peer_reachable.
  - apply gate9_peer_lookup.
  - reflexivity.
  - vm_compute. reflexivity.
  - reflexivity.
  - vm_compute. discriminate.
  - vm_compute. reflexivity.
  - vm_compute. split; discriminate.
  - repeat constructor.
  - vm_compute. discriminate.
  - vm_compute. reflexivity.
Defined.

(** A skynet whose next service has the handle 8. *)
Definition demo_context (name line : str) : option Z :=
  match gate_init (Some line) initial_world with
  | Ok (r, _) => if (r =? 0)%Z then Some 8%Z else None
  | Fault _ => None
  end.

Lemma demo_context_new line r w : gate_init (Some line) initial_world = Ok (r, w) →
  is_Some (demo_context (bytes "gate") line) ↔ r = 0%Z.
Proof.
  unfold demo_context. intros ->. destruct (Z.eqb_spec r 0) as [->|Hr].
  - split; [done|]. by eexists.
  - split; [by intros []|done].
Qed.

(** A gate that listens, and one whose parameter has no port. *)
Lemma watchdog_starts_gate_witness : Forall (λ parm,
  ∃ line r w rd t, line = parm ++ [SPACE] ++ fmt_u 7 ∧ sendline parm 7 = line ∧
    gate_init (Some line) initial_world = Ok (r, w) ∧ gate_ok [] w ∧ watchdog (w_gate w) = 7%Z ∧
    starts_on parm r w ∧ watchdog_init demo_context 7 parm [] = Ok (rd, t) ∧
    DNewContext (bytes "gate") line ∈ t ∧
    rd = (if r =? 0 then 0 else -1)%Z ∧ (DCallback ∈ t ↔ rd = 0%Z))
  [bytes "0.0.0.0:8888"; bytes "nowhere"].
Proof.
  apply Forall_cons. split; [|apply Forall_cons; split; [|by apply Forall_nil]];
    apply (watchdog_starts_gate demo_context 7 _ (bytes "4")); try exact demo_context_new;
    first [ done | lia | by repeat constructor | by apply (bool_decide_unpack _); vm_compute
          | vm_compute; split; discriminate ].
Defined.
