(* ===== verification/Glog.v ===== *)
(** * Glog: the two log modules (testglog/log.cpp, testcluster/cpp/log/service_log.cpp)

    The Lua module that formats a message of any length and logs it, and the logger
    service of skynet, over glog.  A block of memory has a size and holds the bytes that
    were written to its beginning.  Which allocations succeed, what Lua and the
    environment answer are parameters or arguments. *)
From stdpp Require Import gmap list strings.
From Stdlib Require Import ZArith Strings.Byte.
From S2P Require Import Prelude Bytes CString.

Abbreviation str := (list byte).

(** ** Data *)

Record lblock := LBlock { lb_size : Z; lb_data : str }.

(** The flags of glog, and what was logged and done. *)
Record flags := Flags {
  log_dir : str; logbufsecs : Z; max_log_size : Z; logtostderr : bool
}.

Inductive log_event :=
  | LInit (name : str)
  | LInfo (s : str)
  | LError (s : str)
  | LPerror (s : str)
  | LCallback
  | LCommand (cmd parm : str).

Record lworld := LWorld { lheap : gmap loc lblock; lflags : flags; llog : list log_event }.

Definition set_lheap h (w : lworld) := LWorld h (lflags w) (llog w).
Definition set_lflags f (w : lworld) := LWorld (lheap w) f (llog w).
Definition log_emit (e : log_event) : M lworld unit :=
  modify (λ w, LWorld (lheap w) (lflags w) (llog w ++ [e])).

Definition LOG_MESSAGE_SIZE : Z := 256.

Section Glog.
Context (malloc_ok : gmap loc lblock → Z → bool).

(** ** Memory *)

Definition lmalloc (size : Z) : M lworld (option loc) :=
  h ← gets lheap;
  if malloc_ok h size then
    modify (set_lheap (<[fresh_loc h := LBlock size []]> h));;
    mret (Some (fresh_loc h))
  else mret None.

Definition lfree (p : option loc) : M lworld unit :=
  match p with
  | None => mret tt
  | Some l =>
    h ← gets lheap;
    match h !! l with
    | None => fail FDangling
    | Some _ => modify (set_lheap (delete l h))
    end
  end.

(** The bytes [bs] are written to the beginning of the block. *)
Definition lwrite (p : option loc) (bs : str) : M lworld unit :=
  match p with
  | None => fail FNull
  | Some l =>
    h ← gets lheap;
    match h !! l with
    | None => fail FDangling
    | Some b =>
      if (Z.of_nat (length bs) <=? lb_size b)%Z then
        modify (set_lheap (<[l := LBlock (lb_size b) bs]> h))
      else fail FBounds
    end
  end.

(** The string in the block. *)
Definition lread (p : option loc) : M lworld str :=
  match p with
  | None => fail FNull
  | Some l =>
    h ← gets lheap;
    match h !! l with
    | None => fail FDangling
    | Some b => match until_nul (lb_data b) with Some s => mret s | None => fail FUninit end
    end
  end.

(** ** testglog/log.cpp *)

(** The result of [vsnprintf] for the text of the format and its arguments; there is no
    text when the formatting fails. *)
Definition vsnprintf_res (text : option str) : Z :=
  match text with
  | None => -1
  | Some t => if (Z.of_nat (length t) <=? int_max)%Z then Z.of_nat (length t) else -1
  end.

(** What [vsnprintf] leaves in an array of [n] bytes, [0 < n]. *)
Definition vsnprintf_out (text : option str) (n : Z) : str :=
  match text with
  | None => []
  | Some t => if (Z.of_nat (length t) <=? int_max)%Z then take (Z.to_nat (n - 1)) t ++ [NUL] else []
  end.

Definition vsnprintf (p : option loc) (n : Z) (text : option str) : M lworld Z :=
  lwrite p (vsnprintf_out text n);;
  mret (vsnprintf_res text).

Definition skynet_strdup (s : str) : M lworld (option loc) :=
  ret ← lmalloc (Z.of_nat (length s) + 1);
  lwrite ret (s ++ [NUL]);;
  mret ret.

(** The doubling loop: the block and the last result of [vsnprintf]. *)
Fixpoint grow (fuel : nat) (max_size : Z) (text : option str) : M lworld (option loc * Z) :=
  match fuel with
  | O => fail FFuel
  | S fuel' =>
    max_size ← lift (int_res (max_size * 2));
    data ← lmalloc max_size;
    len ← vsnprintf data max_size text;
    if (len <? max_size)%Z then mret (data, len)
    else lfree data;; grow fuel' max_size text
  end.

(** From 256 the size leaves [int] at the 23rd doubling. *)
Definition grow_fuel : nat := 23.

(** The result, and the block that [data] points to. *)
Definition format_message (text : option str) : M lworld (bool * option loc) :=
  let tmp := vsnprintf_out text LOG_MESSAGE_SIZE in
  let len := vsnprintf_res text in
  '(data, len) ← (if ((0 <=? len) && (len <? LOG_MESSAGE_SIZE))%Z then
                    s ← lift (cstr tmp 0);
                    data ← skynet_strdup s;
                    mret (data, len)
                  else grow grow_fuel LOG_MESSAGE_SIZE text);
  if (len <? 0)%Z then
    lfree data;;
    log_emit (LPerror (bytes "vsnprintf error :"));;
    mret (false, data)
  else mret (true, data).

(** The arguments as [luaL_tolstring] makes them, with spaces between. *)
Fixpoint join (args : list str) : str :=
  match args with
  | [] => []
  | [a] => a
  | a :: args' => a ++ SPACE :: join args'
  end.

Definition lerror (args : list str) : M lworld Z :=
  match args with
  | [] => mret 0%Z
  | _ =>
    s ← lift (cstr (join args ++ [NUL]) 0);
    '(ret, data) ← format_message (Some s);
    when ret (text ← lread data; log_emit (LError text);; lfree data);;
    mret 0%Z
  end.

Definition linit : M lworld Z :=
  f ← gets lflags;
  modify (set_lflags (Flags (bytes "./log") 1 10 (logtostderr f)));;
  log_emit (LInit (bytes "test"));;
  mret 0%Z.

(** ** service_log.cpp *)

(** [%08x] of an unsigned [int]. *)
Definition hex_digit (z : Z) : byte := Zbyte (if (z <? 10)%Z then 48 + z else 87 + z).
Fixpoint hex_digits (n : nat) (z : Z) : str :=
  match n with
  | O => []
  | S n' => hex_digits n' (z `div` 16) ++ [hex_digit (z `mod` 16)]
  end.
Definition fmt_08x (z : Z) : str := hex_digits 8 z.

(** The [logger] has no fields. *)
Definition logger_create : M lworld (option loc) := lmalloc 1.
Definition logger_release (inst : option loc) : M lworld unit := lfree inst.

(** What [%.4s] takes of the message. *)
Fixpoint prefix_4 (n : nat) (data : str) : res str :=
  match n with
  | O => Ok []
  | S n' =>
    match data with
    | [] => Fault FBounds
    | b :: data' => if decide (b = NUL) then Ok [] else s ← prefix_4 n' data'; Ok (b :: s)
    end
  end.

Definition _logger (type session source : Z) (msg : str) (sz : Z) : M lworld Z :=
  prefix_name ← lift (prefix_4 4 msg);
  text ← lift (cstr msg 0);
  (if negb (source =? 0)%Z then
     log_emit (LInfo (bytes "[" ++ fmt_08x source ++ bytes "] " ++ text))
   else log_emit (LInfo text));;
  mret 0%Z.

Section Service.
Context (skynet_getenv : str → option str).

(** A NULL that is read as a string. *)
Definition need (s : option str) : M lworld str :=
  match s with Some s => mret s | None => fail FNull end.

Definition logger_init : M lworld Z :=
  let dir := skynet_getenv (bytes "log_dir") in
  name ← need (skynet_getenv (bytes "log_name"));
  (if decide (name = bytes "stdout") then
     modify (λ w, set_lflags (Flags (log_dir (lflags w)) (logbufsecs (lflags w))
       (max_log_size (lflags w)) true) w)
   else mret tt);;
  secs ← need (skynet_getenv (bytes "logbufsecs"));
  dir ← need dir;
  modify (λ w, set_lflags (Flags dir (atoi secs) 10 (logtostderr (lflags w))) w);;
  log_emit (LInit name);;
  log_emit LCallback;;
  log_emit (LCommand (bytes "REG") (bytes ".logger"));;
  mret 0%Z.

End Service.

End Glog.
