(* ===== verification/GlogSpec.v ===== *)
(** * GlogSpec: what the log modules do

    The block that a message of any length gets, the memory the modules give back, and
    the lines that are logged. *)
From stdpp Require Import gmap list strings.
From Stdlib Require Import ZArith Strings.Byte.
From S2P Require Import Prelude Bytes CString Glog.

Section GlogSpec.
Context (malloc_ok : gmap loc lblock → Z → bool).

(** The world with the block [l]. *)
Definition with_block (l : loc) (size : Z) (bs : str) (w : lworld) : lworld :=
  set_lheap (<[l := LBlock size bs]> (lheap w)) w.

Definition logged (es : list log_event) (w : lworld) : lworld :=
  LWorld (lheap w) (lflags w) (llog w ++ es).

(** ** Memory *)

Lemma with_block_back l size bs w : lheap w !! l = None →
  set_lheap (delete l (lheap (with_block l size bs w))) (with_block l size bs w) = w.
Proof.
  intros Hl. destruct w as [h f t]. unfold with_block, set_lheap. simpl in *.
  by rewrite delete_insert_id.
Qed.

Lemma free_block l size bs w : lheap w !! l = None →
  lfree (Some l) (with_block l size bs w) = Ok (tt, w).
Proof.
  intros Hl. unfold lfree, mbind, M_bind, gets, modify. cbn [lheap with_block set_lheap].
  rewrite lookup_insert_eq. f_equal. f_equal. by apply with_block_back.
Qed.

Lemma read_block l size t w : NUL ∉ t →
  lread (Some l) (with_block l size (t ++ [NUL]) w) = Ok (t, with_block l size (t ++ [NUL]) w).
Proof.
  intros Ht. unfold lread, mbind, M_bind, gets. cbn [lheap with_block set_lheap].
  rewrite lookup_insert_eq. cbn [lb_data]. by rewrite until_nul_app.
Qed.

Lemma malloc_block size w : malloc_ok (lheap w) size = true →
  lmalloc malloc_ok size w =
    Ok (Some (fresh_loc (lheap w)), with_block (fresh_loc (lheap w)) size [] w).
Proof. intros Hm. unfold lmalloc, mbind, M_bind, gets. by rewrite Hm. Qed.

Lemma write_block l size bs bs' w : (Z.of_nat (length bs') ≤ size)%Z →
  lwrite (Some l) bs' (with_block l size bs w) = Ok (tt, with_block l size bs' w).
Proof.
  intros Hs. unfold lwrite, mbind, M_bind, gets, modify, with_block, set_lheap.
  cbn [lheap lflags llog]. rewrite lookup_insert_eq. cbn [lb_size].
  rewrite (proj2 (Z.leb_le _ _)) by done. by rewrite insert_insert_eq.
Qed.

(** Without memory the copy is written to NULL. *)
Lemma strdup_no_memory s w : malloc_ok (lheap w) (Z.of_nat (length s) + 1) = false →
  skynet_strdup malloc_ok s w = Fault FNull.
Proof.
  intros Hm. unfold skynet_strdup, lmalloc, mbind, M_bind, gets. by rewrite Hm.
Qed.

(** ** Formatting *)

Lemma vsnprintf_out_length text n : (0 < n)%Z → (Z.of_nat (length (vsnprintf_out text n)) ≤ n)%Z.
Proof.
  intros Hn. unfold vsnprintf_out. destruct text as [t|]; [|simpl; lia].
  destruct (_ <=? _)%Z; [|simpl; lia]. rewrite length_app, length_take. cbn [length]. lia.
Qed.

Lemma vsnprintf_res_range text : (-1 ≤ vsnprintf_res text ≤ int_max)%Z.
Proof.
  unfold vsnprintf_res, int_max. destruct text as [t|]; [|lia].
  destruct (Z.leb_spec (Z.of_nat (length t)) 2147483647); lia.
Qed.

Lemma vsnprintf_fits t n : (Z.of_nat (length t) ≤ int_max)%Z → (Z.of_nat (length t) < n)%Z →
  vsnprintf_out (Some t) n = t ++ [NUL].
Proof.
  intros Hi Hn. unfold vsnprintf_out. rewrite (proj2 (Z.leb_le _ _)) by done.
  by rewrite take_ge by lia.
Qed.

(** A turn of the loop. *)
Lemma grow_step fuel size text w : (∀ h n, malloc_ok h n = true) →
  (0 < size * 2 ≤ int_max)%Z →
  grow malloc_ok (S fuel) size text w =
    if (vsnprintf_res text <? size * 2)%Z then
      Ok ((Some (fresh_loc (lheap w)), vsnprintf_res text),
        with_block (fresh_loc (lheap w)) (size * 2) (vsnprintf_out text (size * 2)) w)
    else grow malloc_ok fuel (size * 2) text w.
Proof.
  intros Hm Hs. cbn [grow].
  rewrite (bind_ok (lift _) _ w (size * 2)%Z w) by (unfold lift; by rewrite int_res_ok by (unfold int_min; lia)).
  rewrite (bind_ok _ _ _ _ _ (malloc_block _ w (Hm _ _))).
  pose proof (vsnprintf_out_length text (size * 2) ltac:(lia)) as Hl.
  set (l := fresh_loc (lheap w)).
  rewrite (bind_ok _ _ _ (vsnprintf_res text)
    (with_block l (size * 2) (vsnprintf_out text (size * 2)) w))
    by (unfold vsnprintf; by rewrite (bind_ok _ _ _ _ _ (write_block l _ _ _ w Hl))).
  destruct (_ <? _)%Z; [done|]. by rewrite (bind_ok _ _ _ _ _ (free_block l _ _ w (lookup_fresh _))).
Qed.

(** The block that the loop ends with: its size is twice a size that was too small, and
    so at most twice the length of the message. *)
Lemma grow_finds fuel : ∀ size text w, (∀ h n, malloc_ok h n = true) →
  (0 < size ≤ vsnprintf_res text)%Z → (vsnprintf_res text < 2 ^ 30)%Z →
  (2 ^ 30 ≤ size * 2 ^ Z.of_nat fuel)%Z →
  ∃ n, (vsnprintf_res text < n ≤ 2 * vsnprintf_res text)%Z ∧
    grow malloc_ok fuel size text w =
      Ok ((Some (fresh_loc (lheap w)), vsnprintf_res text),
        with_block (fresh_loc (lheap w)) n (vsnprintf_out text n) w).
Proof.
  induction fuel as [|fuel IH]; intros size text w Hm Hs Hr Hf; [lia|].
  rewrite grow_step by (done || (unfold int_max; lia)).
  destruct (Z.ltb_spec (vsnprintf_res text) (size * 2)) as [Hlt|Hge].
  - exists (size * 2)%Z. split; [lia|done].
  - apply IH; [done|lia|done|]. rewrite Nat2Z.inj_succ, Z.pow_succ_r in Hf by lia. lia.
Qed.

Lemma grow_overflows k : ∀ fuel text w, (∀ h n, malloc_ok h n = true) → k ≤ 29 → k < fuel →
  (2 ^ 30 ≤ vsnprintf_res text)%Z →
  grow malloc_ok fuel (2 ^ (30 - Z.of_nat k)) text w = Fault FOverflow.
Proof.
  induction k as [|k IH]; intros fuel text w Hm Hk Hf Hr; (destruct fuel as [|fuel]; [lia|]).
  - reflexivity.
  - assert (E : (2 ^ (30 - Z.of_nat (S k)) * 2 = 2 ^ (30 - Z.of_nat k))%Z).
    { replace (30 - Z.of_nat k)%Z with (Z.succ (30 - Z.of_nat (S k))) by lia.
      rewrite Z.pow_succ_r by lia. lia. }
    assert (Hle : (2 ^ (30 - Z.of_nat k) ≤ 2 ^ 30)%Z) by (apply Z.pow_le_mono_r; lia).
    assert (Hpos : (0 < 2 ^ (30 - Z.of_nat k))%Z) by (apply Z.pow_pos_nonneg; lia).
    rewrite grow_step; rewrite ?E; [|done|unfold int_max; lia].
    destruct (Z.ltb_spec (vsnprintf_res text) (2 ^ (30 - Z.of_nat k))); [lia|].
    apply IH; try done; lia.
Qed.

(** A failed formatting. *)
Lemma format_message_fails text w : (∀ h n, malloc_ok h n = true) → vsnprintf_res text = (-1)%Z →
  ∃ data, format_message malloc_ok text w =
    Ok ((false, data), logged [LPerror (bytes "vsnprintf error :")] w).
Proof.
  intros Hm Hr. exists (Some (fresh_loc (lheap w))). unfold format_message. rewrite Hr. cbn [Z.leb Z.compare andb].
  rewrite (bind_ok _ _ _ (Some (fresh_loc (lheap w)), (-1)%Z)
    (with_block (fresh_loc (lheap w)) 512 (vsnprintf_out text 512) w)).
  - cbn beta iota. rewrite (proj2 (Z.ltb_lt (-1) 0)) by lia.
    by rewrite (bind_ok _ _ _ _ _ (free_block _ _ _ w (lookup_fresh _))).
  - change grow_fuel with (S 22). rewrite grow_step by (done || (unfold LOG_MESSAGE_SIZE, int_max; lia)).
    by rewrite Hr.
Qed.

(** A short message, from the array on the stack. *)
Lemma format_message_short t w : (∀ h n, malloc_ok h n = true) → NUL ∉ t →
  (Z.of_nat (length t) < LOG_MESSAGE_SIZE)%Z →
  format_message malloc_ok (Some t) w = Ok ((true, Some (fresh_loc (lheap w))),
    with_block (fresh_loc (lheap w)) (Z.of_nat (length t) + 1) (t ++ [NUL]) w).
Proof.
  unfold LOG_MESSAGE_SIZE. intros Hm Ht Hlt. unfold format_message.
  rewrite vsnprintf_fits by (unfold LOG_MESSAGE_SIZE, int_max; lia).
  assert (Hr : vsnprintf_res (Some t) = Z.of_nat (length t)).
  { unfold vsnprintf_res. by rewrite (proj2 (Z.leb_le _ _)) by (unfold int_max; lia). }
  rewrite Hr. rewrite (proj2 (Z.leb_le 0 _)), (proj2 (Z.ltb_lt _ LOG_MESSAGE_SIZE))
    by (unfold LOG_MESSAGE_SIZE; lia). cbn [andb].
  rewrite (bind_ok _ _ _ (Some (fresh_loc (lheap w)), Z.of_nat (length t))
    (with_block (fresh_loc (lheap w)) (Z.of_nat (length t) + 1) (t ++ [NUL]) w)).
  - cbn beta iota. by rewrite (proj2 (Z.ltb_ge _ 0)) by lia.
  - rewrite (bind_ok _ _ _ t w) by (unfold lift; by rewrite cstr_app).
    rewrite (bind_ok _ _ _ (Some (fresh_loc (lheap w)))
      (with_block (fresh_loc (lheap w)) (Z.of_nat (length t) + 1) (t ++ [NUL]) w)); [done|].
    unfold skynet_strdup. rewrite (bind_ok _ _ _ _ _ (malloc_block _ w (Hm _ _))).
    assert (Hl : (Z.of_nat (length (t ++ [NUL])) ≤ Z.of_nat (length t) + 1)%Z)
      by (rewrite length_app; simpl; lia).
    by rewrite (bind_ok _ _ _ _ _ (write_block _ _ _ _ w Hl)).
Qed.

Lemma vsnprintf_res_text t : (Z.of_nat (length t) ≤ int_max)%Z →
  vsnprintf_res (Some t) = Z.of_nat (length t).
Proof. intros Hl. unfold vsnprintf_res. by rewrite (proj2 (Z.leb_le _ _)). Qed.

(** A long message goes through the loop. *)
Lemma format_message_long t w : (LOG_MESSAGE_SIZE ≤ Z.of_nat (length t) ≤ int_max)%Z →
  format_message malloc_ok (Some t) w =
    ('(data, len) ← grow malloc_ok grow_fuel LOG_MESSAGE_SIZE (Some t);
     if (len <? 0)%Z then lfree data;; log_emit (LPerror (bytes "vsnprintf error :"));;
       mret (false, data) else mret (true, data)) w.
Proof.
  intros Hl. unfold format_message. rewrite vsnprintf_res_text by lia.
  by rewrite (proj2 (Z.ltb_ge _ LOG_MESSAGE_SIZE)), andb_false_r by lia.
Qed.

(** A message that fits a block. *)
Lemma format_message_fits t w : (∀ h n, malloc_ok h n = true) → NUL ∉ t →
  (Z.of_nat (length t) < 2 ^ 30)%Z → ∃ n, (Z.of_nat (length t) < n)%Z ∧
    (if (Z.of_nat (length t) <? LOG_MESSAGE_SIZE)%Z then n = Z.of_nat (length t) + 1
     else n ≤ 2 * Z.of_nat (length t))%Z ∧
    format_message malloc_ok (Some t) w = Ok ((true, Some (fresh_loc (lheap w))),
      with_block (fresh_loc (lheap w)) n (t ++ [NUL]) w).
Proof.
  intros Hm Ht Hlt. assert (Hi : (Z.of_nat (length t) ≤ int_max)%Z) by (unfold int_max; lia).
  destruct (Z.ltb_spec (Z.of_nat (length t)) LOG_MESSAGE_SIZE) as [Hs|Hs].
  - eexists. split; [|split; [reflexivity|by apply format_message_short]]. lia.
  - destruct (grow_finds grow_fuel LOG_MESSAGE_SIZE (Some t) w) as (n&Hn&E); [done|..].
    + rewrite vsnprintf_res_text by done. unfold LOG_MESSAGE_SIZE in *. lia.
    + by rewrite vsnprintf_res_text.
    + unfold LOG_MESSAGE_SIZE, grow_fuel. lia.
    + rewrite vsnprintf_res_text in Hn, E by done. exists n. split; [lia|]. split; [lia|].
      rewrite format_message_long by done. rewrite (bind_ok _ _ _ _ _ E). cbn beta iota.
      rewrite (proj2 (Z.ltb_ge _ 0)) by lia. by rewrite vsnprintf_fits by lia.
Qed.

(** C15: Formatting a message of any length, when there is memory.  A message is put in
    one new block, with its NUL, of its own size when it is short and otherwise of at
    most twice its length, and what was allocated on the way is freed; between 2^30 and
    INT_MAX bytes the doubled size overflows; and when the message is longer or the
    formatting fails, the answer is false and nothing stays allocated. *)
Theorem format_message_correct t w : (∀ h n, malloc_ok h n = true) → (NUL ∉ t) →
  let len := Z.of_nat (length t) in
  ((len < 2 ^ 30)%Z → ∃ n, (len < n)%Z ∧
    (if (len <? LOG_MESSAGE_SIZE)%Z then n = len + 1 else n ≤ 2 * len)%Z ∧
    format_message malloc_ok (Some t) w = Ok ((true, Some (fresh_loc (lheap w))),
      with_block (fresh_loc (lheap w)) n (t ++ [NUL]) w)) ∧
  ((2 ^ 30 ≤ len ≤ int_max)%Z → format_message malloc_ok (Some t) w = Fault FOverflow) ∧
  (∀ text, text = None ∨ text = Some t ∧ (int_max < len)%Z → ∃ data,
    format_message malloc_ok text w =
      Ok ((false, data), logged [LPerror (bytes "vsnprintf error :")] w)).
Proof.
  intros Hm Ht len. split; [|split].
  - by apply format_message_fits.
  - intros Hl. rewrite format_message_long by (unfold LOG_MESSAGE_SIZE; lia).
    unfold mbind, M_bind. change LOG_MESSAGE_SIZE with (2 ^ (30 - Z.of_nat 22))%Z.
    rewrite grow_overflows; [done|done|lia|unfold grow_fuel; lia|].
    rewrite vsnprintf_res_text by lia. lia.
  - intros text [->|[-> Hl]]; (apply format_message_fails; [done|]); [done|].
    unfold vsnprintf_res. by rewrite (proj2 (Z.leb_gt _ _)).
Qed.

Lemma cstr_spec l s : cstr l 0 = Ok s → (NUL ∉ s) ∧ ∃ rest, l = s ++ NUL :: rest.
Proof.
  unfold cstr. rewrite drop_0. destruct (until_nul l) as [s'|] eqn:E; [|done]. intros [= ->].
  revert s E. induction l as [|b l IH]; intros s E; simpl in E; [done|].
  destruct (decide (b = NUL)) as [->|Hb]; [injection E as <-; split; [by intros ?%elem_of_nil|by exists l]|].
  destruct (until_nul l) as [s'|]; [|done]. injection E as <-.
  destruct (IH s' eq_refl) as (Hn & rest & ->). split; [set_solver|by exists rest].
Qed.

Lemma join_no_nul args : Forall (λ a, NUL ∉ a) args → NUL ∉ join args.
Proof.
  induction args as [|a args IH]; [by intros _ ?%elem_of_nil|]. intros Ha.
  apply Forall_cons in Ha as [Ha Has]. destruct args as [|b args]; [done|].
  specialize (IH Has). change (join (a :: b :: args)) with (a ++ SPACE :: join (b :: args)).
  rewrite elem_of_app, elem_of_cons. by intros [?|[?|?]].
Qed.

(** The error function of the Lua module logs its arguments with spaces between, up
    to the first NUL, when that is less than 2^30 bytes and there is memory, and gives
    back what it allocated. *)
Lemma lerror_logs args text w : (∀ h n, malloc_ok h n = true) → args ≠ [] →
  cstr (join args ++ [NUL]) 0 = Ok text → (Z.of_nat (length text) < 2 ^ 30)%Z →
  lerror malloc_ok args w = Ok (0%Z, logged [LError text] w) ∧
  (Forall (λ a, NUL ∉ a) args → text = join args).
Proof.
  intros Hm Hne Ht Hl. destruct (cstr_spec _ _ Ht) as (Hn & rest & Erest). split.
  - destruct (format_message_fits text w Hm Hn Hl) as (n & _ & _ & E).
    unfold lerror. destruct args as [|a args]; [done|].
    rewrite (bind_ok _ _ _ text w) by (unfold lift; by rewrite Ht).
    rewrite (bind_ok _ _ _ _ _ E). cbn beta iota. cbn [when].
    rewrite (bind_ok _ _ _ tt (logged [LError text] w)); [done|].
    rewrite (bind_ok _ _ _ _ _ (read_block _ _ _ _ Hn)).
    exact (free_block _ _ _ (logged [LError text] w) (lookup_fresh _)).
  - intros Ha. assert (Hj : NUL ∉ join args) by by apply join_no_nul.
    rewrite cstr_app in Ht by done. by injection Ht.
Qed.

End GlogSpec.

(** ** The logger service *)

(** The digits of [%08x] are read back. *)
Lemma hex_digit_in z : (0 ≤ z < 16)%Z → digit_in 16 (hex_digit z) = Some z ∧
  is_space (hex_digit z) = false ∧ hex_digit z ∉ [x2d; x2b; x78; x58; NUL].
Proof.
  intros Hz.
  assert (H : Forall (λ z, digit_in 16 (hex_digit z) = Some z ∧ is_space (hex_digit z) = false ∧
    hex_digit z ∉ [x2d; x2b; x78; x58; NUL]) (Z.of_nat <$> seq 0 16)).
  { apply (bool_decide_unpack _). by vm_compute. }
  rewrite Forall_forall in H. apply H, list_elem_of_fmap. exists (Z.to_nat z).
  rewrite elem_of_seq. lia.
Qed.

Lemma parse_digits_snoc base a s b d : Forall (λ b, is_Some (digit_in base b)) s →
  digit_in base b = Some d →
  parse_digits base a (s ++ [b]) = (parse_digits base a s * base + d)%Z.
Proof.
  intros Hs Hb. revert a. induction s as [|c s IH]; intros a; simpl; [by rewrite Hb|].
  apply Forall_cons in Hs as [[x ->] Hs]. by apply IH.
Qed.

Lemma hex_digits_good n z : (0 ≤ z)%Z → Forall (λ b, is_Some (digit_in 16 b) ∧ is_space b = false ∧
  b ∉ [x2d; x2b; x78; x58; NUL]) (hex_digits n z).
Proof.
  revert z. induction n as [|n IH]; intros z Hz; simpl; [constructor|].
  apply Forall_app. split; [apply IH, Z.div_pos; lia|]. apply Forall_singleton.
  destruct (hex_digit_in (z `mod` 16)) as (E&Hsp&Hne); [apply Z.mod_pos_bound; lia|].
  rewrite E. by split; [eexists|].
Qed.

Lemma hex_digits_parse n z : (0 ≤ z)%Z →
  parse_digits 16 0 (hex_digits n z) = (z `mod` 16 ^ Z.of_nat n)%Z.
Proof.
  revert z. induction n as [|n IH]; intros z Hz; [simpl; by rewrite Z.mod_1_r|].
  cbn [hex_digits]. assert (Hm := Z.mod_pos_bound z 16 ltac:(lia)).
  rewrite (parse_digits_snoc _ _ _ _ (z `mod` 16)%Z).
  - rewrite IH by (apply Z.div_pos; lia). rewrite Nat2Z.inj_succ, Z.pow_succ_r by lia.
    rewrite Z.rem_mul_r by lia. lia.
  - eapply Forall_impl; [apply hex_digits_good, Z.div_pos; lia|]. by intros b [].
  - by apply hex_digit_in.
Qed.

Lemma hex_digits_length n z : length (hex_digits n z) = n.
Proof. revert z. induction n as [|n IH]; intros z; simpl; [done|]. rewrite length_app, IH. simpl. lia. Qed.

Lemma strtoul16_fmt_08x z : (0 ≤ z < 4294967296)%Z → strtoul16 (fmt_08x z) = z.
Proof.
  intros Hz. unfold fmt_08x. pose proof (hex_digits_good 8 z ltac:(lia)) as Hg.
  pose proof (hex_digits_length 8 z) as Hl. pose proof (hex_digits_parse 8 z ltac:(lia)) as Hp.
  rewrite Z.mod_small in Hp by lia. revert Hg Hl Hp. generalize (hex_digits 8 z). intros s Hg Hl Hp.
  destruct s as [|b [|c s]]; [done|done|]. apply Forall_cons in Hg as [(_&Hb&Hb') Hg].
  apply Forall_cons in Hg as [(_&_&Hc) _]. unfold strtoul16.
  assert (skip_spaces (b :: c :: s) = b :: c :: s) as -> by (simpl; by rewrite Hb).
  assert (parse_sign (b :: c :: s) = (false, b :: c :: s)) as ->.
  { simpl. by rewrite !decide_False by set_solver. }
  assert (strip_0x (b :: c :: s) = b :: c :: s) as ->.
  { unfold strip_0x. destruct s as [|d s]; [done|].
    rewrite !(bool_decide_eq_false_2 (c = _)) by set_solver. by rewrite andb_false_r. }
  cbv beta iota. rewrite Hp. unfold ulong_max. by rewrite (proj2 (Z.ltb_ge _ _)) by lia.
Qed.

(** What [_logger] reads of a message before it logs it. *)
Lemma prefix_4_ok n text rest : ∃ s, prefix_4 n (text ++ NUL :: rest) = Ok s.
Proof.
  revert n. induction text as [|b text IH]; intros [|n]; simpl; eauto.
  destruct (decide (b = NUL)); [eauto|]. destruct (IH n) as [s ->]. simpl. eauto.
Qed.

(** C35: A line of the log.  The logger service logs the string of a message, after the
    handle of the service that sent it in eight hexadecimal digits, which read back as
    the handle; a message without a sender has no prefix.  The text ends at the first
    NUL, whatever the size of the message; without one it is read beyond its end. *)
Theorem logger_line type session source text rest sz w : (0 ≤ source < 4294967296)%Z →
  NUL ∉ text →
  _logger type session source (text ++ NUL :: rest) sz w =
    Ok (0%Z, logged [LInfo ((if (source =? 0)%Z then [] else
      bytes "[" ++ fmt_08x source ++ bytes "] ") ++ text)] w) ∧
  length (fmt_08x source) = 8 ∧ strtoul16 (fmt_08x source) = source ∧
  _logger type session source text sz w = Fault FBounds.
Proof.
  intros Hs Ht. split; [|split; [apply hex_digits_length|split; [by apply strtoul16_fmt_08x|]]].
  - destruct (prefix_4_ok 4 text rest) as [p Hp]. unfold _logger.
    rewrite (bind_ok _ _ _ p w) by (unfold lift; by rewrite Hp).
    rewrite (bind_ok _ _ _ text w) by (unfold lift; by rewrite cstr_app).
    destruct (source =? 0)%Z; cbn [negb]; [done|]. by rewrite <- !(assoc_L (++)).
  - unfold _logger, mbind, M_bind, lift. destruct (prefix_4 4 text) as [p|f] eqn:E.
    + unfold cstr. by rewrite drop_0, until_nul_none.
    + f_equal. clear -E. revert f E. generalize 4. induction text as [|b text IH]; intros [|n] f E;
        simpl in E; try congruence. destruct (decide (b = NUL)); [congruence|].
      destruct (prefix_4 n text) eqn:E'; simpl in E; [congruence|]. injection E as <-. by eapply IH.
Qed.

(** Starting the logger.  With its three settings the logger sets the flags of glog
    from them, logs to stderr just when the name is stdout or did so before, and
    registers its callback and its name; without one of them it uses a NULL. *)
Lemma logger_init_correct getenv w :
  logger_init getenv w =
    match getenv (bytes "log_name"), getenv (bytes "logbufsecs"), getenv (bytes "log_dir") with
    | Some name, Some secs, Some dir => Ok (0%Z,
        LWorld (lheap w)
          (Flags dir (atoi secs) 10 (bool_decide (name = bytes "stdout") || logtostderr (lflags w)))
          (llog w ++ [LInit name; LCallback; LCommand (bytes "REG") (bytes ".logger")]))
    | _, _, _ => Fault FNull
    end.
Proof.
  unfold logger_init. destruct (getenv (bytes "log_name")) as [name|]; [|done].
  destruct (decide (name = bytes "stdout")) as [E|E].
  - unfold mbind, M_bind, need, modify, mret, M_ret. rewrite (decide_True _ _ E), bool_decide_eq_true_2 by done.
    destruct (getenv (bytes "logbufsecs")) as [secs|]; [|done].
    destruct (getenv (bytes "log_dir")) as [dir|]; [|done].
    unfold log_emit, modify. cbn [lheap lflags llog set_lflags logtostderr orb].
    by rewrite <- !(assoc_L (++)).
  - unfold mbind, M_bind, need, modify, mret, M_ret. rewrite (decide_False _ _ E), bool_decide_eq_false_2 by done.
    destruct (getenv (bytes "logbufsecs")) as [secs|]; [|done].
    destruct (getenv (bytes "log_dir")) as [dir|]; [|done].
    unfold log_emit, modify. cbn [lheap lflags llog set_lflags logtostderr orb].
    by rewrite <- !(assoc_L (++)).
Qed.

(** ** Witnesses *)

Definition demo_log : lworld := LWorld ∅ (Flags [] 0 0 false) [].

Lemma format_message_correct_witness : let t := replicate 300 x61 in
  let len := Z.of_nat (length t) in
  ((len < 2 ^ 30)%Z → ∃ n, (len < n)%Z ∧
    (if (len <? LOG_MESSAGE_SIZE)%Z then n = len + 1 else n ≤ 2 * len)%Z ∧
    format_message (λ _ _, true) (Some t) demo_log = Ok ((true, Some (fresh_loc (lheap demo_log))),
      with_block (fresh_loc (lheap demo_log)) n (t ++ [NUL]) demo_log)) ∧
  ((2 ^ 30 ≤ len ≤ int_max)%Z → format_message (λ _ _, true) (Some t) demo_log = Fault FOverflow) ∧
  (∀ text, text = None ∨ text = Some t ∧ (int_max < len)%Z → ∃ data,
    format_message (λ _ _, true) text demo_log =
      Ok ((false, data), logged [LPerror (bytes "vsnprintf error :")] demo_log)).
Proof.
  apply (format_message_correct (λ _ _, true)); [done|].
  by intros [? _]%elem_of_replicate.
Defined.

Lemma lerror_logs_witness :
  lerror (λ _ _, true) [bytes "a"; bytes "b"] demo_log =
    Ok (0%Z, logged [LError (bytes "a b")] demo_log) ∧
  (Forall (λ a, NUL ∉ a) [bytes "a"; bytes "b"] → bytes "a b" = join [bytes "a"; bytes "b"]).
Proof. apply (lerror_logs (λ _ _, true)); [done|done|reflexivity|vm_compute; reflexivity]. Defined.

Lemma logger_line_witness :
  _logger 0 0 16777226 (bytes "hi" ++ NUL :: [x7a]) 4 demo_log =
    Ok (0%Z, logged [LInfo ((if (16777226 =? 0)%Z then [] else
      bytes "[" ++ fmt_08x 16777226 ++ bytes "] ") ++ bytes "hi")] demo_log) ∧
  length (fmt_08x 16777226) = 8 ∧ strtoul16 (fmt_08x 16777226) = 16777226%Z ∧
  _logger 0 0 16777226 (bytes "hi") 4 demo_log = Fault FBounds.
Proof.
  apply (logger_line 0 0 16777226 (bytes "hi") [x7a] 4); [lia|].
  apply (bool_decide_unpack _). by vm_compute.
Defined.

(** A short and a long message. *)
Lemma demo_lengths :
  (λ n, match format_message (λ _ _, true) (Some (replicate n x61)) demo_log with
        | Ok (_, w) => lb_size <$> lheap w !! fresh_loc (lheap demo_log)
        | Fault _ => None end) <$> [3; 255; 256; 600] = [Some 4; Some 256; Some 512; Some 1024]%Z.
Proof. vm_compute. reflexivity. Qed.
