(* ===== verification/Dict.v ===== *)
(** * Dict: the beginning of a dictionary (redis3.0_learn/dict/dict.h, dict.c)

    The data, the macros and the three functions that dict.c has.  [dictExpand], which
    is declared only, is a parameter.  The macros are read as they are meant: dictSetKey
    with the backslash that its fifth line lacks, and valDup as the valueDup of the
    structure.  A pointer is a number, 0 being NULL. *)
From stdpp Require Import gmap.
From Stdlib Require Import ZArith.
From S2P Require Import Prelude.

(** ** Data *)

Definition DICT_OK : Z := 0.
Definition DICT_ERR : Z := 1.
Definition DICT_HT_INITIAL_SIZE : Z := 4.

(** The union [v] is its 64 bits, as the unsigned member reads them. *)
Record dictEntry := Entry { key : Z; v : Z; next : option loc }.

(** A function that is not set is [None]; the destructors are named by what they are
    called with. *)
Record dictType := DictType {
  hashFunction : option (Z → Z);
  keyDup : option (Z → Z → Z);
  valueDup : option (Z → Z → Z);
  keyCompare : option (Z → Z → Z → Z);
  keyDestructor : bool;
  valDestructor : bool
}.

Record dictht := Dictht { table : Z; size : Z; sizemask : Z; used : Z }.

(** A member that was not initialised has no value. *)
Record dict := Dict {
  type : option dictType;
  privdata : option Z;
  ht0 : option dictht;
  ht1 : option dictht;
  rehashidx : option Z;
  iterators : option Z
}.

Inductive dict_event :=
  | FreeKey (privdata key : Z)
  | FreeVal (privdata val : Z).

Record dworld := DWorld {
  d : dict; entries : gmap loc dictEntry; dict_can_resize : Z; dlog : list dict_event
}.

Definition dict_force_resize_ratio : Z := 5.

Definition s64 (z : Z) : Z := (z + 9223372036854775808) `mod` 18446744073709551616 - 9223372036854775808.

Definition set_d x (w : dworld) := DWorld x (entries w) (dict_can_resize w) (dlog w).
Definition set_entries x (w : dworld) := DWorld (d w) x (dict_can_resize w) (dlog w).
Definition dict_emit (e : dict_event) : M dworld unit :=
  modify (λ w, DWorld (d w) (entries w) (dict_can_resize w) (dlog w ++ [e])).

(** A member that is read. *)
Definition rd_field {A} (f : dict → option A) : M dworld A :=
  w ← gets id; match f (d w) with Some x => mret x | None => fail FUninit end.
Definition entry (he : option loc) : M dworld dictEntry :=
  match he with
  | None => fail FNull
  | Some l => w ← gets id; match entries w !! l with Some e => mret e | None => fail FDangling end
  end.
Definition upd_entry (he : option loc) (f : dictEntry → dictEntry) : M dworld unit :=
  e ← entry he;
  match he with
  | None => fail FNull
  | Some l => modify (λ w, set_entries (<[l := f e]> (entries w)) w)
  end.

Definition set_key k (e : dictEntry) := Entry k (v e) (next e).
Definition set_v x (e : dictEntry) := Entry (key e) x (next e).

(** ** Macros *)

Definition dictFreeVal (he : option loc) : M dworld unit :=
  ty ← rd_field type;
  when (valDestructor ty) (p ← rd_field privdata; e ← entry he; dict_emit (FreeVal p (v e))).

Definition dictSetVal (he : option loc) (val : Z) : M dworld unit :=
  ty ← rd_field type;
  match valueDup ty with
  | Some dup => p ← rd_field privdata; upd_entry he (set_v (dup p val))
  | None => upd_entry he (set_v val)
  end.

Definition dictSetSignedIntegerVal (he : option loc) (val : Z) : M dworld unit :=
  upd_entry he (set_v (u64 val)).
Definition dictSetUnsignedIntegerVal (he : option loc) (val : Z) : M dworld unit :=
  upd_entry he (set_v (u64 val)).

Definition dictFreeKey (he : option loc) : M dworld unit :=
  ty ← rd_field type;
  when (keyDestructor ty) (p ← rd_field privdata; e ← entry he; dict_emit (FreeKey p (key e))).

Definition dictSetKey (he : option loc) (k : Z) : M dworld unit :=
  ty ← rd_field type;
  match keyDup ty with
  | Some dup => p ← rd_field privdata; upd_entry he (set_key (dup p k))
  | None => upd_entry he (set_key k)
  end.

Definition dictCompareKeys (key1 key2 : Z) : M dworld bool :=
  ty ← rd_field type;
  match keyCompare ty with
  | Some cmp => p ← rd_field privdata; mret (negb (cmp p key1 key2 =? 0)%Z)
  | None => mret (key1 =? key2)%Z
  end.

Definition dictHashKey (k : Z) : M dworld Z :=
  ty ← rd_field type;
  match hashFunction ty with Some h => mret (u32 (h k)) | None => fail FNull end.

Definition dictGetKey (he : option loc) : M dworld Z := e ← entry he; mret (key e).
Definition dictGetVal (he : option loc) : M dworld Z := e ← entry he; mret (v e).
Definition dictGetSignedIntegerVal (he : option loc) : M dworld Z := e ← entry he; mret (s64 (v e)).
Definition dictGetUnsignedIntegerVal (he : option loc) : M dworld Z := e ← entry he; mret (v e).

Definition dictSlots : M dworld Z :=
  a ← rd_field ht0; b ← rd_field ht1; mret (u64 (size a + size b)).
Definition dictSize : M dworld Z :=
  a ← rd_field ht0; b ← rd_field ht1; mret (u64 (used a + used b)).
Definition dictIsRehashing : M dworld bool := i ← rd_field rehashidx; mret (negb (i =? -1)%Z).

(** ** dict.c *)

Section Dict.
Context (dictExpand : Z → M dworld Z).

Definition _dictExpandIfNeeded : M dworld Z :=
  r ← dictIsRehashing;
  if (r : bool) then mret DICT_OK
  else
    h ← rd_field ht0;
    if (size h =? 0)%Z then dictExpand DICT_HT_INITIAL_SIZE
    else
      w ← gets id;
      if ((size h <=? used h) &&
          (negb (dict_can_resize w =? 0) || (dict_force_resize_ratio <? used h `div` size h)))%Z
      then dictExpand (u64 (used h * 2))
      else mret DICT_OK.

Definition _dictReset : dictht := Dictht 0 0 0 0.

(** The function ends without a [return]: it has no value. *)
Definition _dictInit (ty : dictType) (privDataPtr : Z) : M dworld (option Z) :=
  modify (λ w, set_d (Dict (type (d w)) (privdata (d w)) (Some _dictReset) (Some _dictReset)
    (rehashidx (d w)) (iterators (d w))) w);;
  modify (λ w, set_d (Dict (Some ty) (privdata (d w)) (ht0 (d w)) (ht1 (d w))
    (rehashidx (d w)) (iterators (d w))) w);;
  mret None.

End Dict.
