(* ===== verification/DictSpec.v ===== *)
(** * DictSpec: the load of a dictionary, its values, and what its initialisation lacks *)
From stdpp Require Import gmap.
From Stdlib Require Import ZArith.
From S2P Require Import Prelude Dict.

(** What dictExpand promises for a table that is not being rehashed: an empty table
    gets at least the size that is asked for, any other starts its rehashing. *)
Class DictExpandOk (dictExpand : Z → M dworld Z) : Prop := {
  expand_ok n w h : ht0 (d w) = Some h → rehashidx (d w) = Some (-1)%Z → (used h ≤ n)%Z →
    wp (dictExpand n) (λ r w', r = DICT_OK ∧
      if (size h =? 0)%Z then
        ∃ h', ht0 (d w') = Some h' ∧ (n ≤ size h')%Z ∧ used h' = used h ∧
          rehashidx (d w') = Some (-1)%Z
      else rehashidx (d w') = Some 0%Z) w
}.

(** The load that is left: less than one entry per slot, or less than six where
    resizing is disabled. *)
Definition light (can_resize : Z) (h : dictht) : Prop :=
  (0 < size h)%Z ∧ ((used h < size h)%Z ∨ can_resize = 0%Z ∧ (used h < 6 * size h)%Z).

Section DictSpec.
Context (dictExpand : Z → M dworld Z) `{!DictExpandOk dictExpand}.

Lemma wp_rd_field {A} (f : dict → option A) x (Q : A → dworld → Prop) w :
  f (d w) = Some x → Q x w → wp (rd_field f) Q w.
Proof.
  intros E HQ. unfold rd_field, mbind, M_bind, gets, wp, safely. cbn [id].
  change (id w) with w. by rewrite E.
Qed.

(** The load.  After _dictExpandIfNeeded a table that is not rehashed has slots and
    is lightly loaded, or its rehashing was started; a table in rehashing is left alone.
    The size that is asked for does not wrap below 2^63 entries. *)
Lemma dict_expand_if_needed w h i : ht0 (d w) = Some h → rehashidx (d w) = Some i →
  (0 ≤ size h)%Z → (0 ≤ used h < 2 ^ 63)%Z → (size h = 0 → used h ≤ DICT_HT_INITIAL_SIZE - 1)%Z →
  wp (_dictExpandIfNeeded dictExpand) (λ r w', r = DICT_OK ∧
    (if (i =? -1)%Z then
       rehashidx (d w') = Some 0%Z ∨
       ∃ h', ht0 (d w') = Some h' ∧ rehashidx (d w') = Some (-1)%Z ∧ used h' = used h ∧
         light (dict_can_resize w) h'
     else w' = w)) w.
Proof.
  intros Hh Hi Hs Hu H0. unfold _dictExpandIfNeeded, dictIsRehashing.
  apply wp_bind, wp_bind, (wp_rd_field _ i), wp_ret; [done|].
  destruct (Z.eqb_spec i (-1)) as [->|Hne]; cbn [negb]; [|by apply wp_ret].
  apply wp_bind, (wp_rd_field _ h); [done|]. destruct (Z.eqb_spec (size h) 0) as [E|E].
  - unfold DICT_HT_INITIAL_SIZE in *. eapply wp_mono; [apply (expand_ok 4 w h); [done|done|lia]|].
    intros r w'. rewrite E. cbn [Z.eqb]. intros (-> & h' & E1 & E2 & E3 & E4).
    split; [done|]. right. exists h'. split; [done|]. split; [done|]. split; [done|].
    split; [lia|left; lia].
  - apply wp_bind, wp_gets. change (id w) with w.
    destruct (Z.leb_spec (size h) (used h)) as [Hle|Hgt]; cbn [andb].
    + assert (Hex : wp (dictExpand (u64 (used h * 2))) (λ r w', r = DICT_OK ∧
        (rehashidx (d w') = Some 0%Z ∨ ∃ h', ht0 (d w') = Some h' ∧
          rehashidx (d w') = Some (-1)%Z ∧ used h' = used h ∧ light (dict_can_resize w) h')) w).
      { rewrite u64_id by lia. eapply wp_mono; [apply (expand_ok _ w h); [done|done|lia]|].
        intros r w'. rewrite (proj2 (Z.eqb_neq _ _)) by done. intros [-> ?]. split; [done|by left]. }
      destruct (Z.eqb_spec (dict_can_resize w) 0) as [Ec|Ec]; cbn [negb orb]; [|exact Hex].
      destruct (Z.ltb_spec dict_force_resize_ratio (used h `div` size h)) as [Hr|Hr]; [exact Hex|].
      apply wp_ret. split; [done|]. right. exists h. do 3 (split; [done|]). split; [lia|]. right.
      split; [done|]. unfold dict_force_resize_ratio in Hr.
      pose proof (Z.mod_pos_bound (used h) (size h) ltac:(lia)).
      pose proof (Z.div_mod (used h) (size h) ltac:(lia)). nia.
    + apply wp_ret. split; [done|]. right. exists h. do 3 (split; [done|]). split; [lia|left; lia].
Qed.

End DictSpec.

(** A dictionary in memory that was not initialised. *)
Definition raw_dict : dict := Dict None None None None None None.

(** _dictInit leaves privdata, rehashidx and iterators without a value: the tables are
    empty, but the first check of the load uses a value that is not there, and it has no
    result. *)
Lemma dict_init_incomplete dictExpand ty p w : d w = raw_dict →
  ∃ w', _dictInit ty p w = Ok (None, w') ∧
    dictSize w' = Ok (0%Z, w') ∧ dictSlots w' = Ok (0%Z, w') ∧
    _dictExpandIfNeeded dictExpand w' = Fault FUninit ∧ privdata (d w') = None.
Proof.
  destruct w as [d0 es c l]. cbn [d]. intros ->. eexists. split; [reflexivity|]. done.
Qed.

(** The members of the union share their bits. *)
Lemma dict_union he n e w : entries w !! he = Some e → (- 2 ^ 63 ≤ n < 2 ^ 63)%Z →
  (dictSetSignedIntegerVal (Some he) n;; dictGetSignedIntegerVal (Some he)) w =
    Ok (n, set_entries (<[he := set_v (u64 n) e]> (entries w)) w) ∧
  (dictSetSignedIntegerVal (Some he) n;; dictGetUnsignedIntegerVal (Some he)) w =
    Ok (n `mod` 2 ^ 64, set_entries (<[he := set_v (u64 n) e]> (entries w)) w)%Z.
Proof.
  intros E Hn. unfold dictSetSignedIntegerVal, dictGetSignedIntegerVal, dictGetUnsignedIntegerVal,
    upd_entry, entry, mbind, M_bind, gets, modify, mret, M_ret. change (id w) with w. rewrite E.
  change (id (set_entries ?a ?b)) with (set_entries a b). cbn [set_entries entries].
  rewrite lookup_insert_eq. cbn [v set_v]. split; [|done]. f_equal. f_equal.
  unfold s64, u64. change (2 ^ 63)%Z with 9223372036854775808%Z in Hn.
  rewrite Z.add_mod_idemp_l by lia. rewrite Z.mod_small by lia. lia.
Qed.

(** ** Witness *)

(** A dictExpand that meets the interface. *)
Definition demo_expand (n : Z) : M dworld Z :=
  modify (λ w, match ht0 (d w) with
    | Some h =>
      if (size h =? 0)%Z then
        set_d (Dict (type (d w)) (privdata (d w)) (Some (Dictht 1 n (n - 1) (used h))) (ht1 (d w))
          (rehashidx (d w)) (iterators (d w))) w
      else
        set_d (Dict (type (d w)) (privdata (d w)) (Some h) (Some (Dictht 2 n (n - 1) 0))
          (Some 0%Z) (iterators (d w))) w
    | None => w
    end);;
  mret DICT_OK.

#[global] Instance demo_expand_ok : DictExpandOk demo_expand.
Proof.
  split. intros n w h E Hi Hn. unfold demo_expand. apply wp_bind, wp_modify, wp_ret.
  split; [done|]. rewrite E. destruct (size h =? 0)%Z; [|done].
  eexists. split; [done|]. cbn [size used set_d d rehashidx]. split; [lia|done].
Qed.

Definition demo_dict : dworld :=
  DWorld (Dict None (Some 0%Z) (Some (Dictht 1 4 3 4)) (Some _dictReset) (Some (-1)%Z) (Some 0%Z))
    ∅ 1 [].

Lemma dict_expand_if_needed_witness :
  wp (_dictExpandIfNeeded demo_expand) (λ r w', r = DICT_OK ∧
    (if (-1 =? -1)%Z then
       rehashidx (d w') = Some 0%Z ∨
       ∃ h', ht0 (d w') = Some h' ∧ rehashidx (d w') = Some (-1)%Z ∧ used h' = 4%Z ∧
         light (dict_can_resize demo_dict) h'
     else w' = demo_dict)) demo_dict.
Proof.
  apply (dict_expand_if_needed demo_expand demo_dict (Dictht 1 4 3 4) (-1)%Z); try done.
Defined.
