(* ===== verification/Lua.v ===== *)
(** * Lua: the programs that embed Lua (lua_test/lua_and_c/main.c, C_module_test/module.c,
    and the module table of testglog/log.cpp)

    The C functions over the Lua API, a parameter in two parts: [stack_api], what a C
    function that Lua calls works with, and [lua_api], with the calls that run Lua code.
    A number of Lua is a double; an error of Lua is the fault [FError], which leaves the
    C function. *)
From stdpp Require Import list strings.
From Stdlib Require Import ZArith Strings.Byte SpecFloat.
From S2P Require Import Prelude Bytes CString Double.

(** ** The API *)

(** The C functions that are given to Lua. *)
Inductive cfunction :=
  | Cfunc_add
  | Module_add
  | Module_sub
  | Linit
  | Lerror.

Record stack_api := StackApi {
  lstate : Type;
  lua_gettop : M lstate Z;
  lua_settop : Z → M lstate unit;
  lua_pushinteger : Z → M lstate unit;
  lua_pushnumber : double → M lstate unit;
  lua_pushstring : str → M lstate unit;
  lua_isnumber : Z → M lstate Z;
  lua_isstring : Z → M lstate Z;
  lua_tointeger : Z → M lstate Z;
  lua_tonumber : Z → M lstate double;
  lua_tostring : Z → M lstate str;
  luaL_checknumber : Z → M lstate double;
  luaL_checkversion : M lstate unit;
  lua_getglobal : str → M lstate unit;
  lua_getfield : Z → str → M lstate unit;
  lua_gettable : Z → M lstate unit;
  lua_createtable : Z → Z → M lstate unit;
  luaL_setfuncs : list (str * cfunction) → Z → M lstate unit;
  lua_register : str → cfunction → M lstate unit
}.

Record lua_api := LuaApi {
  base :> stack_api;
  luaL_newstate : option (lstate base);
  luaL_openlibs : M (lstate base) unit;
  luaL_dofile : str → M (lstate base) Z;
  lua_pcall : Z → Z → Z → M (lstate base) Z;
  lua_close : M (lstate base) unit;
  lua_printed : lstate base → list str    (* the lines that the scripts printed *)
}.

(** ** C functions for Lua *)

Section Functions.
Context (A : stack_api).

(** The loop of [cfunc_add] with [n] arguments left from the [i]-th on. *)
Fixpoint add_loop (n : nat) (i : Z) (sum : double) : M (lstate A) double :=
  match n with
  | O => mret sum
  | S n' => x ← lua_tonumber A i; add_loop n' (i + 1) (dadd sum x)
  end.

Definition cfunc_add : M (lstate A) Z :=
  n ← lua_gettop A;
  sum ← add_loop (Z.to_nat n) 1 dzero;
  lua_pushnumber A sum;;
  mret 1%Z.

Definition module_add : M (lstate A) Z :=
  arg1 ← luaL_checknumber A 1;
  arg2 ← luaL_checknumber A 2;
  let ret := dadd arg1 arg2 in
  lua_pushnumber A ret;;
  lua_pushstring A (bytes "hello world");;
  mret 2%Z.

Definition module_sub : M (lstate A) Z :=
  arg1 ← luaL_checknumber A 1;
  arg2 ← luaL_checknumber A 2;
  let ret := dsub arg1 arg2 in
  lua_pushnumber A ret;;
  mret 1%Z.

(** The entries of the module before the one that ends the list. *)
Definition module_core_aa : list (str * cfunction) :=
  [(bytes "madd", Module_add); (bytes "msub", Module_sub)].

Definition luaopen_module_core_aa : M (lstate A) Z :=
  lua_createtable A 0 (Z.of_nat (length module_core_aa));;
  luaL_setfuncs A module_core_aa 0;;
  mret 1%Z.

Definition beelog : list (str * cfunction) := [(bytes "init", Linit); (bytes "error", Lerror)].

Definition luaopen_beelog : M (lstate A) Z :=
  luaL_checkversion A;;
  lua_createtable A 0 (Z.of_nat (length beelog));;
  luaL_setfuncs A beelog 0;;
  mret 1%Z.

End Functions.

(** ** main.c *)

Section Main.
Context (A : lua_api).

(** The state [L], NULL when there is no memory for it, and what was printed, by the
    program and by the scripts. *)
Record lmain := LMain { L : option (lstate A); out : list str }.

Definition on_lua {X} (m : M (lstate A) X) : M lmain X := λ w,
  match L w with
  | None => Fault FNull
  | Some s =>
    match m s with
    | Ok (x, s') =>
      Ok (x, LMain (Some s') (out w ++ drop (length (lua_printed A s)) (lua_printed A s')))
    | Fault f => Fault f
    end
  end.

Definition printf (s : str) : M lmain unit := modify (λ w, LMain (L w) (out w ++ [s ++ [x0a]])).

(** What [%s] prints of a string of Lua, whose bytes are followed by a zero. *)
Definition c_text (s : str) : str := default s (until_nul s).

Definition CcallLua : M lmain unit :=
  modify (λ w, LMain (luaL_newstate A) (out w));;
  on_lua (luaL_openlibs A);;
  on_lua (luaL_dofile A (bytes "module.lua"));;
  on_lua (lua_getglobal A (bytes "Obj1"));;
  b ← on_lua (lua_isnumber A (-1));
  when (b =? 1)%Z
    (n ← on_lua (lua_tointeger A (-1)); printf (bytes "Obj1=" ++ fmt_d (s32 n)));;
  on_lua (lua_settop A 0);;
  on_lua (lua_getglobal A (bytes "Add"));;
  on_lua (lua_pushinteger A 5);;
  on_lua (lua_pushinteger A 10);;
  on_lua (lua_pcall A 2 1 0);;
  b ← on_lua (lua_isnumber A (-1));
  when (b =? 1)%Z
    (n ← on_lua (lua_tointeger A (-1)); printf (bytes "Add ret=" ++ fmt_d (s32 n)));;
  on_lua (lua_settop A 0);;
  on_lua (lua_getglobal A (bytes "tt"));;
  on_lua (lua_getfield A 1 (bytes "show"));;
  on_lua (lua_pushinteger A 99);;
  on_lua (lua_pcall A 1 0 0);;
  on_lua (lua_getfield A 1 (bytes "name"));;
  b ← on_lua (lua_isstring A (-1));
  when (b =? 1)%Z
    (s ← on_lua (lua_tostring A (-1)); printf (bytes "tt.name=" ++ c_text s));;
  on_lua (lua_pushstring A (bytes "name"));;
  on_lua (lua_gettable A 1);;
  b ← on_lua (lua_isstring A (-1));
  when (b =? 1)%Z
    (s ← on_lua (lua_tostring A (-1)); printf (bytes "tt[name]=" ++ c_text s));;
  on_lua (lua_pushinteger A 1);;
  on_lua (lua_gettable A 1);;
  b ← on_lua (lua_isnumber A (-1));
  when (b =? 1)%Z
    (n ← on_lua (lua_tointeger A (-1)); printf (bytes "tt[1]=" ++ fmt_d (s32 n)));;
  on_lua (lua_close A).

Definition LuaCallC : M lmain unit :=
  modify (λ w, LMain (luaL_newstate A) (out w));;
  on_lua (luaL_openlibs A);;
  on_lua (lua_register A (bytes "cfunc_add_v") Cfunc_add);;
  on_lua (luaL_dofile A (bytes "callC.lua"));;
  on_lua (lua_getglobal A (bytes "aa"));;
  b ← on_lua (lua_isnumber A (-1));
  when (b =? 1)%Z
    (x ← on_lua (lua_tonumber A (-1)); printf (bytes "aa=" ++ fmt_f x));;
  on_lua (lua_close A).

Definition main : M lmain Z := LuaCallC;; mret 0%Z.

End Main.
