(* ===== verification/LuaScript.v ===== *)
(** * LuaScript: the Lua scripts of lua_test/lua_and_c, and the part of Lua 5.3 they use

    The syntax of the scripts and an interpreter of it: values, tables, functions, calls
    and [print].  An operation that raises an error in Lua, or that the scripts do not
    use and the interpreter leaves out, is the fault [FError]. *)
From stdpp Require Import list strings.
From Stdlib Require Import ZArith Strings.Byte SpecFloat.
From S2P Require Import Prelude Bytes CString Double Lua.


(** ** Syntax *)

Inductive lexpr :=
  | ENum (x : double)                       (* a numeral with a point *)
  | EInt (z : Z)
  | EStr (s : str)
  | EName (n : str)
  | EAdd (a b : lexpr)
  | ECall (f : str) (args : list lexpr)
  | ETable (items : list lexpr) (fields : list (str * lexpr)).

Inductive lstat :=
  | SAssign (n : str) (e : lexpr)
  | SFunction (n : str) (ps : list str) (body : list lstat)
  | SMethod (t f : str) (ps : list str) (body : list lstat)     (* function t.f(ps) *)
  | SCall (f : str) (args : list lexpr)
  | SReturn (es : list lexpr).

(** ** Values and memory *)

(** The functions of the scripts use no local of the code around them, so a function is
    its parameters and its body; [LTab i] is the [i]-th table that was made. *)
Inductive lval :=
  | LNil
  | LNum (x : double)
  | LInt (z : Z)
  | LStr (s : str)
  | LC (c : cfunction)
  | LPrint
  | LFun (ps : list str) (body : list lstat)
  | LTab (i : nat).

Inductive lkey :=
  | KInt (z : Z)
  | KStr (s : str).

#[global] Instance lkey_eq_dec : EqDecision lkey.
Proof. solve_decision. Defined.

Abbreviation ltable := (list (lkey * lval)).

Fixpoint tab_get (t : ltable) (k : lkey) : lval :=
  match t with
  | [] => LNil
  | (k', v) :: t' => if decide (k' = k) then v else tab_get t' k
  end.

(** The tables, of which the first is that of the globals, and the lines that [print]
    wrote. *)
Record lmem := LMem { tables : list ltable; lines : list str }.

Definition tab_set (i : nat) (k : lkey) (v : lval) (m : lmem) : lmem :=
  LMem (alter (cons (k, v)) i (tables m)) (lines m).
Definition set_global (n : str) (v : lval) : lmem → lmem := tab_set 0 (KStr n) v.
Definition get_global (n : str) (m : lmem) : lval := tab_get (default [] (head (tables m))) (KStr n).
Definition add_line (s : str) (m : lmem) : lmem := LMem (tables m) (lines m ++ [s]).

(** ** Operations *)

(** Integers have 64 bits and wrap around. *)
Definition wrap64 (z : Z) : Z := ((z + 2 ^ 63) mod 2 ^ 64 - 2 ^ 63)%Z.

Definition add_values (v u : lval) : res lval :=
  match v, u with
  | LInt a, LInt b => Ok (LInt (wrap64 (a + b)))
  | LNum x, LNum y => Ok (LNum (dadd x y))
  | LNum x, LInt b => Ok (LNum (dadd x (of_Z b)))
  | LInt a, LNum y => Ok (LNum (dadd (of_Z a) y))
  | _, _ => Fault FError
  end.

(** [tostring] *)
Definition shown_value (v : lval) : res str :=
  match v with
  | LNil => Ok (bytes "nil")
  | LInt z => Ok (fmt_d z)
  | LStr s => Ok s
  | _ => Fault FError
  end.

Fixpoint tabbed (ss : list str) : str :=
  match ss with
  | [] => []
  | [s] => s
  | s :: ss' => s ++ [x09] ++ tabbed ss'
  end.

(** The line that [print] writes. *)
Definition print_line (vs : list lval) : res str :=
  ss ← mapM shown_value vs; Ok (tabbed ss ++ [x0a]).

(** The table of a constructor: the items at 1, 2 and so on, and the fields. *)
Fixpoint item_entries (i : Z) (vs : list lval) : ltable :=
  match vs with [] => [] | v :: vs' => (KInt i, v) :: item_entries (i + 1) vs' end.
Definition field_entries (ns : list str) (vs : list lval) : ltable :=
  zip (KStr <$> ns) vs.

Definition new_table (t : ltable) : M lmem lval :=
  i ← gets (λ m, length (tables m));
  modify (λ m, LMem (tables m ++ [t]) (lines m));;
  mret (LTab i).

(** The arguments of a call are the parameters; those that are missing are nil. *)
Abbreviation locals := (list (str * lval)).
Fixpoint bind_params (ps : list str) (args : list lval) : locals :=
  match ps with
  | [] => []
  | p :: ps' => (p, default LNil (head args)) :: bind_params ps' (tail args)
  end.

Fixpoint local (n : str) (ls : locals) : option lval :=
  match ls with
  | [] => None
  | (n', v) :: ls' => if decide (n' = n) then Some v else local n ls'
  end.

(** A name that the scripts did not define may be one of the libraries, which the
    interpreter leaves out. *)
Definition name_value (ls : locals) (n : str) : M lmem lval :=
  match local n ls with
  | Some v => mret v
  | None =>
    v ← gets (get_global n);
    match v with LNil => fail FError | _ => mret v end
  end.

(** The scripts assign to globals only. *)
Definition assign (ls : locals) (n : str) (v : lval) : M lmem unit :=
  match local n ls with Some _ => fail FError | None => modify (set_global n v) end.

Definition first_value (vs : list lval) : lval := default LNil (head vs).

Section Interpreter.

(** What a C function returns for these arguments. *)
Context (ccall : cfunction → list lval → M lmem (list lval)).

(** The value of an expression, the values of a list of expressions, whose last call
    gives all its results, a call, and a block, with what it returned. *)
Fixpoint eval (fuel : nat) (ls : locals) (e : lexpr) : M lmem lval :=
  match fuel with
  | O => fail FFuel
  | S fuel' =>
    match e with
    | ENum x => mret (LNum x)
    | EInt z => mret (LInt z)
    | EStr s => mret (LStr s)
    | EName n => name_value ls n
    | EAdd a b => v ← eval fuel' ls a; u ← eval fuel' ls b; lift (add_values v u)
    | ECall f args =>
      g ← name_value ls f; vs ← evals fuel' ls args; rs ← call_value fuel' g vs;
      mret (first_value rs)
    | ETable items fields =>
      vs ← evals fuel' ls items; us ← evals fuel' ls (snd <$> fields);
      new_table (item_entries 1 vs ++ field_entries (fst <$> fields) us)
    end
  end
with evals (fuel : nat) (ls : locals) (es : list lexpr) : M lmem (list lval) :=
  match fuel with
  | O => fail FFuel
  | S fuel' =>
    match es with
    | [] => mret []
    | [ECall f args] =>
      g ← name_value ls f; vs ← evals fuel' ls args; call_value fuel' g vs
    | e :: es' => v ← eval fuel' ls e; vs ← evals fuel' ls es'; mret (v :: vs)
    end
  end
with call_value (fuel : nat) (f : lval) (args : list lval) : M lmem (list lval) :=
  match fuel with
  | O => fail FFuel
  | S fuel' =>
    match f with
    | LC c => ccall c args
    | LPrint => line ← lift (print_line args); modify (add_line line);; mret []
    | LFun ps body => r ← exec fuel' (bind_params ps args) body; mret (default [] r)
    | _ => fail FError
    end
  end
with exec (fuel : nat) (ls : locals) (b : list lstat) : M lmem (option (list lval)) :=
  match fuel with
  | O => fail FFuel
  | S fuel' =>
    match b with
    | [] => mret None
    | SReturn es :: _ => vs ← evals fuel' ls es; mret (Some vs)
    | SAssign n e :: b' => v ← eval fuel' ls e; assign ls n v;; exec fuel' ls b'
    | SFunction n ps body :: b' => assign ls n (LFun ps body);; exec fuel' ls b'
    | SMethod t f ps body :: b' =>
      v ← name_value ls t;
      match v with
      | LTab i => modify (tab_set i (KStr f) (LFun ps body));; exec fuel' ls b'
      | _ => fail FError
      end
    | SCall f args :: b' =>
      g ← name_value ls f; vs ← evals fuel' ls args; call_value fuel' g vs;; exec fuel' ls b'
    end
  end.

End Interpreter.

(** The scripts nest less than this. *)
Definition script_fuel : nat := 20.

(** ** The scripts *)

Definition module_lua : list lstat :=
  [SAssign (bytes "Obj1") (EInt 10);
   SAssign (bytes "Obj2") (EInt 2);
   SAssign (bytes "tt") (ETable [EInt 10; EInt 20] [(bytes "name", EStr (bytes "kk"))]);
   SFunction (bytes "Add") [bytes "a"; bytes "b"]
     [SReturn [EAdd (EName (bytes "a")) (EName (bytes "b"))]];
   SMethod (bytes "tt") (bytes "show") [bytes "a"]
     [SCall (bytes "print") [EStr (bytes "tt.show"); EName (bytes "a")]]].

(** 11.5 is 23 * 2^-1. *)
Definition callC_lua : list lstat :=
  [SAssign (bytes "aa")
     (ECall (bytes "cfunc_add_v") [ENum (S754_finite false 6473924464345088 (-49)); EInt 12])].

Example numeral : SFdiv 53 1024 (of_Z 23) (of_Z 2) = S754_finite false 6473924464345088 (-49).
Proof. reflexivity. Qed.

(** ** C functions that are known better *)

(** A run does not change when the C functions return the same and more. *)
Section Refine.
Context (cc cc' : cfunction → list lval → M lmem (list lval)).
Hypothesis Hcc : ∀ c args m r, cc c args m = Ok r → cc' c args m = Ok r.

Lemma bind_inv {S X Y} (m : M S X) (k : X → M S Y) s r :
  (m ≫= k) s = Ok r → ∃ x s', m s = Ok (x, s') ∧ k x s' = Ok r.
Proof. unfold mbind, M_bind. destruct (m s) as [[x s']|]; [eauto|done]. Qed.

Lemma refine_bind {X Y} (m m' : M lmem X) (k k' : X → M lmem Y) s r :
  (∀ r, m s = Ok r → m' s = Ok r) → (∀ x s' r, k x s' = Ok r → k' x s' = Ok r) →
  (m ≫= k) s = Ok r → (m' ≫= k') s = Ok r.
Proof.
  intros Hm Hk (x & s' & E1 & E2)%bind_inv. rewrite (bind_ok _ _ _ _ _ (Hm _ E1)). by apply Hk.
Qed.

Ltac refine_run :=
  intros; cbv beta in *; first [solve [eauto] | eapply refine_bind; [| |eassumption]; refine_run
                | case_match; refine_run].

Lemma interpreter_refine fuel :
  (∀ ls e m r, eval cc fuel ls e m = Ok r → eval cc' fuel ls e m = Ok r) ∧
  (∀ ls es m r, evals cc fuel ls es m = Ok r → evals cc' fuel ls es m = Ok r) ∧
  (∀ f args m r, call_value cc fuel f args m = Ok r → call_value cc' fuel f args m = Ok r) ∧
  (∀ ls b m r, exec cc fuel ls b m = Ok r → exec cc' fuel ls b m = Ok r).
Proof.
  induction fuel as [|fuel (IH1 & IH2 & IH3 & IH4)]; [done|]. split; [|split; [|split]].
  - intros ls [] m r; cbn [eval]; refine_run.
  - intros ls [|[] [|e' es]] m r; cbn [evals]; refine_run.
  - intros [] args m r; cbn [call_value]; refine_run.
  - intros ls [|[] b] m r; cbn [exec]; refine_run.
Qed.

End Refine.
