(* ===== verification/LuaRules.v ===== *)
(** * LuaRules: what Lua documents of its API, and the rules that follow for its users

    [StackOk] and [LuaOk] are what the manual of Lua says of the API: the stack of a C
    function, which has [cap] slots, the tables, read through [get] where no metamethod
    is involved, and the scripts and functions of Lua, which run as the interpreter of
    LuaScript.v says.  The rules follow the stack through the C functions of Lua.v and
    through main.c. *)
From stdpp Require Import list strings sets.
From Stdlib Require Import ZArith Strings.Byte SpecFloat.
From S2P Require Import Prelude Bytes CString Double Lua LuaScript.

(** ** The stack *)

(** The place of the index [i] in a stack of [n] values: from 1 at the bottom, or from
    -1 at the top. *)
Definition slot_index (n : nat) (i : Z) : option nat :=
  if bool_decide (0 < i ≤ Z.of_nat n)%Z then Some (Z.to_nat (i - 1))
  else if bool_decide (- Z.of_nat n ≤ i < 0)%Z then Some (Z.to_nat (Z.of_nat n + i))
  else None.

Definition nth_slot {V} (fr : list V) (i : Z) : option V := slot_index (length fr) i ≫= (fr !!.).

Definition set_slot {V} (fr : list V) (i : Z) (v : V) : list V :=
  match slot_index (length fr) i with Some j => <[j := v]> fr | None => fr end.

Lemma slot_index_top n : slot_index (S n) (-1) = Some n.
Proof.
  unfold slot_index. rewrite bool_decide_eq_false_2, bool_decide_eq_true_2 by lia.
  f_equal. lia.
Qed.

Lemma nth_slot_top {V} (fr : list V) v : nth_slot (fr ++ [v]) (-1) = Some v.
Proof.
  unfold nth_slot. rewrite length_app, Nat.add_comm. simpl length. rewrite slot_index_top.
  by apply list_lookup_middle.
Qed.

Lemma set_slot_top {V} (fr : list V) v u : set_slot (fr ++ [v]) (-1) u = fr ++ [u].
Proof.
  unfold set_slot. rewrite length_app, Nat.add_comm. simpl length. rewrite slot_index_top.
  by rewrite insert_app_r_alt, Nat.sub_diag by lia.
Qed.

Lemma slot_index_nat n (i : nat) : i < n → slot_index n (Z.of_nat i + 1) = Some i.
Proof.
  intros H. unfold slot_index. rewrite bool_decide_eq_true_2 by lia. f_equal. lia.
Qed.

Lemma nth_slot_nat {V} (fr : list V) (i : nat) :
  nth_slot fr (Z.of_nat i + 1) = fr !! i.
Proof.
  unfold nth_slot. destruct (decide (i < length fr)) as [H|H].
  - by rewrite slot_index_nat.
  - unfold slot_index. rewrite !bool_decide_eq_false_2 by lia.
    symmetry. apply lookup_ge_None. lia.
Qed.

Lemma nth_slot_first {V} (v : V) fr : nth_slot (v :: fr) 1 = Some v.
Proof. apply (nth_slot_nat (v :: fr) 0). Qed.

(** ** What Lua documents *)

(** The function that a list of functions gives to the name [k]: the last one. *)
Fixpoint func_named (l : list (str * cfunction)) (k : str) : option cfunction :=
  match l with
  | [] => None
  | (n, c) :: l' =>
    match func_named l' k with
    | Some d => Some d
    | None => if decide (n = k) then Some c else None
    end
  end.

(** The C functions of the API that Lua calls. *)
Definition call (A : stack_api) (c : cfunction) : option (M (lstate A) Z) :=
  match c with
  | Cfunc_add => Some (cfunc_add A)
  | Module_add => Some (module_add A)
  | Module_sub => Some (module_sub A)
  | Linit | Lerror => None
  end.

Class StackOk (A : stack_api) := {
  value : Type;
  nil : value;
  number : double → value;
  integer : Z → value;
  string : str → value;
  func : cfunction → value;
  env : value;                            (* the table of the globals *)
  to_number : value → option double;
  to_integer : value → Z;
  to_str : value → option str;
  store : Type;
  get : store → value → value → option value;
  frame : lstate A → list value;
  cap : lstate A → nat;
  mem : lstate A → store;
  oom : Prop;                             (* Lua can run out of memory *)
  other_version : Prop;                   (* the library is not of the header's version *)

  same (s s' : lstate A) : Prop := mem s' = mem s ∧ cap s' = cap s;
  room (s : lstate A) : Prop := length (frame s) < cap s;
  pushed (s : lstate A) (v : value) (s' : lstate A) : Prop :=
    frame s' = frame s ++ [v] ∧ same s s';
  (* the value of [t] at [k] on the stack [fr]; its metamethod may have run *)
  read (s : lstate A) (fr : list value) (t k : value) (s' : lstate A) : Prop :=
    ∃ v, frame s' = fr ++ [v] ∧ cap s' = cap s ∧
      ∀ w, get (mem s) t k = Some w → v = w ∧ mem s' = mem s;
  only_at (t : value) (st st' : store) : Prop := ∀ u k, u ≠ t → get st' u k = get st u k;

  to_number_number x : to_number (number x) = Some x;
  to_number_nil : to_number nil = None;
  to_integer_integer z : (int_min ≤ z ≤ int_max)%Z →
    to_integer (integer z) = z ∧ to_number (integer z) = Some (of_Z z);
  to_str_string s : to_str (string s) = Some s;
  string_inj s s' : string s = string s' → s = s';

  gettop_ok s : lua_gettop A s = Ok (Z.of_nat (length (frame s)), s);
  settop_ok s i : i ≤ length (frame s) →
    wp (lua_settop A (Z.of_nat i)) (λ _ s', frame s' = take i (frame s) ∧ same s s') s;
  pushinteger_ok s z : room s → wp (lua_pushinteger A z) (λ _, pushed s (integer z)) s;
  pushnumber_ok s x : room s → wp (lua_pushnumber A x) (λ _, pushed s (number x)) s;
  pushstring_ok s t : room s →
    wpt FError oom (lua_pushstring A t) (λ _, pushed s (string t)) s;
  isnumber_ok s i v : nth_slot (frame s) i = Some v →
    lua_isnumber A i s = Ok (if to_number v is Some _ then 1%Z else 0%Z, s);
  isstring_ok s i v : nth_slot (frame s) i = Some v →
    lua_isstring A i s = Ok (if to_str v is Some _ then 1%Z else 0%Z, s);
  tointeger_ok s i v : nth_slot (frame s) i = Some v →
    lua_tointeger A i s = Ok (to_integer v, s);
  tonumber_ok s i v : nth_slot (frame s) i = Some v →
    lua_tonumber A i s = Ok (default dzero (to_number v), s);
  (* the value becomes the string *)
  tostring_ok s i v t : nth_slot (frame s) i = Some v → to_str v = Some t →
    wpt FError oom (lua_tostring A i)
      (λ r s', r = t ∧ frame s' = set_slot (frame s) i (string t) ∧ same s s') s;
  checknumber_ok s i :
    luaL_checknumber A i s =
      match nth_slot (frame s) i ≫= to_number with
      | Some x => Ok (x, s)
      | None => Fault FError
      end;
  checkversion_ok s :
    wpt FError other_version (luaL_checkversion A) (λ _ s', frame s' = frame s ∧ same s s') s;
  getglobal_ok s k : room s →
    wpt FError (oom ∨ get (mem s) env (string k) = None) (lua_getglobal A k)
      (λ _, read s (frame s) env (string k)) s;
  getfield_ok s i t k : room s → nth_slot (frame s) i = Some t →
    wpt FError (oom ∨ get (mem s) t (string k) = None) (lua_getfield A i k)
      (λ _, read s (frame s) t (string k)) s;
  getfield_nil s i k : room s → nth_slot (frame s) i = Some nil →
    lua_getfield A i k s = Fault FError;
  gettable_ok s i fr t k : length fr < cap s → frame s = fr ++ [k] → nth_slot (frame s) i = Some t →
    wpt FError (oom ∨ get (mem s) t k = None) (lua_gettable A i) (λ _, read s fr t k) s;
  createtable_ok s n m : room s →
    wpt FError oom (lua_createtable A n m)
      (λ _ s', ∃ t, frame s' = frame s ++ [t] ∧ cap s' = cap s ∧
         (∀ k, get (mem s) t k = None ∧ get (mem s') t k = Some nil) ∧
         only_at t (mem s) (mem s')) s;
  (* a function is on the stack before it is in the table *)
  setfuncs_ok s fr t l : room s → frame s = fr ++ [t] → (∀ k, is_Some (get (mem s) t k)) →
    wpt FError oom (luaL_setfuncs A l 0)
      (λ _ s', frame s' = frame s ∧ cap s' = cap s ∧
         (∀ k, get (mem s') t (string k) =
            match func_named l k with
            | Some c => Some (func c)
            | None => get (mem s) t (string k)
            end) ∧
         (∀ k, (∀ x, k ≠ string x) → get (mem s') t k = get (mem s) t k) ∧
         only_at t (mem s) (mem s')) s
}.
Arguments same {A _} : simpl never.
Arguments room {A _} : simpl never.
Arguments pushed {A _} : simpl never.
Arguments read {A _} : simpl never.
Arguments only_at {A _} : simpl never.

(** ** The memory of the scripts *)

(** The values of Lua that are functions of a script, that is [print], and the tables of
    the interpreter among those of Lua: [rep ts m st] says that the tables of [m] are
    tables of [st], the [i]-th one being [ts i], and that as much was printed.  The
    standard libraries have globals that the interpreter does not. *)
Class LuaValues (A : lua_api) `{!StackOk A} := {
  library : list str;
  on_disk : str → Prop;                   (* the file can be read *)
  script : str → list lstat → Prop;       (* it is there, and holds this script *)
  is_function : list str → list lstat → value → Prop;
  is_print : value → Prop;
  rep : (nat → value) → lmem → store → Prop
}.

Section Values.
Context {A : lua_api} `{!StackOk A} `{!LuaValues A}.

Definition denotes (ts : nat → value) (l : lval) (v : value) : Prop :=
  match l with
  | LNil => v = nil
  | LNum x => v = number x
  | LInt z => v = integer z
  | LStr s => v = string s
  | LC c => v = func c
  | LPrint => is_print v
  | LFun ps body => is_function ps body v
  | LTab i => v = ts i
  end.

Definition key_value (k : lkey) : value :=
  match k with KInt z => integer z | KStr s => string s end.

(** A global that is not of the libraries. *)
Definition known (i : nat) (k : lkey) : Prop := i = 0 → ∀ n, k = KStr n → n ∉ library.

(** The tables of [m] have the same addresses. *)
Definition kept_tables (m : lmem) (ts ts' : nat → value) : Prop :=
  ∀ i, i < length (tables m) → ts' i = ts i.

(** The C functions return what [cc] says, on a stack of their own with their arguments
    and 20 free slots, and do not change the memory. *)
Definition c_calls (cc : cfunction → list lval → M lmem (list lval)) : Prop :=
  ∀ c args m vs m', cc c args m = Ok (vs, m') → m' = m ∧
    ∃ prog, call A c = Some prog ∧
      ∀ ts s, rep ts m (mem s) → Forall2 (denotes ts) args (frame s) → length args + 20 ≤ cap s →
        wp prog (λ n s', n = Z.of_nat (length vs) ∧ mem s' = mem s ∧
          Forall2 (denotes ts) vs (drop (length (frame s') - length vs) (frame s'))) s.

End Values.

(** As many values as a call asks for. *)
Definition adjust {V} (z : V) (r : nat) (vs : list V) : list V := take r (vs ++ replicate r z).

(** The globals of the scripts and programs. *)
Definition own_names : list str :=
  bytes <$> ["Obj1"; "Obj2"; "Add"; "tt"; "aa"; "cfunc_add_v"; "print"]%string.

Class LuaOk (A : lua_api) `{!StackOk A} `{!LuaValues A} := {
  not_library n : n ∈ own_names → n ∉ library;
  rep_env ts m st : rep ts m st → ts 0 = env;
  rep_get ts m st i t k : rep ts m st → tables m !! i = Some t → known i k →
    ∃ v, get st (ts i) (key_value k) = Some v ∧ denotes ts (tab_get t k) v;
  rep_printed ts m s : rep ts m (mem s) → lua_printed A s = lines m;
  printed_mem s s' : mem s' = mem s → lua_printed A s' = lua_printed A s;

  (* no global, and nothing printed *)
  newstate_ok s : luaL_newstate A = Some s →
    frame s = [] ∧ 20 ≤ cap s ∧ ∃ ts, rep ts (LMem [[]] []) (mem s);
  openlibs_ok s ts m : rep ts m (mem s) →
    wpt FError oom (luaL_openlibs A)
      (λ _ s', frame s' = frame s ∧ cap s' = cap s ∧
         ∃ ts', rep ts' (set_global (bytes "print") LPrint m) (mem s')) s;
  register_rep s ts m n c : room s → rep ts m (mem s) → (n ∉ library) →
    wpt FError oom (lua_register A n c)
      (λ _ s', frame s' = frame s ∧ cap s' = cap s ∧
         rep ts (set_global n (LC c) m) (mem s')) s;
  (* an error leaves its message *)
  dofile_missing s name : room s → ¬ on_disk name →
    wp (luaL_dofile A name) (λ z s', z = 1%Z ∧ ∃ e, pushed s e s') s;
  (* a script, and a function of a script, run as the interpreter does *)
  dofile_ok s name p cc ts m m' : room s → script name p → ¬ oom → rep ts m (mem s) →
    c_calls cc → exec cc script_fuel [] p m = Ok (None, m') →
    wp (luaL_dofile A name)
      (λ z s', z = 0%Z ∧ frame s' = frame s ∧ cap s' = cap s ∧
         ∃ ts', kept_tables m ts ts' ∧ rep ts' m' (mem s')) s;
  pcall_ok s fr f vf args vargs r cc ts m vs m' : ¬ oom → rep ts m (mem s) →
    denotes ts f vf → Forall2 (denotes ts) args vargs → frame s = fr ++ vf :: vargs →
    length fr + r ≤ cap s →
    c_calls cc → call_value cc script_fuel f args m = Ok (vs, m') →
    wp (lua_pcall A (Z.of_nat (length args)) (Z.of_nat r) 0)
      (λ z s', z = 0%Z ∧ cap s' = cap s ∧ ∃ ts' us, kept_tables m ts ts' ∧
         rep ts' m' (mem s') ∧ Forall2 (denotes ts') (adjust LNil r vs) us ∧
         frame s' = fr ++ us) s;
  (* a call of nil is an error *)
  pcall_nil s fr args (r : nat) : frame s = fr ++ nil :: args → length fr + r ≤ cap s →
    wp (lua_pcall A (Z.of_nat (length args)) (Z.of_nat r) 0)
      (λ z s', z ≠ 0%Z ∧ same s s' ∧ ∃ e, frame s' = fr ++ [e]) s;
  close_ok s : wp (lua_close A) (λ _ s', lua_printed A s' = lua_printed A s) s
}.

(** ** C functions *)

Lemma wpt_ok {S X} e E (m : M S X) (Q : X → S → Prop) s a s' :
  m s = Ok (a, s') → Q a s' → wpt e E m Q s.
Proof. intros H HQ. unfold wpt. by rewrite H. Qed.

Lemma wpt_weaken {S X} e (E E' : Prop) (m : M S X) Q s :
  wpt e E m Q s → (E → E') → wpt e E' m Q s.
Proof. unfold wpt. destruct (m s) as [[]|]; naive_solver. Qed.

Lemma wpt_conseq {S X} e (E E' : Prop) (m : M S X) (Q Q' : X → S → Prop) s :
  wpt e E m Q s → (E → E') → (∀ a s', Q a s' → Q' a s') → wpt e E' m Q' s.
Proof. intros H HE HQ. eapply wpt_weaken; [by eapply wpt_mono|done]. Qed.

Lemma wpt_wp_conseq {S X} e E (m : M S X) (Q Q' : X → S → Prop) s :
  wp m Q s → (∀ a s', Q a s' → Q' a s') → wpt e E m Q' s.
Proof. intros H HQ. by eapply wpt_wp, wp_mono. Qed.

Section Functions.
Context {A : stack_api} `{!StackOk A}.
Implicit Types s : lstate A.

Definition as_number (v : value) : double := default dzero (to_number v).

(** The sum of the arguments, from the first on. *)
Definition sum_of (fr : list value) (acc : double) : double :=
  fold_left (λ acc v, dadd acc (as_number v)) fr acc.

Lemma add_loop_ok n (i : nat) acc s : i + n = length (frame s) →
  add_loop A n (Z.of_nat i + 1) acc s = Ok (sum_of (drop i (frame s)) acc, s).
Proof.
  revert i acc. induction n as [|n IH]; intros i acc H; simpl.
  - by rewrite drop_ge by lia.
  - destruct (lookup_lt_is_Some_2 (frame s) i) as [v Hv]; [lia|].
    rewrite (bind_ok _ _ _ _ _ (tonumber_ok s _ v ltac:(by rewrite nth_slot_nat))).
    replace (Z.of_nat i + 1 + 1)%Z with (Z.of_nat (S i) + 1)%Z by lia.
    rewrite IH by lia. by rewrite (drop_S _ _ _ Hv).
Qed.

Lemma cfunc_add_wp s : room s →
  wp (cfunc_add A) (λ n, λ s', n = 1%Z ∧ pushed s (number (sum_of (frame s) dzero)) s') s.
Proof.
  intros Hr. unfold cfunc_add. apply wp_bind. unfold wp at 1. rewrite gettop_ok. simpl.
  apply wp_bind. unfold wp at 1. rewrite Nat2Z.id.
  rewrite (add_loop_ok (length (frame s)) 0) by lia. simpl. rewrite drop_0.
  apply wp_bind. eapply wp_mono; [by apply pushnumber_ok|]. intros [] s' Hs'. by apply wp_ret.
Qed.

(** What the two functions of the module push for two numbers. *)
Definition arg s (i : Z) : option double := nth_slot (frame s) i ≫= to_number.

Lemma module_args_ok {X} s (k : double → double → M (lstate A) X) :
  (x ← luaL_checknumber A 1; y ← luaL_checknumber A 2; k x y) s =
    match arg s 1, arg s 2 with
    | Some x, Some y => k x y s
    | _, _ => Fault FError
    end.
Proof.
  unfold arg, mbind at 1 2, M_bind. rewrite checknumber_ok.
  destruct (nth_slot (frame s) 1 ≫= to_number); [|done]. rewrite checknumber_ok.
  by destruct (nth_slot (frame s) 2 ≫= to_number).
Qed.

Lemma pushed_two s v u s' s'' : pushed s v s' → pushed s' u s'' →
  frame s'' = frame s ++ [v; u] ∧ same s s''.
Proof.
  unfold pushed, same. intros (-> & -> & ->) (-> & -> & ->). by rewrite <- (assoc (++)).
Qed.

Lemma pushed_room s v s' : pushed s v s' → length (frame s) + 2 ≤ cap s → room s'.
Proof. unfold pushed, same, room. intros (-> & _ & ->). rewrite length_app. simpl. lia. Qed.

Lemma module_add_wpt s x y : length (frame s) + 2 ≤ cap s → arg s 1 = Some x → arg s 2 = Some y →
  wpt FError oom (module_add A)
    (λ n s', n = 2%Z ∧ frame s' = frame s ++ [number (dadd x y); string (bytes "hello world")] ∧
       same s s') s.
Proof.
  intros Hr Hx Hy. unfold module_add, wpt. rewrite module_args_ok, Hx, Hy.
  apply (wpt_wp_bind _ _ _ _ (λ _, pushed s (number (dadd x y)))).
  { apply pushnumber_ok. unfold room. lia. }
  intros [] s1 H1. apply wpt_bind. eapply wpt_mono.
  { apply pushstring_ok. by eapply pushed_room. }
  intros [] s2 H2. split; [done|]. by eapply pushed_two.
Qed.

Lemma module_sub_wp s x y : room s → arg s 1 = Some x → arg s 2 = Some y →
  wp (module_sub A) (λ n s', n = 1%Z ∧ pushed s (number (dsub x y)) s') s.
Proof.
  intros Hr Hx Hy. unfold module_sub, wp. rewrite module_args_ok, Hx, Hy.
  change (wp (lua_pushnumber A (dsub x y);; mret 1%Z)
    (λ n s', n = 1%Z ∧ pushed s (number (dsub x y)) s') s).
  apply wp_bind. eapply wp_mono; [by apply pushnumber_ok|]. intros [] s' Hs'. by apply wp_ret.
Qed.

Lemma module_args_error s : arg s 1 = None ∨ arg s 2 = None →
  module_add A s = Fault FError ∧ module_sub A s = Fault FError.
Proof.
  intros H. unfold module_add, module_sub. rewrite !module_args_ok.
  destruct (arg s 1), (arg s 2); naive_solver.
Qed.

(** A table with the functions of a list, as both modules make it. *)
Lemma new_module_wpt s n m l : length (frame s) + 2 ≤ cap s →
  wpt FError oom (lua_createtable A n m;; luaL_setfuncs A l 0;; mret 1%Z)
    (λ z s', z = 1%Z ∧ ∃ t, frame s' = frame s ++ [t] ∧ cap s' = cap s ∧
       (∀ k, get (mem s) t k = None) ∧
       (∀ k, get (mem s') t (string k) =
          Some (match func_named l k with Some c => func c | None => nil end)) ∧
       (∀ k, (∀ x, k ≠ string x) → get (mem s') t k = Some nil) ∧
       only_at t (mem s) (mem s')) s.
Proof.
  intros Hr. apply wpt_bind. eapply wpt_mono; [apply createtable_ok; unfold room; lia|].
  intros [] s1 (t & F1 & C1 & G1 & O1). apply wpt_bind. eapply wpt_mono.
  { apply (setfuncs_ok s1 (frame s) t l); [|done|].
    - unfold room. rewrite F1, C1, length_app. simpl. lia.
    - intros k. exists nil. apply G1. }
  intros [] s2 (F2 & C2 & G2 & N2 & O2). split; [done|]. exists t. rewrite F2, C2.
  split; [done|]. split; [done|]. split; [intros k; apply G1|]. split; [|split].
  - intros k. rewrite G2. destruct (func_named l k); [done|apply G1].
  - intros k Hk. rewrite N2 by done. apply G1.
  - intros u k Hu. rewrite O2 by done. by apply O1.
Qed.

End Functions.

(** ** main.c *)

Section Main.
Context {A : lua_api} `{!StackOk A} `{!LuaValues A} `{!LuaOk A}.
Implicit Types (w : lmain A) (fr : list value) (m : lmem) (ts : nat → value).

(** [L] is open, with this stack of [c] slots and the memory [m], and [o] is printed. *)
Definition on fr ts m (c : nat) (o : list str) w : Prop :=
  ∃ s, w = LMain A (Some s) o ∧ frame s = fr ∧ cap s = c ∧ rep ts m (mem s).

Lemma on_lua_wpt {X} e E (p : M (lstate A) X) Q s o :
  wpt e E p (λ a s', Q a (LMain A (Some s')
    (o ++ drop (length (lua_printed A s)) (lua_printed A s')))) s →
  wpt e E (on_lua A p) Q (LMain A (Some s) o).
Proof. unfold wpt, on_lua. simpl. by destruct (p s) as [[]|]. Qed.

(** A call that does not change the memory prints nothing. *)
Lemma on_same ts m c o s fr s' :
  cap s = c → rep ts m (mem s) → frame s' = fr → same s s' →
  on fr ts m c o (LMain A (Some s')
    (o ++ drop (length (lua_printed A s)) (lua_printed A s'))).
Proof.
  intros <- Hr <- [M C]. eexists. rewrite (printed_mem _ _ M), drop_all, app_nil_r.
  by rewrite M.
Qed.

(** What a call printed, by the lines of the memory. *)
Lemma on_printed ts ts' m m' s s' : rep ts m (mem s) → rep ts' m' (mem s') →
  drop (length (lua_printed A s)) (lua_printed A s') = drop (length (lines m)) (lines m').
Proof. intros H H'. by rewrite (rep_printed _ _ _ H), (rep_printed _ _ _ H'). Qed.

Lemma on_pushinteger fr ts m c o w z : length fr < c → on fr ts m c o w →
  wpt FError oom (on_lua A (lua_pushinteger A z)) (λ _, on (fr ++ [integer z]) ts m c o) w.
Proof.
  intros Hc (s & -> & <- & <- & Hr). apply on_lua_wpt. eapply wpt_wp_conseq.
  { by apply pushinteger_ok. }
  intros ? s' [F S]. by eapply on_same.
Qed.

Lemma on_pushstring fr ts m c o w t : length fr < c → on fr ts m c o w →
  wpt FError oom (on_lua A (lua_pushstring A t)) (λ _, on (fr ++ [string t]) ts m c o) w.
Proof.
  intros Hc (s & -> & <- & <- & Hr). apply on_lua_wpt. eapply wpt_mono.
  { by apply pushstring_ok. }
  intros ? s' [F S]. by eapply on_same.
Qed.

Lemma on_read fr ts m c o s t k v s' : cap s = c → rep ts m (mem s) →
  get (mem s) t k = Some v → read s fr t k s' →
  on (fr ++ [v]) ts m c o (LMain A (Some s')
    (o ++ drop (length (lua_printed A s)) (lua_printed A s'))).
Proof.
  intros Hc Hr Hv (u & F & C & G). destruct (G _ Hv) as [-> M]. by eapply on_same.
Qed.

Lemma plain_read st t k (v : value) : get st t k = Some v → oom ∨ get st t k = None → oom.
Proof. intros ? [?|?]; [done|congruence]. Qed.

(** The value of a key of a table, pushed. *)
Definition on_value fr ts m c o (l : lval) w : Prop :=
  ∃ v, denotes ts l v ∧ on (fr ++ [v]) ts m c o w.

Lemma on_getglobal fr ts m c o w k t : length fr < c → tables m !! 0 = Some t →
  (k ∉ library) → on fr ts m c o w →
  wpt FError oom (on_lua A (lua_getglobal A k)) (λ _, on_value fr ts m c o (tab_get t (KStr k))) w.
Proof.
  intros Hc Ht Hk (s & -> & <- & <- & Hr). apply on_lua_wpt.
  destruct (rep_get ts m (mem s) 0 t (KStr k) Hr Ht) as (v & Hv & Hd); [by intros _ n [= <-]|].
  rewrite (rep_env _ _ _ Hr) in Hv. eapply wpt_conseq.
  { by apply getglobal_ok. }
  { by eapply plain_read. }
  intros ? s' H. exists v. split; [done|]. by eapply on_read.
Qed.

Lemma on_getfield fr ts m c o w i j k t l : on fr ts m c o w → length fr < c →
  nth_slot fr i = Some (ts j) → tables m !! j = Some t → j ≠ 0 → tab_get t (KStr k) = l →
  wpt FError oom (on_lua A (lua_getfield A i k)) (λ _, on_value fr ts m c o l) w.
Proof.
  intros (s & -> & <- & <- & Hr) Hc Hi Ht Hj <-. apply on_lua_wpt.
  destruct (rep_get ts m (mem s) j t (KStr k) Hr Ht) as (v & Hv & Hd); [by intros ->|].
  eapply wpt_conseq.
  { by apply (getfield_ok s i (ts j)). }
  { by eapply plain_read. }
  intros ? s' H. exists v. split; [done|]. by eapply on_read.
Qed.

Lemma on_gettable fr ts m c o w i j k t l : on (fr ++ [key_value k]) ts m c o w →
  length fr < c → nth_slot (fr ++ [key_value k]) i = Some (ts j) →
  tables m !! j = Some t → j ≠ 0 → tab_get t k = l →
  wpt FError oom (on_lua A (lua_gettable A i)) (λ _, on_value fr ts m c o l) w.
Proof.
  intros (s & -> & F & <- & Hr) Hc Hi Ht Hj <-. apply on_lua_wpt.
  destruct (rep_get ts m (mem s) j t k Hr Ht) as (v & Hv & Hd); [by intros ->|].
  eapply wpt_conseq.
  { apply (gettable_ok s i fr (ts j) (key_value k)); [done..|by rewrite F]. }
  { by eapply plain_read. }
  intros ? s' H. exists v. split; [done|]. by eapply on_read.
Qed.

Lemma on_settop fr ts m c o w : on fr ts m c o w →
  wpt FError oom (on_lua A (lua_settop A 0)) (λ _, on [] ts m c o) w.
Proof.
  intros (s & -> & <- & <- & Hr). apply on_lua_wpt. eapply wpt_wp_conseq.
  { apply (settop_ok s 0). lia. }
  intros ? s' [F S]. by eapply on_same.
Qed.

(** A value printed as an integer, and as a string, where it is one. *)
Definition int_line (p : str) (v : value) : list str :=
  if to_number v is Some _ then [p ++ fmt_d (s32 (to_integer v)) ++ [x0a]] else [].

(** A call that changes nothing. *)
Lemma on_lua_pure {X} (p : M (lstate A) X) (x : X) s o : p s = Ok (x, s) →
  on_lua A p (LMain A (Some s) o) = Ok (x, LMain A (Some s) o).
Proof. intros E. unfold on_lua. simpl. by rewrite E, drop_all, app_nil_r. Qed.

Lemma on_isnumber fr v ts m c o w : on (fr ++ [v]) ts m c o w →
  on_lua A (lua_isnumber A (-1)) w = Ok (if to_number v is Some _ then 1%Z else 0%Z, w).
Proof.
  intros (s & -> & F & _). apply on_lua_pure.
  by rewrite (isnumber_ok s _ v) by (rewrite F; apply nth_slot_top).
Qed.

Lemma on_print_int {X} (E : Prop) fr v ts m c o w p (k : M (lmain A) X) Q :
  on (fr ++ [v]) ts m c o w →
  (∀ w', on (fr ++ [v]) ts m c (o ++ int_line p v) w' → wpt FError E k Q w') →
  wpt FError E
    (b ← on_lua A (lua_isnumber A (-1));
     when (b =? 1)%Z
       (n ← on_lua A (lua_tointeger A (-1)); printf A (p ++ fmt_d (s32 n)));; k) Q w.
Proof.
  intros Hw HQ. unfold wpt. rewrite (bind_ok _ _ _ _ _ (on_isnumber _ _ _ _ _ _ _ Hw)).
  unfold int_line in HQ. destruct (to_number v) as [x|]; simpl.
  - destruct Hw as (s & -> & F & C & Hr).
    assert (E1 : on_lua A (lua_tointeger A (-1)) (LMain A (Some s) o) =
      Ok (to_integer v, LMain A (Some s) o)).
    { apply on_lua_pure. apply tointeger_ok. rewrite F. apply nth_slot_top. }
    unfold mbind, M_bind. rewrite E1. simpl.
    apply HQ. rewrite <- (assoc (++)). eexists. eauto.
  - apply HQ. by rewrite app_nil_r.
Qed.

Lemma on_print_str {X} (E : Prop) fr ts m c o w p t (k : M (lmain A) X) Q : (oom → E) →
  on (fr ++ [string t]) ts m c o w →
  (∀ w', on (fr ++ [string t]) ts m c (o ++ [p ++ c_text t ++ [x0a]]) w' → wpt FError E k Q w') →
  wpt FError E
    (b ← on_lua A (lua_isstring A (-1));
     when (b =? 1)%Z
       (x ← on_lua A (lua_tostring A (-1)); printf A (p ++ c_text x));; k) Q w.
Proof.
  intros HE (s & -> & F & C & Hr) HQ.
  assert (N : nth_slot (frame s) (-1) = Some (string t)) by (rewrite F; apply nth_slot_top).
  assert (E1 := on_lua_pure _ _ s o (isstring_ok s _ _ N)).
  unfold wpt. rewrite (bind_ok _ _ _ _ _ E1). rewrite to_str_string. simpl.
  apply wpt_bind, wpt_bind, on_lua_wpt.
  eapply wpt_conseq; [apply (tostring_ok s _ _ t N), to_str_string|done|].
  intros x s' (-> & F' & M' & C'). unfold wpt at 1, printf. simpl.
  rewrite (printed_mem _ _ M'), drop_all, app_nil_r, <- (assoc (++)). apply HQ.
  eexists. split; [done|]. by rewrite F', F, set_slot_top, M', C'.
Qed.

Lemma on_close fr ts m c o w : on fr ts m c o w →
  wpt FError oom (on_lua A (lua_close A)) (λ _ w', out A w' = o) w.
Proof.
  intros (s & -> & _). apply on_lua_wpt. eapply wpt_wp_conseq; [apply close_ok|].
  intros ? s' E. simpl. by rewrite E, drop_all, app_nil_r.
Qed.

(** The state that both programs begin with. *)
Definition lib_mem : lmem := LMem [[(KStr (bytes "print"), LPrint)]] [].

Lemma on_begin {X} (E : Prop) w s (k : unit → M (lmain A) X) Q :
  luaL_newstate A = Some s → (oom → E) →
  (∀ w' ts c, on [] ts lib_mem c (out A w) w' → 20 ≤ c → wpt FError E (k tt) Q w') →
  wpt FError E (modify (λ w, LMain A (luaL_newstate A) (out A w));;
                on_lua A (luaL_openlibs A) ≫= k) Q w.
Proof.
  intros Hs HE HQ. destruct (newstate_ok s Hs) as (F & C & ts & Hr).
  apply wpt_bind. unfold modify, wpt at 1. rewrite Hs. apply wpt_bind, on_lua_wpt.
  eapply wpt_conseq; [by apply (openlibs_ok s ts)|done|].
  intros [] s' (F' & C' & ts' & Hr'). apply (HQ _ ts' (cap s')); [|by rewrite C'].
  rewrite (on_printed _ _ _ _ _ _ Hr Hr'). rewrite app_nil_r.
  eexists. split; [done|]. by rewrite F', F.
Qed.

Lemma main_no_state w : luaL_newstate A = None →
  main A w = Fault FNull ∧ CcallLua A w = Fault FNull.
Proof. intros E. split; unfold main, LuaCallC, CcallLua, on_lua; cbn; by rewrite E. Qed.

(** The rest of a program, after a call that keeps [on]. *)
Lemma wpt_then {X Y} (E : Prop) (p : M (lmain A) X) (k : X → M (lmain A) Y) (R : lmain A → Prop) Q w :
  wpt FError oom p (λ _, R) w → (oom → E) →
  (∀ x w', R w' → wpt FError E (k x) Q w') → wpt FError E (p ≫= k) Q w.
Proof. intros H HE HQ. apply wpt_bind. eapply wpt_conseq; [done|done|]. intros x w'. apply HQ. Qed.

(** A script that is run from an empty stack. *)
Lemma on_script cc name p ts m m' c o w : 1 ≤ c → script name p → ¬ oom → c_calls cc →
  exec cc script_fuel [] p m = Ok (None, m') → on [] ts m c o w →
  wpt FError oom (on_lua A (luaL_dofile A name))
    (λ _ w', ∃ ts', kept_tables m ts ts' ∧
       on [] ts' m' c (o ++ drop (length (lines m)) (lines m')) w') w.
Proof.
  intros Hc Hd Ho Hcc Hx (s & -> & F & C & Hr). apply on_lua_wpt. eapply wpt_wp_conseq.
  { apply (dofile_ok s name p cc ts m m'); try done. unfold room. rewrite F, C. simpl. lia. }
  intros z s' (_ & F' & C' & ts' & Hk & Hr'). exists ts'. split; [done|].
  rewrite (on_printed _ _ _ _ _ _ Hr Hr'). eexists. split; [done|]. by rewrite F', C', F.
Qed.

(** A function of the script that is called with [n] arguments for [r] results. *)
Lemma on_pcall cc fr f vf args vargs n r ts m vs m' c o w : ¬ oom → denotes ts f vf →
  Forall2 (denotes ts) args vargs → n = Z.of_nat (length args) → length fr + r ≤ c → c_calls cc →
  call_value cc script_fuel f args m = Ok (vs, m') → on (fr ++ vf :: vargs) ts m c o w →
  wpt FError oom (on_lua A (lua_pcall A n (Z.of_nat r) 0))
    (λ _ w', ∃ ts' us, kept_tables m ts ts' ∧ Forall2 (denotes ts') (adjust LNil r vs) us ∧
       on (fr ++ us) ts' m' c (o ++ drop (length (lines m)) (lines m')) w') w.
Proof.
  intros Ho Hf Hargs -> Hc Hcc Hx (s & -> & F & C & Hr). apply on_lua_wpt. eapply wpt_wp_conseq.
  { apply (pcall_ok s fr f vf args vargs r cc ts m vs m'); try done. by rewrite C. }
  intros z s' (_ & C' & ts' & us & Hk & Hr' & Hus & F'). exists ts', us. split; [done|].
  split; [done|]. rewrite (on_printed _ _ _ _ _ _ Hr Hr'). eexists. split; [done|].
  by rewrite F', C', C.
Qed.

(** *** The C functions of the scripts *)

Definition no_calls : cfunction → list lval → M lmem (list lval) := λ _ _, fail FError.

Lemma c_calls_none : c_calls no_calls.
Proof. done. Qed.

(** [cfunc_add] adds the numbers among its arguments. *)
Definition lval_number (l : lval) : option double :=
  match l with
  | LNum x => Some x
  | LInt z => if bool_decide (int_min ≤ z ≤ int_max)%Z then Some (of_Z z) else None
  | _ => None
  end.

Definition sums : cfunction → list lval → M lmem (list lval) := λ c args,
  match c, mapM lval_number args with
  | Cfunc_add, Some xs => mret [LNum (fold_left dadd xs dzero)]
  | _, _ => fail FError
  end.

Lemma lval_number_ok ts l v x : denotes ts l v → lval_number l = Some x → as_number v = x.
Proof.
  unfold as_number. destruct l; simpl; try done.
  - intros -> [= ->]. by rewrite to_number_number.
  - intros -> H. case_bool_decide as Hz; [|done]. destruct (to_integer_integer _ Hz) as [_ ->].
    by injection H.
Qed.

Lemma sum_of_args ts args vs xs acc : Forall2 (denotes ts) args vs →
  mapM lval_number args = Some xs → sum_of vs acc = fold_left dadd xs acc.
Proof.
  intros H. revert xs acc. induction H as [|l v args vs Hv H IH]; intros xs acc.
  - by intros [= <-].
  - simpl. intros (x & Hx & (xs' & Hxs & [= <-])%bind_Some)%bind_Some. simpl.
    rewrite (lval_number_ok _ _ _ _ Hv Hx). by apply IH.
Qed.

Lemma c_calls_sums : c_calls sums.
Proof.
  intros c args m vs m' E. unfold sums in E. destruct c; try done.
  destruct (mapM lval_number args) as [xs|] eqn:Ex; [|done]. injection E as <- <-.
  split; [done|]. eexists. split; [done|]. intros ts s Hr Hargs Hc.
  assert (Hl := Forall2_length _ _ _ Hargs). eapply wp_mono.
  { apply cfunc_add_wp. unfold room. lia. }
  intros n s' (-> & F & M & C). split; [done|]. split; [done|].
  rewrite F, length_app. simpl. rewrite Nat.add_sub, drop_app_length. constructor; [|done].
  simpl. by rewrite (sum_of_args _ _ _ _ _ Hargs Ex).
Qed.

(** *** With the scripts *)

(** What module.lua leaves. *)
Definition add_body : list lstat := [SReturn [EAdd (EName (bytes "a")) (EName (bytes "b"))]].
Definition show_body : list lstat :=
  [SCall (bytes "print") [EStr (bytes "tt.show"); EName (bytes "a")]].
Definition lua_Add : lval := LFun [bytes "a"; bytes "b"] add_body.
Definition lua_show : lval := LFun [bytes "a"] show_body.

Definition module_mem : lmem := LMem
  [[(KStr (bytes "Add"), lua_Add); (KStr (bytes "tt"), LTab 1); (KStr (bytes "Obj2"), LInt 2);
    (KStr (bytes "Obj1"), LInt 10); (KStr (bytes "print"), LPrint)];
   [(KStr (bytes "show"), lua_show); (KInt 1, LInt 10); (KInt 2, LInt 20);
    (KStr (bytes "name"), LStr (bytes "kk"))]] [].

Definition show_line : str := bytes "tt.show" ++ [x09] ++ bytes "99" ++ [x0a].

Lemma module_run : exec no_calls script_fuel [] module_lua lib_mem = Ok (None, module_mem).
Proof. vm_compute. reflexivity. Qed.

Lemma Add_run :
  call_value no_calls script_fuel lua_Add [LInt 5; LInt 10] module_mem = Ok ([LInt 15], module_mem).
Proof. vm_compute. reflexivity. Qed.

Lemma show_run : call_value no_calls script_fuel lua_show [LInt 99] module_mem =
  Ok ([], add_line show_line module_mem).
Proof. vm_compute. reflexivity. Qed.

Lemma on_global fr ts m c o w k t l : on fr ts m c o w → length fr < c →
  tables m !! 0 = Some t → tab_get t (KStr k) = l → k ∈ own_names →
  wpt FError oom (on_lua A (lua_getglobal A k)) (λ _, on_value fr ts m c o l) w.
Proof. intros Hw Hc Ht <- Hk. apply on_getglobal; [done..| |done]. by apply not_library. Qed.

Lemma int_line_integer p z : (int_min ≤ z ≤ int_max)%Z →
  int_line p (integer z) = [p ++ fmt_d (s32 z) ++ [x0a]].
Proof. intros H. unfold int_line. by destruct (to_integer_integer z H) as [-> ->]. Qed.

Lemma int_line_nil p : int_line p nil = [].
Proof. unfold int_line. by rewrite to_number_nil. Qed.

(** Make the next call, by its rule. *)
Ltac lua_next := let H := fresh "Hw" in intros ? ? H; cbn [app] in H.
Ltac lua_step tac := eapply wpt_then; [solve [tac]|done|cbv beta; lua_next].
Ltac lua_state := match goal with H : on _ _ _ _ _ ?w |- on _ _ _ _ _ ?w => exact H end.
Ltac lua_side := first [reflexivity|by apply (bool_decide_unpack _)|simpl; lia|done].
Ltac lua_then l tac :=
  eapply (wpt_then _ _ _ (on_value _ _ _ _ _ l));
    [solve [tac; [lua_state|lua_side..]]
    |done|let H := fresh "Hw" in let D := fresh "Hd" in
     intros ? ? (? & D & H); simpl in D; try subst; cbn [app] in H].
Ltac lua_read rule l := lua_then l ltac:(eapply rule).
Ltac lua_table fr k l := lua_then l ltac:(eapply (on_gettable fr _ _ _ _ _ _ 1 k)).
Ltac lua_push := lua_step ltac:(first
  [eapply on_pushinteger; [|lua_state]; simpl; lia
  |eapply on_pushstring; [|lua_state]; simpl; lia]).

Definition module_out : list str :=
  [bytes "Obj1=10" ++ [x0a]; bytes "Add ret=15" ++ [x0a]; show_line;
   bytes "tt.name=kk" ++ [x0a]; bytes "tt[name]=kk" ++ [x0a]; bytes "tt[1]=10" ++ [x0a]].

Lemma on_Add ts c o w f : ¬ oom → on [f; integer 5; integer 10] ts module_mem c o w →
  denotes ts lua_Add f → 1 ≤ c →
  wpt FError oom (on_lua A (lua_pcall A 2 1 0))
    (λ _ w', ∃ ts', on [integer 15] ts' module_mem c o w') w.
Proof.
  intros Ho Hw Hf Hc. eapply wpt_mono.
  { by apply (on_pcall no_calls [] lua_Add f [LInt 5; LInt 10] [integer 5; integer 10] 2 1 ts
      module_mem [LInt 15] module_mem c); [..|apply Add_run|]; repeat constructor. }
  intros _ w' (ts' & us & _ & Hus & Hw'). exists ts'.
  apply Forall2_cons_inv_l in Hus as (u & us' & -> & ->%Forall2_nil_inv_l & ->).
  by rewrite app_nil_r in Hw'.
Qed.

Lemma on_show t ts c o w f : ¬ oom → on [t; f; integer 99] ts module_mem c o w →
  denotes ts lua_show f → 1 ≤ c →
  wpt FError oom (on_lua A (lua_pcall A 1 0 0))
    (λ _ w', ∃ ts', ts' 1 = ts 1 ∧ on [t] ts' (add_line show_line module_mem) c (o ++ [show_line]) w') w.
Proof.
  intros Ho Hw Hf Hc. eapply wpt_mono.
  { by apply (on_pcall no_calls [t] lua_show f [LInt 99] [integer 99] 1 0 ts
      module_mem [] (add_line show_line module_mem) c); [..|apply show_run|]; repeat constructor. }
  intros _ w' (ts' & us & Hk & ->%Forall2_nil_inv_l & Hw'). exists ts'. split; [|done].
  apply Hk. simpl. lia.
Qed.

Lemma CcallLua_wpt w s : luaL_newstate A = Some s →
  script (bytes "module.lua") module_lua → ¬ oom →
  wpt FError oom (CcallLua A) (λ _ w', out A w' = out A w ++ module_out) w.
Proof.
  intros Hs Hd Ho. unfold CcallLua. eapply on_begin; [done..|]. intros w1 ts0 c H1 Hc.
  eapply wpt_then.
  { by apply (on_script no_calls _ module_lua ts0 lib_mem module_mem c);
      [lia|..|apply module_run|]. }
  { done. }
  intros _ w2 (ts1 & _ & H2). lua_read on_global (LInt 10).
  eapply (on_print_int _ []); [lua_state|]; intros. lua_step ltac:(by eapply on_settop).
  lua_read on_global lua_Add. lua_push. lua_push.
  eapply wpt_then; [by eapply on_Add; [done|lua_state|done|lia]|done|]. intros _ w3 (ts2 & H3).
  eapply (on_print_int _ []); [lua_state|]; intros. lua_step ltac:(by eapply on_settop).
  lua_read on_global (LTab 1). lua_read on_getfield lua_show. lua_push.
  eapply wpt_then; [by eapply on_show; [done|lua_state|done|lia]|done|]. intros _ w4 (ts3 & <- & H4).
  set (kk := string (bytes "kk")). lua_read on_getfield (LStr (bytes "kk")).
  eapply (on_print_str _ [ts3 1]); [done|lua_state|]; intros. lua_push.
  lua_table [ts3 1; kk] (KStr (bytes "name")) (LStr (bytes "kk")).
  eapply (on_print_str _ [ts3 1; kk]); [done|lua_state|]; intros. lua_push.
  lua_table [ts3 1; kk; kk] (KInt 1) (LInt 10).
  eapply (on_print_int _ [ts3 1; kk; kk]); [lua_state|]; intros.
  eapply wpt_mono; [eapply on_close; lua_state|]. intros _ wz ->.
  rewrite !int_line_integer by done. by rewrite app_nil_r, <- !(assoc (++)).
Qed.

(** *** Without module.lua *)

Lemma on_missing ts m c o w name : 1 ≤ c → ¬ on_disk name → on [] ts m c o w →
  wpt FError oom (on_lua A (luaL_dofile A name)) (λ _ w', ∃ e, on [e] ts m c o w') w.
Proof.
  intros Hc Hd (s & -> & F & <- & Hr). apply on_lua_wpt. eapply wpt_wp_conseq.
  { apply dofile_missing; [|done]. unfold room. rewrite F. simpl. lia. }
  intros z s' (_ & e & F' & S). exists e. eapply on_same; [done..| |done]. by rewrite F', F.
Qed.

Lemma on_call_nil fr ts m c o w args n r : length fr + r ≤ c →
  Z.of_nat (length args) = n → on (fr ++ nil :: args) ts m c o w →
  wpt FError oom (on_lua A (lua_pcall A n (Z.of_nat r) 0))
    (λ _ w', ∃ e, on (fr ++ [e]) ts m c o w') w.
Proof.
  intros Hr <- (s & -> & F & <- & H). apply on_lua_wpt. eapply wpt_wp_conseq.
  { by apply (pcall_nil s fr). }
  intros z s' (_ & S & e & F'). exists e. by eapply on_same.
Qed.

Lemma on_getfield_nil fr ts m c o w k : length fr < c → on (nil :: fr) ts m (S c) o w →
  on_lua A (lua_getfield A 1 k) w = Fault FError.
Proof.
  intros Hc (s & -> & F & C & _). unfold on_lua. simpl.
  rewrite getfield_nil; [done| |rewrite F; apply nth_slot_first].
  unfold room. rewrite F, C. simpl. lia.
Qed.

Lemma CcallLua_no_module w s : luaL_newstate A = Some s → ¬ on_disk (bytes "module.lua") →
  wpt FError True (CcallLua A) (λ _ _, False) w.
Proof.
  intros Hs Hd. unfold CcallLua. eapply on_begin; [done..|]. intros w1 ts c H1 Hc.
  eapply wpt_then; [by apply (on_missing ts lib_mem c); [lia|..]|done|]. intros _ w2 (e & H2).
  lua_read on_global LNil. eapply (on_print_int _ [e]); [lua_state|]; intros.
  lua_step ltac:(by eapply on_settop). lua_read on_global LNil. lua_push. lua_push.
  eapply wpt_then.
  { eapply (on_call_nil [] ts lib_mem c _ _ [integer 5; integer 10] 2 1);
      [simpl; lia|done|lua_state]. }
  { done. }
  intros ? w3 (e' & H3). eapply (on_print_int _ []); [lua_state|]; intros.
  lua_step ltac:(by eapply on_settop). lua_read on_global LNil. apply wpt_bind. unfold wpt.
  destruct c as [|c]; [lia|]. erewrite on_getfield_nil; [done| |lua_state]. simpl. lia.
Qed.

(** *** Lua calls C *)

Lemma on_register ts m c o w n f : 1 ≤ c → n ∈ own_names → on [] ts m c o w →
  wpt FError oom (on_lua A (lua_register A n f))
    (λ _, on [] ts (set_global n (LC f) m) c o) w.
Proof.
  intros Hc Hn (s & -> & F & <- & Hr). apply on_lua_wpt. eapply wpt_mono.
  { apply (register_rep s ts m); [unfold room; rewrite F; simpl; lia|done|by apply not_library]. }
  intros [] s' (F' & C' & Hr'). rewrite (on_printed _ _ _ _ _ _ Hr Hr').
  unfold set_global, tab_set. simpl. rewrite drop_all, app_nil_r.
  eexists. split; [done|]. by rewrite F', F, C'.
Qed.

(** What callC.lua finds, and leaves. *)
Definition cfunc_mem : lmem := set_global (bytes "cfunc_add_v") (LC Cfunc_add) lib_mem.
Definition callC_sum : double := S754_finite false 6614661952700416 (-48).
Definition callC_mem : lmem := set_global (bytes "aa") (LNum callC_sum) cfunc_mem.

Lemma callC_run : exec sums script_fuel [] callC_lua cfunc_mem = Ok (None, callC_mem).
Proof. vm_compute. reflexivity. Qed.

Lemma sum_text : fmt_f callC_sum = bytes "23.500000".
Proof. vm_compute. reflexivity. Qed.

Lemma on_print_float {X} (E : Prop) fr x ts m c o w p (k : M (lmain A) X) Q :
  on (fr ++ [number x]) ts m c o w →
  (∀ w', on (fr ++ [number x]) ts m c (o ++ [p ++ fmt_f x ++ [x0a]]) w' → wpt FError E k Q w') →
  wpt FError E
    (b ← on_lua A (lua_isnumber A (-1));
     when (b =? 1)%Z
       (y ← on_lua A (lua_tonumber A (-1)); printf A (p ++ fmt_f y));; k) Q w.
Proof.
  intros Hw HQ. unfold wpt. rewrite (bind_ok _ _ _ _ _ (on_isnumber _ _ _ _ _ _ _ Hw)).
  rewrite to_number_number. simpl. destruct Hw as (s & -> & F & C & Hr).
  assert (N : nth_slot (frame s) (-1) = Some (number x)) by (rewrite F; apply nth_slot_top).
  pose proof (on_lua_pure _ _ s o (tonumber_ok s _ _ N)) as E1.
  rewrite to_number_number in E1. unfold mbind, M_bind. rewrite E1. simpl.
  apply HQ. rewrite <- (assoc (++)). eexists. eauto.
Qed.

Lemma LuaCallC_wpt w s : luaL_newstate A = Some s →
  script (bytes "callC.lua") callC_lua → ¬ oom →
  wpt FError oom (LuaCallC A)
    (λ _ w', out A w' = out A w ++ [bytes "aa=23.500000" ++ [x0a]]) w.
Proof.
  intros Hs Hd Ho. unfold LuaCallC. eapply on_begin; [done..|]. intros w1 ts0 c H1 Hc.
  eapply wpt_then; [by apply (on_register ts0 lib_mem c); [lia|by apply (bool_decide_unpack _)|]|done|].
  intros _ w2 H2. eapply wpt_then.
  { by apply (on_script sums _ callC_lua ts0 cfunc_mem callC_mem c);
      [lia|done..|apply c_calls_sums|apply callC_run|]. }
  { done. }
  intros _ w3 (ts1 & _ & H3). lua_read on_global (LNum callC_sum).
  eapply (on_print_float _ []); [lua_state|]; intros.
  eapply wpt_mono; [eapply on_close; lua_state|]. intros _ wz ->.
  by rewrite sum_text, app_nil_r.
Qed.

Lemma LuaCallC_no_script w s : luaL_newstate A = Some s → ¬ on_disk (bytes "callC.lua") →
  wpt FError oom (LuaCallC A) (λ _ w', out A w' = out A w) w.
Proof.
  intros Hs Hd. unfold LuaCallC. eapply on_begin; [done..|]. intros w1 ts c H1 Hc.
  eapply wpt_then; [by apply (on_register ts lib_mem c); [lia|by apply (bool_decide_unpack _)|]|done|].
  intros _ w2 H2.
  eapply wpt_then; [by apply (on_missing ts cfunc_mem c); [lia|..]|done|]. intros _ w3 (e & H3).
  lua_read on_global LNil. unfold wpt. rewrite (bind_ok _ _ _ _ _ (on_isnumber [e] _ _ _ _ _ _ Hw)).
  rewrite to_number_nil. apply (on_close _ _ _ _ _ _ Hw).
Qed.

End Main.
