(* ===== verification/LuaDemo.v ===== *)
(** * LuaDemo: a small Lua

    Tables, globals and the calls of the API over them, with scripts that run in the
    interpreter: an instance of [StackOk], [LuaValues] and [LuaOk]. *)
From stdpp Require Import list strings sets.
From Stdlib Require Import ZArith Strings.Byte SpecFloat.
From S2P Require Import Prelude Bytes CString Double Lua LuaScript LuaRules.

(** ** State *)

Record dlua := DLua { stack : list lval; slots : nat; dmem : lmem }.

Definition key_of (v : lval) : option lkey :=
  match v with LInt z => Some (KInt z) | LStr s => Some (KStr s) | _ => None end.

Definition dget (m : lmem) (t k : lval) : option lval :=
  match t with
  | LTab i => (λ l, match key_of k with Some k => tab_get l k | None => LNil end) <$> tables m !! i
  | _ => None
  end.
Arguments dget : simpl never.

(** More entries of the [i]-th table. *)
Definition dset (i : nat) (e : ltable) (m : lmem) : lmem :=
  LMem (alter (e ++.) i (tables m)) (lines m).

Definition denv : lval := LTab 0.

Definition dnumber (v : lval) : option double :=
  match v with LNum x => Some x | LInt z => Some (of_Z z) | _ => None end.
Definition dinteger (v : lval) : Z := match v with LInt z => z | _ => 0%Z end.
Definition dstring (v : lval) : option str :=
  match v with LStr s => Some s | LInt z => Some (fmt_d z) | _ => None end.

(** ** The stack *)

Definition dpush (v : lval) : M dlua unit := λ s,
  if bool_decide (length (stack s) < slots s)
  then Ok (tt, DLua (stack s ++ [v]) (slots s) (dmem s)) else Fault FBounds.

Definition dslot (i : Z) : M dlua lval := λ s,
  match nth_slot (stack s) i with Some v => Ok (v, s) | None => Fault FBounds end.

Definition dpop : M dlua lval := λ s,
  match last (stack s) with
  | Some v => Ok (v, DLua (take (length (stack s) - 1) (stack s)) (slots s) (dmem s))
  | None => Fault FBounds
  end.

Definition dset_stack (fr : list lval) : M dlua unit :=
  modify (λ s, DLua fr (slots s) (dmem s)).
Definition dset_mem (f : lmem → lmem) : M dlua unit :=
  modify (λ s, DLua (stack s) (slots s) (f (dmem s))).

Definition dindex (t k : lval) : M dlua unit :=
  m ← gets dmem;
  match dget m t k with Some v => dpush v | None => fail FError end.

Definition func_entries (l : list (str * cfunction)) : ltable :=
  rev ((λ p : str * cfunction, (KStr p.1, LC p.2)) <$> l).

Definition room_for_one : M dlua unit := λ s,
  if bool_decide (length (stack s) < slots s) then Ok (tt, s) else Fault FBounds.

Definition dstack : stack_api := {|
  lstate := dlua;
  lua_gettop := gets (λ s, Z.of_nat (length (stack s)));
  lua_settop i := fr ← gets stack; dset_stack (take (Z.to_nat i) fr);
  lua_pushinteger z := dpush (LInt z);
  lua_pushnumber x := dpush (LNum x);
  lua_pushstring s := dpush (LStr s);
  lua_isnumber i := v ← dslot i; mret (if dnumber v is Some _ then 1%Z else 0%Z);
  lua_isstring i := v ← dslot i; mret (if dstring v is Some _ then 1%Z else 0%Z);
  lua_tointeger i := v ← dslot i; mret (dinteger v);
  lua_tonumber i := v ← dslot i; mret (default dzero (dnumber v));
  lua_tostring i :=
    v ← dslot i;
    match dstring v with
    | Some t => fr ← gets stack; dset_stack (set_slot fr i (LStr t));; mret t
    | None => fail FNull
    end;
  luaL_checknumber i := λ s,
    match nth_slot (stack s) i ≫= dnumber with Some x => Ok (x, s) | None => Fault FError end;
  luaL_checkversion := mret tt;
  lua_getglobal k := dindex denv (LStr k);
  lua_getfield i k := t ← dslot i; dindex t (LStr k);
  lua_gettable i := t ← dslot i; k ← dpop; dindex t k;
  lua_createtable _ _ :=
    m ← gets dmem; dpush (LTab (length (tables m)));;
    dset_mem (λ m, LMem (tables m ++ [[]]) (lines m));
  luaL_setfuncs l _ :=
    room_for_one;;
    t ← dslot (-1);
    match t with LTab i => dset_mem (dset i (func_entries l)) | _ => fail FError end;
  lua_register n c := room_for_one;; dset_mem (set_global n (LC c))
|}.

(** ** The scripts *)

(** A C function that a script calls, on a stack of its own. *)
Definition run_c (c : cfunction) (args : list lval) : M lmem (list lval) := λ m,
  match call dstack c with
  | None => Fault FError
  | Some prog =>
    match prog (DLua args (length args + 20) m) with
    | Ok (n, s) => Ok (drop (length (stack s) - Z.to_nat n) (stack s), dmem s)
    | Fault f => Fault f
    end
  end.

Definition script_of (name : str) : option (list lstat) :=
  if decide (name = bytes "module.lua") then Some module_lua
  else if decide (name = bytes "callC.lua") then Some callC_lua else None.

(** A run of Lua code leaves its results, of [n] values or a message, on the stack [fr]. *)
Definition protected (fr : list lval) (p : M lmem (list lval)) : M dlua Z := λ s,
  match p (dmem s) with
  | Ok (vs, m) => Ok (0%Z, DLua (fr ++ vs) (slots s) m)
  | Fault _ => Ok (1%Z, DLua (fr ++ [LStr (bytes "error")]) (slots s) (dmem s))
  end.

Definition demo (files : list str) : lua_api := {|
  base := dstack;
  luaL_newstate := Some (DLua [] 20 (LMem [[]] []));
  luaL_openlibs := dset_mem (set_global (bytes "print") LPrint);
  luaL_dofile name :=
    room_for_one;;
    fr ← gets stack;
    match (if decide (name ∈ files) then script_of name else None) with
    | Some p => protected fr (r ← exec run_c script_fuel [] p; mret (default [] r))
    | None => protected fr (fail FError)
    end;
  lua_pcall n r _ :=
    fr ← gets stack;
    let k := length fr - Z.to_nat n - 1 in
    match drop k fr with
    | f :: args =>
      protected (take k fr)
        (vs ← call_value run_c script_fuel f args; mret (adjust LNil (Z.to_nat r) vs))
    | [] => fail FBounds
    end;
  lua_close := mret tt;
  lua_printed s := lines (dmem s)
|}.

(** What the programs print. *)
Definition printed {X} {A} (r : res (X * lmain A)) : option (list str) :=
  match r with Ok (_, w) => Some (out A w) | Fault _ => None end.

Example demo_main :
  printed (main (demo [bytes "callC.lua"]) (LMain _ None [])) = Some [bytes "aa=23.500000" ++ [x0a]].
Proof. vm_compute. reflexivity. Qed.

Example demo_CcallLua :
  printed (CcallLua (demo [bytes "module.lua"]) (LMain _ None [])) = Some module_out.
Proof. vm_compute. reflexivity. Qed.

Definition fault_of {X} (r : res X) : option fault :=
  match r with Ok _ => None | Fault f => Some f end.

Example demo_no_module : fault_of (CcallLua (demo []) (LMain _ None [])) = Some FError.
Proof. vm_compute. reflexivity. Qed.

(** ** The instance *)

Lemma dslot_ok i s v : nth_slot (stack s) i = Some v → dslot i s = Ok (v, s).
Proof. intros H. unfold dslot. by rewrite H. Qed.

Lemma dpush_ok v s : length (stack s) < slots s →
  dpush v s = Ok (tt, DLua (stack s ++ [v]) (slots s) (dmem s)).
Proof. intros H. unfold dpush. by rewrite bool_decide_eq_true_2. Qed.

Lemma room_for_one_ok s : length (stack s) < slots s → room_for_one s = Ok (tt, s).
Proof. intros H. unfold room_for_one. by rewrite bool_decide_eq_true_2. Qed.

Lemma tab_get_app e l k :
  tab_get (e ++ l) k = if decide (k ∈ e.*1) then tab_get e k else tab_get l k.
Proof.
  induction e as [|[k' v] e IH]; simpl; [done|]. rewrite IH.
  repeat case_decide; set_solver.
Qed.

(** A table, read by a key. *)
Definition tab_value (l : ltable) (k : lval) : lval :=
  match key_of k with Some k => tab_get l k | None => LNil end.

Lemma dget_tab m i k : dget m (LTab i) k = (λ l, tab_value l k) <$> tables m !! i.
Proof. done. Qed.

Lemma dget_other m t k : (∀ i, t ≠ LTab i) → dget m t k = None.
Proof. destruct t; naive_solver. Qed.

Lemma dget_dset m i e k : i < length (tables m) →
  dget (dset i e m) (LTab i) k =
    match key_of k with
    | Some k' => if decide (k' ∈ e.*1) then Some (tab_get e k') else dget m (LTab i) k
    | None => dget m (LTab i) k
    end.
Proof.
  intros [l Hl]%lookup_lt_is_Some_2. rewrite !dget_tab. unfold dset, tab_value. simpl.
  rewrite list_lookup_alter, decide_True, Hl by done. simpl.
  destruct (key_of k); [|done]. rewrite tab_get_app. by case_decide.
Qed.

Lemma dget_dset_ne m i e t k : t ≠ LTab i → dget (dset i e m) t k = dget m t k.
Proof.
  destruct t as [| | | | | | |j]; try done. intros Hj. rewrite !dget_tab. unfold dset. simpl.
  rewrite list_lookup_alter_ne; [done|congruence].
Qed.

Lemma dget_lt m t k v : dget m t k = Some v → ∃ i, t = LTab i ∧ i < length (tables m).
Proof.
  destruct t; try done. intros (l & Hl & _)%fmap_Some. eexists.
  split; [done|]. by eapply lookup_lt_Some.
Qed.

Lemma func_entries_get l k :
  match func_named l k with
  | Some c => KStr k ∈ (func_entries l).*1 ∧ tab_get (func_entries l) (KStr k) = LC c
  | None => KStr k ∉ (func_entries l).*1
  end.
Proof.
  unfold func_entries. induction l as [|[n c] l IH]; simpl; [set_solver|].
  rewrite fmap_app, tab_get_app. destruct (func_named l k) as [d|]; simpl.
  - destruct IH as [Hk <-]. rewrite decide_True by done. set_solver.
  - destruct (decide (n = k)) as [->|Hn].
    + split; [set_solver|]. rewrite decide_False by done. by rewrite decide_True.
    + apply not_elem_of_app. split; [done|]. rewrite list_elem_of_singleton. congruence.
Qed.

Lemma func_entries_key l k : k ∈ (func_entries l).*1 → ∃ x, k = KStr x.
Proof.
  unfold func_entries. intros (p & -> & Hp%list_elem_of_In)%list_elem_of_fmap.
  apply in_rev, list_elem_of_In, list_elem_of_fmap in Hp as (q & -> & _). eauto.
Qed.

Lemma dindex_ok t k s : length (stack s) < slots s →
  wpt FError (False ∨ dget (dmem s) t k = None) (dindex t k)
    (λ _ s', ∃ v, stack s' = stack s ++ [v] ∧ slots s' = slots s ∧
       ∀ w, dget (dmem s) t k = Some w → v = w ∧ dmem s' = dmem s) s.
Proof.
  intros H. unfold wpt, dindex, gets, mbind, M_bind. destruct (dget (dmem s) t k) as [v|] eqn:E.
  - rewrite dpush_ok by done. exists v. simpl. naive_solver.
  - naive_solver.
Qed.

(** Unfold the calls of the demo and their programs. *)
Ltac demo_run := unfold wp, wpt, gets, modify, dset_stack, dset_mem, mbind, M_bind, mret, M_ret.

#[local] Obligation Tactic := idtac.

#[global, program] Instance demo_stack_ok : StackOk dstack := {|
  value := lval; nil := LNil; number := LNum; integer := LInt; string := LStr; func := LC;
  env := denv; to_number := dnumber; to_integer := dinteger; to_str := dstring;
  store := lmem; get := dget; frame := stack; cap := slots; mem := dmem;
  oom := False; other_version := False
|}.
Next Obligation. done. Qed.
Next Obligation. done. Qed.
Next Obligation. done. Qed.
Next Obligation. done. Qed.
Next Obligation. by intros s s' [=]. Qed.
Next Obligation. done. Qed.
Next Obligation. intros s i H. simpl. rewrite Nat2Z.id. done. Qed.
Next Obligation. intros s z H. simpl. demo_run. by rewrite dpush_ok. Qed.
Next Obligation. intros s x H. simpl. demo_run. by rewrite dpush_ok. Qed.
Next Obligation. intros s t H. simpl. demo_run. by rewrite dpush_ok. Qed.
Next Obligation. intros s i v H. simpl. demo_run. by rewrite (dslot_ok _ _ v). Qed.
Next Obligation. intros s i v H. simpl. demo_run. by rewrite (dslot_ok _ _ v). Qed.
Next Obligation. intros s i v H. simpl. demo_run. by rewrite (dslot_ok _ _ v). Qed.
Next Obligation. intros s i v H. simpl. demo_run. by rewrite (dslot_ok _ _ v). Qed.
Next Obligation.
  intros s i v t H Ht. simpl. demo_run. rewrite (dslot_ok _ _ v) by done. by rewrite Ht.
Qed.
Next Obligation. done. Qed.
Next Obligation. done. Qed.
Next Obligation. intros s k H. by apply dindex_ok. Qed.
Next Obligation.
  intros s i t k H Ht. simpl. demo_run. rewrite (dslot_ok _ _ t) by done. by apply dindex_ok.
Qed.
Next Obligation. intros s i k H Ht. simpl. demo_run. by rewrite (dslot_ok _ _ LNil). Qed.
Next Obligation.
  intros s i fr t k Hr H Ht. simpl. demo_run. rewrite (dslot_ok _ _ t) by done.
  unfold dpop. rewrite H, last_snoc, length_app, Nat.add_sub, take_app_length.
  unfold dindex. demo_run. simpl. destruct (dget (dmem s) t k) as [v|] eqn:E; [|naive_solver].
  rewrite dpush_ok by done. exists v. simpl. naive_solver.
Qed.
Next Obligation.
  intros s n m H. simpl. demo_run. rewrite dpush_ok by done. simpl.
  exists (LTab (length (tables (dmem s)))). repeat split.
  - rewrite dget_tab. by rewrite lookup_ge_None_2 by done.
  - rewrite dget_tab. simpl. rewrite list_lookup_middle by done. simpl. unfold tab_value.
    by destruct (key_of k).
  - intros t k Ht. destruct t as [| | | | | | |j]; try done. rewrite !dget_tab. simpl.
    destruct (decide (j < length (tables (dmem s)))) as [Hl|Hl]; [by rewrite lookup_app_l|].
    rewrite !lookup_ge_None_2; [done|lia|rewrite length_app; simpl].
    destruct (decide (j = length (tables (dmem s)))); [congruence|lia].
Qed.
Next Obligation.
  intros s fr t l H F G. simpl. demo_run. rewrite room_for_one_ok by done.
  rewrite (dslot_ok _ _ t) by (rewrite F; apply nth_slot_top).
  destruct (G LNil) as [v Hv]. destruct (dget_lt _ _ _ _ Hv) as (i & -> & Hi).
  split; [done|]. split; [done|]. simpl. split; [|split].
  - intros k. rewrite dget_dset by done. simpl. pose proof (func_entries_get l k) as Hk.
    destruct (func_named l k) as [c|].
    + destruct Hk as [Hk ->]. by rewrite decide_True.
    + by rewrite decide_False.
  - intros k Hk. rewrite dget_dset by done. destruct (key_of k) as [k'|] eqn:Ek; [|done].
    rewrite decide_False; [done|]. intros [x ->]%func_entries_key. destruct k; naive_solver.
  - intros u k Hu. by apply dget_dset_ne.
Qed.

#[global, program] Instance demo_values files :
  LuaValues (demo files) (StackOk0 := demo_stack_ok) := {|
  library := [];
  on_disk name := name ∈ files;
  script name p := name ∈ files ∧ script_of name = Some p;
  is_function ps b v := v = LFun ps b;
  is_print v := v = LPrint;
  rep ts m st := (∀ i, ts i = LTab i) ∧ st = m
|}.

Section Runs.
Context (files : list str).

Lemma denotes_eq (ts : nat → lval) l v : (∀ i, ts i = LTab i) →
  denotes (A := demo files) ts l v ↔ v = l.
Proof. intros H. destruct l; try done. simpl. by rewrite H. Qed.

Lemma Forall2_denotes (ts : nat → lval) ls vs : (∀ i, ts i = LTab i) →
  Forall2 (denotes (A := demo files) ts) ls vs ↔ vs = ls.
Proof.
  intros H. split.
  - induction 1 as [|l v ls vs Hv _ IH]; [done|]. by rewrite IH, (proj1 (denotes_eq ts l v H) Hv).
  - intros ->. induction ls; constructor; [by apply denotes_eq|done].
Qed.

(** The C functions of the demo return what the oracle says. *)
Lemma run_c_ok cc : c_calls (A := demo files) cc →
  ∀ c args m r, cc c args m = Ok r → run_c c args m = Ok r.
Proof.
  intros Hcc c args m [vs m'] E. destruct (Hcc _ _ _ _ _ E) as (-> & prog & Hp & H).
  unfold run_c. change (call dstack c = Some prog) in Hp. rewrite Hp.
  specialize (H LTab (DLua args (length args + 20) m) ltac:(by split)
    ltac:(by apply Forall2_denotes) ltac:(done)).
  apply wp_elim in H as (n & s' & E' & -> & M & Hvs). simpl in E', M, Hvs. rewrite E'.
  apply Forall2_denotes in Hvs; [|done]. by rewrite Nat2Z.id, Hvs, M.
Qed.

Lemma run_exec cc p m r : c_calls (A := demo files) cc →
  exec cc script_fuel [] p m = Ok r → exec run_c script_fuel [] p m = Ok r.
Proof. intros H. apply (interpreter_refine cc run_c (run_c_ok cc H)). Qed.

Lemma run_call cc f args m r : c_calls (A := demo files) cc →
  call_value cc script_fuel f args m = Ok r → call_value run_c script_fuel f args m = Ok r.
Proof. intros H. apply (interpreter_refine cc run_c (run_c_ok cc H)). Qed.

End Runs.

(** The stack under a function and its arguments. *)
Lemma under_call {V} (fr : list V) f args :
  length (fr ++ f :: args) - Z.to_nat (Z.of_nat (length args)) - 1 = length fr.
Proof. rewrite length_app. simpl. lia. Qed.

#[local] Arguments exec : simpl never.
#[local] Arguments call_value : simpl never.

#[global, program] Instance demo_ok files : LuaOk (demo files).
Next Obligation. intros files n _. apply not_elem_of_nil. Qed.
Next Obligation. intros files ts m st [H _]. apply H. Qed.
Next Obligation.
  intros files ts m st i t k [H ->] Ht _. exists (tab_get t k).
  split; [|by apply denotes_eq]. rewrite H. destruct k; simpl; by rewrite dget_tab, Ht.
Qed.
Next Obligation. intros files ts m s [_ H]. simpl in *. by rewrite H. Qed.
Next Obligation. intros files s s' H. simpl in *. by rewrite H. Qed.
Next Obligation. intros files s [= <-]. split; [done|]. split; [done|]. by exists LTab. Qed.
Next Obligation.
  intros files s ts m [H E]. split; [done|]. split; [done|]. exists ts. split; [done|].
  simpl in *. by rewrite E.
Qed.
Next Obligation.
  intros files s ts m n c H [Ht E] _. simpl. demo_run. rewrite room_for_one_ok by done.
  simpl. simpl in E. by rewrite E.
Qed.
Next Obligation.
  intros files s name H Hn. simpl. demo_run. rewrite room_for_one_ok by done.
  rewrite decide_False by done. unfold protected. simpl. split; [done|].
  by exists (LStr (bytes "error")).
Qed.
Next Obligation.
  intros files s name p cc ts m m' H [Hn Hp] _ [Ht E] Hcc Hx. simpl. demo_run.
  rewrite room_for_one_ok by done. rewrite decide_True, Hp by done. unfold protected, mbind, M_bind.
  simpl in E. rewrite E. rewrite (run_exec files cc p m _ Hcc Hx). simpl. rewrite app_nil_r.
  split; [done|]. split; [done|]. split; [done|]. by exists ts.
Qed.
Next Obligation.
  intros files s fr f vf args vargs r cc ts m vs m' _ [Ht E] Hf Hargs F Hr Hcc Hx.
  apply denotes_eq in Hf as ->; [|done]. apply Forall2_denotes in Hargs as ->; [|done].
  simpl in fr, F, E. simpl. demo_run. rewrite F, under_call, drop_app_length, take_app_length.
  unfold protected, mbind, M_bind. rewrite E, (run_call files cc f args m _ Hcc Hx). simpl.
  rewrite Nat2Z.id. split; [done|]. split; [done|]. exists ts, (adjust LNil r vs).
  split; [done|]. split; [done|]. split; [exact (proj2 (Forall2_denotes files ts _ _ Ht) eq_refl)|done].
Qed.
Next Obligation.
  intros files s fr args r F Hr. simpl in fr, args, F. simpl. demo_run.
  rewrite F, under_call, drop_app_length, take_app_length.
  split; [done|]. split; [done|]. by exists (LStr (bytes "error")).
Qed.
Next Obligation. done. Qed.
