(* ===== verification/LuaSpec.v ===== *)
(** * LuaSpec: what the programs that embed Lua do

    The values of the C functions, the tables of the two modules, and what
    the two programs of main.c print, with and without their scripts. *)
From stdpp Require Import list strings sets.
From Stdlib Require Import ZArith Strings.Byte SpecFloat.
From S2P Require Import Prelude Bytes CString Double Lua LuaScript LuaRules LuaDemo.

Section Functions.
Context {A : stack_api} `{!StackOk A}.

(** C38: [cfunc_add] pushes the sum of its arguments, any number of them, added from the
    first on as doubles with 0 for what is no number; madd and msub push the sum and the
    difference of their first two arguments, madd also its greeting, and raise an error
    when one of the two is missing or no number. *)
Theorem lua_functions_correct (s : lstate A) : length (frame s) + 2 ≤ cap s →
  wp (cfunc_add A) (λ n s', n = 1%Z ∧ pushed s (number (sum_of (frame s) dzero)) s') s ∧
  (∀ x y, arg s 1 = Some x → arg s 2 = Some y →
     wpt FError oom (module_add A)
       (λ n s', n = 2%Z ∧ same s s' ∧
          frame s' = frame s ++ [number (dadd x y); string (bytes "hello world")]) s ∧
     wp (module_sub A) (λ n s', n = 1%Z ∧ pushed s (number (dsub x y)) s') s) ∧
  (arg s 1 = None ∨ arg s 2 = None →
     module_add A s = Fault FError ∧ module_sub A s = Fault FError).
Proof.
  intros Hr. assert (Hr' : room s) by (unfold room; lia).
  split; [by apply cfunc_add_wp|]. split; [|by apply module_args_error].
  intros x y Hx Hy. split; [|by apply module_sub_wp].
  eapply wpt_mono; [by apply module_add_wpt|]. naive_solver.
Qed.

(** A module: one table that was not there, with these functions, and no other change. *)
Definition module_made (s : lstate A) (l : list (str * cfunction)) (n : Z) (s' : lstate A) : Prop :=
  n = 1%Z ∧ ∃ t, frame s' = frame s ++ [t] ∧ cap s' = cap s ∧
    (∀ k, get (mem s) t k = None) ∧
    (∀ k, get (mem s') t (string k) =
       Some (match func_named l k with Some c => func c | None => nil end)) ∧
    (∀ k, (∀ x, k ≠ string x) → get (mem s') t k = Some nil) ∧
    only_at t (mem s) (mem s').

(** Opening a module leaves one new table on the stack, in which madd and msub, or
    init and error, name their C functions and everything else is nil, and changes no
    other table. *)
Lemma lua_modules (s : lstate A) : length (frame s) + 2 ≤ cap s →
  wpt FError oom (luaopen_module_core_aa A)
    (module_made s [(bytes "madd", Module_add); (bytes "msub", Module_sub)]) s ∧
  wpt FError (oom ∨ other_version) (luaopen_beelog A)
    (module_made s [(bytes "init", Linit); (bytes "error", Lerror)]) s.
Proof.
  intros Hr. split; [by apply new_module_wpt|].
  unfold luaopen_beelog. apply wpt_bind.
  eapply wpt_conseq; [apply checkversion_ok|by right|]. intros [] s1 (F & M & C).
  eapply wpt_conseq; [apply new_module_wpt; by rewrite F, C|by left|].
  intros n s'. unfold module_made. rewrite F, M, C. done.
Qed.

End Functions.

Definition demo_state (fr : list lval) : dlua := DLua fr 30 (LMem [[]] []).

Lemma lua_functions_correct_witness :
  wp (cfunc_add dstack)
    (λ n s', n = 1%Z ∧ pushed (demo_state [LInt 5; LNil; LInt 2]) (LNum (of_Z 7)) s')
    (demo_state [LInt 5; LNil; LInt 2]).
Proof.
  exact (proj1 (lua_functions_correct (A := dstack) (demo_state [LInt 5; LNil; LInt 2])
    ltac:(by apply (bool_decide_unpack _)))).
Defined.

Lemma lua_modules_witness :
  wpt FError oom (luaopen_module_core_aa dstack)
    (module_made (demo_state []) [(bytes "madd", Module_add); (bytes "msub", Module_sub)])
    (demo_state []).
Proof. exact (proj1 (lua_modules (A := dstack) (demo_state []) ltac:(by apply (bool_decide_unpack _)))). Defined.

Section Main.
Context {A : lua_api} `{!StackOk A} `{!LuaValues A} `{!LuaOk A}.

Lemma no_oom {X S} (m : M S X) Q s : ¬ oom → wpt FError oom m Q s → wp m Q s.
Proof. unfold wpt, wp, safely. destruct (m s) as [[]|]; naive_solver. Qed.

(** C37: Where callC.lua holds its script and there is enough memory, the program prints
    aa=23.500000, the sum that the script got from [cfunc_add], and ends; and where
    module.lua holds its script, [CcallLua] prints six lines, the third of which is
    printed by the script: what the script made of Obj1, Add and tt, name twice by its
    two ways, within the slots of its stack. *)
Theorem lua_main_correct (w : lmain A) s : luaL_newstate A = Some s → ¬ oom →
  (script (bytes "callC.lua") callC_lua →
     wp (main A)
       (λ n w', n = 0%Z ∧ out A w' = out A w ++ [bytes "aa=23.500000" ++ [x0a]]) w) ∧
  (script (bytes "module.lua") module_lua →
     wp (CcallLua A)
       (λ _ w', out A w' = out A w ++
          [bytes "Obj1=10" ++ [x0a]; bytes "Add ret=15" ++ [x0a];
           bytes "tt.show" ++ [x09] ++ bytes "99" ++ [x0a]; bytes "tt.name=kk" ++ [x0a];
           bytes "tt[name]=kk" ++ [x0a]; bytes "tt[1]=10" ++ [x0a]]) w).
Proof.
  intros Hs Ho. split; intros Hd.
  - unfold main. apply wp_bind. eapply wp_mono; [by eapply no_oom, LuaCallC_wpt|].
    intros ? w' Hw. by apply wp_ret.
  - by eapply no_oom, CcallLua_wpt.
Qed.

(** C39: Without module.lua, which [CcallLua] does not notice, it ends in an error of Lua
    that nothing catches, at the first use of its table; without callC.lua the program
    prints nothing; and without a state of Lua both use a null pointer. *)
Theorem lua_main_errors (w : lmain A) :
  (luaL_newstate A = None → main A w = Fault FNull ∧ CcallLua A w = Fault FNull) ∧
  ∀ s, luaL_newstate A = Some s →
    (¬ on_disk (bytes "module.lua") → CcallLua A w = Fault FError) ∧
    (¬ on_disk (bytes "callC.lua") →
       wpt FError oom (main A) (λ n w', n = 0%Z ∧ out A w' = out A w) w).
Proof.
  split; [apply main_no_state|]. intros s Hs. split; intros Hd.
  - pose proof (CcallLua_no_module w s Hs Hd) as H. unfold wpt in H.
    destruct (CcallLua A w) as [[]|f]; [done|]. by destruct H as [-> _].
  - unfold main. apply wpt_bind.
    eapply wpt_mono; [by eapply LuaCallC_no_script|]. done.
Qed.

End Main.

Definition both_scripts : lua_api := demo [bytes "module.lua"; bytes "callC.lua"].
Definition before (A : lua_api) : lmain A := LMain A None [].

Lemma both_scripts_there :
  script (A := both_scripts) (bytes "callC.lua") callC_lua ∧
  script (A := both_scripts) (bytes "module.lua") module_lua.
Proof.
  change ((bytes "callC.lua" ∈ [bytes "module.lua"; bytes "callC.lua"] ∧
           script_of (bytes "callC.lua") = Some callC_lua) ∧
          (bytes "module.lua" ∈ [bytes "module.lua"; bytes "callC.lua"] ∧
           script_of (bytes "module.lua") = Some module_lua)).
  split; (split; [by apply (bool_decide_unpack _)|reflexivity]).
Qed.

Lemma lua_main_correct_witness :
  wp (main both_scripts)
    (λ n w', n = 0%Z ∧ out both_scripts w' = [bytes "aa=23.500000" ++ [x0a]]) (before both_scripts) ∧
  wp (CcallLua both_scripts) (λ _ w', out both_scripts w' = module_out) (before both_scripts).
Proof.
  pose proof (lua_main_correct (A := both_scripts) (StackOk0 := demo_stack_ok)
    (before both_scripts) _ eq_refl (λ F : False, F)) as [H1 H2].
  split; [apply H1|apply H2]; apply both_scripts_there.
Defined.

Lemma lua_main_errors_witness : CcallLua (demo []) (before (demo [])) = Fault FError.
Proof.
  refine (proj1 (proj2 (lua_main_errors (A := demo []) (StackOk0 := demo_stack_ok)
    (before (demo []))) _ eq_refl) _).
  exact (not_elem_of_nil _).
Defined.
